(* ===== verification/_CoqProject ===== *)
-Q . S2P
Prelude.v
Order.v
Keys.v
Slices.v
Message.v
Node.v
LeafMerge.v
Flush.v
Iterator.v
Tree.v
Cursor.v
Spec.v
Cascade.v
Options.v
Program.v
Size.v
Batch.v
Disk.v
Codec.v
Binary.v
Gob.v
Join.v
Concurrent.v
Cost.v
Shape.v
Count.v
Examples.v
Run.v
Correctness.v
Performance.v
ExampleTheorems.v
