(* ===== verification/Prelude.v ===== *)
(** * fractaltree: verification of the B-epsilon-tree

    fractaltree is a Go library: an ordered map kept as a B-epsilon-tree.  An
    internal node carries a buffer of messages (puts, deletes, upserts); a write
    appends a message to the root's buffer, and a buffer over its capacity is
    flushed: the messages of the child that has the most of them move one level
    down, until they are applied to a leaf.  Reads combine the pending messages
    of a path with the leaf at its end.  This development models the library and
    its example programs and proves that the library is the sorted map it
    promises, that its flushes are amortised and its height logarithmic, and what
    the examples print.

    ** Files

    The files, in dependency order, with the sources (under src/) they model.
    - [Prelude]: panics as [option], zero values, loops that can panic, automation.
    - [Order]: the comparators a tree is generic in, sorted sequences, [alookup].
    - [Keys]: the key types of the examples: strings, and the structs of
      examples/comparator, eviction, leaderboard and ratelimiter.
    - [Slices]: what the sources use of Go's slices and package [slices].
    - [Message]: message.go, upsert.go.  [run] plays messages on a value.
    - [Node]: node.go and the records of tree.go and options.go.  [den n k] is the
      value of key [k] in the subtree [n], [wf_node] the structural invariant.
    - [LeafMerge]: the half of flush.go that applies a batch to a leaf.
    - [Flush]: the other half of flush.go, [flushNode] and the splits.
    - [Iterator]: iterator.go.
    - [Tree]: tree.go, the methods of [BETree]; the invariant [tree_ok] and the
      meaning [lookup] of a tree.
    - [Cursor]: cursor.go.
    - [Spec]: the sorted map; [exec] (the methods of interface [Tree]) refines
      [spec] (the same methods of the sorted map); the lock each method takes.
    - [Cascade]: the same methods with a trace of their flushes, and as big-step
      relations ([flushes], [calls]) that the methods are proved to follow.
    - [Options]: options.go, errors.go and the constructors of tree.go; which floats
      pass as an epsilon.
    - [Program]: programs that print (the monad [io]), package fmt.
    - [Size]: what [Len] is worth, from a relation between what was counted and
      what is live; the histories after which it is exact.
    - [Batch]: loops of writes: counting, and loading distinct keys.
    - [Disk]: disktree.go, the interface of codec.go, the in-memory flusher of
      examples/disktree-varint/main.go; [disk_exec] refines [disk_spec], a sorted
      map beside a flusher.
    - [Codec]: the varint string codec of the same example.
    - [Binary]: the fixed-size codec of examples/disktree-binary/main.go.
    - [Gob]: [GobCodec] of codec.go, with encoding/gob at int and string.
    - [Join]: the two merge joins of examples/mergejoin/main.go.
    - [Concurrent]: goroutines that share a tree behind its [sync.RWMutex].
    - [Cost]: the flushes of a history, counted, by rule induction on [calls].
    - [Shape]: its leaves, its height, what its buffers and leaves can hold.
    - [Count]: the searches in a monad that counts calls of the comparator.
    - [Examples]: the [main] of every program under examples/, on trees with any
      options.
    - [Run]: rules and tactics that run a program on trees of which only the
      contents are known.
    - [Correctness]: the properties of the library, each with an instance; at its
      end the places where a comment and the code disagree.
    - [Performance]: the properties of its shape and of the work it does.
    - [ExampleTheorems]: the properties of the examples.

    Definitions keep the source's names; where Rocq or another file has the name
    the definition is [Cursor_], [c_Key], [c_Value], [c_Close], [Option_],
    [DiskPut], [DiskGet] .. [DiskClose] (the methods of [DiskBETree]), [Put_mu],
    [Get_mu] .. (how a method takes [t.mu]).  A program is named after its
    directory.

    ** State and effects

    A method is a function from a tree record to [option] of a new record and its
    Go result; [None] is a run-time panic (an index out of range, a nil function
    call) or a loop that runs out of fuel.  The theorems prove that operations
    return [Some], so they exclude both.  The tree owns its nodes and no slice is
    shared between them, so a node is a value; the in-place array code of the leaf
    merges is modelled on arrays with its indices.  [size], [pendingDeletes] and
    the lengths are integers without a bound: they count entries in memory.
    Integer values of [Increment] wrap at 64 bits; lengths in varints have 64 bits.

    ** Fuel

    - binary searches: the length of the sequence (the interval shrinks);
    - [scan_while], [dedup_loop], [resolve_loop], [resolve_levels]: the number of
      elements (each iteration consumes one);
    - [compact_loop]: one more than leaf keys and messages together;
    - [flushNode_fuel]: one more than the height (each call goes one level down);
    - joins and walks take their fuel as an argument, and the theorems say how
      much is enough (the lengths of the snapshots).

    ** Theorem groups (C34-C40 in [ExampleTheorems]; C17-C19, C25 in [Performance];
    the others in [Correctness])

    - C1-C8: histories of calls against the sorted map ([Len] where the calls are
      counted for what they do), absence of panics, what a nil callback does, and
      each write and read of a tree on its own, on every branch.
    - C9-C10: the pairs of [All], [Descend], [Range], [DescendRange], what a
      consumer that stops early is handed, and the children a range never visits.
    - C11-C14: interleaved goroutines: linearizability, no races, completion
      within five steps per call, no starvation of a writer that waits.
    - C15-C16: one flush: meaning, order, counters, and the greedy share.
    - C17: flushing is amortised: at most height times fanout / (bufferCap + 1)
      calls of [flushNode] per message buffered.
    - C18-C19: the height is logarithmic in the entries written; buffers and leaves
      are bounded by their depth, although a flush empties one bucket only.
    - C20-C23: applying batches to leaves, and splitting; the fast paths agree
      with the slow.
    - C24: the size counter: when it is exact, when it is a bound.
    - C25: the fast path of a put is right, and how many comparisons it and a read
      cost.
    - C26-C28: edits of leaves, searches of buffers, cursors.
    - C29-C30: construction: errors and derived parameters.
    - C31-C33: the disk tree and its flusher, the merge joins.
    - C34-C37: the codecs (of the examples, and [GobCodec]) and comparators; prefix
      scans and counters on any tree.
    - C38-C40: the programs: bulk import in any order, concurrent readers and
      writers under any interleaving, and the exact output of the others whatever
      the options of their trees.

    ** Assumptions

    A comparator is a total preorder ([Comparator]); keys it identifies are the
    same key ([keq]).  Callbacks are total functions without side effects on the
    tree.  [math.Pow] and the conversion of an out-of-range float to int are
    arguments; only [derived_params] assumes anything of [math.Pow] ([PowSpec]: three
    special cases of its documentation).  The longest slice a machine makes is an
    argument too ([Memory]), 4096 elements at least: [newLeaf] panics above it.
    Flushers and codecs of [DiskBETree] are arguments without laws, and so are what
    encoding/gob makes of a message that defines a type, the shuffle, the clock and the heap statistics of
    examples/bulkimport (its theorem assumes that a shuffle permutes).

    ** Not modelled

    encoding/gob at types other than int and string; tests and benchmarks; memory
    reuse and allocation ([flushBuckets], and the capacities of slices but for
    [newLeaf]'s: those that splits give, at most the fanout or the buffer capacity,
    are taken to be allocatable); callbacks that panic or call
    the tree they run under (the latter deadlock); package
    fmt beyond the verbs of the examples.  The mutex of the in-memory flusher is not
    modelled: the tree never calls the flusher but in [Close].  The flusher of
    examples/disktree-gob is the one of examples/disktree-varint once more.  A
    [spec_float] has one NaN, the one of [math.NaN]; payloads are bits only where
    [Binary] writes them ([Float64]).

    ** Plan

    Every operation of the library and every example program is modelled.  Next:
    encoding/gob at structs, whose messages define a type;
    the comparisons of the writes that flush. *)

From stdpp Require Export prelude list sorting.

(** ** Go run-time behaviour shared by every component

    A Go function that can panic (index out of range, nil function call) is a
    function into [option]: [None] is the panic.  The bounded loops carry fuel
    and running out of fuel is [None] as well, so the theorems that an
    operation returns [Some _] exclude both. *)

Declare Scope go_scope.
Delimit Scope go_scope with go.

(** Zero values: [var zero V]. *)
Class Zero (A : Type) := zero : A.
#[global] Hint Mode Zero ! : typeclass_instances.
#[global] Instance Zero_Z : Zero Z := 0%Z.
#[global] Instance Zero_nat : Zero nat := 0.

(** [for _, x := range l { acc = f(acc, x) }] where the body may panic. *)
Fixpoint foldM {A B} (f : A → B → option A) (acc : A) (l : list B) : option A :=
  match l with
  | [] => Some acc
  | x :: l => acc ← f acc x; foldM f acc l
  end.

(** [l[i] = x]. *)
Definition update {A} (i : nat) (x : A) (l : list A) : option (list A) :=
  if decide (i < length l) then Some (<[i := x]> l) else None.

(** The value and presence flag Go returns for an optional value. *)
Definition comma_ok {V} `{Zero V} (o : option V) : V * bool :=
  match o with Some v => (v, true) | None => (zero, false) end.

(** ** Automation *)

Create HintDb fractal discriminated.
#[export] Hint Constants Opaque : fractal.
#[export] Hint Variables Opaque : fractal.
Create Rewrite HintDb fractal_rw.

(** Case analysis on every decidable test in the goal. *)
Ltac case_tests := repeat (case_decide; simplify_eq/=; try lia).

(** Membership in explicit lists. *)
Ltac mem := repeat first [rewrite elem_of_cons in * | rewrite elem_of_app in *]; tauto.

Ltac list_lia := rewrite ?length_app, ?length_fmap, ?length_take, ?length_drop,
  ?length_insert, ?length_replicate in *; simpl in *; lia.

(** ** Generic lemmas *)

Section foldM.
Context {A B : Type} (f : A → B → option A).

Lemma foldM_app acc l1 l2 :
  foldM f acc (l1 ++ l2) = (foldM f acc l1 ≫= λ acc', foldM f acc' l2).
Proof.
  revert acc; induction l1 as [|x l1 IH]; intros acc; simpl; [done|].
  destruct (f acc x); simpl; auto.
Qed.

End foldM.

Section lists.
Context {A : Type}.
Implicit Types l : list A.

Lemma update_Some i (x : A) l :
  i < length l → update i x l = Some (<[i := x]> l).
Proof. intros. unfold update. by rewrite decide_True. Qed.

(** Replacing the element after [l1]. *)
Lemma lookup_replace l1 (x y : A) l2 i :
  (l1 ++ y :: l2) !! i = if decide (i = length l1) then Some y else (l1 ++ x :: l2) !! i.
Proof.
  case_decide as Hi; [subst i; by apply list_lookup_middle|]. destruct (decide (i < length l1)).
  - by rewrite !lookup_app_l by done.
  - rewrite !lookup_app_r by lia. by destruct (i - length l1) eqn:E; [lia|].
Qed.

Lemma update_middle i (x y : A) l1 l2 :
  i = length l1 → update i x (l1 ++ y :: l2) = Some (l1 ++ x :: l2).
Proof.
  intros ->. rewrite update_Some by (rewrite length_app; simpl; lia).
  f_equal. replace (length l1) with (length l1 + 0) by lia.
  by rewrite insert_app_r.
Qed.

Lemma lookup_middle i l1 l2 (x : A) :
  i = length l1 → (l1 ++ x :: l2) !! i = Some x.
Proof. intros ->. by apply list_lookup_middle. Qed.

Lemma app_cons_assoc l1 (x : A) l2 : l1 ++ x :: l2 = (l1 ++ [x]) ++ l2.
Proof. by rewrite <-app_assoc. Qed.

(** Splitting a list at a position that is in range. *)
Lemma list_split_at l i :
  i ≤ length l → ∃ l1 l2, l = l1 ++ l2 ∧ length l1 = i.
Proof.
  intros. exists (take i l), (drop i l).
  split; [by rewrite take_drop|]. rewrite length_take. lia.
Qed.

Lemma list_split_lookup l i x :
  l !! i = Some x → ∃ l1 l2, l = l1 ++ x :: l2 ∧ length l1 = i.
Proof.
  intros Hi. exists (take i l), (drop (S i) l).
  split; [by rewrite take_drop_middle|].
  apply lookup_lt_Some in Hi. rewrite length_take. lia.
Qed.

Lemma filter_none (P : A → Prop) `{!∀ x, Decision (P x)} l :
  Forall (λ x, ¬ P x) l → filter P l = [].
Proof.
  induction 1 as [|x l HP _ IH]; [done|]. by rewrite filter_cons_False.
Qed.

Lemma filter_all (P : A → Prop) `{!∀ x, Decision (P x)} l :
  Forall P l → filter P l = l.
Proof.
  induction 1 as [|x l HP _ IH]; [done|]. rewrite filter_cons_True by done.
  by rewrite IH.
Qed.

Lemma Forall_filter_sub (Q : A → Prop) (P : A → Prop) `{!∀ x, Decision (P x)} l :
  Forall Q l → Forall Q (filter P l).
Proof.
  rewrite !Forall_forall. intros HQ x [_ Hx]%list_elem_of_filter. auto.
Qed.

Lemma length_filter_le (P : A → Prop) `{!∀ x, Decision (P x)} l :
  length (filter P l) ≤ length l.
Proof.
  induction l as [|x l IH]; [done|].
  rewrite filter_cons. case_decide; simpl; lia.
Qed.

Lemma filter_iff (P Q : A → Prop) `{!∀ x, Decision (P x), !∀ x, Decision (Q x)} l :
  (∀ x, x ∈ l → (P x ↔ Q x)) → filter P l = filter Q l.
Proof.
  induction l as [|x l IH]; intros HPQ; [done|].
  assert (P x ↔ Q x) by (apply HPQ; left).
  assert (filter P l = filter Q l) as E by (apply IH; intros; apply HPQ; by right).
  rewrite !filter_cons, E. case_decide; case_decide; tauto.
Qed.

(** Collecting the results of a loop in which no iteration panics. *)
Lemma mapM_id_total (l : list (option A)) :
  (∀ x, x ∈ l → is_Some x) →
  ∃ r, mapM id l = Some r ∧ length r = length l
       ∧ ∀ j a, r !! j = Some a → l !! j = Some (Some a).
Proof.
  intros Hl. destruct (mapM id l) as [r|] eqn:E.
  - exists r. apply mapM_Some in E. split; [done|]. split; [symmetry; by eapply Forall2_length|].
    intros j a Ha. destruct (Forall2_lookup_r _ _ _ _ _ E Ha) as (x & Hx & Ex).
    unfold id in Ex. by rewrite Hx, Ex.
  - apply mapM_None, Exists_exists in E as (x & Hx & E). destruct (Hl x Hx) as [a Ha].
    unfold id in E. congruence.
Qed.

End lists.

#[export] Hint Resolve Forall_filter_sub : fractal.
#[export] Hint Rewrite @foldM_app @filter_app @foldl_app : fractal_rw.
