(* ===== verification/Order.v ===== *)
(** * Keys and comparators

    The trees are generic in the key type and take the order as a function
    [func(K, K) int] (tree.go, [NewWithCompare]).  This file states what the
    documentation requires of that function, as the class [Comparator], and
    develops sorted sequences up to the equivalence it induces: a comparator may
    identify distinct keys (a case-insensitive order does), so keys are compared
    by the setoid relation [keq] and never by Leibniz equality.

    [alookup] is the abstract content of a sorted run of pairs, the common
    currency of leaves, buffers, iterators and the abstract store. *)

From S2P Require Import Prelude.

Class Comparator {K : Type} (compare : K → K → Z) : Prop := {
  compare_refl x : compare x x = 0%Z;
  compare_flip x y : (compare x y < 0 ↔ 0 < compare y x)%Z;
  compare_trans x y z :
    (compare x y ≤ 0 → compare y z ≤ 0 → compare x z ≤ 0)%Z
}.

(** [cmp.Compare] of the Go standard library at the integers, the comparator
    [New] installs for integer keys. *)
Definition int_compare (x y : Z) : Z :=
  if decide (x < y)%Z then (-1)%Z else if decide (y < x)%Z then 1%Z else 0%Z.

(** [cmp.Compare] at a type of the constraint [cmp.Ordered]. *)
Class Ordered (K : Type) := cmp_Compare : K → K → Z.
#[global] Hint Mode Ordered ! : typeclass_instances.
#[global] Instance Ordered_Z : Ordered Z := int_compare.

(** Key equivalence. *)
Definition keq {K} (compare : K → K → Z) (x y : K) : Prop := compare x y = 0%Z.

(** A sequence strictly, or weakly, sorted by the keys [f] projects. *)
Definition ksorted {A K} (compare : K → K → Z) (f : A → K) : list A → Prop :=
  StronglySorted (λ a b, compare (f a) (f b) < 0)%Z.
Definition kwsorted {A K} (compare : K → K → Z) (f : A → K) : list A → Prop :=
  StronglySorted (λ a b, compare (f a) (f b) ≤ 0)%Z.

(** The elements below, at and above a key. *)
Definition below {A K} (compare : K → K → Z) (f : A → K) (k : K) : list A → Prop :=
  Forall (λ a, compare (f a) k < 0)%Z.
Definition at_key {A K} (compare : K → K → Z) (f : A → K) (k : K) : list A → Prop :=
  Forall (λ a, compare (f a) k = 0)%Z.
Definition above {A K} (compare : K → K → Z) (f : A → K) (k : K) : list A → Prop :=
  Forall (λ a, 0 < compare (f a) k)%Z.

(** The value of key [k] in a run of pairs: its first match. *)
Fixpoint alookup {K V} (compare : K → K → Z) (k : K) (l : list (K * V)) : option V :=
  match l with
  | [] => None
  | (k', v) :: l => if decide (compare k' k = 0)%Z then Some v else alookup compare k l
  end.

#[export] Instance int_compare_Comparator : Comparator int_compare.
Proof. unfold int_compare; split; intros; case_tests. Qed.

(** [ord x y z] closes a goal about the order of three keys: it gives [lia] the
    order laws at these keys. *)
Ltac ord_pair C x y :=
  pose proof (compare_flip (compare := C) x y);
  pose proof (compare_flip (compare := C) y x).
Ltac ord_triple C x y z :=
  pose proof (compare_trans (compare := C) x y z);
  pose proof (compare_trans (compare := C) x z y);
  pose proof (compare_trans (compare := C) y x z);
  pose proof (compare_trans (compare := C) y z x);
  pose proof (compare_trans (compare := C) z x y);
  pose proof (compare_trans (compare := C) z y x).
Ltac ord_facts x y z :=
  match goal with
  | _ : Comparator ?C |- _ =>
      ord_pair C x y; ord_pair C x z; ord_pair C y z; ord_triple C x y z
  end.
Tactic Notation "ord" constr(x) constr(y) constr(z) :=
  unfold keq in *; ord_facts x y z; lia.
Tactic Notation "ord" constr(x) constr(y) :=
  unfold keq in *;
  match goal with _ : Comparator ?C |- _ => ord_pair C x y end; lia.

Section order.
Context {K : Type} {compare : K → K → Z} {HC : Comparator compare}.
Implicit Types k x y z : K.

#[export] Instance keq_Equivalence : Equivalence (keq compare).
Proof.
  split.
  - intros x. apply compare_refl.
  - intros x y H. ord x y.
  - intros x y z H1 H2. ord x y z.
Qed.

Lemma compare_cong_r x y z : keq compare x y →
  (compare z x < 0 ↔ compare z y < 0)%Z ∧ (compare z x = 0 ↔ compare z y = 0)%Z
  ∧ (compare z x ≤ 0 ↔ compare z y ≤ 0)%Z ∧ (0 < compare z x ↔ 0 < compare z y)%Z.
Proof. intros. split_and!; ord x y z. Qed.

#[export] Instance alookup_Proper V :
  Proper (keq compare ==> eq ==> eq) (@alookup K V compare).
Proof.
  intros x y Hxy l ? <-. induction l as [|[k v] l IH]; simpl; [done|].
  rewrite IH. destruct (compare_cong_r x y k Hxy) as (_ & Heq & _).
  case_decide; case_decide; try done; exfalso; tauto.
Qed.

(** ** Sorted sequences *)

Section sorted.
Context {A : Type} (f : A → K).
Implicit Types l : list A.

Lemma ksorted_kwsorted l : ksorted compare f l → kwsorted compare f l.
Proof.
  induction 1 as [|a l Hl IH Ha]; constructor; [done|].
  eapply Forall_impl; [done|]. simpl; lia.
Qed.

Lemma ksorted_app l1 l2 :
  ksorted compare f (l1 ++ l2) ↔
  (∀ a b, a ∈ l1 → b ∈ l2 → (compare (f a) (f b) < 0)%Z)
  ∧ ksorted compare f l1 ∧ ksorted compare f l2.
Proof. apply StronglySorted_app. Qed.

Lemma kwsorted_app l1 l2 :
  kwsorted compare f (l1 ++ l2) ↔
  (∀ a b, a ∈ l1 → b ∈ l2 → (compare (f a) (f b) ≤ 0)%Z)
  ∧ kwsorted compare f l1 ∧ kwsorted compare f l2.
Proof. apply StronglySorted_app. Qed.

Lemma ksorted_cons a l :
  ksorted compare f (a :: l) ↔
  Forall (λ b, compare (f a) (f b) < 0)%Z l ∧ ksorted compare f l.
Proof. apply StronglySorted_cons. Qed.

Lemma kwsorted_cons a l :
  kwsorted compare f (a :: l) ↔
  Forall (λ b, compare (f a) (f b) ≤ 0)%Z l ∧ kwsorted compare f l.
Proof. apply StronglySorted_cons. Qed.

Lemma ksorted_take n l : ksorted compare f l → ksorted compare f (take n l).
Proof. rewrite <-(take_drop n l) at 1. rewrite ksorted_app. tauto. Qed.

Lemma ksorted_drop n l : ksorted compare f l → ksorted compare f (drop n l).
Proof. rewrite <-(take_drop n l) at 1. rewrite ksorted_app. tauto. Qed.

(** Every weakly sorted sequence splits around a key. *)
Lemma key_split k l : kwsorted compare f l →
  ∃ l1 l2 l3, l = l1 ++ l2 ++ l3 ∧ below compare f k l1
              ∧ at_key compare f k l2 ∧ above compare f k l3.
Proof.
  induction 1 as [|a l Hl IH Ha]; [exists [], [], []; repeat constructor|].
  destruct IH as (l1 & l2 & l3 & -> & H1 & H2 & H3).
  destruct (decide (compare (f a) k < 0)%Z) as [Hlt|Hge].
  { exists (a :: l1), l2, l3. repeat split; [by constructor|done..]. }
  assert (l1 = []) as ->.
  { destruct l1 as [|b l1]; [done|]. apply Forall_cons in Ha as [Hab _].
    apply Forall_cons in H1 as [Hb _]. exfalso. simpl in *. ord (f a) (f b) k. }
  destruct (decide (compare (f a) k = 0)%Z) as [Heq|Hne].
  { exists [], (a :: l2), l3. repeat split; [by constructor..|done]. }
  assert (l2 = []) as ->.
  { destruct l2 as [|b l2]; [done|]. apply Forall_cons in Ha as [Hab _].
    apply Forall_cons in H2 as [Hb _]. exfalso. simpl in *. ord (f a) (f b) k. }
  exists [], [], (a :: l3). repeat split; constructor; [lia|done].
Qed.

(** In a strictly sorted sequence a key occurs at most once. *)
Lemma at_key_unique k l1 l2 l3 :
  ksorted compare f (l1 ++ l2 ++ l3) → at_key compare f k l2 →
  l2 = [] ∨ ∃ a, l2 = [a].
Proof.
  intros Hs Hk. destruct l2 as [|a [|b l2]]; [by left|right; by exists a|].
  apply ksorted_app in Hs as (_ & _ & Hs). apply ksorted_app in Hs as (_ & Hs & _).
  apply ksorted_cons in Hs as [Hs _]. apply Forall_cons in Hs as [Hab _].
  apply Forall_cons in Hk as [Ha Hk]. apply Forall_cons in Hk as [Hb _].
  exfalso. simpl in *. ord (f a) (f b) k.
Qed.

Lemma key_split_strict k l : ksorted compare f l →
  ∃ l1 l2 l3, l = l1 ++ l2 ++ l3 ∧ below compare f k l1
              ∧ at_key compare f k l2 ∧ above compare f k l3
              ∧ (l2 = [] ∨ ∃ a, l2 = [a]).
Proof.
  intros Hs. destruct (key_split k l) as (l1 & l2 & l3 & -> & H1 & H2 & H3);
    [by apply ksorted_kwsorted|].
  exists l1, l2, l3. split_and!; try done. by eapply at_key_unique.
Qed.

(** A weakly sorted sequence splits around the two bounds of a range. *)
Lemma range_split lo hi l : kwsorted compare f l → (compare lo hi < 0)%Z →
  ∃ l1 l2 l3 l4 l5, l = l1 ++ l2 ++ l3 ++ l4 ++ l5
    ∧ below compare f lo l1 ∧ at_key compare f lo l2 ∧ above compare f lo l3
    ∧ below compare f hi l3 ∧ at_key compare f hi l4 ∧ above compare f hi l5.
Proof.
  intros Hs Hlh. destruct (key_split lo l Hs) as (l1 & l2 & r & -> & H1 & H2 & Hr).
  assert (kwsorted compare f r) as Hsr.
  { apply kwsorted_app in Hs as (_ & _ & Hs). by apply kwsorted_app in Hs as (_ & _ & Hs). }
  destruct (key_split hi r Hsr) as (l3 & l4 & l5 & -> & H3 & H4 & H5).
  apply Forall_app in Hr as [Hr3 _]. by exists l1, l2, l3, l4, l5.
Qed.

Lemma below_trans k1 k2 l : (compare k1 k2 ≤ 0)%Z → below compare f k1 l → below compare f k2 l.
Proof. intros Hk H. eapply Forall_impl; [exact H|]. simpl. intros a Ha. ord (f a) k1 k2. Qed.

Lemma at_key_below k1 k2 l : (compare k1 k2 < 0)%Z → at_key compare f k1 l → below compare f k2 l.
Proof. intros Hk H. eapply Forall_impl; [exact H|]. simpl. intros a Ha. ord (f a) k1 k2. Qed.

Lemma above_trans k1 k2 l : (compare k1 k2 ≤ 0)%Z → above compare f k2 l → above compare f k1 l.
Proof. intros Hk H. eapply Forall_impl; [exact H|]. simpl. intros a Ha. ord (f a) k1 k2. Qed.

Lemma at_key_above k1 k2 l : (compare k1 k2 < 0)%Z → at_key compare f k2 l → above compare f k1 l.
Proof. intros Hk H. eapply Forall_impl; [exact H|]. simpl. intros a Ha. ord (f a) k1 k2. Qed.

Lemma ksorted_fmap {B} (g : B → A) (l : list B) :
  ksorted compare f (g <$> l) ↔ ksorted compare (f ∘ g) l.
Proof.
  induction l as [|b l IH]; [by split; constructor|].
  rewrite fmap_cons. unfold ksorted. rewrite !StronglySorted_cons, Forall_fmap.
  unfold ksorted in IH. by rewrite IH.
Qed.

(** The elements equivalent to [k] are exactly the middle part of a split. *)
Lemma filter_split k l1 l2 l3 :
  below compare f k l1 → at_key compare f k l2 → above compare f k l3 →
  filter (λ a, compare (f a) k = 0%Z) (l1 ++ l2 ++ l3) = l2.
Proof.
  intros H1 H2 H3. rewrite !filter_app, (filter_all _ l2) by done.
  rewrite !filter_none; [by rewrite app_nil_r|..].
  - eapply Forall_impl; [exact H3|]. simpl; lia.
  - eapply Forall_impl; [exact H1|]. simpl; lia.
Qed.

End sorted.

(** ** Contents of a run of pairs *)

Section alookup.
Context {V : Type}.
Implicit Types l : list (K * V).

Lemma alookup_app k l1 l2 :
  alookup compare k (l1 ++ l2)
  = match alookup compare k l1 with Some v => Some v | None => alookup compare k l2 end.
Proof. induction l1 as [|[k' v] l1 IH]; simpl; [done|]. by case_decide. Qed.

Lemma alookup_None k l :
  Forall (λ p, compare p.1 k ≠ 0%Z) l → alookup compare k l = None.
Proof. induction 1 as [|[k' v] l Hk _ IH]; simpl; [done|]. by rewrite decide_False. Qed.

Lemma alookup_below k l : below compare fst k l → alookup compare k l = None.
Proof. intros H. apply alookup_None. eapply Forall_impl; [done|]. simpl; lia. Qed.

Lemma alookup_above k l : above compare fst k l → alookup compare k l = None.
Proof. intros H. apply alookup_None. eapply Forall_impl; [done|]. simpl; lia. Qed.

Lemma alookup_split k l1 l2 l3 :
  below compare fst k l1 → above compare fst k l3 →
  alookup compare k (l1 ++ l2 ++ l3) = alookup compare k l2.
Proof.
  intros H1 H3. rewrite !alookup_app, (alookup_below k l1), (alookup_above k l3) by done.
  by destruct (alookup compare k l2).
Qed.

Lemma alookup_Some_elem k v l :
  alookup compare k l = Some v → ∃ k', (k', v) ∈ l ∧ compare k' k = 0%Z.
Proof.
  induction l as [|[k' v'] l IH]; simpl; [done|]. case_decide.
  - intros [= ->]. exists k'. split; [by left|done].
  - intros (k'' & ? & ?)%IH. exists k''. split; [by right|done].
Qed.

Lemma alookup_elem k v l :
  ksorted compare fst l → (k, v) ∈ l → alookup compare k l = Some v.
Proof.
  induction l as [|[k' v'] l IH]; intros Hs Hin; [by apply not_elem_of_nil in Hin|].
  apply ksorted_cons in Hs as [Hhd Hs]. simpl.
  apply elem_of_cons in Hin as [[= -> ->]|Hin].
  { rewrite decide_True; [done|apply compare_refl]. }
  rewrite Forall_forall in Hhd. specialize (Hhd _ Hin). simpl in Hhd.
  rewrite decide_False by lia. auto.
Qed.

(** Replacing or inserting one key in a sorted run.  The stored key [k'] may be
    any representative of [k]. *)
Lemma ksorted_put k k' v l1 l2 l3 :
  ksorted compare fst (l1 ++ l2 ++ l3) → keq compare k' k →
  below compare fst k l1 → above compare fst k l3 →
  ksorted compare fst (l1 ++ (k', v) :: l3).
Proof.
  rewrite !ksorted_app, ksorted_cons. unfold below, above.
  rewrite !Forall_forall. intros (H12 & Hs1 & _ & _ & Hs3) Hk H1 H3.
  split_and!; try done.
  - intros a b Ha [->|Hb]%elem_of_cons; [|apply H12; set_solver].
    specialize (H1 a Ha). simpl. ord k k' (fst a).
  - intros b Hb. simpl. specialize (H3 b Hb). ord k k' (fst b).
Qed.

Lemma alookup_put k k' v l1 l2 l3 x :
  keq compare k' k →
  below compare fst k l1 → at_key compare fst k l2 → above compare fst k l3 →
  alookup compare x (l1 ++ (k', v) :: l3)
  = if decide (compare k x = 0)%Z then Some v
    else alookup compare x (l1 ++ l2 ++ l3).
Proof.
  intros Hk H1 H2 H3. rewrite !alookup_app. simpl.
  destruct (decide (compare k x = 0)%Z) as [Hkx|Hkx].
  - rewrite alookup_None; [rewrite decide_True by ord k k' x; done|].
    eapply Forall_impl; [done|]. intros [k'' v'] Hk'; simpl in *. ord k'' k x.
  - rewrite decide_False by ord k k' x.
    rewrite (alookup_None x l2); [done|]. eapply Forall_impl; [done|].
    intros [k'' v'] Hk'; simpl in *. ord k'' k x.
Qed.

Lemma ksorted_delete l1 l2 l3 :
  ksorted compare fst (l1 ++ l2 ++ l3) → ksorted compare (@fst K V) (l1 ++ l3).
Proof.
  rewrite !ksorted_app. intros (H12 & Hs1 & _ & _ & Hs3).
  split_and!; try done. intros; apply H12; set_solver.
Qed.

Lemma alookup_delete k l1 l2 l3 x :
  below compare fst k l1 → at_key compare fst k l2 → above compare fst k l3 →
  alookup compare x (l1 ++ l3)
  = if decide (compare k x = 0)%Z then None
    else alookup compare x (l1 ++ l2 ++ l3).
Proof.
  intros H1 H2 H3. rewrite !alookup_app. case_decide as Hkx.
  - rewrite !alookup_None; [done|..]; (eapply Forall_impl; [done|]);
      intros [k' v'] Hk'; simpl in *; ord k' k x.
  - rewrite (alookup_None x l2); [done|]. eapply Forall_impl; [done|].
    intros [k' v'] Hk'; simpl in *. ord k' k x.
Qed.

(** A strictly sorted run is determined by its contents, up to the
    representatives of its keys. *)
Definition same_pair (p q : K * V) : Prop := keq compare p.1 q.1 ∧ p.2 = q.2.

Lemma alookup_hd_above k l : ksorted compare fst l → (∀ p, head l = Some p → 0 < compare p.1 k)%Z →
  alookup compare k l = None.
Proof.
  intros Hs Hh. destruct l as [|[k1 v1] l]; [done|]. specialize (Hh _ eq_refl). simpl in Hh.
  apply alookup_above. apply ksorted_cons in Hs as [Hs _]. constructor; [done|].
  eapply Forall_impl; [exact Hs|]. simpl. intros p Hp. ord (fst p) k1 k.
Qed.

Lemma sorted_run_unique l1 l2 :
  ksorted compare fst l1 → ksorted compare fst l2 →
  (∀ k, alookup compare k l1 = alookup compare k l2) → Forall2 same_pair l1 l2.
Proof.
  revert l2. induction l1 as [|[k1 v1] l1 IH]; intros [|[k2 v2] l2] Hs1 Hs2 Hl.
  - constructor.
  - specialize (Hl k2). simpl in Hl. by rewrite decide_True in Hl by apply compare_refl.
  - specialize (Hl k1). simpl in Hl. by rewrite decide_True in Hl by apply compare_refl.
  - pose proof Hs1 as [A1 Hs1']%ksorted_cons. pose proof Hs2 as [A2 Hs2']%ksorted_cons.
    assert (keq compare k1 k2) as Hk.
    { pose proof (Hl k1) as L1. pose proof (Hl k2) as L2.
      destruct (decide (compare k1 k2 < 0)%Z) as [Hlt|Hge].
      - rewrite (alookup_hd_above k1 ((k2, v2) :: l2)) in L1;
          [|done|intros p [= <-]; simpl; ord k1 k2].
        simpl in L1. by rewrite decide_True in L1 by apply compare_refl.
      - destruct (decide (0 < compare k1 k2)%Z) as [Hgt|]; [|unfold keq; lia].
        rewrite (alookup_hd_above k2 ((k1, v1) :: l1)) in L2;
          [|done|intros p [= <-]; simpl; ord k1 k2].
        simpl in L2. by rewrite decide_True in L2 by apply compare_refl. }
    constructor.
    + split; [done|]. pose proof (Hl k1) as L1. simpl in L1.
      rewrite !decide_True in L1 by (apply compare_refl || ord k1 k2). by simplify_eq.
    + apply IH; [done..|]. intros k. pose proof (Hl k) as Lk. simpl in Lk.
      destruct (decide (compare k1 k = 0)%Z) as [E1|E1].
      * rewrite !alookup_hd_above; try done.
        -- intros p Hp. destruct l2 as [|q l2]; [done|]. simplify_eq/=.
           apply Forall_cons in A2 as [A2 _]. simpl in A2. ord_facts k1 k2 k. ord (fst p) k2 k.
        -- intros p Hp. destruct l1 as [|q l1]; [done|]. simplify_eq/=.
           apply Forall_cons in A1 as [A1 _]. simpl in A1. ord (fst p) k1 k.
      * by rewrite decide_False in Lk by ord k1 k2 k.
Qed.

Lemma sorted_run_length l1 l2 :
  ksorted compare fst l1 → ksorted compare fst l2 →
  (∀ k, alookup compare k l1 = alookup compare k l2) → length l1 = length l2.
Proof. intros H1 H2 Hl. by eapply Forall2_length, sorted_run_unique. Qed.

End alookup.

(** Pigeonhole: a strictly sorted run is no longer than any sequence of keys that
    has one equivalent to each of its keys. *)
Lemma ksorted_pigeonhole {A} (f : A → K) (l : list A) (ks : list K) :
  ksorted compare f l → (∀ a, a ∈ l → ∃ k, k ∈ ks ∧ keq compare (f a) k) → length l ≤ length ks.
Proof.
  revert ks. induction l as [|a l IH]; intros ks Hs Hks; [simpl; lia|].
  destruct (Hks a) as (k & Hk & Hak); [left|]. apply list_elem_of_split in Hk as (ks1 & ks2 & ->).
  apply ksorted_cons in Hs as [Ha Hs]. rewrite length_app. cbn [length].
  enough (length l ≤ length (ks1 ++ ks2)) by (rewrite length_app in *; lia).
  apply IH; [done|]. intros b Hb. destruct (Hks b) as (k' & Hk' & Hbk); [by right|].
  rewrite Forall_forall in Ha. specialize (Ha b Hb). exists k'. split; [|done].
  apply elem_of_app in Hk' as [Hk'|[->|Hk']%elem_of_cons]; [mem| |mem].
  exfalso. unfold keq in *. ord (f a) (f b) k.
Qed.

End order.

#[export] Hint Resolve ksorted_take ksorted_drop ksorted_kwsorted : fractal.
