(* ===== verification/Keys.v ===== *)
(** * The key types of the example programs

    The examples order their trees by strings, by integers, and by structs that
    are compared field by field (examples/comparator, eviction, leaderboard,
    ratelimiter).  A struct is a record here, with the comparator of the source;
    each is an instance of [Comparator], built from the laws of three ways to
    make a comparator out of others: by a projection, reversed, and
    lexicographically.

    Go compares strings byte by byte, a proper prefix first.  [prefix_range] is
    the law behind examples/prefixscan: a half-open range of strings that share a
    prefix. *)

From Stdlib Require Import Ascii String.
From stdpp Require Import strings.
From S2P Require Import Prelude Order.

#[global] Instance Zero_string : Zero string := EmptyString.
#[global] Instance Zero_unit : Zero unit := tt.

(** ** Comparators from comparators *)

Section combinators.
Context {K A B : Type}.

(** A comparator that looks at a part of the key. *)
Lemma proj_Comparator (c : A → A → Z) (f : K → A) :
  Comparator c → Comparator (λ x y, c (f x) (f y)).
Proof. intros C. split; intros *; [apply compare_refl|apply compare_flip|apply compare_trans]. Qed.

(** The reverse order: [cmp.Compare(b, a)]. *)
Lemma flip_Comparator (c : K → K → Z) : Comparator c → Comparator (λ x y, c y x).
Proof. intros C. split; intros *; [apply compare_refl|apply compare_flip|]. intros ? ?. by apply (compare_trans z y x). Qed.

(** [if c := c1(a, b); c != 0 { return c }; return c2(a, b)]. *)
Definition then_compare (c1 c2 : K → K → Z) (x y : K) : Z :=
  let c := c1 x y in if decide (c ≠ 0)%Z then c else c2 x y.

Lemma then_compare_eq c1 c2 x y : then_compare c1 c2 x y = 0%Z ↔ c1 x y = 0%Z ∧ c2 x y = 0%Z.
Proof. unfold then_compare. case_decide; intuition lia. Qed.

#[export] Instance then_Comparator c1 c2 : Comparator c1 → Comparator c2 → Comparator (then_compare c1 c2).
Proof.
  intros C1 C2. unfold then_compare. split.
  - intros x. by rewrite compare_refl, decide_False, compare_refl by auto.
  - intros x y. pose proof (compare_flip (compare := c1) x y). pose proof (compare_flip (compare := c1) y x).
    pose proof (compare_flip (compare := c2) x y). repeat case_decide; lia.
  - intros x y z. pose proof (compare_flip (compare := c1) x y). pose proof (compare_flip (compare := c1) y x).
    pose proof (compare_flip (compare := c1) z y). pose proof (compare_flip (compare := c1) y z).
    pose proof (compare_flip (compare := c1) x z). pose proof (compare_flip (compare := c1) z x).
    ord_triple c1 x y z. pose proof (compare_trans (compare := c2) x y z). repeat case_decide; lia.
Qed.

End combinators.

(** A comparator made of [<]: -1, +1 or 0, as [cmp.Compare] and the hand-written
    comparators compute it. *)
Definition compare_by {K} (lt : K → K → bool) (x y : K) : Z :=
  if lt x y then (-1)%Z else if lt y x then 1%Z else 0%Z.

Class StrictTotal {K} (lt : K → K → bool) : Prop := {
  lt_irrefl x : lt x x = false;
  lt_trans x y z : lt x y = true → lt y z = true → lt x z = true;
  lt_total x y : lt x y = false → lt y x = false → x = y
}.

Section compare_by.
Context {K : Type} (lt : K → K → bool) `{!StrictTotal lt}.

Lemma lt_asym x y : lt x y = true → lt y x = false.
Proof.
  intros H1. destruct (lt y x) eqn:H2; [|done]. pose proof (lt_trans x y x H1 H2) as H.
  by rewrite lt_irrefl in H.
Qed.

Lemma compare_by_eq x y : compare_by lt x y = 0%Z ↔ x = y.
Proof.
  unfold compare_by. split; [|by intros ->; rewrite lt_irrefl].
  destruct (lt x y) eqn:E1, (lt y x) eqn:E2; try lia. intros _. by apply lt_total.
Qed.

Lemma compare_by_lt x y : (compare_by lt x y < 0)%Z ↔ lt x y = true.
Proof. unfold compare_by. destruct (lt x y), (lt y x); split; done || lia. Qed.

Lemma compare_by_le x y : (compare_by lt x y ≤ 0)%Z ↔ lt x y = true ∨ x = y.
Proof. rewrite <-compare_by_lt, <-compare_by_eq. lia. Qed.

#[export] Instance compare_by_Comparator : Comparator (compare_by lt).
Proof.
  split.
  - intros x. by apply compare_by_eq.
  - intros x y. rewrite compare_by_lt. unfold compare_by. split.
    + intros H. by rewrite (lt_asym _ _ H), H.
    + destruct (lt y x); [lia|]. by destruct (lt x y).
  - intros x y z. rewrite !compare_by_le. intros [H1| ->] [H2| ->]; auto.
    left. by apply (lt_trans x y z).
Qed.
End compare_by.

(** ** Strings *)

Fixpoint string_lt (a b : string) : bool :=
  match a, b with
  | _, EmptyString => false
  | EmptyString, String _ _ => true
  | String x a, String y b =>
      if (N_of_ascii x <? N_of_ascii y)%N then true
      else if (N_of_ascii y <? N_of_ascii x)%N then false
      else string_lt a b
  end.
Definition string_compare : string → string → Z := compare_by string_lt.
#[global] Instance Ordered_string : Ordered string := string_compare.

Lemma N_of_ascii_inj x y : N_of_ascii x = N_of_ascii y → x = y.
Proof. intros E. by rewrite <-(ascii_N_embedding x), <-(ascii_N_embedding y), E. Qed.

#[export] Instance string_lt_total : StrictTotal string_lt.
Proof.
  split.
  - induction x as [|x a IH]; [done|]. cbn [string_lt]. by rewrite N.ltb_irrefl.
  - induction x as [|x a IH]; intros [|y b] [|z d]; cbn [string_lt]; try done.
    repeat (case_match; rewrite ?N.ltb_lt, ?N.ltb_ge in * ); try done; try lia. apply IH.
  - induction x as [|x a IH]; intros [|y b]; cbn [string_lt]; try done.
    destruct (N.ltb_spec (N_of_ascii x) (N_of_ascii y)), (N.ltb_spec (N_of_ascii y) (N_of_ascii x));
      try done; try lia.
    intros H1 H2. rewrite (N_of_ascii_inj x y) by lia. f_equal. by apply IH.
Qed.

(** ** Prefixes (examples/prefixscan) *)

(** [strings.HasPrefix(s, p)]. *)
Fixpoint has_prefix (p s : string) : bool :=
  match p, s with
  | EmptyString, _ => true
  | String x p, String y s => (N_of_ascii x =? N_of_ascii y)%N && has_prefix p s
  | String _ _, EmptyString => false
  end.

Lemma app_nil_string s : EmptyString +:+ s = s.
Proof. done. Qed.
Lemma app_cons_string x s1 s2 : String x s1 +:+ s2 = String x (s1 +:+ s2).
Proof. done. Qed.

(** The strings with prefix [p] and then [c] are those from [p c] up to [p c'],
    when [c'] is the next byte. *)
Lemma prefix_range p c c' s :
  N_of_ascii c' = (N_of_ascii c + 1)%N →
  has_prefix (p +:+ String c EmptyString) s = true
  ↔ (0 ≤ string_compare s (p +:+ String c EmptyString) ∧ string_compare s (p +:+ String c' EmptyString) < 0)%Z.
Proof.
  intros Hc. unfold string_compare. rewrite compare_by_lt.
  assert (∀ x y, (0 ≤ compare_by string_lt x y)%Z ↔ string_lt x y = false) as Hge.
  { intros x y. rewrite <-not_true_iff_false, <-compare_by_lt. lia. }
  rewrite Hge. clear Hge. revert s. induction p as [|x p IH]; intros [|y s];
    rewrite ?app_nil_string, ?app_cons_string; cbn [has_prefix string_lt].
  - intuition congruence.
  - rewrite Hc. destruct (N.eqb_spec (N_of_ascii c) (N_of_ascii y)) as [E|E];
      destruct (N.ltb_spec (N_of_ascii y) (N_of_ascii c));
      destruct (N.ltb_spec (N_of_ascii c) (N_of_ascii y));
      destruct (N.ltb_spec (N_of_ascii y) (N_of_ascii c + 1));
      destruct (N.ltb_spec (N_of_ascii c + 1) (N_of_ascii y)); try lia; destruct s; intuition (congruence || lia).
  - intuition congruence.
  - destruct (N.eqb_spec (N_of_ascii x) (N_of_ascii y)) as [E|E]; cbn [andb].
    + rewrite E, N.ltb_irrefl. apply IH.
    + destruct (N.ltb_spec (N_of_ascii y) (N_of_ascii x)); [intuition congruence|].
      destruct (N.ltb_spec (N_of_ascii x) (N_of_ascii y)); [intuition congruence|lia].
Qed.

(** ** The composite keys of the examples *)

(** examples/comparator: by tenant, then by ID. *)
Record TenantKey := mkTenantKey { Tenant : string; ID : Z }.
Definition compareTenantKeys (a b : TenantKey) : Z :=
  let c := cmp_Compare (Tenant a) (Tenant b) in
  if decide (c ≠ 0)%Z then c else cmp_Compare (ID a) (ID b).

(** examples/eviction: by the time of the last access, then by key. *)
Record cacheEntry := mkCacheEntry { lastAccess : Z; ce_key : string }.
Definition compareCacheEntries (a b : cacheEntry) : Z :=
  let c := cmp_Compare (lastAccess a) (lastAccess b) in
  if decide (c ≠ 0)%Z then c else cmp_Compare (ce_key a) (ce_key b).

(** examples/leaderboard: the higher score first, then by name. *)
Record Entry := mkScoreEntry { Score : Z; Name : string }.
Definition compareEntries (a b : Entry) : Z :=
  let c := cmp_Compare (Score b) (Score a) in
  if decide (c ≠ 0)%Z then c else cmp_Compare (Name a) (Name b).

(** examples/ratelimiter: by client, then by second. *)
Record bucketKey := mkBucketKey { client : string; second : Z }.
Definition compareBucketKeys (a b : bucketKey) : Z :=
  if string_lt (client a) (client b) then (-1)%Z
  else if string_lt (client b) (client a) then 1%Z
  else if decide (second a < second b)%Z then (-1)%Z
  else if decide (second b < second a)%Z then 1%Z
  else 0%Z.

#[export] Instance string_compare_Comparator : Comparator (K := string) cmp_Compare.
Proof. apply compare_by_Comparator. apply _. Qed.
#[export] Instance int_cmp_Comparator : Comparator (K := Z) cmp_Compare.
Proof. apply int_compare_Comparator. Qed.

(** The four are what the combinators make of the orders of their fields. *)
#[export] Instance compareTenantKeys_Comparator : Comparator compareTenantKeys.
Proof.
  apply (then_Comparator (λ a b, cmp_Compare (Tenant a) (Tenant b)) (λ a b, cmp_Compare (ID a) (ID b)));
    apply proj_Comparator, _.
Qed.
#[export] Instance compareCacheEntries_Comparator : Comparator compareCacheEntries.
Proof.
  apply (then_Comparator (λ a b, cmp_Compare (lastAccess a) (lastAccess b)) (λ a b, cmp_Compare (ce_key a) (ce_key b)));
    apply proj_Comparator, _.
Qed.
#[export] Instance compareEntries_Comparator : Comparator compareEntries.
Proof.
  apply (then_Comparator (λ a b, cmp_Compare (Score b) (Score a)) (λ a b, cmp_Compare (Name a) (Name b)));
    [apply (flip_Comparator (λ a b, cmp_Compare (Score a) (Score b)))|]; apply proj_Comparator, _.
Qed.
Lemma compareBucketKeys_then a b :
  compareBucketKeys a b
  = then_compare (λ a b, string_compare (client a) (client b)) (λ a b, int_compare (second a) (second b)) a b.
Proof.
  unfold compareBucketKeys, then_compare, string_compare, compare_by, int_compare.
  destruct (string_lt (client a) (client b)); [done|]. by destruct (string_lt (client b) (client a)).
Qed.
#[export] Instance compareBucketKeys_Comparator : Comparator compareBucketKeys.
Proof.
  pose proof (then_Comparator (λ a b, string_compare (client a) (client b)) (λ a b, int_compare (second a) (second b)))
    as [R F T]; [apply proj_Comparator, _..|].
  split; intros *; rewrite ?compareBucketKeys_then; [apply R|apply F|apply T].
Qed.

#[global] Instance Zero_TenantKey : Zero TenantKey := mkTenantKey zero zero.
#[global] Instance Zero_cacheEntry : Zero cacheEntry := mkCacheEntry zero zero.
#[global] Instance Zero_Entry : Zero Entry := mkScoreEntry zero zero.
#[global] Instance Zero_bucketKey : Zero bucketKey := mkBucketKey zero zero.
