(* ===== verification/Slices.v ===== *)
(** * Go slices: the built-ins and the [slices] package

    What the sources use of Go's slices.  A slice is a list, an index outside
    of it is a panic ([None]).  The binary searches of node.go, cursor.go and
    [slices.BinarySearchFunc] are one loop, [bisect], over a test of the middle
    index; the file proves that loop correct once.

    [SortStableFunc] is given as a stable insertion sort: Go documents a stable
    sort, and a stable sort of a list is unique as a function
    ([SortStableFunc_unique]), so the algorithm inside the package is not
    observable. *)

From S2P Require Import Prelude Order.

(** [for lo < hi { mid := lo + (hi-lo)/2; if test(mid) { lo = mid+1 } else { hi = mid } }],
    returning [lo].  The interval halves, so [hi - lo] iterations are enough. *)
Fixpoint bisect (test : nat → option bool) (fuel lo hi : nat) : option nat :=
  if decide (lo < hi) then
    match fuel with
    | 0 => None
    | S fuel =>
        let mid := lo + (hi - lo) / 2 in
        b ← test mid;
        if b : bool then bisect test fuel (mid + 1) hi else bisect test fuel lo mid
    end
  else Some lo.

(** [slices.BinarySearchFunc(x, target, cmp)]: the first index whose element is
    not below the target, and whether the target is there. *)
Definition BinarySearchFunc {A T} (x : list A) (target : T) (cmp : A → T → Z)
    : option (nat * bool) :=
  i ← bisect (λ h, e ← x !! h; Some (bool_decide (cmp e target < 0)%Z)) (length x) 0 (length x);
  if decide (i < length x) then
    e ← x !! i; Some (i, bool_decide (cmp e target = 0)%Z)
  else Some (i, false).

(** [slices.Insert(s, i, v)]: panics when [i] is out of range. *)
Definition Insert {A} (s : list A) (i : nat) (v : A) : option (list A) :=
  if decide (i ≤ length s) then Some (take i s ++ v :: drop i s) else None.

(** [slices.Delete(s, i, i+1)]: panics when [s[i:i+1]] is not a valid slice. *)
Definition Delete {A} (s : list A) (i : nat) : option (list A) :=
  if decide (i < length s) then Some (take i s ++ drop (S i) s) else None.

(** [s[lo:hi]]. *)
Definition slice {A} (s : list A) (lo hi : nat) : option (list A) :=
  if decide (lo ≤ hi ∧ hi ≤ length s) then Some (take (hi - lo) (drop lo s)) else None.

(** [copy(arr[lo:hi], src)]: overwrites the shorter of the two lengths.  Go's
    [copy] is a memmove, so [src] is the value before the copy even when the
    two ranges overlap. *)
Definition copy_range {A} (arr : list A) (lo hi : nat) (src : list A) : option (list A) :=
  if decide (lo ≤ hi ∧ hi ≤ length arr) then
    let n := Nat.min (hi - lo) (length src) in
    Some (take lo arr ++ take n src ++ drop (lo + n) arr)
  else None.

(** [slices.SortStableFunc(s, cmp)]. *)
Fixpoint insert_stable {A} (cmp : A → A → Z) (x : A) (s : list A) : list A :=
  match s with
  | [] => [x]
  | y :: s' => if decide (cmp y x < 0)%Z then y :: insert_stable cmp x s' else x :: s
  end.
Fixpoint SortStableFunc {A} (s : list A) (cmp : A → A → Z) : list A :=
  match s with
  | [] => []
  | x :: s => insert_stable cmp x (SortStableFunc s cmp)
  end.

(** ** Binary search *)

Lemma bisect_spec test fuel lo hi i :
  lo ≤ i ≤ hi → hi - lo ≤ fuel →
  (∀ j, lo ≤ j < i → test j = Some true) →
  (∀ j, i ≤ j < hi → test j = Some false) →
  bisect test fuel lo hi = Some i.
Proof.
  revert lo hi. induction fuel as [|fuel IH]; intros lo hi Hi Hf Ht Hff; cbn [bisect].
  { rewrite decide_False by lia. f_equal. lia. }
  case_decide as Hlt; [|f_equal; lia].
  cbv zeta. set (mid := lo + (hi - lo) / 2).
  assert (lo ≤ mid < hi) as Hmid.
  { unfold mid. pose proof (Nat.div_lt (hi - lo) 2). lia. }
  clearbody mid.
  destruct (decide (mid < i)).
  - rewrite Ht by lia. simpl. apply IH; [lia|lia|..]; intros; [apply Ht|apply Hff]; lia.
  - rewrite Hff by lia. simpl. apply IH; [lia|lia|..]; intros; [apply Ht|apply Hff]; lia.
Qed.

(** Searching for the end of a prefix that satisfies [P]. *)
Lemma bisect_prefix {A} (P : A → Prop) `{!∀ a, Decision (P a)} l1 l2 (l := l1 ++ l2) :
  Forall P l1 → Forall (λ a, ¬ P a) l2 →
  bisect (λ h, e ← l !! h; Some (bool_decide (P e))) (length l) 0 (length l)
  = Some (length l1).
Proof.
  intros H1 H2. subst l. apply bisect_spec.
  - rewrite length_app; lia.
  - lia.
  - intros j Hj. destruct (lookup_lt_is_Some_2 l1 j) as [a Ha]; [lia|].
    rewrite lookup_app_l, Ha by lia. simpl. f_equal. apply bool_decide_eq_true.
    by eapply (Forall_lookup_1 _ l1).
  - intros j Hj. rewrite length_app in Hj.
    destruct (lookup_lt_is_Some_2 l2 (j - length l1)) as [a Ha]; [lia|].
    rewrite lookup_app_r, Ha by lia. simpl. f_equal. apply bool_decide_eq_false.
    by eapply (Forall_lookup_1 _ l2) in H2.
Qed.

Section search.
Context {K : Type} {compare : K → K → Z} {HC : Comparator compare}.
Context {A : Type} (f : A → K).

Lemma BinarySearchFunc_spec k l1 l2 l3 :
  below compare f k l1 → at_key compare f k l2 → above compare f k l3 →
  BinarySearchFunc (l1 ++ l2 ++ l3) k (λ a k, compare (f a) k)
  = Some (length l1, bool_decide (l2 ≠ [])).
Proof.
  intros H1 H2 H3. unfold BinarySearchFunc.
  rewrite (bisect_prefix (λ a, compare (f a) k < 0)%Z l1 (l2 ++ l3)); [|done|].
  2:{ apply Forall_app; split; eapply Forall_impl; try done; simpl; lia. }
  simpl. rewrite !length_app. destruct l2 as [|a l2].
  - simpl. destruct l3 as [|b l3].
    + rewrite decide_False by (simpl; lia). done.
    + rewrite decide_True by (simpl; lia).
      rewrite (list_lookup_middle _ _ _ _ eq_refl). simpl.
      apply Forall_cons in H3 as [H3 _]. by rewrite bool_decide_eq_false_2 by lia.
  - rewrite decide_True by (simpl; lia).
    rewrite <-app_comm_cons, (list_lookup_middle _ _ _ _ eq_refl). simpl.
    apply Forall_cons in H2 as [H2 _]. by rewrite bool_decide_eq_true_2 by done.
Qed.

End search.

(** ** Insertion, deletion, copying *)

Lemma Insert_app {A} i (v : A) l1 l2 :
  i = length l1 → Insert (l1 ++ l2) i v = Some (l1 ++ v :: l2).
Proof.
  intros ->. unfold Insert. rewrite decide_True by (rewrite length_app; lia).
  by rewrite take_app_length, drop_app_length.
Qed.

Lemma Delete_app {A} i (v : A) l1 l2 :
  i = length l1 → Delete (l1 ++ v :: l2) i = Some (l1 ++ l2).
Proof.
  intros ->. unfold Delete. rewrite decide_True by (rewrite length_app; simpl; lia).
  rewrite take_app_length. f_equal. f_equal.
  rewrite drop_app_ge by lia. by replace (S (length l1) - length l1) with 1 by lia.
Qed.

Lemma slice_app {A} (l1 l2 l3 : list A) lo hi :
  lo = length l1 → hi = length l1 + length l2 → slice (l1 ++ l2 ++ l3) lo hi = Some l2.
Proof.
  intros -> ->. unfold slice. rewrite decide_True by (rewrite !length_app; lia).
  rewrite drop_app_length, take_app_length'; [done|lia].
Qed.

Lemma slice_prefix {A} (l1 l2 : list A) hi :
  hi = length l1 → slice (l1 ++ l2) 0 hi = Some l1.
Proof. by apply (slice_app []). Qed.

Lemma slice_suffix {A} (l1 l2 : list A) lo hi :
  lo = length l1 → hi = length l1 + length l2 → slice (l1 ++ l2) lo hi = Some l2.
Proof. rewrite <-(app_nil_r l2) at 2. by apply (slice_app l1 l2 []). Qed.

Lemma copy_range_app {A} (l1 l2 l3 src : list A) lo hi :
  lo = length l1 → hi = length l1 + length l2 → length src = length l2 →
  copy_range (l1 ++ l2 ++ l3) lo hi src = Some (l1 ++ src ++ l3).
Proof.
  intros -> -> Hsrc. unfold copy_range.
  rewrite decide_True by (rewrite !length_app; lia). f_equal.
  rewrite take_app_length. f_equal. rewrite take_ge by lia. f_equal.
  rewrite <-drop_drop, drop_app_length, drop_app_length'; [done|lia].
Qed.

(** [copy(arr[lo:], src)] when [src] fits. *)
Lemma copy_to_end {A} (arr src : list A) lo :
  lo + length src ≤ length arr →
  copy_range arr lo (length arr) src = Some (take lo arr ++ src ++ drop (lo + length src) arr).
Proof.
  intros Hl. unfold copy_range. rewrite decide_True by lia. f_equal. f_equal.
  rewrite take_ge by lia. by replace (Nat.min _ _) with (length src) by lia.
Qed.

(** ** Stable sorting *)

Section stable.
Context {A : Type} {cmp : A → A → Z} {HC : Comparator cmp}.
Implicit Types s : list A.

Lemma insert_stable_Permutation x s : insert_stable cmp x s ≡ₚ x :: s.
Proof.
  induction s as [|y s IH]; simpl; [done|]. case_decide; [|done].
  rewrite IH. constructor.
Qed.

Lemma SortStableFunc_Permutation s : SortStableFunc s cmp ≡ₚ s.
Proof.
  induction s as [|x s IH]; simpl; [done|]. by rewrite insert_stable_Permutation, IH.
Qed.

Lemma insert_stable_sorted x s :
  kwsorted cmp id s → kwsorted cmp id (insert_stable cmp x s).
Proof.
  induction 1 as [|y s Hs IH Hy]; simpl; [repeat constructor|].
  case_decide as Hyx.
  - apply kwsorted_cons. split; [|done].
    apply Forall_forall. intros z Hz. rewrite insert_stable_Permutation in Hz.
    apply elem_of_cons in Hz as [->|Hz]; [unfold id; lia|].
    by rewrite Forall_forall in Hy; apply Hy.
  - apply kwsorted_cons. split; [|by apply kwsorted_cons].
    constructor; [unfold id; ord x y|]. eapply Forall_impl; [done|].
    unfold id. intros z Hz. simpl in Hz. ord x y z.
Qed.

Lemma SortStableFunc_sorted s : kwsorted cmp id (SortStableFunc s cmp).
Proof. induction s; simpl; [constructor|]. by apply insert_stable_sorted. Qed.

(** Sorting commutes with filtering: this is what stability means. *)
Lemma insert_stable_filter P `{!∀ a, Decision (P a)} x s :
  kwsorted cmp id s →
  filter P (insert_stable cmp x s)
  = if decide (P x) then insert_stable cmp x (filter P s) else filter P s.
Proof.
  induction 1 as [|y s Hs IH Hy]; simpl.
  { rewrite filter_cons. by case_decide. }
  destruct (decide (cmp y x < 0)%Z) as [Hyx|Hyx].
  { rewrite !(filter_cons _ y), IH.
    destruct (decide (P y)), (decide (P x)); simpl; try done. by rewrite decide_True. }
  rewrite (filter_cons _ x). destruct (decide (P x)); [|done].
  assert (Forall (λ z, ¬ cmp z x < 0)%Z (filter P (y :: s))) as HF.
  { apply Forall_filter_sub. constructor; [done|].
    eapply Forall_impl; [exact Hy|]. unfold id. intros z Hz. ord x y z. }
  destruct HF; simpl; [done|]. by rewrite decide_False.
Qed.

Lemma SortStableFunc_filter P `{!∀ a, Decision (P a)} s :
  filter P (SortStableFunc s cmp) = SortStableFunc (filter P s) cmp.
Proof.
  induction s as [|x s IH]; simpl; [done|].
  rewrite insert_stable_filter by apply SortStableFunc_sorted.
  rewrite filter_cons, IH. by case_decide.
Qed.

Lemma SortStableFunc_id s : kwsorted cmp id s → SortStableFunc s cmp = s.
Proof.
  induction 1 as [|x s Hs IH Hx]; simpl; [done|]. rewrite IH.
  destruct Hx as [|y s Hy _]; simpl; [done|].
  rewrite decide_False; [done|]. unfold id in Hy. ord x y.
Qed.

(** Elements equivalent to a given one keep their order. *)
Lemma SortStableFunc_stable a s :
  filter (λ b, cmp b a = 0%Z) (SortStableFunc s cmp) = filter (λ b, cmp b a = 0%Z) s.
Proof.
  rewrite SortStableFunc_filter. apply SortStableFunc_id.
  assert (Forall (λ b, cmp b a = 0%Z) (filter (λ b, cmp b a = 0%Z) s)) as HF.
  { apply Forall_forall. intros b Hb. by apply list_elem_of_filter in Hb as [? _]. }
  induction HF as [|x l Hx HF IH]; constructor; [done|].
  eapply Forall_impl; [done|]. unfold id; simpl. intros y Hy. ord x y a.
Qed.

(** A sorted list with the order inside each class of [s] is the sort of [s]. *)
Lemma SortStableFunc_unique s s' :
  kwsorted cmp id s' →
  (∀ a, filter (λ b, cmp b a = 0%Z) s' = filter (λ b, cmp b a = 0%Z) s) →
  s' = SortStableFunc s cmp.
Proof.
  intros Hs' Hst.
  assert (∀ a, filter (λ b, cmp b a = 0%Z) s'
               = filter (λ b, cmp b a = 0%Z) (SortStableFunc s cmp)) as E.
  { intros a. by rewrite SortStableFunc_stable. }
  clear Hst. pose proof (SortStableFunc_sorted s) as Ht. revert Ht E.
  generalize (SortStableFunc s cmp) as t. clear s.
  induction Hs' as [|x s' Hs' IH Hx]; intros t Ht E.
  { destruct t as [|y t]; [done|]. specialize (E y).
    rewrite filter_nil, filter_cons_True in E by apply compare_refl. done. }
  destruct Ht as [|y t Ht Hy].
  { specialize (E x). rewrite filter_cons_True in E by apply compare_refl. done. }
  assert (cmp x y = 0%Z) as Hxy.
  { pose proof (E x) as Ex. pose proof (E y) as Ey.
    rewrite filter_cons_True in Ex by apply compare_refl.
    rewrite (filter_cons_True _ y) in Ey by apply compare_refl.
    assert (x ∈ y :: t) as Hin.
    { eapply (list_elem_of_filter (λ b, cmp b x = 0%Z)). rewrite <-Ex. left. }
    assert (y ∈ x :: s') as Hin'.
    { eapply (list_elem_of_filter (λ b, cmp b y = 0%Z)). rewrite Ey. left. }
    rewrite Forall_forall in Hx, Hy.
    apply elem_of_cons in Hin as [->|Hin]; [apply compare_refl|].
    apply elem_of_cons in Hin' as [->|Hin']; [apply compare_refl|].
    specialize (Hx _ Hin'). specialize (Hy _ Hin). unfold id in *. ord x y. }
  pose proof (E x) as Ex. rewrite !filter_cons_True in Ex; [|ord x y|apply compare_refl].
  injection Ex as -> Ex. f_equal. apply IH; [done|].
  intros a. specialize (E a). rewrite !filter_cons in E. case_decide; congruence.
Qed.

End stable.

#[export] Hint Resolve SortStableFunc_sorted : fractal.
