(* ===== verification/Message.v ===== *)
(** * Buffered messages and upsert functions (message.go, upsert.go)

    A buffered mutation is a [Message]; its meaning is [apply_msg], the effect
    on the value stored at its key.  [run] plays the messages of a buffer that
    concern one key.  The operations of the tree are correct when every
    reordering, flush and batch merge keeps [run].

    An upsert callback is Go's [func( *V, bool) V]: a pure function of the
    current value.  A callback that writes through its pointer or depends on
    outside state is user code and is not modelled. *)

From S2P Require Import Prelude Order.

Inductive MsgKind := MsgPut | MsgDelete | MsgDeleteRange | MsgUpsert.

#[export] Instance MsgKind_eq_dec : EqDecision MsgKind.
Proof. solve_decision. Defined.

(** [existing] is nil exactly when [exists] is false in every call. *)
Definition UpsertFn (V : Type) : Type := option V → bool → V.

(** [Fn] is nil ([None]) unless the kind is [MsgUpsert]. *)
Record Message (K V : Type) := mkMessage {
  Kind : MsgKind;
  Key : K;
  EndKey : K;
  Value : V;
  Fn : option (UpsertFn V);
  counted : bool
}.
Arguments mkMessage {K V}.
Arguments Kind {K V}.
Arguments Key {K V}.
Arguments EndKey {K V}.
Arguments Value {K V}.
Arguments Fn {K V}.
Arguments counted {K V}.

(** ** upsert.go *)

(** Go's [int] and [int64] wrap around modulo 2^64. *)
Definition wrap64 (z : Z) : Z := ((z + 2^63) mod 2^64 - 2^63)%Z.

(** Go's [+] at the types of [Increment]'s constraint: [int] and [int64] here,
    [float64] in Options.v. *)
Class Numeric (V : Type) := numeric_add : V → V → V.
#[export] Instance Numeric_int : Numeric Z := λ v w, wrap64 (v + w).

Definition Increment {V} `{Numeric V} (delta : V) : UpsertFn V := λ existing ex,
  match existing with
  | Some v => if ex then numeric_add v delta else delta
  | None => delta
  end.

(** [eqb] is Go's [==] on the comparable type [V]. *)
Definition CompareAndSwap {V} `{Zero V} (eqb : V → V → bool) (expected newVal : V) : UpsertFn V :=
  λ existing ex,
  match existing, ex with
  | Some v, true => if eqb v expected then newVal else v
  | _, _ => zero
  end.

(** ** Meaning of a message *)

(** Calling a callback on the current value. *)
Definition call_upsert {V} (f : UpsertFn V) (o : option V) : V :=
  match o with Some v => f (Some v) true | None => f None false end.

Definition apply_msg {K V} (o : option V) (m : Message K V) : option V :=
  match Kind m with
  | MsgPut => Some (Value m)
  | MsgDelete => None
  | MsgDeleteRange => o
  | MsgUpsert => match Fn m with Some f => Some (call_upsert f o) | None => o end
  end.

(** The messages for key [k], oldest first. *)
Definition for_key {K V} (compare : K → K → Z) (k : K) (msgs : list (Message K V)) :=
  filter (λ m, compare (Key m) k = 0%Z) msgs.

(** The value at [k] after the messages, from the value before them. *)
Definition run {K V} (compare : K → K → Z) (k : K) (msgs : list (Message K V))
    (o : option V) : option V :=
  foldl apply_msg o (for_key compare k msgs).

(** The messages the tree buffers: never a [MsgDeleteRange], and an upsert
    carries its function. *)
Definition wf_msg {K V} (m : Message K V) : Prop :=
  match Kind m with
  | MsgDeleteRange => False
  | MsgUpsert => is_Some (Fn m)
  | MsgPut | MsgDelete => True
  end.

(** Every delete in the sequence removes a key that exists at that point. *)
Fixpoint dels_ok {K V} (o : option V) (msgs : list (Message K V)) : Prop :=
  match msgs with
  | [] => True
  | m :: msgs => (Kind m = MsgDelete → is_Some o) ∧ dels_ok (apply_msg o m) msgs
  end.

(** Every put of a key that is absent at that point was counted. *)
Fixpoint puts_ok {K V} (o : option V) (msgs : list (Message K V)) : Prop :=
  match msgs with
  | [] => True
  | m :: msgs => (Kind m = MsgPut → counted m = false → is_Some o)
                 ∧ puts_ok (apply_msg o m) msgs
  end.

(** The adjustment of [t.size] made when a message was buffered. *)
Definition msg_delta {K V} (m : Message K V) : Z :=
  match Kind m with
  | MsgPut => if counted m then 1%Z else 0%Z
  | MsgDelete => (-1)%Z
  | _ => 0%Z
  end.
Definition is_delete {K V} (m : Message K V) : Z :=
  match Kind m with MsgDelete => 1%Z | _ => 0%Z end.

(** Whether a message can add an entry to a leaf. *)
Definition msg_writes {K V} (m : Message K V) : Z :=
  match Kind m with MsgPut | MsgUpsert => 1%Z | _ => 0%Z end.

Definition sum_of {A} (f : A → Z) (l : list A) : Z := foldr (λ a s, f a + s)%Z 0%Z l.

(** ** Lemmas *)

Section sum_of.
Context {A : Type} (f : A → Z).

Lemma sum_of_cons a l : sum_of f (a :: l) = (f a + sum_of f l)%Z.
Proof. done. Qed.

Lemma sum_of_nil : sum_of f [] = 0%Z.
Proof. done. Qed.

Lemma sum_of_app l1 l2 : sum_of f (l1 ++ l2) = (sum_of f l1 + sum_of f l2)%Z.
Proof. induction l1 as [|a l1 IH]; simpl; lia. Qed.

Lemma sum_of_Permutation l1 l2 : l1 ≡ₚ l2 → sum_of f l1 = sum_of f l2.
Proof. induction 1; simpl; lia. Qed.

Lemma sum_of_nonneg l : (∀ a, 0 ≤ f a)%Z → (0 ≤ sum_of f l)%Z.
Proof. intros Hf. induction l as [|a l IH]; simpl; [lia|]. specialize (Hf a). lia. Qed.

Lemma sum_of_middle l1 a l2 :
  sum_of f (l1 ++ a :: l2) = (sum_of f l1 + f a + sum_of f l2)%Z.
Proof. rewrite sum_of_app. simpl. lia. Qed.

End sum_of.

Section messages.
Context {K V : Type}.
Implicit Types (m : Message K V) (msgs : list (Message K V)) (o : option V).

Lemma dels_ok_app o msgs1 msgs2 :
  dels_ok o (msgs1 ++ msgs2) ↔ dels_ok o msgs1 ∧ dels_ok (foldl apply_msg o msgs1) msgs2.
Proof. revert o; induction msgs1 as [|m msgs1 IH]; intros o; simpl; [tauto|]. rewrite IH. tauto. Qed.

Lemma puts_ok_app o msgs1 msgs2 :
  puts_ok o (msgs1 ++ msgs2) ↔ puts_ok o msgs1 ∧ puts_ok (foldl apply_msg o msgs1) msgs2.
Proof. revert o; induction msgs1 as [|m msgs1 IH]; intros o; simpl; [tauto|]. rewrite IH. tauto. Qed.

Lemma is_delete_nonneg m : (0 ≤ is_delete m)%Z.
Proof. unfold is_delete. destruct (Kind m); lia. Qed.

Lemma msg_writes_nonneg m : (0 ≤ msg_writes m)%Z.
Proof. unfold msg_writes. destruct (Kind m); lia. Qed.

Lemma msg_writes_len (msgs : list (Message K V)) : (sum_of msg_writes msgs ≤ Z.of_nat (length msgs))%Z.
Proof.
  induction msgs as [|m msgs IH]; [done|]. rewrite sum_of_cons. cbn [length].
  unfold msg_writes at 1. destruct (Kind m); lia.
Qed.

Context {compare : K → K → Z} {HC : Comparator compare}.

Lemma for_key_app k msgs1 msgs2 :
  for_key compare k (msgs1 ++ msgs2) = for_key compare k msgs1 ++ for_key compare k msgs2.
Proof. apply filter_app. Qed.

Lemma run_app k msgs1 msgs2 o :
  run compare k (msgs1 ++ msgs2) o = run compare k msgs2 (run compare k msgs1 o).
Proof. unfold run. by rewrite for_key_app, foldl_app. Qed.

Lemma run_nil k o : run compare k [] o = o.
Proof. done. Qed.

Lemma run_cons k m msgs o :
  run compare k (m :: msgs) o
  = run compare k msgs (if decide (compare (Key m) k = 0)%Z then apply_msg o m else o).
Proof. unfold run, for_key. rewrite filter_cons. by case_decide. Qed.

(** A key that has a value after the messages had one before, or was written. *)
Lemma run_written k msgs o :
  is_Some (run compare k msgs o) →
  is_Some o ∨ ∃ m, m ∈ msgs ∧ msg_writes m = 1%Z ∧ compare (Key m) k = 0%Z.
Proof.
  revert o. induction msgs as [|m msgs IH]; intros o; [by left|]. rewrite run_cons. intros H.
  apply IH in H as [H|(m' & Hm & Hw & Hk)]; [|right; exists m'; split; [by right|done]].
  case_decide as Hk; [|by left].
  destruct (decide (msg_writes m = 1%Z)) as [Hw|Hw]; [right; exists m; split; [left|done]|left].
  unfold apply_msg, msg_writes in *. by destruct (Kind m).
Qed.

Lemma for_key_none k msgs :
  Forall (λ m, compare (Key m) k ≠ 0%Z) msgs → for_key compare k msgs = [].
Proof. apply filter_none. Qed.

Lemma run_none k msgs o :
  Forall (λ m, compare (Key m) k ≠ 0%Z) msgs → run compare k msgs o = o.
Proof. intros H. unfold run. by rewrite for_key_none. Qed.

#[export] Instance for_key_Proper :
  Proper (keq compare ==> eq ==> eq) (@for_key K V compare).
Proof.
  intros x y Hxy msgs ? <-. apply filter_iff. intros m _.
  destruct (compare_cong_r x y (Key m) Hxy) as (_ & ? & _). done.
Qed.

#[export] Instance run_Proper :
  Proper (keq compare ==> eq ==> eq ==> eq) (@run K V compare).
Proof. intros x y Hxy msgs ? <- o ? <-. unfold run. by rewrite Hxy. Qed.

End messages.

#[export] Hint Rewrite @sum_of_app @sum_of_middle @run_app @for_key_app : fractal_rw.
#[export] Hint Resolve is_delete_nonneg msg_writes_nonneg : fractal.
