(* ===== verification/Node.v ===== *)
(** * Nodes and the tree record (node.go, tree.go)

    A Go [*node] is a leaf (sorted keys with their values) or an internal node
    (pivots, children, message buffer); [node] has a constructor for each, with
    the fields that kind uses.  The tree owns its nodes: no child is reachable
    by two paths and no slice is shared between nodes, so a node is a value.
    The field [flushBuckets] is scratch memory whose buckets are emptied before
    every use (flush.go); it carries no state and is local to [flushNode].

    After the operations come the notions the theorems are stated with:
    [den n k], the value the subtree [n] associates with key [k] once every
    pending message is taken into account; [wf_node], the structural invariant;
    [balance] and [pending], the quantities [t.size] and [t.pendingDeletes]
    track. *)

From Stdlib Require Import SpecFloat.
From S2P Require Import Prelude Order Slices Message.

#[local] Set Warnings "-register-all".
Abbreviation len l := (Z.of_nat (length l)).

Inductive node (K V : Type) :=
| Leaf (keys : list K) (values : list V)
| Internal (pivots : list K) (children : list (node K V))
           (buffer : list (Message K V)) (bufferSorted : bool).
Arguments Leaf {K V}.
Arguments Internal {K V}.

Definition leaf {K V} (n : node K V) : bool :=
  match n with Leaf _ _ => true | Internal _ _ _ _ => false end.
Definition keys {K V} (n : node K V) : list K :=
  match n with Leaf ks _ => ks | Internal _ _ _ _ => [] end.
Definition values {K V} (n : node K V) : list V :=
  match n with Leaf _ vs => vs | Internal _ _ _ _ => [] end.
Definition pivots {K V} (n : node K V) : list K :=
  match n with Leaf _ _ => [] | Internal ps _ _ _ => ps end.
Definition children {K V} (n : node K V) : list (node K V) :=
  match n with Leaf _ _ => [] | Internal _ cs _ _ => cs end.
Definition buffer {K V} (n : node K V) : list (Message K V) :=
  match n with Leaf _ _ => [] | Internal _ _ buf _ => buf end.
Definition bufferSorted {K V} (n : node K V) : bool :=
  match n with Leaf _ _ => false | Internal _ _ _ bs => bs end.

(** [treeParams] of options.go; the epsilon is kept as the IEEE value given. *)
Record treeParams := mkParams {
  epsilon : spec_float;
  blockSize : Z;
  fanout : Z;
  bufferCap : Z;
  leafCap : Z
}.

(** The tree, less its mutex: every operation below is one critical section. *)
Record BETree (K V : Type) := mkBETree {
  root : node K V;
  cmp : K → K → Z;
  params : treeParams;
  size : Z;
  pendingDeletes : Z;
  closed : bool
}.
Arguments mkBETree {K V}.
Arguments root {K V}.
Arguments cmp {K V}.
Arguments params {K V}.
Arguments size {K V}.
Arguments pendingDeletes {K V}.
Arguments closed {K V}.

(** [t.root = n], and [t.size += ds; t.pendingDeletes += dp]. *)
Definition set_root {K V} (t : BETree K V) (n : node K V) : BETree K V :=
  mkBETree n (cmp t) (params t) (size t) (pendingDeletes t) (closed t).
Definition adjust {K V} (t : BETree K V) (ds dp : Z) : BETree K V :=
  mkBETree (root t) (cmp t) (params t) (size t + ds)%Z (pendingDeletes t + dp)%Z (closed t).

(** ** Operations of node.go *)

Definition emptyLeaf {K V} : node K V := Leaf [] [].

(** [make([]T, 0, n)] panics when [n] is negative or above what the run time can
    allocate, which depends on the size of [T]: [max_cap] is the largest capacity
    that both slices of a leaf can have.  The default block size is within it. *)
Class Memory (K V : Type) := {
  max_cap : Z;
  max_cap_default : (4096 ≤ max_cap)%Z
}.
#[global] Arguments max_cap K V {_}.

Definition newLeaf {K V} `{Memory K V} (capacity : Z) : option (node K V) :=
  if decide (0 ≤ capacity ≤ max_cap K V)%Z then Some emptyLeaf else None.

Definition appendToBuffer {K V} (n : node K V) (msg : Message K V) : option (node K V) :=
  match n with
  | Leaf _ _ => None
  | Internal ps cs buf _ =>
      let buf' := buf ++ [msg] in
      Some (Internal ps cs buf' (bool_decide (length buf' ≤ 1)))
  end.

(** [for i < n && test(i) { i++ }]. *)
Fixpoint scan_while (test : nat → option bool) (fuel i n : nat) : option nat :=
  if decide (i < n) then
    match fuel with
    | 0 => None
    | S fuel => b ← test i; if b : bool then scan_while test fuel (S i) n else Some i
    end
  else Some i.

Definition key_is {K V} (compare : K → K → Z) (buf : list (Message K V)) (key : K)
    (i : nat) : option bool :=
  m ← buf !! i; Some (bool_decide (compare (Key m) key = 0%Z)).

Definition bufferMessagesForKey {K V} (n : node K V) (key : K) (compare : K → K → Z)
    : option (list (Message K V)) :=
  let buf := buffer n in
  if bufferSorted n then
    '(i, found) ← BinarySearchFunc buf key (λ m k, compare (Key m) k);
    if found : bool then
      e ← scan_while (key_is compare buf key) (length buf) (i + 1) (length buf);
      slice buf i e
    else Some []
  else Some (filter (λ m, compare (Key m) key = 0%Z) buf).

(** The test of [bufferSliceScan]: [inLo && inHi]. *)
Definition in_range {K} (compare : K → K → Z) (lo hi : K) (loInc hiInc : bool) (k : K) : Prop :=
  let cLo := compare k lo in
  let cHi := compare k hi in
  ((loInc = true ∧ 0 ≤ cLo) ∨ (loInc = false ∧ 0 < cLo))%Z
  ∧ ((hiInc = true ∧ cHi ≤ 0) ∨ (hiInc = false ∧ cHi < 0))%Z.

#[export] Instance in_range_dec {K} (compare : K → K → Z) lo hi loInc hiInc k :
  Decision (in_range compare lo hi loInc hiInc k).
Proof. unfold in_range. apply _. Defined.

Definition bufferSliceScan {K V} (n : node K V) (lo hi : K) (loInc hiInc : bool)
    (compare : K → K → Z) : list (Message K V) :=
  filter (λ m, in_range compare lo hi loInc hiInc (Key m)) (buffer n).

Definition bufferSlice {K V} (n : node K V) (lo hi : K) (loInc hiInc : bool)
    (compare : K → K → Z) : option (list (Message K V)) :=
  let buf := buffer n in
  if decide (length buf = 0) then Some []
  else if negb (bufferSorted n) then Some (bufferSliceScan n lo hi loInc hiInc compare)
  else
    '(start, _) ← BinarySearchFunc buf lo (λ m k, compare (Key m) k);
    start ← (if loInc then Some start
             else scan_while (key_is compare buf lo) (length buf) start (length buf));
    '(e, _) ← BinarySearchFunc buf hi (λ m k, compare (Key m) k);
    e ← (if hiInc then scan_while (key_is compare buf hi) (length buf) e (length buf)
         else Some e);
    if decide (e ≤ start) then Some [] else slice buf start e.

Definition findChildIndex {K V} (n : node K V) (key : K) (compare : K → K → Z) : option nat :=
  bisect (λ mid, p ← pivots n !! mid; Some (bool_decide (compare p key ≤ 0)%Z))
    (length (pivots n)) 0 (length (pivots n)).

Fixpoint leafSearch_loop {K} (ks : list K) (key : K) (compare : K → K → Z)
    (fuel lo hi : nat) : option (nat * bool) :=
  if decide (lo < hi) then
    match fuel with
    | 0 => None
    | S fuel =>
        let mid := lo + (hi - lo) / 2 in
        k ← ks !! mid;
        let c := compare k key in
        if decide (c = 0)%Z then Some (mid, true)
        else if decide (c < 0)%Z then leafSearch_loop ks key compare fuel (mid + 1) hi
        else leafSearch_loop ks key compare fuel lo mid
    end
  else Some (lo, false).
Definition leafSearch {K V} (n : node K V) (key : K) (compare : K → K → Z)
    : option (nat * bool) :=
  leafSearch_loop (keys n) key compare (length (keys n)) 0 (length (keys n)).

Definition leafInsert {K V} (n : node K V) (key : K) (value : V) (compare : K → K → Z)
    : option (node K V * bool) :=
  '(i, found) ← leafSearch n key compare;
  if found : bool then
    vs ← update i value (values n); Some (Leaf (keys n) vs, false)
  else
    ks ← Insert (keys n) i key;
    vs ← Insert (values n) i value;
    Some (Leaf ks vs, true).

Definition leafDelete {K V} (n : node K V) (key : K) (compare : K → K → Z)
    : option (node K V * bool) :=
  '(i, found) ← leafSearch n key compare;
  if found : bool then
    ks ← Delete (keys n) i;
    vs ← Delete (values n) i;
    Some (Leaf ks vs, true)
  else Some (n, false).

(** ** Meaning and invariant *)

(** The child a key routes to: the number of pivots not above it. *)
Definition child_ix {K} (compare : K → K → Z) (ps : list K) (k : K) : nat :=
  length (filter (λ p, compare p k ≤ 0)%Z ps).

Fixpoint den {K V} (compare : K → K → Z) (n : node K V) (k : K) : option V :=
  match n with
  | Leaf ks vs => alookup compare k (zip ks vs)
  | Internal ps cs buf _ =>
      run compare k buf
        (default None (map (λ c, den compare c k) cs !! child_ix compare ps k))
  end.

(** [wf_node P h n]: a subtree of height [h] whose keys all satisfy [P].
    Children only hold keys that route to them. *)
Inductive wf_node {K V} (compare : K → K → Z) : (K → Prop) → nat → node K V → Prop :=
| wf_leaf (P : K → Prop) (l : list (K * V)) :
    ksorted compare fst l → Forall (λ p, P p.1) l →
    wf_node compare P 0 (Leaf l.*1 l.*2)
| wf_internal (P : K → Prop) h ps cs buf bs :
    ksorted compare id ps → Forall P ps → length cs = S (length ps) →
    Forall wf_msg buf → Forall (λ m, P (Key m)) buf →
    (bs = true → kwsorted compare Key buf) →
    (∀ i c, cs !! i = Some c →
            wf_node compare (λ k, P k ∧ child_ix compare ps k = i) h c) →
    wf_node compare P (S h) (Internal ps cs buf bs).

Fixpoint height {K V} (n : node K V) : nat :=
  match n with
  | Leaf _ _ => 0
  | Internal _ cs _ _ => S (foldr (λ c, Nat.max (height c)) 0 cs)
  end.

(** No internal node has more than [F] children. *)
Fixpoint fan_ok {K V} (F : Z) (n : node K V) : Prop :=
  match n with
  | Leaf _ _ => True
  | Internal _ cs _ _ => (len cs ≤ F)%Z ∧ foldr (λ c P, fan_ok F c ∧ P) True cs
  end.

(** Leaf keys, corrected by the size adjustments of the pending messages. *)
Fixpoint balance {K V} (n : node K V) : Z :=
  match n with
  | Leaf ks _ => len ks
  | Internal _ cs buf _ => (sum_of msg_delta buf + sum_of id (map balance cs))%Z
  end.

(** The pending deletes of a subtree. *)
Fixpoint pending {K V} (n : node K V) : Z :=
  match n with
  | Leaf _ _ => 0%Z
  | Internal _ cs buf _ => (sum_of is_delete buf + sum_of id (map pending cs))%Z
  end.

(** A property [Q] of message sequences along the path of a key: [Q o msgs]
    holds of the buffer of each node on the path, [o] being the value below. *)
Fixpoint on_path {K V} (compare : K → K → Z) (Q : option V → list (Message K V) → Prop)
    (n : node K V) (k : K) : Prop :=
  match n with
  | Leaf _ _ => True
  | Internal ps cs buf _ =>
      Q (default None (map (λ c, den compare c k) cs !! child_ix compare ps k))
        (for_key compare k buf)
      ∧ default True (map (λ c, on_path compare Q c k) cs !! child_ix compare ps k)
  end.

(** Induction over a subtree. *)
Lemma node_tree_ind {K V} (Q : node K V → Prop) :
  (∀ ks vs, Q (Leaf ks vs)) →
  (∀ ps cs buf bs, Forall Q cs → Q (Internal ps cs buf bs)) → ∀ n, Q n.
Proof.
  intros Hl Hi. fix IH 1. intros [ks vs|ps cs buf bs]; [apply Hl|]. apply Hi.
  induction cs as [|c cs IHcs]; constructor; [apply IH|exact IHcs].
Qed.

(** ** Routing *)

Section routing.
Context {K V : Type} {compare : K → K → Z} {HC : Comparator compare}.
Implicit Types (k : K) (ps : list K) (n : node K V).

#[export] Instance child_ix_Proper : Proper (eq ==> keq compare ==> eq) (child_ix compare).
Proof.
  intros ps ? <- x y Hxy. unfold child_ix. f_equal. apply filter_iff. intros p _.
  by destruct (compare_cong_r x y p Hxy) as (_ & _ & ? & _).
Qed.

#[export] Instance den_Proper n : Proper (keq compare ==> eq) (den compare n).
Proof.
  intros x y Hxy. induction n as [ks vs|ps cs buf bs IH] using node_tree_ind; cbn [den].
  - by rewrite Hxy.
  - rewrite Hxy. f_equal. change (map ?f cs) with (f <$> cs). rewrite !list_lookup_fmap.
    destruct (cs !! child_ix compare ps y) as [c|] eqn:Hc; [|done]. simpl.
    rewrite Forall_forall in IH. by eapply IH, list_elem_of_lookup_2.
Qed.

Lemma child_ix_le ps k : child_ix compare ps k ≤ length ps.
Proof. apply length_filter_le. Qed.

Lemma child_ix_mono ps k1 k2 :
  (compare k1 k2 ≤ 0)%Z → child_ix compare ps k1 ≤ child_ix compare ps k2.
Proof.
  intros Hk. unfold child_ix. induction ps as [|p ps IH]; [done|].
  rewrite !filter_cons. case_decide; case_decide; simpl; try lia.
  exfalso. ord p k1 k2.
Qed.

Lemma child_ix_app ps1 ps2 k :
  child_ix compare (ps1 ++ ps2) k = child_ix compare ps1 k + child_ix compare ps2 k.
Proof. unfold child_ix. by rewrite filter_app, length_app. Qed.

Lemma child_ix_cons p ps k :
  child_ix compare (p :: ps) k
  = (if decide (compare p k ≤ 0)%Z then 1 else 0) + child_ix compare ps k.
Proof. unfold child_ix. rewrite filter_cons. by case_decide. Qed.

(** The binary search of [findChildIndex] counts the pivots not above the key. *)
Lemma findChildIndex_spec n k :
  ksorted compare id (pivots n) →
  findChildIndex n k compare = Some (child_ix compare (pivots n) k).
Proof.
  intros Hs. unfold findChildIndex.
  destruct (key_split id k (pivots n)) as (l1 & l2 & l3 & -> & H1 & H2 & H3);
    [by apply ksorted_kwsorted|].
  rewrite (app_assoc l1 l2 l3), (bisect_prefix (λ p, compare p k ≤ 0)%Z).
  - f_equal. unfold child_ix. rewrite filter_app, (filter_all _ (l1 ++ l2)), filter_none.
    + by rewrite app_nil_r.
    + eapply Forall_impl; [exact H3|]. unfold id; simpl; lia.
    + apply Forall_app; split; [eapply Forall_impl; [exact H1|]|eapply Forall_impl; [exact H2|]];
        unfold id; simpl; lia.
  - apply Forall_app; split; [eapply Forall_impl; [exact H1|]|eapply Forall_impl; [exact H2|]];
      unfold id; simpl; lia.
  - eapply Forall_impl; [exact H3|]. unfold id; simpl; lia.
Qed.

(** The pivot at the routed position bounds the key from below, the next one
    from above: the routing rule of the comment in node.go. *)
Lemma child_ix_pivot ps k i p :
  ksorted compare id ps → ps !! i = Some p →
  (compare p k ≤ 0)%Z ↔ i < child_ix compare ps k.
Proof.
  intros Hs Hi. apply list_split_lookup in Hi as (l1 & l2 & -> & <-).
  rewrite child_ix_app, child_ix_cons.
  apply ksorted_app in Hs as (Hl1 & _ & Hs). apply ksorted_cons in Hs as [Hl2 _].
  pose proof (child_ix_le l1 k). case_decide as Hp.
  - enough (child_ix compare l1 k = length l1) by (split; [lia|done]).
    unfold child_ix. rewrite filter_all; [done|]. apply Forall_forall. intros q Hq.
    specialize (Hl1 q p Hq ltac:(left)). unfold id in Hl1. ord q p k.
  - enough (child_ix compare l2 k = 0) by (split; [done|lia]).
    unfold child_ix. rewrite filter_none; [done|]. eapply Forall_impl; [exact Hl2|].
    unfold id; simpl. intros q Hq. ord p q k.
Qed.

(** Inserting a pivot that routes to child [i] splits exactly that child. *)
Lemma child_ix_insert ps1 ps2 p k i :
  ksorted compare id (ps1 ++ ps2) → i = length ps1 →
  child_ix compare (ps1 ++ ps2) p = i →
  child_ix compare (ps1 ++ p :: ps2) k
  = if decide (child_ix compare (ps1 ++ ps2) k < i) then child_ix compare (ps1 ++ ps2) k
    else if decide (child_ix compare (ps1 ++ ps2) k = i)
         then (if decide (compare p k ≤ 0)%Z then S i else i)
         else S (child_ix compare (ps1 ++ ps2) k).
Proof.
  intros Hs -> Hp.
  assert (child_ix compare (ps1 ++ p :: ps2) k
          = (if decide (compare p k ≤ 0)%Z then 1 else 0) + child_ix compare (ps1 ++ ps2) k)
    as -> by (rewrite !child_ix_app, child_ix_cons; lia).
  pose proof (child_ix_mono (ps1 ++ ps2) p k) as M1.
  pose proof (child_ix_mono (ps1 ++ ps2) k p) as M2.
  pose proof (compare_flip p k). pose proof (compare_flip k p).
  repeat case_decide; lia.
Qed.

End routing.

(** ** Leaf operations *)

Section leaf_ops.
Context {K V : Type} {compare : K → K → Z} {HC : Comparator compare}.
Implicit Types (k : K) (v : V) (l : list (K * V)).

Lemma leafSearch_loop_spec k ks1 ks2 ks3 fuel lo hi :
  below compare id k ks1 → at_key compare id k ks2 → above compare id k ks3 →
  (ks2 = [] ∨ ∃ a, ks2 = [a]) →
  lo ≤ length ks1 → length ks1 + length ks2 ≤ hi ≤ length (ks1 ++ ks2 ++ ks3) →
  hi - lo ≤ fuel →
  leafSearch_loop (ks1 ++ ks2 ++ ks3) k compare fuel lo hi
  = Some (length ks1, bool_decide (ks2 ≠ [])).
Proof.
  intros H1 H2 H3 Hu. revert lo hi.
  induction fuel as [|fuel IH]; intros lo hi Hlo Hhi Hf; cbn [leafSearch_loop].
  { rewrite decide_False by lia. destruct Hu as [->|[a ->]]; simpl in *; [|lia].
    f_equal. f_equal. lia. }
  case_decide as Hlt.
  2:{ destruct Hu as [->|[a ->]]; simpl in *; [|lia]. f_equal. f_equal. lia. }
  cbv zeta. set (mid := lo + (hi - lo) / 2).
  assert (lo ≤ mid < hi) as Hmid.
  { unfold mid. pose proof (Nat.div_lt (hi - lo) 2). lia. }
  clearbody mid. rewrite !length_app in Hhi.
  destruct (decide (mid < length ks1)) as [Hm1|Hm1].
  { destruct (lookup_lt_is_Some_2 ks1 mid Hm1) as [a Ha].
    rewrite lookup_app_l, Ha by done. simpl.
    pose proof (Forall_lookup_1 _ _ _ _ H1 Ha) as Hc. unfold id in Hc. simpl in Hc.
    rewrite decide_False, decide_True by lia. apply IH; rewrite ?length_app; lia. }
  destruct (decide (mid < length ks1 + length ks2)) as [Hm2|Hm2].
  { destruct Hu as [->|[a ->]]; simpl in *; [lia|].
    rewrite (lookup_middle mid ks1 ks3 a) by lia. simpl.
    apply Forall_cons in H2 as [Hc _]. unfold id in Hc.
    rewrite decide_True by done. f_equal. f_equal. lia. }
  destruct (lookup_lt_is_Some_2 ks3 (mid - length ks1 - length ks2)) as [a Ha]; [lia|].
  rewrite lookup_app_r, lookup_app_r by lia. rewrite Ha. simpl.
  pose proof (Forall_lookup_1 _ _ _ _ H3 Ha) as Hc. unfold id in Hc. simpl in Hc.
  rewrite decide_False, decide_False by lia. apply IH; rewrite ?length_app; lia.
Qed.

Lemma leafSearch_spec k l1 l2 l3 :
  below compare fst k l1 → at_key compare fst k l2 → above compare fst k l3 →
  (l2 = [] ∨ ∃ a, l2 = [a]) →
  leafSearch (Leaf (l1 ++ l2 ++ l3).*1 (l1 ++ l2 ++ l3).*2) k compare
  = Some (length l1, bool_decide (l2 ≠ [])).
Proof.
  intros H1 H2 H3 Hu. unfold leafSearch, keys. rewrite !fmap_app.
  rewrite leafSearch_loop_spec.
  - rewrite length_fmap. f_equal. f_equal. apply bool_decide_ext.
    by destruct l2.
  - by apply Forall_fmap.
  - by apply Forall_fmap.
  - by apply Forall_fmap.
  - destruct Hu as [->|[a ->]]; [by left|right; by exists a.1].
  - lia.
  - rewrite !length_app. lia.
  - lia.
Qed.

(** [leafInsert] stores the value, keeping the stored key when it overwrites. *)
Lemma leafInsert_spec k v l1 l2 l3 :
  below compare fst k l1 → at_key compare fst k l2 → above compare fst k l3 →
  (l2 = [] ∨ ∃ a, l2 = [a]) →
  let l' := l1 ++ (default k (head l2.*1), v) :: l3 in
  leafInsert (Leaf (l1 ++ l2 ++ l3).*1 (l1 ++ l2 ++ l3).*2) k v compare
  = Some (Leaf l'.*1 l'.*2, bool_decide (l2 = [])).
Proof.
  intros H1 H2 H3 Hu l'. subst l'. unfold leafInsert.
  rewrite leafSearch_spec by done. simpl.
  destruct Hu as [->|[[k0 v0] ->]]; simpl; rewrite !fmap_app; simpl.
  - rewrite !Insert_app by (by rewrite length_fmap). done.
  - by rewrite update_middle by (by rewrite length_fmap).
Qed.

Lemma leafDelete_spec k l1 l2 l3 :
  below compare fst k l1 → at_key compare fst k l2 → above compare fst k l3 →
  (l2 = [] ∨ ∃ a, l2 = [a]) →
  leafDelete (Leaf (l1 ++ l2 ++ l3).*1 (l1 ++ l2 ++ l3).*2) k compare
  = Some (Leaf (l1 ++ l3).*1 (l1 ++ l3).*2, bool_decide (l2 ≠ [])).
Proof.
  intros H1 H2 H3 Hu. unfold leafDelete. rewrite leafSearch_spec by done. simpl.
  destruct Hu as [->|[[k0 v0] ->]]; simpl; [done|]. rewrite !fmap_app; simpl.
  by rewrite !Delete_app by (by rewrite length_fmap).
Qed.

End leaf_ops.

(** ** Buffers *)

Section buffers.
Context {K V : Type} {compare : K → K → Z} {HC : Comparator compare}.
Implicit Types (n : node K V) (k : K).

Lemma scan_while_spec test fuel i e (top : nat) :
  i ≤ e ≤ top → top - i ≤ fuel →
  (∀ j, i ≤ j < e → test j = Some true) → (e < top → test e = Some false) →
  scan_while test fuel i top = Some e.
Proof.
  revert i. induction fuel as [|fuel IH]; intros i Hi Hf Ht He; simpl.
  { rewrite decide_False by lia. f_equal; lia. }
  case_decide; [|f_equal; lia]. destruct (decide (i = e)) as [->|Hne].
  - by rewrite He.
  - rewrite Ht by lia. simpl. apply IH; [lia..| |done]. intros; apply Ht; lia.
Qed.

(** Scanning over the messages equivalent to [k] from the end of [l1]. *)
Lemma scan_key_spec k (l1 l2 l3 : list (Message K V)) (buf := l1 ++ l2 ++ l3) i :
  at_key compare Key k l2 → above compare Key k l3 →
  length l1 ≤ i ≤ length l1 + length l2 →
  scan_while (key_is compare buf k) (length buf) i (length buf)
  = Some (length l1 + length l2).
Proof.
  intros H2 H3 Hi. subst buf. apply scan_while_spec.
  - rewrite !length_app. lia.
  - lia.
  - intros j Hj. destruct (lookup_lt_is_Some_2 l2 (j - length l1)) as [m Hm]; [lia|].
    unfold key_is. rewrite lookup_app_r, lookup_app_l, Hm by lia. simpl. f_equal.
    apply bool_decide_eq_true. by apply (Forall_lookup_1 _ _ _ _ H2 Hm).
  - intros Hlt. rewrite !length_app in Hlt. destruct l3 as [|m l3]; [simpl in Hlt; lia|].
    unfold key_is. rewrite (app_assoc l1 l2), lookup_middle by (rewrite length_app; lia).
    simpl. f_equal. apply bool_decide_eq_false.
    apply Forall_cons in H3 as [H3 _]. lia.
Qed.

Lemma bufferMessagesForKey_spec n k :
  (bufferSorted n = true → kwsorted compare Key (buffer n)) →
  bufferMessagesForKey n k compare = Some (for_key compare k (buffer n)).
Proof.
  intros Hs. unfold bufferMessagesForKey. destruct (bufferSorted n); [|done].
  destruct (key_split Key k (buffer n)) as (l1 & l2 & l3 & -> & H1 & H2 & H3); [auto|].
  rewrite BinarySearchFunc_spec by done. unfold for_key. rewrite filter_split by done.
  simpl. case_bool_decide as Hl2.
  - destruct l2 as [|m l2]; [done|]. rewrite scan_key_spec by (done || simpl; lia). simpl.
    apply (slice_app l1 (m :: l2) l3); done.
  - destruct l2; [done|]. by destruct Hl2.
Qed.

(** What a range keeps of a sequence split around its bounds. *)
Lemma filter_in_range {A} (f : A → K) lo hi loInc hiInc (l1 l2 l3 l4 l5 : list A) :
  (compare lo hi < 0)%Z →
  below compare f lo l1 → at_key compare f lo l2 → above compare f lo l3 →
  below compare f hi l3 → at_key compare f hi l4 → above compare f hi l5 →
  filter (λ a, in_range compare lo hi loInc hiInc (f a)) (l1 ++ l2 ++ l3 ++ l4 ++ l5)
  = (if loInc then l2 else []) ++ l3 ++ (if hiInc then l4 else []).
Proof.
  intros Hlh H1 H2 H3 H3' H4 H5. rewrite !filter_app.
  rewrite (filter_none _ l1), (filter_all _ l3), (filter_none _ l5).
  - rewrite app_nil_l, app_nil_r. f_equal; [|f_equal].
    + destruct loInc; [apply filter_all|apply filter_none];
        (eapply Forall_impl; [exact H2|]); unfold in_range; simpl; intros a Ha.
      * destruct hiInc; ord (f a) lo hi.
      * intros [[[? ?]|[? ?]] _]; [done|lia].
    + destruct hiInc; [apply filter_all|apply filter_none];
        (eapply Forall_impl; [exact H4|]); unfold in_range; simpl; intros a Ha.
      * destruct loInc; ord (f a) lo hi.
      * intros [_ [[? ?]|[? ?]]]; [done|lia].
  - eapply Forall_impl; [exact H5|]. unfold in_range; simpl. intros a Ha.
    destruct hiInc; lia.
  - apply Forall_forall. intros a Ha. unfold below, above in *.
    rewrite Forall_forall in H3, H3'. specialize (H3 a Ha). specialize (H3' a Ha).
    unfold in_range; simpl in *. destruct loInc, hiInc; lia.
  - eapply Forall_impl; [exact H1|]. unfold in_range; simpl. intros a Ha.
    destruct loInc; lia.
Qed.

(** A range of a sorted buffer is what the linear scan collects. *)
Lemma bufferSlice_spec n lo hi loInc hiInc :
  (compare lo hi < 0)%Z →
  (bufferSorted n = true → kwsorted compare Key (buffer n)) →
  bufferSlice n lo hi loInc hiInc compare
  = Some (bufferSliceScan n lo hi loInc hiInc compare).
Proof.
  intros Hlh Hs. unfold bufferSlice, bufferSliceScan. cbv zeta.
  destruct (decide (length (buffer n) = 0)) as [E|_].
  { destruct (buffer n); [done|discriminate]. }
  destruct (bufferSorted n); [|done]. cbn [negb]. specialize (Hs eq_refl).
  revert Hs. generalize (buffer n) as buf. intros buf Hs.
  destruct (range_split Key lo hi buf Hs Hlh)
    as (l1 & l2 & l3 & l4 & l5 & -> & H1 & H2 & H3 & H3' & H4 & H5).
  rewrite filter_in_range by done.
  assert (above compare Key lo (l3 ++ l4 ++ l5)) as Ha.
  { repeat (apply Forall_app; split); [done|by eapply at_key_above|].
    eapply above_trans; [|done]. lia. }
  assert (below compare Key hi (l1 ++ l2 ++ l3)) as Hb.
  { repeat (apply Forall_app; split); [|by eapply at_key_below|done].
    eapply below_trans; [|done]. lia. }
  rewrite (BinarySearchFunc_spec Key lo l1 l2) by done. cbn [mbind option_bind].
  set (s := if loInc then length l1 else length l1 + length l2).
  match goal with |- context[if loInc then ?a else ?b] =>
    assert ((if loInc then a else b) = Some s) as -> end.
  { unfold s. destruct loInc; [done|]. apply scan_key_spec; [done..|lia]. }
  cbn [mbind option_bind].
  assert (l1 ++ l2 ++ l3 ++ l4 ++ l5 = (l1 ++ l2 ++ l3) ++ l4 ++ l5) as ->
    by (by rewrite <-!app_assoc).
  rewrite (BinarySearchFunc_spec Key hi (l1 ++ l2 ++ l3) l4) by done. cbn [mbind option_bind].
  set (e := length (l1 ++ l2 ++ l3) + if hiInc then length l4 else 0).
  match goal with |- context[if hiInc then ?a else ?b] =>
    assert ((if hiInc then a else b) = Some e) as -> end.
  { unfold e. destruct hiInc; [|f_equal; lia]. apply scan_key_spec; [done..|lia]. }
  cbn [mbind option_bind].
  set (mid := (if loInc then l2 else []) ++ l3 ++ (if hiInc then l4 else [])).
  assert (∃ p q, (l1 ++ l2 ++ l3) ++ l4 ++ l5 = p ++ mid ++ q ∧ s = length p
                 ∧ e = s + length mid) as (p & q & -> & -> & ->).
  { exists (l1 ++ (if loInc then [] else l2)), ((if hiInc then [] else l4) ++ l5).
    unfold mid, s, e. destruct loInc, hiInc; simpl; rewrite ?app_nil_r, <-?app_assoc;
      (split; [done|]); rewrite !length_app; simpl; lia. }
  case_decide as Hm.
  - destruct mid; [done|simpl in Hm; lia].
  - by apply slice_app.
Qed.

End buffers.
