(* ===== verification/LeafMerge.v ===== *)
(** * Applying a flushed batch to a leaf (flush.go)

    [applyToLeaf] has a per-message path for up to three messages and a batch
    path: stable sort, fold each same-key group into one message, resolve the
    remaining upserts against the leaf, then one of three in-place merges.  The
    merges are modelled on arrays with the indices of the source.  Slots that
    [slices.Grow] exposes hold unspecified data, so during [mergeLeafPuts] a
    slot is an [option] and reading a slot that was never written is a panic of
    the model; that no such slot is read or survives is part of
    [mergeLeafPuts_spec].  The write and read cursors [w] and [r] of the source
    can be -1; the model keeps [W = w+1] and [R = r+1].

    All paths are proved to implement one specification, [leaf_result]: the new
    leaf is sorted, each key holds what playing the messages in order gives, and
    [t.size], [t.pendingDeletes] move by exactly the correction of ADR-002. *)

From S2P Require Import Prelude Order Slices Message Node.

(** ** applyToLeafSmall *)

Definition apply_one {K V} (st : BETree K V * node K V) (m : Message K V)
    : option (BETree K V * node K V) :=
  let '(t, n) := st in
  match Kind m with
  | MsgPut =>
      '(n, newKey) ← leafInsert n (Key m) (Value m) (cmp t);
      let t := if newKey && negb (counted m) then adjust t 1 0
               else if negb newKey && counted m then adjust t (-1) 0 else t in
      Some (t, n)
  | MsgDelete =>
      '(n, _) ← leafDelete n (Key m) (cmp t);
      Some (adjust t 0 (-1), n)
  | MsgUpsert =>
      '(idx, found) ← leafSearch n (Key m) (cmp t);
      f ← Fn m;
      if found : bool then
        v ← values n !! idx;
        vs ← update idx (f (Some v) true) (values n);
        Some (t, Leaf (keys n) vs)
      else
        '(n, _) ← leafInsert n (Key m) (f None false) (cmp t);
        Some (adjust t 1 0, n)
  | MsgDeleteRange => Some (t, n)
  end.
Definition applyToLeafSmall {K V} (t : BETree K V) (n : node K V) (msgs : list (Message K V))
    : option (BETree K V * node K V) :=
  foldM apply_one (t, n) msgs.

(** ** resolveMessages, resolveKeyGroup *)

Definition set_value {K V} (m : Message K V) (v : V) : Message K V :=
  mkMessage (Kind m) (Key m) (EndKey m) v (Fn m) (counted m).
Definition set_fn {K V} (m : Message K V) (f : option (UpsertFn V)) : Message K V :=
  mkMessage (Kind m) (Key m) (EndKey m) (Value m) f (counted m).
Definition set_kind {K V} (m : Message K V) (kd : MsgKind) : Message K V :=
  mkMessage kd (Key m) (EndKey m) (Value m) (Fn m) (counted m).
Definition set_counted {K V} (m : Message K V) (b : bool) : Message K V :=
  mkMessage (Kind m) (Key m) (EndKey m) (Value m) (Fn m) b.

Definition fold_group {K V} (result m : Message K V) : option (Message K V) :=
  match Kind m with
  | MsgPut | MsgDelete => Some m
  | MsgUpsert =>
      match Kind result with
      | MsgPut =>
          f ← Fn m; Some (set_value result (f (Some (Value result)) true))
      | MsgDelete =>
          f ← Fn m;
          Some (set_counted (set_kind (set_value result (f None false)) MsgPut) false)
      | MsgUpsert =>
          prev ← Fn result;
          curr ← Fn m;
          Some (set_fn result (Some (λ existing ex,
            let base := prev existing ex in curr (Some base) true)))
      | MsgDeleteRange => Some result
      end
  | MsgDeleteRange => Some result
  end.
Definition resolveKeyGroup {K V} (group : list (Message K V)) : option (Message K V) :=
  match group with
  | [] => None
  | g :: group => foldM fold_group g group
  end.

(** [sorted] of [resolveMessages]: adjacent keys strictly increase. *)
Fixpoint strictly_ascending {K V} (compare : K → K → Z) (msgs : list (Message K V)) : bool :=
  match msgs with
  | m1 :: (m2 :: _) as rest =>
      if decide (0 ≤ compare (Key m1) (Key m2))%Z then false
      else strictly_ascending compare rest
  | _ => true
  end.

Fixpoint dedup_loop {K V} (compare : K → K → Z) (fuel : nat) (msgs : list (Message K V))
    (n i : nat) : option (list (Message K V)) :=
  if decide (i < length msgs) then
    match fuel with
    | 0 => None
    | S fuel =>
        mi ← msgs !! i;
        j ← scan_while (λ j, mj ← msgs !! j;
                             Some (bool_decide (compare (Key mi) (Key mj) = 0%Z)))
              (length msgs) (i + 1) (length msgs);
        g ← (if decide (j = i + 1) then Some mi
             else grp ← slice msgs i j; resolveKeyGroup grp);
        msgs ← update n g msgs;
        dedup_loop compare fuel msgs (n + 1) j
    end
  else slice msgs 0 n.
Definition resolveMessages {K V} (compare : K → K → Z) (msgs : list (Message K V))
    : option (list (Message K V)) :=
  let msgs := if strictly_ascending compare msgs then msgs
              else SortStableFunc msgs (λ a b, compare (Key a) (Key b)) in
  dedup_loop compare (length msgs) msgs 0 0.

(** Phase 2b: an upsert left after folding becomes a put of its value. *)
Definition resolve_upsert {K V} (compare : K → K → Z) (n : node K V) (m : Message K V)
    : option (Message K V) :=
  match Kind m with
  | MsgUpsert =>
      '(idx, found) ← leafSearch n (Key m) compare;
      f ← Fn m;
      v ← (if found : bool then v ← values n !! idx; Some (f (Some v) true)
           else Some (f None false));
      Some (set_fn (set_kind (set_value m v) MsgPut) None)
  | _ => Some m
  end.

(** ** The three merges *)

Definition appendToLeaf {K V} (n : node K V) (msgs : list (Message K V)) : node K V :=
  Leaf (keys n ++ (Key <$> msgs)) (values n ++ (Value <$> msgs)).

(** [slices.Grow(s, n)[:len(s)+n]]: the new slots are unspecified. *)
Definition grow {A} (s : list A) (n : nat) : list (option A) :=
  (Some <$> s) ++ replicate n None.
(** Every slot of the array has been written. *)
Definition all_set {A} (s : list (option A)) : option (list A) := mapM id s.

Definition index_sub (a b : nat) : option nat :=
  if decide (b ≤ a) then Some (a - b) else None.

(** The loop body for message [p - 1]; [p] iterations remain. *)
Fixpoint merge_puts_loop {K V} (compare : K → K → Z) (msgs : list (Message K V)) (p : nat)
    (ks : list (option K)) (vs : list (option V)) (W R overwrites : nat)
    : option (list (option K) * list (option V) * nat * nat * nat) :=
  match p with
  | 0 => Some (ks, vs, W, R, overwrites)
  | S p =>
      m ← msgs !! p;
      old ← slice ks 0 R;
      old ← all_set old;
      '(pos, found) ← BinarySearchFunc old (Key m) compare;
      let chunkStart := if found : bool then pos + 1 else pos in
      let overwrites := if found : bool then overwrites + 1 else overwrites in
      chunk ← index_sub R chunkStart;
      '(ks, vs, W) ←
        (if decide (0 < chunk) then
           lo ← index_sub W chunk;
           srck ← slice ks chunkStart R;
           ks ← copy_range ks lo W srck;
           srcv ← slice vs chunkStart R;
           vs ← copy_range vs lo W srcv;
           Some (ks, vs, lo)
         else Some (ks, vs, W));
      w ← index_sub W 1;
      ks ← update w (Some (Key m)) ks;
      vs ← update w (Some (Value m)) vs;
      merge_puts_loop compare msgs p ks vs w pos overwrites
  end.

(** Close the gap left by overwrites and truncate. *)
Definition close_gap {A} (arr : list (option A)) (W R total finalLen : nat)
    : option (list (option A)) :=
  src ← slice arr W total;
  arr ← copy_range arr R (length arr) src;
  slice arr 0 finalLen.

Definition mergeLeafPuts {K V} (compare : K → K → Z) (n : node K V) (msgs : list (Message K V))
    : option (node K V) :=
  let numPuts := length msgs in
  let oldLen := length (keys n) in
  let total := oldLen + numPuts in
  '(ks, vs, W, R, overwrites) ←
    merge_puts_loop compare msgs numPuts (grow (keys n) numPuts) (grow (values n) numPuts)
      total oldLen 0;
  '(ks, vs) ←
    (if decide (0 < overwrites) then
       finalLen ← index_sub total overwrites;
       ks ← close_gap ks W R total finalLen;
       vs ← close_gap vs W R total finalLen;
       Some (ks, vs)
     else Some (ks, vs));
  ks ← all_set ks;
  vs ← all_set vs;
  Some (Leaf ks vs).

(** The mutable variables of [mergeLeafWithDeletes]. *)
Record compaction (K V : Type) := mkCompaction {
  c_keys : list K;
  c_values : list V;
  c_msgs : list (Message K V);
  c_li : nat;
  c_mi : nat;
  c_w : nat;
  c_numNew : nat
}.
Arguments mkCompaction {K V}.
Arguments c_keys {K V}.
Arguments c_values {K V}.
Arguments c_msgs {K V}.
Arguments c_li {K V}.
Arguments c_mi {K V}.
Arguments c_w {K V}.
Arguments c_numNew {K V}.

(** [leaf.keys[w], leaf.values[w] = leaf.keys[li], leaf.values[li]; w++; li++]. *)
Definition keep_key {K V} (s : compaction K V) : option (compaction K V) :=
  k ← c_keys s !! c_li s;
  v ← c_values s !! c_li s;
  ks ← update (c_w s) k (c_keys s);
  vs ← update (c_w s) v (c_values s);
  Some (mkCompaction ks vs (c_msgs s) (c_li s + 1) (c_mi s) (c_w s + 1) (c_numNew s)).
(** [if msgs[mi].Kind == MsgPut { msgs[numNew] = msgs[mi]; numNew++ }; mi++]. *)
Definition collect_new {K V} (s : compaction K V) : option (compaction K V) :=
  m ← c_msgs s !! c_mi s;
  if decide (Kind m = MsgPut) then
    msgs ← update (c_numNew s) m (c_msgs s);
    Some (mkCompaction (c_keys s) (c_values s) msgs (c_li s) (c_mi s + 1) (c_w s) (c_numNew s + 1))
  else
    Some (mkCompaction (c_keys s) (c_values s) (c_msgs s) (c_li s) (c_mi s + 1) (c_w s) (c_numNew s)).
(** The match case: overwrite or delete. *)
Definition apply_match {K V} (s : compaction K V) : option (compaction K V) :=
  m ← c_msgs s !! c_mi s;
  if decide (Kind m = MsgPut) then
    ks ← update (c_w s) (Key m) (c_keys s);
    vs ← update (c_w s) (Value m) (c_values s);
    Some (mkCompaction ks vs (c_msgs s) (c_li s + 1) (c_mi s + 1) (c_w s + 1) (c_numNew s))
  else
    Some (mkCompaction (c_keys s) (c_values s) (c_msgs s) (c_li s + 1) (c_mi s + 1) (c_w s) (c_numNew s)).

(** The three loops of phase 1 are one: walk both while both remain, then the
    rest of the leaf, then the rest of the messages. *)
Fixpoint compact_loop {K V} (compare : K → K → Z) (fuel : nat) (s : compaction K V)
    : option (compaction K V) :=
  match fuel with
  | 0 => None
  | S fuel =>
      if decide (c_li s < length (c_keys s) ∧ c_mi s < length (c_msgs s)) then
        k ← c_keys s !! c_li s;
        m ← c_msgs s !! c_mi s;
        let c := compare k (Key m) in
        s ← (if decide (c < 0)%Z then keep_key s
             else if decide (0 < c)%Z then collect_new s
             else apply_match s);
        compact_loop compare fuel s
      else if decide (c_li s < length (c_keys s)) then
        s ← keep_key s; compact_loop compare fuel s
      else if decide (c_mi s < length (c_msgs s)) then
        s ← collect_new s; compact_loop compare fuel s
      else Some s
  end.

Definition mergeLeafWithDeletes {K V} (compare : K → K → Z) (n : node K V)
    (msgs : list (Message K V)) : option (node K V) :=
  s ← compact_loop compare (S (length (keys n) + length msgs))
        (mkCompaction (keys n) (values n) msgs 0 0 0 0);
  ks ← slice (c_keys s) 0 (c_w s);
  vs ← slice (c_values s) 0 (c_w s);
  if decide (0 < c_numNew s) then
    news ← slice (c_msgs s) 0 (c_numNew s);
    mergeLeafPuts compare (Leaf ks vs) news
  else Some (Leaf ks vs).

(** ** applyToLeaf *)

Definition pre_counted {K V} (m : Message K V) : Z :=
  if decide (Kind m = MsgPut ∧ counted m = true) then 1%Z else 0%Z.

Definition applyToLeaf {K V} (t : BETree K V) (n : node K V) (msgs : list (Message K V))
    : option (BETree K V * node K V) :=
  if decide (length msgs = 0) then Some (t, n)
  else if decide (length msgs ≤ 3) then applyToLeafSmall t n msgs
  else
    let preCounted := sum_of pre_counted msgs in
    let numDeletes := sum_of is_delete msgs in
    let t := adjust t 0 (- numDeletes) in
    msgs ← resolveMessages (cmp t) msgs;
    msgs ← mapM (resolve_upsert (cmp t) n) msgs;
    let oldLen := length (keys n) in
    n' ← (if decide (numDeletes = 0%Z ∧ 0 < oldLen) then
            m0 ← msgs !! 0;
            last ← keys n !! (oldLen - 1);
            if decide (0 < cmp t (Key m0) last)%Z then Some (appendToLeaf n msgs)
            else mergeLeafPuts (cmp t) n msgs
          else if decide (numDeletes = 0%Z) then mergeLeafPuts (cmp t) n msgs
          else mergeLeafWithDeletes (cmp t) n msgs);
    Some (adjust t (len (keys n') - Z.of_nat oldLen - preCounted + numDeletes) 0, n').

(** What applying [msgs] to the leaf with pairs [l] must do.  [P] is the range
    of keys the leaf is responsible for. *)
Record leaf_result {K V} (t : BETree K V) (P : K → Prop) (l : list (K * V))
    (msgs : list (Message K V)) (t' : BETree K V) (n' : node K V) (l' : list (K * V)) : Prop := {
  lr_node : n' = Leaf l'.*1 l'.*2;
  lr_sorted : ksorted (cmp t) fst l';
  lr_bounds : Forall (λ p, P p.1) l';
  lr_lookup k : alookup (cmp t) k l' = run (cmp t) k msgs (alookup (cmp t) k l);
  lr_tree : t' = adjust t (len l' - len l - sum_of msg_delta msgs) (- sum_of is_delete msgs)
}.

(** A batch adds at most one entry for each put and upsert. *)
Lemma leaf_result_grows {K V} (t : BETree K V) {HC : Comparator (cmp t)} P l msgs t' n' l' :
  leaf_result t P l msgs t' n' l' → (len l' ≤ len l + sum_of msg_writes msgs)%Z.
Proof.
  intros [_ Hs _ Hl _]. set (ws := filter (λ m, msg_writes m = 1%Z) msgs).
  assert (sum_of msg_writes msgs = len ws) as ->.
  { unfold ws. clear. induction msgs as [|m msgs IH]; [done|]. rewrite filter_cons.
    unfold sum_of in *. cbn [foldr]. rewrite IH. unfold msg_writes.
    case_decide; destruct (Kind m); simpl; lia. }
  enough (length l' ≤ length (l.*1 ++ (Key <$> ws))) as Hle.
  { rewrite length_app, !length_fmap in Hle. lia. }
  apply (ksorted_pigeonhole fst); [done|]. intros [k v] Hkv.
  assert (is_Some (run (cmp t) k msgs (alookup (cmp t) k l))) as Hrun.
  { rewrite <-Hl. exists v. by eapply alookup_elem. }
  apply run_written in Hrun as [[v0 Hv]|(m & Hm & Hw & Hk)].
  - apply alookup_Some_elem in Hv as (k' & Hin & Hk). exists k'. split; [|by symmetry].
    apply elem_of_app. left. apply list_elem_of_fmap. by exists (k', v0).
  - exists (Key m). split; [|by symmetry]. apply elem_of_app. right.
    apply list_elem_of_fmap. exists m. split; [done|]. by apply list_elem_of_filter.
Qed.

(** ** Resolving a batch *)

Lemma adjust_adjust {K V} (t : BETree K V) a b c d :
  adjust (adjust t a b) c d = adjust t (a + c) (b + d).
Proof. unfold adjust; simpl. f_equal; lia. Qed.

Lemma adjust_0 {K V} (t : BETree K V) a b : a = 0%Z → b = 0%Z → adjust t a b = t.
Proof. intros -> ->. destruct t. unfold adjust; simpl. f_equal; lia. Qed.

Lemma adjust_eq {K V} (t : BETree K V) a b c d :
  a = c → b = d → adjust t a b = adjust t c d.
Proof. by intros -> ->. Qed.

Section resolve.
Context {K V : Type} {compare : K → K → Z} {HC : Comparator compare}.
Implicit Types (m : Message K V) (msgs : list (Message K V)).

(** Folding [m] into [result] is playing both in order. *)
Lemma fold_group_spec result m : wf_msg result → wf_msg m → keq compare (Key result) (Key m) →
  ∃ r, fold_group result m = Some r ∧ wf_msg r ∧ keq compare (Key r) (Key m)
       ∧ (Key r = Key result ∨ Key r = Key m)
       ∧ (∀ o, apply_msg o r = apply_msg (apply_msg o result) m)
       ∧ (Kind r = MsgDelete → Kind result = MsgDelete ∨ Kind m = MsgDelete).
Proof.
  intros Hr Hm Hk. unfold fold_group, apply_msg, wf_msg in *.
  assert (keq compare (Key m) (Key m)) by apply compare_refl.
  destruct (Kind m) eqn:Em; [exists m; rewrite ?Em; by eauto 8..|done|].
  destruct Hm as [f Hf]. rewrite Hf. simpl. destruct (Kind result) eqn:Er; [..|done|].
  - eexists; split; [done|]. simpl. rewrite Er. by eauto 8.
  - eexists; split; [done|]. simpl. by eauto 8.
  - destruct Hr as [g Hg]. rewrite Hg. simpl. eexists; split; [done|]. simpl. rewrite Er.
    split_and!; eauto. intros o. f_equal. by destruct o.
Qed.

Lemma resolveKeyGroup_spec k g gs :
  Forall wf_msg (g :: gs) → at_key compare Key k (g :: gs) →
  ∃ r, resolveKeyGroup (g :: gs) = Some r ∧ wf_msg r ∧ (∃ m, m ∈ g :: gs ∧ Key r = Key m)
       ∧ (∀ o, apply_msg o r = foldl apply_msg o (g :: gs))
       ∧ (Kind r = MsgDelete → ∃ m, m ∈ g :: gs ∧ Kind m = MsgDelete).
Proof.
  unfold resolveKeyGroup. revert g. induction gs as [|m gs IH]; intros g Hw Hk; simpl.
  { exists g. apply Forall_cons in Hw as [Hw _]. split_and!; [done..| | |]; eauto using list_elem_of_here. }
  apply Forall_cons in Hw as [Hg Hw]. apply Forall_cons in Hw as [Hm Hw].
  apply Forall_cons in Hk as [Hkg Hk]. apply Forall_cons in Hk as [Hkm Hk].
  destruct (fold_group_spec g m) as (r & Er & Hr & Hkr & Hor & Ha & Hd); [done..| |].
  { simpl in *. ord (Key g) (Key m) k. }
  rewrite Er. simpl. destruct (IH r) as (r' & E' & Hr' & (m' & Hm' & Hkm') & Ha' & Hd').
  { by constructor. }
  { constructor; [|done]. simpl in *. ord (Key r) (Key m) k. }
  exists r'. split_and!; [done|done|..].
  - apply elem_of_cons in Hm' as [->|Hm']; [|by exists m'; split; [mem|]].
    destruct Hor as [E|E]; [exists g|exists m]; rewrite Hkm', E; (split; [mem|done]).
  - intros o. rewrite Ha'. simpl. by rewrite Ha.
  - intros (m'' & Hin & Hdel)%Hd'. apply elem_of_cons in Hin as [->|Hin].
    + destruct (Hd Hdel); [exists g|exists m]; (split; [mem|done]).
    + exists m''; split; [mem|done].
Qed.

(** The result [r] of resolving [msgs]: one message per key, same effect. *)
Record resolved (msgs r : list (Message K V)) : Prop := {
  res_sorted : ksorted compare Key r;
  res_wf : Forall wf_msg r;
  res_run k o : run compare k r o = run compare k msgs o;
  res_keys m : m ∈ r → ∃ m', m' ∈ msgs ∧ Key m = Key m';
  res_deletes m : m ∈ r → Kind m = MsgDelete → ∃ m', m' ∈ msgs ∧ Kind m' = MsgDelete;
  res_nonempty : msgs ≠ [] → r ≠ []
}.

(** The scan for the end of the first key group. *)
Lemma group_end_spec done_ m grp rest (arr := done_ ++ (m :: grp) ++ rest) :
  at_key compare Key (Key m) grp → above compare Key (Key m) rest →
  scan_while (λ j, mj ← arr !! j; Some (bool_decide (compare (Key m) (Key mj) = 0%Z)))
    (length arr) (length done_ + 1) (length arr)
  = Some (length done_ + S (length grp)).
Proof.
  intros Hg Hr. subst arr. apply scan_while_spec.
  - rewrite !length_app. simpl. lia.
  - lia.
  - intros j Hj. destruct (lookup_lt_is_Some_2 grp (j - S (length done_))) as [mj Hmj]; [lia|].
    rewrite lookup_app_r, lookup_app_l by (simpl; lia).
    replace (j - length done_) with (S (j - S (length done_))) by lia. simpl.
    rewrite Hmj. simpl. f_equal. apply bool_decide_eq_true.
    pose proof (Forall_lookup_1 _ _ _ _ Hg Hmj) as Hc. simpl in Hc. ord (Key mj) (Key m).
  - intros Hlt. rewrite !length_app in Hlt. destruct rest as [|mj rest]; [simpl in *; lia|].
    rewrite (app_assoc done_), lookup_middle by (rewrite length_app; simpl; lia).
    simpl. f_equal. apply bool_decide_eq_false.
    apply Forall_cons in Hr as [Hc _]. simpl in Hc. ord (Key mj) (Key m).
Qed.

Lemma run_group k m grp rest o r :
  at_key compare Key (Key m) grp → above compare Key (Key m) rest →
  keq compare (Key r) (Key m) → (∀ o, apply_msg o r = foldl apply_msg o (m :: grp)) →
  run compare k (r :: rest) o = run compare k ((m :: grp) ++ rest) o.
Proof.
  intros Hg Hr Hk Ha. rewrite run_app, run_cons. f_equal.
  case_decide as Hrk.
  - assert (compare (Key m) k = 0)%Z as Hmk by ord (Key r) (Key m) k.
    rewrite Ha. unfold run, for_key. rewrite filter_all; [done|].
    constructor; [done|]. eapply Forall_impl; [exact Hg|].
    simpl. intros m' Hm'. ord (Key m') (Key m) k.
  - assert (compare (Key m) k ≠ 0)%Z as Hmk by ord (Key r) (Key m) k.
    symmetry. apply run_none. constructor; [done|].
    eapply Forall_impl; [exact Hg|]. simpl. intros m' Hm'. ord (Key m') (Key m) k.
Qed.

(** The leading key group of a sorted sequence. *)
Lemma leading_group m rest : kwsorted compare Key (m :: rest) →
  ∃ grp rest', rest = grp ++ rest' ∧ at_key compare Key (Key m) grp
               ∧ above compare Key (Key m) rest' ∧ kwsorted compare Key rest'.
Proof.
  intros [Hm Hs]%kwsorted_cons.
  destruct (key_split Key (Key m) rest Hs) as (l1 & l2 & l3 & -> & H1 & H2 & H3).
  assert (l1 = []) as ->.
  { destruct l1 as [|m' l1]; [done|]. apply Forall_cons in Hm as [Hm _].
    apply Forall_cons in H1 as [H1 _]. exfalso. simpl in *. ord (Key m) (Key m'). }
  exists l2, l3. split_and!; try done. by apply (kwsorted_app Key [] (l2 ++ l3)), proj2, proj2, kwsorted_app in Hs as (_ & _ & ?).
Qed.

Lemma resolved_cons m grp rest r0 r :
  at_key compare Key (Key m) grp → above compare Key (Key m) rest →
  wf_msg r0 → (∃ m', m' ∈ m :: grp ∧ Key r0 = Key m') →
  (∀ o, apply_msg o r0 = foldl apply_msg o (m :: grp)) →
  (Kind r0 = MsgDelete → ∃ m', m' ∈ m :: grp ∧ Kind m' = MsgDelete) →
  resolved rest r → resolved ((m :: grp) ++ rest) (r0 :: r).
Proof.
  intros Hg Ha Hw (mk & Hmk & Hk) Hf Hd Hr.
  assert (keq compare (Key r0) (Key m)) as Hkm.
  { rewrite Hk. unfold at_key in Hg. rewrite Forall_forall in Hg.
    apply elem_of_cons in Hmk as [->|Hmk]; [apply compare_refl|by apply Hg]. }
  split.
  - apply ksorted_cons. split; [|apply Hr]. apply Forall_forall. intros m' Hm'.
    destruct (res_keys _ _ Hr m' Hm') as (m'' & Hin & ->).
    unfold above in Ha. rewrite Forall_forall in Ha. specialize (Ha _ Hin). simpl in Ha.
    ord (Key r0) (Key m) (Key m'').
  - constructor; [done|apply Hr].
  - intros k o. rewrite <-(run_group k m grp rest o r0) by done.
    rewrite !run_cons. apply (res_run _ _ Hr).
  - intros m' [->|Hm']%elem_of_cons; [by exists mk; split; [mem|]|].
    destruct (res_keys _ _ Hr m' Hm') as (m'' & ? & ?). exists m''; split; [mem|done].
  - intros m' [->|Hm']%elem_of_cons Hdel.
    + destruct (Hd Hdel) as (m' & ? & ?). exists m'; split; [mem|done].
    + destruct (res_deletes _ _ Hr m' Hm' Hdel) as (m'' & ? & ?).
      exists m''; split; [mem|done].
  - done.
Qed.

(** The in-place loop: [done_] is written, [junk] is consumed, [rest] is unread,
    so no write reaches an unread slot. *)
Lemma dedup_loop_spec fuel done_ junk rest :
  kwsorted compare Key rest → Forall wf_msg rest → length rest ≤ fuel →
  ∃ r, dedup_loop compare fuel (done_ ++ junk ++ rest) (length done_) (length (done_ ++ junk))
       = Some (done_ ++ r) ∧ resolved rest r.
Proof.
  revert done_ junk rest. induction fuel as [|fuel IH]; intros done_ junk rest Hs Hw Hf;
    cbn [dedup_loop].
  all: destruct rest as [|m rest];
    [rewrite decide_False by (rewrite !length_app; simpl; lia)|].
  1, 3: exists []; rewrite (slice_app [] done_ (junk ++ [])) by done;
    rewrite app_nil_r; (split; [done|]); split; try done; try constructor;
    intros m []%not_elem_of_nil.
  { simpl in Hf; lia. }
  rewrite decide_True by (rewrite !length_app; simpl; lia).
  destruct (leading_group m rest Hs) as (grp & rest' & -> & Hg & Ha & Hs').
  apply (Forall_app _ (m :: grp)) in Hw as [Hwg Hw].
  rewrite app_assoc, lookup_middle by done. cbn [mbind option_bind].
  replace (m :: grp ++ rest') with ((m :: grp) ++ rest') by done.
  rewrite (group_end_spec (done_ ++ junk) m grp rest') by done. cbn [mbind option_bind].
  match goal with |- context[if decide (?j = ?i) then Some m else ?e] =>
    assert ((if decide (j = i) then Some m else e) = resolveKeyGroup (m :: grp)) as -> end.
  { case_decide as E; [destruct grp; [done|simpl in E; lia]|].
    by rewrite (slice_app (done_ ++ junk) (m :: grp) rest') by (simpl; lia). }
  destruct (resolveKeyGroup_spec (Key m) m grp) as (r0 & -> & Hr0 & Hk0 & Ha0 & Hd0);
    [done|constructor; [apply compare_refl|done]|].
  cbn [mbind option_bind].
  destruct (junk ++ m :: grp) as [|x junk'] eqn:Ej; [by destruct junk|].
  assert ((done_ ++ junk) ++ (m :: grp) ++ rest' = done_ ++ x :: junk' ++ rest') as ->.
  { rewrite <-app_assoc, (app_assoc junk), Ej. done. }
  rewrite update_middle by done. cbn [mbind option_bind].
  assert (length junk' = length junk + length grp) as Hlen.
  { apply (f_equal length) in Ej. rewrite length_app in Ej. simpl in Ej. lia. }
  destruct (IH (done_ ++ [r0]) junk' rest') as (r & Er & Hr); [done|done|..].
  { simpl in Hf. rewrite length_app in Hf. lia. }
  exists (r0 :: r). split.
  - rewrite <-app_assoc in Er. cbn [app] in Er.
    replace (length (done_ ++ [r0])) with (length done_ + 1) in Er by (by rewrite length_app).
    replace (length ((done_ ++ [r0]) ++ junk')) with (length (done_ ++ junk) + S (length grp)) in Er
      by (rewrite !length_app; simpl; lia).
    rewrite Er. by rewrite <-app_assoc.
  - by apply resolved_cons.
Qed.

Lemma strictly_ascending_sorted msgs :
  strictly_ascending compare msgs = true → ksorted compare Key msgs.
Proof.
  intros H. apply Sorted_StronglySorted.
  { intros a b c Hab Hbc. ord (Key a) (Key b) (Key c). }
  induction msgs as [|m1 [|m2 msgs] IH]; [constructor|repeat constructor|].
  cbn [strictly_ascending] in H. case_decide; [done|].
  constructor; [by apply IH|]. constructor. lia.
Qed.

#[export] Instance message_Comparator :
  Comparator (λ a b : Message K V, compare (Key a) (Key b)).
Proof.
  split; intros.
  - apply compare_refl.
  - apply compare_flip.
  - by eapply compare_trans.
Qed.

(** [resolveMessages]: stable sort and fold keep the effect at every key. *)
Lemma resolveMessages_spec msgs : Forall wf_msg msgs →
  ∃ r, resolveMessages compare msgs = Some r ∧ resolved msgs r.
Proof.
  intros Hw. unfold resolveMessages. cbv zeta.
  set (s := if strictly_ascending compare msgs then msgs
            else SortStableFunc msgs (λ a b, compare (Key a) (Key b))).
  assert (s ≡ₚ msgs) as Hp.
  { unfold s. destruct (strictly_ascending compare msgs); [done|].
    apply SortStableFunc_Permutation. }
  assert (kwsorted compare Key s) as Hs.
  { unfold s. destruct (strictly_ascending compare msgs) eqn:E.
    - by apply ksorted_kwsorted, strictly_ascending_sorted.
    - apply (SortStableFunc_sorted (cmp := λ a b : Message K V, compare (Key a) (Key b))). }
  assert (∀ k, for_key compare k s = for_key compare k msgs) as Hst.
  { intros k. unfold s. destruct (strictly_ascending compare msgs); [done|].
    unfold for_key. rewrite SortStableFunc_filter. apply SortStableFunc_id.
    assert (Forall (λ m, compare (Key m) k = 0%Z)
              (filter (λ m, compare (Key m) k = 0%Z) msgs)) as HF.
    { apply Forall_forall. intros m Hm. by apply list_elem_of_filter in Hm as [? _]. }
    induction HF as [|x l Hx HF IH]; constructor; [done|].
    eapply Forall_impl; [exact HF|]. unfold id; simpl. intros y Hy. ord (Key x) (Key y) k. }
  destruct (dedup_loop_spec (length s) [] [] s) as (r & Er & Hr);
    [done|by rewrite Hp|done|].
  exists r. split; [exact Er|]. destruct Hr as [R1 R2 R3 R4 R5 R6]. split; try done.
  - intros k o. rewrite R3. unfold run. by rewrite Hst.
  - intros m Hm. destruct (R4 m Hm) as (m' & ? & ?). exists m'. by rewrite <-Hp.
  - intros m Hm Hd. destruct (R5 m Hm Hd) as (m' & ? & ?). exists m'. by rewrite <-Hp.
  - intros Hne. apply R6. intros ->. apply Permutation_nil in Hp. done.
Qed.

End resolve.

(** ** mergeLeafPuts *)

(** The pair a put stores. *)
Definition kv {K V} (m : Message K V) : K * V := (Key m, Value m).
(** An array with [O] in place, a gap [g] and the merged tail [M]. *)
Definition cells {A} (O : list A) (g : list (option A)) (M : list A) : list (option A) :=
  (Some <$> O) ++ g ++ (Some <$> M).

Section arrays.
Context {A : Type}.
Implicit Types (O M l : list A) (g : list (option A)).

Lemma all_set_fmap l : all_set (Some <$> l) = Some l.
Proof. apply mapM_Some. induction l; constructor; done. Qed.

Lemma length_cells O g M : length (cells O g M) = length O + length g + length M.
Proof. unfold cells. rewrite !length_app, !length_fmap. lia. Qed.

Lemma grow_cells l n : grow l n = cells l (replicate n None) [].
Proof. unfold grow, cells. by rewrite app_nil_r. Qed.

Lemma slice_cells O g M : slice (cells O g M) 0 (length O) = Some (Some <$> O).
Proof. apply (slice_app []); [done|]. by rewrite length_fmap. Qed.

(** Shifting the chunk [l3] to the end of the gap keeps the gap's length. *)
Lemma shift_cells l1 l2 l3 g M lo hi W :
  lo = length l1 + length l2 → hi = lo + length l3 → W = hi + length g →
  ∃ g', slice (cells (l1 ++ l2 ++ l3) g M) lo hi = Some (Some <$> l3)
        ∧ copy_range (cells (l1 ++ l2 ++ l3) g M) (W - length l3) W (Some <$> l3)
          = Some (cells (l1 ++ l2) g' (l3 ++ M))
        ∧ length g' = length g.
Proof.
  intros -> -> ->. unfold cells. set (x := (Some <$> l3) ++ g).
  exists (take (length g) x). split_and!.
  - rewrite !fmap_app, <-!app_assoc, (app_assoc (Some <$> l1)).
    apply slice_app; rewrite !length_app, !length_fmap; lia.
  - rewrite !fmap_app, <-!app_assoc, (app_assoc (Some <$> l3) g). fold x.
    rewrite <-(take_drop (length g) x) at 1. rewrite <-!app_assoc.
    rewrite (app_assoc (Some <$> l1)), (app_assoc (_ ++ _) (take _ _)).
    rewrite copy_range_app; [by rewrite <-!app_assoc|..];
      unfold x; rewrite ?length_app, ?length_take, ?length_drop, !length_app, ?length_fmap; lia.
  - unfold x. rewrite length_take, length_app, length_fmap. lia.
Qed.

(** Writing [a] in the last slot of the gap. *)
Lemma write_cells l1 l2 l3 g M a W :
  0 < length g → W = length l1 + length l2 + length g →
  ∃ g', update (W - 1) (Some a) (cells (l1 ++ l2) g (l3 ++ M)) = Some (cells l1 g' (a :: l3 ++ M))
        ∧ length g' = length l2 + length g - 1.
Proof.
  intros Hg ->. destruct (exists_last (l := g)) as (g0 & x & ->); [by destruct g; [simpl in Hg; lia|]|].
  exists ((Some <$> l2) ++ g0). split.
  - unfold cells. rewrite length_app. simpl. rewrite <-!app_assoc. simpl.
    rewrite (app_assoc _ g0). rewrite update_middle.
    + by rewrite !fmap_app, <-!app_assoc.
    + rewrite length_app, !length_fmap, length_app. lia.
  - rewrite !length_app, length_fmap. simpl. lia.
Qed.

(** Closing the gap. *)
Lemma close_gap_cells O g M W R total finalLen :
  W = length O + length g → R = length O → total = W + length M → finalLen = R + length M →
  close_gap (cells O g M) W R total finalLen = Some (Some <$> (O ++ M)).
Proof.
  intros -> -> -> ->. unfold close_gap.
  assert (slice (cells O g M) (length O + length g) (length O + length g + length M)
          = Some (Some <$> M)) as ->.
  { unfold cells. rewrite app_assoc, <-(app_nil_r (Some <$> M)) at 1.
    apply slice_app; rewrite length_app, !length_fmap; lia. }
  cbn [mbind option_bind]. unfold copy_range.
  rewrite decide_True by (rewrite length_cells; lia). cbn [mbind option_bind].
  rewrite (take_ge (Some <$> M)) by (rewrite length_cells, length_fmap; lia).
  assert (take (length O) (cells O g M) = Some <$> O) as ->.
  { unfold cells. by rewrite take_app_length' by (by rewrite length_fmap). }
  rewrite fmap_app, app_assoc. apply (slice_app [] (_ ++ _)); [done|].
  rewrite length_app, !length_fmap. simpl. lia.
Qed.

End arrays.

Section merge.
Context {K V : Type} {compare : K → K → Z} {HC : Comparator compare}.
Implicit Types (msgs : list (Message K V)) (l O M : list (K * V)) (P : K → Prop).

Lemma run_sorted_cons k m msgs o : ksorted compare Key (m :: msgs) →
  run compare k (m :: msgs) o
  = if decide (compare (Key m) k = 0%Z) then apply_msg o m else run compare k msgs o.
Proof.
  intros [Hm _]%ksorted_cons. rewrite run_cons. case_decide as Hk; [|done].
  apply run_none. eapply Forall_impl; [exact Hm|]. simpl. intros m' Hm'.
  ord (Key m) (Key m') k.
Qed.

(** Sorted puts override the keys they hold. *)
Lemma run_puts k msgs o :
  ksorted compare Key msgs → Forall (λ m, Kind m = MsgPut) msgs →
  run compare k msgs o
  = match alookup compare k (kv <$> msgs) with Some v => Some v | None => o end.
Proof.
  intros Hs Hp. induction Hp as [|m msgs Hm Hp IH]; [done|].
  rewrite run_sorted_cons by done. simpl. case_decide; [by unfold apply_msg; rewrite Hm|].
  apply IH. by apply ksorted_cons in Hs as [_ Hs].
Qed.

(** One iteration: message [m], below everything merged so far, lands in the
    unprocessed prefix. *)
Lemma merge_put_step P m O M :
  ksorted compare fst (O ++ M) → above compare fst (Key m) M →
  Forall (λ p, P p.1) (O ++ M) → P (Key m) →
  ∃ l1 l2 l3, O = l1 ++ l2 ++ l3 ∧ below compare fst (Key m) l1
    ∧ at_key compare fst (Key m) l2 ∧ above compare fst (Key m) l3
    ∧ (l2 = [] ∨ ∃ a, l2 = [a])
    ∧ ksorted compare fst (l1 ++ kv m :: l3 ++ M)
    ∧ Forall (λ p, P p.1) (l1 ++ kv m :: l3 ++ M)
    ∧ (∀ x, alookup compare x (l1 ++ kv m :: l3 ++ M)
            = if decide (compare (Key m) x = 0%Z) then Some (Value m)
              else alookup compare x (O ++ M)).
Proof.
  intros Hs HM HP Hm.
  assert (ksorted compare fst O) as HsO by (by apply ksorted_app in Hs as (_ & ? & _)).
  destruct (key_split_strict fst (Key m) O HsO) as (l1 & l2 & l3 & -> & H1 & H2 & H3 & Hu).
  exists l1, l2, l3. rewrite <-!app_assoc in *.
  assert (above compare fst (Key m) (l3 ++ M)) as Ha by (by apply Forall_app).
  split_and!; try done.
  - eapply (ksorted_put (Key m)); [exact Hs|apply compare_refl|done|done].
  - rewrite !Forall_app, Forall_cons, Forall_app in *. unfold kv. simpl. tauto.
  - intros x. unfold kv. apply alookup_put; [apply compare_refl|done..].
Qed.

Lemma above_step msgs p m l3 M :
  ksorted compare Key msgs → msgs !! p = Some m → above compare fst (Key m) l3 →
  Forall (λ m', above compare fst (Key m') M) (take p msgs) →
  Forall (λ m', above compare fst (Key m') (kv m :: l3 ++ M)) (take p msgs).
Proof.
  intros Hms Hm H3 HMs. apply Forall_forall. intros m' Hm'.
  pose proof (proj1 (Forall_forall _ _) HMs m' Hm') as HMm'. simpl in HMm'.
  assert (compare (Key m') (Key m) < 0)%Z as Hlt.
  { rewrite <-(take_drop_middle _ _ _ Hm) in Hms.
    apply ksorted_app in Hms as (Hms & _ & _). apply Hms; [done|left]. }
  constructor; [simpl; ord (Key m) (Key m')|]. apply Forall_app. split; [|done].
  eapply above_trans; [|exact H3]. lia.
Qed.

(** Moving the chunk above the message to the end of the gap, when there is one. *)
Lemma shift_step l1 l2 l3 M gk gv W :
  W = length (l1 ++ l2 ++ l3) + length gk → length gv = length gk →
  let ks := cells (l1.*1 ++ l2.*1 ++ l3.*1) gk M.*1 in
  let vs := cells (l1.*2 ++ l2.*2 ++ l3.*2) gv M.*2 in
  let lo := length l1 + length l2 in
  let hi := length (l1 ++ l2 ++ l3) in
  ∃ gk' gv',
    (if decide (0 < length l3) then
       w ← index_sub W (length l3);
       srck ← slice ks lo hi;
       ks ← copy_range ks w W srck;
       srcv ← slice vs lo hi;
       vs ← copy_range vs w W srcv;
       Some (ks, vs, w)
     else Some (ks, vs, W))
    = Some (cells (l1.*1 ++ l2.*1) gk' (l3.*1 ++ M.*1), cells (l1.*2 ++ l2.*2) gv' (l3.*2 ++ M.*2),
            length l1 + length l2 + length gk)
    ∧ length gk' = length gk ∧ length gv' = length gk.
Proof.
  intros HW Hg. rewrite !length_app in HW. cbv zeta.
  destruct (shift_cells l1.*1 l2.*1 l3.*1 gk M.*1 (length l1 + length l2)
              (length (l1 ++ l2 ++ l3)) W)
    as (gk1 & Ek1 & Ek2 & Ek3); [rewrite !length_fmap; lia|
      rewrite !length_app, !length_fmap; lia|rewrite !length_app; lia|].
  destruct (shift_cells l1.*2 l2.*2 l3.*2 gv M.*2 (length l1 + length l2)
              (length (l1 ++ l2 ++ l3)) W)
    as (gv1 & Ev1 & Ev2 & Ev3); [rewrite !length_fmap; lia|
      rewrite !length_app, !length_fmap; lia|rewrite !length_app; lia|].
  rewrite length_fmap in Ek2. rewrite length_fmap in Ev2. case_decide as Hl3.
  - exists gk1, gv1. split; [|lia].
    assert (index_sub W (length l3) = Some (W - length l3)) as ->.
    { unfold index_sub. rewrite decide_True; [done|lia]. }
    cbn [mbind option_bind]. rewrite Ek1. cbn [mbind option_bind]. rewrite Ek2.
    cbn [mbind option_bind]. rewrite Ev1. cbn [mbind option_bind]. rewrite Ev2.
    cbn [mbind option_bind]. do 2 f_equal. lia.
  - destruct l3; [|simpl in Hl3; lia]. exists gk, gv. split; [|lia].
    simpl in *. rewrite !app_nil_r. do 2 f_equal. lia.
Qed.

(** The array work of one iteration of the loop. *)
Lemma merge_body k v l1 l2 l3 M gk gv p ow :
  below compare fst k l1 → at_key compare fst k l2 → above compare fst k l3 →
  (l2 = [] ∨ ∃ a, l2 = [a]) → length gk = S p + ow → length gv = S p + ow →
  let ks := cells (l1 ++ l2 ++ l3).*1 gk M.*1 in
  let vs := cells (l1 ++ l2 ++ l3).*2 gv M.*2 in
  let R := length (l1 ++ l2 ++ l3) in
  let W := R + length gk in
  ∃ gk' gv',
    (∀ B (cont : list (option K) → list (option V) → nat → nat → nat → option B),
      (old ← slice ks 0 R;
       old ← all_set old;
       '(pos, found) ← BinarySearchFunc old k compare;
       let chunkStart := if found : bool then pos + 1 else pos in
       let overwrites := if found : bool then ow + 1 else ow in
       chunk ← index_sub R chunkStart;
       '(ks, vs, W) ←
         (if decide (0 < chunk) then
            lo ← index_sub W chunk;
            srck ← slice ks chunkStart R;
            ks ← copy_range ks lo W srck;
            srcv ← slice vs chunkStart R;
            vs ← copy_range vs lo W srcv;
            Some (ks, vs, lo)
          else Some (ks, vs, W));
       w ← index_sub W 1;
       ks ← update w (Some k) ks;
       vs ← update w (Some v) vs;
       cont ks vs w pos overwrites)
      = cont (cells l1.*1 gk' ((k, v) :: l3 ++ M).*1) (cells l1.*2 gv' ((k, v) :: l3 ++ M).*2)
          (length l1 + length gk') (length l1) (ow + length l2))
    ∧ length gk' = p + (ow + length l2) ∧ length gv' = p + (ow + length l2).
Proof.
  intros H1 H2 H3 Hu Hgk Hgv ks vs R W.
  destruct (shift_step l1 l2 l3 M gk gv W) as (gk1 & gv1 & Es & Egk & Egv); [done|lia|].
  destruct (write_cells l1.*1 l2.*1 l3.*1 gk1 M.*1 k (length l1 + length l2 + length gk))
    as (gk2 & Ek4 & Ek5); [lia|rewrite !length_fmap; lia|].
  destruct (write_cells l1.*2 l2.*2 l3.*2 gv1 M.*2 v (length l1 + length l2 + length gk))
    as (gv2 & Ev4 & Ev5); [lia|rewrite !length_fmap; lia|].
  rewrite length_fmap in Ek5. rewrite length_fmap in Ev5.
  exists gk2, gv2. split; [|lia]. intros B cont.
  assert (slice ks 0 R = Some (Some <$> (l1 ++ l2 ++ l3).*1)) as ->.
  { unfold ks, R. rewrite <-(length_fmap fst (l1 ++ l2 ++ l3)). apply slice_cells. }
  cbn [mbind option_bind]. rewrite all_set_fmap. cbn [mbind option_bind].
  assert (BinarySearchFunc (l1 ++ l2 ++ l3).*1 k compare
          = Some (length l1, bool_decide (l2 ≠ []))) as ->.
  { rewrite !fmap_app. rewrite <-(length_fmap fst l1).
    replace (bool_decide (l2 ≠ [])) with (bool_decide (l2.*1 ≠ []))
      by (apply bool_decide_ext; by destruct l2).
    apply (BinarySearchFunc_spec id k); by apply Forall_fmap. }
  cbn [mbind option_bind]. cbv zeta.
  replace (if bool_decide (l2 ≠ []) then length l1 + 1 else length l1)
    with (length l1 + length l2) by (destruct Hu as [->|[a ->]]; simpl; lia).
  replace (if bool_decide (l2 ≠ []) then ow + 1 else ow)
    with (ow + length l2) by (destruct Hu as [->|[a ->]]; simpl; lia).
  assert (index_sub R (length l1 + length l2) = Some (length l3)) as ->.
  { unfold index_sub, R. rewrite !length_app, decide_True by lia. f_equal. lia. }
  cbn [mbind option_bind]. unfold ks, vs. rewrite !fmap_app. fold R in Es. rewrite Es.
  cbn [mbind option_bind].
  assert (index_sub (length l1 + length l2 + length gk) 1
          = Some (length l1 + length l2 + length gk - 1)) as ->.
  { unfold index_sub. rewrite decide_True; [done|lia]. }
  cbn [mbind option_bind]. rewrite Ek4. cbn [mbind option_bind]. rewrite Ev4.
  cbn [mbind option_bind]. simpl. rewrite !fmap_app. f_equal. lia.
Qed.

Lemma merge_puts_loop_spec P msgs p O M gk gv ow :
  ksorted compare Key msgs → p ≤ length msgs →
  length gk = p + ow → length gv = p + ow →
  ksorted compare fst (O ++ M) → Forall (λ p, P p.1) (O ++ M) →
  Forall (λ m, above compare fst (Key m) M) (take p msgs) →
  Forall (λ m, P (Key m)) (take p msgs) →
  ∃ O' M' gk' gv',
    merge_puts_loop compare msgs p (cells O.*1 gk M.*1) (cells O.*2 gv M.*2)
      (length O + length gk) (length O) ow
    = Some (cells O'.*1 gk' M'.*1, cells O'.*2 gv' M'.*2,
            length O' + length gk', length O', length gk')
    ∧ length gv' = length gk'
    ∧ length O' + length gk' + length M' = length O + length gk + length M
    ∧ ksorted compare fst (O' ++ M') ∧ Forall (λ p, P p.1) (O' ++ M')
    ∧ ∀ x, alookup compare x (O' ++ M')
           = match alookup compare x (kv <$> take p msgs) with
             | Some v => Some v | None => alookup compare x (O ++ M) end.
Proof.
  intros Hms. revert O M gk gv ow.
  induction p as [|p IH]; intros O M gk gv ow Hp Hgk Hgv Hs HP HM HPm; cbn [merge_puts_loop].
  { exists O, M, gk, gv. replace ow with (length gk) by done. split_and!; done || lia. }
  destruct (lookup_lt_is_Some_2 msgs p) as [m Hm]; [lia|].
  rewrite (take_S_r _ _ _ Hm) in HM, HPm |- *.
  apply Forall_app in HM as [HMs HM]. apply Forall_cons in HM as [HM _].
  apply Forall_app in HPm as [HPs HPm]. apply Forall_cons in HPm as [HPm _].
  destruct (merge_put_step P m O M) as (l1 & l2 & l3 & -> & H1 & H2 & H3 & Hu & Hs' & HP' & Hl);
    [done..|].
  assert (Forall (λ m', above compare fst (Key m') (kv m :: l3 ++ M)) (take p msgs)) as HM'
    by (by eapply above_step).
  destruct (merge_body (Key m) (Value m) l1 l2 l3 M gk gv p ow) as (gk' & gv' & E & Hk' & Hv');
    [done..|lia|lia|].
  destruct (IH l1 (kv m :: l3 ++ M) gk' gv' (ow + length l2))
    as (O' & M' & gk'' & gv'' & EI & Hg & Htot & HsI & HPI & HlI); [lia..|done|done|done|done|].
  exists O', M', gk'', gv''. split; [by rewrite <-EI, Hm, <-E|].
  split_and!; try done.
  - rewrite Htot. rewrite !length_app. simpl. rewrite length_app. lia.
  - intros x. rewrite HlI, fmap_app, (alookup_app x (kv <$> take p msgs)), Hl. simpl.
    destruct (alookup compare x (kv <$> take p msgs)); [done|]. by case_decide.
Qed.

(** The put-only merge is the sequence of puts, whatever the batch. *)
Lemma mergeLeafPuts_spec P l msgs :
  ksorted compare fst l → Forall (λ p, P p.1) l →
  ksorted compare Key msgs → Forall (λ m, Kind m = MsgPut) msgs → Forall (λ m, P (Key m)) msgs →
  ∃ l', mergeLeafPuts compare (Leaf l.*1 l.*2) msgs = Some (Leaf l'.*1 l'.*2)
        ∧ ksorted compare fst l' ∧ Forall (λ p, P p.1) l'
        ∧ ∀ x, alookup compare x l' = run compare x msgs (alookup compare x l).
Proof.
  intros Hs HP Hms Hput HPm. unfold mergeLeafPuts. cbv zeta. cbn [keys values].
  destruct (merge_puts_loop_spec P msgs (length msgs) l [] (replicate (length msgs) None)
              (replicate (length msgs) None) 0)
    as (O & M & gk & gv & E & Hg & Htot & HsO & HPO & Hl);
    [done|lia|by rewrite length_replicate|by rewrite length_replicate|by rewrite app_nil_r..| |
     by rewrite firstn_all|].
  { apply Forall_forall. intros; constructor. }
  rewrite !grow_cells, !length_fmap. rewrite length_replicate in E. simpl in E.
  rewrite E. cbn [mbind option_bind].
  assert (∀ x, alookup compare x (O ++ M) = run compare x msgs (alookup compare x l)) as Hl'.
  { intros x. rewrite Hl, firstn_all, app_nil_r. symmetry. by apply run_puts. }
  exists (O ++ M). split; [|done]. rewrite length_replicate in Htot. simpl in Htot.
  match goal with |- context[if decide (0 < length gk) then ?e1 else ?e2] =>
    assert ((if decide (0 < length gk) then e1 else e2)
            = Some (Some <$> (O ++ M).*1, Some <$> (O ++ M).*2)) as -> end.
  { case_decide as Hgk.
    - assert (index_sub (length l + length msgs) (length gk)
              = Some (length O + length M)) as ->.
      { unfold index_sub. rewrite decide_True by lia. f_equal. lia. }
      cbn [mbind option_bind].
      rewrite !close_gap_cells by (rewrite ?length_fmap; lia). cbn [mbind option_bind].
      by rewrite !fmap_app.
    - destruct gk; [|simpl in Hgk; lia]. destruct gv; [|done].
      unfold cells. simpl. by rewrite !fmap_app. }
  cbn [mbind option_bind]. by rewrite !all_set_fmap.
Qed.

End merge.

(** ** mergeLeafWithDeletes *)

Section compact.
Context {K V : Type} {compare : K → K → Z} {HC : Comparator compare}.
Implicit Types (m : Message K V) (msgs MR N JM : list (Message K V)).
Implicit Types (l R D : list (K * V)) (o : option V).

(** A write at the end of the written part falls on a consumed slot. *)
Lemma overwrite {A} (D J S : list A) a b :
  ∃ J', update (length D) b (D ++ J ++ a :: S) = Some ((D ++ [b]) ++ J' ++ S)
        ∧ length J' = length J.
Proof.
  destruct (J ++ [a]) as [|x J'] eqn:E; [by destruct J|].
  exists J'. assert (J ++ a :: S = x :: J' ++ S) as ->.
  { change (a :: S) with ([a] ++ S). by rewrite app_assoc, E. }
  rewrite update_middle, <-app_assoc by done. split; [done|].
  apply (f_equal length) in E. rewrite length_app in E. simpl in E. lia.
Qed.

(** [R] and [MR] are the unread parts of the leaf and of the batch; compaction
    turns them into the kept pairs [kept] and the new puts [news]. *)
Record compacted R MR (kept : list (K * V)) (news : list (Message K V)) : Prop := {
  cp_kept : ksorted compare fst kept;
  cp_news : ksorted compare Key news;
  cp_puts : Forall (λ m, Kind m = MsgPut) news;
  cp_keys (P : K → Prop) : Forall (λ p, P p.1) R → Forall (λ m, P (Key m)) MR →
    Forall (λ p, P p.1) kept ∧ Forall (λ m, P (Key m)) news;
  cp_run x : run compare x news (alookup compare x kept) = run compare x MR (alookup compare x R)
}.

Lemma run_above x k MR o :
  compare k x = 0%Z → above compare Key k MR → run compare x MR o = o.
Proof.
  intros Hk Ha. apply run_none. eapply Forall_impl; [exact Ha|]. simpl.
  intros m' Hm'. ord (Key m') k x.
Qed.

Lemma alookup_above_key x k l :
  compare k x = 0%Z → above compare fst k l → alookup compare x l = None.
Proof.
  intros Hk Ha. apply alookup_None. eapply Forall_impl; [exact Ha|]. simpl.
  intros p Hp. ord (fst p) k x.
Qed.

Lemma above_of_sorted {A} (f : A → K) a (s : list A) :
  ksorted compare f (a :: s) → above compare f (f a) s ∧ ksorted compare f s.
Proof.
  intros [H ?]%ksorted_cons. split; [|done]. eapply Forall_impl; [exact H|]. simpl.
  intros b Hb. ord (f a) (f b).
Qed.

(** The next kept pair [(k, v)] is below everything unread. *)
Lemma compacted_keep k v R MR R' MR' kept news :
  above compare fst k R' → above compare Key k MR' →
  (∀ P : K → Prop, Forall (λ p, P p.1) R → Forall (λ m, P (Key m)) MR →
     P k ∧ Forall (λ p, P p.1) R' ∧ Forall (λ m, P (Key m)) MR') →
  (∀ x, run compare x MR (alookup compare x R)
        = if decide (compare k x = 0%Z) then Some v
          else run compare x MR' (alookup compare x R')) →
  compacted R' MR' kept news → compacted R MR ((k, v) :: kept) news.
Proof.
  intros HR HM HP Hx [C1 C2 C3 C4 C5].
  destruct (C4 (λ k', 0 < compare k' k)%Z) as [Ck Cn]; [done|done|].
  split; try done.
  - apply ksorted_cons. split; [|done]. eapply Forall_impl; [exact Ck|]. simpl.
    intros p Hp. ord k (fst p).
  - intros P HPR HPM. destruct (HP P HPR HPM) as (? & ? & ?).
    destruct (C4 P) as [? ?]; [done|done|]. split; [by constructor|done].
  - intros x. rewrite Hx. simpl. case_decide as Hkx; [|apply C5]. by eapply run_above.
Qed.

(** The next message only concerns its own key, absent from the leaf. *)
Lemma compacted_new m R MR kept news :
  ksorted compare Key (m :: MR) → above compare fst (Key m) R →
  Kind m = MsgPut ∨ Kind m = MsgDelete →
  compacted R MR kept news →
  compacted R (m :: MR) kept (if decide (Kind m = MsgPut) then m :: news else news).
Proof.
  intros Hs HR Hkind [C1 C2 C3 C4 C5]. destruct (above_of_sorted Key m MR Hs) as [HM _].
  destruct (C4 (λ k', 0 < compare k' (Key m))%Z) as [Ck Cn]; [done|done|].
  assert (ksorted compare Key (m :: news)) as Hsn.
  { apply ksorted_cons. split; [|done]. eapply Forall_impl; [exact Cn|]. simpl.
    intros m' Hm'. ord (Key m) (Key m'). }
  split; [done|by case_decide|case_decide; by try constructor|..].
  - intros P HPR [HPm HPM]%Forall_cons. destruct (C4 P) as [? ?]; [done|done|].
    split; [done|]. case_decide; by try constructor.
  - intros x. rewrite (run_sorted_cons x m MR) by done. case_decide as Hput.
    + rewrite (run_sorted_cons x m news) by done. case_decide; [|done].
      unfold apply_msg. by rewrite Hput.
    + rewrite C5. destruct Hkind as [?|Hd]; [done|]. case_decide as Hkx; [|done].
      rewrite (run_above x (Key m)), (alookup_above_key x (Key m)) by done.
      unfold apply_msg. by rewrite Hd.
Qed.

(** A delete of the next leaf key drops both. *)
Lemma compacted_drop m k v R MR kept news :
  ksorted compare Key (m :: MR) → ksorted compare fst ((k, v) :: R) →
  keq compare k (Key m) → Kind m = MsgDelete →
  compacted R MR kept news → compacted ((k, v) :: R) (m :: MR) kept news.
Proof.
  intros Hs HsR Hk Hd [C1 C2 C3 C4 C5].
  destruct (above_of_sorted Key m MR Hs) as [HM _].
  destruct (above_of_sorted fst (k, v) R HsR) as [HR _]. simpl in HR.
  split; try done.
  - intros P [_ ?]%Forall_cons [_ ?]%Forall_cons. by apply C4.
  - intros x. rewrite (run_sorted_cons x m MR) by done. rewrite C5. simpl.
    case_decide as Hmx.
    + rewrite (run_above x (Key m)) by done.
      rewrite (alookup_above_key x k) by (done || ord k (Key m) x).
      unfold apply_msg. by rewrite Hd.
    + rewrite decide_False by ord k (Key m) x. done.
Qed.

(** The arrays: written part, consumed slots, unread part. *)
Definition cstate D (J1 : list K) (J2 : list V) R N JM MR : compaction K V :=
  mkCompaction (D.*1 ++ J1 ++ R.*1) (D.*2 ++ J2 ++ R.*2) (N ++ JM ++ MR)
    (length D + length J1) (length N + length JM) (length D) (length N).

Lemma lookup_unread {A} (D J S : list A) a i :
  i = length D + length J → (D ++ J ++ a :: S) !! i = Some a.
Proof. intros ->. rewrite app_assoc. apply lookup_middle. by rewrite length_app. Qed.

Ltac solve_cstate :=
  unfold cstate; rewrite ?fmap_app, <-?app_assoc; simpl; f_equal; f_equal;
  rewrite ?length_app; simpl; lia.

Lemma keep_key_spec D J1 J2 k v R N JM MR : length J1 = length J2 →
  ∃ J1' J2', keep_key (cstate D J1 J2 ((k, v) :: R) N JM MR)
             = Some (cstate (D ++ [(k, v)]) J1' J2' R N JM MR) ∧ length J1' = length J2'.
Proof.
  intros HJ. unfold keep_key. cbn [c_keys c_values c_msgs c_li c_mi c_w c_numNew cstate].
  cbn [fmap list_fmap fst snd].
  rewrite !lookup_unread by (rewrite length_fmap; lia). cbn [mbind option_bind].
  destruct (overwrite D.*1 J1 R.*1 k k) as (J1' & E1 & L1).
  destruct (overwrite D.*2 J2 R.*2 v v) as (J2' & E2 & L2).
  rewrite length_fmap in E1. rewrite length_fmap in E2.
  rewrite E1. cbn [mbind option_bind]. rewrite E2. cbn [mbind option_bind].
  exists J1', J2'. split; [|lia]. solve_cstate.
Qed.

Lemma collect_new_spec D J1 J2 R N JM m MR :
  ∃ JM', collect_new (cstate D J1 J2 R N JM (m :: MR))
         = Some (cstate D J1 J2 R (if decide (Kind m = MsgPut) then N ++ [m] else N) JM' MR).
Proof.
  unfold collect_new. cbn [c_keys c_values c_msgs c_li c_mi c_w c_numNew cstate].
  rewrite lookup_unread by done. cbn [mbind option_bind]. case_decide.
  - destruct (overwrite N JM MR m m) as (JM' & E & L). rewrite E. cbn [mbind option_bind].
    exists JM'. solve_cstate.
  - exists (JM ++ [m]). solve_cstate.
Qed.

Lemma apply_match_spec D J1 J2 k v R N JM m MR : length J1 = length J2 →
  ∃ J1' J2' JM', apply_match (cstate D J1 J2 ((k, v) :: R) N JM (m :: MR))
    = Some (cstate (if decide (Kind m = MsgPut) then D ++ [kv m] else D) J1' J2' R N JM' MR)
      ∧ length J1' = length J2'.
Proof.
  intros HJ. unfold apply_match. cbn [c_keys c_values c_msgs c_li c_mi c_w c_numNew cstate].
  cbn [fmap list_fmap fst snd]. rewrite lookup_unread by done. cbn [mbind option_bind].
  case_decide.
  - destruct (overwrite D.*1 J1 R.*1 k (Key m)) as (J1' & E1 & L1).
    destruct (overwrite D.*2 J2 R.*2 v (Value m)) as (J2' & E2 & L2).
    rewrite length_fmap in E1. rewrite length_fmap in E2.
    rewrite E1. cbn [mbind option_bind]. rewrite E2. cbn [mbind option_bind].
    exists J1', J2', (JM ++ [m]). split; [|lia]. solve_cstate.
  - exists (J1 ++ [k]), (J2 ++ [v]), (JM ++ [m]). split; [|rewrite !length_app; simpl; lia].
    solve_cstate.
Qed.

Lemma unread_keys D J1 J2 N JM R MR (s := cstate D J1 J2 R N JM MR) :
  c_li s < length (c_keys s) ↔ R ≠ [].
Proof.
  subst s. cbn. rewrite !length_app, !length_fmap.
  destruct R; simpl; [split; [lia|done]|split; [done|lia]].
Qed.

Lemma unread_msgs D J1 J2 N JM R MR (s := cstate D J1 J2 R N JM MR) :
  c_mi s < length (c_msgs s) ↔ MR ≠ [].
Proof.
  subst s. cbn. rewrite !length_app.
  destruct MR; simpl; [split; [lia|done]|split; [done|lia]].
Qed.

(** One step of the walk: it consumes a prefix of a side, and what it writes
    completes any compaction of the rest. *)
Definition advances D N R MR (res : option (compaction K V)) : Prop :=
  ∃ D1 N1 J1' J2' JM' R' MR', res = Some (cstate (D ++ D1) J1' J2' R' (N ++ N1) JM' MR')
    ∧ length J1' = length J2'
    ∧ length R' + length MR' < length R + length MR
    ∧ (∃ pR pM, R = pR ++ R' ∧ MR = pM ++ MR')
    ∧ ∀ kept news, compacted R' MR' kept news → compacted R MR (D1 ++ kept) (N1 ++ news).

(** The next leaf pair is below the messages: it stays. *)
Lemma advances_key D J1 J2 N JM k v R MR :
  ksorted compare fst ((k, v) :: R) → above compare Key k MR → length J1 = length J2 →
  advances D N ((k, v) :: R) MR (keep_key (cstate D J1 J2 ((k, v) :: R) N JM MR)).
Proof.
  intros HR HM HJ. destruct (above_of_sorted fst (k, v) R HR) as [HaR _].
  destruct (keep_key_spec D J1 J2 k v R N JM MR HJ) as (J1' & J2' & E & HJ').
  exists [(k, v)], [], J1', J2', JM, R, MR. rewrite app_nil_r.
  split_and!; [done|done|simpl; lia|by exists [(k, v)], []|]. intros kept news.
  apply compacted_keep; [done|done|by intros P [? ?]%Forall_cons ?|].
  intros x. simpl. case_decide; [|done]. by eapply run_above.
Qed.

(** The next message is below the leaf pairs: it is new. *)
Lemma advances_msg D J1 J2 R N JM m MR :
  ksorted compare Key (m :: MR) → above compare fst (Key m) R →
  Kind m = MsgPut ∨ Kind m = MsgDelete → length J1 = length J2 →
  advances D N R (m :: MR) (collect_new (cstate D J1 J2 R N JM (m :: MR))).
Proof.
  intros HM HR Hk HJ. destruct (collect_new_spec D J1 J2 R N JM m MR) as (JM' & E).
  exists [], (if decide (Kind m = MsgPut) then [m] else []), J1, J2, JM', R, MR.
  rewrite app_nil_r. split_and!; [rewrite E; case_decide; by rewrite ?app_nil_r|done|simpl; lia|
    by exists [], [m]|]. intros kept news Hc.
  replace ((if decide (Kind m = MsgPut) then [m] else []) ++ news)
    with (if decide (Kind m = MsgPut) then m :: news else news) by (by case_decide).
  by apply compacted_new.
Qed.

(** They meet: the message decides. *)
Lemma advances_match D J1 J2 N JM k v R m MR :
  ksorted compare fst ((k, v) :: R) → ksorted compare Key (m :: MR) → keq compare k (Key m) →
  Kind m = MsgPut ∨ Kind m = MsgDelete → length J1 = length J2 →
  advances D N ((k, v) :: R) (m :: MR) (apply_match (cstate D J1 J2 ((k, v) :: R) N JM (m :: MR))).
Proof.
  intros HR HM Hkm Hk HJ. destruct (above_of_sorted fst (k, v) R HR) as [HaR _]. simpl in HaR.
  destruct (above_of_sorted Key m MR HM) as [HaM _].
  destruct (apply_match_spec D J1 J2 k v R N JM m MR HJ) as (J1' & J2' & JM' & E & HJ').
  exists (if decide (Kind m = MsgPut) then [kv m] else []), [], J1', J2', JM', R, MR.
  rewrite app_nil_r. split_and!; [rewrite E; case_decide; by rewrite ?app_nil_r|done|simpl; lia|
    by exists [(k, v)], [m]|]. intros kept news Hc. case_decide as Hput.
  - unfold kv. simpl. revert Hc. apply compacted_keep.
    + eapply above_trans; [|exact HaR]. ord k (Key m).
    + done.
    + intros P [? ?]%Forall_cons [? ?]%Forall_cons. done.
    + intros x. rewrite (run_sorted_cons x m MR) by done. simpl. case_decide as Hmx.
      * unfold apply_msg. by rewrite Hput.
      * rewrite decide_False by ord k (Key m) x. done.
  - destruct Hk; [done|]. by apply compacted_drop.
Qed.

Lemma advances_both D J1 J2 N JM k v R m MR :
  let s := cstate D J1 J2 ((k, v) :: R) N JM (m :: MR) in
  ksorted compare fst ((k, v) :: R) → ksorted compare Key (m :: MR) →
  Kind m = MsgPut ∨ Kind m = MsgDelete → length J1 = length J2 →
  advances D N ((k, v) :: R) (m :: MR)
    (if decide (compare k (Key m) < 0)%Z then keep_key s
     else if decide (0 < compare k (Key m))%Z then collect_new s else apply_match s).
Proof.
  intros s HR HM Hk HJ. destruct (above_of_sorted fst (k, v) R HR) as [HaR _]. simpl in HaR.
  destruct (above_of_sorted Key m MR HM) as [HaM _]. repeat case_decide.
  - apply advances_key; try done. constructor; [ord k (Key m)|]. eapply above_trans; [|exact HaM]. lia.
  - apply advances_msg; try done. constructor; [done|]. eapply above_trans; [|exact HaR]. ord k (Key m).
  - apply advances_match; try done. unfold keq. lia.
Qed.

Lemma compact_loop_spec fuel D J1 J2 N JM R MR :
  ksorted compare fst R → ksorted compare Key MR →
  Forall (λ m, Kind m = MsgPut ∨ Kind m = MsgDelete) MR →
  length J1 = length J2 → length R + length MR < fuel →
  ∃ kept news J1' J2' JM',
    compact_loop compare fuel (cstate D J1 J2 R N JM MR)
    = Some (cstate (D ++ kept) J1' J2' [] (N ++ news) JM' [])
    ∧ compacted R MR kept news.
Proof.
  revert D J1 J2 N JM R MR. induction fuel as [|fuel IH];
    intros D J1 J2 N JM R MR HR HM Hk HJ Hf; [lia|]. cbn [compact_loop].
  pose proof (unread_keys D J1 J2 N JM R MR) as HliR.
  pose proof (unread_msgs D J1 J2 N JM R MR) as HmiM. cbv zeta in HliR, HmiM.
  assert (∀ res, advances D N R MR res → ∃ kept news J1' J2' JM',
    (s ← res; compact_loop compare fuel s) = Some (cstate (D ++ kept) J1' J2' [] (N ++ news) JM' [])
    ∧ compacted R MR kept news) as Hgo.
  { intros res (D1 & N1 & J1' & J2' & JM' & R' & MR' & -> & HJ' & Hlen & (pR & pM & -> & ->) & Hc).
    cbn [mbind option_bind].
    apply ksorted_app in HR as (_ & _ & HR). apply ksorted_app in HM as (_ & _ & HM).
    apply Forall_app in Hk as [_ Hk].
    destruct (IH (D ++ D1) J1' J2' (N ++ N1) JM' R' MR')
      as (kept & news & J1'' & J2'' & JM'' & E' & Hc'); [done..|lia|].
    exists (D1 ++ kept), (N1 ++ news), J1'', J2'', JM''.
    split; [rewrite E'; by rewrite !app_assoc|by apply Hc]. }
  destruct R as [|[k v] R], MR as [|m MR].
  - rewrite !decide_False by intuition congruence. exists [], [], J1, J2, JM. rewrite !app_nil_r.
    split; [done|]. by repeat constructor.
  - rewrite decide_False, decide_False, decide_True by intuition congruence.
    apply Hgo. apply Forall_cons in Hk as [Hkm _]. apply advances_msg; (done || constructor).
  - rewrite decide_False, decide_True by intuition congruence.
    apply Hgo. apply advances_key; (done || constructor).
  - rewrite decide_True by intuition congruence. apply Forall_cons in Hk as [Hkm _].
    replace (c_keys (cstate D J1 J2 ((k, v) :: R) N JM (m :: MR))
               !! c_li (cstate D J1 J2 ((k, v) :: R) N JM (m :: MR))) with (Some k)
      by (symmetry; apply lookup_unread; cbn; by rewrite length_fmap).
    replace (c_msgs (cstate D J1 J2 ((k, v) :: R) N JM (m :: MR))
               !! c_mi (cstate D J1 J2 ((k, v) :: R) N JM (m :: MR))) with (Some m)
      by (symmetry; by apply lookup_unread).
    cbn [mbind option_bind]. cbv zeta. apply Hgo. by apply advances_both.
Qed.

(** The in-place compaction followed by the put merge plays the whole batch. *)
Lemma mergeLeafWithDeletes_spec (P : K → Prop) l msgs :
  ksorted compare fst l → Forall (λ p, P p.1) l →
  ksorted compare Key msgs → Forall (λ m, Kind m = MsgPut ∨ Kind m = MsgDelete) msgs →
  Forall (λ m, P (Key m)) msgs →
  ∃ l', mergeLeafWithDeletes compare (Leaf l.*1 l.*2) msgs = Some (Leaf l'.*1 l'.*2)
        ∧ ksorted compare fst l' ∧ Forall (λ p, P p.1) l'
        ∧ ∀ x, alookup compare x l' = run compare x msgs (alookup compare x l).
Proof.
  intros Hs HP Hms Hk HPm. unfold mergeLeafWithDeletes. cbn [keys values].
  destruct (compact_loop_spec (S (length l.*1 + length msgs)) [] [] [] [] [] l msgs)
    as (kept & news & J1 & J2 & JM & E & [C1 C2 C3 C4 C5]);
    [done..|rewrite length_fmap; lia|].
  destruct (C4 P) as [HPk HPn]; [done|done|].
  change (mkCompaction l.*1 l.*2 msgs 0 0 0 0) with (cstate [] [] [] l [] [] msgs).
  rewrite E. cbn [mbind option_bind c_keys c_values c_msgs c_w c_numNew cstate app].
  rewrite !slice_prefix by (by rewrite ?length_fmap).
  cbn [mbind option_bind]. case_decide as Hn.
  - destruct (mergeLeafPuts_spec P kept news) as (l' & E' & Hs' & HP' & Hl'); [done..|].
    exists l'. split_and!; try done. intros x. by rewrite Hl', C5.
  - destruct news; [|simpl in Hn; lia]. by exists kept.
Qed.

End compact.

(** ** applyToLeaf *)

Section apply.
Context {K V : Type} (t : BETree K V) {HC : Comparator (cmp t)} (P : K → Prop).
Implicit Types (m : Message K V) (msgs : list (Message K V)) (l : list (K * V)).

(** A leaf [l1 ++ l2 ++ l3] cut at the key of a message [m]. *)
Definition cut_at m (l1 l2 l3 : list (K * V)) : Prop :=
  ksorted (cmp t) fst (l1 ++ l2 ++ l3) ∧ Forall (λ p, P p.1) (l1 ++ l2 ++ l3)
  ∧ below (cmp t) fst (Key m) l1 ∧ at_key (cmp t) fst (Key m) l2 ∧ above (cmp t) fst (Key m) l3
  ∧ (l2 = [] ∨ ∃ a, l2 = [a]).

Lemma cut_lookup m l1 l2 l3 :
  cut_at m l1 l2 l3 → alookup (cmp t) (Key m) (l1 ++ l2 ++ l3) = head l2.*2.
Proof.
  intros (Hs & _ & H1 & H2 & H3 & Hu). rewrite alookup_split by done.
  destruct Hu as [->|[[k v] ->]]; [done|]. apply Forall_cons in H2 as [H2 _].
  simpl in *. by rewrite decide_True.
Qed.

(** The entry of the message's key is set: what puts and upserts do. *)
Lemma set_result m l1 l2 l3 v t' :
  cut_at m l1 l2 l3 → P (Key m) → Some v = apply_msg (head l2.*2) m → is_delete m = 0%Z →
  t' = adjust t (1 - len l2 - msg_delta m) 0 →
  let l' := l1 ++ (default (Key m) (head l2.*1), v) :: l3 in
  leaf_result t P (l1 ++ l2 ++ l3) [m] t' (Leaf l'.*1 l'.*2) l'.
Proof.
  intros Hcut HPm Hv Hd -> l'. pose proof (cut_lookup m l1 l2 l3 Hcut) as Hlook.
  destruct Hcut as (Hs & HP & H1 & H2 & H3 & Hu).
  assert (keq (cmp t) (default (Key m) (head l2.*1)) (Key m)) as Hk.
  { destruct Hu as [->|[[k w] ->]]; [apply compare_refl|]. by apply Forall_cons in H2 as [H2 _]. }
  split; [done|by eapply ksorted_put|..].
  - unfold l'. rewrite !Forall_app, Forall_cons in *.
    destruct Hu as [->|[[k w] ->]]; [tauto|]. rewrite Forall_cons in HP. simpl in *. tauto.
  - intros k. rewrite run_cons, run_nil. unfold l'. rewrite (alookup_put (Key m) _ _ l1 l2) by done.
    case_decide as Hmk; [|done]. rewrite Hv, <-Hlook. by rewrite (Hmk : keq (cmp t) (Key m) k).
  - apply adjust_eq; unfold l', sum_of; cbn [foldr]; rewrite ?length_app; simpl; lia.
Qed.

(** The entry of the message's key is dropped. *)
Lemma drop_result m l1 l2 l3 :
  cut_at m l1 l2 l3 → Kind m = MsgDelete → is_Some (head l2.*2) →
  leaf_result t P (l1 ++ l2 ++ l3) [m] (adjust t 0 (-1)) (Leaf (l1 ++ l3).*1 (l1 ++ l3).*2) (l1 ++ l3).
Proof.
  intros (Hs & HP & H1 & H2 & H3 & Hu) Ek Hsome.
  destruct Hu as [->|[a ->]]; [by destruct Hsome|]. split; [done|by eapply ksorted_delete|..].
  - rewrite !Forall_app in *. tauto.
  - intros k. rewrite run_cons, run_nil. unfold apply_msg. rewrite Ek. by apply alookup_delete.
  - unfold sum_of, msg_delta, is_delete. simpl. rewrite Ek, !length_app. simpl. apply adjust_eq; lia.
Qed.

(** The leaf operations of one message, and the size correction they make. *)
Lemma apply_one_spec l m :
  ksorted (cmp t) fst l → Forall (λ p, P p.1) l → wf_msg m → P (Key m) →
  (Kind m = MsgDelete → is_Some (alookup (cmp t) (Key m) l)) →
  ∃ l' t', apply_one (t, Leaf l.*1 l.*2) m = Some (t', Leaf l'.*1 l'.*2)
           ∧ leaf_result t P l [m] t' (Leaf l'.*1 l'.*2) l'.
Proof.
  intros Hs HP Hw HPm Hdel.
  destruct (key_split_strict fst (Key m) l Hs) as (l1 & l2 & l3 & -> & H1 & H2 & H3 & Hu).
  assert (cut_at m l1 l2 l3) as Hcut by done. rewrite (cut_lookup m l1 l2 l3 Hcut) in Hdel.
  unfold apply_one. destruct (Kind m) eqn:Ek; [| |by unfold wf_msg in Hw; rewrite Ek in Hw|].
  - rewrite leafInsert_spec by done. cbn [mbind option_bind]. eexists _, _. split; [done|].
    apply set_result; try done; unfold apply_msg, is_delete, msg_delta; rewrite ?Ek; try done.
    destruct Hu as [->|[a ->]]; simpl; destruct (counted m); simpl;
      try (symmetry; apply adjust_0; lia); unfold adjust; f_equal; lia.
  - rewrite leafDelete_spec by done. cbn [mbind option_bind]. eexists _, _. split; [done|].
    by apply drop_result; auto.
  - unfold wf_msg in Hw. rewrite Ek in Hw. destruct Hw as [f Hf]. rewrite Hf.
    rewrite leafSearch_spec by done. cbn [mbind option_bind].
    exists (l1 ++ (default (Key m) (head l2.*1), call_upsert f (head l2.*2)) :: l3),
      (if bool_decide (l2 ≠ []) then t else adjust t 1 0).
    split.
    + destruct Hu as [->|[[k0 v0] ->]].
      * simpl. rewrite <-(app_nil_l l3) at 1 2. by rewrite leafInsert_spec by (done || by left).
      * simpl. rewrite !fmap_app. simpl.
        rewrite lookup_middle by (by rewrite length_fmap). cbn [mbind option_bind].
        by rewrite update_middle by (by rewrite length_fmap).
    + apply set_result; try done; unfold apply_msg, is_delete, msg_delta; rewrite ?Ek, ?Hf; try done.
      destruct Hu as [->|[a ->]]; simpl; [apply adjust_eq; lia|symmetry; apply adjust_0; lia].
Qed.

End apply.

Lemma leaf_result_trans {K V} (t : BETree K V) P l m msgs t1 n1 l1 t2 n2 l2 :
  leaf_result t P l [m] t1 n1 l1 → leaf_result t1 P l1 msgs t2 n2 l2 →
  leaf_result t P l (m :: msgs) t2 n2 l2.
Proof.
  intros [_ _ _ L1 ->] [-> S2 B2 L2 ->]. cbn [cmp adjust] in *. split; [done|done|done|..].
  - intros k. rewrite L2, L1, <-run_app. done.
  - rewrite adjust_adjust. apply adjust_eq; unfold sum_of; simpl; lia.
Qed.

Lemma applyToLeafSmall_spec {K V} (t : BETree K V) {HC : Comparator (cmp t)} P l msgs :
  ksorted (cmp t) fst l → Forall (λ p, P p.1) l →
  Forall wf_msg msgs → Forall (λ m, P (Key m)) msgs →
  (∀ k, dels_ok (alookup (cmp t) k l) (for_key (cmp t) k msgs)) →
  ∃ l' t', applyToLeafSmall t (Leaf l.*1 l.*2) msgs = Some (t', Leaf l'.*1 l'.*2)
           ∧ leaf_result t P l msgs t' (Leaf l'.*1 l'.*2) l'.
Proof.
  intros Hs HP Hw. revert t HC l Hs HP. unfold applyToLeafSmall.
  induction Hw as [|m msgs Hwm Hw IH]; intros t HC l Hs HP HPm Hd; cbn [foldM].
  { exists l, t. split; [done|]. split; try done. cbn [sum_of foldr].
    symmetry. apply adjust_0; lia. }
  apply Forall_cons in HPm as [HPm HPms].
  destruct (apply_one_spec t P l m Hs HP Hwm HPm) as (l1 & t1 & E & R1).
  { intros Hk. specialize (Hd (Key m)). unfold for_key in Hd.
    rewrite filter_cons_True in Hd by apply compare_refl. by apply Hd. }
  rewrite E. cbn [mbind option_bind]. pose proof R1 as [_ S1 B1 L1 E1].
  assert (cmp t1 = cmp t) as Ec by (by rewrite E1).
  destruct (IH t1) with (l := l1) as (l2 & t2 & E2 & R2); try (by rewrite ?Ec).
  { rewrite Ec. intros k. specialize (Hd k). rewrite L1, run_cons, run_nil.
    unfold for_key in *. rewrite filter_cons in Hd. case_decide; [apply Hd|done]. }
  exists l2, t2. split; [done|]. by eapply leaf_result_trans.
Qed.

(** ** The batch path *)

Section batch.
Context {K V : Type} {compare : K → K → Z} {HC : Comparator compare}.
Implicit Types (m : Message K V) (msgs : list (Message K V)) (l : list (K * V)).

(** The result of phase 2b: a put or a delete with the same effect on [l]. *)
Definition settled l m m' : Prop :=
  Key m' = Key m ∧ (Kind m' = MsgPut ∨ Kind m' = MsgDelete)
  ∧ (Kind m' = MsgDelete → Kind m = MsgDelete)
  ∧ ∀ k, keq compare (Key m) k →
      apply_msg (alookup compare k l) m' = apply_msg (alookup compare k l) m.

Lemma resolve_upsert_spec l m :
  ksorted compare fst l → wf_msg m →
  ∃ m', resolve_upsert compare (Leaf l.*1 l.*2) m = Some m' ∧ settled l m m'.
Proof.
  intros Hs Hw. unfold resolve_upsert. unfold wf_msg in Hw.
  destruct (Kind m) eqn:Ek; [..|done|].
  1, 2: exists m; split; [done|]; split_and!; rewrite ?Ek; by auto.
  destruct Hw as [f Hf]. rewrite Hf.
  destruct (key_split_strict fst (Key m) l Hs) as (l1 & l2 & l3 & -> & H1 & H2 & H3 & Hu).
  rewrite leafSearch_spec by done. cbn [mbind option_bind].
  assert ((if bool_decide (l2 ≠ [])
           then v ← values (Leaf (l1 ++ l2 ++ l3).*1 (l1 ++ l2 ++ l3).*2) !! length l1;
                Some (f (Some v) true)
           else Some (f None false)) = Some (call_upsert f (head l2.*2))) as ->.
  { destruct Hu as [->|[[k v] ->]]; [done|]. cbn [values]. rewrite !fmap_app. simpl.
    by rewrite lookup_middle by (by rewrite length_fmap). }
  eexists. split; [done|]. split_and!; simpl; auto.
  - intros [=].
  - intros k Hk. unfold apply_msg. simpl. rewrite Ek, Hf.
    rewrite <-Hk, alookup_split by done. destruct Hu as [->|[[k' v] ->]]; [done|].
    apply Forall_cons in H2 as [H2 _]. simpl in *. by rewrite decide_True.
Qed.

Lemma resolve_upserts_spec l msgs :
  ksorted compare fst l → Forall wf_msg msgs →
  ∃ r, mapM (resolve_upsert compare (Leaf l.*1 l.*2)) msgs = Some r
       ∧ Forall2 (settled l) msgs r.
Proof.
  intros Hs. induction 1 as [|m msgs Hm Hw (r & E & IH)]; [exists []; by split|].
  destruct (resolve_upsert_spec l m Hs Hm) as (m' & E' & Hm').
  exists (m' :: r). split; [|by constructor].
  cbn [mapM]. rewrite E'. cbn [mbind option_bind]. by rewrite E.
Qed.

Lemma settled_run l msgs r k :
  ksorted compare Key msgs → Forall2 (settled l) msgs r →
  run compare k r (alookup compare k l) = run compare k msgs (alookup compare k l).
Proof.
  intros Hs HF. revert Hs. induction HF as [|m m' msgs r (Hk & _ & _ & Ha) HF IH]; intros Hs; [done|].
  destruct (above_of_sorted Key m msgs Hs) as [Hab Hs'].
  assert (above compare Key (Key m) r) as Hab'.
  { clear -Hab HF. induction HF as [|m1 m1' msgs r (E & _) HF IH]; [constructor|].
    apply Forall_cons in Hab as [? ?]. constructor; [by rewrite E|by apply IH]. }
  rewrite !run_cons, Hk. case_decide as Hmk; [|by apply IH].
  rewrite Ha by done. rewrite !(run_above k (Key m)) by done. done.
Qed.

Lemma settled_sorted l msgs r :
  Forall2 (settled l) msgs r → ksorted compare Key msgs → ksorted compare Key r.
Proof.
  induction 1 as [|m m' msgs r (Hk & _) HF IH]; [done|]. intros [Hm Hs]%ksorted_cons.
  apply ksorted_cons. split; [|by apply IH]. rewrite Hk. clear -Hm HF.
  induction HF as [|m1 m1' msgs r (E & _) HF IH]; [constructor|].
  apply Forall_cons in Hm as [? ?]. constructor; [by rewrite E|by apply IH].
Qed.

End batch.

Lemma msg_delta_split {K V} (msgs : list (Message K V)) :
  sum_of msg_delta msgs = (sum_of pre_counted msgs - sum_of is_delete msgs)%Z.
Proof.
  induction msgs as [|m msgs IH]; [done|]. cbn [sum_of foldr] in *.
  unfold msg_delta at 1, pre_counted at 1, is_delete at 1.
  destruct (Kind m), (counted m); case_decide as E; unfold sum_of in *;
    try lia; exfalso; intuition congruence.
Qed.

Lemma no_deletes {K V} (msgs : list (Message K V)) :
  sum_of is_delete msgs = 0%Z → Forall (λ m, Kind m ≠ MsgDelete) msgs.
Proof.
  induction msgs as [|m msgs IH]; [constructor|]. cbn [sum_of foldr]. intros H.
  pose proof (sum_of_nonneg is_delete msgs is_delete_nonneg). unfold sum_of in *.
  constructor; [|apply IH; pose proof (is_delete_nonneg m); lia].
  intros E. unfold is_delete at 1 in H. rewrite E in H. lia.
Qed.

Section apply_to_leaf.
Context {K V : Type} {compare : K → K → Z} {HC : Comparator compare}.
Implicit Types (m : Message K V) (msgs : list (Message K V)) (l : list (K * V)).

(** The append fast path is the put merge when every key is new and above. *)
Lemma appendToLeaf_spec (P : K → Prop) l last m msgs :
  ksorted compare fst l → Forall (λ p, P p.1) l →
  l.*1 !! (length l - 1) = Some last → (0 < compare (Key m) last)%Z →
  ksorted compare Key (m :: msgs) → Forall (λ m, Kind m = MsgPut) (m :: msgs) →
  Forall (λ m, P (Key m)) (m :: msgs) →
  ∃ l', appendToLeaf (Leaf l.*1 l.*2) (m :: msgs) = Leaf l'.*1 l'.*2
        ∧ ksorted compare fst l' ∧ Forall (λ p, P p.1) l'
        ∧ ∀ x, alookup compare x l' = run compare x (m :: msgs) (alookup compare x l).
Proof.
  intros Hs HP Hlast Hlt Hms Hput HPm.
  assert (∀ p m', p ∈ l → m' ∈ m :: msgs → (compare p.1 (Key m') < 0)%Z) as Hbelow.
  { assert (∀ p, p ∈ l → (compare p.1 (Key m) < 0)%Z) as Hm.
    { apply list_lookup_fmap_Some in Hlast as ([k0 v0] & -> & Hl). simpl in Hlt.
      rewrite <-(take_drop_middle _ _ _ Hl) in Hs |- *.
      rewrite drop_ge in Hs |- * by (apply lookup_lt_Some in Hl; lia).
      apply ksorted_app in Hs as (Hs & _ & _). intros p [Hp| ->%list_elem_of_singleton]%elem_of_app.
      - specialize (Hs p (k0, v0) Hp ltac:(left)). simpl in Hs. ord (fst p) k0 (Key m).
      - simpl. ord k0 (Key m). }
    apply ksorted_cons in Hms as [Hmm _]. rewrite Forall_forall in Hmm.
    intros p m' Hp [->|Hm']%elem_of_cons; [by apply Hm|].
    specialize (Hm p Hp). specialize (Hmm m' Hm'). simpl in Hmm.
    ord (fst p) (Key m) (Key m'). }
  exists (l ++ (kv <$> m :: msgs)). split_and!.
  - unfold appendToLeaf. cbn [keys values]. rewrite !fmap_app, <-!list_fmap_compose. done.
  - apply ksorted_app. split_and!; [|done|by apply ksorted_fmap].
    intros p q Hp (m' & -> & Hm')%list_elem_of_fmap. by apply Hbelow.
  - apply Forall_app. split; [done|]. by apply Forall_fmap.
  - intros x. rewrite alookup_app, (run_puts x (m :: msgs)) by done.
    destruct (alookup compare x l) as [v|] eqn:Ex.
    + apply alookup_Some_elem in Ex as (k & Hk & Hkx).
      rewrite (alookup_None x); [done|]. apply Forall_fmap, Forall_forall.
      intros m' Hm'. unfold kv. simpl. specialize (Hbelow _ _ Hk Hm'). simpl in Hbelow.
      ord (Key m') k x.
    + by destruct (alookup compare x (kv <$> m :: msgs)).
Qed.

(** Whatever merge is chosen, the settled batch is played on the leaf. *)
Lemma merge_choice_spec (P : K → Prop) l r (nd : Z) :
  ksorted compare fst l → Forall (λ p, P p.1) l →
  ksorted compare Key r → Forall (λ m, Kind m = MsgPut ∨ Kind m = MsgDelete) r →
  (nd = 0%Z → Forall (λ m, Kind m = MsgPut) r) →
  Forall (λ m, P (Key m)) r → r ≠ [] →
  ∃ l', (if decide (nd = 0%Z ∧ 0 < length l.*1) then
           m0 ← r !! 0;
           last ← l.*1 !! (length l.*1 - 1);
           if decide (0 < compare (Key m0) last)%Z then Some (appendToLeaf (Leaf l.*1 l.*2) r)
           else mergeLeafPuts compare (Leaf l.*1 l.*2) r
         else if decide (nd = 0%Z) then mergeLeafPuts compare (Leaf l.*1 l.*2) r
         else mergeLeafWithDeletes compare (Leaf l.*1 l.*2) r)
        = Some (Leaf l'.*1 l'.*2)
        ∧ ksorted compare fst l' ∧ Forall (λ p, P p.1) l'
        ∧ ∀ x, alookup compare x l' = run compare x r (alookup compare x l).
Proof.
  intros Hs HP Hr Hk Hnd HPr Hne. destruct r as [|m r]; [done|]. rewrite length_fmap.
  destruct (decide (nd = 0%Z ∧ 0 < length l)) as [[Hz Hl]|_].
  - cbn [lookup list_lookup mbind option_bind].
    destruct (lookup_lt_is_Some_2 l.*1 (length l - 1)) as [last Hlast];
      [rewrite length_fmap; lia|].
    rewrite Hlast. cbn [mbind option_bind]. case_decide.
    + destruct (appendToLeaf_spec P l last m r) as (l' & E & H'); auto.
      exists l'. by rewrite E.
    + apply mergeLeafPuts_spec; auto.
  - case_decide; [apply mergeLeafPuts_spec|apply mergeLeafWithDeletes_spec]; auto.
Qed.

End apply_to_leaf.

(** [applyToLeaf] on every path. *)
Lemma applyToLeaf_spec {K V} (t : BETree K V) {HC : Comparator (cmp t)} P l msgs :
  ksorted (cmp t) fst l → Forall (λ p, P p.1) l →
  Forall wf_msg msgs → Forall (λ m, P (Key m)) msgs →
  (∀ k, dels_ok (alookup (cmp t) k l) (for_key (cmp t) k msgs)) →
  ∃ l' t', applyToLeaf t (Leaf l.*1 l.*2) msgs = Some (t', Leaf l'.*1 l'.*2)
           ∧ leaf_result t P l msgs t' (Leaf l'.*1 l'.*2) l'.
Proof.
  intros Hs HP Hw HPm Hd. unfold applyToLeaf. case_decide as Hlen.
  { destruct msgs; [|done]. exists l, t. split; [done|]. split; try done.
    symmetry. apply adjust_0; unfold sum_of; simpl; lia. }
  case_decide; [by apply applyToLeafSmall_spec|]. cbv zeta. cbn [cmp adjust].
  destruct (resolveMessages_spec (compare := cmp t) msgs Hw) as (r & -> & Hr).
  cbn [mbind option_bind].
  destruct (resolve_upserts_spec (compare := cmp t) l r Hs) as (r' & -> & HF);
    [apply Hr|]. cbn [mbind option_bind keys].
  assert (Forall (λ m, P (Key m)) r') as HPr.
  { clear -HF Hr HPm. apply Forall_forall. intros m' Hm'.
    apply list_elem_of_lookup in Hm' as (i & Hi).
    destruct (Forall2_lookup_r _ _ _ _ _ HF Hi) as (m & Hmi & (-> & _)).
    destruct (res_keys _ _ Hr m) as (m0 & Hm0 & ->); [by eapply list_elem_of_lookup_2|].
    rewrite Forall_forall in HPm. by apply HPm. }
  destruct (merge_choice_spec (compare := cmp t) P l r' (sum_of is_delete msgs))
    as (l' & -> & Hs' & HP' & Hl'); [done|done| | | |done| |].
  - eapply settled_sorted; [done|apply Hr].
  - clear -HF. induction HF as [|m m' r r' (_ & Hk & _) HF IH]; by constructor.
  - intros Hz%no_deletes. clear -HF Hr Hz. apply Forall_forall. intros m' Hm'.
    apply list_elem_of_lookup in Hm' as (i & Hi).
    destruct (Forall2_lookup_r _ _ _ _ _ HF Hi) as (m & Hmi & (_ & [?|Hdel] & Hdd & _)); [done|].
    destruct (res_deletes _ _ Hr m) as (m0 & Hm0 & Hk0);
      [by eapply list_elem_of_lookup_2|by apply Hdd|].
    rewrite Forall_forall in Hz. by destruct (Hz m0 Hm0).
  - intros ->. inversion HF; subst. by apply (res_nonempty _ _ Hr); [intros ->|].
  - cbn [mbind option_bind]. exists l'. eexists. split; [done|]. split; [done|done|done|..].
    + intros k. rewrite Hl', (settled_run l r r') by (done || apply Hr). apply Hr.
    + rewrite adjust_adjust, msg_delta_split. cbn [keys]. rewrite !length_fmap.
      apply adjust_eq; lia.
Qed.
