(* ===== verification/Flush.v ===== *)
(** * Flushing and splitting (flush.go)

    [flushNode] partitions the buffer of an internal node by child, pushes the
    heaviest bucket down (to the leaf, or into the child's buffer, which is
    flushed in turn when it overflows) and splits the child when it became too
    large.  It mutates [t.size] and [t.pendingDeletes] only through
    [applyToLeaf].  The recursion follows a path to a leaf, so the height of
    the node is enough fuel ([flushNode_spec] shows it).

    A split replaces one child by two around a new pivot; [split_of] is what
    both kinds of split establish and [insert_split] puts it in the parent. *)

From S2P Require Import Prelude Order Slices Message Node LeafMerge.

(** ** Splits *)

Definition splitLeafChild {K V} (parent : node K V) (childIdx : nat) : option (node K V) :=
  match parent with
  | Leaf _ _ => None
  | Internal ps cs buf bs =>
      child ← cs !! childIdx;
      let mid := length (keys child) / 2 in
      rk ← slice (keys child) mid (length (keys child));
      rv ← slice (values child) mid (length (values child));
      pivot ← rk !! 0;
      lk ← slice (keys child) 0 mid;
      lv ← slice (values child) 0 mid;
      ps ← Insert ps childIdx pivot;
      cs ← update childIdx (Leaf lk lv) cs;
      cs ← Insert cs (childIdx + 1) (Leaf rk rv);
      Some (Internal ps cs buf bs)
  end.

Definition splitInternalChild {K V} (compare : K → K → Z) (parent : node K V) (childIdx : nat)
    : option (node K V) :=
  match parent with
  | Leaf _ _ => None
  | Internal ps cs buf bs =>
      child ← cs !! childIdx;
      let mid := length (pivots child) / 2 in
      pivot ← pivots child !! mid;
      rp ← slice (pivots child) (mid + 1) (length (pivots child));
      rc ← slice (children child) (mid + 1) (length (children child));
      let leftBuf := filter (λ m, compare (Key m) pivot < 0)%Z (buffer child) in
      let rightBuf := filter (λ m, ¬ compare (Key m) pivot < 0)%Z (buffer child) in
      lp ← slice (pivots child) 0 mid;
      lc ← slice (children child) 0 (mid + 1);
      let wasSorted := bufferSorted child in
      ps ← Insert ps childIdx pivot;
      cs ← update childIdx (Internal lp lc leftBuf wasSorted) cs;
      cs ← Insert cs (childIdx + 1) (Internal rp rc rightBuf wasSorted);
      Some (Internal ps cs buf bs)
  end.

Definition splitChild {K V} (compare : K → K → Z) (parent : node K V) (childIdx : nat)
    : option (node K V) :=
  child ← children parent !! childIdx;
  if leaf child then splitLeafChild parent childIdx
  else splitInternalChild compare parent childIdx.

Definition splitRoot {K V} (t : BETree K V) : option (BETree K V) :=
  let newRoot := Internal [] [root t] [] false in
  newRoot ← splitChild (cmp t) newRoot 0;
  Some (set_root t newRoot).

(** ** flushNode *)

(** [buckets[findChildIndex(msg.Key)]] gets each message. *)
Definition fill_bucket {K V} (compare : K → K → Z) (n : node K V)
    (buckets : list (list (Message K V))) (msg : Message K V) :=
  idx ← findChildIndex n (Key msg) compare;
  b ← buckets !! idx;
  update idx (b ++ [msg]) buckets.

(** [if len(buckets[i]) > len(buckets[heaviest]) { heaviest = i }]. *)
Definition pick_heavier {A} (buckets : list (list A)) (heaviest i : nat) : option nat :=
  bi ← buckets !! i;
  bh ← buckets !! heaviest;
  Some (if decide (length bh < length bi) then i else heaviest).

(** [if i != heaviest { k += copy(n.buffer[k:], bucket) }]. *)
Definition keep_bucket {A} (heaviest : nat) (st : list A * nat) (ib : nat * list A)
    : option (list A * nat) :=
  let '(buf, k) := st in
  let '(i, bucket) := ib in
  if decide (i = heaviest) then Some (buf, k)
  else
    buf' ← copy_range buf k (length buf) bucket;
    Some (buf', k + Nat.min (length buf - k) (length bucket)).

Fixpoint flushNode_fuel {K V} (fuel : nat) (t : BETree K V) (n : node K V)
    : option (BETree K V * node K V) :=
  match fuel with
  | 0 => None
  | S fuel =>
      match n with
      | Leaf _ _ => Some (t, n)
      | Internal ps cs buf bs =>
          if decide (length buf = 0) then Some (t, n)
          else
            let numChildren := length cs in
            buckets ← foldM (fill_bucket (cmp t) n) (replicate numChildren []) buf;
            heaviest ← foldM (pick_heavier buckets) 0 (seq 1 (numChildren - 1));
            '(buf, k) ← foldM (keep_bucket heaviest) (buf, 0)
                          (zip (seq 0 numChildren) buckets);
            buf ← slice buf 0 k;
            child ← cs !! heaviest;
            bucket ← buckets !! heaviest;
            match child with
            | Leaf _ _ =>
                '(t, child) ← applyToLeaf t child bucket;
                cs ← update heaviest child cs;
                let n := Internal ps cs buf false in
                if decide (leafCap (params t) < len (keys child))%Z then
                  n ← splitChild (cmp t) n heaviest; Some (t, n)
                else Some (t, n)
            | Internal cps ccs cbuf _ =>
                let child := Internal cps ccs (cbuf ++ bucket) false in
                '(t, child) ←
                  (if decide (bufferCap (params t) < len (buffer child))%Z
                   then flushNode_fuel fuel t child else Some (t, child));
                cs ← update heaviest child cs;
                let n := Internal ps cs buf false in
                if decide (fanout (params t) < len (children child))%Z then
                  n ← splitChild (cmp t) n heaviest; Some (t, n)
                else Some (t, n)
            end
      end
  end.
Definition flushNode {K V} (t : BETree K V) (n : node K V) : option (BETree K V * node K V) :=
  flushNode_fuel (S (height n)) t n.

(** ** What flushing and splitting preserve *)

(** The parameters every constructed tree has (options.go, [deriveParams]). *)
Definition params_ok (p : treeParams) : Prop :=
  (2 ≤ fanout p)%Z ∧ (1 ≤ bufferCap p)%Z ∧ (2 ≤ leafCap p)%Z.

(** A property of the messages along a path that survives moving a suffix of
    a buffer down. *)
Class PathInv {K V} (Q : option V → list (Message K V) → Prop) : Prop := {
  path_nil o : Q o [];
  path_app o msgs1 msgs2 :
    Q o (msgs1 ++ msgs2) ↔ Q o msgs1 ∧ Q (foldl apply_msg o msgs1) msgs2
}.

#[export] Instance dels_ok_PathInv {K V} : PathInv (@dels_ok K V).
Proof. split; [done|]. intros. apply dels_ok_app. Qed.
#[export] Instance puts_ok_PathInv {K V} : PathInv (@puts_ok K V).
Proof. split; [done|]. intros. apply puts_ok_app. Qed.

(** [l] and [r] are the two halves of [c] at pivot [p]. *)
Record split_of {K V} (compare : K → K → Z) (P : K → Prop) (h : nat) (F : Z)
    (c : node K V) (p : K) (l r : node K V) : Prop := {
  sp_pivot : P p;
  sp_left_key : ∃ k, P k ∧ (compare k p < 0)%Z;
  sp_left : wf_node compare (λ k, P k ∧ (compare k p < 0)%Z) h l;
  sp_right : wf_node compare (λ k, P k ∧ (compare p k ≤ 0)%Z) h r;
  sp_den k : den compare c k = den compare (if decide (compare p k ≤ 0)%Z then r else l) k;
  sp_path Q k : on_path compare Q c k
                ↔ on_path compare Q (if decide (compare p k ≤ 0)%Z then r else l) k;
  sp_balance : balance c = (balance l + balance r)%Z;
  sp_pending : pending c = (pending l + pending r)%Z;
  sp_fan : fan_ok F l ∧ fan_ok F r
}.

(** [n'] is [n] after a flush or split that changed no key's value. *)
Record same_contents {K V} (compare : K → K → Z) (n n' : node K V) : Prop := {
  sc_den k : den compare n' k = den compare n k;
  sc_path Q `{!PathInv Q} k : on_path compare Q n k → on_path compare Q n' k
}.

(** ** Sums over children, and views of internal nodes *)

Section views.
Context {K V : Type} {compare : K → K → Z} {HC : Comparator compare}.
Implicit Types (n c : node K V) (ps : list K) (cs : list (node K V)).

Lemma fan_ok_internal F ps cs buf bs :
  fan_ok F (Internal ps cs buf bs) ↔ (len cs ≤ F)%Z ∧ @Forall (node K V) (fan_ok F) cs.
Proof.
  cbn [fan_ok]. f_equiv. induction cs as [|c cs IH]; simpl.
  - split; [constructor|done].
  - rewrite Forall_cons. tauto.
Qed.

Lemma den_internal ps cs buf bs k c :
  cs !! child_ix compare ps k = Some c →
  den compare (Internal ps cs buf bs) k = run compare k buf (den compare c k).
Proof.
  intros Hc. cbn [den]. change (map ?f cs) with (f <$> cs). by rewrite list_lookup_fmap, Hc.
Qed.

Lemma on_path_internal Q ps cs buf bs k c :
  cs !! child_ix compare ps k = Some c →
  on_path compare Q (Internal ps cs buf bs) k
  ↔ Q (den compare c k) (for_key compare k buf) ∧ on_path compare Q c k.
Proof.
  intros Hc. cbn [on_path]. change (map ?f cs) with (f <$> cs).
  by rewrite !list_lookup_fmap, Hc.
Qed.

Lemma balance_internal ps cs buf bs :
  balance (Internal ps cs buf bs : node K V) = (sum_of msg_delta buf + sum_of balance cs)%Z.
Proof.
  cbn [balance]. f_equal. unfold sum_of, id. induction cs as [|c cs IH]; simpl; lia.
Qed.

Lemma pending_internal ps cs buf bs :
  pending (Internal ps cs buf bs : node K V) = (sum_of is_delete buf + sum_of pending cs)%Z.
Proof.
  cbn [pending]. f_equal. unfold sum_of, id. induction cs as [|c cs IH]; simpl; lia.
Qed.

(** The child a key routes to exists. *)
Lemma routed_child ps cs k :
  length cs = S (length ps) → ∃ c, cs !! child_ix compare ps k = Some c.
Proof.
  intros Hl. apply lookup_lt_is_Some. pose proof (child_ix_le (compare := compare) ps k). lia.
Qed.

Lemma wf_node_weaken P Q h n :
  wf_node compare P h n → (∀ k, P k → Q k) → wf_node compare Q h n.
Proof.
  intros Hn. revert Q.
  induction Hn as [P l Hs HP|P h ps cs buf bs Hs HPp Hlen Hw HPb Hbs _ IH]; intros Q HPQ.
  - constructor; [done|]. eapply Forall_impl; [exact HP|]. eauto.
  - constructor; try done.
    + eapply Forall_impl; [exact HPp|]. eauto.
    + eapply Forall_impl; [exact HPb|]. simpl; eauto.
    + intros i c Hc. eapply IH; [exact Hc|]. intros k [? ?]. eauto.
Qed.

Lemma wf_node_height P h n : wf_node compare P h n → height n = h.
Proof.
  induction 1 as [P l Hs HP|P h ps cs buf bs Hs HPp Hlen Hw HPb Hbs Hcs IH]; [done|].
  cbn [height]. f_equal.
  assert (∀ c, c ∈ cs → height c = h) as Hall.
  { intros c (i & Hi)%list_elem_of_lookup. eauto. }
  assert (cs ≠ []) as Hne by (by intros ->). clear -Hall Hne.
  induction cs as [|c cs IH]; [done|]. cbn [foldr].
  rewrite (Hall c) by left. destruct cs as [|c' cs]; [simpl; lia|].
  rewrite IH; [lia| |done]. intros c'' Hc''. apply Hall. by right.
Qed.

End views.

(** Two internal nodes have the same contents when the children that a key routes
    to have, under the buffers above them. *)
Section same_contents.
Context {K V : Type} {compare : K → K → Z} {HC : Comparator compare}.

Lemma same_contents_internal ps (cs : list (node K V)) buf bs ps' cs' buf' bs' :
  length cs = S (length ps) →
  (∀ k d, cs !! child_ix compare ps k = Some d → ∃ d', cs' !! child_ix compare ps' k = Some d'
     ∧ run compare k buf' (den compare d' k) = run compare k buf (den compare d k)
     ∧ ∀ Q, PathInv Q → Q (den compare d k) (for_key compare k buf) → on_path compare Q d k →
         Q (den compare d' k) (for_key compare k buf') ∧ on_path compare Q d' k) →
  same_contents compare (Internal ps cs buf bs) (Internal ps' cs' buf' bs').
Proof.
  intros Hlen Hkids. split.
  - intros k. destruct (routed_child (compare := compare) ps cs k Hlen) as [d Hd].
    destruct (Hkids k d Hd) as (d' & Hd' & Hrun & _).
    by rewrite (den_internal ps cs buf bs k d Hd), (den_internal ps' cs' buf' bs' k d' Hd').
  - intros Q HQ k. destruct (routed_child (compare := compare) ps cs k Hlen) as [d Hd].
    destruct (Hkids k d Hd) as (d' & Hd' & _ & Hpath).
    rewrite (on_path_internal Q ps cs buf bs k d Hd), (on_path_internal Q ps' cs' buf' bs' k d' Hd').
    intros [H1 H2]. by apply Hpath.
Qed.
End same_contents.

(** ** The two splits *)

Section split.
Context {K V : Type} {compare : K → K → Z} {HC : Comparator compare}.
Implicit Types (n c : node K V) (ps : list K) (cs cl cr csh : list (node K V)).
Implicit Types (P Q : K → Prop) (buf bufh : list (Message K V)).

Lemma alookup_app_sorted k k0 v0 (l1 l2 : list (K * V)) :
  ksorted compare fst (l1 ++ (k0, v0) :: l2) →
  alookup compare k (l1 ++ (k0, v0) :: l2)
  = alookup compare k (if decide (compare k0 k ≤ 0)%Z then (k0, v0) :: l2 else l1).
Proof.
  intros (H12 & _ & H2)%ksorted_app. apply above_of_sorted in H2 as [H2 _].
  rewrite alookup_app. case_decide as Hk.
  - rewrite (alookup_None k l1); [done|]. apply Forall_forall. intros p Hp.
    specialize (H12 p (k0, v0) Hp ltac:(left)). simpl in H12. ord (fst p) k0 k.
  - rewrite (alookup_None k (_ :: _)); [by destruct (alookup compare k l1)|].
    constructor; [simpl; lia|]. eapply Forall_impl; [exact H2|]. simpl. intros p Hp.
    ord (fst p) k0 k.
Qed.

(** A leaf with at least two keys splits in the middle. *)
Lemma split_leaf P F (l : list (K * V)) :
  ksorted compare fst l → Forall (λ p, P p.1) l → 2 ≤ length l →
  ∃ l1 k0 v0 l2, l = l1 ++ (k0, v0) :: l2 ∧ length l1 = length l / 2
    ∧ split_of compare P 0 F (Leaf l.*1 l.*2) k0 (Leaf l1.*1 l1.*2)
        (Leaf ((k0, v0) :: l2).*1 ((k0, v0) :: l2).*2).
Proof.
  intros Hs HP Hlen.
  assert (0 < length l / 2 < length l) as Hmid.
  { pose proof (Nat.div_lt (length l) 2). pose proof (Nat.div_str_pos (length l) 2). lia. }
  destruct (lookup_lt_is_Some_2 l (length l / 2)) as [[k0 v0] Hk0]; [lia|].
  apply list_split_lookup in Hk0 as (l1 & l2 & El & Hl1).
  exists l1, k0, v0, l2. split; [done|]. split; [done|].
  assert (0 < length l1) as Hl1' by lia. rewrite El in Hs, HP |- *. clear El Hl1 Hmid Hlen.
  pose proof Hs as (H12 & Hs1 & Hs2)%ksorted_app.
  destruct (above_of_sorted fst (k0, v0) l2 Hs2) as [Ha _]. simpl in Ha.
  apply Forall_app in HP as [HP1 HP2]. pose proof HP2 as [HPk HP2']%Forall_cons.
  split.
  - done.
  - destruct l1 as [|[k1 v1] l1]; [simpl in Hl1'; lia|]. exists k1.
    apply Forall_cons in HP1 as [? _]. split; [done|].
    apply (H12 (k1, v1) (k0, v0)); left.
  - constructor; [done|]. rewrite Forall_forall in HP1 |- *. intros p Hp.
    split; [by apply HP1|]. apply (H12 p (k0, v0)); [done|left].
  - constructor; [done|]. constructor; [split; [done|]; by rewrite compare_refl|].
    rewrite Forall_forall in HP2' |- *. intros p Hp. split; [by apply HP2'|].
    unfold above in Ha. rewrite Forall_forall in Ha. specialize (Ha p Hp). simpl in Ha.
    ord k0 (fst p).
  - intros k. cbn [den]. rewrite zip_fst_snd, alookup_app_sorted by done.
    case_decide; cbn [den]; by rewrite zip_fst_snd.
  - intros Q k. by case_decide.
  - cbn [balance]. rewrite !length_fmap, length_app. lia.
  - done.
  - done.
Qed.

Lemma kwsorted_filter (P : Message K V → Prop) `{!∀ m, Decision (P m)} buf :
  kwsorted compare Key buf → kwsorted compare Key (filter P buf).
Proof.
  induction 1 as [|m buf Hs IH Hm]; [constructor|]. rewrite filter_cons.
  case_decide; [|done]. apply kwsorted_cons. split; [|done]. by apply Forall_filter_sub.
Qed.

(** Routing in the halves of a split internal node. *)
Lemma child_ix_split pl p pr k :
  ksorted compare id (pl ++ p :: pr) →
  child_ix compare (pl ++ p :: pr) k
  = if decide (compare p k ≤ 0)%Z then S (length pl) + child_ix compare pr k
    else child_ix compare pl k.
Proof.
  intros Hs. rewrite child_ix_app, child_ix_cons.
  pose proof (child_ix_le (compare := compare) pl k).
  case_decide as Hp.
  - enough (child_ix compare pl k = length pl) by lia.
    unfold child_ix. rewrite filter_all; [done|]. apply Forall_forall. intros q Hq.
    apply ksorted_app in Hs as (Hs & _). specialize (Hs q p Hq ltac:(left)).
    unfold id in Hs. ord q p k.
  - enough (child_ix compare pr k = 0) by lia.
    unfold child_ix. rewrite filter_none; [done|].
    apply ksorted_app in Hs as (_ & _ & Hs). apply ksorted_cons in Hs as [Hs _].
    eapply Forall_impl; [exact Hs|]. unfold id. simpl. intros q Hq. ord p q k.
Qed.

Lemma for_key_half k p (buf : list (Message K V)) :
  for_key compare k (if decide (compare p k ≤ 0)%Z
                     then filter (λ m, ¬ compare (Key m) p < 0)%Z buf
                     else filter (λ m, compare (Key m) p < 0)%Z buf)
  = for_key compare k buf.
Proof.
  unfold for_key. case_decide as Hp; rewrite list_filter_filter; apply filter_iff; intros m _.
  - split; [tauto|]. intros E. split; [done|]. ord (Key m) p k.
  - split; [tauto|]. intros E. split; [done|]. ord (Key m) p k.
Qed.

Lemma sum_of_halves (f : Message K V → Z) (Q : Message K V → Prop) `{!∀ m, Decision (Q m)} buf :
  sum_of f buf = (sum_of f (filter Q buf) + sum_of f (filter (λ m, ¬ Q m) buf))%Z.
Proof. by rewrite <-sum_of_app, (sum_of_Permutation _ _ _ (filter_app_complement Q buf)). Qed.

Lemma wf_internal_inv P h ps cs buf bs :
  wf_node compare P h (Internal ps cs buf bs) →
  ∃ h', h = S h' ∧ ksorted compare id ps ∧ Forall P ps ∧ length cs = S (length ps)
    ∧ Forall wf_msg buf ∧ Forall (λ m, P (Key m)) buf ∧ (bs = true → kwsorted compare Key buf)
    ∧ ∀ i c, cs !! i = Some c → wf_node compare (λ k, P k ∧ child_ix compare ps k = i) h' c.
Proof. inversion 1; subst. eauto 12. Qed.

Lemma wf_leaf_inv P h ks vs :
  wf_node compare P h (Leaf ks vs) →
  ∃ l : list (K * V), h = 0 ∧ ks = l.*1 ∧ vs = l.*2 ∧ ksorted compare fst l
                      ∧ Forall (λ p, P p.1) l.
Proof. inversion 1; subst. eauto 8. Qed.

(** One half of an internal node is well formed. *)
Lemma wf_half P Q h ps cs buf bs psh csh bufh off :
  wf_node compare P (S h) (Internal ps cs buf bs) →
  ksorted compare id psh → Forall Q psh → length csh = S (length psh) →
  (∀ k, k ∈ Key <$> bufh → Q k) → (∀ k, Q k → P k) →
  (∃ R (HR : ∀ m, Decision (R m)), bufh = filter R buf) →
  (∀ i c, csh !! i = Some c → cs !! (off + i) = Some c) →
  (∀ k i, P k → child_ix compare ps k = off + i → i < length csh →
          Q k ∧ child_ix compare psh k = i) →
  wf_node compare Q (S h) (Internal psh csh bufh bs).
Proof.
  intros (h' & [= <-] & Hs & HPp & Hlen & Hw & HPb & Hbs & Hcs)%wf_internal_inv
    Hsh HQ Hlen' HQb HQP (R & HR & ->) Hoff Hix.
  constructor; try done.
  - by apply Forall_filter_sub.
  - apply Forall_forall. intros m Hm. apply HQb. by apply list_elem_of_fmap_2.
  - intros E. apply kwsorted_filter. by apply Hbs.
  - intros i c Hc. pose proof (lookup_lt_Some _ _ _ Hc).
    eapply wf_node_weaken; [by apply Hcs, Hoff|]. intros k [HPk Hk]. by apply Hix.
Qed.

(** The halves of an internal node: their children, and that each is well formed
    on its side of the pivot. *)
Lemma half_lookup pl p pr (cl cr : list (node K V)) k :
  ksorted compare id (pl ++ p :: pr) → length cl = S (length pl) →
  (cl ++ cr) !! child_ix compare (pl ++ p :: pr) k
  = if decide (compare p k ≤ 0)%Z then cr !! child_ix compare pr k else cl !! child_ix compare pl k.
Proof.
  intros Hs Hcl. rewrite (child_ix_split pl p pr k Hs). case_decide.
  - rewrite <-Hcl, lookup_app_r by lia. f_equal. lia.
  - rewrite lookup_app_l; [done|]. pose proof (child_ix_le (compare := compare) pl k). lia.
Qed.

Lemma wf_left_half P h pl p pr cl cr buf bs :
  wf_node compare P (S h) (Internal (pl ++ p :: pr) (cl ++ cr) buf bs) → length cl = S (length pl) →
  wf_node compare (λ k, P k ∧ (compare k p < 0)%Z) (S h)
    (Internal pl cl (filter (λ m, compare (Key m) p < 0)%Z buf) bs).
Proof.
  intros Hwf Hcl. pose proof Hwf as (h' & [= <-] & Hs & HPp & _ & _ & HPb & _)%wf_internal_inv.
  pose proof (λ k, child_ix_split pl p pr k Hs) as Hix.
  pose proof Hs as (H12 & Hs1 & _)%ksorted_app. apply Forall_app in HPp as [HPl _].
  eapply (wf_half P _ h (pl ++ p :: pr) (cl ++ cr) buf bs pl cl _ 0); try done.
  - rewrite Forall_forall in HPl |- *. intros q Hq. split; [by apply HPl|]. apply (H12 q p); [done|left].
  - intros k (m & -> & [Hm Hin]%list_elem_of_filter)%list_elem_of_fmap.
    rewrite Forall_forall in HPb. by split; [apply HPb|].
  - by intros k [? ?].
  - by eexists _, _.
  - intros i c Hc. by apply lookup_app_l_Some.
  - intros k i HPk Hk Hi. rewrite Hix in Hk. case_decide; [lia|]. split; [split; [done|ord p k]|done].
Qed.

Lemma wf_right_half P h pl p pr cl cr buf bs :
  wf_node compare P (S h) (Internal (pl ++ p :: pr) (cl ++ cr) buf bs) → length cl = S (length pl) →
  wf_node compare (λ k, P k ∧ (compare p k ≤ 0)%Z) (S h)
    (Internal pr cr (filter (λ m, ¬ compare (Key m) p < 0)%Z buf) bs).
Proof.
  intros Hwf Hcl. pose proof Hwf as (h' & [= <-] & Hs & HPp & Hlen & _ & HPb & _)%wf_internal_inv.
  pose proof (λ k, child_ix_split pl p pr k Hs) as Hix. rewrite !length_app in Hlen. cbn [length] in Hlen.
  pose proof Hs as (_ & _ & [Ha Hs2]%above_of_sorted)%ksorted_app.
  apply Forall_app in HPp as [_ [_ HPr]%Forall_cons]. unfold above in Ha.
  eapply (wf_half P _ h (pl ++ p :: pr) (cl ++ cr) buf bs pr cr _ (length cl)); try done.
  - rewrite Forall_forall in HPr, Ha |- *. intros q Hq. split; [by apply HPr|].
    specialize (Ha q Hq). unfold id in Ha. ord p q.
  - lia.
  - intros k (m & -> & [Hm Hin]%list_elem_of_filter)%list_elem_of_fmap.
    rewrite Forall_forall in HPb. split; [by apply HPb|]. ord p (Key m).
  - by intros k [? ?].
  - by eexists _, _.
  - intros i c Hc. rewrite lookup_app_r by lia. rewrite <-Hc. f_equal. lia.
  - intros k i HPk Hk Hi. rewrite Hix in Hk. pose proof (child_ix_le (compare := compare) pl k).
    case_decide; [|lia]. split; [done|lia].
Qed.

(** An internal node with at least two pivots splits at the middle one. *)
Lemma split_internal P F h pl p pr cl cr buf bs :
  let ps := pl ++ p :: pr in
  wf_node compare P (S h) (Internal ps (cl ++ cr) buf bs) →
  length cl = S (length pl) → 0 < length pl →
  fan_ok F (Internal pl cl [] false) → fan_ok F (Internal pr cr [] false) →
  split_of compare P (S h) F (Internal ps (cl ++ cr) buf bs) p
    (Internal pl cl (filter (λ m, compare (Key m) p < 0)%Z buf) bs)
    (Internal pr cr (filter (λ m, ¬ compare (Key m) p < 0)%Z buf) bs).
Proof.
  intros ps Hwf Hcl Hpl HF1 HF2. subst ps.
  pose proof Hwf as (h' & [= <-] & Hs & HPp & Hlen & _)%wf_internal_inv.
  pose proof (λ k, half_lookup pl p pr cl cr k Hs Hcl) as Hlook.
  pose proof Hs as (H12 & _)%ksorted_app. apply Forall_app in HPp as [HPl [HPpv _]%Forall_cons].
  split; [done| |by eapply wf_left_half|by eapply wf_right_half|..].
  - destruct pl as [|q pl]; [simpl in Hpl; lia|]. exists q.
    apply Forall_cons in HPl as [? _]. split; [done|]. apply (H12 q p); left.
  - intros k. destruct (routed_child (compare := compare) _ _ k Hlen) as [c Hc].
    rewrite (den_internal _ (cl ++ cr) buf bs k c) by done.
    pose proof (for_key_half k p buf) as Hhalf. rewrite Hlook in Hc. unfold run.
    rewrite <-Hhalf. case_decide; erewrite den_internal by exact Hc; done.
  - intros Q k. destruct (routed_child (compare := compare) _ _ k Hlen) as [c Hc].
    rewrite (on_path_internal Q _ (cl ++ cr) buf bs k c) by done.
    pose proof (for_key_half k p buf) as Hhalf. rewrite Hlook in Hc.
    rewrite <-Hhalf. case_decide; by erewrite on_path_internal by exact Hc.
  - rewrite !balance_internal, sum_of_app, (sum_of_halves _ (λ m, compare (Key m) p < 0)%Z buf). lia.
  - rewrite !pending_internal, sum_of_app, (sum_of_halves _ (λ m, compare (Key m) p < 0)%Z buf). lia.
  - rewrite !fan_ok_internal in *. done.
Qed.

End split.

(** ** A split in its parent *)

Section parent.
Context {K V : Type} {compare : K → K → Z} {HC : Comparator compare}.
Implicit Types (n c l r : node K V) (ps : list K) (cs L R : list (node K V)).
Implicit Types (P : K → Prop) (buf : list (Message K V)).

(** Where a key finds its child after the split. *)
Lemma insert_split_lookup ps1 ps2 p k L c l r R :
  ksorted compare id (ps1 ++ ps2) → length L = length ps1 →
  child_ix compare (ps1 ++ ps2) p = length ps1 →
  (L ++ l :: r :: R) !! child_ix compare (ps1 ++ p :: ps2) k
  = if decide (child_ix compare (ps1 ++ ps2) k = length ps1)
    then Some (if decide (compare p k ≤ 0)%Z then r else l)
    else (L ++ c :: R) !! child_ix compare (ps1 ++ ps2) k.
Proof.
  intros Hs HL Hp. rewrite (child_ix_insert ps1 ps2 p k (length ps1)) by done.
  set (i := child_ix compare (ps1 ++ ps2) k). clearbody i.
  destruct (decide (i = length ps1)) as [->|Hne].
  - destruct (decide (length ps1 < length ps1)); [lia|].
    destruct (decide (compare p k ≤ 0)%Z).
    + change (l :: r :: R) with ([l] ++ r :: R). rewrite app_assoc.
      apply lookup_middle. rewrite length_app. simpl. lia.
    + by apply lookup_middle.
  - destruct (decide (i < length ps1)).
    + by rewrite !lookup_app_l by lia.
    + rewrite !lookup_app_r by lia.
      replace (S i - length L) with (S (i - length L)) by lia.
      by destruct (i - length L) eqn:E; [lia|].
Qed.

Lemma insert_split_sorted P h F ps1 ps2 c p l r :
  ksorted compare id (ps1 ++ ps2) →
  split_of compare (λ k, P k ∧ child_ix compare (ps1 ++ ps2) k = length ps1) h F c p l r →
  ksorted compare id (ps1 ++ p :: ps2).
Proof.
  intros Hs [[HPp Hp] (k0 & [_ Hk0] & Hlt) _ _ _ _ _ _ _].
  pose proof Hs as (H12 & Hs1 & Hs2)%ksorted_app.
  assert (∀ i q, (ps1 ++ ps2) !! i = Some q →
                 ((compare q p ≤ 0)%Z ↔ i < length ps1)
                 ∧ ((compare q k0 ≤ 0)%Z ↔ i < length ps1)) as Hq.
  { intros i q Hi. split.
    - by rewrite (child_ix_pivot (ps1 ++ ps2) p i q), Hp by done.
    - by rewrite (child_ix_pivot (ps1 ++ ps2) k0 i q), Hk0 by done. }
  assert (∀ q, q ∈ ps1 → (compare q p < 0)%Z) as H1.
  { intros q (i & Hi)%list_elem_of_lookup. pose proof (lookup_lt_Some _ _ _ Hi).
    destruct (Hq i q) as [_ Hk]; [by apply lookup_app_l_Some|].
    assert (compare q k0 ≤ 0)%Z by (apply Hk; lia). ord q k0 p. }
  assert (∀ q, q ∈ ps2 → (compare p q < 0)%Z) as H2.
  { intros q (i & Hi)%list_elem_of_lookup.
    destruct (Hq (length ps1 + i) q) as [Hk _]; [by rewrite lookup_app_r, Nat.add_comm, Nat.add_sub by lia|].
    assert (¬ compare q p ≤ 0)%Z by (rewrite Hk; lia). ord q p. }
  apply ksorted_app. split_and!; [|done|].
  - intros a b Ha [->|Hb]%elem_of_cons; [by apply H1|by apply H12].
  - apply ksorted_cons. split; [|done]. by apply Forall_forall.
Qed.

Lemma insert_split_children P h ps1 ps2 L c R p l r :
  let ps := ps1 ++ ps2 in
  let Q k := P k ∧ child_ix compare ps k = length ps1 in
  ksorted compare id ps → length L = length ps1 → child_ix compare ps p = length ps1 →
  (∀ i d, (L ++ c :: R) !! i = Some d → wf_node compare (λ k, P k ∧ child_ix compare ps k = i) h d) →
  wf_node compare (λ k, Q k ∧ (compare k p < 0)%Z) h l →
  wf_node compare (λ k, Q k ∧ (compare p k ≤ 0)%Z) h r →
  ∀ i d, (L ++ l :: r :: R) !! i = Some d →
    wf_node compare (λ k, P k ∧ child_ix compare (ps1 ++ p :: ps2) k = i) h d.
Proof.
  intros ps Q Hs HL Hp Hcs Hl Hr i d Hi.
  pose proof (λ k, child_ix_insert ps1 ps2 p k (length ps1) Hs eq_refl Hp) as Hins. fold ps in Hins.
  destruct (decide (i < length ps1)) as [Hlt|Hge].
  { rewrite lookup_app_l in Hi by lia. eapply wf_node_weaken; [by eapply Hcs, lookup_app_l_Some|].
    intros k [? Hk]. split; [done|]. rewrite Hins. by rewrite decide_True by lia. }
  rewrite lookup_app_r in Hi by lia. destruct (i - length L) as [|[|j]] eqn:Ej; simpl in Hi.
  - injection Hi as <-. eapply wf_node_weaken; [exact Hl|]. intros k [[? Hk] Hlt].
    split; [done|]. rewrite Hins, Hk, decide_False, decide_True, decide_False by (done || lia || ord k p). lia.
  - injection Hi as <-. eapply wf_node_weaken; [exact Hr|]. intros k [[? Hk] Hle].
    split; [done|]. rewrite Hins, Hk, decide_False by lia. rewrite !decide_True by done. lia.
  - eapply wf_node_weaken; [apply (Hcs (length L + S j) d)|].
    { rewrite lookup_app_r by lia. by replace (length L + S j - length L) with (S j) by lia. }
    intros k [? Hk]. split; [done|]. rewrite Hins, Hk, decide_False, decide_False by lia. lia.
Qed.

Lemma insert_split P h F ps1 ps2 L c R p l r buf bs :
  let ps := ps1 ++ ps2 in
  let n := Internal ps (L ++ c :: R) buf bs in
  let n' := Internal (ps1 ++ p :: ps2) (L ++ l :: r :: R) buf bs in
  wf_node compare P (S h) n → length L = length ps1 →
  split_of compare (λ k, P k ∧ child_ix compare ps k = length ps1) h F c p l r →
  wf_node compare P (S h) n' ∧ same_contents compare n n'
  ∧ balance n' = balance n ∧ pending n' = pending n.
Proof.
  intros ps n n' Hwf HL Hsp.
  pose proof Hwf as (h' & [= <-] & Hs & HPp & Hlen & Hw & HPb & Hbs & Hcs)%wf_internal_inv.
  pose proof (insert_split_sorted P h F ps1 ps2 c p l r Hs Hsp) as Hs'.
  destruct Hsp as [[HPpv Hp] _ Hl Hr Hden Hpath Hbal Hpend _].
  unfold n, n'. split_and!.
  - constructor; try done.
    + apply Forall_app in HPp as [? ?]. apply Forall_app. split; [done|by constructor].
    + unfold ps in Hlen. rewrite !length_app in *. simpl in *. lia.
    + by eapply insert_split_children.
  - apply same_contents_internal; [done|]. intros k d Hd.
    pose proof (insert_split_lookup ps1 ps2 p k L c l r R Hs HL Hp) as Hlook. fold ps in Hlook.
    rewrite Hlook. case_decide as Hk; [|by exists d].
    rewrite Hk, <-HL, lookup_middle in Hd by done. injection Hd as <-.
    eexists. split; [done|]. split; [by rewrite Hden|]. intros Q HQ. by rewrite Hden, Hpath.
  - rewrite !balance_internal, !sum_of_app. unfold sum_of. simpl. lia.
  - rewrite !pending_internal, !sum_of_app. unfold sum_of. simpl. lia.
Qed.

(** A child that may be split: large enough, and of nearly bounded fanout. *)
Definition splittable (F : Z) (c : node K V) : Prop :=
  match c with
  | Leaf ks _ => 2 ≤ length ks
  | Internal ps cs _ _ => 2 ≤ length ps ∧ (len cs ≤ F + 1)%Z ∧ Forall (fan_ok F) cs
  end.

Lemma fan_split F ps cs :
  2 ≤ length ps ∧ (len cs ≤ F + 1)%Z ∧ Forall (fan_ok F) cs → length cs = S (length ps) →
  ∃ pl p pr cl cr, ps = pl ++ p :: pr ∧ cs = cl ++ cr ∧ 0 < length pl
    ∧ length pl = length ps / 2 ∧ length cl = S (length pl)
    ∧ fan_ok F (Internal pl cl [] false) ∧ fan_ok F (Internal pr cr [] false).
Proof.
  intros (Hps & Hcs & HF) Hlen.
  assert (1 ≤ length ps / 2 < length ps) as Hmid.
  { pose proof (Nat.div_lt (length ps) 2). pose proof (Nat.div_str_pos (length ps) 2). lia. }
  destruct (lookup_lt_is_Some_2 ps (length ps / 2)) as [p Hp]; [lia|].
  apply list_split_lookup in Hp as (pl & pr & E & Hpl).
  destruct (list_split_at cs (S (length pl))) as (cl & cr & E' & Hcl); [lia|].
  exists pl, p, pr, cl, cr. split_and!; try done; [lia|..];
    rewrite E' in HF, Hcs, Hlen; rewrite length_app in Hcs, Hlen; apply Forall_app in HF as [? ?];
    rewrite fan_ok_internal; (split; [|done]).
  - rewrite E, length_app in Hlen. simpl in Hlen. lia.
  - lia.
Qed.

(** The slice updates both splits end with. *)
Lemma insert_halves ps1 ps2 p L c R l r buf bs :
  length ps1 = length L →
  (ps ← Insert (ps1 ++ ps2) (length L) p;
   cs ← update (length L) l (L ++ c :: R);
   cs ← Insert cs (length L + 1) r;
   Some (Internal ps cs buf bs))
  = Some (Internal (ps1 ++ p :: ps2) (L ++ l :: r :: R) buf bs).
Proof.
  intros Hl. rewrite (Insert_app _ _ ps1), update_middle by done. cbn [mbind option_bind].
  rewrite (app_cons_assoc L l R), Insert_app by (rewrite length_app; simpl; lia).
  by rewrite <-app_assoc.
Qed.

(** Both splits replace the child by two halves, with a pivot between them. *)
Lemma splitLeafChild_spec P F ps1 ps2 L (es : list (K * V)) R buf bs :
  length ps1 = length L → ksorted compare fst es → Forall (λ p, P p.1) es → 2 ≤ length es →
  ∃ p lh rh, split_of compare P 0 F (Leaf es.*1 es.*2) p lh rh
    ∧ splitLeafChild (Internal (ps1 ++ ps2) (L ++ Leaf es.*1 es.*2 :: R) buf bs) (length L)
      = Some (Internal (ps1 ++ p :: ps2) (L ++ lh :: rh :: R) buf bs).
Proof.
  intros HL Hsl HPl Hsplit.
  destruct (split_leaf P F es Hsl HPl Hsplit) as (l1 & k0 & v0 & l2 & E & Hl1 & Hsp).
  eexists _, _, _. split; [exact Hsp|].
  unfold splitLeafChild. rewrite lookup_middle by done. cbn [mbind option_bind keys values].
  rewrite length_fmap, <-Hl1, E, !fmap_app.
  assert (length (l1 ++ (k0, v0) :: l2) = length l1 + S (length l2)) as Hlen' by (rewrite length_app; done).
  rewrite (slice_suffix l1.*1 _ (length l1)), (slice_suffix l1.*2 _ (length l1)),
    (slice_prefix l1.*1), (slice_prefix l1.*2)
    by (rewrite ?length_app, ?length_fmap; simpl; rewrite ?length_fmap; lia).
  cbn [mbind option_bind fmap list_fmap lookup list_lookup]. by apply insert_halves.
Qed.

Lemma splitInternalChild_spec P h F ps1 ps2 L cps ccs cbuf cbs R buf bs :
  let c := Internal cps ccs cbuf cbs in
  length ps1 = length L → wf_node compare P (S h) c → splittable F c →
  ∃ p lh rh, split_of compare P (S h) F c p lh rh
    ∧ splitInternalChild compare (Internal (ps1 ++ ps2) (L ++ c :: R) buf bs) (length L)
      = Some (Internal (ps1 ++ p :: ps2) (L ++ lh :: rh :: R) buf bs).
Proof.
  intros c HL Hwc Hsplit. subst c.
  apply fan_split in Hsplit as (pl & p & pr & cl & cr & -> & -> & Hpl & Hmid & Hcl & HF1 & HF2);
    [|by apply wf_internal_inv in Hwc as (? & ? & ? & ? & ? & _)].
  eexists _, _, _. split; [by eapply split_internal|].
  unfold splitInternalChild. rewrite lookup_middle by done.
  cbn [mbind option_bind pivots children buffer bufferSorted].
  rewrite <-Hmid, lookup_middle by done. cbn [mbind option_bind].
  rewrite (app_cons_assoc pl p pr) at 1 2.
  assert (length (pl ++ p :: pr) = length pl + S (length pr)) as Hlen' by (rewrite length_app; done).
  rewrite (slice_suffix (pl ++ [p]) _ (length pl + 1)), (slice_suffix cl _ (length pl + 1)),
    (slice_prefix pl), (slice_prefix cl)
    by (rewrite ?length_app; simpl; lia).
  cbn [mbind option_bind]. by apply insert_halves.
Qed.

Lemma splitChild_cut P h F ps1 ps2 L c R buf bs :
  length ps1 = length L → wf_node compare P h c → splittable F c →
  ∃ p l r, split_of compare P h F c p l r
    ∧ splitChild compare (Internal (ps1 ++ ps2) (L ++ c :: R) buf bs) (length L)
      = Some (Internal (ps1 ++ p :: ps2) (L ++ l :: r :: R) buf bs).
Proof.
  intros HL Hwc Hsplit. unfold splitChild. cbn [children]. rewrite lookup_middle by done.
  cbn [mbind option_bind]. destruct c as [ks vs|cps ccs cbuf cbs]; cbn [leaf].
  - apply wf_leaf_inv in Hwc as (l & -> & -> & -> & Hsl & HPl).
    apply splitLeafChild_spec; try done. cbn [splittable] in Hsplit. by rewrite length_fmap in Hsplit.
  - destruct h as [|h]; [by inversion Hwc|]. by apply splitInternalChild_spec.
Qed.

Lemma splitChild_spec P h F ps L c R buf bs :
  let n := Internal ps (L ++ c :: R) buf bs in
  wf_node compare P (S h) n → (2 ≤ F)%Z → splittable F c →
  Forall (fan_ok F) L → Forall (fan_ok F) R →
  ∃ ps' cs', splitChild compare n (length L) = Some (Internal ps' cs' buf bs)
    ∧ wf_node compare P (S h) (Internal ps' cs' buf bs)
    ∧ same_contents compare n (Internal ps' cs' buf bs)
    ∧ balance (Internal ps' cs' buf bs) = balance n
    ∧ pending (Internal ps' cs' buf bs) = pending n
    ∧ length cs' = S (length (L ++ c :: R)) ∧ Forall (fan_ok F) cs'.
Proof.
  intros n Hwf HF Hsplit HfL HfR.
  pose proof Hwf as (h' & [= <-] & _ & _ & Hlen & _ & _ & _ & Hcs)%wf_internal_inv.
  destruct (list_split_at ps (length L)) as (ps1 & ps2 & -> & Hps1).
  { rewrite length_app in Hlen. simpl in Hlen. lia. }
  assert (wf_node compare (λ k, P k ∧ child_ix compare (ps1 ++ ps2) k = length ps1) h c) as Hwc.
  { rewrite Hps1. apply Hcs. by apply lookup_middle. }
  destruct (splitChild_cut _ h F ps1 ps2 L c R buf bs Hps1 Hwc Hsplit) as (p & l & r & Hsp & E).
  destruct (insert_split P h F ps1 ps2 L c R p l r buf bs) as (H1 & H2 & H3 & H4); [done..|].
  exists (ps1 ++ p :: ps2), (L ++ l :: r :: R). split_and!; try done.
  - rewrite !length_app. simpl. lia.
  - destruct (sp_fan _ _ _ _ _ _ _ _ Hsp). apply Forall_app. split; [done|]. by repeat constructor.
Qed.

End parent.

(** ** Partitioning a buffer by child *)

Section buckets.
Context {K V : Type} {compare : K → K → Z} {HC : Comparator compare}.
Implicit Types (ps : list K) (cs : list (node K V)) (buf : list (Message K V)).

(** The messages of [buf] that route to child [i]. *)
Definition bucket_at ps (i : nat) buf : list (Message K V) :=
  filter (λ m, child_ix compare ps (Key m) = i) buf.
(** The messages that stay when bucket [hv] is flushed. *)
Definition kept ps (hv : nat) buf : list (Message K V) :=
  concat ((λ i, bucket_at ps i buf) <$> filter (λ i, i ≠ hv) (seq 0 (S (length ps)))).

Lemma bucket_at_snoc ps i buf m :
  bucket_at ps i (buf ++ [m])
  = bucket_at ps i buf ++ (if decide (child_ix compare ps (Key m) = i) then [m] else []).
Proof. unfold bucket_at. rewrite filter_app, filter_cons. by case_decide. Qed.

Lemma fill_bucket_spec ps cs buf0 nbuf bs m :
  ksorted compare id ps →
  fill_bucket compare (Internal ps cs nbuf bs)
    ((λ i, bucket_at ps i buf0) <$> seq 0 (S (length ps))) m
  = Some ((λ i, bucket_at ps i (buf0 ++ [m])) <$> seq 0 (S (length ps))).
Proof.
  intros Hs. unfold fill_bucket. rewrite findChildIndex_spec by done. cbn [pivots mbind option_bind].
  set (ix := child_ix compare ps (Key m)).
  assert (ix < S (length ps)) as Hix by (pose proof (child_ix_le (compare := compare) ps (Key m)); lia).
  rewrite list_lookup_fmap, lookup_seq_lt by done. cbn [fmap option_fmap option_map mbind option_bind].
  rewrite update_Some by (rewrite length_fmap, length_seq; done). f_equal.
  apply list_eq. intros i. destruct (decide (i = ix)) as [->|Hne].
  - rewrite list_lookup_insert_eq by (rewrite length_fmap, length_seq; done).
    rewrite list_lookup_fmap, lookup_seq_lt by done. cbn [fmap option_fmap option_map].
    f_equal. rewrite bucket_at_snoc. fold ix. by rewrite decide_True.
  - rewrite list_lookup_insert_ne by done. rewrite !list_lookup_fmap.
    destruct (seq 0 (S (length ps)) !! i) as [j|] eqn:E; [|done].
    apply lookup_seq in E as [-> _]. simpl. rewrite bucket_at_snoc. fold ix.
    rewrite decide_False by (simpl; lia). by rewrite app_nil_r.
Qed.

Lemma fill_buckets_spec ps cs buf0 buf nbuf bs :
  ksorted compare id ps →
  foldM (fill_bucket compare (Internal ps cs nbuf bs))
    ((λ i, bucket_at ps i buf0) <$> seq 0 (S (length ps))) buf
  = Some ((λ i, bucket_at ps i (buf0 ++ buf)) <$> seq 0 (S (length ps))).
Proof.
  intros Hs. revert buf0. induction buf as [|m buf IH]; intros buf0; cbn [foldM].
  { by rewrite app_nil_r. }
  rewrite fill_bucket_spec by done. cbn [mbind option_bind].
  rewrite IH. by rewrite <-app_assoc.
Qed.

Lemma pick_heaviest_spec {A} (bs : list (list A)) :
  0 < length bs →
  ∃ hv bh, foldM (pick_heavier bs) 0 (seq 1 (length bs - 1)) = Some hv ∧ bs !! hv = Some bh
           ∧ ∀ i b, bs !! i = Some b → length b ≤ length bh.
Proof.
  intros Hl. destruct (lookup_lt_is_Some_2 bs 0 Hl) as [b0 Hb0].
  assert (∀ n a h bh, a + n = length bs → bs !! h = Some bh →
            (∀ i b, i < a → bs !! i = Some b → length b ≤ length bh) →
            ∃ hv bh, foldM (pick_heavier bs) h (seq a n) = Some hv ∧ bs !! hv = Some bh
              ∧ ∀ i b, bs !! i = Some b → length b ≤ length bh) as Hgen.
  { induction n as [|n IH]; intros a h bh Ha Hh Hmax; cbn [seq foldM].
    - exists h, bh. split_and!; try done. intros i b Hi. eapply Hmax; [|done].
      apply lookup_lt_Some in Hi. lia.
    - destruct (lookup_lt_is_Some_2 bs a) as [ba Hba]; [lia|].
      assert (pick_heavier bs h a = Some (if decide (length bh < length ba) then a else h)) as ->
        by (unfold pick_heavier; rewrite Hba, Hh; done).
      cbn [mbind option_bind]. destruct (decide (length bh < length ba)).
      + eapply (IH (S a) a ba); [lia|done|]. intros i b Hi Hib.
        destruct (decide (i = a)) as [->|Hne]; [simplify_eq; lia|].
        specialize (Hmax i b ltac:(lia) Hib). lia.
      + eapply (IH (S a) h bh); [lia|done|]. intros i b Hi Hib.
        destruct (decide (i = a)) as [->|Hne]; [simplify_eq; lia|]. apply (Hmax i b); [lia|done]. }
  apply (Hgen _ 1 0 b0); [lia|done|]. intros i b Hi Hib. assert (i = 0) as -> by lia. by simplify_eq.
Qed.

(** The in-place compaction keeps the other buckets, in child order. *)
Lemma keep_buckets_spec {A} hv (f : nat → list A) ixs front back :
  length (concat (f <$> filter (λ i, i ≠ hv) ixs)) ≤ length back →
  ∃ back', foldM (keep_bucket hv) (front ++ back, length front) (zip ixs (f <$> ixs))
    = Some ((front ++ concat (f <$> filter (λ i, i ≠ hv) ixs)) ++ back',
            length (front ++ concat (f <$> filter (λ i, i ≠ hv) ixs))).
Proof.
  revert front back. induction ixs as [|i ixs IH]; intros front back Hl; cbn [fmap list_fmap zip foldM].
  { exists back. by rewrite app_nil_r. }
  rewrite filter_cons in *. destruct (decide (i = hv)) as [->|Hne].
  { rewrite decide_False in * by (by intros []).
    assert (keep_bucket hv (front ++ back, length front) (hv, f hv)
            = Some (front ++ back, length front)) as ->
      by (unfold keep_bucket; by rewrite decide_True).
    cbn [mbind option_bind]. apply (IH front back Hl). }
  rewrite decide_True in * by done. cbn [fmap list_fmap concat] in *. rewrite length_app in Hl.
  destruct (list_split_at back (length (f i))) as (b1 & b2 & -> & Hb1); [lia|].
  rewrite length_app in Hl.
  assert (keep_bucket hv (front ++ b1 ++ b2, length front) (i, f i)
          = Some ((front ++ f i) ++ b2, length (front ++ f i))) as ->.
  { unfold keep_bucket. rewrite decide_False by done. unfold copy_range. rewrite decide_True by (rewrite !length_app; lia).
    cbn [mbind option_bind]. f_equal. f_equal; [|rewrite !length_app; lia].
    rewrite take_app_length, <-app_assoc. f_equal. rewrite !length_app, take_ge by lia.
    f_equal. rewrite drop_app_ge, drop_app_ge by lia.
    replace (_ - _ - _) with 0 by lia. done. }
  cbn [mbind option_bind]. destruct (IH (front ++ f i) b2) as (back' & ->); [lia|]. exists back'. by rewrite !app_assoc.
Qed.

Lemma for_key_bucket ps k i buf :
  for_key compare k (bucket_at ps i buf)
  = if decide (child_ix compare ps k = i) then for_key compare k buf else [].
Proof.
  unfold for_key, bucket_at. rewrite list_filter_filter. case_decide as Hi.
  - apply filter_iff. intros m _. split; [tauto|]. intros E. split; [done|].
    rewrite <-Hi. by apply child_ix_Proper.
  - apply filter_none, Forall_forall. intros m _ [E Hm]. apply Hi. rewrite <-Hm.
    symmetry. by apply child_ix_Proper.
Qed.

Lemma for_key_concat ps k ixs buf :
  NoDup ixs →
  for_key compare k (concat ((λ i, bucket_at ps i buf) <$> ixs))
  = if decide (child_ix compare ps k ∈ ixs) then for_key compare k buf else [].
Proof.
  induction 1 as [|i ixs Hi Hnd IH]; cbn [fmap list_fmap concat].
  { by rewrite decide_False by apply not_elem_of_nil. }
  rewrite for_key_app, for_key_bucket, IH. set (ix := child_ix compare ps k).
  destruct (decide (ix = i)) as [->|Hne].
  - rewrite (decide_True (P := i ∈ i :: ixs)) by left.
    rewrite decide_False by done. by rewrite app_nil_r.
  - rewrite app_nil_l. destruct (decide (ix ∈ ixs)).
    + by rewrite decide_True by (by right).
    + rewrite decide_False; [done|]. by intros [->|?]%elem_of_cons.
Qed.

Lemma kept_indices hv n i : i ∈ filter (λ i, i ≠ hv) (seq 0 n) ↔ i ≠ hv ∧ i < n.
Proof. rewrite list_elem_of_filter, elem_of_seq. lia. Qed.

Lemma for_key_kept ps hv k buf :
  for_key compare k (kept ps hv buf)
  = if decide (child_ix compare ps k = hv) then [] else for_key compare k buf.
Proof.
  unfold kept. rewrite for_key_concat by apply NoDup_filter, NoDup_seq.
  pose proof (child_ix_le (compare := compare) ps k).
  destruct (decide (child_ix compare ps k = hv)) as [E|Hne].
  - rewrite decide_False; [done|]. rewrite kept_indices. tauto.
  - rewrite decide_True; [done|]. rewrite kept_indices. lia.
Qed.

Lemma concat_buckets ps ixs buf :
  NoDup ixs →
  concat ((λ i, bucket_at ps i buf) <$> ixs) ≡ₚ filter (λ m, child_ix compare ps (Key m) ∈ ixs) buf.
Proof.
  induction 1 as [|i ixs Hi Hnd IH]; cbn [fmap list_fmap concat].
  { rewrite filter_none; [done|]. apply Forall_forall. intros m _. apply not_elem_of_nil. }
  rewrite IH, <-(filter_app_complement (λ m, child_ix compare ps (Key m) = i)
                   (filter (λ m, _ ∈ i :: ixs) buf)), !list_filter_filter.
  apply reflexive_eq. f_equal; apply filter_iff; intros m _; rewrite elem_of_cons.
  - tauto.
  - split; [|tauto]. intros Hm. split; [intros E; by rewrite E in Hm|by right].
Qed.

(** No message is lost or duplicated. *)
Lemma kept_Permutation ps hv buf : kept ps hv buf ++ bucket_at ps hv buf ≡ₚ buf.
Proof.
  unfold kept. rewrite concat_buckets by apply NoDup_filter, NoDup_seq.
  rewrite <-(filter_app_complement (λ m, child_ix compare ps (Key m) = hv) buf) at 3.
  rewrite (Permutation_app_comm (filter _ buf)). apply reflexive_eq. unfold bucket_at. f_equal.
  apply filter_iff. intros m _. rewrite kept_indices.
  pose proof (child_ix_le (compare := compare) ps (Key m)). lia.
Qed.

(** The buckets together hold the buffer, so a heaviest one holds at least its
    share. *)
Lemma heaviest_share ps hv buf :
  (∀ i, i < S (length ps) → length (bucket_at ps i buf) ≤ length (bucket_at ps hv buf)) →
  length buf ≤ S (length ps) * length (bucket_at ps hv buf).
Proof.
  intros Hmax. set (ixs := seq 0 (S (length ps))).
  assert (filter (λ m, child_ix compare ps (Key m) ∈ ixs) buf = buf) as Eall.
  { apply filter_all, Forall_forall. intros m _. apply elem_of_seq.
    pose proof (child_ix_le (compare := compare) ps (Key m)). lia. }
  pose proof (concat_buckets ps ixs buf (NoDup_seq _ _)) as Hp. rewrite Eall in Hp.
  rewrite <-(Permutation_length Hp).
  assert (length ixs = S (length ps)) as <- by apply length_seq.
  assert (∀ i, i ∈ ixs → length (bucket_at ps i buf) ≤ length (bucket_at ps hv buf)) as Hle.
  { intros i Hi. apply Hmax. apply elem_of_seq in Hi. lia. }
  clear -Hle. induction ixs as [|i ixs IH]; [done|].
  cbn [fmap list_fmap concat length]. rewrite length_app.
  assert (length (bucket_at ps i buf) ≤ length (bucket_at ps hv buf)) by (apply Hle; left).
  enough (length (concat ((λ i, bucket_at ps i buf) <$> ixs))
          ≤ length ixs * length (bucket_at ps hv buf)) by lia.
  apply IH. intros j Hj. apply Hle. by right.
Qed.

(** The three loops at the head of [flushNode]. *)
Lemma partition_spec ps cs buf bs :
  ksorted compare id ps → length cs = S (length ps) →
  ∃ buckets hv back,
    foldM (fill_bucket compare (Internal ps cs buf bs)) (replicate (length cs) []) buf = Some buckets
    ∧ foldM (pick_heavier buckets) 0 (seq 1 (length cs - 1)) = Some hv
    ∧ foldM (keep_bucket hv) (buf, 0) (zip (seq 0 (length cs)) buckets)
      = Some (kept ps hv buf ++ back, length (kept ps hv buf))
    ∧ buckets !! hv = Some (bucket_at ps hv buf) ∧ hv < length cs
    ∧ ∀ i, i < length cs → length (bucket_at ps i buf) ≤ length (bucket_at ps hv buf).
Proof.
  intros Hs Hlen. set (f := λ i, bucket_at ps i buf).
  assert (foldM (fill_bucket compare (Internal ps cs buf bs)) (replicate (length cs) []) buf
          = Some (f <$> seq 0 (length cs))) as Hfill.
  { rewrite Hlen. etransitivity; [|by apply (fill_buckets_spec ps cs [] buf)]. f_equal.
    apply list_eq. intros i. rewrite list_lookup_fmap. destruct (decide (i < S (length ps))).
    - by rewrite lookup_replicate_2, lookup_seq_lt by done.
    - by rewrite lookup_ge_None_2, lookup_seq_ge by (rewrite ?length_replicate; lia). }
  assert (∀ i, i < length cs → (f <$> seq 0 (length cs)) !! i = Some (f i)) as Hf.
  { intros i Hi. by rewrite list_lookup_fmap, lookup_seq_lt. }
  destruct (pick_heaviest_spec (f <$> seq 0 (length cs))) as (hv & bh & Hhv & Hbh & Hmax).
  { rewrite length_fmap, length_seq. lia. }
  rewrite length_fmap, length_seq in Hhv. pose proof (lookup_lt_Some _ _ _ Hbh) as Hlt.
  rewrite length_fmap, length_seq in Hlt. rewrite Hf in Hbh by done. injection Hbh as <-.
  destruct (keep_buckets_spec hv f (seq 0 (length cs)) [] buf) as [back Hback].
  { pose proof (Permutation_length (kept_Permutation ps hv buf)) as Hk.
    rewrite length_app in Hk. unfold kept in Hk. rewrite Hlen. fold f in Hk. lia. }
  exists (f <$> seq 0 (length cs)), hv, back. split_and!; try done.
  - rewrite app_nil_l in Hback. unfold kept. fold f. rewrite <-Hlen. exact Hback.
  - by apply Hf.
  - intros i Hi. eapply Hmax. by apply Hf.
Qed.

End buckets.

(** ** One flush step *)

(** [c'] is the child [c] after it took the messages [bucket]. *)
Record absorbed {K V} (compare : K → K → Z) (P : K → Prop) (h : nat) (c : node K V)
    (bucket : list (Message K V)) (c' : node K V) : Prop := {
  ab_wf : wf_node compare P h c';
  ab_den k : den compare c' k = run compare k bucket (den compare c k);
  ab_path Q `{!PathInv Q} k :
    Q (den compare c k) (for_key compare k bucket) → on_path compare Q c k → on_path compare Q c' k
}.

(** The result of flushing [n]. *)
Record flushed {K V} (t : BETree K V) (P : K → Prop) (h : nat) (n : node K V)
    (t' : BETree K V) (n' : node K V) : Prop := {
  fl_wf : wf_node (cmp t) P h n';
  fl_same : same_contents (cmp t) n n';
  fl_tree : t' = adjust t (balance n' - balance n) (pending n' - pending n);
  fl_leaf : leaf n' = leaf n;
  fl_children : length (children n') ≤ S (length (children n));
  fl_fan : Forall (fan_ok (fanout (params t))) (children n')
}.

(** The greedy choice: the messages that left the buffer of [n] form a bucket
    that no other child's bucket exceeds. *)
Definition greedy {K V} (compare : K → K → Z) (n n' : node K V) : Prop :=
  buffer n ≠ [] → ∃ hv, hv < length (children n)
    ∧ buffer n' = kept (compare := compare) (pivots n) hv (buffer n)
    ∧ ∀ i, i < length (children n) →
        length (bucket_at (compare := compare) (pivots n) i (buffer n))
        ≤ length (bucket_at (compare := compare) (pivots n) hv (buffer n)).

Section flush.
Context {K V : Type} {compare : K → K → Z} {HC : Comparator compare}.
Implicit Types (n c : node K V) (ps : list K) (cs L R : list (node K V)).
Implicit Types (P : K → Prop) (buf bucket : list (Message K V)).

#[export] Instance same_contents_PreOrder : PreOrder (@same_contents K V compare).
Proof.
  split.
  - intros n. by split.
  - intros n1 n2 n3 [D1 Q1] [D2 Q2]. split.
    + intros k. by rewrite D2.
    + intros Q HQ k H. by apply Q2, Q1.
Qed.

(** A child that absorbs a bucket, in its parent. *)
Lemma absorb_child P h ps L c c' R buf bs :
  let n := Internal ps (L ++ c :: R) buf bs in
  let bucket := bucket_at (compare := compare) ps (length L) buf in
  let n' := Internal ps (L ++ c' :: R) (kept (compare := compare) ps (length L) buf) false in
  wf_node compare P (S h) n →
  absorbed compare (λ k, P k ∧ child_ix compare ps k = length L) h c bucket c' →
  wf_node compare P (S h) n' ∧ same_contents compare n n'
  ∧ balance n' = (balance n + balance c' - balance c - sum_of msg_delta bucket)%Z
  ∧ pending n' = (pending n + pending c' - pending c - sum_of is_delete bucket)%Z.
Proof.
  intros n bucket n' Hwf [Hwc Hden Hpath].
  pose proof Hwf as (h' & [= <-] & Hs & HPp & Hlen & Hw & HPb & Hbs & Hcs)%wf_internal_inv.
  pose proof (kept_Permutation (compare := compare) ps (length L) buf) as Hperm. fold bucket in Hperm.
  set (keep := kept (compare := compare) ps (length L) buf) in *.
  assert (∀ m, m ∈ keep → m ∈ buf) as Hsub.
  { intros m Hm. rewrite <-Hperm. apply elem_of_app. by left. }
  unfold n, n'. split_and!.
  - constructor; try done.
    + rewrite length_app in *. done.
    + rewrite Forall_forall in Hw |- *. auto.
    + rewrite Forall_forall in HPb |- *. auto.
    + intros i d. rewrite (lookup_replace L c). case_decide as Hi; [intros [= <-]; by rewrite Hi|by apply Hcs].
  - apply same_contents_internal; [done|]. intros k d Hd. rewrite (lookup_replace L c).
    pose proof (for_key_kept (compare := compare) ps (length L) k buf) as Hk. fold keep in Hk.
    pose proof (for_key_bucket (compare := compare) ps k (length L) buf) as Hb. fold bucket in Hb.
    unfold run. rewrite Hk. case_decide as Hix.
    + exists c'. rewrite Hix, list_lookup_middle in Hd by done. injection Hd as <-.
      split; [done|]. split; [rewrite Hden; unfold run; by rewrite Hb|].
      intros Q HQ HQb Hp. split; [apply path_nil|]. apply Hpath; [done|by rewrite Hb|done].
    + by exists d.
  - rewrite !balance_internal, !sum_of_middle, <-(sum_of_Permutation msg_delta _ _ Hperm), sum_of_app.
    lia.
  - rewrite !pending_internal, !sum_of_middle, <-(sum_of_Permutation is_delete _ _ Hperm), sum_of_app.
    lia.
Qed.

(** Appending a bucket to a child's buffer. *)
Lemma absorb_append P h cps ccs cbuf cbs bucket :
  wf_node compare P h (Internal cps ccs cbuf cbs) →
  Forall wf_msg bucket → Forall (λ m, P (Key m)) bucket →
  absorbed compare P h (Internal cps ccs cbuf cbs) bucket (Internal cps ccs (cbuf ++ bucket) false).
Proof.
  intros (h' & -> & Hs & HPp & Hlen & Hw & HPb & Hbs & Hcs)%wf_internal_inv Hwb HPb'. split.
  - constructor; try done; by apply Forall_app.
  - intros k. destruct (routed_child (compare := compare) cps ccs k Hlen) as [d Hd].
    erewrite !den_internal by exact Hd. apply run_app.
  - intros Q HQ k. destruct (routed_child (compare := compare) cps ccs k Hlen) as [d Hd].
    erewrite !on_path_internal, den_internal by exact Hd. rewrite for_key_app, path_app.
    unfold run. tauto.
Qed.

Lemma absorb_trans P h c bucket c1 c2 :
  absorbed compare P h c bucket c1 → same_contents compare c1 c2 → wf_node compare P h c2 →
  absorbed compare P h c bucket c2.
Proof.
  intros [Hw Hd Hp] [Hd' Hp'] Hw'. split; [done|..].
  - intros k. by rewrite Hd'.
  - intros Q HQ k H1 H2. apply Hp'; [done|]. by apply Hp.
Qed.

End flush.

(** ** flushNode *)

Section flushNode.
Context {K V : Type}.
Implicit Types (t : BETree K V) (n c : node K V) (ps : list K) (cs L R : list (node K V)).
Implicit Types (P : K → Prop) (buf bucket : list (Message K V)).

Lemma flushed_refl t P h n :
  wf_node (cmp t) P h n → Forall (fan_ok (fanout (params t))) (children n) → flushed t P h n t n.
Proof. intros. split; try done; [by symmetry; apply adjust_0; lia|lia]. Qed.

(** The split at the end of [flushNode]. *)
Lemma settle_child t t1 P h ps L c' R buf buf' bs (big : Prop) `{!Decision big} cs :
  let n := Internal ps cs buf bs in
  let n1 := Internal ps (L ++ c' :: R) buf' false in
  Comparator (cmp t) → (2 ≤ fanout (params t))%Z →
  wf_node (cmp t) P (S h) n1 → same_contents (cmp t) n n1 →
  length (L ++ c' :: R) = length cs →
  t1 = adjust t (balance n1 - balance n) (pending n1 - pending n) →
  (big → splittable (fanout (params t)) c') → (¬ big → fan_ok (fanout (params t)) c') →
  Forall (fan_ok (fanout (params t))) L → Forall (fan_ok (fanout (params t))) R →
  ∃ n', (if decide big then n' ← splitChild (cmp t1) n1 (length L); Some (t1, n')
         else Some (t1, n1)) = Some (t1, n')
        ∧ flushed t P (S h) n t1 n' ∧ buffer n' = buf'.
Proof.
  intros n n1 HC HF Hwf Hsame Hlen Ht1 Hbig Hsmall HL HR.
  destruct (decide big) as [Hb|Hb].
  - assert (cmp t1 = cmp t) as -> by (by rewrite Ht1).
    destruct (splitChild_spec (compare := cmp t) P h (fanout (params t)) ps L c' R buf' false)
      as (ps' & cs' & E & Hwf' & Hsame' & Hbal & Hpend & Hlen' & Hfan); [by auto..|].
    fold n1 in E. rewrite E. cbn [mbind option_bind].
    exists (Internal ps' cs' buf' false). split; [done|]. split; [|done]. split.
    + done.
    + by etransitivity.
    + by rewrite Hbal, Hpend.
    + done.
    + cbn [children]. unfold n. cbn [children]. lia.
    + done.
  - exists n1. split; [done|]. split; [|done]. split; try done.
    + unfold n1, n. cbn [children]. lia.
    + cbn [children]. apply Forall_app. split; [done|]. constructor; auto.
Qed.

Lemma absorb_leaf t P l bucket :
  Comparator (cmp t) →
  ksorted (cmp t) fst l → Forall (λ p, P p.1) l →
  Forall wf_msg bucket → Forall (λ m, P (Key m)) bucket →
  (∀ k, P k → dels_ok (alookup (cmp t) k l) (for_key (cmp t) k bucket)) →
  ∃ t1 ks vs, applyToLeaf t (Leaf l.*1 l.*2) bucket = Some (t1, Leaf ks vs)
    ∧ absorbed (cmp t) P 0 (Leaf l.*1 l.*2) bucket (Leaf ks vs)
    ∧ t1 = adjust t (len ks - len l - sum_of msg_delta bucket) (- sum_of is_delete bucket)
    ∧ (len ks ≤ len l + sum_of msg_writes bucket)%Z.
Proof.
  intros HC Hs HP Hw HPb Hd.
  destruct (applyToLeaf_spec t P l bucket) as (l' & t1 & E & Hres); try done.
  { intros k. destruct (for_key (cmp t) k bucket) as [|m ms] eqn:Em; [done|].
    assert (m ∈ for_key (cmp t) k bucket) as [Hk Hm]%list_elem_of_filter by (rewrite Em; left).
    rewrite <-Em. assert (keq (cmp t) (Key m) k) as Hkeq by done. rewrite <-Hkeq.
    apply Hd. rewrite Forall_forall in HPb. by apply HPb. }
  pose proof (leaf_result_grows t _ _ _ _ _ _ Hres) as Hgrow. destruct Hres as [_ Hs' HP' Hl' Ht1].
  exists t1, l'.*1, l'.*2. rewrite length_fmap. split_and!; [done| |done|done].
  split; [by constructor| |done]. intros k. cbn [den]. by rewrite !zip_fst_snd.
Qed.

(** The bucket of child [c]: well-formed messages in the range of [c], each delete
    for a key that is live when it is played. *)
Lemma bucket_facts t P h ps L c R buf bs :
  let P' k := P k ∧ child_ix (cmp t) ps k = length L in
  let bucket := bucket_at (compare := cmp t) ps (length L) buf in
  Comparator (cmp t) → wf_node (cmp t) P (S h) (Internal ps (L ++ c :: R) buf bs) →
  (∀ k, P k → on_path (cmp t) dels_ok (Internal ps (L ++ c :: R) buf bs) k) →
  wf_node (cmp t) P' h c ∧ Forall wf_msg bucket ∧ Forall (λ m, P' (Key m)) bucket
  ∧ ∀ k, P' k → dels_ok (den (cmp t) c k) (for_key (cmp t) k bucket) ∧ on_path (cmp t) dels_ok c k.
Proof.
  intros P' bucket HC (h' & [= <-] & _ & _ & _ & Hw & HPb & _ & Hcs)%wf_internal_inv Hpath.
  split_and!.
  - by apply Hcs, lookup_middle.
  - by apply Forall_filter_sub.
  - apply Forall_forall. intros m [? Hm]%list_elem_of_filter. rewrite Forall_forall in HPb.
    split; [by apply HPb|done].
  - intros k [HPk Hk]. specialize (Hpath k HPk). unfold bucket.
    rewrite for_key_bucket, decide_True by done.
    erewrite on_path_internal in Hpath by (rewrite Hk; by apply lookup_middle). done.
Qed.

(** The end of [flushNode], once the child holds the heaviest bucket: [c1] replaces
    [c] and is split if it is too [big]. *)
Lemma finish_flush t t1 P h ps L c c1 R buf bs (big : Prop) `{!Decision big} :
  let n := Internal ps (L ++ c :: R) buf bs in
  let bucket i := bucket_at (compare := cmp t) ps i buf in
  let n1 := Internal ps (L ++ c1 :: R) (kept (compare := cmp t) ps (length L) buf) false in
  Comparator (cmp t) → (2 ≤ fanout (params t))%Z → wf_node (cmp t) P (S h) n →
  Forall (fan_ok (fanout (params t))) L → Forall (fan_ok (fanout (params t))) R →
  (∀ i, i < length (L ++ c :: R) → length (bucket i) ≤ length (bucket (length L))) →
  absorbed (cmp t) (λ k, P k ∧ child_ix (cmp t) ps k = length L) h c (bucket (length L)) c1 →
  t1 = adjust t (balance c1 - balance c - sum_of msg_delta (bucket (length L)))
         (pending c1 - pending c - sum_of is_delete (bucket (length L))) →
  (big → splittable (fanout (params t)) c1) → (¬ big → fan_ok (fanout (params t)) c1) →
  ∃ t' n', (if decide big then n' ← splitChild (cmp t1) n1 (length L); Some (t1, n')
            else Some (t1, n1)) = Some (t', n')
    ∧ flushed t P (S h) n t' n' ∧ greedy (cmp t) n n'.
Proof.
  intros n bucket n1 HC HF Hwf HfL HfR Hmax Habs Ht1 Hb1 Hb2.
  destruct (absorb_child P h ps L c c1 R buf bs Hwf Habs) as (Hw1 & Hsame & Hbal & Hpend).
  destruct (settle_child t t1 P h ps L c1 R buf (kept (compare := cmp t) ps (length L) buf) bs
              big (L ++ c :: R)) as (n' & E & Hfl & Hbuf); try done.
  - by rewrite !length_app.
  - rewrite Ht1, Hbal, Hpend. unfold bucket. apply adjust_eq; lia.
  - exists t1, n'. split; [done|]. split; [done|]. intros _. exists (length L).
    split; [cbn [children n]; rewrite length_app; simpl; lia|done].
Qed.

(** An internal child takes its bucket and is flushed itself when over capacity. *)
Lemma flush_child t P h c0 bucket c (over : Prop) `{!Decision over} res :
  Comparator (cmp t) → absorbed (cmp t) P h c bucket c0 →
  balance c0 = (balance c + sum_of msg_delta bucket)%Z →
  pending c0 = (pending c + sum_of is_delete bucket)%Z →
  Forall (fan_ok (fanout (params t))) (children c0) →
  (over → ∃ t1 c1, res = Some (t1, c1) ∧ flushed t P h c0 t1 c1) →
  ∃ t1 c1, (if decide over then res else Some (t, c0)) = Some (t1, c1)
    ∧ absorbed (cmp t) P h c bucket c1 ∧ wf_node (cmp t) P h c1 ∧ leaf c1 = leaf c0
    ∧ t1 = adjust t (balance c1 - balance c - sum_of msg_delta bucket)
             (pending c1 - pending c - sum_of is_delete bucket)
    ∧ length (children c1) ≤ S (length (children c0))
    ∧ Forall (fan_ok (fanout (params t))) (children c1).
Proof.
  intros HC Habs Hbal Hpend Hfan Hres.
  assert (∃ t1 c1, (if decide over then res else Some (t, c0)) = Some (t1, c1)
            ∧ flushed t P h c0 t1 c1) as (t1 & c1 & E & [Fw Fs Ft Fl Fc Ff]).
  { case_decide; [by apply Hres|]. exists t, c0. split; [done|].
    apply flushed_refl; [apply Habs|done]. }
  exists t1, c1. split_and!; try done.
  - by eapply absorb_trans.
  - rewrite Ft, Hbal, Hpend. apply adjust_eq; lia.
Qed.

Lemma flushNode_fuel_spec fuel t P h n :
  Comparator (cmp t) → params_ok (params t) → wf_node (cmp t) P h n → h < fuel →
  fan_ok (fanout (params t)) n → (∀ k, P k → on_path (cmp t) dels_ok n k) →
  ∃ t' n', flushNode_fuel fuel t n = Some (t', n') ∧ flushed t P h n t' n' ∧ greedy (cmp t) n n'.
Proof.
  intros HC Hpar. revert t P h n HC Hpar.
  induction fuel as [|fuel IH]; intros t P h n HC Hpar Hwf Hh Hfan Hpath; [lia|].
  pose proof Hpar as (HF & _ & HLc).
  destruct n as [ks vs|ps cs buf bs]; cbn [flushNode_fuel].
  { exists t, (Leaf ks vs). split; [done|]. split; [by apply flushed_refl|by intros []]. }
  apply fan_ok_internal in Hfan as [_ Hfan].
  destruct (decide (length buf = 0)) as [Hnil|_].
  { exists t, (Internal ps cs buf bs). split; [done|]. split; [by apply flushed_refl|].
    destruct buf; [by intros []|done]. }
  pose proof Hwf as (h' & -> & Hs & _ & Hlen & _)%wf_internal_inv.
  destruct (partition_spec (compare := cmp t) ps cs buf bs Hs Hlen)
    as (buckets & hv & back & E1 & E2 & E3 & E4 & Hhv & Hmax).
  cbv zeta. rewrite E1. cbn [mbind option_bind]. rewrite E2. cbn [mbind option_bind].
  rewrite E3. cbn [mbind option_bind]. rewrite slice_prefix by done. cbn [mbind option_bind].
  destruct (lookup_lt_is_Some_2 cs hv Hhv) as [c Hc]. rewrite Hc, E4. cbn [mbind option_bind].
  apply list_split_lookup in Hc as (L & R & Ecs & <-). subst cs.
  set (P' := λ k, P k ∧ child_ix (cmp t) ps k = length L).
  destruct (bucket_facts t P h' ps L c R buf bs HC Hwf Hpath) as (Hwc & Hwb & HPb & Hpc).
  apply Forall_app in Hfan as [HfL [Hfc HfR]%Forall_cons].
  destruct c as [ks vs|cps ccs cbuf cbs].
  - apply wf_leaf_inv in Hwc as (l & -> & -> & -> & Hsl & HPl).
    destruct (absorb_leaf t P' l _ HC Hsl HPl Hwb HPb) as (t1 & ks & vs & E & Habs & Ht1 & _).
    { intros k Hk. destruct (Hpc k Hk) as [Hd _]. cbn [den] in Hd. by rewrite zip_fst_snd in Hd. }
    rewrite E. cbn [mbind option_bind]. rewrite update_middle by done. cbn [mbind option_bind].
    assert (params t1 = params t) as -> by (by rewrite Ht1).
    eapply finish_flush; try done.
    + rewrite Ht1. cbn [balance pending]. rewrite length_fmap. apply adjust_eq; lia.
    + cbn [splittable keys]. lia.
  - apply fan_ok_internal in Hfc as [Hlc Hfc].
    pose proof (absorb_append (compare := cmp t) P' h' cps ccs cbuf cbs _ Hwc Hwb HPb) as Happ.
    set (c0 := Internal cps ccs (cbuf ++ _) false) in *.
    destruct (flush_child t P' h' c0 _ _ (bufferCap (params t) < len (buffer c0))%Z
                (flushNode_fuel fuel t c0) HC Happ)
      as (t1 & c1 & E & Habs & Hw1 & Fl & Ft & Fc & Ff); [| |done|..].
    { unfold c0. rewrite !balance_internal, !sum_of_app. lia. }
    { unfold c0. rewrite !pending_internal, !sum_of_app. lia. }
    { intros _. destruct (IH t P' h' c0 HC Hpar (ab_wf _ _ _ _ _ _ Happ)) as (t1 & c1 & E & Hfl & _);
        [lia|by apply fan_ok_internal| |by exists t1, c1].
      intros k Hk. apply Happ; [apply dels_ok_PathInv|by apply Hpc..]. }
    rewrite E. cbn [mbind option_bind]. rewrite update_middle by done. cbn [mbind option_bind].
    assert (params t1 = params t) as -> by (by rewrite Ft).
    destruct c1 as [|cps1 ccs1 cbuf1 cbs1]; [by simpl in Fl|]. cbn [children] in *.
    eapply finish_flush; try done.
    + cbn [splittable]. unfold c0 in Fc. cbn [children] in Fc.
      apply wf_internal_inv in Hw1 as (? & ? & ? & ? & ? & _). intros. split_and!; [lia|lia|done].
    + intros. apply fan_ok_internal. split; [lia|done].
Qed.

(** Flushing a well-formed node succeeds and changes no key's value. *)
Lemma flushNode_total t P h n :
  Comparator (cmp t) → params_ok (params t) → wf_node (cmp t) P h n →
  fan_ok (fanout (params t)) n → (∀ k, P k → on_path (cmp t) dels_ok n k) →
  ∃ t' n', flushNode t n = Some (t', n') ∧ flushed t P h n t' n' ∧ greedy (cmp t) n n'.
Proof.
  intros HC Hpar Hwf Hfan Hpath. unfold flushNode.
  apply flushNode_fuel_spec; try done. erewrite wf_node_height by done. lia.
Qed.

End flushNode.
