(* ===== verification/Iterator.v ===== *)
(** * Snapshots for iteration (iterator.go)

    An iterator first materialises the live pairs: [collectAll] or
    [collectRange] gathers one [mergeEntry] per leaf key and per buffered
    message, tagged with its depth; [resolveEntries] sorts them by key and depth
    and resolves each key from the deepest entry to the root.  The traversals
    return the entries they append to [*out].

    [level_value] is the reference: the value of a key computed level by level
    from its entries.  The traversals establish that it is [den], the resolution
    that the pairs returned are sorted and hold exactly these values. *)

From S2P Require Import Prelude Order Slices Message Node LeafMerge Flush.

(** [kvPair]. *)
Abbreviation kvPair K V := (K * V)%type.

Record mergeEntry (K V : Type) := mkEntry {
  e_key : K;
  e_value : V;
  e_depth : nat;
  e_deleted : bool;
  e_fn : option (UpsertFn V)
}.
Arguments mkEntry {K V}.
Arguments e_key {K V}.
Arguments e_value {K V}.
Arguments e_depth {K V}.
Arguments e_deleted {K V}.
Arguments e_fn {K V}.

(** ** Collecting *)

Section collect.
Context {K V : Type} `{Zero V}.

(** The entries of [n.keys[start:end]]. *)
Definition leaf_entries (n : node K V) (depth start num : nat) : option (list (mergeEntry K V)) :=
  mapM (λ i, k ← keys n !! i; v ← values n !! i; Some (mkEntry k v depth false None))
    (seq start num).

Definition buffer_entry (depth : nat) (m : Message K V) : list (mergeEntry K V) :=
  match Kind m with
  | MsgPut => [mkEntry (Key m) (Value m) depth false None]
  | MsgDelete => [mkEntry (Key m) zero depth true None]
  | MsgUpsert => [mkEntry (Key m) zero depth false (Fn m)]
  | MsgDeleteRange => []
  end.
Definition collectBufferEntries (msgs : list (Message K V)) (depth : nat)
    : list (mergeEntry K V) :=
  concat (buffer_entry depth <$> msgs).

Fixpoint collectAll (n : node K V) (depth : nat) : option (list (mergeEntry K V)) :=
  match n with
  | Leaf ks vs => leaf_entries (Leaf ks vs) depth 0 (length ks)
  | Internal _ cs buf _ =>
      parts ← mapM id (map (λ c, collectAll c (depth + 1)) cs);
      Some (collectBufferEntries buf depth ++ concat parts)
  end.

Definition leafBounds (compare : K → K → Z) (n : node K V) (lo hi : K) (loInc hiInc : bool)
    : option (nat * nat) :=
  '(start, loFound) ← leafSearch n lo compare;
  let start := if negb loInc && loFound then start + 1 else start in
  '(e, hiFound) ← leafSearch n hi compare;
  let e := if hiInc && hiFound then e + 1 else e in
  Some (start, e).

Fixpoint collectRange (compare : K → K → Z) (n : node K V) (lo hi : K) (loInc hiInc : bool)
    (depth : nat) : option (list (mergeEntry K V)) :=
  match n with
  | Leaf ks vs =>
      '(start, e) ← leafBounds compare (Leaf ks vs) lo hi loInc hiInc;
      leaf_entries (Leaf ks vs) depth start (e - start)
  | Internal ps cs buf bs =>
      msgs ← bufferSlice (Internal ps cs buf bs) lo hi loInc hiInc compare;
      startChild ← findChildIndex (Internal ps cs buf bs) lo compare;
      endChild ← findChildIndex (Internal ps cs buf bs) hi compare;
      parts ← mapM id (take (endChild + 1 - startChild) (drop startChild
                (map (λ c, collectRange compare c lo hi loInc hiInc (depth + 1)) cs)));
      Some (collectBufferEntries msgs depth ++ concat parts)
  end.

(** ** Resolving *)

Definition apply_entry (st : V * bool) (e : mergeEntry K V) : V * bool :=
  let '(base, ex) := st in
  if e_deleted e then (zero, false)
  else match e_fn e with
       | Some f => if ex : bool then (f (Some base) true, true) else (f None false, true)
       | None => (e_value e, true)
       end.

(** [for k >= 0 && entries[k].depth == depth { k-- }], with [p = k + 1]. *)
Fixpoint depth_scan (entries : list (mergeEntry K V)) (depth p : nat) : option nat :=
  match p with
  | 0 => Some 0
  | S k => e ← entries !! k;
           if decide (e_depth e = depth) then depth_scan entries depth k else Some p
  end.

Fixpoint resolve_levels (fuel : nat) (entries : list (mergeEntry K V)) (p : nat)
    (st : V * bool) : option (V * bool) :=
  match p with
  | 0 => Some st
  | S k =>
      match fuel with
      | 0 => None
      | S fuel =>
          e ← entries !! k;
          p' ← depth_scan entries (e_depth e) p;
          grp ← slice entries p' p;
          resolve_levels fuel entries p' (foldl apply_entry st grp)
      end
  end.
Definition resolveKeyEntries (entries : list (mergeEntry K V)) : option (V * bool) :=
  resolve_levels (length entries) entries (length entries) (zero, false).

Definition entry_cmp (compare : K → K → Z) (a b : mergeEntry K V) : Z :=
  let c := compare (e_key a) (e_key b) in
  if decide (c = 0%Z) then (Z.of_nat (e_depth a) - Z.of_nat (e_depth b))%Z else c.

Fixpoint resolve_loop (compare : K → K → Z) (fuel : nat) (entries : list (mergeEntry K V))
    (i : nat) (result : list (kvPair K V)) : option (list (kvPair K V)) :=
  if decide (i < length entries) then
    match fuel with
    | 0 => None
    | S fuel =>
        ei ← entries !! i;
        j ← scan_while (λ j, ej ← entries !! j;
                             Some (bool_decide (compare (e_key ej) (e_key ei) = 0%Z)))
              (length entries) (i + 1) (length entries);
        grp ← slice entries i j;
        '(v, ex) ← resolveKeyEntries grp;
        resolve_loop compare fuel entries j
          (if ex : bool then result ++ [(e_key ei, v)] else result)
    end
  else Some result.
Definition resolveEntries (compare : K → K → Z) (entries : list (mergeEntry K V))
    : option (list (kvPair K V)) :=
  if decide (length entries = 0) then Some []
  else
    let entries := SortStableFunc entries (entry_cmp compare) in
    resolve_loop compare (length entries) entries 0 [].

Definition materializeAll (t : BETree K V) : option (list (kvPair K V)) :=
  entries ← collectAll (root t) 0;
  resolveEntries (cmp t) entries.
Definition materializeRange (t : BETree K V) (lo hi : K) : option (list (kvPair K V)) :=
  if decide (0 ≤ cmp t lo hi)%Z then Some []
  else
    entries ← collectRange (cmp t) (root t) lo hi true false 0;
    resolveEntries (cmp t) entries.
Definition materializeDescendRange (t : BETree K V) (hi lo : K) : option (list (kvPair K V)) :=
  if decide (0 ≤ cmp t lo hi)%Z then Some []
  else
    entries ← collectRange (cmp t) (root t) lo hi false true 0;
    resolveEntries (cmp t) entries.

End collect.

(** ** Iterators *)

(** [for _, p := range pairs { if !yield(p.key, p.value) { return } }]. *)
Fixpoint push {K V S} (pairs : list (kvPair K V)) (yield : S → K → V → S * bool) (s : S) : S :=
  match pairs with
  | [] => s
  | (k, v) :: pairs => let '(s, go) := yield s k v in if go : bool then push pairs yield s else s
  end.
(** [for i := len(pairs) - 1; i >= 0; i--], with [p = i + 1]. *)
Fixpoint push_down {K V S} (pairs : list (kvPair K V)) (p : nat)
    (yield : S → K → V → S * bool) (s : S) : option S :=
  match p with
  | 0 => Some s
  | S i => '(k, v) ← pairs !! i;
           let '(s, go) := yield s k v in
           if go : bool then push_down pairs i yield s else Some s
  end.

(** An [iter.Seq2] is a closure over its snapshot: it pushes the pairs to
    [yield] until that returns false.  The two closures of the source are the
    constructors, [run_seq] is calling them.  The consumer is a state transformer
    that says whether to go on. *)
Inductive Seq2 (K V : Type) :=
| Ascending (pairs : list (kvPair K V))
| Descending (pairs : list (kvPair K V)).
Arguments Ascending {K V}.
Arguments Descending {K V}.

Definition run_seq {K V S} (it : Seq2 K V) (yield : S → K → V → S * bool) (s : S) : option S :=
  match it with
  | Ascending pairs => Some (push pairs yield s)
  | Descending pairs => push_down pairs (length pairs) yield s
  end.

Section iterators.
Context {K V : Type} `{Zero V}.

(** The snapshot is taken when the iterator is created. *)
Definition All (t : BETree K V) : option (Seq2 K V) :=
  pairs ← materializeAll t; Some (Ascending pairs).
Definition Ascend (t : BETree K V) : option (Seq2 K V) := All t.
Definition Descend (t : BETree K V) : option (Seq2 K V) :=
  pairs ← materializeAll t; Some (Descending pairs).
Definition Range (t : BETree K V) (lo hi : K) : option (Seq2 K V) :=
  pairs ← materializeRange t lo hi; Some (Ascending pairs).
Definition DescendRange (t : BETree K V) (hi lo : K) : option (Seq2 K V) :=
  pairs ← materializeDescendRange t hi lo; Some (Descending pairs).

End iterators.

(** ** The reference: one key, level by level *)

Definition entry_step {K V} (o : option V) (e : mergeEntry K V) : option V :=
  if e_deleted e then None
  else match e_fn e with Some f => Some (call_upsert f o) | None => Some (e_value e) end.

(** The value the entries at depths [d .. d+n-1] give to a key that has value
    [o] below: deeper entries are older. *)
Fixpoint level_value {K V} (es : list (mergeEntry K V)) (d n : nat) (o : option V) : option V :=
  match n with
  | 0 => o
  | S n => foldl entry_step (level_value es (S d) n o) (filter (λ e, e_depth e = d) es)
  end.

Definition entries_for {K V} (compare : K → K → Z) (k : K) (es : list (mergeEntry K V)) :=
  filter (λ e, compare (e_key e) k = 0%Z) es.

Section resolve.
Context {K V : Type} `{Zero V} {compare : K → K → Z} {HC : Comparator compare}.
Implicit Types (e : mergeEntry K V) (es g pre post : list (mergeEntry K V)) (k : K).

Lemma apply_entry_comma_ok o e : apply_entry (comma_ok o) e = comma_ok (entry_step o e).
Proof.
  unfold apply_entry, entry_step. destruct o as [v|]; simpl;
    destruct (e_deleted e); try done; by destruct (e_fn e).
Qed.

Lemma apply_entries_comma_ok o es :
  foldl apply_entry (comma_ok o) es = comma_ok (foldl entry_step o es).
Proof.
  revert o. induction es as [|e es IH]; intros o; cbn [foldl]; [done|].
  by rewrite apply_entry_comma_ok, IH.
Qed.

Lemma level_value_ext es es' d n o :
  (∀ i, d ≤ i → filter (λ e, e_depth e = i) es = filter (λ e, e_depth e = i) es') →
  level_value es d n o = level_value es' d n o.
Proof.
  revert d. induction n as [|n IH]; intros d Hf; simpl; [done|].
  rewrite (IH (S d)) by (intros; apply Hf; lia). by rewrite Hf.
Qed.

(** A group sorted by depth is its level [d] before the deeper ones. *)
Lemma split_level d g :
  StronglySorted (λ a b, e_depth a ≤ e_depth b) g → Forall (λ e, d ≤ e_depth e) g →
  g = filter (λ e, e_depth e = d) g ++ filter (λ e, e_depth e ≠ d) g.
Proof.
  induction 1 as [|e g Hs IH He]; intros Hd; [done|]. apply Forall_cons in Hd as [Hde Hd].
  rewrite !filter_cons. destruct (decide (e_depth e = d)) as [Ed|Ed].
  - rewrite decide_False by (by intros []). cbn [app]. f_equal. by apply IH.
  - rewrite decide_True by done. rewrite (filter_none _ g), (filter_all _ g); [done|..];
      (eapply Forall_impl; [exact He|]); simpl; lia.
Qed.

Lemma depth_scan_spec pre g post d :
  Forall (λ e, e_depth e ≠ d) pre → Forall (λ e, e_depth e = d) g →
  depth_scan (pre ++ g ++ post) d (length (pre ++ g)) = Some (length pre).
Proof.
  intros Hpre Hg. revert post. induction g as [|e g IH] using rev_ind; intros post.
  - rewrite app_nil_r, app_nil_l. destruct pre as [|e pre _] using rev_ind; [done|].
    rewrite length_app, Nat.add_1_r. cbn [depth_scan].
    rewrite <-app_assoc. cbn [app]. rewrite lookup_middle by done. cbn [mbind option_bind].
    apply Forall_app in Hpre as [_ [He _]%Forall_cons]. by rewrite decide_False.
  - apply Forall_app in Hg as [Hg [He _]%Forall_cons].
    replace (length (pre ++ g ++ [e])) with (S (length (pre ++ g)))
      by (rewrite !length_app; simpl; lia). cbn [depth_scan].
    rewrite <-(app_assoc g), (app_assoc pre). cbn [app].
    rewrite lookup_middle by done. cbn [mbind option_bind].
    rewrite decide_True by done. rewrite <-app_assoc. by apply IH.
Qed.

Lemma resolve_level d pre g post fuel o :
  Forall (λ e, e_depth e = d) g → Forall (λ e, e_depth e < d) pre → g ≠ [] →
  resolve_levels (S fuel) (pre ++ g ++ post) (length (pre ++ g)) (comma_ok o)
  = resolve_levels fuel (pre ++ g ++ post) (length pre) (comma_ok (foldl entry_step o g)).
Proof.
  intros Hg Hpre Hne. destruct (exists_last Hne) as (gi & e & Egi).
  assert (length (pre ++ g) = S (length (pre ++ gi))) as El
    by (rewrite Egi, !length_app; simpl; lia).
  assert ((pre ++ g ++ post) !! length (pre ++ gi) = Some e) as He.
  { rewrite Egi, <-app_assoc, (app_assoc pre). by apply lookup_middle. }
  assert (e_depth e = d) as Hd.
  { rewrite Forall_forall in Hg. apply Hg. rewrite Egi. apply elem_of_app. right. left. }
  rewrite El. cbn [resolve_levels]. rewrite He. cbn [mbind option_bind].
  rewrite Hd, <-El, depth_scan_spec; [|eapply Forall_impl; [exact Hpre|]; simpl; lia|done].
  cbn [mbind option_bind]. rewrite slice_app by (rewrite ?length_app; done).
  cbn [mbind option_bind]. by rewrite apply_entries_comma_ok.
Qed.

Lemma resolve_levels_spec n d pre g post fuel o :
  StronglySorted (λ a b, e_depth a ≤ e_depth b) g →
  Forall (λ e, d ≤ e_depth e < d + n) g → Forall (λ e, e_depth e < d) pre →
  length g ≤ fuel →
  ∃ fuel', fuel ≤ fuel' + length g
    ∧ resolve_levels fuel (pre ++ g ++ post) (length (pre ++ g)) (comma_ok o)
      = resolve_levels fuel' (pre ++ g ++ post) (length pre) (comma_ok (level_value g d n o)).
Proof.
  revert d pre g post fuel. induction n as [|n IH]; intros d pre g post fuel Hs Hd Hpre Hf.
  { destruct g as [|e g]; [|apply Forall_cons in Hd as [? _]; lia].
    exists fuel. split; [lia|]. by rewrite app_nil_r. }
  set (gd := filter (λ e, e_depth e = d) g). set (g' := filter (λ e, e_depth e ≠ d) g).
  assert (g = gd ++ g') as Eg.
  { apply split_level; [done|]. eapply Forall_impl; [exact Hd|]. simpl; lia. }
  assert (Forall (λ e, e_depth e = d) gd) as Hgd.
  { apply Forall_forall. by intros e [? _]%list_elem_of_filter. }
  assert (level_value g d (S n) o = foldl entry_step (level_value g' (S d) n o) gd) as ->.
  { cbn [level_value]. f_equal. apply level_value_ext. intros i Hi. unfold g'.
    rewrite list_filter_filter. apply filter_iff. intros e _. lia. }
  pose proof Hs as Hs'. rewrite Eg in Hs'. apply StronglySorted_app in Hs' as (_ & _ & Hs').
  destruct (IH (S d) (pre ++ gd) g' post fuel) as (fuel' & Hf' & E).
  - done.
  - apply Forall_forall. intros e [Hne He]%list_elem_of_filter.
    rewrite Forall_forall in Hd. specialize (Hd e He). lia.
  - apply Forall_app. split; (eapply Forall_impl; [eassumption|]); simpl; lia.
  - rewrite Eg, length_app in Hf. lia.
  - rewrite Eg. rewrite Eg in Hf. rewrite <-!app_assoc in *.
    rewrite !length_app, ?Nat.add_assoc in E. rewrite !length_app, ?Nat.add_assoc in *.
    rewrite E. clear E. generalize (level_value g' (S d) n o). intros o'.
    destruct gd as [|e0 gd0] eqn:Egd.
    { exists fuel'. split; [lia|]. by rewrite Nat.add_0_r. }
    rewrite <-Egd in *. clear Eg. clearbody gd.
    assert (0 < length gd) by (rewrite Egd; simpl; lia).
    destruct fuel' as [|fuel']; [lia|]. exists fuel'. split; [lia|].
    rewrite <-length_app. apply (resolve_level d); [done|done|by intros ->].
Qed.

Lemma resolveKeyEntries_spec g d n :
  StronglySorted (λ a b, e_depth a ≤ e_depth b) g → Forall (λ e, d ≤ e_depth e < d + n) g →
  resolveKeyEntries g = Some (comma_ok (level_value g d n None)).
Proof.
  intros Hs Hd. unfold resolveKeyEntries.
  destruct (resolve_levels_spec n d [] g [] (length g) None) as (fuel' & _ & E); [done..|].
  rewrite app_nil_r in E. cbn [app] in E. change (zero, false) with (comma_ok (None : option V)).
  rewrite E. by destruct fuel'.
Qed.

End resolve.

(** ** resolveEntries *)

Section resolve_entries.
Context {K V : Type} `{Zero V} {compare : K → K → Z} {HC : Comparator compare}.
Implicit Types (e : mergeEntry K V) (es g rest : list (mergeEntry K V)) (k : K).
Implicit Types r : list (kvPair K V).

#[export] Instance entry_cmp_Comparator : Comparator (entry_cmp (V := V) compare).
Proof.
  unfold entry_cmp. split.
  - intros x. rewrite decide_True by apply compare_refl. lia.
  - intros x y. pose proof (compare_flip (compare := compare) (e_key x) (e_key y)).
    pose proof (compare_flip (compare := compare) (e_key y) (e_key x)).
    repeat case_decide; lia.
  - intros x y z. ord_facts (e_key x) (e_key y) (e_key z). repeat case_decide; lia.
Qed.

Lemma level_value_nil d n o : level_value ([] : list (mergeEntry K V)) d n o = o.
Proof. revert d. induction n as [|n IH]; intros d; simpl; [done|]. by rewrite IH. Qed.

#[export] Instance entries_for_Proper :
  Proper (keq compare ==> eq ==> eq) (@entries_for K V compare).
Proof.
  intros x y Hxy es ? <-. apply filter_iff. intros e _.
  by destruct (compare_cong_r x y (e_key e) Hxy) as (_ & ? & _).
Qed.

Lemma entry_cmp_kwsorted es : kwsorted (entry_cmp compare) id es → kwsorted compare e_key es.
Proof.
  induction 1 as [|e es Hs IH He]; [constructor|]. apply kwsorted_cons. split; [|done].
  eapply Forall_impl; [exact He|]. unfold id, entry_cmp. simpl. intros e'. case_decide; lia.
Qed.

Lemma entry_cmp_depth_sorted k es :
  kwsorted (entry_cmp compare) id es →
  StronglySorted (λ a b, e_depth a ≤ e_depth b) (entries_for compare k es).
Proof.
  induction 1 as [|e es Hs IH He]; [constructor|]. unfold entries_for in *.
  rewrite filter_cons. case_decide as Hk; [|done]. constructor; [done|].
  apply Forall_forall. intros e' [Hk' He']%list_elem_of_filter.
  rewrite Forall_forall in He. specialize (He e' He'). unfold id, entry_cmp in He.
  rewrite decide_True in He by ord (e_key e) (e_key e') k. lia.
Qed.

(** Sorting keeps each key's entries of one depth in order. *)
Lemma entry_sort_level k i es :
  filter (λ e, e_depth e = i) (entries_for compare k (SortStableFunc es (entry_cmp compare)))
  = filter (λ e, e_depth e = i) (entries_for compare k es).
Proof.
  pose proof (SortStableFunc_stable (cmp := entry_cmp compare) (mkEntry k zero i false None) es) as E.
  unfold entries_for. rewrite !list_filter_filter.
  assert (∀ l : list (mergeEntry K V), filter (λ e, e_depth e = i ∧ compare (e_key e) k = 0%Z) l
          = filter (λ b, entry_cmp compare b (mkEntry k zero i false None) = 0%Z) l) as Hl.
  { intros l. apply filter_iff. intros e _. unfold entry_cmp. simpl. case_decide; lia. }
  by rewrite !Hl.
Qed.

Record live_pairs (n : nat) es (r : list (kvPair K V)) : Prop := {
  rs_sorted : ksorted compare fst r;
  rs_keys p : p ∈ r → ∃ e, e ∈ es ∧ p.1 = e_key e;
  rs_lookup k : alookup compare k r = level_value (entries_for compare k es) 0 n None
}.

(** One group in front of a resolved rest. *)
Lemma live_pairs_cons n k0 e g rest r :
  keq compare (e_key e) k0 → at_key compare e_key k0 (e :: g) → above compare e_key k0 rest →
  live_pairs n rest r →
  live_pairs n ((e :: g) ++ rest)
    (match level_value (e :: g) 0 n None with Some v => (e_key e, v) :: r | None => r end).
Proof.
  intros He Hg Hrest [Hs Hk Hl].
  assert (above compare fst k0 r) as Hr.
  { apply Forall_forall. intros p (e' & He' & ->)%Hk.
    unfold above in Hrest. rewrite Forall_forall in Hrest. by apply Hrest. }
  assert (∀ k, entries_for compare k ((e :: g) ++ rest)
               = if decide (compare k0 k = 0%Z) then e :: g else entries_for compare k rest) as Hfor.
  { intros k. case_decide as Hkk.
    - rewrite <-(Hkk : keq compare k0 k). apply (filter_split e_key k0 [] (e :: g) rest); [constructor|done..].
    - unfold entries_for. rewrite filter_app, filter_none; [done|].
      eapply Forall_impl; [exact Hg|]. simpl. intros e' He'. ord (e_key e') k0 k. }
  assert (∀ k, compare k0 k = 0%Z → alookup compare k r = None) as Hr0.
  { intros k Hkk. rewrite <-(Hkk : keq compare k0 k). by apply alookup_above. }
  split.
  - destruct (level_value (e :: g) 0 n None); [|done]. apply ksorted_cons. split; [|done].
    eapply Forall_impl; [exact Hr|]. simpl. intros p Hp. ord (e_key e) k0 (fst p).
  - intros p Hp. assert (p.1 = e_key e ∨ p ∈ r) as [->|Hin].
    { destruct (level_value (e :: g) 0 n None); [|by right].
      by apply elem_of_cons in Hp as [->|]; [left|right]. }
    + exists e. split; [left|done].
    + destruct (Hk p Hin) as (e' & ? & ->). exists e'. split; [|done]. apply elem_of_app. by right.
  - intros k. rewrite Hfor. destruct (decide (compare k0 k = 0%Z)) as [Hkk|Hkk].
    + destruct (level_value (e :: g) 0 n None) as [v|]; [|by apply Hr0].
      cbn [alookup]. rewrite decide_True; [done|]. ord (e_key e) k0 k.
    + rewrite <-Hl. destruct (level_value (e :: g) 0 n None) as [v|]; [|done].
      cbn [alookup]. rewrite decide_False; [done|]. ord (e_key e) k0 k.
Qed.

Lemma live_pairs_nil n : live_pairs n [] [].
Proof.
  split; [constructor|intros p Hp; by apply not_elem_of_nil in Hp|].
  intros k. by rewrite level_value_nil.
Qed.

(** The group of the first entry: the entries of its key follow it. *)
Lemma first_group e0 todo :
  kwsorted compare e_key (e0 :: todo) →
  ∃ g rest, todo = g ++ rest ∧ at_key compare e_key (e_key e0) (e0 :: g)
    ∧ above compare e_key (e_key e0) rest ∧ kwsorted compare e_key rest.
Proof.
  intros [H0 Hs]%kwsorted_cons.
  destruct (key_split e_key (e_key e0) todo Hs) as (l1 & g & rest & -> & Hb & Hg & Hr).
  assert (l1 = []) as ->.
  { destruct l1 as [|e l1]; [done|]. apply Forall_cons in H0 as [H0 _].
    apply Forall_cons in Hb as [Hb _]. exfalso. simpl in *. ord (e_key e) (e_key e0). }
  exists g, rest. split; [done|]. split; [constructor; [apply compare_refl|done]|]. split; [done|].
  cbn [app] in Hs. by apply kwsorted_app in Hs as (_ & _ & ?).
Qed.

(** The scan for the end of a group stops right after it. *)
Lemma scan_group done_ e0 g rest :
  let es := done_ ++ (e0 :: g) ++ rest in
  at_key compare e_key (e_key e0) (e0 :: g) → above compare e_key (e_key e0) rest →
  scan_while (λ j, ej ← es !! j; Some (bool_decide (compare (e_key ej) (e_key e0) = 0%Z)))
    (length es) (length done_ + 1) (length es)
  = Some (length (done_ ++ e0 :: g)).
Proof.
  intros es Hg Hr. subst es.
  rewrite (scan_while_spec _ _ _ (length (done_ ++ e0 :: g))); [done|..].
  - rewrite !length_app. simpl. lia.
  - rewrite !length_app. simpl. lia.
  - intros j Hj. cbv beta. rewrite length_app in Hj.
    destruct (lookup_lt_is_Some_2 (e0 :: g) (j - length done_)) as [e He]; [lia|].
    rewrite lookup_app_r, lookup_app_l by lia. rewrite He. cbn [mbind option_bind]. f_equal.
    apply bool_decide_eq_true. by apply (Forall_lookup_1 _ _ _ _ Hg He).
  - intros Hlt. destruct rest as [|e rest]; [rewrite app_nil_r in Hlt; lia|].
    rewrite app_assoc, lookup_middle by done. cbn [mbind option_bind]. f_equal.
    apply bool_decide_eq_false. apply Forall_cons in Hr as [Hr _]. lia.
Qed.

Lemma resolve_loop_spec n fuel done_ todo result :
  kwsorted compare e_key todo → length todo ≤ fuel →
  Forall (λ e, e_depth e < n) todo →
  (∀ k, StronglySorted (λ a b, e_depth a ≤ e_depth b) (entries_for compare k todo)) →
  ∃ r, resolve_loop compare fuel (done_ ++ todo) (length done_) result = Some (result ++ r)
       ∧ live_pairs n todo r.
Proof.
  revert done_ todo result. induction fuel as [|fuel IH]; intros done_ [|e0 todo] result Hs Hf Hn Hd;
    cbn [resolve_loop];
    [|simpl in Hf; lia| |]; [exists []; rewrite decide_False, app_nil_r by list_lia;
                             split; [done|apply live_pairs_nil]..|].
  rewrite decide_True by list_lia. rewrite lookup_middle by done. cbn [mbind option_bind].
  destruct (first_group e0 todo Hs) as (g & rest & -> & Hg & Hr & Hs').
  rewrite (app_comm_cons g rest e0) in *. rewrite scan_group by done.
  cbn [mbind option_bind]. rewrite slice_app by (rewrite ?length_app; done). cbn [mbind option_bind].
  apply Forall_app in Hn as [Hng Hnr].
  assert (∀ k, entries_for compare k ((e0 :: g) ++ rest)
               = entries_for compare k (e0 :: g) ++ entries_for compare k rest) as Hfor.
  { intros k. unfold entries_for. apply filter_app. }
  rewrite (resolveKeyEntries_spec (e0 :: g) 0 n).
  - cbn [mbind option_bind]. rewrite app_assoc.
    set (result' := match level_value (e0 :: g) 0 n None with
                    | Some v => result ++ [(e_key e0, v)] | None => result end).
    destruct (IH (done_ ++ e0 :: g) rest result') as (r & E & Hres); [done| |done| |].
    { rewrite length_app in Hf. simpl in Hf. lia. }
    { intros k. specialize (Hd k). rewrite Hfor in Hd. by apply StronglySorted_app in Hd as (_ & _ & ?). }
    eexists. split; [|by eapply live_pairs_cons].
    unfold result' in E. unfold comma_ok.
    destruct (level_value (e0 :: g) 0 n None); rewrite E; [by rewrite <-app_assoc|done].
  - specialize (Hd (e_key e0)). unfold entries_for in Hd.
    pose proof (filter_split (compare := compare) e_key (e_key e0) [] (e0 :: g) rest
      (List.Forall_nil _) Hg Hr) as Ef.
    cbn [app] in *. by rewrite Ef in Hd.
  - eapply Forall_impl; [exact Hng|]. simpl; lia.
Qed.

Lemma resolveEntries_spec n es :
  Forall (λ e, e_depth e < n) es →
  ∃ r, resolveEntries compare es = Some r ∧ live_pairs n es r.
Proof.
  intros Hn. unfold resolveEntries. case_decide as He.
  { exists []. split; [done|]. destruct es; [|done].
    split; [constructor|intros p Hp; by apply not_elem_of_nil in Hp|].
    intros k. by rewrite level_value_nil. }
  set (s := SortStableFunc es (entry_cmp compare)).
  pose proof (SortStableFunc_sorted (cmp := entry_cmp compare) es : kwsorted _ id s) as Hs.
  pose proof (SortStableFunc_Permutation (cmp := entry_cmp compare) es : s ≡ₚ es) as Hp.
  destruct (resolve_loop_spec n (length s) [] s []) as (r & E & [R1 R2 R3]).
  - by apply entry_cmp_kwsorted.
  - done.
  - by rewrite Hp.
  - intros k. by apply entry_cmp_depth_sorted.
  - exists r. split; [exact E|]. split; [done|..].
    + intros p (e & Hin & ->)%R2. exists e. by rewrite <-Hp.
    + intros k. rewrite R3. apply level_value_ext. intros i _. apply entry_sort_level.
Qed.

End resolve_entries.

(** ** What the traversals collect *)

(** [es] are the entries of the keys [sel] selects in the subtree [n] at depth
    [d], [P] being the range of keys of [n]. *)
Record collected {K V} (compare : K → K → Z) (P sel : K → Prop) (d h : nat) (n : node K V)
    (es : list (mergeEntry K V)) : Prop := {
  co_depth : Forall (λ e, d ≤ e_depth e < d + S h) es;
  co_keys : Forall (λ e, P (e_key e) ∧ sel (e_key e)) es;
  co_value k : P k → sel k → level_value (entries_for compare k es) d (S h) None = den compare n k
}.

Section collect_spec.
Context {K V : Type} `{Zero V} {compare : K → K → Z} {HC : Comparator compare}.
Implicit Types (n c : node K V) (es part : list (mergeEntry K V)) (k : K) (l : list (K * V)).
Implicit Types (P sel : K → Prop) (msgs buf : list (Message K V)).

Definition leaf_entry (d : nat) (p : K * V) : mergeEntry K V := mkEntry p.1 p.2 d false None.

Lemma leaf_entries_spec l1 l2 l3 d start num :
  start = length l1 → num = length l2 →
  leaf_entries (Leaf (l1 ++ l2 ++ l3).*1 (l1 ++ l2 ++ l3).*2) d start num
  = Some (leaf_entry d <$> l2).
Proof.
  intros -> ->. unfold leaf_entries. cbn [keys values]. revert l1.
  induction l2 as [|[k v] l2 IH]; intros l1; [done|].
  specialize (IH (l1 ++ [(k, v)])). rewrite <-!app_assoc in IH. cbn [app] in IH.
  rewrite length_app, Nat.add_1_r in IH. cbn [app length seq mapM].
  assert ((l1 ++ (k, v) :: l2 ++ l3) !! length l1 = Some (k, v)) as El by (by apply lookup_middle).
  rewrite !list_lookup_fmap, El. cbn [fmap option_fmap option_map mbind option_bind].
  by rewrite IH.
Qed.

Lemma leaf_value k d l :
  ksorted compare fst l →
  level_value (entries_for compare k (leaf_entry d <$> l)) d 1 None = alookup compare k l.
Proof.
  intros Hs. cbn [level_value]. rewrite filter_all.
  2:{ apply Forall_filter_sub, Forall_fmap, Forall_forall. done. }
  induction l as [|[k' v] l IH]; [done|]. apply ksorted_cons in Hs as [Hk Hs].
  unfold entries_for. rewrite fmap_cons, filter_cons. cbn [alookup leaf_entry e_key fst].
  case_decide as Hkk; [|by apply IH].
  rewrite filter_none; [done|]. apply Forall_fmap. eapply Forall_impl; [exact Hk|].
  simpl. intros p Hp E. ord k' k (fst p).
Qed.

Lemma alookup_filter (sel : K → Prop) `{!∀ x, Decision (sel x)} k l :
  (∀ x, keq compare x k → sel x) →
  alookup compare k (filter (λ p, sel p.1) l) = alookup compare k l.
Proof.
  intros Hsel. induction l as [|[k' v] l IH]; [done|]. rewrite filter_cons. cbn [alookup fst].
  destruct (decide (sel k')) as [Hk|Hk].
  - cbn [alookup]. by rewrite IH.
  - rewrite IH, decide_False; [done|]. intros E. by apply Hk, Hsel.
Qed.

Lemma ksorted_filter (sel : K → Prop) `{!∀ x, Decision (sel x)} l :
  ksorted compare fst l → ksorted compare fst (filter (λ p, sel p.1) l).
Proof.
  induction 1 as [|p l Hs IH Hp]; [constructor|]. rewrite filter_cons.
  case_decide; [|done]. apply ksorted_cons. split; [|done]. by apply Forall_filter_sub.
Qed.

(** Any traversal of a leaf that returns the entries of the selected keys. *)
Lemma collected_leaf P sel `{!∀ x, Decision (sel x)} d l :
  ksorted compare fst l → Forall (λ p, P p.1) l → (∀ x y, keq compare x y → sel y → sel x) →
  collected compare P sel d 0 (Leaf l.*1 l.*2) (leaf_entry d <$> filter (λ p, sel p.1) l).
Proof.
  intros Hs HP Hsel. split.
  - apply Forall_fmap, Forall_forall. simpl. lia.
  - apply Forall_fmap, Forall_forall. intros p [? Hp]%list_elem_of_filter.
    rewrite Forall_forall in HP. split; [by apply HP|done].
  - intros k HPk Hk. rewrite leaf_value by (by apply ksorted_filter).
    cbn [den]. rewrite zip_fst_snd. apply alookup_filter. eauto.
Qed.

Lemma entries_for_app k es1 es2 :
  entries_for compare k (es1 ++ es2) = entries_for compare k es1 ++ entries_for compare k es2.
Proof. apply filter_app. Qed.

Lemma buffer_entries_run k d msgs o :
  Forall wf_msg msgs →
  foldl entry_step o (entries_for compare k (collectBufferEntries msgs d)) = run compare k msgs o.
Proof.
  intros Hw. revert o. induction Hw as [|m msgs Hm Hw IH]; intros o; [done|].
  unfold collectBufferEntries. rewrite fmap_cons. cbn [concat]. fold (collectBufferEntries msgs d).
  rewrite entries_for_app, foldl_app, run_cons, IH. unfold entries_for. f_equal. unfold wf_msg in Hm. unfold buffer_entry, apply_msg, entry_step.
  destruct (Kind m); [..|done|]; rewrite filter_cons; simpl; [by case_decide..|].
  destruct Hm as [f ->]. by case_decide.
Qed.

Lemma buffer_entries_keys (Q : K → Prop) msgs d :
  Forall (λ m, Q (Key m)) msgs →
  Forall (λ e, e_depth e = d ∧ Q (e_key e)) (collectBufferEntries msgs d).
Proof.
  induction 1 as [|m msgs Hm Hmsgs IH]; [constructor|].
  unfold collectBufferEntries in *. rewrite fmap_cons. cbn [concat]. apply Forall_app.
  split; [|done]. unfold buffer_entry. destruct (Kind m); repeat constructor; done.
Qed.

(** The entries of one key come from the part of the child it routes to. *)
Lemma entries_for_parts (f : K → nat) k start parts j part :
  Proper (keq compare ==> eq) f →
  (∀ i p, parts !! i = Some p → Forall (λ e, f (e_key e) = start + i) p) →
  f k = start + j → parts !! j = Some part →
  entries_for compare k (concat parts) = entries_for compare k part.
Proof.
  intros Hf Hp Hk Hj. apply list_split_lookup in Hj as (p1 & p2 & -> & Hl).
  assert (∀ i p, i ≠ j → (p1 ++ part :: p2) !! i = Some p → entries_for compare k p = []) as Hother.
  { intros i p Hi Hip. apply filter_none, Forall_forall. intros e He Hek.
    specialize (Hp i p Hip). rewrite Forall_forall in Hp. specialize (Hp e He).
    rewrite (Hf (e_key e) k Hek) in Hp. lia. }
  assert (∀ ps : list (list (mergeEntry K V)),
            (∀ p, p ∈ ps → entries_for compare k p = []) → entries_for compare k (concat ps) = [])
    as Hnone.
  { induction ps as [|p ps IH]; intros Hps; [done|]. cbn [concat].
    rewrite entries_for_app, Hps, IH; [done| |left]. intros q Hq. apply Hps. by right. }
  rewrite concat_app. cbn [concat]. rewrite !entries_for_app, (Hnone p1), (Hnone p2), app_nil_r;
    [done|..].
  - intros p (i & Hi)%list_elem_of_lookup. apply (Hother (length p1 + S i) p); [lia|].
    rewrite lookup_app_r by lia. by replace (length p1 + S i - length p1) with (S i) by lia.
  - intros p (i & Hi)%list_elem_of_lookup. pose proof (lookup_lt_Some _ _ _ Hi).
    apply (Hother i p); [lia|]. by apply lookup_app_l_Some.
Qed.

Lemma collected_internal P sel d h ps cs buf bs msgs start parts :
  wf_node compare P (S h) (Internal ps cs buf bs) →
  Forall wf_msg msgs → Forall (λ m, P (Key m) ∧ sel (Key m)) msgs →
  (∀ k, sel k → for_key compare k msgs = for_key compare k buf) →
  (∀ j part, parts !! j = Some part → ∃ c, cs !! (start + j) = Some c
     ∧ collected compare (λ k, P k ∧ child_ix compare ps k = start + j) sel (S d) h c part) →
  (∀ k, P k → sel k → start ≤ child_ix compare ps k < start + length parts) →
  collected compare P sel d (S h) (Internal ps cs buf bs)
    (collectBufferEntries msgs d ++ concat parts).
Proof.
  intros Hwf Hw Hkeys Hbuf Hparts Hrange.
  pose proof (buffer_entries_keys (λ x, P x ∧ sel x) msgs d Hkeys) as Hown.
  assert (Forall (λ e, S d ≤ e_depth e < S d + S h ∧ P (e_key e) ∧ sel (e_key e)) (concat parts))
    as Hsub.
  { apply Forall_concat, Forall_forall. intros part (j & Hj)%list_elem_of_lookup.
    destruct (Hparts j part Hj) as (c & _ & [Hd Hk _]). apply Forall_forall. intros e He.
    rewrite Forall_forall in Hd, Hk. destruct (Hk e He) as [[? _] ?]. split; [exact (Hd e He)|done]. }
  split.
  - apply Forall_app. split; (eapply Forall_impl; [eassumption|]); simpl; intros e He; lia.
  - apply Forall_app. split; (eapply Forall_impl; [eassumption|]); simpl; tauto.
  - intros k HPk Hk. destruct (Hrange k HPk Hk) as [Hge Hlt].
    set (j := child_ix compare ps k - start).
    destruct (lookup_lt_is_Some_2 parts j) as [part Hj]; [unfold j; lia|].
    destruct (Hparts j part Hj) as (c & Hc & Hcol).
    replace (start + j) with (child_ix compare ps k) in Hc, Hcol by (unfold j; lia).
    rewrite (den_internal ps cs buf bs k c) by done.
    rewrite <-(co_value _ _ _ _ _ _ _ Hcol k) by done.
    assert (entries_for compare k (concat parts) = entries_for compare k part) as Epart.
    { apply (entries_for_parts (child_ix compare ps) k start parts j); [apply _| |unfold j; lia|done].
      intros i p Hi. destruct (Hparts i p Hi) as (c' & _ & [_ Hk' _]).
      eapply Forall_impl; [exact Hk'|]. simpl. tauto. }
    assert (entries_for compare k (collectBufferEntries msgs d ++ concat parts)
            = entries_for compare k (collectBufferEntries msgs d) ++ entries_for compare k part) as ->.
    { by rewrite entries_for_app, Epart. }
    change (level_value ?es d (S (S h)) None) with
      (foldl entry_step (level_value es (S d) (S h) None) (filter (λ e, e_depth e = d) es)).
    assert (Forall (λ e, e_depth e = d) (entries_for compare k (collectBufferEntries msgs d))) as Hd1.
    { apply Forall_filter_sub. eapply Forall_impl; [exact Hown|]. simpl. tauto. }
    assert (Forall (λ e, S d ≤ e_depth e) (entries_for compare k part)) as Hd2.
    { apply Forall_filter_sub. eapply Forall_impl; [apply Hcol|]. simpl. lia. }
    rewrite filter_app, (filter_all _ (entries_for _ _ (collectBufferEntries _ _))), filter_none,
      app_nil_r; [|eapply Forall_impl; [exact Hd2|]; simpl; lia|done].
    rewrite buffer_entries_run by done. unfold run. rewrite Hbuf by done. f_equal.
    apply level_value_ext. intros i Hi. rewrite filter_app, filter_none; [done|].
    eapply Forall_impl; [exact Hd1|]. simpl. lia.
Qed.

Lemma collectAll_spec P h n d :
  wf_node compare P h n →
  ∃ es, collectAll n d = Some es ∧ collected compare P (λ _, True) d h n es.
Proof.
  intros Hwf. revert d. pose proof Hwf as Hwf'.
  induction Hwf' as [P l Hs HP|P h ps cs buf bs Hs HPp Hlen Hw HPb Hbs Hcs IH]; intros d.
  { exists (leaf_entry d <$> l). cbn [collectAll]. split.
    - pose proof (leaf_entries_spec [] l [] d 0 (length l.*1)) as E.
      rewrite app_nil_r in E. apply E; [done|by rewrite length_fmap].
    - pose proof (collected_leaf P (λ _, True) d l Hs HP) as Hl.
      rewrite filter_all in Hl by (by apply Forall_true). by apply Hl. }
  cbn [collectAll].
  destruct (mapM_id_total (map (λ c, collectAll c (d + 1)) cs)) as (parts & E & Hl & Hparts).
  { intros x (c & -> & (i & Hi)%list_elem_of_lookup)%list_elem_of_fmap.
    destruct (IH i c Hi (Hcs i c Hi) (d + 1)) as (es & -> & _). by eexists. }
  rewrite E. cbn [mbind option_bind]. eexists. split; [done|].
  change (map ?f cs) with (f <$> cs) in Hparts, Hl. rewrite length_fmap in Hl.
  apply (collected_internal P _ d h ps cs buf bs buf 0 parts); try done.
  - eapply Forall_impl; [exact HPb|]. done.
  - intros j part Hj. apply Hparts in Hj. apply list_lookup_fmap_Some in Hj as (c & Ec & Hc).
    exists c. split; [done|]. destruct (IH j c Hc (Hcs j c Hc) (d + 1)) as (es & E' & Hes).
    rewrite Nat.add_1_r in *. simplify_eq. by rewrite E' in Ec; simplify_eq.
  - intros k _ _. pose proof (child_ix_le (compare := compare) ps k). lia.
Qed.

End collect_spec.

(** ** Ranges *)

Section range_spec.
Context {K V : Type} `{Zero V} {compare : K → K → Z} {HC : Comparator compare}.
Context (lo hi : K) (loInc hiInc : bool) (Hlh : (compare lo hi < 0)%Z).
Implicit Types (n c : node K V) (k : K) (l : list (K * V)) (P : K → Prop).

Abbreviation sel := (in_range compare lo hi loInc hiInc).

Lemma in_range_keq x y : keq compare x y → sel y → sel x.
Proof. unfold in_range. intros Hxy. ord_facts x y lo. ord_facts x y hi. unfold keq in *.
  destruct loInc, hiInc; lia. Qed.

Lemma in_range_bounds k : sel k → (compare lo k ≤ 0)%Z ∧ (compare k hi ≤ 0)%Z.
Proof. unfold in_range. ord_pair compare lo k. ord_pair compare k hi.
  destruct loInc, hiInc; lia. Qed.

(** [leafBounds] delimits the selected keys. *)
Lemma leafBounds_spec l :
  ksorted compare fst l →
  ∃ p q, l = p ++ filter (λ p, sel p.1) l ++ q
    ∧ leafBounds compare (Leaf l.*1 l.*2) lo hi loInc hiInc
      = Some (length p, length p + length (filter (λ p, sel p.1) l)).
Proof.
  intros Hs. destruct (range_split fst lo hi l (ksorted_kwsorted _ _ Hs) Hlh)
    as (l1 & l2 & l3 & l4 & l5 & -> & H1 & H2 & H3 & H3' & H4 & H5).
  rewrite (filter_in_range fst) by done.
  assert (above compare fst lo (l3 ++ l4 ++ l5)) as Ha.
  { repeat (apply Forall_app; split); [done|by eapply at_key_above|].
    eapply above_trans; [|done]. lia. }
  assert (below compare fst hi (l1 ++ l2 ++ l3)) as Hb.
  { repeat (apply Forall_app; split); [|by eapply at_key_below|done].
    eapply below_trans; [|done]. lia. }
  pose proof (at_key_unique fst lo l1 l2 _ Hs H2) as Hu2.
  assert (l1 ++ l2 ++ l3 ++ l4 ++ l5 = (l1 ++ l2 ++ l3) ++ l4 ++ l5) as E by (by rewrite <-!app_assoc).
  pose proof Hs as Hs'. rewrite E in Hs'. pose proof (at_key_unique fst hi _ l4 _ Hs' H4) as Hu4.
  exists (l1 ++ if loInc then [] else l2), ((if hiInc then [] else l4) ++ l5). split.
  { destruct loInc, hiInc; simpl; rewrite ?app_nil_r, <-?app_assoc; done. }
  unfold leafBounds. rewrite (leafSearch_spec lo l1 l2) by done. cbn [mbind option_bind].
  rewrite E, (leafSearch_spec hi (l1 ++ l2 ++ l3) l4) by done. cbn [mbind option_bind].
  f_equal. f_equal.
  - destruct loInc; cbn [negb andb]; [by rewrite app_nil_r|].
    destruct Hu2 as [->|[a ->]]; simpl; [by rewrite app_nil_r|by rewrite length_app].
  - destruct loInc, hiInc; cbn [negb andb]; rewrite ?app_nil_r, ?app_nil_l, !length_app;
      destruct Hu4 as [->|[b ->]]; simpl; lia.
Qed.

Lemma collectRange_spec P h n d :
  wf_node compare P h n →
  ∃ es, collectRange compare n lo hi loInc hiInc d = Some es ∧ collected compare P sel d h n es.
Proof.
  intros Hwf. revert d. pose proof Hwf as Hwf'.
  induction Hwf' as [P l Hs HP|P h ps cs buf bs Hs HPp Hlen Hw HPb Hbs Hcs IH]; intros d.
  { exists (leaf_entry d <$> filter (λ p, sel p.1) l). cbn [collectRange]. split.
    - destruct (leafBounds_spec l Hs) as (p & q & E & ->). cbn [mbind option_bind].
      pose proof (leaf_entries_spec p (filter (λ p, sel p.1) l) q d) as El.
      rewrite <-E in El. apply El; [done|lia].
    - apply (collected_leaf P sel); [done|done|apply in_range_keq]. }
  cbn [collectRange]. rewrite bufferSlice_spec by done. cbn [mbind option_bind].
  rewrite !findChildIndex_spec by done. cbn [mbind option_bind pivots].
  set (s := child_ix compare ps lo). set (e := child_ix compare ps hi).
  set (f := λ c, collectRange compare c lo hi loInc hiInc (d + 1)).
  assert (s ≤ e < length cs) as Hse.
  { pose proof (child_ix_le (compare := compare) ps hi). split; [|unfold e; lia].
    apply child_ix_mono. lia. }
  change (map f cs) with (f <$> cs).
  destruct (mapM_id_total (take (e + 1 - s) (drop s (f <$> cs)))) as (parts & E & Hl & Hparts).
  { intros x (j & Hj)%list_elem_of_lookup.
    apply lookup_take_Some in Hj as [Hj _]. rewrite lookup_drop in Hj.
    apply list_lookup_fmap_Some in Hj as (c & -> & Hc).
    destruct (IH _ c Hc (Hcs _ c Hc) (d + 1)) as (es & Ees & _). unfold f. rewrite Ees. by eexists. }
  rewrite E. cbn [mbind option_bind]. eexists. split; [done|].
  rewrite length_take, length_drop, length_fmap in Hl.
  apply (collected_internal P _ d h ps cs buf bs _ s parts); try done.
  - by apply Forall_filter_sub.
  - apply Forall_forall. intros m [? Hm]%list_elem_of_filter.
    rewrite Forall_forall in HPb. split; [by apply HPb|done].
  - intros k Hk. unfold for_key, bufferSliceScan. rewrite list_filter_filter.
    apply filter_iff. intros m _. split; [tauto|]. intros Hm. split; [done|].
    by eapply in_range_keq.
  - intros j part Hj. apply Hparts in Hj.
    apply lookup_take_Some in Hj as [Hj _]. rewrite lookup_drop in Hj.
    apply list_lookup_fmap_Some in Hj as (c & Ec & Hc). exists c. split; [done|].
    destruct (IH _ c Hc (Hcs _ c Hc) (d + 1)) as (es & E' & Hes).
    unfold f in Ec. rewrite E' in Ec. simplify_eq. by rewrite Nat.add_1_r in Hes.
  - intros k _ [Hlo Hhi]%in_range_bounds.
    pose proof (child_ix_mono (compare := compare) ps lo k Hlo).
    pose proof (child_ix_mono (compare := compare) ps k hi Hhi). unfold s, e in *. lia.
Qed.

End range_spec.

(** ** Pruning *)

(** Two trees that agree on the children from the one [lo] routes to up to the one
    [hi] routes to; the other children may be anything. *)
Inductive same_routes {K V} (compare : K → K → Z) (lo hi : K) : node K V → node K V → Prop :=
| routes_refl n : same_routes compare lo hi n n
| routes_children ps cs cs' buf bs :
    length cs' = length cs →
    (∀ i c c', child_ix compare ps lo ≤ i ≤ child_ix compare ps hi →
       cs !! i = Some c → cs' !! i = Some c' → same_routes compare lo hi c c') →
    same_routes compare lo hi (Internal ps cs buf bs) (Internal ps cs' buf bs).

Section pruning.
Context {K V : Type} `{Zero V} {compare : K → K → Z} {HC : Comparator compare}.
Implicit Types (n : node K V).

(** [collectRange] does not look at the other children. *)
Lemma collectRange_routes P h n n' lo hi (loInc hiInc : bool) d :
  wf_node compare P h n → same_routes compare lo hi n n' →
  collectRange compare n' lo hi loInc hiInc d = collectRange compare n lo hi loInc hiInc d.
Proof.
  intros Hwf. revert n' d.
  induction Hwf as [P l Hs HP|P h ps cs buf bs Hs HPp Hlen Hw HPb Hbs Hcs IH]; intros n' d Hn;
    inversion Hn as [|? ? cs' ? ? Hl Hr]; subst; [done..|].
  cbn [collectRange]. rewrite !findChildIndex_spec by done. cbn [pivots].
  change (bufferSlice (Internal ps cs' buf bs)) with (bufferSlice (Internal ps cs buf bs)).
  set (s := child_ix compare ps lo) in *. set (e := child_ix compare ps hi) in *.
  destruct (bufferSlice _ _ _ _ _ _) as [msgs|]; [|done]. cbn [mbind option_bind].
  match goal with |- (_ ← mapM id ?a; _) = (_ ← mapM id ?b; _) => enough (a = b) as -> by done end.
  apply list_eq. intros j. destruct (decide (j < e + 1 - s)) as [Hj|Hj].
  - rewrite !lookup_take_lt, !lookup_drop by done.
    rewrite !list_lookup_fmap. destruct (cs !! (s + j)) as [c|] eqn:Hc.
    + destruct (lookup_lt_is_Some_2 cs' (s + j)) as [c' Hc'].
      { rewrite Hl. by eapply lookup_lt_Some. }
      rewrite Hc'. cbn [fmap option_fmap option_map]. f_equal.
      eapply (IH (s + j) c Hc), (Hr (s + j)); [lia|done..].
    + by rewrite (lookup_ge_None_2 cs') by (rewrite Hl; by apply lookup_ge_None).
  - by rewrite !lookup_take_ge by lia.
Qed.

End pruning.

(** ** Snapshots *)

(** A snapshot lists, in ascending order, the values of the selected keys. *)
Record snapshot {K V} (compare : K → K → Z) (sel : K → Prop) `{!∀ k, Decision (sel k)}
    (f : K → option V) (pairs : list (kvPair K V)) : Prop := {
  sn_sorted : ksorted compare fst pairs;
  sn_keys : Forall (λ p, sel p.1) pairs;
  sn_lookup k : alookup compare k pairs = if decide (sel k) then f k else None
}.

Section snapshots.
Context {K V : Type} `{Zero V} {compare : K → K → Z} {HC : Comparator compare}.
Implicit Types (n : node K V) (k : K).

Lemma collected_snapshot sel `{!∀ k, Decision (sel k)} h n es :
  (∀ x y, keq compare x y → sel y → sel x) →
  collected compare (λ _, True) sel 0 h n es →
  ∃ r, resolveEntries compare es = Some r ∧ snapshot compare sel (den compare n) r.
Proof.
  intros Hsel [Hd Hk Hv]. destruct (resolveEntries_spec (compare := compare) (S h) es)
    as (r & -> & [R1 R2 R3]).
  { eapply Forall_impl; [exact Hd|]. simpl. lia. }
  rewrite Forall_forall in Hk. exists r. split; [done|]. split; [done|..].
  - apply Forall_forall. intros p (e & He & ->)%R2. by apply Hk.
  - intros k. rewrite R3. case_decide as Hs; [by apply Hv|].
    unfold entries_for. rewrite filter_none; [apply level_value_nil|].
    apply Forall_forall. intros e He Hek. apply Hs. destruct (Hk e He) as [_ Hse].
    apply (Hsel k (e_key e)); [|done]. unfold keq. ord k (e_key e).
Qed.

End snapshots.

Section materialize.
Context {K V : Type} `{Zero V}.
Implicit Types (t : BETree K V) (k : K).

Lemma materializeAll_spec t h :
  Comparator (cmp t) → wf_node (cmp t) (λ _, True) h (root t) →
  ∃ pairs, materializeAll t = Some pairs
           ∧ snapshot (cmp t) (λ _, True) (den (cmp t) (root t)) pairs.
Proof.
  intros HC Hwf. unfold materializeAll.
  destruct (collectAll_spec (λ _, True) h (root t) 0 Hwf) as (es & -> & Hes).
  by apply (collected_snapshot _ h).
Qed.

Lemma materializeRange_gen t h lo hi (loInc hiInc : bool) :
  Comparator (cmp t) → wf_node (cmp t) (λ _, True) h (root t) → (loInc && hiInc = false) →
  ∃ pairs, (if decide (0 ≤ cmp t lo hi)%Z then Some []
            else entries ← collectRange (cmp t) (root t) lo hi loInc hiInc 0;
                 resolveEntries (cmp t) entries) = Some pairs
    ∧ snapshot (cmp t) (in_range (cmp t) lo hi loInc hiInc) (den (cmp t) (root t)) pairs.
Proof.
  intros HC Hwf Hinc. case_decide as Hlh.
  - exists []. split; [done|]. split; [constructor|constructor|].
    intros k. rewrite decide_False; [done|]. unfold in_range. intros Hin.
    ord_facts lo k hi. destruct loInc, hiInc; (discriminate || lia).
  - destruct (collectRange_spec (compare := cmp t) lo hi loInc hiInc ltac:(lia) (λ _, True) h (root t) 0 Hwf)
      as (es & -> & Hes).
    apply (collected_snapshot _ h); [apply in_range_keq|done].
Qed.

End materialize.

(** ** Consuming an iterator *)

Section consumer.
Context {K V St : Type} (yield : St → K → V → St * bool).
Implicit Types (pairs : list (K * V)) (s : St).

(** The consumer's state after all of [pairs]. *)
Definition consumed s pairs : St := foldl (λ s p, (yield s p.1 p.2).1) s pairs.

(** The consumer accepts the next pair after [n] of [pairs]. *)
Definition accepts pairs s (n : nat) : option bool :=
  (λ p, (yield (consumed s (take n pairs)) p.1 p.2).2) <$> pairs !! n.

(** The consumer is handed exactly the first [n] pairs: it accepts all of these
    but the last, which it refuses unless there are no more pairs. *)
Definition handed pairs s (n : nat) : Prop :=
  n ≤ length pairs ∧ (∀ i, S i < n → accepts pairs s i = Some true)
  ∧ (n < length pairs → ∃ i, n = S i ∧ accepts pairs s i = Some false).

Lemma handed_refuse k v pairs s : (yield s k v).2 = false → handed ((k, v) :: pairs) s 1.
Proof.
  intros E. split; [simpl; lia|]. split; [lia|]. intros _. exists 0. split; [done|].
  unfold accepts. cbn. by rewrite E.
Qed.

Lemma handed_accept k v pairs s n :
  (yield s k v).2 = true → handed pairs (yield s k v).1 n → (pairs ≠ [] → 0 < n) →
  handed ((k, v) :: pairs) s (S n).
Proof.
  intros E (Hn & Ha & Hr) Hpos. split; [simpl; lia|]. split.
  - intros [|i] Hi; unfold accepts; cbn; [by rewrite E|]. apply Ha. lia.
  - intros Hlt. cbn [length] in Hlt. destruct (Hr ltac:(lia)) as (i & -> & Hi).
    exists (S i). split; [done|]. exact Hi.
Qed.

Lemma push_prefix pairs s :
  ∃ n, push pairs yield s = consumed s (take n pairs) ∧ handed pairs s n ∧ (pairs ≠ [] → 0 < n).
Proof.
  revert s. induction pairs as [|[k v] pairs IH]; intros s.
  { exists 0. split; [done|]. split; [|done]. split; [done|]. split; simpl; lia. }
  cbn [push]. pose proof (handed_refuse k v pairs s) as Hf. pose proof (handed_accept k v pairs s) as Ha.
  destruct (yield s k v) as [s1 go] eqn:Ey. destruct go.
  - destruct (IH s1) as (n & E & Hn & Hpos). exists (S n). rewrite E. split; [|split; [by apply Ha|lia]].
    unfold consumed. cbn [take foldl fst snd]. by rewrite Ey.
  - exists 1. unfold consumed. cbn [take foldl fst snd]. rewrite Ey. split; [done|]. split; [by apply Hf|lia].
Qed.

Lemma push_down_app pairs rest p s :
  p ≤ length pairs → push_down (pairs ++ rest) p yield s = push_down pairs p yield s.
Proof.
  revert s. induction p as [|p IH]; intros s Hp; [done|]. cbn [push_down].
  rewrite lookup_app_l by lia. destruct (pairs !! p) as [[k v]|]; [|done].
  cbn [mbind option_bind]. destruct (yield s k v) as [s1 []]; [apply IH; lia|done].
Qed.

(** Counting the snapshot down is pushing its reverse. *)
Lemma push_down_reverse pairs s :
  push_down pairs (length pairs) yield s = Some (push (reverse pairs) yield s).
Proof.
  revert s. induction pairs as [|[k v] pairs IH] using rev_ind; intros s; [done|].
  rewrite length_app, reverse_app. cbn [length]. rewrite Nat.add_1_r. cbn [push_down].
  rewrite lookup_app_r by lia. rewrite Nat.sub_diag. cbn.
  destruct (yield s k v) as [s1 []]; [|done]. rewrite push_down_app by lia. apply IH.
Qed.

(** Either direction hands the consumer a prefix of its sequence. *)
Lemma run_seq_prefix (it : Seq2 K V) s :
  let pairs := match it with Ascending pairs => pairs | Descending pairs => reverse pairs end in
  ∃ n, run_seq it yield s = Some (consumed s (take n pairs)) ∧ handed pairs s n.
Proof.
  destruct it as [pairs|pairs]; cbn [run_seq].
  - destruct (push_prefix pairs s) as (n & E & Hn & _). exists n. by rewrite E.
  - destruct (push_prefix (reverse pairs) s) as (n & E & Hn & _). exists n.
    by rewrite push_down_reverse, E.
Qed.
End consumer.
