(* ===== verification/Tree.v ===== *)
(** * The operations of the tree (tree.go)

    One definition per method of [BETree].  A method returns the new tree with
    its Go result; [None] is a panic.  Each method takes the tree's lock for its
    whole body (the iterators for the snapshot), so it is one atomic step and the
    mutex does not appear.

    [tree_ok] is the invariant every operation keeps; [lookup t] the partial map
    the tree stands for.  The specifications say how an operation changes
    [lookup], that it cannot panic on a tree that satisfies the invariant, and
    how [size] moves. *)

From S2P Require Import Prelude Order Slices Message Node LeafMerge Flush Iterator.

Section operations.
Context {K V : Type} `{Zero K, Zero V}.
Implicit Types (t : BETree K V) (n : node K V).

(** ** Reading *)

(** Calling an upsert function value; a nil function panics. *)
Definition apply_fn (st : V * bool) (f : option (UpsertFn V)) : option (V * bool) :=
  let '(base, ex) := st in
  f ← f; if ex : bool then Some (f (Some base) true, true) else Some (f None false, true).
Definition applyUpsertChain (base : V) (ex : bool) (fns : list (option (UpsertFn V)))
    : option (V * bool) :=
  if decide (length fns = 0) then Some (base, ex)
  else '(base, _) ← foldM apply_fn (base, ex) (rev fns); Some (base, true).

(** The loop over the buffer, newest message first: the result that ends the
    search, or the extended upsert chain. *)
Fixpoint scan_msgs (msgs : list (Message K V)) (fns : list (option (UpsertFn V)))
    : option ((V * bool) + list (option (UpsertFn V))) :=
  match msgs with
  | [] => Some (inr fns)
  | m :: msgs =>
      match Kind m with
      | MsgPut => r ← applyUpsertChain (Value m) true fns; Some (inl r)
      | MsgDelete =>
          if decide (0 < length fns) then r ← applyUpsertChain zero false fns; Some (inl r)
          else Some (inl (zero, false))
      | MsgUpsert => scan_msgs msgs (fns ++ [Fn m])
      | MsgDeleteRange => scan_msgs msgs fns
      end
  end.

Fixpoint getWithUpserts (compare : K → K → Z) (n : node K V) (key : K)
    (fns : list (option (UpsertFn V))) : option (V * bool) :=
  match n with
  | Leaf ks vs =>
      '(i, found) ← leafSearch (Leaf ks vs) key compare;
      if found : bool then v ← vs !! i; applyUpsertChain v true fns
      else if decide (0 < length fns) then applyUpsertChain zero false fns
      else Some (zero, false)
  | Internal ps cs buf bs =>
      msgs ← bufferMessagesForKey (Internal ps cs buf bs) key compare;
      r ← scan_msgs (rev msgs) fns;
      match r with
      | inl result => Some result
      | inr fns =>
          childIdx ← findChildIndex (Internal ps cs buf bs) key compare;
          get ← map (λ c, getWithUpserts compare c key) cs !! childIdx;
          get fns
      end
  end.

Definition getFromNode (t : BETree K V) (n : node K V) (key : K) : option (V * bool) :=
  getWithUpserts (cmp t) n key [].

Fixpoint existsInLeaf (compare : K → K → Z) (n : node K V) (key : K) : option bool :=
  match n with
  | Leaf ks vs => '(_, found) ← leafSearch (Leaf ks vs) key compare; Some found
  | Internal ps cs buf bs =>
      childIdx ← findChildIndex (Internal ps cs buf bs) key compare;
      found ← map (λ c, existsInLeaf compare c key) cs !! childIdx;
      found
  end.

Definition Get t (key : K) : option (V * bool) := getFromNode t (root t) key.
Definition Contains t (key : K) : option bool := '(_, found) ← Get t key; Some found.
Definition Len t : Z := size t.

(** ** Writing *)

(** The end of every buffered write: append, flush when over capacity, split
    the root when it became too wide. *)
Definition overflow t : option (BETree K V) :=
  if decide (bufferCap (params t) < len (buffer (root t)))%Z then
    '(t, n) ← flushNode t (root t);
    let t := set_root t n in
    if decide (fanout (params t) < len (children (root t)))%Z then splitRoot t else Some t
  else Some t.
Definition buffer_msg t (m : Message K V) : option (BETree K V) :=
  n ← appendToBuffer (root t) m; Some (set_root t n).

Definition putLocked t (key : K) (value : V) (knownNew : bool) : option (BETree K V) :=
  if leaf (root t) then
    '(n, isNew) ← leafInsert (root t) key value (cmp t);
    let t := set_root (if isNew : bool then adjust t 1 0 else t) n in
    if decide (leafCap (params t) < len (keys (root t)))%Z then splitRoot t else Some t
  else
    isNew ← (if knownNew then Some true
             else if decide (0 < pendingDeletes t)%Z then
               '(_, ex) ← getFromNode t (root t) key; Some (negb ex)
             else
               ex ← existsInLeaf (cmp t) (root t) key; Some (negb ex));
    let t := if isNew : bool then adjust t 1 0 else t in
    t ← buffer_msg t (mkMessage MsgPut key zero value None isNew);
    overflow t.
Definition Put t (key : K) (value : V) : option (BETree K V) := putLocked t key value false.

Definition PutIfAbsent t (key : K) (value : V) : option (BETree K V * bool) :=
  '(_, ex) ← getFromNode t (root t) key;
  if ex : bool then Some (t, false)
  else t ← putLocked t key value true; Some (t, true).

Definition delete_msg (key : K) : Message K V := mkMessage MsgDelete key zero zero None false.
Definition deleteLocked t (key : K) : option (BETree K V * bool) :=
  if leaf (root t) then
    '(n, found) ← leafDelete (root t) key (cmp t);
    if found : bool then Some (set_root (adjust t (-1) 0) n, true) else Some (set_root t n, false)
  else
    '(_, ex) ← getFromNode t (root t) key;
    if negb ex then Some (t, false)
    else
      let t := adjust t (-1) 1 in
      t ← buffer_msg t (delete_msg key);
      t ← overflow t;
      Some (t, true).
Definition Delete t (key : K) : option (BETree K V * bool) := deleteLocked t key.

(** [fn] is [None] when the caller passes a nil function: a leaf root calls it, and
    panics; a buffer takes the message, and a read or a flush calls it later. *)
Definition Upsert t (key : K) (fn : option (UpsertFn V)) : option (BETree K V) :=
  if leaf (root t) then
    '(i, found) ← leafSearch (root t) key (cmp t);
    f ← fn;
    t ← (if found : bool then
           v ← values (root t) !! i;
           vs ← update i (f (Some v) true) (values (root t));
           Some (set_root t (Leaf (keys (root t)) vs))
         else
           '(n, _) ← leafInsert (root t) key (f None false) (cmp t);
           Some (set_root (adjust t 1 0) n));
    if decide (leafCap (params t) < len (keys (root t)))%Z then splitRoot t else Some t
  else
    t ← buffer_msg t (mkMessage MsgUpsert key zero zero fn false);
    overflow t.

(** The leaf loop of [DeleteRange]; [p] indices remain, [i = p - 1]. *)
Fixpoint delete_range_leaf (compare : K → K → Z) (lo hi : K) (p : nat)
    (ks : list K) (vs : list V) (count : Z) : option (list K * list V * Z) :=
  match p with
  | 0 => Some (ks, vs, count)
  | S i =>
      k ← ks !! i;
      if decide (0 ≤ compare k lo ∧ compare k hi < 0)%Z then
        ks ← Slices.Delete ks i;
        vs ← Slices.Delete vs i;
        delete_range_leaf compare lo hi i ks vs (count + 1)
      else delete_range_leaf compare lo hi i ks vs count
  end.

Definition DeleteRange t (lo hi : K) : option (BETree K V * Z) :=
  if decide (0 ≤ cmp t lo hi)%Z then Some (t, 0%Z)
  else if leaf (root t) then
    '(ks, vs, count) ← delete_range_leaf (cmp t) lo hi (length (keys (root t)))
                         (keys (root t)) (values (root t)) 0;
    Some (set_root (adjust t (- count) 0) (Leaf ks vs), count)
  else
    entries ← collectRange (cmp t) (root t) lo hi true false 0;
    pairs ← resolveEntries (cmp t) entries;
    if decide (length pairs = 0) then Some (t, 0%Z)
    else
      let count := len pairs in
      let t := adjust t (- count) count in
      t ← foldM (λ t p, buffer_msg t (delete_msg p.1)) t pairs;
      t ← overflow t;
      Some (t, count).

(** The new leaf has the capacity that the constructor's [newLeaf] was given, so
    making it does not panic. *)
Definition Clear t : BETree K V := mkBETree emptyLeaf (cmp t) (params t) 0 0 (closed t).
Definition Close t : BETree K V :=
  mkBETree (root t) (cmp t) (params t) (size t) (pendingDeletes t) true.

End operations.

(** ** Invariant and meaning *)

Record tree_ok {K V} (t : BETree K V) : Prop := {
  ok_cmp :: Comparator (cmp t);
  ok_params : params_ok (params t);
  ok_wf : ∃ h, wf_node (cmp t) (λ _, True) h (root t);
  ok_fan : fan_ok (fanout (params t)) (root t);
  ok_size : size t = balance (root t);
  ok_pending : pendingDeletes t = pending (root t);
  ok_dels k : on_path (cmp t) dels_ok (root t) k
}.

Definition lookup {K V} (t : BETree K V) (k : K) : option V := den (cmp t) (root t) k.

(** What no write touches. *)
Definition same_config {K V} (t t' : BETree K V) : Prop :=
  cmp t' = cmp t ∧ params t' = params t ∧ closed t' = closed t.

(** A step that changes neither the configuration nor any key's value. *)
Record quiet {K V} (t t' : BETree K V) : Prop := {
  qu_config : same_config t t';
  qu_lookup k : lookup t' k = lookup t k;
  qu_path Q `{!PathInv Q} k : on_path (cmp t) Q (root t) k → on_path (cmp t') Q (root t') k
}.

(** ** Reads *)

Section reads.
Context {K V : Type} `{Zero K, Zero V} {compare : K → K → Z} {HC : Comparator compare}.
Implicit Types (n : node K V) (k : K) (fs : list (UpsertFn V)) (o : option V).

(** An upsert chain, oldest function first. *)
Definition play_fns o fs : option V := foldl (λ o f, Some (call_upsert f o)) o fs.

Lemma apply_fns_spec o fs :
  foldM apply_fn (comma_ok o) (Some <$> fs) = Some (comma_ok (play_fns o fs)).
Proof.
  revert o. induction fs as [|f fs IH]; intros o; [done|].
  cbn [fmap list_fmap foldM]. unfold play_fns in *. cbn [foldl].
  assert (apply_fn (comma_ok o) (Some f) = Some (comma_ok (Some (call_upsert f o)))) as ->
    by (by destruct o).
  cbn [mbind option_bind]. apply IH.
Qed.

Lemma applyUpsertChain_spec o fs :
  (let '(base, ex) := comma_ok o in applyUpsertChain base ex (Some <$> fs))
  = Some (comma_ok (play_fns o (rev fs))).
Proof.
  destruct (comma_ok o) as [base ex] eqn:E. unfold applyUpsertChain.
  case_decide as Hl.
  - destruct fs; [|done]. by rewrite <-E.
  - rewrite <-E. change (rev (Some <$> fs)) with (rev (map Some fs)). rewrite <-map_rev.
    change (map Some (rev fs)) with (Some <$> rev fs). rewrite apply_fns_spec. cbn [mbind option_bind].
    destruct fs as [|f fs]; [done|]. cbn [rev]. unfold play_fns. by rewrite foldl_app.
Qed.

(** The newest-first scan of a buffer agrees with playing it oldest-first. *)
Lemma scan_msgs_spec (msgs : list (Message K V)) fs :
  Forall wf_msg msgs →
  ∃ r, scan_msgs (rev msgs) (Some <$> fs) = Some r ∧
    match r with
    | inl result => ∀ o, result = comma_ok (play_fns (foldl apply_msg o msgs) (rev fs))
    | inr fns => ∃ fs', fns = Some <$> fs'
                   ∧ ∀ o, play_fns o (rev fs') = play_fns (foldl apply_msg o msgs) (rev fs)
    end.
Proof.
  intros Hw. revert fs. induction msgs as [|m msgs IH] using rev_ind; intros fs.
  { exists (inr (Some <$> fs)). split; [done|]. by exists fs. }
  apply Forall_app in Hw as [Hw [Hm _]%Forall_cons]. rewrite rev_app_distr. cbn [rev app scan_msgs].
  unfold wf_msg in Hm. destruct (Kind m) eqn:Ek.
  - pose proof (applyUpsertChain_spec (Some (Value m)) fs) as E. simpl in E. rewrite E.
    cbn [mbind option_bind]. eexists. split; [done|]. intros o. rewrite foldl_app. simpl.
    by unfold apply_msg; rewrite Ek.
  - pose proof (applyUpsertChain_spec None fs) as E. simpl in E. rewrite length_fmap.
    assert (∀ o, foldl apply_msg o (msgs ++ [m]) = None) as Hn.
    { intros o. rewrite foldl_app. simpl. unfold apply_msg at 1. by rewrite Ek. }
    case_decide as Hl.
    + rewrite E. cbn [mbind option_bind]. eexists. split; [done|]. intros o. by rewrite Hn.
    + destruct fs; [|simpl in Hl; lia]. eexists. split; [done|]. intros o. by rewrite Hn.
  - done.
  - destruct Hm as [f Hf]. rewrite Hf.
    replace ((Some <$> fs) ++ [Some f]) with (Some <$> (fs ++ [f])) by (by rewrite fmap_app).
    destruct (IH Hw (fs ++ [f])) as (r & E & Hr). exists r. split; [exact E|].
    assert (∀ o, play_fns (foldl apply_msg o msgs) (rev (fs ++ [f]))
                 = play_fns (foldl apply_msg o (msgs ++ [m])) (rev fs)) as Ef.
    { intros o. rewrite rev_app_distr, foldl_app. unfold play_fns, apply_msg. simpl. by rewrite Ek, Hf. }
    destruct r as [res|fns].
    + intros o. by rewrite <-Ef.
    + destruct Hr as (fs' & -> & Hr). exists fs'. split; [done|]. intros o. by rewrite <-Ef.
Qed.

Lemma getWithUpserts_spec P h n k fs :
  wf_node compare P h n →
  getWithUpserts compare n k (Some <$> fs) = Some (comma_ok (play_fns (den compare n k) (rev fs))).
Proof.
  intros Hwf. revert fs.
  induction Hwf as [P l Hs HP|P h ps cs buf bs Hs HPp Hlen Hw HPb Hbs Hcs IH]; intros fs;
    cbn [getWithUpserts].
  - destruct (key_split_strict fst k l Hs) as (l1 & l2 & l3 & -> & H1 & H2 & H3 & Hu).
    rewrite leafSearch_spec by done. cbn [mbind option_bind].
    cbn [den]. rewrite zip_fst_snd, alookup_split by done.
    destruct Hu as [->|[[k' v] ->]].
    + rewrite bool_decide_eq_false_2 by naive_solver. cbn [alookup].
      pose proof (applyUpsertChain_spec None fs) as E. simpl in E. rewrite length_fmap.
      case_decide as Hl; [done|]. destruct fs; [done|simpl in Hl; lia].
    + rewrite bool_decide_eq_true_2 by done. apply Forall_cons in H2 as [H2 _]. cbn [alookup fst].
      rewrite decide_True by done. rewrite !fmap_app. cbn [fmap list_fmap app].
      rewrite lookup_middle by (by rewrite length_fmap). cbn [mbind option_bind].
      apply (applyUpsertChain_spec (Some v) fs).
  - rewrite bufferMessagesForKey_spec by done. cbn [mbind option_bind buffer].
    destruct (scan_msgs_spec (for_key compare k buf) fs) as (r & -> & Hr);
      [by apply Forall_filter_sub|]. cbn [mbind option_bind].
    destruct (routed_child (compare := compare) ps cs k Hlen) as [c Hc].
    rewrite (den_internal ps cs buf bs k c Hc). unfold run. destruct r as [res|fns].
    + by rewrite <-Hr.
    + destruct Hr as (fs' & -> & Hr). rewrite findChildIndex_spec by done.
      cbn [mbind option_bind pivots]. change (map ?f cs) with (f <$> cs).
      rewrite list_lookup_fmap, Hc. cbn [fmap option_fmap option_map mbind option_bind].
      rewrite (IH _ c Hc). by rewrite Hr.
Qed.

(** The value stored in the leaf a key routes to, ignoring the buffers. *)
Fixpoint leaf_value n k : option V :=
  match n with
  | Leaf ks vs => alookup compare k (zip ks vs)
  | Internal ps cs _ _ => default None (map (λ c, leaf_value c k) cs !! child_ix compare ps k)
  end.

Lemma existsInLeaf_spec P h n k :
  wf_node compare P h n →
  existsInLeaf compare n k = Some (bool_decide (is_Some (leaf_value n k))).
Proof.
  induction 1 as [P l Hs HP|P h ps cs buf bs Hs HPp Hlen Hw HPb Hbs Hcs IH]; cbn [existsInLeaf].
  - destruct (key_split_strict fst k l Hs) as (l1 & l2 & l3 & -> & H1 & H2 & H3 & Hu).
    rewrite leafSearch_spec by done. cbn [mbind option_bind leaf_value]. f_equal.
    rewrite zip_fst_snd, alookup_split by done. apply bool_decide_ext.
    destruct Hu as [->|[[k' v] ->]]; cbn [alookup].
    + split; [by intros []|by intros [? ?]].
    + apply Forall_cons in H2 as [H2 _]. cbn [fst] in H2. rewrite decide_True by done. by split.
  - rewrite findChildIndex_spec by done. cbn [mbind option_bind pivots leaf_value].
    destruct (routed_child (compare := compare) ps cs k Hlen) as [c Hc].
    change (map ?f cs) with (f <$> cs). rewrite !list_lookup_fmap, Hc.
    cbn [fmap option_fmap option_map mbind option_bind default]. apply (IH _ c Hc).
Qed.

(** A nil function in the chain panics when the chain is applied. *)
Lemma apply_fns_nil st (fns : list (option (UpsertFn V))) : None ∈ fns → foldM apply_fn st fns = None.
Proof.
  revert st. induction fns as [|f fns IH]; intros [base ex]; [by intros ?%not_elem_of_nil|].
  intros [<-|Hin]%elem_of_cons; [done|]. cbn [foldM apply_fn].
  destruct f as [f|]; [|done]. destruct ex; cbn [mbind option_bind]; by apply IH.
Qed.

Lemma applyUpsertChain_nil base ex (fns : list (option (UpsertFn V))) :
  None ∈ fns → applyUpsertChain base ex fns = None.
Proof.
  intros Hin. unfold applyUpsertChain.
  rewrite decide_False by (by destruct fns; [apply not_elem_of_nil in Hin|]).
  rewrite apply_fns_nil; [done|]. rewrite rev_alt. by apply elem_of_reverse.
Qed.

Lemma scan_msgs_nil (msgs : list (Message K V)) fns :
  None ∈ fns → scan_msgs msgs fns = None ∨ ∃ fns', scan_msgs msgs fns = Some (inr fns') ∧ None ∈ fns'.
Proof.
  revert fns. induction msgs as [|m msgs IH]; intros fns Hin; [right; by exists fns|].
  cbn [scan_msgs]. destruct (Kind m).
  - left. by rewrite applyUpsertChain_nil.
  - left. rewrite decide_True by (destruct fns; [by apply not_elem_of_nil in Hin|simpl; lia]).
    by rewrite applyUpsertChain_nil.
  - by apply IH.
  - apply IH, elem_of_app. by left.
Qed.

Lemma getWithUpserts_nil n k (fns : list (option (UpsertFn V))) :
  None ∈ fns → getWithUpserts compare n k fns = None.
Proof.
  revert fns. induction n as [ks vs|ps cs buf bs IH] using node_tree_ind; intros fns Hin;
    cbn [getWithUpserts].
  - destruct (leafSearch _ _ _) as [[i [|]]|]; [|..|done]; cbn [mbind option_bind].
    + destruct (vs !! i); [|done]. by apply applyUpsertChain_nil.
    + rewrite decide_True by (destruct fns; [by apply not_elem_of_nil in Hin|simpl; lia]).
      by apply applyUpsertChain_nil.
  - destruct (bufferMessagesForKey _ _ _) as [msgs|]; [|done]. cbn [mbind option_bind].
    destruct (scan_msgs_nil (rev msgs) fns Hin) as [->|(fns' & -> & Hin')]; [done|].
    cbn [mbind option_bind]. destruct (findChildIndex _ _ _) as [ix|]; [|done]. cbn [mbind option_bind].
    change (map ?f cs) with (f <$> cs). rewrite list_lookup_fmap.
    destruct (cs !! ix) as [c|] eqn:Hc; [|done]. cbn [fmap option_fmap option_map mbind option_bind].
    rewrite Forall_forall in IH. apply IH; [by eapply list_elem_of_lookup_2|done].
Qed.

End reads.

(** ** Splitting the root and flushing it *)

Section writes.
Context {K V : Type} `{Zero K, Zero V}.
Implicit Types (t : BETree K V) (n : node K V) (k : K) (m : Message K V) (l : list (K * V)).

#[export] Instance quiet_PreOrder : PreOrder (@quiet K V).
Proof.
  split.
  - intros t. by split.
  - intros t1 t2 t3 [[C1 [C2 C3]] L1 P1] [[D1 [D2 D3]] L2 P2].
    split; [|intros; by rewrite L2|eauto]. split_and!; congruence.
Qed.

(** [tree_ok] but for the fanout of the root. *)
Record tree_wide t : Prop := {
  wd_cmp :: Comparator (cmp t);
  wd_params : params_ok (params t);
  wd_wf : ∃ h, wf_node (cmp t) (λ _, True) h (root t);
  wd_size : size t = balance (root t);
  wd_pending : pendingDeletes t = pending (root t);
  wd_dels k : on_path (cmp t) dels_ok (root t) k
}.

Lemma tree_ok_wide t : tree_ok t ↔ tree_wide t ∧ fan_ok (fanout (params t)) (root t).
Proof. split; [by intros []|by intros [[] ?]]. Qed.

Lemma splitRoot_spec t :
  tree_wide t → splittable (fanout (params t)) (root t) →
  ∃ t', splitRoot t = Some t' ∧ tree_ok t' ∧ quiet t t'.
Proof.
  intros [HC Hp [h Hwf] Hs Hpd Hd] Hsp. pose proof Hp as (HF & _ & _).
  set (n := Internal [] [root t] [] false).
  assert (wf_node (cmp t) (λ _, True) (S h) n) as Hn.
  { constructor; try done; [constructor|]. intros [|i] c Hi; [|done].
    injection Hi as <-. eapply wf_node_weaken; [exact Hwf|]. done. }
  assert (same_contents (cmp t) (root t) n) as Hsame.
  { split.
    - done.
    - intros Q HQ k Hk. cbn. split; [apply path_nil|done]. }
  destruct (splitChild_spec (compare := cmp t) (λ _, True) h (fanout (params t)) [] [] (root t) []
              [] false Hn HF Hsp) as (ps' & cs' & E & Hwf' & Hsame' & Hbal & Hpend & Hlen & Hfan);
    [constructor..|].
  unfold splitRoot. cbv zeta. cbn [length app] in *. rewrite E. cbn [mbind option_bind].
  eexists. split; [done|]. cbn [app] in *.
  assert (balance n = balance (root t) ∧ pending n = pending (root t)) as [Eb Ep].
  { unfold n. rewrite balance_internal, pending_internal. unfold sum_of. simpl. lia. }
  pose proof (transitivity Hsame Hsame') as [Sd Sp]. fold n in Hbal, Hpend. split.
  - split; cbn [cmp params root size pendingDeletes set_root].
    + done.
    + done.
    + by exists (S h).
    + apply fan_ok_internal. split; [|done]. simpl in Hlen. lia.
    + by rewrite Hs, Hbal.
    + by rewrite Hpd, Hpend.
    + intros k. by apply Sp; [apply dels_ok_PathInv|].
  - split; [done| |].
    + intros k. apply Sd.
    + intros Q HQ k Hk. by apply Sp.
Qed.

(** Split the root when [big], which implies that it can be split. *)
Lemma split_root_if t (big : Prop) `{!Decision big} :
  tree_wide t → (big → splittable (fanout (params t)) (root t)) →
  (¬ big → fan_ok (fanout (params t)) (root t)) →
  ∃ t', (if decide big then splitRoot t else Some t) = Some t' ∧ tree_ok t' ∧ quiet t t'.
Proof.
  intros Hw Hb Hs. case_decide; [by apply splitRoot_spec; auto|].
  exists t. split; [done|]. split; [|done]. apply tree_ok_wide. auto.
Qed.

Lemma overflow_spec t : tree_ok t → ∃ t', overflow t = Some t' ∧ tree_ok t' ∧ quiet t t'.
Proof.
  intros Hok. pose proof Hok as [HC Hp [h Hwf] Hf Hs Hpd Hd]. unfold overflow.
  case_decide as Hb; [|by exists t].
  destruct (flushNode_total t (λ _, True) h (root t)) as (t1 & n1 & E & [Fw Fs Ft Fl Fc Ff] & _);
    [done..|].
  rewrite E. cbn [mbind option_bind]. cbv zeta.
  assert (cmp t1 = cmp t ∧ params t1 = params t ∧ closed t1 = closed t) as (Ec & Ep & Ecl)
    by (by rewrite Ft).
  assert (tree_wide (set_root t1 n1)) as Hw.
  { split; cbn [cmp params root size pendingDeletes set_root]; rewrite ?Ec, ?Ep; try done.
    - by exists h.
    - rewrite Ft. cbn [size adjust]. lia.
    - rewrite Ft. cbn [pendingDeletes adjust]. lia.
    - intros k. by apply Fs; [apply dels_ok_PathInv|]. }
  assert (quiet t (set_root t1 n1)) as Hq.
  { split.
    - done.
    - intros k. unfold lookup. cbn [cmp root set_root]. rewrite Ec. apply Fs.
    - intros Q HQ k Hk. cbn [cmp root set_root]. rewrite Ec. by apply Fs. }
  destruct n1 as [|ps1 cs1 buf1 bs1].
  { destruct (root t); [simpl in Hb; pose proof Hp as (_ & ? & _); lia|done]. }
  destruct (split_root_if (set_root t1 (Internal ps1 cs1 buf1 bs1))
              (fanout (params (set_root t1 (Internal ps1 cs1 buf1 bs1)))
               < len (children (root (set_root t1 (Internal ps1 cs1 buf1 bs1)))))%Z Hw)
    as (t' & E' & Hok' & Hq').
  - cbn [params root set_root children splittable]. rewrite Ep. intros Hbig.
    destruct (root t) as [|ps cs buf bs]; [done|]. cbn [children] in *.
    apply fan_ok_internal in Hf as [Hf _].
    apply wf_internal_inv in Fw as (? & ? & ? & ? & ? & _). destruct Hp as (? & _).
    split_and!; [lia|lia|done].
  - cbn [params root set_root children]. rewrite Ep. intros. apply fan_ok_internal.
    split; [lia|done].
  - exists t'. split; [exact E'|]. split; [done|]. by etransitivity.
Qed.

(** ** Buffering a message *)

(** [t'] is [t] with the message [m] newly buffered: keys equivalent to the
    message's play it, the others keep their value. *)
Record wrote (m : Message K V) t t' : Prop := {
  wr_config : same_config t t';
  wr_lookup k : lookup t' k = if decide (cmp t (Key m) k = 0%Z) then apply_msg (lookup t k) m
                              else lookup t k;
  wr_path Q `{!PathInv Q} k :
    (cmp t (Key m) k = 0%Z → Q (lookup t k) [m]) →
    on_path (cmp t) Q (root t) k → on_path (cmp t') Q (root t') k
}.

Lemma wrote_quiet m t t1 t2 : wrote m t t1 → quiet t1 t2 → wrote m t t2.
Proof.
  intros [[C1 [C2 C3]] L1 P1] [[D1 [D2 D3]] L2 P2]. split.
  - split_and!; congruence.
  - intros k. by rewrite L2.
  - intros Q HQ k H1 H2. by apply P2, P1.
Qed.

Lemma buffer_msg_spec t m :
  tree_ok t → leaf (root t) = false → wf_msg m →
  (Kind m = MsgDelete → is_Some (lookup t (Key m))) →
  ∃ t', buffer_msg (adjust t (msg_delta m) (is_delete m)) m = Some t'
        ∧ tree_ok t' ∧ leaf (root t') = false ∧ wrote m t t'.
Proof.
  intros [HC Hp [h Hwf] Hf Hs Hpd Hd] Hl Hm Hdel. unfold buffer_msg.
  destruct (root t) as [|ps cs buf bs] eqn:Er; [done|].
  cbn [root adjust]. rewrite Er. cbn [appendToBuffer mbind option_bind].
  eexists. split; [done|].
  apply wf_internal_inv in Hwf as Hwf'.
  destruct Hwf' as (h' & -> & Hps & HPp & Hlen & Hw & HPb & Hbs & Hcs).
  assert (∀ Q, PathInv Q → ∀ k, (cmp t (Key m) k = 0%Z → Q (lookup t k) [m]) →
            on_path (cmp t) Q (Internal ps cs buf bs) k →
            on_path (cmp t) Q (Internal ps cs (buf ++ [m]) (bool_decide (length (buf ++ [m]) ≤ 1))) k)
    as Hpath.
  { intros Q HQ k Hk. destruct (routed_child (compare := cmp t) ps cs k Hlen) as [c Hc].
    rewrite (on_path_internal Q ps cs buf bs k c Hc), (on_path_internal Q ps cs _ _ k c Hc).
    intros [HQb ?]. split; [|done]. rewrite for_key_app, path_app. split; [done|].
    unfold for_key at 2. rewrite filter_cons. case_decide as Hkk; [|by apply path_nil].
    specialize (Hk Hkk). unfold lookup in Hk. rewrite Er, (den_internal ps cs buf bs k c Hc) in Hk.
    exact Hk. }
  assert (∀ k, den (cmp t) (Internal ps cs (buf ++ [m]) (bool_decide (length (buf ++ [m]) ≤ 1))) k
               = if decide (cmp t (Key m) k = 0%Z) then apply_msg (lookup t k) m else lookup t k) as Hden.
  { intros k. unfold lookup. rewrite Er.
    destruct (routed_child (compare := cmp t) ps cs k Hlen) as [c Hc].
    rewrite !(den_internal ps cs _ _ k c Hc), run_app, run_cons, run_nil. by case_decide. }
  split; [|split; [done|]].
  - split; cbn [cmp params root size pendingDeletes set_root adjust]; try done.
    + exists (S h'). constructor; try done; try (apply Forall_app; by repeat constructor).
      intros Hb%bool_decide_eq_true. rewrite length_app in Hb. simpl in Hb.
      destruct buf; [repeat constructor|simpl in Hb; lia].
    + rewrite Hs, !balance_internal, sum_of_app. unfold sum_of. simpl. lia.
    + rewrite Hpd, !pending_internal, sum_of_app. unfold sum_of. simpl. lia.
    + intros k. apply Hpath; [apply dels_ok_PathInv| |done]. intros Hk. split; [|done].
      intros Hdm. assert (keq (cmp t) (Key m) k) as Hkeq by done.
      specialize (Hdel Hdm). unfold lookup in *. rewrite Er in *.
      by rewrite <-Hkeq.
  - split; cbn [cmp params root set_root adjust].
    + done.
    + exact Hden.
    + intros Q HQ k Hk. rewrite Er. by apply Hpath.
Qed.

(** ** The single-key writes *)

(** The outcome of a write that plays [m]. *)
Record stepped (m : Message K V) t t' : Prop := {
  st_ok : tree_ok t';
  st_config : same_config t t';
  st_lookup k : lookup t' k = if decide (cmp t (Key m) k = 0%Z) then apply_msg (lookup t k) m
                              else lookup t k;
  st_path Q `{!PathInv Q} k :
    (leaf (root t) = false → cmp t (Key m) k = 0%Z → Q (lookup t k) [m]) →
    on_path (cmp t) Q (root t) k → on_path (cmp t') Q (root t') k
}.

Lemma buffered_step t m :
  tree_ok t → leaf (root t) = false → wf_msg m →
  (Kind m = MsgDelete → is_Some (lookup t (Key m))) →
  ∃ t1 t', buffer_msg (adjust t (msg_delta m) (is_delete m)) m = Some t1
           ∧ overflow t1 = Some t' ∧ stepped m t t'.
Proof.
  intros Hok Hl Hm Hd.
  destruct (buffer_msg_spec t m Hok Hl Hm Hd) as (t1 & E1 & Hok1 & _ & Hw).
  destruct (overflow_spec t1 Hok1) as (t' & E2 & Hok' & Hq).
  destruct (wrote_quiet _ _ _ _ Hw Hq) as [C L P].
  exists t1, t'. split_and!; [done..|]. split; try done. intros Q HQ k HQk. apply P; auto.
Qed.

Lemma leaf_root t :
  tree_ok t → leaf (root t) = true →
  ∃ l, root t = Leaf l.*1 l.*2 ∧ ksorted (cmp t) fst l ∧ size t = len l ∧ pendingDeletes t = 0%Z
       ∧ ∀ k, lookup t k = alookup (cmp t) k l.
Proof.
  intros [HC Hp [h Hwf] Hf Hs Hpd Hd] Hl. destruct (root t) as [ks vs|] eqn:Er; [|done].
  apply wf_leaf_inv in Hwf as (l & -> & -> & -> & Hsl & _). exists l.
  cbn [balance pending] in *. rewrite length_fmap in Hs. split_and!; try done.
  intros k. unfold lookup. rewrite Er. cbn [den]. by rewrite zip_fst_snd.
Qed.

(** Replacing the leaf at the root. *)
Lemma leaf_replace t l l' m ds :
  tree_ok t → root t = Leaf l.*1 l.*2 → ksorted (cmp t) fst l' → ds = (len l' - len l)%Z →
  (∀ k, alookup (cmp t) k l' = if decide (cmp t (Key m) k = 0%Z)
                               then apply_msg (alookup (cmp t) k l) m else alookup (cmp t) k l) →
  stepped m t (set_root (adjust t ds 0) (Leaf l'.*1 l'.*2)).
Proof.
  intros [HC Hp _ _ Hs Hpd _] Er Hs' -> Hlook. rewrite Er in Hs, Hpd. cbn [balance pending] in *.
  rewrite length_fmap in Hs. split; [|done| |done].
  - split; cbn [cmp params root size pendingDeletes set_root adjust balance pending];
      try done; [|rewrite length_fmap; lia|lia].
    exists 0. constructor; [done|]. by apply Forall_true.
  - intros k. unfold lookup. rewrite Er.
    cbn [cmp root set_root adjust den]. rewrite !zip_fst_snd. apply Hlook.
Qed.

(** The split of an overfull leaf at the root. *)
Lemma leaf_split_step m t t1 :
  leaf (root t1) = true → stepped m t t1 →
  ∃ t', (if decide (leafCap (params t1) < len (keys (root t1)))%Z then splitRoot t1 else Some t1)
        = Some t' ∧ stepped m t t'.
Proof.
  intros Hl [Hok (C1 & C2 & C3) L P]. pose proof Hok as [_ (_ & _ & Hcap) _ _ _ _ _].
  destruct (root t1) as [ks vs|] eqn:Er; [|done]. rewrite <-Er.
  destruct (split_root_if t1 (leafCap (params t1) < len (keys (root t1)))%Z)
    as (t' & -> & Hok' & [(? & ? & ?) L' P']).
  - by apply tree_ok_wide.
  - rewrite Er. cbn [splittable keys]. lia.
  - by rewrite Er.
  - exists t'. split; [done|]. split; [done|split_and!; congruence| |].
    + intros k. by rewrite L'.
    + intros Q HQ k HQk Hk. apply P'; [done|]. by rewrite Er.
Qed.

Definition put_msg (k : K) (v : V) (isNew : bool) : Message K V :=
  mkMessage MsgPut k zero v None isNew.
Definition upsert_msg (k : K) (fn : option (UpsertFn V)) : Message K V :=
  mkMessage MsgUpsert k zero zero fn false.

(** The test whether a buffered put is new. *)
Definition new_key t k (knownNew : bool) : bool :=
  knownNew || (if decide (0 < pendingDeletes t)%Z then bool_decide (lookup t k = None)
               else bool_decide (leaf_value (compare := cmp t) (root t) k = None)).

Lemma getFromNode_root t k : tree_ok t → getFromNode t (root t) k = Some (comma_ok (lookup t k)).
Proof.
  intros [HC _ [h Hwf] _ _ _ _]. unfold getFromNode.
  apply (getWithUpserts_spec (λ _, True) h (root t) k [] Hwf).
Qed.

Lemma putLocked_spec t k v kn :
  tree_ok t → ∃ t', putLocked t k v kn = Some t' ∧ stepped (put_msg k v (new_key t k kn)) t t'.
Proof.
  intros Hok. pose proof Hok as [HC Hp [h Hwf] _ _ _ _]. unfold putLocked.
  destruct (leaf (root t)) eqn:Hl.
  - destruct (leaf_root t Hok Hl) as (l & Er & Hs & _). rewrite Er.
    destruct (key_split_strict fst k l Hs) as (l1 & l2 & l3 & -> & H1 & H2 & H3 & Hu).
    rewrite leafInsert_spec by done. cbn [mbind option_bind]. cbv zeta.
    set (k' := default k (head l2.*1)). set (l' := l1 ++ (k', v) :: l3).
    assert (keq (cmp t) k' k) as Hk'.
    { unfold k'. destruct Hu as [->|[[k0 v0] ->]]; [apply compare_refl|].
      by apply Forall_cons in H2 as [H2 _]. }
    assert ((if bool_decide (l2 = []) then adjust t 1 0 else t)
            = adjust t (len l' - len (l1 ++ l2 ++ l3)) 0) as ->.
    { unfold l'. rewrite !length_app. destruct Hu as [->|[a ->]]; simpl.
      - apply adjust_eq; lia.
      - symmetry. apply adjust_0; lia. }
    apply leaf_split_step; [done|].
    apply (leaf_replace t (l1 ++ l2 ++ l3) l'); [done|done|by eapply ksorted_put|done|].
    intros x. unfold l'. by rewrite (alookup_put k k' v l1 l2 l3).
  - assert ((if kn then Some true
             else if decide (0 < pendingDeletes t)%Z
                  then '(_, ex) ← getFromNode t (root t) k; Some (negb ex)
                  else ex ← existsInLeaf (cmp t) (root t) k; Some (negb ex))
            = Some (new_key t k kn)) as ->.
    { unfold new_key. destruct kn; [done|]. cbn [orb]. case_decide.
      - rewrite getFromNode_root by done. by destruct (lookup t k).
      - rewrite (existsInLeaf_spec (λ _, True) h) by done. cbn [mbind option_bind]. f_equal.
        by destruct (leaf_value (root t) k). }
    cbn [mbind option_bind]. set (m := put_msg k v (new_key t k kn)).
    destruct (buffered_step t m Hok Hl) as (t1 & t' & E1 & E2 & Hst); [done|done|].
    assert ((if new_key t k kn then adjust t 1 0 else t)
            = adjust t (msg_delta m) (is_delete m)) as ->.
    { unfold m, put_msg, msg_delta, is_delete. cbn [Kind counted].
      destruct (new_key t k kn); [done|]. by rewrite adjust_0. }
    fold (put_msg k v (new_key t k kn)). fold m. rewrite E1. cbn [mbind option_bind].
    exists t'. by rewrite E2.
Qed.

Lemma Upsert_step t k f :
  tree_ok t → ∃ t', Upsert t k (Some f) = Some t' ∧ stepped (upsert_msg k (Some f)) t t'.
Proof.
  intros Hok. pose proof Hok as [HC Hp [h Hwf] _ _ _ _]. unfold Upsert.
  destruct (leaf (root t)) eqn:Hl.
  - destruct (leaf_root t Hok Hl) as (l & Er & Hs & _). rewrite Er.
    destruct (key_split_strict fst k l Hs) as (l1 & l2 & l3 & -> & H1 & H2 & H3 & Hu).
    rewrite leafSearch_spec by done. cbn [mbind option_bind].
    set (v' := call_upsert f (alookup (cmp t) k (l1 ++ l2 ++ l3))).
    set (k' := default k (head l2.*1)). set (l' := l1 ++ (k', v') :: l3).
    assert (keq (cmp t) k' k) as Hk'.
    { unfold k'. destruct Hu as [->|[[k0 v0] ->]]; [apply compare_refl|].
      by apply Forall_cons in H2 as [H2 _]. }
    assert (v' = call_upsert f (head l2.*2)) as Hv'.
    { unfold v'. rewrite alookup_split by done. destruct Hu as [->|[[k0 v0] ->]]; [done|].
      apply Forall_cons in H2 as [H2 _]. cbn [alookup fst] in *. by rewrite decide_True. }
    match goal with |- context[t0 ← ?E; _] =>
      assert (E = Some (set_root (adjust t (len l' - len (l1 ++ l2 ++ l3)) 0) (Leaf l'.*1 l'.*2))) as -> end.
    { unfold l'. destruct Hu as [->|[[k0 v0] ->]].
      - rewrite bool_decide_eq_false_2 by naive_solver.
        rewrite (leafInsert_spec k _ l1 [] l3) by (done || by left). cbn [mbind option_bind].
        rewrite Hv'. cbn. do 2 f_equal. apply adjust_eq; rewrite ?length_app; simpl; lia.
      - rewrite bool_decide_eq_true_2 by done. cbn [values keys]. rewrite !fmap_app. cbn [fmap list_fmap app].
        rewrite lookup_middle by (by rewrite length_fmap). cbn [mbind option_bind].
        rewrite update_middle by (by rewrite length_fmap). cbn [mbind option_bind].
        rewrite Hv'. cbn. do 2 f_equal. symmetry. apply adjust_0; rewrite ?length_app; simpl; lia. }
    cbn [mbind option_bind].
    apply leaf_split_step; [done|].
    apply (leaf_replace t (l1 ++ l2 ++ l3) l'); [done|done|by eapply ksorted_put|done|].
    intros x. unfold l'. rewrite (alookup_put k k' v' l1 l2 l3) by done.
    unfold apply_msg, upsert_msg. cbn [Key Kind Fn]. case_decide as Hx; [|done].
    unfold v'. by rewrite (Hx : keq (cmp t) k x).
  - cbn [mbind option_bind]. set (m := upsert_msg k (Some f)).
    destruct (buffered_step t m Hok Hl) as (t1 & t' & E1 & E2 & Hst); [by eexists|done|].
    replace (adjust t (msg_delta m) (is_delete m)) with t in E1 by (symmetry; by apply adjust_0).
    fold (upsert_msg k (Some f)). fold m. rewrite E1. cbn [mbind option_bind].
    exists t'. by rewrite E2.
Qed.

Lemma deleteLocked_spec t k :
  tree_ok t → ∃ t', deleteLocked t k = Some (t', bool_decide (is_Some (lookup t k)))
    ∧ stepped (delete_msg k) t t' ∧ (lookup t k = None → t' = t).
Proof.
  intros Hok. pose proof Hok as [HC Hp [h Hwf] _ _ _ _]. unfold deleteLocked.
  assert (lookup t k = None → stepped (delete_msg k) t t) as Hnone.
  { intros Hn. split; [done|done| |done]. intros x. cbn [delete_msg Key apply_msg Kind].
    case_decide as Hx; [|done]. unfold lookup in *. by rewrite <-(Hx : keq (cmp t) k x). }
  destruct (leaf (root t)) eqn:Hl.
  - destruct (leaf_root t Hok Hl) as (l & Er & Hs & _ & _ & Hlk). rewrite Er, Hlk.
    destruct (key_split_strict fst k l Hs) as (l1 & l2 & l3 & -> & H1 & H2 & H3 & Hu).
    rewrite leafDelete_spec by done. cbn [mbind option_bind]. rewrite alookup_split by done.
    destruct Hu as [->|[[k0 v0] ->]].
    + rewrite bool_decide_eq_false_2 by naive_solver. exists t. split.
      * rewrite bool_decide_eq_false_2 by (intros [? ?]; done).
        do 2 f_equal. rewrite app_nil_l in Er. rewrite <-Er. by destruct t.
      * split; [|done]. apply Hnone. by rewrite Hlk, alookup_split.
    + rewrite bool_decide_eq_true_2 by done. pose proof H2 as [H2' _]%Forall_cons.
      cbn [alookup fst] in *. rewrite decide_True by done. rewrite bool_decide_eq_true_2 by done.
      eexists. split; [done|]. split; [|done].
      apply (leaf_replace t (l1 ++ [(k0, v0)] ++ l3) (l1 ++ l3));
        [done|done|by eapply ksorted_delete|rewrite !length_app; simpl; lia|].
      intros x. cbn [delete_msg Key apply_msg Kind]. by apply alookup_delete.
  - rewrite getFromNode_root by done. cbn [mbind option_bind].
    destruct (lookup t k) as [v|] eqn:Hk; cbn [comma_ok negb].
    + set (m := delete_msg k).
      destruct (buffered_step t m Hok Hl) as (t1 & t' & E1 & E2 & Hst); [done| |].
      { intros _. unfold m. cbn [Key delete_msg]. by rewrite Hk. }
      change (adjust t (-1) 1) with (adjust t (msg_delta m) (is_delete m)).
      rewrite E1. cbn [mbind option_bind]. rewrite E2. by exists t'.
    + exists t. split; [done|]. split; [|done]. by apply Hnone.
Qed.

End writes.

(** ** DeleteRange *)

Section delete_range.
Context {K V : Type} `{Zero K, Zero V}.
Implicit Types (t : BETree K V) (k lo hi : K) (l : list (K * V)).

Abbreviation in_right_open compare lo hi := (in_range compare lo hi true false).

Lemma delete_range_leaf_spec (compare : K → K → Z) lo hi l1 l2 count :
  delete_range_leaf compare lo hi (length l1) (l1 ++ l2).*1 (l1 ++ l2).*2 count
  = Some ((filter (λ p, ¬ in_right_open compare lo hi p.1) l1 ++ l2).*1,
          (filter (λ p, ¬ in_right_open compare lo hi p.1) l1 ++ l2).*2,
          (count + len (filter (λ p, in_right_open compare lo hi p.1) l1))%Z).
Proof.
  revert l2 count. induction l1 as [|[k v] l1 IH] using rev_ind; intros l2 count.
  { cbn [length delete_range_leaf]. rewrite !filter_nil. f_equal. f_equal. simpl. lia. }
  rewrite length_app, Nat.add_1_r. cbn [delete_range_leaf].
  rewrite <-app_assoc. cbn [app].
  assert ((l1 ++ (k, v) :: l2).*1 !! length l1 = Some k) as ->.
  { rewrite fmap_app. apply lookup_middle. by rewrite length_fmap. }
  cbn [mbind option_bind]. rewrite !filter_app, !filter_cons, !filter_nil. cbn [fst].
  assert ((0 ≤ compare k lo ∧ compare k hi < 0)%Z ↔ in_right_open compare lo hi k) as Hin
    by (unfold in_range; intuition congruence).
  destruct (decide (0 ≤ compare k lo ∧ compare k hi < 0)%Z) as [Hk|Hk].
  - rewrite !fmap_app. cbn [fmap list_fmap].
    rewrite !Delete_app by (by rewrite length_fmap). cbn [mbind option_bind].
    rewrite <-!fmap_app, IH. rewrite decide_False by tauto. rewrite decide_True by tauto.
    rewrite app_nil_r, length_app. f_equal. f_equal. simpl. lia.
  - rewrite IH. rewrite decide_True by tauto. rewrite decide_False by tauto.
    by rewrite app_nil_r, <-app_assoc.
Qed.

Lemma adjust_buffer_msg t (m : Message K V) a b :
  buffer_msg (adjust t a b) m = (λ t', adjust t' a b) <$> buffer_msg t m.
Proof. unfold buffer_msg. cbn [root adjust]. by destruct (appendToBuffer (root t) m). Qed.

(** Deletes that remain to be buffered have already been counted. *)
Lemma buffer_deletes_spec t (pairs : list (kvPair K V)) :
  tree_ok t → leaf (root t) = false → ksorted (cmp t) fst pairs →
  Forall (λ p, is_Some (lookup t p.1)) pairs →
  ∃ t', foldM (λ t p, buffer_msg t (delete_msg p.1)) (adjust t (- len pairs) (len pairs)) pairs
        = Some t'
    ∧ tree_ok t' ∧ same_config t t'
    ∧ (∀ k, lookup t' k = match alookup (cmp t) k pairs with Some _ => None | None => lookup t k end)
    ∧ (∀ Q (HQ : PathInv Q) k, (alookup (cmp t) k pairs ≠ None → Q (lookup t k) [delete_msg k]) →
         (∀ x k o, Q o [delete_msg x] → Q o [delete_msg k]) →
         on_path (cmp t) Q (root t) k → on_path (cmp t') Q (root t') k).
Proof.
  revert t. induction pairs as [|[k0 v0] pairs IH]; intros t Hok Hl Hs Hlive.
  { exists t. cbn [foldM]. rewrite adjust_0 by done. split_and!; done. }
  pose proof (ok_cmp t Hok) as HC.
  apply Forall_cons in Hlive as [Hk0 Hlive]. apply ksorted_cons in Hs as [Ha Hs].
  cbn [foldM fst]. set (m := delete_msg k0).
  match goal with |- context[adjust t ?a ?b] =>
    assert (adjust t a b = adjust (adjust t (msg_delta m) (is_delete m)) (- len pairs) (len pairs))
      as -> end.
  { rewrite adjust_adjust. apply adjust_eq; unfold m, msg_delta, is_delete; simpl; lia. }
  rewrite adjust_buffer_msg.
  destruct (buffer_msg_spec t m Hok Hl) as (t1 & -> & Hok1 & Hl1 & [(C1 & C2 & C3) L P]); [done|done|].
  cbn [fmap option_fmap option_map mbind option_bind].
  cbn [m delete_msg Key] in L, P.
  destruct (IH t1) as (t' & E & Hok' & (D1 & D2 & D3) & L' & P'); try done.
  - by rewrite C1.
  - rewrite Forall_forall in Ha, Hlive |- *. intros p Hp. rewrite L.
    specialize (Ha p Hp). simpl in Ha. rewrite decide_False by lia. by apply Hlive.
  - exists t'. rewrite C1 in *. split; [exact E|]. split; [done|]. split; [split_and!; congruence|]. split.
    + intros k. rewrite L', L. cbn [alookup]. destruct (alookup (cmp t) k pairs); by case_decide.
    + intros Q HQ k HQk Hany Hk. cbn [alookup] in HQk. apply P'; [done| |done|].
      * intros Hne. rewrite L. destruct (decide (cmp t k0 k = 0%Z)) as [E0|E0]; [|auto].
        destruct Hne. rewrite <-(E0 : keq (cmp t) k0 k).
        apply alookup_hd_above; [done|]. intros p Hp. destruct pairs; simplify_eq/=.
        apply Forall_cons in Ha as [Ha _]. simpl in Ha. ord k0 (fst p).
      * apply P; [done| |done]. intros E0. rewrite decide_True in HQk by done.
        eapply Hany. by apply HQk.
Qed.

(** The pairs of a snapshot are live. *)
Lemma snapshot_live t sel `{!∀ k, Decision (sel k)} (pairs : list (kvPair K V)) :
  Comparator (cmp t) → snapshot (cmp t) sel (den (cmp t) (root t)) pairs →
  Forall (λ p, is_Some (lookup t p.1)) pairs.
Proof.
  intros HC [Ss Sk Sl]. apply Forall_forall. intros [k v] Hp. cbn [fst].
  rewrite Forall_forall in Sk. specialize (Sk _ Hp). cbn [fst] in Sk.
  pose proof (Sl k) as Slk. rewrite decide_True in Slk by done. unfold lookup. rewrite <-Slk.
  rewrite (alookup_elem k v) by done. by eexists.
Qed.

(** What a range deletion leaves: no key of the range, every other key as it was. *)
Definition range_deleted t lo hi t' : Prop :=
  tree_ok t' ∧ same_config t t'
  ∧ (∀ k, lookup t' k = if decide (in_right_open (cmp t) lo hi k) then None else lookup t k)
  ∧ (∀ Q (HQ : PathInv Q) k, (is_Some (lookup t k) → Q (lookup t k) [delete_msg k]) →
       (∀ x k o, Q o [delete_msg x] → Q o [delete_msg k]) →
       on_path (cmp t) Q (root t) k → on_path (cmp t') Q (root t') k).

(** A range without live keys is left alone. *)
Lemma range_deleted_refl t lo hi :
  tree_ok t → (∀ k, in_right_open (cmp t) lo hi k → lookup t k = None) → range_deleted t lo hi t.
Proof. intros Hok Hno. split_and!; try done. intros k. case_decide; [by apply Hno|done]. Qed.

(** The entries of a leaf inside a range, and those outside it. *)
Lemma lookup_in_range compare `{!Comparator compare} lo hi k (l : list (K * V)) :
  alookup compare k (filter (λ p, in_right_open compare lo hi p.1) l)
  = if decide (in_right_open compare lo hi k) then alookup compare k l else None.
Proof.
  case_decide as Hin.
  - apply (alookup_filter (in_right_open compare lo hi)). intros x Hx. by eapply in_range_keq.
  - apply alookup_None, Forall_forall. intros p [Hp' _]%list_elem_of_filter Ek.
    apply Hin. eapply in_range_keq; [|exact Hp']. symmetry. exact Ek.
Qed.

Lemma lookup_out_of_range compare `{!Comparator compare} lo hi k (l : list (K * V)) :
  alookup compare k (filter (λ p, ¬ in_right_open compare lo hi p.1) l)
  = if decide (in_right_open compare lo hi k) then None else alookup compare k l.
Proof.
  case_decide as Hin.
  - apply alookup_None, Forall_forall. intros p [Hp' _]%list_elem_of_filter Ek.
    apply Hp'. by eapply in_range_keq.
  - refine (alookup_filter (compare := compare) (λ x, ¬ in_right_open compare lo hi x) k l _).
    intros x Hx Hin'. apply Hin. eapply in_range_keq; [|exact Hin']. by symmetry.
Qed.

(** At a root leaf the entries of the range are cut out. *)
Lemma DeleteRange_leaf t lo hi pairs :
  tree_ok t → leaf (root t) = true → ksorted (cmp t) fst pairs →
  (∀ k, alookup (cmp t) k pairs
        = if decide (in_right_open (cmp t) lo hi k) then lookup t k else None) →
  ∃ t', ('(ks, vs, count) ← delete_range_leaf (cmp t) lo hi (length (keys (root t)))
                              (keys (root t)) (values (root t)) 0;
         Some (set_root (adjust t (- count) 0) (Leaf ks vs), count)) = Some (t', len pairs)
    ∧ range_deleted t lo hi t'.
Proof.
  intros Hok Hl Ss Sl. pose proof Hok as [HC Hp _ Hf Hs Hpd Hd].
  destruct (leaf_root t Hok Hl) as (l & Er & Hsl & Hsz & Hpd0 & Hlk). rewrite Er. cbn [keys values].
  rewrite length_fmap.
  pose proof (delete_range_leaf_spec (cmp t) lo hi l [] 0) as Ed. rewrite !app_nil_r in Ed. rewrite Ed.
  cbn [mbind option_bind]. set (l' := filter (λ p, ¬ in_right_open (cmp t) lo hi p.1) l).
  set (gone := filter (λ p, in_right_open (cmp t) lo hi p.1) l).
  assert (len pairs = len gone) as Elen.
  { f_equal. apply (sorted_run_length (compare := cmp t)); [done| |].
    { by apply (ksorted_filter (in_right_open (cmp t) lo hi)). }
    intros k. rewrite Sl, Hlk. unfold gone. by rewrite lookup_in_range. }
  exists (set_root (adjust t (- len pairs) 0) (Leaf l'.*1 l'.*2)). split; [by rewrite Elen|].
  assert (len l = len l' + len gone)%Z as Hsum.
  { rewrite <-(Permutation_length (filter_app_complement
      (λ p, in_right_open (cmp t) lo hi p.1) l)), length_app. unfold l', gone. lia. }
  split; [|split; [done|split; [|done]]].
  - split; cbn [cmp params root size pendingDeletes set_root adjust balance pending]; try done.
    + exists 0. apply (wf_leaf _ _ l'); [|by apply Forall_true].
      exact (ksorted_filter (compare := cmp t) (λ x, ¬ in_right_open (cmp t) lo hi x) l Hsl).
    + rewrite length_fmap. lia.
    + lia.
  - intros k. unfold lookup at 1. cbn [cmp root set_root adjust den]. rewrite zip_fst_snd, Hlk.
    apply lookup_out_of_range, HC.
Qed.

(** Otherwise a delete of each live key is buffered, and the root flushed. *)
Lemma DeleteRange_buffered t lo hi pairs :
  tree_ok t → leaf (root t) = false → ksorted (cmp t) fst pairs →
  (∀ k, alookup (cmp t) k pairs
        = if decide (in_right_open (cmp t) lo hi k) then lookup t k else None) →
  Forall (λ p, is_Some (lookup t p.1)) pairs →
  ∃ t', (t1 ← foldM (λ t p, buffer_msg t (delete_msg p.1)) (adjust t (- len pairs) (len pairs)) pairs;
         t2 ← overflow t1; Some (t2, len pairs)) = Some (t', len pairs)
    ∧ range_deleted t lo hi t'.
Proof.
  intros Hok Hl Ss Sl Hlive.
  destruct (buffer_deletes_spec t pairs Hok Hl Ss) as (t1 & E1 & Hok1 & (C1 & C2 & C3) & L1 & P1);
    [done|]. rewrite E1. cbn [mbind option_bind].
  destruct (overflow_spec t1 Hok1) as (t' & -> & Hok' & [(D1 & D2 & D3) L2 P2]).
  cbn [mbind option_bind]. exists t'. split; [done|]. split; [done|].
  split; [split_and!; congruence|]. split.
  - intros k. rewrite L2, L1, Sl. case_decide; [|done]. by destruct (lookup t k).
  - intros Q HQ k HQk Hany Hk. apply P2; [done|]. apply P1; [done| |done|done].
    intros Hne. apply HQk. rewrite Sl in Hne. case_decide; [|done].
    by destruct (lookup t k); [eexists|].
Qed.

(** [DeleteRange] deletes the keys of the snapshot [materializeRange] would
    return and returns their number. *)
Lemma DeleteRange_step t lo hi :
  tree_ok t → ∃ t' pairs, DeleteRange t lo hi = Some (t', len pairs)
    ∧ materializeRange t lo hi = Some pairs ∧ range_deleted t lo hi t'.
Proof.
  intros Hok. pose proof Hok as [HC Hp [h Hwf] Hf Hs Hpd Hd]. unfold DeleteRange, materializeRange.
  destruct (materializeRange_gen t h lo hi true false HC Hwf eq_refl) as (pairs & E & Hsnap).
  pose proof Hsnap as [Ss Sk Sl]. destruct (decide (0 ≤ cmp t lo hi)%Z) as [Hlh|Hlh].
  { exists t, []. split; [done|]. split; [done|]. apply range_deleted_refl; [done|].
    intros k Hin. exfalso. unfold in_range in Hin. ord_facts lo k hi. lia. }
  destruct (leaf (root t)) eqn:Hl.
  { destruct (DeleteRange_leaf t lo hi pairs Hok Hl Ss Sl) as (t' & E' & Hdel). by exists t', pairs. }
  destruct (collectRange (cmp t) (root t) lo hi true false 0) as [es|]; [|done].
  cbn [mbind option_bind] in *. rewrite E. cbn [mbind option_bind].
  case_decide as Hnil.
  { exists t, pairs. destruct pairs; [|done]. split; [done|]. split; [done|].
    apply range_deleted_refl; [done|]. intros k Hin. specialize (Sl k).
    rewrite decide_True in Sl by done. symmetry. exact Sl. }
  destruct (DeleteRange_buffered t lo hi pairs Hok Hl Ss Sl) as (t' & E' & Hdel);
    [by eapply snapshot_live|]. by exists t', pairs.
Qed.

End delete_range.

(** ** Nil functions *)

Section nil_upsert.
Context {K V : Type} `{Zero K, Zero V}.
Implicit Types (t : BETree K V).

Lemma Upsert_nil_leaf t k : leaf (root t) = true → Upsert t k None = None.
Proof. intros E. unfold Upsert. rewrite E. by destruct (leafSearch _ _ _) as [[]|]. Qed.

Lemma Upsert_nil_buffered t k :
  tree_ok t → leaf (root t) = false → (len (buffer (root t)) < bufferCap (params t))%Z →
  ∃ t', Upsert t k None = Some t' ∧ Get t' k = None.
Proof.
  intros Hok Hl Hb. pose proof (ok_cmp t Hok) as HC. unfold Upsert. rewrite Hl.
  destruct (root t) as [|ps cs buf bs] eqn:Er; [done|]. unfold buffer_msg. rewrite Er.
  cbn [appendToBuffer mbind option_bind buffer] in *. eexists. split.
  { unfold overflow. cbn [set_root root params buffer]. rewrite length_app, decide_False by (simpl; lia). done. }
  unfold Get, getFromNode. cbn [set_root root cmp getWithUpserts].
  rewrite bufferMessagesForKey_spec.
  2:{ cbn [bufferSorted buffer]. intros Hs%bool_decide_eq_true.
      destruct buf; [repeat constructor|simpl in Hs; lia]. }
  cbn [mbind option_bind buffer]. unfold for_key. rewrite filter_app, filter_cons_True by apply compare_refl.
  rewrite filter_nil, rev_app_distr. cbn [rev app scan_msgs Kind].
  destruct (scan_msgs_nil (rev (filter (λ m, cmp t (Key m) k = 0%Z) buf)) [None]) as [Es|(fns & Es & Hin)];
    [by left|by setoid_rewrite Es|].
  match goal with |- context [scan_msgs ?a ?b] => replace (scan_msgs a b) with (Some (A:=(V * bool) + list (option (UpsertFn V))) (inr fns)) end.
  cbn [mbind option_bind]. destruct (findChildIndex _ _ _) as [ix|]; [|done]. cbn [mbind option_bind].
  change (map ?f cs) with (f <$> cs). rewrite list_lookup_fmap. destruct (cs !! ix) as [c|]; [|done].
  by apply getWithUpserts_nil.
Qed.

End nil_upsert.
