(* ===== verification/Cursor.v ===== *)
(** * Cursors (cursor.go)

    A cursor walks over the snapshot taken when it was created.  Its methods are
    functions of the cursor record; a method that returns a bool returns it with
    the new record.  [c.pos] is an int: [Prev] leaves -1 in it when it runs off
    the front.  [position] is the abstract state: [Some i] on entry [i], [None]
    otherwise; the specifications are transitions of [position].

    [walk] is the loop the package documentation gives: call the mover while it
    returns true and read [Key] and [Value]. *)

From S2P Require Import Prelude Order Slices Message Node LeafMerge Flush Iterator Tree.

Record Cursor (K V : Type) := mkCursor {
  pairs : list (kvPair K V);
  pos : Z;
  valid : bool;
  c_cmp : K → K → Z
}.
Arguments mkCursor {K V}.
Arguments pairs {K V}.
Arguments pos {K V}.
Arguments valid {K V}.
Arguments c_cmp {K V}.

Section cursor.
Context {K V : Type}.
Implicit Types c : Cursor K V.

Definition goto c (p : Z) (v : bool) : Cursor K V := mkCursor (pairs c) p v (c_cmp c).

Definition Next c : Cursor K V * bool :=
  if negb (valid c) then
    if decide (0 < len (pairs c))%Z then (goto c 0 true, true) else (c, false)
  else
    let c := goto c (pos c + 1) true in
    if decide (len (pairs c) ≤ pos c)%Z then (goto c (pos c) false, false) else (c, true).

Definition Prev c : Cursor K V * bool :=
  if negb (valid c) then
    if decide (0 < len (pairs c))%Z then (goto c (len (pairs c) - 1) true, true) else (c, false)
  else
    let c := goto c (pos c - 1) true in
    if decide (pos c < 0)%Z then (goto c (pos c) false, false) else (c, true).

Definition Seek c (key : K) : option (Cursor K V * bool) :=
  lo ← bisect (λ mid, p ← pairs c !! mid; Some (bool_decide (c_cmp c p.1 key < 0)%Z))
         (length (pairs c)) 0 (length (pairs c));
  if decide (length (pairs c) ≤ lo) then Some (goto c (pos c) false, false)
  else Some (goto c (Z.of_nat lo) true, true).

(** [c.pairs[c.pos]]. *)
Definition entry c : option (kvPair K V) :=
  if decide (0 ≤ pos c)%Z then pairs c !! Z.to_nat (pos c) else None.
Definition c_Key c : option K := p ← entry c; Some p.1.
Definition c_Value c : option V := p ← entry c; Some p.2.
Definition Valid c : bool := valid c.
Definition c_Close c : Cursor K V := mkCursor [] (pos c) false (c_cmp c).

(** [tree.Cursor()]. *)
Definition Cursor_ `{Zero V} (t : BETree K V) : option (Cursor K V) :=
  ps ← materializeAll t; Some (mkCursor ps 0 false (cmp t)).

(** [for move() { use(Key(), Value()) }], at most [fuel] moves. *)
Fixpoint walk (move : Cursor K V → Cursor K V * bool) (fuel : nat) c
    : option (list (kvPair K V) * Cursor K V) :=
  match fuel with
  | 0 => Some ([], c)
  | S fuel =>
      let '(c, ok) := move c in
      if ok : bool then
        k ← c_Key c; v ← c_Value c;
        '(l, c) ← walk move fuel c; Some ((k, v) :: l, c)
      else Some ([], c)
  end.

(** ** Abstract position *)

(** A valid cursor is on an entry. *)
Definition cursor_ok c : Prop := valid c = true → (0 ≤ pos c < len (pairs c))%Z.
Definition position c : option nat := if valid c then Some (Z.to_nat (pos c)) else None.

Lemma entry_position c i : cursor_ok c → position c = Some i → entry c = pairs c !! i.
Proof.
  unfold cursor_ok, position, entry. destruct (valid c); [|done]. intros Hc [= <-].
  rewrite decide_True; [done|]. specialize (Hc eq_refl). lia.
Qed.

(** What a move must do: the position goes from [position c] to [next]. *)
Definition moved c (r : Cursor K V * bool) (next : option nat) : Prop :=
  cursor_ok r.1 ∧ pairs r.1 = pairs c ∧ c_cmp r.1 = c_cmp c ∧ position r.1 = next
  ∧ r.2 = bool_decide (is_Some next).

Definition step_forward c : option nat :=
  let next := match position c with Some i => S i | None => 0 end in
  if decide (next < length (pairs c)) then Some next else None.
Definition step_back c : option nat :=
  match position c with
  | Some 0 => None
  | Some (S i) => Some i
  | None => if decide (length (pairs c) = 0) then None else Some (length (pairs c) - 1)
  end.

Lemma Next_moved c : cursor_ok c → moved c (Next c) (step_forward c).
Proof.
  unfold moved, cursor_ok, Next, step_forward, position, goto.
  destruct (valid c) eqn:Ev; intros Hc; cbn [negb pairs pos]; [specialize (Hc eq_refl)|clear Hc].
  - destruct (decide _), (decide _); cbn; split_and!; try done; try lia; f_equal; lia.
  - destruct (decide _), (decide _); cbn; rewrite ?Ev; split_and!; try done; try lia; f_equal; lia.
Qed.

Lemma Prev_moved c : cursor_ok c → moved c (Prev c) (step_back c).
Proof.
  unfold moved, cursor_ok, Prev, step_back, position, goto.
  destruct (valid c) eqn:Ev; intros Hc; cbn [negb pairs pos]; [specialize (Hc eq_refl)|clear Hc].
  - destruct (decide _); destruct (Z.to_nat (pos c)) eqn:?; cbn; split_and!; try done; try lia; f_equal; lia.
  - destruct (decide _), (decide _); cbn; rewrite ?Ev; split_and!; try done; try lia; f_equal; lia.
Qed.

(** [Seek] goes to the first entry whose key is not below [k]. *)
Definition seek_target c (k : K) : option nat :=
  let i := length (filter (λ p, c_cmp c p.1 k < 0)%Z (pairs c)) in
  if decide (i < length (pairs c)) then Some i else None.

Lemma Seek_moved c k :
  Comparator (c_cmp c) → ksorted (c_cmp c) fst (pairs c) →
  ∃ r, Seek c k = Some r ∧ moved c r (seek_target c k).
Proof.
  intros HC Hs. unfold Seek, seek_target.
  destruct (key_split_strict fst k (pairs c) Hs) as (l1 & l2 & l3 & E & H1 & H2 & H3 & _).
  rewrite E.
  rewrite (bisect_prefix (λ p, c_cmp c p.1 k < 0)%Z l1 (l2 ++ l3)); [|done|].
  2:{ apply Forall_app; split; (eapply Forall_impl; [eassumption|]); simpl; lia. }
  cbn [mbind option_bind]. rewrite filter_app, (filter_all _ l1), (filter_none _ (l2 ++ l3)), app_nil_r;
    [|apply Forall_app; split; (eapply Forall_impl; [eassumption|]); simpl; lia|done].
  rewrite <-E. unfold moved, cursor_ok, position, goto.
  destruct (decide (length (pairs c) ≤ length l1)).
  - rewrite decide_False by lia. eexists. split; [done|]. by cbn.
  - rewrite decide_True by lia. eexists. split; [done|]. cbn. split_and!; try done; [lia|f_equal; lia].
Qed.

Lemma Seek_first c k :
  Comparator (c_cmp c) → ksorted (c_cmp c) fst (pairs c) →
  ∃ c' ok, Seek c k = Some (c', ok) ∧ pairs c' = pairs c ∧ Valid c' = ok
    ∧ if ok : bool
      then ∃ i k' v, pairs c !! i = Some (k', v) ∧ c_Key c' = Some k' ∧ c_Value c' = Some v
             ∧ (0 ≤ c_cmp c k' k)%Z
             ∧ ∀ j p, j < i → pairs c !! j = Some p → (c_cmp c p.1 k < 0)%Z
      else ∀ p, p ∈ pairs c → (c_cmp c p.1 k < 0)%Z.
Proof.
  intros HC Hs. destruct (Seek_moved c k HC Hs) as ([c' ok] & E & Hc' & Hp & _ & Hpos & Hok).
  cbn [fst snd] in *. exists c', ok. split; [done|]. split; [done|]. unfold seek_target in *.
  destruct (key_split_strict fst k (pairs c) Hs) as (l1 & l2 & l3 & El & H1 & H2 & H3 & _).
  assert (length (filter (λ p, c_cmp c p.1 k < 0)%Z (pairs c)) = length l1) as Hl.
  { rewrite El, filter_app, (filter_all _ l1), (filter_none _ (l2 ++ l3)), app_nil_r; [done|..]; [|done].
    apply Forall_app; split; (eapply Forall_impl; [eassumption|]); simpl; lia. }
  rewrite Hl in *. case_decide as Hlt.
  - rewrite bool_decide_eq_true_2 in Hok by eauto. subst ok. split.
    { unfold Valid, position in *. by destruct (valid c'). }
    destruct (lookup_lt_is_Some_2 (pairs c) (length l1) Hlt) as [[k' v] Hk].
    exists (length l1), k', v. split; [done|].
    unfold c_Key, c_Value. rewrite (entry_position c' _ Hc' Hpos), Hp, Hk.
    cbn [mbind option_bind fst snd]. split_and!; try done.
    + rewrite El, lookup_app_r in Hk by lia. apply list_elem_of_lookup_2 in Hk.
      unfold at_key, above in *. rewrite Forall_forall in H2, H3.
      apply elem_of_app in Hk as [Hk|Hk]; [specialize (H2 _ Hk)|specialize (H3 _ Hk)];
        simpl in *; lia.
    + intros j p Hj Hjp. rewrite El, lookup_app_l in Hjp by done.
      by apply (Forall_lookup_1 _ _ _ _ H1 Hjp).
  - rewrite bool_decide_eq_false_2 in Hok by (by intros []). subst ok. split.
    { unfold Valid, position in *. by destruct (valid c'). }
    rewrite El, !length_app in Hlt. destruct l2; [|simpl in Hlt; lia]. destruct l3; [|simpl in Hlt; lia].
    rewrite El, app_nil_r. by apply Forall_forall.
Qed.

(** ** Walks *)

Lemma walk_forward_from c i fuel :
  cursor_ok c → position c = Some i → length (pairs c) - i ≤ fuel →
  ∃ c', walk Next fuel c = Some (drop (S i) (pairs c), c') ∧ Valid c' = false.
Proof.
  revert c i. induction fuel as [|fuel IH]; intros c i Hc Hi Hf.
  { exfalso. unfold cursor_ok, position in *. destruct (valid c); [|done].
    specialize (Hc eq_refl). simplify_eq. lia. }
  cbn [walk]. pose proof (Next_moved c Hc) as Hm. unfold step_forward in Hm. rewrite Hi in Hm.
  destruct (Next c) as [c1 ok]. destruct Hm as (Hc1 & Hp & _ & Hpos & Hok). cbn [fst snd] in *. subst ok.
  case_decide as Hlt.
  - rewrite bool_decide_eq_true_2 by eauto. unfold c_Key, c_Value.
    rewrite (entry_position c1 (S i)) by done. rewrite Hp.
    destruct (lookup_lt_is_Some_2 (pairs c) (S i) Hlt) as [[k v] Hk]. rewrite Hk.
    cbn [mbind option_bind fst snd].
    destruct (IH c1 (S i) Hc1 Hpos) as (c' & E & Hv); [rewrite Hp; lia|].
    rewrite E, Hp. cbn [mbind option_bind]. exists c'. split; [|done].
    by rewrite (drop_S _ _ _ Hk).
  - rewrite bool_decide_eq_false_2 by (by intros []). exists c1.
    rewrite drop_ge by lia. split; [done|]. unfold Valid, position in *. by destruct (valid c1).
Qed.

(** A fresh cursor walks the whole snapshot, in order, and stops. *)
Lemma walk_all c fuel :
  valid c = false → length (pairs c) < fuel →
  ∃ c', walk Next fuel c = Some (pairs c, c') ∧ Valid c' = false.
Proof.
  intros Hv Hf. destruct fuel as [|fuel]; [lia|]. cbn [walk].
  assert (cursor_ok c) as Hc by (unfold cursor_ok; by rewrite Hv).
  pose proof (Next_moved c Hc) as Hm. unfold step_forward, position in Hm. rewrite Hv in Hm.
  destruct (Next c) as [c1 ok]. destruct Hm as (Hc1 & Hp & _ & Hpos & Hok). cbn [fst snd] in *. subst ok.
  fold (position c1) in Hpos. case_decide as Hlt.
  - rewrite bool_decide_eq_true_2 by eauto. unfold c_Key, c_Value.
    rewrite (entry_position c1 0) by done. rewrite Hp.
    destruct (lookup_lt_is_Some_2 (pairs c) 0 Hlt) as [[k v] Hk]. rewrite Hk.
    cbn [mbind option_bind fst snd].
    destruct (walk_forward_from c1 0 fuel Hc1 Hpos) as (c' & E & Hv'); [rewrite Hp; lia|].
    rewrite E, Hp. cbn [mbind option_bind]. exists c'. split; [|done].
    by rewrite <-(drop_S _ _ _ Hk).
  - rewrite bool_decide_eq_false_2 by (by intros []). exists c1.
    assert (pairs c = []) as -> by (destruct (pairs c); [done|simpl in Hlt; lia]).
    split; [done|]. unfold Valid, position in *. by destruct (valid c1).
Qed.

Lemma walk_back_from c i fuel :
  cursor_ok c → position c = Some i → i < fuel →
  ∃ c', walk Prev fuel c = Some (reverse (take i (pairs c)), c') ∧ Valid c' = false.
Proof.
  revert c i. induction fuel as [|fuel IH]; intros c i Hc Hi Hf; [lia|].
  cbn [walk]. pose proof (Prev_moved c Hc) as Hm. unfold step_back in Hm. rewrite Hi in Hm.
  assert (i < length (pairs c)) as Hil.
  { unfold cursor_ok, position in *. destruct (valid c); [|done].
    specialize (Hc eq_refl). simplify_eq. lia. }
  destruct (Prev c) as [c1 ok]. destruct Hm as (Hc1 & Hp & _ & Hpos & Hok). cbn [fst snd] in *. subst ok.
  destruct i as [|i].
  - exists c1. split; [done|]. unfold Valid, position in *. by destruct (valid c1).
  - rewrite bool_decide_eq_true_2 by eauto. unfold c_Key, c_Value.
    rewrite (entry_position c1 i) by done. rewrite Hp.
    destruct (lookup_lt_is_Some_2 (pairs c) i) as [[k v] Hk]; [lia|]. rewrite Hk.
    cbn [mbind option_bind fst snd].
    destruct (IH c1 i Hc1 Hpos) as (c' & E & Hv); [lia|].
    rewrite E, Hp. cbn [mbind option_bind]. exists c'. split; [|done].
    by rewrite (take_S_r _ _ _ Hk), reverse_snoc.
Qed.

Lemma walk_all_back c fuel :
  valid c = false → length (pairs c) < fuel →
  ∃ c', walk Prev fuel c = Some (reverse (pairs c), c') ∧ Valid c' = false.
Proof.
  intros Hv Hf. destruct fuel as [|fuel]; [lia|]. cbn [walk].
  assert (cursor_ok c) as Hc by (unfold cursor_ok; by rewrite Hv).
  pose proof (Prev_moved c Hc) as Hm. unfold step_back, position in Hm. rewrite Hv in Hm.
  destruct (Prev c) as [c1 ok]. destruct Hm as (Hc1 & Hp & _ & Hpos & Hok). cbn [fst snd] in *. subst ok.
  fold (position c1) in Hpos. case_decide as Hz.
  - exists c1. destruct (pairs c); [|done].
    split; [done|]. unfold Valid, position in *. by destruct (valid c1).
  - rewrite bool_decide_eq_true_2 by eauto. unfold c_Key, c_Value.
    rewrite (entry_position c1 _ Hc1 Hpos), Hp.
    destruct (lookup_lt_is_Some_2 (pairs c) (length (pairs c) - 1)) as [[k v] Hk]; [lia|].
    rewrite Hk. cbn [mbind option_bind fst snd].
    destruct (walk_back_from c1 _ fuel Hc1 Hpos) as (c' & E & Hv'); [lia|].
    rewrite E, Hp. cbn [mbind option_bind]. exists c'. split; [|done].
    rewrite <-reverse_snoc, <-(take_S_r _ _ _ Hk), take_ge by lia. done.
Qed.

End cursor.
