(* ===== verification/Spec.v ===== *)
(** * The abstract store and the refinement

    What a tree promises: it is a sorted map.  [store] is that map as a sorted
    run of pairs, with one function per method of the [Tree] interface
    (README.md, "Core operations").  [exec] runs a method of the B-epsilon-tree,
    [spec] the corresponding function of the store; [exec_step] shows that they
    agree on every result and keep the states related, for every method but
    [Len], and [exec_all_steps] extends it to sequences of calls.  [Len] returns
    [t.size], a count kept by adjustments; Size.v relates it to the number of
    live keys. *)

From S2P Require Import Prelude Order Slices Message Node LeafMerge Flush Iterator Tree Cursor.

(** ** The store *)

Section store.
Context {K V : Type} (compare : K → K → Z).
Implicit Types (l : list (K * V)) (k lo hi : K).

Definition store_put k (v : V) l : list (K * V) :=
  filter (λ p, compare p.1 k < 0)%Z l ++ (k, v) :: filter (λ p, 0 < compare p.1 k)%Z l.
Definition store_delete k l : list (K * V) := filter (λ p, compare p.1 k ≠ 0%Z) l.
Definition store_apply l (m : Message K V) : list (K * V) :=
  match apply_msg (alookup compare (Key m) l) m with
  | Some v => store_put (Key m) v l
  | None => store_delete (Key m) l
  end.
Definition store_range (lo hi : K) (loInc hiInc : bool) l : list (K * V) :=
  filter (λ p, in_range compare lo hi loInc hiInc p.1) l.
Definition store_delete_range lo hi l : list (K * V) :=
  filter (λ p, ¬ in_range compare lo hi true false p.1) l.

End store.

(** The methods of a tree and their results. *)
Inductive op (K V : Type) :=
| OpPut (k : K) (v : V)
| OpGet (k : K)
| OpContains (k : K)
| OpDelete (k : K)
| OpUpsert (k : K) (f : UpsertFn V)
| OpPutIfAbsent (k : K) (v : V)
| OpDeleteRange (lo hi : K)
| OpClear
| OpClose
| OpAll
| OpDescend
| OpRange (lo hi : K)
| OpDescendRange (hi lo : K)
| OpLen
| OpAscend
| OpCursor.
Arguments OpPut {K V}. Arguments OpGet {K V}. Arguments OpContains {K V}.
Arguments OpDelete {K V}. Arguments OpUpsert {K V}. Arguments OpPutIfAbsent {K V}.
Arguments OpDeleteRange {K V}. Arguments OpClear {K V}. Arguments OpClose {K V}.
Arguments OpAll {K V}. Arguments OpDescend {K V}. Arguments OpRange {K V}.
Arguments OpDescendRange {K V}.
Arguments OpLen {K V}. Arguments OpAscend {K V}. Arguments OpCursor {K V}.

Inductive result (K V : Type) :=
| RUnit
| RBool (b : bool)
| RValue (v : V) (ok : bool)
| RCount (n : Z)
| RLen (n : Z)
| RPairs (l : list (K * V)).
Arguments RUnit {K V}. Arguments RBool {K V}. Arguments RValue {K V}.
Arguments RCount {K V}. Arguments RLen {K V}. Arguments RPairs {K V}.

(** Everything an iterator yields to a consumer that never stops. *)
Definition collect_pairs {K V} (s : list (K * V)) (k : K) (v : V) : list (K * V) * bool :=
  (s ++ [(k, v)], true).

(** How each method takes [t.mu]: [t.mu.Lock] or [t.mu.RLock].  [Contains] calls
    [Get] and [Ascend] calls [All]. *)
Inductive mu_mode := MuLock | MuRLock.
Definition Put_mu : mu_mode := MuLock.
Definition Get_mu : mu_mode := MuRLock.
Definition Contains_mu : mu_mode := Get_mu.
Definition Delete_mu : mu_mode := MuLock.
Definition Len_mu : mu_mode := MuRLock.
Definition Clear_mu : mu_mode := MuLock.
Definition Close_mu : mu_mode := MuLock.
Definition DeleteRange_mu : mu_mode := MuLock.
Definition Upsert_mu : mu_mode := MuLock.
Definition PutIfAbsent_mu : mu_mode := MuLock.
Definition Cursor_mu : mu_mode := MuRLock.
Definition All_mu : mu_mode := MuRLock.
Definition Ascend_mu : mu_mode := All_mu.
Definition Descend_mu : mu_mode := MuRLock.
Definition Range_mu : mu_mode := MuRLock.
Definition DescendRange_mu : mu_mode := MuRLock.

Definition mu_of {K V} (o : op K V) : mu_mode :=
  match o with
  | OpPut _ _ => Put_mu | OpGet _ => Get_mu | OpContains _ => Contains_mu
  | OpDelete _ => Delete_mu | OpUpsert _ _ => Upsert_mu | OpPutIfAbsent _ _ => PutIfAbsent_mu
  | OpDeleteRange _ _ => DeleteRange_mu | OpClear => Clear_mu | OpClose => Close_mu
  | OpAll => All_mu | OpDescend => Descend_mu | OpRange _ _ => Range_mu
  | OpDescendRange _ _ => DescendRange_mu | OpLen => Len_mu | OpAscend => Ascend_mu
  | OpCursor => Cursor_mu
  end.
Definition is_write {K V} (o : op K V) : bool := match mu_of o with MuLock => true | MuRLock => false end.

Section refinement.
Context {K V : Type} `{Zero K, Zero V}.
Implicit Types (t : BETree K V) (l : list (K * V)).

(** Running a method of the tree.  The function of an upsert is one that can be
    called: the nil function is no [op]. *)
Definition exec t (o : op K V) : option (BETree K V * result K V) :=
  match o with
  | OpPut k v => t ← Put t k v; Some (t, RUnit)
  | OpGet k => '(v, ok) ← Get t k; Some (t, RValue v ok)
  | OpContains k => b ← Contains t k; Some (t, RBool b)
  | OpDelete k => '(t, b) ← Delete t k; Some (t, RBool b)
  | OpUpsert k f => t ← Upsert t k (Some f); Some (t, RUnit)
  | OpPutIfAbsent k v => '(t, b) ← PutIfAbsent t k v; Some (t, RBool b)
  | OpDeleteRange lo hi => '(t, n) ← DeleteRange t lo hi; Some (t, RCount n)
  | OpClear => Some (Clear t, RUnit)
  | OpClose => Some (Close t, RUnit)
  | OpAll => it ← All t; r ← run_seq it collect_pairs []; Some (t, RPairs r)
  | OpDescend => it ← Descend t; r ← run_seq it collect_pairs []; Some (t, RPairs r)
  | OpRange lo hi => it ← Range t lo hi; r ← run_seq it collect_pairs []; Some (t, RPairs r)
  | OpDescendRange hi lo =>
      it ← DescendRange t hi lo; r ← run_seq it collect_pairs []; Some (t, RPairs r)
  | OpLen => Some (t, RLen (Len t))
  | OpAscend => it ← Ascend t; r ← run_seq it collect_pairs []; Some (t, RPairs r)
  | OpCursor => c ← Cursor_ t; '(r, _) ← walk Next (S (length (pairs c))) c; Some (t, RPairs r)
  end.

(** What the method does to the sorted map. *)
Definition spec (compare : K → K → Z) l (o : op K V) : list (K * V) * result K V :=
  match o with
  | OpPut k v => (store_put compare k v l, RUnit)
  | OpGet k => (l, let '(v, ok) := comma_ok (alookup compare k l) in RValue v ok)
  | OpContains k => (l, RBool (bool_decide (is_Some (alookup compare k l))))
  | OpDelete k => (store_delete compare k l, RBool (bool_decide (is_Some (alookup compare k l))))
  | OpUpsert k f => (store_put compare k (call_upsert f (alookup compare k l)) l, RUnit)
  | OpPutIfAbsent k v =>
      if alookup compare k l is Some _ then (l, RBool false)
      else (store_put compare k v l, RBool true)
  | OpDeleteRange lo hi =>
      (store_delete_range compare lo hi l, RCount (len (store_range compare lo hi true false l)))
  | OpClear => ([], RUnit)
  | OpClose => (l, RUnit)
  | OpAll => (l, RPairs l)
  | OpDescend => (l, RPairs (reverse l))
  | OpRange lo hi => (l, RPairs (store_range compare lo hi true false l))
  | OpDescendRange hi lo => (l, RPairs (reverse (store_range compare lo hi false true l)))
  | OpLen => (l, RLen (len l))
  | OpAscend => (l, RPairs l)
  | OpCursor => (l, RPairs l)
  end.

(** Results agree up to the representatives of equivalent keys.  A tree does not
    promise the specification's [Len] (Size.v says what it promises). *)
Definition same_result (compare : K → K → Z) (r r' : result K V) : Prop :=
  match r, r' with
  | RPairs l, RPairs l' => Forall2 (same_pair (compare := compare)) l l'
  | RPairs _, _ | _, RPairs _ => False
  | RLen _, RLen _ => True
  | _, _ => r = r'
  end.

(** The refinement relation. *)
Record refines t l : Prop := {
  rf_ok : tree_ok t;
  rf_sorted : ksorted (cmp t) fst l;
  rf_lookup k : lookup t k = alookup (cmp t) k l
}.

Fixpoint exec_all t (os : list (op K V)) : option (BETree K V * list (result K V)) :=
  match os with
  | [] => Some (t, [])
  | o :: os => '(t, r) ← exec t o; '(t, rs) ← exec_all t os; Some (t, r :: rs)
  end.
Fixpoint spec_all (compare : K → K → Z) l (os : list (op K V)) : list (K * V) * list (result K V) :=
  match os with
  | [] => (l, [])
  | o :: os => let '(l, r) := spec compare l o in
               let '(l, rs) := spec_all compare l os in (l, r :: rs)
  end.

End refinement.

(** ** The store is a sorted map *)

Section store_spec.
Context {K V : Type} {compare : K → K → Z} {HC : Comparator compare}.
Implicit Types (l : list (K * V)) (k x : K).

(** The split of a sorted run around a key, by filters. *)
Lemma store_split k l :
  ksorted compare fst l →
  ∃ l2, l = filter (λ p, compare p.1 k < 0)%Z l ++ l2 ++ filter (λ p, 0 < compare p.1 k)%Z l
    ∧ at_key compare fst k l2 ∧ (l2 = [] ∨ ∃ a, l2 = [a])
    ∧ below compare fst k (filter (λ p, compare p.1 k < 0)%Z l)
    ∧ above compare fst k (filter (λ p, 0 < compare p.1 k)%Z l).
Proof.
  intros Hs. destruct (key_split_strict fst k l Hs) as (l1 & l2 & l3 & -> & H1 & H2 & H3 & Hu).
  exists l2. rewrite !filter_app.
  rewrite (filter_all (λ p, compare p.1 k < 0)%Z l1), (filter_none (λ p, compare p.1 k < 0)%Z l2),
    (filter_none (λ p, compare p.1 k < 0)%Z l3), (filter_none (λ p, 0 < compare p.1 k)%Z l1),
    (filter_none (λ p, 0 < compare p.1 k)%Z l2), (filter_all (λ p, 0 < compare p.1 k)%Z l3);
    try done; try (eapply Forall_impl; [eassumption|]; simpl; lia).
  by rewrite !app_nil_r, !app_nil_l.
Qed.

Lemma store_put_spec k v l :
  ksorted compare fst l →
  ksorted compare fst (store_put compare k v l)
  ∧ (∀ x, alookup compare x (store_put compare k v l)
          = if decide (compare k x = 0%Z) then Some v else alookup compare x l)
  ∧ len (store_put compare k v l) = (len l + if alookup compare k l is Some _ then 0 else 1)%Z.
Proof.
  intros Hs. destruct (store_split k l Hs) as (l2 & E & H2 & Hu & H1 & H3). unfold store_put.
  set (l1 := filter (λ p, compare p.1 k < 0)%Z l) in *.
  set (l3 := filter (λ p, 0 < compare p.1 k)%Z l) in *. clearbody l1 l3.
  assert (keq compare k k) as Hk by apply compare_refl. split_and!.
  - rewrite E in Hs. by eapply ksorted_put.
  - intros x. rewrite E. by apply alookup_put.
  - rewrite E, alookup_split, !length_app by done. destruct Hu as [->|[[k' v'] ->]]; simpl; [lia|].
    apply Forall_cons in H2 as [H2 _]. simpl in H2. rewrite decide_True by done. lia.
Qed.

Lemma store_delete_spec k l :
  ksorted compare fst l →
  ksorted compare fst (store_delete compare k l)
  ∧ (∀ x, alookup compare x (store_delete compare k l)
          = if decide (compare k x = 0%Z) then None else alookup compare x l)
  ∧ len (store_delete compare k l) = (len l - if alookup compare k l is Some _ then 1 else 0)%Z.
Proof.
  intros Hs. destruct (key_split_strict fst k l Hs) as (l1 & l2 & l3 & -> & H1 & H2 & H3 & Hu).
  assert (store_delete compare k (l1 ++ l2 ++ l3) = l1 ++ l3) as ->.
  { unfold store_delete. rewrite !filter_app, (filter_all _ l1), (filter_none _ l2), (filter_all _ l3);
      [done|eapply Forall_impl; [eassumption|]; simpl; lia..]. }
  split_and!; [by eapply ksorted_delete|by intros; apply alookup_delete|].
  rewrite alookup_split, !length_app by done. destruct Hu as [->|[[k' v'] ->]]; simpl; [lia|].
  apply Forall_cons in H2 as [H2 _]. simpl in H2. rewrite decide_True by done. lia.
Qed.

(** Playing one message on the store. *)
Lemma store_apply_spec l (m : Message K V) :
  ksorted compare fst l →
  ksorted compare fst (store_apply compare l m)
  ∧ (∀ x, alookup compare x (store_apply compare l m)
          = if decide (compare (Key m) x = 0%Z) then apply_msg (alookup compare x l) m
            else alookup compare x l)
  ∧ len (store_apply compare l m)
    = (len l + (if apply_msg (alookup compare (Key m) l) m is Some _ then 1 else 0)
       - (if alookup compare (Key m) l is Some _ then 1 else 0))%Z.
Proof.
  intros Hs. unfold store_apply.
  assert (∀ x, compare (Key m) x = 0%Z →
            apply_msg (alookup compare (Key m) l) m = apply_msg (alookup compare x l) m) as Hx.
  { intros x Hx. by rewrite (Hx : keq compare (Key m) x). }
  destruct (apply_msg (alookup compare (Key m) l) m) as [v|].
  - destruct (store_put_spec (Key m) v l Hs) as (S1 & S2 & S3). split_and!; [done| |].
    + intros x. rewrite S2. case_decide; [by apply Hx|done].
    + rewrite S3. destruct (alookup compare (Key m) l); lia.
  - destruct (store_delete_spec (Key m) l Hs) as (S1 & S2 & S3). split_and!; [done| |].
    + intros x. rewrite S2. case_decide; [by apply Hx|done].
    + rewrite S3. destruct (alookup compare (Key m) l); lia.
Qed.

Lemma store_filter_spec (sel : K → Prop) `{!∀ x, Decision (sel x)} k l :
  (∀ x y, keq compare x y → sel y → sel x) →
  alookup compare k (filter (λ p, sel p.1) l) = if decide (sel k) then alookup compare k l else None.
Proof.
  intros Hsel. case_decide as Hk.
  - apply (alookup_filter sel). eauto.
  - apply alookup_None, Forall_forall. intros p [Hp _]%list_elem_of_filter Ek.
    apply Hk. eapply Hsel; [|exact Hp]. by symmetry.
Qed.

Lemma store_delete_range_spec lo hi l :
  ksorted compare fst l →
  ksorted compare fst (store_delete_range compare lo hi l)
  ∧ ∀ k, alookup compare k (store_delete_range compare lo hi l)
         = if decide (in_range compare lo hi true false k) then None else alookup compare k l.
Proof.
  intros Hs. set (sel := λ x, ¬ in_range compare lo hi true false x).
  assert (∀ x y, keq compare x y → sel y → sel x) as Hsel.
  { intros x y Hxy Hy Hx. apply Hy. eapply in_range_keq; [symmetry|]; done. }
  split; [exact (ksorted_filter sel l Hs)|]. intros k.
  pose proof (store_filter_spec sel k l Hsel) as E. unfold sel in E.
  etransitivity; [exact E|]. repeat case_decide; tauto.
Qed.

End store_spec.

(** ** Iterators yield their snapshot *)

Section consume.
Context {K V : Type}.
Implicit Types (pairs acc : list (K * V)).

Lemma push_collect pairs acc : push pairs collect_pairs acc = acc ++ pairs.
Proof.
  revert acc. induction pairs as [|[k v] pairs IH]; intros acc; simpl; [by rewrite app_nil_r|].
  by rewrite IH, <-app_assoc.
Qed.

Lemma push_down_collect pairs rest acc :
  push_down (pairs ++ rest) (length pairs) collect_pairs acc = Some (acc ++ reverse pairs).
Proof.
  revert rest acc. induction pairs as [|[k v] pairs IH] using rev_ind; intros rest acc.
  - simpl. by rewrite app_nil_r.
  - rewrite length_app, Nat.add_1_r. cbn [push_down]. rewrite <-app_assoc. cbn [app].
    rewrite lookup_middle by done. cbn [mbind option_bind collect_pairs].
    by rewrite IH, <-app_assoc, reverse_snoc.
Qed.

Lemma collect_ascending pairs : run_seq (Ascending pairs) collect_pairs [] = Some pairs.
Proof. cbn [run_seq]. by rewrite push_collect. Qed.

Lemma collect_descending pairs : run_seq (Descending pairs) collect_pairs [] = Some (reverse pairs).
Proof.
  cbn [run_seq]. pose proof (push_down_collect pairs [] []) as E. rewrite app_nil_r in E. exact E.
Qed.

End consume.

(** ** Refinement *)

Section exec_refines.
Context {K V : Type} `{Zero K, Zero V}.
Implicit Types (t : BETree K V) (l : list (K * V)) (m : Message K V).

(** A snapshot is the corresponding range of the store. *)
Lemma snapshot_store t l sel `{!∀ k, Decision (sel k)} pairs :
  refines t l → (∀ x y, keq (cmp t) x y → sel y → sel x) →
  snapshot (cmp t) sel (den (cmp t) (root t)) pairs →
  Forall2 (same_pair (compare := cmp t)) pairs (filter (λ p, sel p.1) l).
Proof.
  intros [Hok Hs Hl] Hsel [S1 _ S3]. pose proof (ok_cmp t Hok) as HC.
  apply sorted_run_unique; [done|by apply (ksorted_filter sel)|].
  intros k. rewrite S3, store_filter_spec by done. by rewrite <-Hl.
Qed.

(** A write that plays a message keeps the refinement. *)
Lemma stepped_refines t l m t' :
  refines t l → stepped m t t' → refines t' (store_apply (cmp t) l m) ∧ cmp t' = cmp t.
Proof.
  intros [Hok Hs Hl] [Hok' (C & _) L _]. pose proof (ok_cmp t Hok) as HC.
  destruct (store_apply_spec (compare := cmp t) l m Hs) as (S1 & S2 & _).
  split; [|done]. split; [done|by rewrite C|]. intros k. by rewrite L, C, S2, Hl.
Qed.

Lemma materializeAll_refines t l :
  refines t l → ∃ pairs, materializeAll t = Some pairs
    ∧ Forall2 (same_pair (compare := cmp t)) pairs l.
Proof.
  intros HR. pose proof (rf_ok _ _ HR) as [HC _ [h Hwf] _ _ _ _].
  destruct (materializeAll_spec t h HC Hwf) as (pairs & E & Hsn).
  exists pairs. split; [done|]. apply (snapshot_store t l (λ _, True)) in Hsn; [|done|done].
  by rewrite filter_all in Hsn by (by apply Forall_true).
Qed.

Lemma materialize_range_refines t l lo hi (loInc hiInc : bool) :
  refines t l → loInc && hiInc = false →
  ∃ pairs, (if decide (0 ≤ cmp t lo hi)%Z then Some []
            else entries ← collectRange (cmp t) (root t) lo hi loInc hiInc 0;
                 resolveEntries (cmp t) entries) = Some pairs
    ∧ Forall2 (same_pair (compare := cmp t)) pairs (store_range (cmp t) lo hi loInc hiInc l).
Proof.
  intros HR Hinc. pose proof (rf_ok _ _ HR) as [HC _ [h Hwf] _ _ _ _].
  destruct (materializeRange_gen t h lo hi loInc hiInc HC Hwf Hinc) as (pairs & E & Hsn).
  exists pairs. split; [done|]. apply (snapshot_store t l _) in Hsn; [done|done|apply in_range_keq].
Qed.

Lemma PutIfAbsent_step t k v :
  tree_ok t →
  if lookup t k is Some _ then PutIfAbsent t k v = Some (t, false)
  else ∃ t', PutIfAbsent t k v = Some (t', true) ∧ stepped (put_msg k v true) t t'.
Proof.
  intros Hok. unfold PutIfAbsent. rewrite getFromNode_root by done. cbn [mbind option_bind].
  destruct (lookup t k) as [v0|]; cbn [comma_ok]; [done|].
  destruct (putLocked_spec t k v true Hok) as (t' & E & Hst). rewrite E. by exists t'.
Qed.

Lemma emptyLeaf_refines t c :
  tree_ok t → refines (mkBETree emptyLeaf (cmp t) (params t) 0 0 c) ([] : list (K * V)).
Proof.
  intros [HC Hp _ _ _ _ _]. split; [|constructor|done].
  split; cbn [cmp params root size pendingDeletes]; try done.
  exists 0. apply (wf_leaf _ _ []); constructor.
Qed.

Lemma refines_closed t l : refines t l → refines (Close t) l.
Proof. intros [[HC Hp Hwf Hf Hs Hpd Hd] Hso Hl]. by split; [split|..]. Qed.

Lemma DeleteRange_refines t l lo hi :
  refines t l → ∃ t', DeleteRange t lo hi
    = Some (t', len (store_range (cmp t) lo hi true false l))
  ∧ refines t' (store_delete_range (cmp t) lo hi l) ∧ cmp t' = cmp t.
Proof.
  intros HR. pose proof HR as [Hok Hs Hl]. pose proof (ok_cmp t Hok) as HC.
  destruct (DeleteRange_step t lo hi Hok) as (t' & pairs & E & Em & Hok' & (C & _) & L & _).
  destruct (materialize_range_refines t l lo hi true false HR eq_refl) as (pairs' & Em' & Hp).
  unfold materializeRange in Em. rewrite Em in Em'. simplify_eq.
  exists t'. rewrite <-(Forall2_length _ _ _ Hp). split; [done|]. split; [|done].
  destruct (store_delete_range_spec (compare := cmp t) lo hi l Hs) as [S1 S2].
  split; [done|by rewrite C|]. intros k. rewrite C, L, S2, Hl. done.
Qed.

(** A well-formed tree is some sorted map. *)
Lemma refines_exists t : tree_ok t → ∃ l, refines t l.
Proof.
  intros Hok. destruct (ok_wf t Hok) as [h Hwf].
  destruct (materializeAll_spec t h (ok_cmp t Hok) Hwf) as (l & _ & [S1 _ S3]).
  exists l. split; [done|done|]. intros k. rewrite S3. by case_decide.
Qed.

Lemma exec_step t l o :
  refines t l →
  ∃ t' r, exec t o = Some (t', r) ∧ refines t' (spec (cmp t) l o).1
          ∧ same_result (cmp t) r (spec (cmp t) l o).2 ∧ cmp t' = cmp t.
Proof.
  intros HR. pose proof HR as [Hok Hs Hl]. pose proof (ok_cmp t Hok) as HC.
  destruct o as [k v|k|k|k|k f|k v|lo hi| | | | |lo hi|hi lo| | |]; cbn [exec spec].
  - destruct (putLocked_spec t k v false Hok) as (t' & E & Hst). unfold Put. rewrite E.
    destruct (stepped_refines _ _ _ _ HR Hst) as [? ?]. exists t', RUnit. by split_and!.
  - unfold Get. rewrite getFromNode_root by done. cbn [mbind option_bind]. rewrite <-Hl.
    destruct (comma_ok (lookup t k)) as [v ok]. exists t, (RValue v ok). by split_and!.
  - unfold Contains, Get. rewrite getFromNode_root by done. rewrite <-Hl.
    exists t, (RBool (bool_decide (is_Some (lookup t k)))). split_and!; try done.
    by destruct (lookup t k).
  - destruct (deleteLocked_spec t k Hok) as (t' & E & Hst & _). unfold Delete. rewrite E.
    destruct (stepped_refines _ _ _ _ HR Hst) as [? ?]. rewrite <-Hl. eexists t', _. by split_and!.
  - destruct (Upsert_step t k f Hok) as (t' & E & Hst). rewrite E.
    destruct (stepped_refines _ _ _ _ HR Hst) as [? ?]. exists t', RUnit. by split_and!.
  - pose proof (PutIfAbsent_step t k v Hok) as E. rewrite <-Hl. destruct (lookup t k) as [v0|].
    + rewrite E. exists t, (RBool false). by split_and!.
    + destruct E as (t' & E & Hst). rewrite E.
      destruct (stepped_refines _ _ _ _ HR Hst) as [? ?]. exists t', (RBool true). by split_and!.
  - destruct (DeleteRange_refines t l lo hi HR) as (t' & E & HR' & C). rewrite E.
    eexists t', _. by split_and!.
  - exists (Clear t), RUnit. split_and!; try done. by apply emptyLeaf_refines.
  - exists (Close t), RUnit. split_and!; try done. by apply refines_closed.
  - destruct (materializeAll_refines t l HR) as (pairs & E & Hp). unfold All. rewrite E.
    cbn [mbind option_bind]. rewrite collect_ascending. exists t, (RPairs pairs). by split_and!.
  - destruct (materializeAll_refines t l HR) as (pairs & E & Hp). unfold Descend. rewrite E.
    cbn [mbind option_bind]. rewrite collect_descending. exists t, (RPairs (reverse pairs)).
    split_and!; try done. by apply Forall2_reverse.
  - destruct (materialize_range_refines t l lo hi true false HR eq_refl) as (pairs & E & Hp).
    unfold Range, materializeRange. rewrite E. cbn [mbind option_bind]. rewrite collect_ascending.
    exists t, (RPairs pairs). by split_and!.
  - destruct (materialize_range_refines t l lo hi false true HR eq_refl) as (pairs & E & Hp).
    unfold DescendRange, materializeDescendRange. rewrite E. cbn [mbind option_bind].
    rewrite collect_descending. exists t, (RPairs (reverse pairs)).
    split_and!; try done. by apply Forall2_reverse.
  - by exists t, (RLen (Len t)).
  - destruct (materializeAll_refines t l HR) as (pairs & E & Hp). unfold Ascend, All. rewrite E.
    cbn [mbind option_bind]. rewrite collect_ascending. exists t, (RPairs pairs). by split_and!.
  - destruct (materializeAll_refines t l HR) as (ps & E & Hp). unfold Cursor_. rewrite E.
    cbn [mbind option_bind]. destruct (walk_all (mkCursor ps 0 false (cmp t)) (S (length ps)))
      as (c' & Ew & _); [done|cbn; lia|]. cbn [pairs] in *. rewrite Ew.
    exists t, (RPairs ps). by split_and!.
Qed.

(** A method that only takes the read lock does not change the tree. *)
Lemma exec_read t o t' r : is_write o = false → exec t o = Some (t', r) → t' = t.
Proof.
  destruct o; try done; intros _; cbn [exec]; intros E;
    repeat (apply bind_Some in E as ([] & _ & E) || apply bind_Some in E as (? & _ & E));
    by injection E as <- <-.
Qed.

Lemma exec_all_steps t l os :
  refines t l →
  ∃ t' rs, exec_all t os = Some (t', rs) ∧ refines t' (spec_all (cmp t) l os).1
           ∧ Forall2 (same_result (cmp t)) rs (spec_all (cmp t) l os).2 ∧ cmp t' = cmp t.
Proof.
  revert t l. induction os as [|o os IH]; intros t l HR.
  { exists t, []. by split_and!. }
  destruct (exec_step t l o HR) as (t1 & r & E & HR1 & Hr & C).
  cbn [exec_all spec_all]. rewrite E. cbn [mbind option_bind].
  destruct (spec (cmp t) l o) as [l1 r1]. destruct (IH t1 l1 HR1) as (t' & rs & E' & HR' & Hrs & C').
  rewrite E', C in *. cbn [mbind option_bind].
  destruct (spec_all (cmp t) l1 os) as [l' rs'].
  exists t', (r :: rs). cbn [fst snd] in *. split_and!; (done || by constructor).
Qed.

End exec_refines.
