(* ===== verification/Cascade.v ===== *)
(** * Cascades as a relation

    A call of [flushNode] (flush.go) may flush a child, which may flush a child in
    turn: a cascade.  [flushNode_traced] is [flushNode_fuel] with the list of how
    many messages each call of the cascade moved, [exec_traced] a method of the
    tree with the trace of the flush it ends in; erasing the traces gives back the
    methods ([flushNode_traced_erase], [exec_traced_erase]).

    [flushes] and [calls] are the same as big-step relations: one rule for each
    way through the body, whose premises are what the body computes, without the
    loops over indices.  [flushNode_traced_flushes] and [exec_traced_calls] show
    that every run is a derivation, so what the rules preserve, the methods
    preserve: Cost.v and Shape.v are rule inductions. *)

From S2P Require Import Prelude Order Slices Message Node LeafMerge Flush Iterator Tree Cursor Spec.

(** ** The traced methods *)

Section traced.
Context {K V : Type}.

Fixpoint flushNode_traced (fuel : nat) (t : BETree K V) (n : node K V)
    : option (BETree K V * node K V * list Z) :=
  match fuel with
  | 0 => None
  | S fuel =>
      match n with
      | Leaf _ _ => Some (t, n, [])
      | Internal ps cs buf bs =>
          if decide (length buf = 0) then Some (t, n, [])
          else
            let numChildren := length cs in
            buckets ← foldM (fill_bucket (cmp t) n) (replicate numChildren []) buf;
            heaviest ← foldM (pick_heavier buckets) 0 (seq 1 (numChildren - 1));
            '(buf, k) ← foldM (keep_bucket heaviest) (buf, 0)
                          (zip (seq 0 numChildren) buckets);
            buf ← slice buf 0 k;
            child ← cs !! heaviest;
            bucket ← buckets !! heaviest;
            match child with
            | Leaf _ _ =>
                '(t, child) ← applyToLeaf t child bucket;
                cs ← update heaviest child cs;
                let n := Internal ps cs buf false in
                if decide (leafCap (params t) < len (keys child))%Z then
                  n ← splitChild (cmp t) n heaviest; Some (t, n, [len bucket])
                else Some (t, n, [len bucket])
            | Internal cps ccs cbuf _ =>
                let child := Internal cps ccs (cbuf ++ bucket) false in
                '(t, child, moved) ←
                  (if decide (bufferCap (params t) < len (buffer child))%Z
                   then flushNode_traced fuel t child else Some (t, child, []));
                cs ← update heaviest child cs;
                let n := Internal ps cs buf false in
                if decide (fanout (params t) < len (children child))%Z then
                  n ← splitChild (cmp t) n heaviest; Some (t, n, len bucket :: moved)
                else Some (t, n, len bucket :: moved)
            end
      end
  end.

Definition overflow_traced (t : BETree K V) : option (BETree K V * list Z) :=
  if decide (bufferCap (params t) < len (buffer (root t)))%Z then
    '(t, n, moved) ← flushNode_traced (S (height (root t))) t (root t);
    let t := set_root t n in
    if decide (fanout (params t) < len (children (root t)))%Z
    then t ← splitRoot t; Some (t, moved) else Some (t, moved)
  else Some (t, []).

Context `{Zero K, Zero V}.

(** A write on a tree whose root is a leaf flushes nothing. *)
Definition putLocked_traced (t : BETree K V) (key : K) (value : V) (knownNew : bool)
    : option (BETree K V * list Z) :=
  if leaf (root t) then t ← putLocked t key value knownNew; Some (t, [])
  else
    isNew ← (if knownNew then Some true
             else if decide (0 < pendingDeletes t)%Z then
               '(_, ex) ← getFromNode t (root t) key; Some (negb ex)
             else
               ex ← existsInLeaf (cmp t) (root t) key; Some (negb ex));
    let t := if isNew : bool then adjust t 1 0 else t in
    t ← buffer_msg t (mkMessage MsgPut key zero value None isNew);
    overflow_traced t.

Definition exec_traced (t : BETree K V) (o : op K V) : option (BETree K V * result K V * list Z) :=
  match o with
  | OpPut k v => '(t, tr) ← putLocked_traced t k v false; Some (t, RUnit, tr)
  | OpPutIfAbsent k v =>
      '(_, ex) ← getFromNode t (root t) k;
      if ex : bool then Some (t, RBool false, [])
      else '(t, tr) ← putLocked_traced t k v true; Some (t, RBool true, tr)
  | OpDelete k =>
      if leaf (root t) then '(t, b) ← Delete t k; Some (t, RBool b, [])
      else
        '(_, ex) ← getFromNode t (root t) k;
        if negb ex then Some (t, RBool false, [])
        else
          t ← buffer_msg (adjust t (-1) 1) (delete_msg k);
          '(t, tr) ← overflow_traced t;
          Some (t, RBool true, tr)
  | OpUpsert k f =>
      if leaf (root t) then t ← Upsert t k (Some f); Some (t, RUnit, [])
      else
        t ← buffer_msg t (mkMessage MsgUpsert k zero zero (Some f) false);
        '(t, tr) ← overflow_traced t;
        Some (t, RUnit, tr)
  | OpDeleteRange lo hi =>
      if leaf (root t) then '(t, n) ← DeleteRange t lo hi; Some (t, RCount n, [])
      else if decide (0 ≤ cmp t lo hi)%Z then Some (t, RCount 0, [])
      else
        entries ← collectRange (cmp t) (root t) lo hi true false 0;
        pairs ← resolveEntries (cmp t) entries;
        if decide (length pairs = 0) then Some (t, RCount 0, [])
        else
          let count := len pairs in
          let t := adjust t (- count) count in
          t ← foldM (λ t p, buffer_msg t (delete_msg p.1)) t pairs;
          '(t, tr) ← overflow_traced t;
          Some (t, RCount count, tr)
  | _ => '(t, r) ← exec t o; Some (t, r, [])
  end.

Fixpoint exec_all_traced (t : BETree K V) (os : list (op K V))
    : option (BETree K V * list (result K V * list Z)) :=
  match os with
  | [] => Some (t, [])
  | o :: os =>
      '(t, r, tr) ← exec_traced t o;
      '(t, rs) ← exec_all_traced t os;
      Some (t, (r, tr) :: rs)
  end.

(** ** Erasure *)

Lemma flushNode_traced_erase fuel (t : BETree K V) n :
  fst <$> flushNode_traced fuel t n = flushNode_fuel fuel t n.
Proof.
  revert t n. induction fuel as [|fuel IH]; intros t n; [done|].
  cbn [flushNode_traced flushNode_fuel]. destruct n as [|ps cs buf bs]; [done|].
  destruct (decide (length buf = 0)); [done|]. cbv zeta.
  destruct (foldM (fill_bucket _ _) _ _) as [buckets|]; [|done]. cbn [mbind option_bind].
  destruct (foldM (pick_heavier _) _ _) as [hv|]; [|done]. cbn [mbind option_bind].
  destruct (foldM (keep_bucket _) _ _) as [[buf' k]|]; [|done]. cbn [mbind option_bind].
  destruct (slice buf' 0 k) as [buf''|]; [|done]. cbn [mbind option_bind].
  destruct (cs !! hv) as [[ks vs|cps ccs cbuf cbs]|]; [| |done]; cbn [mbind option_bind];
    (destruct (buckets !! hv) as [b|]; [|done]); cbn [mbind option_bind].
  - destruct (applyToLeaf t _ b) as [[t1 c1]|]; [|done]. cbn [mbind option_bind].
    destruct (update hv c1 cs); [|done]. cbn [mbind option_bind].
    case_decide; [|done]. by destruct (splitChild _ _ _).
  - specialize (IH t (Internal cps ccs (cbuf ++ b) false)).
    assert (fst <$> (if decide (bufferCap (params t) < len (buffer (Internal cps ccs (cbuf ++ b) false)))%Z
                     then flushNode_traced fuel t (Internal cps ccs (cbuf ++ b) false)
                     else Some (t, Internal cps ccs (cbuf ++ b) false, []))
            = (if decide (bufferCap (params t) < len (buffer (Internal cps ccs (cbuf ++ b) false)))%Z
               then flushNode_fuel fuel t (Internal cps ccs (cbuf ++ b) false)
               else Some (t, Internal cps ccs (cbuf ++ b) false))) as <- by (by case_decide).
    destruct (if decide _ then flushNode_traced _ _ _ else _) as [[[t1 c1] moved]|]; [|done].
    cbn [mbind option_bind fmap option_fmap option_map fst].
    destruct (update hv c1 cs); [|done]. cbn [mbind option_bind].
    case_decide; [|done]. by destruct (splitChild _ _ _).
Qed.

Lemma overflow_traced_erase (t : BETree K V) : fst <$> overflow_traced t = overflow t.
Proof.
  unfold overflow_traced, overflow, flushNode. case_decide; [|done].
  rewrite <-(flushNode_traced_erase _ t (root t)).
  destruct (flushNode_traced _ _ _) as [[[t1 n1] moved]|]; [|done].
  cbn [mbind option_bind fmap option_fmap option_map fst]. cbv zeta.
  case_decide; [|done]. by destruct (splitRoot _).
Qed.

(** A write that ends in [overflow] with the result [r]. *)
Lemma overflow_traced_result (o : option (BETree K V)) (r : result K V) :
  fst <$> (t ← o; '(t, tr) ← overflow_traced t; Some (t, r, tr)) = t ← o; t ← overflow t; Some (t, r).
Proof.
  destruct o as [t|]; [|done]. cbn [mbind option_bind]. rewrite <-overflow_traced_erase.
  by destruct (overflow_traced t) as [[t' tr]|].
Qed.

Lemma putLocked_traced_erase (t : BETree K V) k v kn : fst <$> putLocked_traced t k v kn = putLocked t k v kn.
Proof.
  unfold putLocked_traced. destruct (leaf (root t)) eqn:Hl; [by destruct (putLocked t k v kn)|].
  unfold putLocked. rewrite Hl. match goal with |- fst <$> (?x ≫= _) = _ => destruct x as [isNew|]; [|done] end.
  cbn [mbind option_bind]. cbv zeta. destruct (buffer_msg _ _) as [t1|]; [|done]. apply overflow_traced_erase.
Qed.

Lemma exec_traced_erase (t : BETree K V) o : fst <$> exec_traced t o = exec t o.
Proof.
  destruct o as [k v|k|k|k|k f|k v|lo hi| | | | |lo hi|hi lo| | |]; unfold exec_traced;
    try (by destruct (exec t _) as [[]|]); cbn [exec].
  - unfold Put. rewrite <-(putLocked_traced_erase t k v false).
    by destruct (putLocked_traced t k v false) as [[]|].
  - destruct (leaf (root t)) eqn:Hl; [by destruct (Delete t k) as [[]|]|]. unfold Delete, deleteLocked.
    rewrite Hl. destruct (getFromNode t (root t) k) as [[v0 []]|]; [|done..]. cbn [mbind option_bind negb].
    rewrite (overflow_traced_result (buffer_msg (adjust t (-1) 1) (delete_msg k))).
    destruct (buffer_msg _ _) as [t1|]; [|done]. cbn [mbind option_bind]. by destruct (overflow t1).
  - destruct (leaf (root t)) eqn:Hl; [by destruct (Upsert t k (Some f))|]. unfold Upsert. rewrite Hl.
    rewrite (overflow_traced_result (buffer_msg t _)). destruct (buffer_msg _ _) as [t1|]; [|done].
    cbn [mbind option_bind]. by destruct (overflow t1).
  - unfold PutIfAbsent. destruct (getFromNode t (root t) k) as [[v0 []]|]; [done| |done].
    cbn [mbind option_bind]. rewrite <-(putLocked_traced_erase t k v true).
    by destruct (putLocked_traced t k v true) as [[]|].
  - destruct (leaf (root t)) eqn:Hl; [by destruct (DeleteRange t lo hi) as [[]|]|]. unfold DeleteRange.
    rewrite Hl. case_decide; [done|]. destruct (collectRange _ _ _ _ _ _ _) as [es|]; [|done].
    cbn [mbind option_bind]. destruct (resolveEntries _ es) as [ps|]; [|done]. cbn [mbind option_bind].
    case_decide; [done|]. cbv zeta. rewrite (overflow_traced_result (foldM _ _ ps)).
    destruct (foldM _ _ ps) as [t1|]; [|done]. cbn [mbind option_bind]. by destruct (overflow t1).
Qed.

Lemma exec_all_traced_erase (t : BETree K V) os :
  (λ p, (p.1, p.2.*1)) <$> exec_all_traced t os = exec_all t os.
Proof.
  revert t. induction os as [|o os IH]; intros t; [done|]. cbn [exec_all_traced exec_all].
  rewrite <-(exec_traced_erase t o). destruct (exec_traced t o) as [[[t1 r] tr]|]; [|done].
  cbn [mbind option_bind fmap option_fmap option_map fst]. rewrite <-(IH t1).
  by destruct (exec_all_traced t1 os) as [[t2 rs]|].
Qed.
End traced.

(** ** The rules *)

Section rules.
Context {K V : Type}.
Implicit Types (t : BETree K V) (n c l r : node K V) (ps : list K) (cs L R : list (node K V)).
Implicit Types (buf bucket keep : list (Message K V)).

(** [l] and [r] are what splitting [c] makes of it. *)
Inductive halves (compare : K → K → Z) : node K V → node K V → node K V → Prop :=
| halves_leaf ks1 ks2 vs vs1 vs2 :
    length ks1 = length (ks1 ++ ks2) / 2 →
    halves compare (Leaf (ks1 ++ ks2) vs) (Leaf ks1 vs1) (Leaf ks2 vs2)
| halves_internal ps1 p ps2 cs1 cs2 buf bs :
    length ps1 = length (ps1 ++ p :: ps2) / 2 → length cs1 = S (length ps1) →
    halves compare (Internal (ps1 ++ p :: ps2) (cs1 ++ cs2) buf bs)
      (Internal ps1 cs1 (filter (λ m, compare (Key m) p < 0)%Z buf) bs)
      (Internal ps2 cs2 (filter (λ m, ¬ compare (Key m) p < 0)%Z buf) bs).

(** The child [c] at the end of a call: kept, or split when it is too [big]. *)
Inductive settles (compare : K → K → Z) (big : Prop) ps L c R buf : node K V → Prop :=
| settles_kept : ¬ big → settles compare big ps L c R buf (Internal ps (L ++ c :: R) buf false)
| settles_split ps' l r : big → halves compare c l r → length ps' = S (length ps) →
    settles compare big ps L c R buf (Internal ps' (L ++ l :: r :: R) buf false).

(** The heaviest [bucket] of a buffer, for the child after those of [L]. *)
Record heaviest (compare : K → K → Z) ps L c R buf bucket keep : Prop := {
  hv_bucket : bucket = bucket_at (compare := compare) ps (length L) buf;
  hv_keep : keep = kept (compare := compare) ps (length L) buf;
  hv_max i : i < length (L ++ c :: R) →
    length (bucket_at (compare := compare) ps i buf) ≤ length bucket;
  hv_arity : length (L ++ c :: R) = S (length ps)
}.

Inductive flushes : BETree K V → node K V → list Z → BETree K V → node K V → Prop :=
| flushes_idle t n : leaf n = true ∨ buffer n = [] → flushes t n [] t n
| flushes_leaf t ds dp ps L ks vs ks' vs' R buf bs bucket keep n' :
    heaviest (cmp t) ps L (Leaf ks vs) R buf bucket keep →
    applyToLeaf t (Leaf ks vs) bucket = Some (adjust t ds dp, Leaf ks' vs') →
    (len ks' ≤ len ks + sum_of msg_writes bucket)%Z →
    settles (cmp t) (leafCap (params t) < len ks')%Z ps L (Leaf ks' vs') R keep n' →
    flushes t (Internal ps (L ++ Leaf ks vs :: R) buf bs) [len bucket] (adjust t ds dp) n'
| flushes_append t ps L cps ccs cbuf cbs R buf bs bucket keep (c := Internal cps ccs (cbuf ++ bucket) false) n' :
    heaviest (cmp t) ps L (Internal cps ccs cbuf cbs) R buf bucket keep →
    (len (cbuf ++ bucket) ≤ bufferCap (params t))%Z →
    settles (cmp t) (fanout (params t) < len ccs)%Z ps L c R keep n' →
    flushes t (Internal ps (L ++ Internal cps ccs cbuf cbs :: R) buf bs) [len bucket] t n'
| flushes_down t ds dp ps L cps ccs cbuf cbs c1 R buf bs bucket keep moved n' :
    heaviest (cmp t) ps L (Internal cps ccs cbuf cbs) R buf bucket keep →
    (bufferCap (params t) < len (cbuf ++ bucket))%Z →
    flushes t (Internal cps ccs (cbuf ++ bucket) false) moved (adjust t ds dp) c1 →
    settles (cmp t) (fanout (params t) < len (children c1))%Z ps L c1 R keep n' →
    flushes t (Internal ps (L ++ Internal cps ccs cbuf cbs :: R) buf bs) (len bucket :: moved)
      (adjust t ds dp) n'.

(** The bucket and the rest share out the buffer, and no bucket is heavier. *)
Lemma heaviest_Permutation compare ps L c R buf bucket keep :
  heaviest compare ps L c R buf bucket keep → keep ++ bucket ≡ₚ buf.
Proof. intros [-> -> _ _]. apply kept_Permutation. Qed.

Lemma heaviest_len compare ps L c R buf bucket keep :
  heaviest compare ps L c R buf bucket keep →
  len buf = (len keep + len bucket)%Z ∧ (len buf ≤ len (L ++ c :: R) * len bucket)%Z.
Proof.
  intros Hh. pose proof (Permutation_length (heaviest_Permutation _ _ _ _ _ _ _ _ Hh)) as Hp.
  rewrite length_app in Hp. destruct Hh as [-> _ Hmax Hl].
  pose proof (heaviest_share (compare := compare) ps (length L) buf) as Hs. rewrite <-Hl in Hs.
  specialize (Hs Hmax). lia.
Qed.

(** ** Every run is a derivation *)

(** What [slice] returns, and how the two slices of a list share it out. *)
Lemma slice_halves {A} (l a b : list A) (m : nat) :
  slice l 0 m = Some a → slice l m (length l) = Some b → l = a ++ b ∧ length a = m.
Proof.
  unfold slice. do 2 (case_decide; [|done]). intros [= <-] [= <-].
  rewrite drop_0, Nat.sub_0_r, (take_ge (drop m l)) by (rewrite length_drop; lia).
  rewrite take_drop, length_take. split; [done|lia].
Qed.

Lemma slice_around {A} (l a b : list A) (p : A) (m : nat) :
  l !! m = Some p → slice l 0 m = Some a → slice l (m + 1) (length l) = Some b →
  l = a ++ p :: b ∧ length a = m.
Proof.
  unfold slice. intros Hp. do 2 (case_decide; [|done]). intros [= <-] [= <-].
  rewrite drop_0, Nat.sub_0_r, (take_ge (drop _ l)) by (rewrite length_drop; lia).
  rewrite Nat.add_1_r, take_drop_middle, length_take by done. split; [done|lia].
Qed.

Lemma splitChild_halves (compare : K → K → Z) ps L c R buf bs n' :
  splitChild compare (Internal ps (L ++ c :: R) buf bs) (length L) = Some n' →
  ∃ ps' l r, n' = Internal ps' (L ++ l :: r :: R) buf bs ∧ halves compare c l r
    ∧ length ps' = S (length ps).
Proof.
  assert (∀ p ps', Insert ps (length L) p = Some ps' → length ps' = S (length ps)) as Hps.
  { intros p ps'. unfold Insert. case_decide; [|done]. intros [= <-].
    rewrite length_app. cbn [length]. rewrite length_take, length_drop. lia. }
  assert (∀ l r cs1 cs2, update (length L) l (L ++ c :: R) = Some cs1 →
            Insert cs1 (length L + 1) r = Some cs2 → cs2 = L ++ l :: r :: R) as Hins.
  { intros l r cs1 cs2. rewrite update_middle by done. intros [= <-].
    rewrite app_cons_assoc, Insert_app by (rewrite length_app; simpl; lia). intros [= <-].
    by rewrite <-app_assoc. }
  unfold splitChild. cbn [children]. rewrite lookup_middle by done. cbn [mbind option_bind].
  destruct c as [ks vs|cps ccs cbuf cbs]; cbn [leaf]; intros E.
  - unfold splitLeafChild in E. rewrite lookup_middle in E by done. cbn [mbind option_bind keys values] in E.
    apply bind_Some in E as (rk & Hrk & E). apply bind_Some in E as (rv & _ & E).
    apply bind_Some in E as (p & _ & E). apply bind_Some in E as (lk & Hlk & E).
    apply bind_Some in E as (lv & _ & E). apply bind_Some in E as (ps' & Hps'%Hps & E).
    apply bind_Some in E as (cs1 & H1 & E). apply bind_Some in E as (cs2 & H2 & [= <-]).
    rewrite (Hins _ _ _ _ H1 H2). exists ps', (Leaf lk lv), (Leaf rk rv). split; [done|]. split; [|done].
    destruct (slice_halves ks lk rk _ Hlk Hrk) as [-> Hl]. by constructor.
  - unfold splitInternalChild in E. rewrite lookup_middle in E by done.
    cbn [mbind option_bind pivots children buffer bufferSorted] in E.
    apply bind_Some in E as (p & Hp & E). apply bind_Some in E as (rp & Hrp & E).
    apply bind_Some in E as (rc & Hrc & E). apply bind_Some in E as (lp & Hlp & E).
    apply bind_Some in E as (lc & Hlc & E). apply bind_Some in E as (ps' & Hps'%Hps & E).
    apply bind_Some in E as (cs1 & H1 & E). apply bind_Some in E as (cs2 & H2 & [= <-]).
    rewrite (Hins _ _ _ _ H1 H2). eexists ps', _, _. split; [done|]. split; [|done].
    destruct (slice_halves ccs lc rc _ Hlc Hrc) as [-> Hl].
    destruct (slice_around cps lp rp p _ Hp Hlp Hrp) as [-> Hl']. constructor; [done|]. rewrite Hl, Hl'. lia.
Qed.

Lemma settle_rule (compare : K → K → Z) t1 ps L c R buf (big : Prop) `{!Decision big} (tr tr' : list Z) t' n' :
  (if decide big then n ← splitChild compare (Internal ps (L ++ c :: R) buf false) (length L); Some (t1, n, tr)
   else Some (t1, Internal ps (L ++ c :: R) buf false, tr))
  = Some (t', n', tr') → settles compare big ps L c R buf n' ∧ t' = t1 ∧ tr' = tr.
Proof.
  case_decide; [|intros [= <- <- <-]; split_and!; [by constructor|done..]].
  destruct (splitChild compare _ _) as [n2|] eqn:E; [|done]. intros [= <- <- <-].
  apply splitChild_halves in E as (ps' & l & r & -> & Hh & Hps). split_and!; [by constructor|done..].
Qed.

(** A leaf is not flushed into, an internal node loses no child. *)
Lemma settles_children compare big ps L c R buf n :
  settles compare big ps L c R buf n → leaf n = false ∧ (len (L ++ c :: R) ≤ len (children n))%Z.
Proof. intros []; (split; [done|]); cbn [children]; rewrite !length_app; cbn [length]; lia. Qed.

Lemma flushes_children t n tr t' n' :
  flushes t n tr t' n' → leaf n' = leaf n ∧ (len (children n) ≤ len (children n'))%Z.
Proof.
  destruct 1 as [| | |]; [done|..]; match goal with H : settles _ _ _ _ _ _ _ _ |- _ =>
    apply settles_children in H as [-> Hl] end; (split; [done|]); cbn [children];
    rewrite !length_app in *; cbn [length] in *; lia.
Qed.

(** Only the counters of the tree record change. *)
Lemma flushes_adjust t n tr t' n' : flushes t n tr t' n' → ∃ ds dp, t' = adjust t ds dp.
Proof. induction 1; eauto; exists 0%Z, 0%Z; by rewrite adjust_0. Qed.

Lemma flushNode_traced_flushes fuel t P h n t' n' tr :
  Comparator (cmp t) → params_ok (params t) → wf_node (cmp t) P h n →
  fan_ok (fanout (params t)) n → (∀ k, P k → on_path (cmp t) dels_ok n k) →
  flushNode_traced fuel t n = Some (t', n', tr) → flushes t n tr t' n'.
Proof.
  intros HC Hpar. revert P h n t' n' tr.
  induction fuel as [|fuel IH]; intros P h n t' n' tr Hwf Hfan Hpath; [done|].
  destruct n as [ks vs|ps cs buf bs]; cbn [flushNode_traced].
  { intros [= <- <- <-]. constructor. by left. }
  apply fan_ok_internal in Hfan as [_ Hfan].
  destruct (decide (length buf = 0)) as [Hnil|_].
  { intros [= <- <- <-]. constructor. right. by apply length_zero_iff_nil. }
  pose proof Hwf as (h' & -> & Hs & _ & Hlen & _)%wf_internal_inv.
  destruct (partition_spec (compare := cmp t) ps cs buf bs Hs Hlen)
    as (buckets & hv & back & E1 & E2 & E3 & E4 & Hhv & Hmax).
  cbv zeta. rewrite E1. cbn [mbind option_bind]. rewrite E2. cbn [mbind option_bind].
  rewrite E3. cbn [mbind option_bind]. rewrite slice_prefix by done. cbn [mbind option_bind].
  destruct (lookup_lt_is_Some_2 cs hv Hhv) as [c Hc]. rewrite Hc, E4. cbn [mbind option_bind].
  apply list_split_lookup in Hc as (L & R & Ecs & <-). subst cs.
  destruct (bucket_facts t P h' ps L c R buf bs HC Hwf Hpath) as (Hwc & Hwb & HPb & Hpc).
  assert (heaviest (cmp t) ps L c R buf (bucket_at (compare := cmp t) ps (length L) buf)
            (kept (compare := cmp t) ps (length L) buf)) as Hheavy by done.
  apply Forall_app in Hfan as [_ [Hfc _]%Forall_cons].
  destruct c as [ks vs|cps ccs cbuf cbs].
  - apply wf_leaf_inv in Hwc as (l & -> & -> & -> & Hsl & HPl).
    destruct (absorb_leaf t (λ k, P k ∧ child_ix (cmp t) ps k = length L) l _ HC Hsl HPl Hwb HPb) as (t1 & ks & vs & E & _ & -> & Hgrow).
    { intros k Hk. destruct (Hpc k Hk) as [Hd _]. cbn [den] in Hd. by rewrite zip_fst_snd in Hd. }
    rewrite E. cbn [mbind option_bind]. rewrite update_middle by done. cbn [mbind option_bind].
    intros (Hset & -> & ->)%settle_rule. eapply flushes_leaf; [done..| |done]. by rewrite length_fmap.
  - pose proof Hfc as [Hlc Hfc']%fan_ok_internal.
    pose proof (absorb_append (compare := cmp t) _ h' cps ccs cbuf cbs _ Hwc Hwb HPb) as Happ.
    set (bucket := bucket_at _ _ _) in *. set (c0 := Internal cps ccs (cbuf ++ bucket) false) in *. intros E.
    apply bind_Some in E as ([[t1 c1] moved] & Ec & E). rewrite update_middle in E by done.
    cbn [mbind option_bind] in E.
    destruct (decide (bufferCap (params t) < len (buffer c0))%Z) as [Hover|Hover].
    + assert (∀ k, _ → on_path (cmp t) dels_ok c0 k) as Hp0
        by (intros k Hk; apply Happ; [apply dels_ok_PathInv|by apply (Hpc k Hk)..]).
      assert (fan_ok (fanout (params t)) c0) as Hf0 by (by apply fan_ok_internal).
      pose proof (IH _ h' c0 t1 c1 moved (ab_wf _ _ _ _ _ _ Happ) Hf0 Hp0 Ec) as Hfl.
      destruct (flushes_adjust _ _ _ _ _ Hfl) as (ds & dp & ->).
      apply settle_rule in E as (Hset & -> & ->). by eapply flushes_down.
    + injection Ec as <- <- <-. apply settle_rule in E as (Hset & -> & ->).
      eapply flushes_append; [done| |done]. cbn [buffer c0] in Hover. lia.
Qed.

End rules.

(** ** Calls *)

Section calls.
Context {K V : Type}.
Implicit Types (t : BETree K V) (n l r : node K V).

(** The root at the end of a call: kept, or split under a new root. *)
Inductive reroots (compare : K → K → Z) (big : Prop) n : node K V → Prop :=
| reroots_kept : ¬ big → reroots compare big n n
| reroots_split p l r : big → halves compare n l r → reroots compare big n (Internal [p] [l; r] [] false).

Inductive overflows : BETree K V → list Z → BETree K V → Prop :=
| overflows_none t : (len (buffer (root t)) ≤ bufferCap (params t))%Z → overflows t [] t
| overflows_flush t ds dp tr n1 n' :
    (bufferCap (params t) < len (buffer (root t)))%Z →
    flushes t (root t) tr (adjust t ds dp) n1 →
    reroots (cmp t) (fanout (params t) < len (children n1))%Z n1 n' →
    overflows t tr (set_root (adjust t ds dp) n').

(** [calls t m w tr t']: a call that buffers [m] messages at the root, writes at
    most [w] entries, flushes with trace [tr], and leaves [t']. *)
Inductive calls t : Z → Z → list Z → BETree K V → Prop :=
| calls_none t' : root t' = root t → params t' = params t → calls t 0 0 [] t'
| calls_shrink t' ks vs ks' vs' :
    root t = Leaf ks vs → root t' = Leaf ks' vs' → (len ks' ≤ len ks)%Z → params t' = params t →
    calls t 0 0 [] t'
| calls_leaf t' w ks vs ks' vs' :
    root t = Leaf ks vs → (0 ≤ w)%Z → (len ks' ≤ len ks + w)%Z →
    reroots (cmp t) (leafCap (params t) < len ks')%Z (Leaf ks' vs') (root t') → params t' = params t →
    calls t 0 w [] t'
| calls_buffer t1 msgs ps cs buf bs bs' tr t' :
    root t = Internal ps cs buf bs → root t1 = Internal ps cs (buf ++ msgs) bs' →
    (bs' = true → length (buf ++ msgs) ≤ 1) → params t1 = params t → tree_ok t1 → overflows t1 tr t' →
    calls t (len msgs) (sum_of msg_writes msgs) tr t'.

(** What a call may buffer, and how many entries it may add. *)
Definition call_msgs (o : op K V) (r : result K V) : Z :=
  match o, r with
  | OpPut _ _, _ | OpPutIfAbsent _ _, _ | OpDelete _, _ | OpUpsert _ _, _ => 1
  | OpDeleteRange _ _, RCount n => n
  | _, _ => 0
  end.
Definition call_writes (o : op K V) : Z :=
  match o with OpPut _ _ | OpPutIfAbsent _ _ | OpUpsert _ _ => 1 | _ => 0 end.
Definition clears (o : op K V) : bool := match o with OpClear => true | _ => false end.

Lemma splitRoot_reroots t t' :
  splitRoot t = Some t' → ∃ p l r, t' = set_root t (Internal [p] [l; r] [] false) ∧ halves (cmp t) (root t) l r.
Proof.
  unfold splitRoot. intros E. apply bind_Some in E as (n & E & [= <-]).
  apply (splitChild_halves _ _ [] _ []) in E as (ps & l & r & -> & Hh & Hl).
  destruct ps as [|p [|]]; try done. by exists p, l, r.
Qed.

Lemma splitRoot_rule t1 (big : Prop) `{!Decision big} t' :
  (if decide big then splitRoot t1 else Some t1) = Some t' →
  ∃ n', t' = set_root t1 n' ∧ reroots (cmp t1) big (root t1) n'.
Proof.
  case_decide.
  - intros (p & l & r & -> & Hh)%splitRoot_reroots. eexists. split; [done|]. by constructor.
  - intros [= <-]. exists (root t1). split; [by destruct t1|by constructor].
Qed.

Lemma overflow_rule t t' tr : tree_ok t → overflow_traced t = Some (t', tr) → overflows t tr t'.
Proof.
  intros [HC Hp [h Hwf] Hf _ _ Hd]. unfold overflow_traced. case_decide as Hover.
  2:{ intros [= <- <-]. constructor. lia. }
  destruct (flushNode_traced _ _ _) as [[[t1 n1] tr1]|] eqn:E; [|done]. cbn [mbind option_bind]. cbv zeta.
  apply (flushNode_traced_flushes _ t (λ _, True) h) in E; [|done..].
  destruct (flushes_adjust _ _ _ _ _ E) as (ds & dp & ->). intros Er.
  set (t2 := set_root (adjust t ds dp) n1) in Er.
  assert (tr1 = tr ∧ (if decide (fanout (params t2) < len (children (root t2)))%Z then splitRoot t2
                      else Some t2) = Some t') as [-> Er'].
  { case_decide; [destruct (splitRoot t2); [|done]|]; by injection Er as <- <-. }
  apply splitRoot_rule in Er' as (n' & -> & Hr). by eapply overflows_flush.
Qed.

(** Buffering one message, then checking for an overflow. *)
Lemma buffered_calls t (m : Message K V) t1 tr t' :
  tree_ok t → leaf (root t) = false → wf_msg m → (Kind m = MsgDelete → is_Some (lookup t (Key m))) →
  buffer_msg (adjust t (msg_delta m) (is_delete m)) m = Some t1 → overflow_traced t1 = Some (t', tr) →
  calls t 1 (msg_writes m) tr t'.
Proof.
  intros Hok Hl Hm Hd E1 Eo. destruct (buffer_msg_spec t m Hok Hl Hm Hd) as (t1' & E1' & Hok1 & _).
  rewrite E1 in E1'. injection E1' as <-. apply overflow_rule in Eo; [|done].
  unfold buffer_msg in E1. cbn [root adjust] in E1. destruct (root t) as [|ps cs buf bs] eqn:Er; [done|].
  cbn [appendToBuffer mbind option_bind] in E1. injection E1 as <-.
  assert (calls t (len [m]) (sum_of msg_writes [m]) tr t') as Hc
    by (eapply calls_buffer; [exact Er| | | |exact Hok1|exact Eo]; try done; apply bool_decide_eq_true).
  unfold sum_of in Hc. cbn [foldr length] in Hc. by rewrite Z.add_0_r in Hc.
Qed.

Lemma leafInsert_grows (compare : K → K → Z) n k (v : V) n' b :
  leafInsert n k v compare = Some (n', b) → ∃ ks vs, n' = Leaf ks vs ∧ (len ks ≤ len (keys n) + 1)%Z.
Proof.
  unfold leafInsert. intros E. apply bind_Some in E as ([i []] & _ & E).
  - apply bind_Some in E as (vs & _ & [= <- _]). eexists _, _. split; [done|]. lia.
  - apply bind_Some in E as (ks & Ek & E). apply bind_Some in E as (vs & _ & [= <- _]).
    eexists _, _. split; [done|]. unfold Insert in Ek. case_decide; [|done]. injection Ek as <-.
    rewrite length_app. cbn [length]. rewrite length_take, length_drop. lia.
Qed.

Lemma Delete_length {A} (s s' : list A) i : Slices.Delete s i = Some s' → length s' ≤ length s.
Proof.
  unfold Slices.Delete. case_decide; [|done]. intros [= <-].
  rewrite length_app, length_take, length_drop. lia.
Qed.

Lemma leafDelete_shrinks (compare : K → K → Z) ks (vs : list V) k n' b :
  leafDelete (Leaf ks vs) k compare = Some (n', b) → ∃ ks' vs', n' = Leaf ks' vs' ∧ (len ks' ≤ len ks)%Z.
Proof.
  unfold leafDelete. intros E. apply bind_Some in E as ([i []] & _ & E).
  - apply bind_Some in E as (ks' & Ek%Delete_length & E). apply bind_Some in E as (vs' & _ & [= <- _]).
    eexists _, _. split; [done|]. cbn [keys] in Ek. lia.
  - injection E as <- _. by eexists _, _.
Qed.

Lemma delete_range_leaf_shrinks (compare : K → K → Z) lo hi p ks (vs : list V) c ks' vs' c' :
  delete_range_leaf compare lo hi p ks vs c = Some (ks', vs', c') → length ks' ≤ length ks ∧ (c ≤ c')%Z.
Proof.
  revert ks vs c. induction p as [|p IH]; intros ks vs c; cbn [delete_range_leaf].
  { intros [= <- _ <-]. by split. }
  destruct (ks !! p) as [k|]; [|done]. cbn [mbind option_bind]. case_decide; [|apply IH].
  intros E. apply bind_Some in E as (ks1 & Ek%Delete_length & E). apply bind_Some in E as (vs1 & _ & E).
  apply IH in E. lia.
Qed.

Lemma buffer_deletes_root `{Zero K, Zero V} t t1 (ps : list (kvPair K V)) pvs cs buf bs :
  foldM (λ t p, buffer_msg t (delete_msg p.1)) t ps = Some t1 → root t = Internal pvs cs buf bs → ps ≠ [] →
  params t1 = params t ∧ ∃ bs', root t1 = Internal pvs cs (buf ++ ((λ p, delete_msg p.1) <$> ps)) bs'
    ∧ (bs' = true → length (buf ++ ((λ p, delete_msg p.1) <$> ps : list (Message K V))) ≤ 1).
Proof.
  revert t buf bs. induction ps as [|p ps IH]; intros t buf bs; cbn [foldM].
  { done. }
  intros E Er _. apply bind_Some in E as (t2 & E2 & E). unfold buffer_msg in E2. rewrite Er in E2.
  cbn [appendToBuffer mbind option_bind] in E2. injection E2 as <-.
  destruct ps as [|q ps].
  { injection E as <-. split; [done|]. eexists. split; [done|]. by intros ?%bool_decide_eq_true. }
  eapply IH in E as (Hp & bs' & Hr & Hb); [|done|done].
  split; [done|]. exists bs'. rewrite <-app_assoc in Hr, Hb. by split.
Qed.

Context `{Zero K, Zero V}.

Lemma putLocked_calls t k v kn t' tr :
  tree_ok t → putLocked_traced t k v kn = Some (t', tr) →
  ∃ m, calls t m 1 tr t' ∧ (0 ≤ m ≤ 1)%Z.
Proof.
  intros Hok. unfold putLocked_traced. destruct (leaf (root t)) eqn:Hl.
  - unfold putLocked. rewrite Hl. intros E. apply bind_Some in E as (t2 & E & [= <- <-]).
    apply bind_Some in E as ([n isNew] & Ei & E). destruct (root t) as [ks vs|] eqn:Er; [|done].
    apply leafInsert_grows in Ei as (ks' & vs' & -> & Hg). cbn [keys] in Hg.
    apply splitRoot_rule in E as (n' & -> & Hr). exists 0%Z. split; [|lia].
    destruct isNew; (eapply calls_leaf; [exact Er|lia|exact Hg|exact Hr|done]).
  - intros E. apply bind_Some in E as (isNew & _ & E). apply bind_Some in E as (t1 & E1 & E).
    exists 1%Z. split; [|lia]. apply (buffered_calls t (put_msg k v isNew) t1); try done.
    unfold put_msg, msg_delta, is_delete. cbn [Kind counted].
    destruct isNew; [exact E1|]. by rewrite adjust_0.
Qed.

Lemma Upsert_calls t k f t' (r : result K V) tr :
  tree_ok t → exec_traced t (OpUpsert k f) = Some (t', r, tr) → ∃ m, calls t m 1 tr t' ∧ (0 ≤ m ≤ 1)%Z.
Proof.
  intros Hok. cbn [exec_traced]. destruct (leaf (root t)) eqn:Hl.
  - unfold Upsert. rewrite Hl. intros E. apply bind_Some in E as (t2 & E & [= <- _ <-]).
    apply bind_Some in E as ([i found] & _ & E). cbn [mbind option_bind] in E.
    apply bind_Some in E as (t1 & E1 & E). destruct (root t) as [ks vs|] eqn:Er; [|done]. cbn [keys values] in E1.
    assert (∃ ks' vs', root t1 = Leaf ks' vs' ∧ (len ks' ≤ len ks + 1)%Z ∧ params t1 = params t ∧ cmp t1 = cmp t)
      as (ks' & vs' & Er1 & Hg & Hp & Hc).
    { destruct found.
      - repeat (apply bind_Some in E1 as (? & _ & E1)). injection E1 as <-. eexists _, _. split_and!; [done|lia|done..].
      - apply bind_Some in E1 as ([n b] & (ks' & vs' & -> & Hg)%leafInsert_grows & [= <-]).
        exists ks', vs'. by split_and!. }
    apply splitRoot_rule in E as (n' & -> & Hr). exists 0%Z. split; [|lia].
    rewrite Er1, Hp, Hc in Hr. by eapply calls_leaf.
  - intros E. apply bind_Some in E as (t1 & E1 & E). apply bind_Some in E as ([t2 tr2] & E2 & [= <- _ <-]).
    exists 1%Z. split; [|lia]. apply (buffered_calls t (upsert_msg k (Some f)) t1); try done; [by eexists|].
    by rewrite adjust_0.
Qed.

Lemma Delete_calls t k t' (r : result K V) tr :
  tree_ok t → exec_traced t (OpDelete k) = Some (t', r, tr) → ∃ m, calls t m 0 tr t' ∧ (0 ≤ m ≤ 1)%Z.
Proof.
  intros Hok. cbn [exec_traced]. destruct (leaf (root t)) eqn:Hl.
  - unfold Delete, deleteLocked. rewrite Hl. intros E. apply bind_Some in E as ([t2 b] & E & [= <- _ <-]).
    apply bind_Some in E as ([n found] & Ed & E). destruct (root t) as [ks vs|] eqn:Er; [|done].
    apply leafDelete_shrinks in Ed as (ks' & vs' & -> & Hg). exists 0%Z. split; [|lia].
    destruct found; injection E as <- _; by eapply calls_shrink.
  - rewrite getFromNode_root by done. destruct (lookup t k) as [v|] eqn:Hk; cbn [comma_ok mbind option_bind negb].
    + intros E. apply bind_Some in E as (t1 & E1 & E). apply bind_Some in E as ([t2 tr2] & E2 & [= <- _ <-]).
      exists 1%Z. split; [|lia]. by apply (buffered_calls t (delete_msg k) t1); [| | |eexists| |].
    + intros [= <- _ <-]. exists 0%Z. split; [by constructor|lia].
Qed.

Lemma DeleteRange_calls t lo hi t' (r : result K V) tr :
  tree_ok t → exec_traced t (OpDeleteRange lo hi) = Some (t', r, tr) →
  ∃ m, calls t m 0 tr t' ∧ (0 ≤ m ≤ call_msgs (OpDeleteRange lo hi) r)%Z.
Proof.
  intros Hok. cbn [exec_traced]. destruct (leaf (root t)) eqn:Hl.
  - unfold DeleteRange. case_decide.
    { intros [= <- <- <-]. exists 0%Z. split; [by constructor|cbn; lia]. }
    rewrite Hl. intros E. apply bind_Some in E as ([t2 c] & E & [= <- <- <-]).
    apply bind_Some in E as ([[ks' vs'] c'] & Ed & [= <- <-]). destruct (root t) as [ks vs|] eqn:Er; [|done].
    apply delete_range_leaf_shrinks in Ed as [Hg Hc]. cbn [keys] in Hg.
    exists 0%Z. split; [eapply calls_shrink; [done..|lia|done]|cbn; lia].
  - case_decide as Hlh; [intros [= <- <- <-]; exists 0%Z; split; [by constructor|cbn; lia]|]. intros E.
    pose proof Hok as [HC _ [h Hwf] _ _ _ _].
    destruct (materializeRange_gen t h lo hi true false HC Hwf eq_refl) as (pairs & Em & Hsnap).
    rewrite decide_False in Em by done.
    destruct (collectRange _ _ _ _ _ _ _) as [es|]; [|done]. cbn [mbind option_bind] in E, Em.
    rewrite Em in E. cbn [mbind option_bind] in E. case_decide.
    { injection E as <- <- <-. exists 0%Z. split; [by constructor|cbn; lia]. }
    cbv zeta in E. destruct (buffer_deletes_spec t pairs Hok Hl (sn_sorted _ _ _ _ Hsnap)
      (snapshot_live _ _ _ HC Hsnap)) as (t1 & E1 & Hok1 & _).
    rewrite E1 in E. cbn [mbind option_bind] in E. apply bind_Some in E as ([t2 tr2] & E2 & [= <- <- <-]).
    apply overflow_rule in E2; [|done]. destruct (root t) as [|ps cs buf bs] eqn:Er; [done|].
    destruct (buffer_deletes_root _ t1 pairs ps cs buf bs E1) as (Hp & bs' & Er1 & Hflag);
      [done|by destruct pairs|].
    exists (len pairs). split; [|cbn; lia].
    pose proof (calls_buffer t t1 _ ps cs buf bs bs' tr2 t2 Er Er1 Hflag Hp Hok1 E2) as Hc.
    rewrite length_fmap in Hc.
    assert (sum_of msg_writes ((λ p, delete_msg p.1) <$> pairs : list (Message K V)) = 0%Z) as Hw
      by (clear; by induction pairs).
    by rewrite Hw in Hc.
Qed.

(** Every method but [Clear] is a call of the relation. *)
Lemma exec_traced_calls t o t' (r : result K V) tr :
  tree_ok t → clears o = false → exec_traced t o = Some (t', r, tr) →
  ∃ m w, calls t m w tr t' ∧ (0 ≤ m ≤ call_msgs o r)%Z ∧ (0 ≤ w ≤ call_writes o)%Z.
Proof.
  intros Hok Hcl E.
  assert (is_write o = false → calls t 0 0 tr t' ∧ call_msgs o r = 0%Z ∧ call_writes o = 0%Z) as Hread.
  { intros Ho. pose proof (exec_traced_erase t o) as Ee. rewrite E in Ee. symmetry in Ee.
    apply exec_read in Ee as ->; [|done].
    assert (tr = []) as -> by (destruct o; try done; by apply bind_Some in E as ([] & _ & [= _ _ <-])).
    split; [by constructor|by destruct o]. }
  destruct o as [k v|k|k|k|k f|k v|lo hi| | | | |lo hi|hi lo| | |]; try done;
    try (destruct Hread as (Hc & -> & ->); [done|]; exists 0%Z, 0%Z; by split_and!).
  - cbn [exec_traced] in E. apply bind_Some in E as ([t1 tr1] & Ep & [= <- <- <-]).
    destruct (putLocked_calls _ _ _ _ _ _ Hok Ep) as (m & Hc & Hm). by exists m, 1%Z.
  - destruct (Delete_calls _ _ _ _ _ Hok E) as (m & Hc & Hm). by exists m, 0%Z.
  - destruct (Upsert_calls _ _ _ _ _ _ Hok E) as (m & Hc & Hm). by exists m, 1%Z.
  - cbn [exec_traced] in E. rewrite getFromNode_root in E by done.
    destruct (lookup t k) as [v0|]; cbn [comma_ok mbind option_bind] in E.
    + injection E as <- <- <-. exists 0%Z, 0%Z. split_and!; (by constructor || done).
    + apply bind_Some in E as ([t1 tr1] & Ep & [= <- <- <-]).
      destruct (putLocked_calls _ _ _ _ _ _ Hok Ep) as (m & Hc & Hm). by exists m, 1%Z.
  - destruct (DeleteRange_calls _ _ _ _ _ _ Hok E) as (m & Hc & Hm). by exists m, 0%Z.
  - cbn [exec_traced exec mbind option_bind] in E. injection E as <- <- <-.
    exists 0%Z, 0%Z. split_and!; (by constructor || done).
Qed.

End calls.
