(* ===== verification/Options.v ===== *)
(** * Options and construction (options.go, errors.go, tree.go)

    A float64 is a [spec_float] at precision 53 and maximal exponent 1024, with
    the IEEE 754 operations of the Standard Library.  [math.Pow] is an argument
    of the definitions: its results are platform arithmetic that the sources
    only call.  The conversion of an out-of-range float to int is left to the
    implementation by Go; it is the argument [oor].  Nothing below but the
    derived sizes depends on either. *)

From Stdlib Require Import SpecFloat.
From S2P Require Import Prelude Order Slices Message Node LeafMerge Flush Iterator Tree Spec.

(** ** Floats *)

Definition prec : Z := 53.
Definition emax : Z := 1024.

(** [float64(n)]: round to nearest even. *)
Definition float64 (n : Z) : spec_float := binary_normalize prec emax n 0 false.

(** [int(f)]: truncation towards zero; [oor] for a value outside of int. *)
Definition trunc_mantissa (m e : Z) : Z :=
  if decide (0 ≤ e)%Z then Z.shiftl m e else Z.shiftr m (- e).
Definition int_of_float (oor : spec_float → Z) (f : spec_float) : Z :=
  match f with
  | S754_zero _ => 0
  | S754_finite s m e =>
      let z := trunc_mantissa (Zpos m) e in
      let z := if s then (- z)%Z else z in
      if decide (- 2^63 ≤ z < 2^63)%Z then z else oor f
  | S754_infinity _ | S754_nan => oor f
  end.

#[export] Instance Numeric_float64 : Numeric spec_float := SFadd prec emax.
Definition half : spec_float := SFdiv prec emax (float64 1) (float64 2).

(** The values a float64 has: mantissas of at most 53 bits, in canonical form. *)
Definition is_float64 (f : spec_float) : Prop := valid_binary prec emax f = true.

(** ** options.go *)

Definition DefaultEpsilon : spec_float := half.
Definition DefaultBlockSize : Z := 4096.
Definition minFanout : Z := 2.
Definition minBufferCap : Z := 1.

Record options := mkOptions { o_epsilon : spec_float; o_blockSize : Z }.

(** An [Option] is a function that writes to [*options]. *)
Definition Option_ : Type := options → options.

Definition defaultOptions : options := mkOptions DefaultEpsilon DefaultBlockSize.
Definition resolveOptions (opts : list Option_) : options :=
  foldl (λ o fn, fn o) defaultOptions opts.
Definition WithEpsilon (eps : spec_float) : Option_ := λ o, mkOptions eps (o_blockSize o).
Definition WithBlockSize (sz : Z) : Option_ := λ o, mkOptions (o_epsilon o) sz.

(** errors.go. *)
Inductive error := ErrClosed | ErrInvalidEpsilon | ErrNilCompare | ErrInvalidBlockSize.

Definition validateOptions (o : options) : option error :=
  if SFleb (o_epsilon o) (S754_zero false) || SFltb (float64 1) (o_epsilon o)
  then Some ErrInvalidEpsilon
  else if decide (o_blockSize o < 2)%Z then Some ErrInvalidBlockSize
  else None.

(** ** Floats of integers *)

Lemma digits2_bounds p : (2^(Zpos (digits2_pos p) - 1) ≤ Zpos p < 2^Zpos (digits2_pos p))%Z.
Proof.
  induction p as [p IH|p IH|]; cbn [digits2_pos]; [| |done].
  all: rewrite Pos2Z.inj_succ, Z.sub_succ_l, !Z.pow_succ_r in * by lia; lia.
Qed.

Lemma digits2_shift p n : digits2_pos (Pos.iter xO p n) = (digits2_pos p + n)%positive.
Proof.
  induction n as [|n IH] using Pos.peano_ind; [simpl; lia|].
  rewrite Pos.iter_succ. cbn [digits2_pos]. rewrite IH. lia.
Qed.

Lemma iter_xO p n : Zpos (Pos.iter xO p n) = Z.shiftl (Zpos p) (Zpos n).
Proof.
  rewrite Z.shiftl_mul_pow2 by lia. induction n as [|n IH] using Pos.peano_ind; [simpl; lia|].
  rewrite Pos.iter_succ, Pos2Z.inj_xO, IH, Pos2Z.inj_succ, Z.pow_succ_r by lia. lia.
Qed.

(** The mantissa and exponent of a valid float. *)
Lemma valid_finite s m e :
  is_float64 (S754_finite s m e) →
  (Zpos m < 2^52 ∧ e = -1074 ∨ 2^52 ≤ Zpos m < 2^53 ∧ -1074 ≤ e ≤ 971)%Z.
Proof.
  unfold is_float64, valid_binary, bounded, canonical_mantissa.
  intros [Hc He]%andb_prop. apply Z.eqb_eq in Hc. apply Z.leb_le in He.
  pose proof (digits2_bounds m) as [Hlo Hhi]. unfold fexp, emin, prec, emax in *.
  set (d := Zpos (digits2_pos m)) in *.
  destruct (decide (d < 53)%Z) as [Hd|Hd].
  - left. split; [|lia]. eapply Z.lt_le_trans; [exact Hhi|]. apply Z.pow_le_mono_r; lia.
  - assert (d = 53)%Z as -> by lia. right. split; [|lia]. split; [|done]. by change (53 - 1)%Z with 52%Z in Hlo.
Qed.

(** NaN and the numbers in (0, 1]: what [validateOptions] accepts as an epsilon. *)
Definition epsilon_accepted (f : spec_float) : Prop :=
  match f with
  | S754_nan => True
  | S754_finite false m e => (Zpos m * 2 ^ Z.max 0 e ≤ 2 ^ Z.max 0 (- e))%Z
  | _ => False
  end.
#[export] Instance epsilon_accepted_dec f : Decision (epsilon_accepted f).
Proof. destruct f as [| | |[] m e]; apply _. Defined.

Lemma epsilon_tests f :
  is_float64 f →
  SFleb f (S754_zero false) || SFltb (float64 1) f = negb (bool_decide (epsilon_accepted f)).
Proof.
  change (float64 1) with (S754_finite false 4503599627370496 (-52)).
  destruct f as [[]|[]| |[] m e]; intros Hv; try done.
  unfold SFleb, SFltb. cbn [SFcompare orb].
  destruct (valid_finite false m e Hv) as [[Hm ->]|[Hm He]].
  - change (-52 ?= -1074)%Z with Gt. symmetry. apply negb_false_iff, bool_decide_eq_true.
    cbn [epsilon_accepted]. change (2 ^ Z.max 0 (-1074))%Z with 1%Z.
    assert (2 ^ 52 ≤ 2 ^ Z.max 0 (- -1074))%Z by (apply Z.pow_le_mono_r; lia). lia.
  - destruct (Z.compare_spec (-52) e) as [<-|Hlt|Hgt].
    + assert (∀ p : positive, match Pos.compare_cont Eq p m with Lt => true | _ => false end
                = negb (bool_decide (Zpos m * 1 ≤ Zpos p)%Z)) as Hcmp.
      { intros p. fold (Pos.compare p m). symmetry.
        destruct (Pos.compare_spec p m) as [<-|Hp|Hp];
          [apply negb_false_iff, bool_decide_eq_true|apply negb_true_iff, bool_decide_eq_false
          |apply negb_false_iff, bool_decide_eq_true]; lia. }
      apply Hcmp.
    + symmetry. apply negb_true_iff, bool_decide_eq_false. cbn [epsilon_accepted].
      assert (2 ^ Z.max 0 (- e) ≤ 2 ^ 51)%Z by (apply Z.pow_le_mono_r; lia).
      assert (1 ≤ 2 ^ Z.max 0 e)%Z by (apply (Z.pow_le_mono_r 2 0); lia). nia.
    + symmetry. apply negb_false_iff, bool_decide_eq_true. cbn [epsilon_accepted].
      replace (Z.max 0 e) with 0%Z by lia.
      assert (2 ^ 53 ≤ 2 ^ Z.max 0 (- e))%Z by (apply Z.pow_le_mono_r; lia). lia.
Qed.

Lemma validateOptions_cases o :
  is_float64 (o_epsilon o) →
  validateOptions o
  = if decide (epsilon_accepted (o_epsilon o)) then
      if decide (o_blockSize o < 2)%Z then Some ErrInvalidBlockSize else None
    else Some ErrInvalidEpsilon.
Proof.
  intros Hf. unfold validateOptions. rewrite epsilon_tests by done.
  destruct (decide (epsilon_accepted _)); [by rewrite bool_decide_true|by rewrite bool_decide_false].
Qed.

(** A full mantissa in the exponent range is not rounded. *)
Lemma round_full m e :
  digits2_pos m = 53%positive → (-1074 ≤ e ≤ 971)%Z →
  binary_round_aux prec emax false (Zpos m) e loc_Exact = S754_finite false m e.
Proof.
  intros Hm He. assert (∀ b c, shr (Build_shr_record (Zpos m) b c) e
    (fexp prec emax (Zdigits2 (Zpos m) + e) - e) = (Build_shr_record (Zpos m) b c, e)) as E.
  { intros b c. cbn [Zdigits2]. rewrite Hm. unfold fexp, emin, prec, emax.
    replace (_ - e)%Z with 0%Z by lia. done. }
  unfold binary_round_aux, shr_fexp. cbn [shr_record_of_loc]. rewrite E.
  cbn [shr_m loc_of_shr_record round_nearest_even]. rewrite E. cbn [shr_m].
  rewrite (proj2 (Z.leb_le _ _)); [done|]. unfold emax, prec. lia.
Qed.

Lemma int_of_finite oor m e z :
  trunc_mantissa (Zpos m) e = z → (- 2^63 ≤ z < 2^63)%Z →
  int_of_float oor (S754_finite false m e) = z.
Proof. intros E Hz. unfold int_of_float. rewrite E. by rewrite decide_True. Qed.

(** An int below 2^53 survives [int(float64(n))]. *)
Lemma int_of_float64 oor n : (0 ≤ n < 2^53)%Z → int_of_float oor (float64 n) = n.
Proof.
  intros Hn. destruct n as [|p|p]; [done| |lia]. unfold float64, binary_normalize, binary_round.
  pose proof (digits2_bounds p) as [Hlo _]. rewrite Z.add_0_r. set (d := digits2_pos p) in *.
  assert (Zpos d ≤ 53)%Z as Hd.
  { apply Z.nlt_ge. intros Hlt. pose proof (Z.pow_le_mono_r 2 53 (Zpos d - 1)). lia. }
  assert (fexp prec emax (Zpos d) = Zpos d - 53)%Z as -> by (unfold fexp, emin, prec, emax; lia).
  unfold shl_align. rewrite Z.sub_0_r.
  destruct (Zpos d - 53)%Z as [|k|k] eqn:Ek; [|lia|].
  - rewrite round_full by (fold d; lia). apply int_of_finite; [done|lia].
  - rewrite round_full by (rewrite ?digits2_shift; fold d; lia). apply int_of_finite; [|lia].
    unfold trunc_mantissa. rewrite decide_False by lia. rewrite iter_xO. cbn [Z.opp].
    by rewrite Z.shiftr_shiftl_l, Z.sub_diag, Z.shiftl_0_r by lia.
Qed.

Section construction.
Context (Pow : spec_float → spec_float → spec_float) (oor : spec_float → Z).

Definition deriveParams (o : options) : treeParams :=
  let b := float64 (o_blockSize o) in
  let fo := int_of_float oor (Pow b (o_epsilon o)) in
  let fo := Z.max fo minFanout in
  let bc := int_of_float oor (Pow b (SFsub prec emax (float64 1) (o_epsilon o))) in
  let bc := Z.max bc minBufferCap in
  mkParams (o_epsilon o) (o_blockSize o) fo bc (o_blockSize o).

(** A Go function that returns [(T, error)]; [None] is a panic. *)
Definition NewWithCompare {K V} `{Memory K V} (compare : option (K → K → Z)) (opts : list Option_)
    : option (error + BETree K V) :=
  match compare with
  | None => Some (inl ErrNilCompare)
  | Some compare =>
      let o := resolveOptions opts in
      match validateOptions o with
      | Some err => Some (inl err)
      | None =>
          let params := deriveParams o in
          n ← newLeaf (leafCap params);
          Some (inr (mkBETree n compare params 0 0 false))
      end
  end.

Definition New {K V} `{Memory K V, Ordered K} (opts : list Option_) : option (error + BETree K V) :=
  NewWithCompare (Some cmp_Compare) opts.

(** ** Lemmas *)

Lemma deriveParams_ok o : validateOptions o = None → params_ok (deriveParams o).
Proof.
  unfold validateOptions, deriveParams, params_ok, minFanout, minBufferCap.
  destruct (_ || _); [done|]. case_decide; [done|]. intros _.
  cbn [fanout bufferCap leafCap]. lia.
Qed.

(** The default options are valid. *)
Lemma NewWithCompare_valid {K V} `{Memory K V} (compare : K → K → Z) opts :
  let o := resolveOptions opts in
  validateOptions o = None → (o_blockSize o ≤ max_cap K V)%Z →
  NewWithCompare (Some compare) opts
  = Some (inr (mkBETree emptyLeaf compare (deriveParams o) 0 0 false)).
Proof.
  intros o Ev Hm. unfold NewWithCompare. fold o. rewrite Ev. unfold newLeaf. cbn zeta.
  pose proof (deriveParams_ok o Ev) as (_ & _ & HL). cbn [leafCap deriveParams] in *.
  by rewrite decide_True by lia.
Qed.

Lemma NewWithCompare_default {K V} `{Memory K V} (compare : K → K → Z) :
  ∃ t : BETree K V, NewWithCompare (Some compare) [] = Some (inr t).
Proof. eexists. apply (NewWithCompare_valid compare []); [done|apply max_cap_default]. Qed.

Lemma NewWithCompare_inv {K V} `{Memory K V} (compare : K → K → Z) opts (t : BETree K V) :
  NewWithCompare (Some compare) opts = Some (inr t) →
  validateOptions (resolveOptions opts) = None
  ∧ t = mkBETree emptyLeaf compare (deriveParams (resolveOptions opts)) 0 0 false.
Proof.
  unfold NewWithCompare. destruct (validateOptions _); [done|]. unfold newLeaf. cbn zeta.
  case_decide; [|done]. by intros [= <-].
Qed.

Lemma NewWithCompare_refines {K V} `{Memory K V} (compare : K → K → Z) opts (t : BETree K V) :
  Comparator compare → NewWithCompare (Some compare) opts = Some (inr t) →
  refines t [] ∧ cmp t = compare ∧ closed t = false
  ∧ params t = deriveParams (resolveOptions opts).
Proof.
  intros HC [Ev ->]%NewWithCompare_inv. split; [|done]. pose proof (deriveParams_ok _ Ev).
  split; [|constructor|done]. split; cbn [cmp params root size pendingDeletes]; try done.
  exists 0. apply (wf_leaf _ _ []); constructor.
Qed.

End construction.

(** Special cases that the documentation of [math.Pow] lists: Pow(x, ±0) = 1,
    Pow(x, 1) = x and Pow(x, NaN) = NaN. *)
Class PowSpec (Pow : spec_float → spec_float → spec_float) : Prop := {
  Pow_zero x : Pow x (S754_zero false) = float64 1;
  Pow_one x : Pow x (float64 1) = x;
  Pow_nan x : Pow x S754_nan = S754_nan
}.
