(* ===== verification/Program.v ===== *)
(** * Programs that print (the [main] functions of examples/)

    A program is a value of [io]: it extends the text printed so far and ends by
    returning, by [log.Fatal] or by a panic.  A tree method that returns [option]
    enters a program through [must], a constructor that returns an error through
    [fatal].  [for_range] is [for k, v := range seq]: the loop body is the
    iterator's yield function, and [break] is its false.

    [Sprintf] is package fmt for the verbs the examples use; anything else is
    [None], so a theorem that gives a program's output shows it needs no more.
    Text is bytes; widths count bytes, which are characters in ASCII. *)

From Stdlib Require Import Ascii String DecimalString SpecFloat.
From stdpp Require Import strings.
From S2P Require Import Prelude Order Slices Message Node LeafMerge Flush Iterator Tree Spec Options.

(** ** Package fmt *)

Inductive arg := AInt (z : Z) | AString (s : string) | ABool (b : bool) | AFloat (f : spec_float).

Definition newline : string := String "010" EmptyString.
Definition string_of_Z (z : Z) : string := NilZero.string_of_int (Z.to_int z).

Fixpoint repeat_char (n : nat) (c : ascii) : string :=
  match n with 0 => EmptyString | S n => String c (repeat_char n c) end.

(** [strconv.Quote] on bytes: quotes, backslashes and newlines are escaped;
    [None] on other control characters and outside of ASCII. *)
Fixpoint quote_body (s : string) : option string :=
  match s with
  | EmptyString => Some EmptyString
  | String c s =>
      r ← quote_body s;
      let n := N_of_ascii c in
      if decide (n = 34 ∨ n = 92)%N then Some (String "\" (String c r))
      else if decide (n = 10)%N then Some (String "\" (String "n" r))
      else if decide (32 ≤ n < 127)%N then Some (String c r) else None
  end.
Definition quote (s : string) : option string :=
  r ← quote_body s; Some (String "034" r +:+ String "034" EmptyString).

(** [%.pf]: the exact value rounded to [p] decimals, ties to even. *)
Definition round_div (n d : Z) : Z :=
  let q := (n / d)%Z in
  let r := (n mod d)%Z in
  if decide (d < 2 * r ∨ d = 2 * r ∧ Z.odd q = true)%Z then (q + 1)%Z else q.
Definition fixed (p : nat) (f : spec_float) : string :=
  let sign (s : bool) := if s then String "-" EmptyString else EmptyString in
  let digits (q : Z) :=
    let b := (10 ^ Z.of_nat p)%Z in
    let frac := string_of_Z (q mod b) in
    string_of_Z (q / b)
      +:+ if decide (p = 0) then EmptyString
          else String "." (repeat_char (p - String.length frac) "0") +:+ frac in
  match f with
  | S754_zero s => sign s +:+ digits 0%Z
  | S754_infinity s => (if s then "-" else "+") +:+ "Inf"
  | S754_nan => "NaN"
  | S754_finite s m e =>
      sign s +:+ digits (round_div (Zpos m * 10 ^ Z.of_nat p * 2 ^ Z.max 0 e) (2 ^ Z.max 0 (- e)))
  end.

Definition render_v (a : arg) : option string :=
  match a with
  | AInt z => Some (string_of_Z z)
  | AString s => Some s
  | ABool b => Some (if b then "true" else "false")
  | AFloat _ => None
  end.

Definition render (verb : ascii) (p : option nat) (a : arg) : option string :=
  match verb, a, p with
  | "d"%char, AInt z, None => Some (string_of_Z z)
  | "s"%char, AString s, None => Some s
  | "v"%char, _, None => render_v a
  | "q"%char, AString s, None => quote s
  | "f"%char, AFloat f, Some p => Some (fixed p f)
  | _, _, _ => None
  end.

(** The flags, width and precision before a verb, and the text after it. *)
Record directive := mkDirective { minus : bool; width : nat; precision : option nat }.

Definition digit (c : ascii) : option nat :=
  let n := N_of_ascii c in
  if decide (48 ≤ n ≤ 57)%N then Some (N.to_nat (n - 48)) else None.

Definition pad (d : directive) (s : string) : string :=
  let fill := repeat_char (width d - String.length s) " " in
  if minus d then s +:+ fill else fill +:+ s.

(** The state of the scan: in plain text, or in a directive. *)
Fixpoint format (st : option directive) (fmt : string) (args : list arg) : option string :=
  match fmt, st with
  | EmptyString, None => if args is [] then Some EmptyString else None
  | EmptyString, Some _ => None
  | String "%" fmt, None => format (Some (mkDirective false 0 None)) fmt args
  | String c fmt, None => r ← format None fmt args; Some (String c r)
  | String c fmt, Some d =>
      match c, digit c, precision d with
      | "-"%char, _, None => format (Some (mkDirective true (width d) None)) fmt args
      | "."%char, _, None => format (Some (mkDirective (minus d) (width d) (Some 0))) fmt args
      | _, Some n, None => format (Some (mkDirective (minus d) (10 * width d + n) None)) fmt args
      | _, Some n, Some p => format (Some (mkDirective (minus d) (width d) (Some (10 * p + n)))) fmt args
      | _, None, _ =>
          if args is a :: args then
            s ← render c (precision d) a; r ← format None fmt args; Some (pad d s +:+ r)
          else None
      end
  end.
Definition Sprintf (fmt : string) (args : list arg) : option string := format None fmt args.

(** [Println]: the operands separated by spaces. *)
Fixpoint Sprintln (args : list arg) : option string :=
  match args with
  | [] => Some newline
  | [a] => s ← render_v a; Some (s +:+ newline)
  | a :: args => s ← render_v a; r ← Sprintln args; Some (s +:+ String " " r)
  end.

(** A Go string literal: its [\n] are newlines. *)
Fixpoint lit (s : string) : string :=
  match s with
  | String "\" (String "n" s) => newline +:+ lit s
  | String c s => String c (lit s)
  | EmptyString => EmptyString
  end.

(** ** Programs *)

Inductive exit (A : Type) := Done (a : A) | Fatal (msg : string) | Panicked.
Arguments Done {A}.
Arguments Fatal {A}.
Arguments Panicked {A}.

Definition io (A : Type) : Type := string → exit A * string.

#[export] Instance io_ret : MRet io := λ A a out, (Done a, out).
#[export] Instance io_bind : MBind io := λ A B f m out,
  match m out with
  | (Done a, out) => f a out
  | (Fatal msg, out) => (Fatal msg, out)
  | (Panicked, out) => (Panicked, out)
  end.

Definition must {A} (o : option A) : io A := λ out,
  if o is Some a then (Done a, out) else (Panicked, out).
(** [Error()] of errors.go. *)
Definition Error (e : error) : string :=
  match e with
  | ErrClosed => "fractaltree: tree is closed"
  | ErrInvalidEpsilon => "fractaltree: epsilon must be in (0, 1]"
  | ErrNilCompare => "fractaltree: compare function must not be nil"
  | ErrInvalidBlockSize => "fractaltree: block size must be at least 2"
  end.
(** [if err != nil { log.Fatal(err) }], after a call that may panic. *)
Definition fatal {A} (r : option (error + A)) : io A := λ out,
  match r with
  | Some (inl e) => (Fatal (Error e), out)
  | Some (inr a) => (Done a, out)
  | None => (Panicked, out)
  end.

Definition print (s : string) : io unit := λ out, (Done tt, out +:+ s).
Definition Printf (fmt : string) (args : list arg) : io unit := s ← must (Sprintf (lit fmt) args); print s.
Definition Println (args : list arg) : io unit := s ← must (Sprintln args); print s.
(** [fmt.Println] of one string literal. *)
Definition Say (s : string) : io unit := Println [AString (lit s)].

Fixpoint for_each {A S} (l : list A) (body : S → A → io S) (s : S) : io S :=
  match l with
  | [] => mret s
  | x :: l => s ← body s x; for_each l body s
  end.

(** [for k, v := range it { s = body(s, k, v) }]; the flag of [body] is false on a
    [break].  The loop's state is that of the program. *)
Definition yield_of {K V S} (body : S → K → V → io (S * bool)) (st : exit S * string) (k : K) (v : V)
    : (exit S * string) * bool :=
  match st with
  | (Done s, out) =>
      match body s k v out with
      | (Done (s, go), out) => ((Done s, out), go)
      | (Fatal msg, out) => ((Fatal msg, out), false)
      | (Panicked, out) => ((Panicked, out), false)
      end
  | _ => (st, false)
  end.
Definition for_range {K V S} (it : Seq2 K V) (body : S → K → V → io (S * bool)) (s : S) : io S := λ out,
  if run_seq it (yield_of body) (Done s, out) is Some st then st else (Panicked, out).

(** A body without [break] or state. *)
Definition for_print {K V} (it : Seq2 K V) (body : K → V → io unit) : io unit :=
  for_range it (λ _ k v, _ ← body k v; mret (tt, true)) tt.

(** ** Lemmas *)

(** A loop whose body only calls the library is the loop outside of [io]. *)
Lemma for_each_must {A S} (f : S → A → option S) (l : list A) (s : S) out :
  for_each l (λ s x, must (f s x)) s out = must (foldM f s l) out.
Proof.
  revert s. induction l as [|x l IH]; intros s; [done|]. cbn [for_each foldM].
  unfold mbind at 1, io_bind, must at 1. destruct (f s x) as [s'|]; [|done]. apply IH.
Qed.

Lemma bind_done {A B} (m : io A) (f : A → io B) out a out' :
  m out = (Done a, out') → (m ≫= f) out = f a out'.
Proof. intros E. unfold mbind, io_bind. by rewrite E. Qed.

Lemma bind_ext {A B} (m : io A) (f g : A → io B) out :
  (∀ a out', f a out' = g a out') → (m ≫= f) out = (m ≫= g) out.
Proof. intros E. unfold mbind, io_bind. destruct (m out) as [[a|msg|] out']; [apply E|done..]. Qed.

(** The loop over the pairs themselves. *)
Fixpoint range_list {K V S} (pairs : list (K * V)) (body : S → K → V → io (S * bool)) (s : S) : io S :=
  match pairs with
  | [] => mret s
  | (k, v) :: pairs => '(s, go) ← body s k v; if go : bool then range_list pairs body s else mret s
  end.

Section loops.
Context {K V S : Type} (body : S → K → V → io (S * bool)).

Lemma push_yield_of pairs s out : push pairs (yield_of body) (Done s, out) = range_list pairs body s out.
Proof.
  revert s out. induction pairs as [|[k v] pairs IH]; intros s out; [done|].
  cbn [push range_list yield_of]. unfold mbind, io_bind.
  destruct (body s k v out) as [[[s' []]|msg|] out']; [apply IH|done..].
Qed.

End loops.
