(* ===== verification/Size.v ===== *)
(** * The size counter (tree.go, flush.go, docs/ADR-002)

    [Len] returns [t.size], which writes adjust when they buffer a message and
    [applyToLeaf] corrects when the messages meet their leaf.  [tree_ok] says
    that [t.size] is always the number of leaf keys plus the adjustments of the
    buffered messages.  Whether that is the number of live keys depends on each
    buffered message having been counted by what it really changes; [delta_ok]
    states this for a relation: with [=] [Len] is exact, with [≤] it never
    undercounts.  [op_fits] is the condition on a call that preserves it, and
    [exact_op] one that can be read off the sorted map: a [Put] of an absent key, an
    [Upsert] of a present one, any other call. *)

From S2P Require Import Prelude Order Slices Message Node LeafMerge Flush Iterator Tree Spec Options.

Definition live {V} (o : option V) : Z := if o is Some _ then 1%Z else 0%Z.

(** The change of the number of live keys when [m] is played on [o]. *)
Definition real_delta {K V} (o : option V) (m : Message K V) : Z :=
  (live (apply_msg o m) - live o)%Z.

Fixpoint delta_ok {K V} (rel : Z → Z → Prop) (o : option V) (msgs : list (Message K V)) : Prop :=
  match msgs with
  | [] => True
  | m :: msgs => rel (real_delta o m) (msg_delta m) ∧ delta_ok rel (apply_msg o m) msgs
  end.

#[export] Instance delta_ok_PathInv {K V} rel : PathInv (@delta_ok K V rel).
Proof.
  split; [done|]. intros o msgs1 msgs2. revert o.
  induction msgs1 as [|m msgs1 IH]; intros o; simpl; [tauto|]. rewrite IH. tauto.
Qed.

(** Comparisons of counts that add up: [=] and [≤]. *)
Class Additive (rel : Z → Z → Prop) : Prop := {
  rel_refl a : rel a a;
  rel_add a b c d : rel a b → rel c d → rel (a + c)%Z (b + d)%Z
}.
#[export] Instance eq_Additive : Additive (@eq Z).
Proof. split; intros; lia. Qed.
#[export] Instance le_Additive : Additive Z.le.
Proof. split; intros; lia. Qed.

Section contents.
Context {K V : Type} {compare : K → K → Z} {HC : Comparator compare}.
Context {rel : Z → Z → Prop} {HR : Additive rel}.
Implicit Types (n c : node K V) (l : list (K * V)) (m : Message K V) (msgs : list (Message K V)).
Implicit Types (P : K → Prop).

Lemma store_apply_keys P l m :
  Forall (λ p, P p.1) l → P (Key m) → Forall (λ p, P p.1) (store_apply compare l m).
Proof.
  intros Hl Hm. unfold store_apply, store_put, store_delete.
  destruct (apply_msg _ _); [|by apply Forall_filter_sub].
  apply Forall_app. split; [by apply Forall_filter_sub|].
  constructor; [done|by apply Forall_filter_sub].
Qed.

(** Playing a buffer on the contents below it. *)
Lemma store_apply_all P l msgs :
  ksorted compare fst l → Forall (λ p, P p.1) l → Forall (λ m, P (Key m)) msgs →
  (∀ k, delta_ok rel (alookup compare k l) (for_key compare k msgs)) →
  ∃ l', ksorted compare fst l' ∧ Forall (λ p, P p.1) l'
    ∧ (∀ k, alookup compare k l' = run compare k msgs (alookup compare k l))
    ∧ rel (len l') (len l + sum_of msg_delta msgs)%Z.
Proof.
  revert l. induction msgs as [|m msgs IH]; intros l Hs HP Hm Hd.
  { exists l. split_and!; try done. cbn [sum_of foldr].
    replace (len l + 0)%Z with (len l) by lia. apply rel_refl. }
  apply Forall_cons in Hm as [Hm1 Hm].
  destruct (store_apply_spec (compare := compare) l m Hs) as (S1 & S2 & S3).
  destruct (IH (store_apply compare l m)) as (l' & L1 & L2 & L3 & L4); [done|by apply store_apply_keys|done|..].
  { intros k. rewrite S2. specialize (Hd k). unfold for_key in *. rewrite filter_cons in Hd.
    case_decide; [by destruct Hd|done]. }
  exists l'. split_and!; [done|done| |].
  - intros k. rewrite L3, S2, run_cons. by case_decide.
  - assert (rel (real_delta (alookup compare (Key m) l) m) (msg_delta m)) as Hrel.
    { specialize (Hd (Key m)). unfold for_key in Hd. rewrite filter_cons_True in Hd by apply compare_refl.
      by destruct Hd. }
    assert (len (store_apply compare l m)
            = len l + real_delta (alookup compare (Key m) l) m)%Z as E.
    { rewrite S3. unfold real_delta, live. lia. }
    rewrite E in L4. cbn [sum_of foldr]. fold (sum_of msg_delta msgs).
    pose proof (rel_add _ _ _ _ L4 Hrel) as Hr.
    replace (len l') with (len l' + real_delta (alookup compare (Key m) l) m
                           - real_delta (alookup compare (Key m) l) m)%Z by lia.
    pose proof (rel_add _ _ _ _ Hr (rel_refl (- real_delta (alookup compare (Key m) l) m)%Z)) as Hr'.
    match type of Hr' with rel ?a ?b =>
      replace (len l' + real_delta (alookup compare (Key m) l) m
               - real_delta (alookup compare (Key m) l) m)%Z with a by lia;
      replace (len l + (msg_delta m + sum_of msg_delta msgs))%Z with b by lia end.
    exact Hr'.
Qed.

(** A run of pairs that holds the contents of the subtree [n]. *)
Definition contents P n l : Prop :=
  ksorted compare fst l ∧ Forall (λ p, P p.1) l
  ∧ (∀ k, P k → alookup compare k l = den compare n k) ∧ rel (len l) (balance n).

(** The contents of the children follow each other in key order. *)
Lemma contents_children P ps cs off :
  (∀ i c, cs !! i = Some c → ∃ l, contents (λ k, P k ∧ child_ix compare ps k = off + i) c l) →
  ∃ l, ksorted compare fst l ∧ Forall (λ p, P p.1 ∧ off ≤ child_ix compare ps p.1) l
    ∧ (∀ k i c, P k → child_ix compare ps k = off + i → cs !! i = Some c →
                alookup compare k l = den compare c k)
    ∧ rel (len l) (sum_of balance cs).
Proof.
  revert off. induction cs as [|c cs IH]; intros off Hcs.
  { exists []. split_and!; try constructor; [done|]. apply rel_refl. }
  destruct (Hcs 0 c eq_refl) as (l1 & S1 & P1 & L1 & R1). rewrite Nat.add_0_r in *.
  destruct (IH (S off)) as (l2 & S2 & P2 & L2 & R2).
  { intros i c' Hi. destruct (Hcs (S i) c' Hi) as (l & Hl).
    rewrite Nat.add_succ_r in Hl. by exists l. }
  rewrite Forall_forall in P1, P2.
  exists (l1 ++ l2). split_and!.
  - apply ksorted_app. split_and!; [|done|done]. intros a b Ha Hb.
    destruct (P1 a Ha) as [_ Ea]. destruct (P2 b Hb) as [_ Eb].
    pose proof (child_ix_mono (compare := compare) ps b.1 a.1) as Hmono. ord (fst a) (fst b).
  - apply Forall_forall. intros p [Hp|Hp]%elem_of_app.
    + destruct (P1 p Hp). split; [done|lia].
    + destruct (P2 p Hp). split; [done|lia].
  - intros k i c' HPk Hk Hi. rewrite alookup_app. destruct i as [|i].
    + injection Hi as <-. rewrite L1 by (split; [done|lia]).
      destruct (den compare c k) as [v|]; [done|]. apply alookup_None, Forall_forall.
      intros p Hp E. destruct (P2 p Hp) as [_ Ep].
      rewrite (E : keq compare p.1 k) in Ep. lia.
    + rewrite (alookup_None k l1).
      { apply (L2 k i c'); [done|lia|done]. }
      apply Forall_forall. intros p Hp E. destruct (P1 p Hp) as [_ Ep].
      rewrite (E : keq compare p.1 k) in Ep. lia.
  - rewrite length_app, Nat2Z.inj_add. cbn [sum_of foldr]. by apply rel_add.
Qed.

Lemma contents_exist P h n :
  wf_node compare P h n → (∀ k, P k → on_path compare (delta_ok rel) n k) →
  ∃ l, contents P n l.
Proof.
  induction 1 as [P l Hs HP|P h ps cs buf bs Hs HPp Hlen Hw HPb Hbs Hcs IH]; intros Hpath.
  { exists l. split_and!; try done.
    - intros k _. cbn [den]. by rewrite zip_fst_snd.
    - cbn [balance]. rewrite length_fmap. apply rel_refl. }
  assert (∀ k, P k → ∃ c, cs !! child_ix compare ps k = Some c
            ∧ delta_ok rel (den compare c k) (for_key compare k buf)
            ∧ on_path compare (delta_ok rel) c k) as Hc.
  { intros k Hk. destruct (routed_child (compare := compare) ps cs k Hlen) as [c Hc]. exists c.
    split; [done|]. specialize (Hpath k Hk). by rewrite on_path_internal in Hpath by exact Hc. }
  destruct (contents_children P ps cs 0) as (l & L1 & L2 & L3 & L4).
  { intros i c Hi. apply (IH i c Hi). intros k [HPk Hk].
    destruct (Hc k HPk) as (c' & Hc' & _ & Hp). rewrite Hk in Hc'. by simplify_eq. }
  assert (∀ k c, P k → cs !! child_ix compare ps k = Some c →
                 alookup compare k l = den compare c k) as Hl.
  { intros k c HPk Hk. by apply (L3 k (child_ix compare ps k) c). }
  destruct (store_apply_all P l buf) as (l' & M1 & M2 & M3 & M4); [done| |done|..].
  { eapply Forall_impl; [exact L2|]. simpl. tauto. }
  { intros k. destruct (for_key compare k buf) as [|m ms] eqn:Em; [done|].
    assert (m ∈ for_key compare k buf) as [Hk Hm]%list_elem_of_filter by (rewrite Em; left).
    rewrite <-Em. assert (keq compare (Key m) k) as Hkeq by done. rewrite <-Hkeq.
    rewrite Forall_forall in HPb. specialize (HPb m Hm).
    destruct (Hc (Key m) HPb) as (c & Hcm & Hd & _). by rewrite (Hl _ c). }
  exists l'. split_and!; [done|done| |].
  - intros k HPk. destruct (Hc k HPk) as (c & Hck & _). rewrite M3, (Hl k c) by done.
    by erewrite den_internal by exact Hck.
  - rewrite balance_internal.
    pose proof (rel_add _ _ _ _ M4 L4) as Hr.
    pose proof (rel_add _ _ _ _ Hr (rel_refl (- len l)%Z)) as Hr'.
    match type of Hr' with rel ?a ?b =>
      replace (len l') with a by lia;
      replace (sum_of msg_delta buf + sum_of balance cs)%Z with b by lia end.
    exact Hr'.
Qed.

End contents.

(** ** The counter and the number of live keys *)

Definition size_rel {K V} (rel : Z → Z → Prop) (t : BETree K V) : Prop :=
  ∀ k, on_path (cmp t) (delta_ok rel) (root t) k.

Section size.
Context {K V : Type} `{Zero K, Zero V} {rel : Z → Z → Prop} {HR : Additive rel}.
Implicit Types (t : BETree K V) (n : node K V).

Lemma Len_rel t pairs :
  tree_ok t → size_rel rel t → materializeAll t = Some pairs → rel (len pairs) (Len t).
Proof.
  intros [HC Hp [h Hwf] Hf Hs Hpd Hd] Hrel E. unfold Len. rewrite Hs.
  destruct (contents_exist (rel := rel) (λ _, True) h (root t) Hwf) as (l & L1 & _ & L2 & L3);
    [intros; apply Hrel|].
  destruct (materializeAll_spec t h HC Hwf) as (pairs' & E' & [S1 _ S3]).
  rewrite E in E'. simplify_eq.
  rewrite (sorted_run_length (compare := cmp t) pairs' l); [done|done|done|].
  intros k. rewrite S3, L2 by done. by case_decide.
Qed.

Lemma pending_nonneg n : (0 ≤ pending n)%Z.
Proof.
  induction n as [|ps cs buf bs IH] using node_tree_ind; [done|].
  rewrite pending_internal. pose proof (sum_of_nonneg is_delete buf is_delete_nonneg).
  enough (0 ≤ sum_of pending cs)%Z by lia. induction IH; simpl; lia.
Qed.

(** Without pending deletes a key stored in its leaf is live. *)
Lemma leaf_value_live (compare : K → K → Z) n k :
  pending n = 0%Z → is_Some (leaf_value (compare := compare) n k) → is_Some (den compare n k).
Proof.
  induction n as [ks vs|ps cs buf bs IH] using node_tree_ind; [done|].
  intros Hp. rewrite pending_internal in Hp. cbn [leaf_value den].
  change (map ?f cs) with (f <$> cs). rewrite !list_lookup_fmap.
  pose proof (sum_of_nonneg is_delete buf is_delete_nonneg) as Hb.
  pose proof pending_nonneg as Hpos. pose proof (sum_of_nonneg pending cs Hpos) as Hcs.
  destruct (cs !! child_ix compare ps k) as [c|] eqn:Hc; [|by intros [? ?]].
  cbn [fmap option_fmap option_map default]. intros Hv.
  assert (is_Some (den compare c k)) as Hd.
  { rewrite Forall_forall in IH. eapply IH; [by eapply list_elem_of_lookup_2| |exact Hv].
    apply list_split_lookup in Hc as (c1 & c2 & -> & _). rewrite sum_of_middle in Hcs, Hp.
    pose proof (sum_of_nonneg pending c1 Hpos). pose proof (sum_of_nonneg pending c2 Hpos).
    specialize (Hpos c). lia. }
  assert (Forall (λ m, Kind m ≠ MsgDelete) (for_key compare k buf)) as Hnd.
  { apply Forall_filter_sub, no_deletes. lia. }
  unfold run. revert Hd. generalize (den compare c k) as o.
  induction Hnd as [|m ms Hm Hnd IHn]; intros o Ho; [done|]. cbn [foldl]. apply IHn.
  unfold apply_msg. destruct (Kind m); [by eexists|done|done|].
  destruct (Fn m); [by eexists|done].
Qed.

(** The calls after which [Len] keeps its relation to the number of keys. *)
Definition op_fits (rel : Z → Z → Prop) t (o : op K V) : Prop :=
  match o with
  | OpPut k v =>
      leaf (root t) = true
      ∨ let m := put_msg k v (new_key t k false) in rel (real_delta (lookup t k) m) (msg_delta m)
  | OpUpsert k f => leaf (root t) = true ∨ rel (1 - live (lookup t k))%Z 0%Z
  | _ => True
  end.

Lemma stepped_size m t t' :
  tree_ok t → stepped m t t' → size_rel rel t →
  (leaf (root t) = false → rel (real_delta (lookup t (Key m)) m) (msg_delta m)) →
  size_rel rel t'.
Proof.
  intros Hok [_ _ _ P] Hrel Hm k. pose proof (ok_cmp t Hok) as HC.
  apply P; [apply _| |apply Hrel]. intros Hl Hk. split; [|done].
  unfold lookup in *. rewrite <-(Hk : keq (cmp t) (Key m) k). auto.
Qed.

Lemma exec_size t o t' r :
  tree_ok t → size_rel rel t → op_fits rel t o → exec t o = Some (t', r) → size_rel rel t'.
Proof.
  intros Hok Hrel Hfit. destruct (is_write o) eqn:Hw; [|by intros ->%exec_read].
  destruct o as [k v|k|k|k|k f|k v|lo hi| | | | | | | | |]; try done; clear Hw; cbn [exec].
  - destruct (putLocked_spec t k v false Hok) as (t1 & E & Hst). unfold Put. rewrite E. intros [= <- _].
    eapply stepped_size; try done. destruct Hfit as [Hl|Hfit]; [by rewrite Hl|done].
  - destruct (deleteLocked_spec t k Hok) as (t1 & E & Hst & Hn). unfold Delete. rewrite E. intros [= <- _].
    destruct (lookup t k) as [v|] eqn:Hk; [|by rewrite Hn].
    eapply stepped_size; try done. intros _. cbn [delete_msg Key]. rewrite Hk. apply rel_refl.
  - destruct (Upsert_step t k f Hok) as (t1 & E & Hst). rewrite E. intros [= <- _].
    eapply stepped_size; try done. destruct Hfit as [Hl|Hfit]; [by rewrite Hl|done].
  - pose proof (PutIfAbsent_step t k v Hok) as E. destruct (lookup t k) as [v0|] eqn:Hk.
    + rewrite E. by intros [= <- _].
    + destruct E as (t1 & E & Hst). rewrite E. intros [= <- _].
      eapply stepped_size; try done. intros _. cbn [put_msg Key]. rewrite Hk. apply rel_refl.
  - destruct (DeleteRange_step t lo hi Hok) as (t1 & ps & E & _ & _ & _ & _ & P). rewrite E.
    intros [= <- _] k. apply P; [apply _| | |apply Hrel].
    + intros [v Hv]. rewrite Hv. split; [apply rel_refl|done].
    + intros x y o [Ho _]. split; [exact Ho|done].
  - by intros [= <- _].
  - by intros [= <- _].
Qed.

(** Every call of a history fits at the state it is made in. *)
Fixpoint all_fit (rel : Z → Z → Prop) t (os : list (op K V)) : Prop :=
  match os with
  | [] => True
  | o :: os => op_fits rel t o ∧ match exec t o with
                                 | Some (t, _) => all_fit rel t os
                                 | None => True
                                 end
  end.

Lemma exec_all_size t l os t' rs :
  refines t l → size_rel rel t → all_fit rel t os → exec_all t os = Some (t', rs) →
  tree_ok t' ∧ size_rel rel t'.
Proof.
  revert t l rs. induction os as [|o os IH]; intros t l rs Hl Hrel Hfit; cbn [exec_all all_fit] in *.
  { intros [= <- _]. split; [apply Hl|done]. }
  destruct Hfit as [Ho Hfit]. destruct (exec_step t l o Hl) as (t1 & r & E & Hl1 & _ & _).
  rewrite E in *. cbn [mbind option_bind].
  destruct (exec_all t1 os) as [[t2 rs2]|] eqn:E2; [|done]. intros [= <- _].
  eapply IH; [done| |done|done]. by eapply exec_size, E; [apply Hl|..].
Qed.

End size.

(** A put never makes [Len] undercount. *)
Lemma put_fits_le {K V} `{Zero K} (t : BETree K V) k v :
  tree_ok t → op_fits Z.le t (OpPut k v).
Proof.
  intros Hok. right. cbn zeta. unfold real_delta, msg_delta, new_key, put_msg.
  cbn [apply_msg Kind Value counted orb]. unfold live.
  case_decide as Hp.
  - case_bool_decide as Hk; destruct (lookup t k); simplify_eq/=; lia.
  - case_bool_decide as Hk; [destruct (lookup t k); lia|].
    assert (is_Some (lookup t k)) as [v' ->]; [|lia].
    apply leaf_value_live.
    + pose proof (ok_pending t Hok). pose proof (pending_nonneg (root t)). lia.
    + by apply not_eq_None_Some.
Qed.

Lemma no_upserts_fit {K V} `{Zero K, Zero V} (t : BETree K V) l (os : list (op K V)) :
  refines t l → Forall (λ o, if o is OpUpsert _ _ then False else True) os → all_fit Z.le t os.
Proof.
  intros HR Hos. revert t l HR. induction Hos as [|o os Ho Hos IH]; intros t l HR; [done|].
  cbn [all_fit]. split.
  - destruct o; try done. by apply put_fits_le, HR.
  - destruct (exec_step t l o HR) as (t' & r & -> & HR' & _). by eapply IH.
Qed.

(** A put of an absent key is counted as new, also when it is buffered. *)
Lemma fresh_put_fits {K V} `{Zero K} (t : BETree K V) x (y : V) : tree_ok t → lookup t x = None → op_fits eq t (OpPut x y).
Proof.
  intros Hok Hn. right. cbn zeta. unfold real_delta, msg_delta, new_key, put_msg.
  cbn [apply_msg Kind Value counted orb]. rewrite Hn. cbn [live].
  case_decide as Hp; [done|].
  destruct (leaf_value (compare := cmp t) (root t) x) as [w|] eqn:Hw; [|done].
  assert (is_Some (lookup t x)) as [w' Hw']; [|congruence].
  apply leaf_value_live; [|by eexists].
  pose proof (ok_pending t Hok). pose proof (pending_nonneg (root t)). lia.
Qed.

(** A new tree counts right. *)
Lemma NewWithCompare_size {K V} `{Memory K V} {rel} Pow oor (compare : K → K → Z) opts (t : BETree K V) :
  NewWithCompare Pow oor (Some compare) opts = Some (inr t) → size_rel rel t.
Proof. by intros [_ ->]%NewWithCompare_inv k. Qed.

(** ** Where the count is exact *)

Section exact.
Context {K V : Type} `{Zero K, Zero V}.
Implicit Types (t : BETree K V) (l : list (K * V)) (os : list (op K V)).

(** The calls that are counted for what they do, seen on the sorted map: a put of a
    key that is absent, an upsert of one that is present, and every other call. *)
Definition exact_op (compare : K → K → Z) l (o : op K V) : Prop :=
  match o with
  | OpPut k _ => alookup compare k l = None
  | OpUpsert k _ => is_Some (alookup compare k l)
  | _ => True
  end.
Fixpoint exact_ops (compare : K → K → Z) l os : Prop :=
  match os with
  | [] => True
  | o :: os => exact_op compare l o ∧ exact_ops compare (spec compare l o).1 os
  end.

(** [same_result], and [Len] is the number of pairs. *)
Definition same_counted (compare : K → K → Z) (r r' : result K V) : Prop :=
  match r, r' with
  | RLen n, RLen n' => n = n'
  | _, _ => same_result compare r r'
  end.

Lemma exact_op_fits t l o : refines t l → exact_op (cmp t) l o → op_fits eq t o.
Proof.
  intros [Hok _ Hl]. destruct o as [k v|k|k|k|k f|k v|lo hi| | | | | | | | |]; cbn [exact_op]; try done;
    rewrite <-Hl.
  - intros Hn. by apply fresh_put_fits.
  - intros [v Hv]. right. by rewrite Hv.
Qed.

Lemma Len_refines t l : refines t l → size_rel eq t → Len t = len l.
Proof.
  intros HR Hsz. destruct (materializeAll_refines t l HR) as (pairs & E & Hp).
  rewrite <-(Len_rel (rel := eq) t pairs) by (done || apply HR).
  f_equal. by eapply Forall2_length.
Qed.

Lemma same_counted_spec compare l o :
  o = OpLen ∨ ∀ r, same_result compare r (spec compare l o).2 → same_counted compare r (spec compare l o).2.
Proof.
  destruct o as [| | | | |k v| | | | | | | | | |]; try (by left); right; intros r; cbn [spec snd];
    [..|destruct (alookup _ _ _)| | | | | | | | |]; destruct r; cbn [same_counted]; try done.
  all: by destruct (comma_ok _).
Qed.

Lemma exec_exact t l o t' r :
  refines t l → size_rel eq t → exact_op (cmp t) l o → exec t o = Some (t', r) →
  size_rel eq t' ∧ same_counted (cmp t) r (spec (cmp t) l o).2.
Proof.
  intros HR Hsz Ho E. split.
  { eapply exec_size, E; [apply HR|done|by eapply exact_op_fits]. }
  destruct (same_counted_spec (cmp t) l o) as [->|Hsame].
  - injection E as _ <-. cbn [spec snd same_counted]. by apply Len_refines.
  - apply Hsame. destruct (exec_step t l o HR) as (t1 & r1 & E1 & _ & Hr & _).
    rewrite E in E1. by injection E1 as <- <-.
Qed.

Lemma exec_all_exact t l os t' rs :
  refines t l → size_rel eq t → exact_ops (cmp t) l os → exec_all t os = Some (t', rs) →
  Forall2 (same_counted (cmp t)) rs (spec_all (cmp t) l os).2.
Proof.
  revert t l rs. induction os as [|o os IH]; intros t l rs HR Hsz Hex; cbn [exec_all spec_all].
  { intros [= _ <-]. constructor. }
  destruct Hex as [Ho Hos]. destruct (exec_step t l o HR) as (t1 & r & E & HR1 & _ & C).
  destruct (exec_exact t l o t1 r HR Hsz Ho E) as [Hsz1 Hr].
  rewrite E. cbn [mbind option_bind]. destruct (exec_all t1 os) as [[t2 rs2]|] eqn:E2; [|done].
  intros [= -> <-]. specialize (IH t1 (spec (cmp t) l o).1 rs2 HR1 Hsz1). rewrite C in IH.
  specialize (IH Hos E2).
  destruct (spec (cmp t) l o) as [l1 r1]. cbn [fst snd] in *.
  destruct (spec_all (cmp t) l1 os) as [l2 rs']. by constructor.
Qed.
End exact.
