(* ===== verification/Batch.v ===== *)
(** * Loops of writes

    What a loop of [Put]s or of [Upsert]s leaves in a tree, whatever its flushes
    and splits were: the messages of the loop played in order ([writes_run]).
    Two uses of it in the examples: counting with [Increment] (examples/upsert,
    examples/ratelimiter), and loading distinct keys (examples/bulkimport,
    examples/concurrent), after which [Len] is exact ([fresh_puts]). *)

From S2P Require Import Prelude Order Slices Message Node LeafMerge Flush Iterator Tree Cursor Spec Options Size.

(** ** Playing the messages of a loop *)

Section writes.
Context {K V A : Type} `{Zero K, Zero V}.
Implicit Types (t : BETree K V).

(** [write] plays the message [M e]. *)
Definition plays (M : A → Message K V) (write : BETree K V → A → option (BETree K V)) : Prop :=
  ∀ t e, tree_ok t → ∃ t', write t e = Some t' ∧ tree_ok t' ∧ cmp t' = cmp t
    ∧ ∀ x, lookup t' x = if decide (cmp t (Key (M e)) x = 0%Z) then apply_msg (lookup t x) (M e) else lookup t x.

Lemma writes_run M write t es :
  plays M write → tree_ok t →
  ∃ t', foldM write t es = Some t' ∧ tree_ok t' ∧ cmp t' = cmp t
    ∧ ∀ x, lookup t' x = run (cmp t) x (M <$> es) (lookup t x).
Proof.
  intros HM. revert t. induction es as [|e es IH]; intros t Hok; [by exists t|].
  destruct (HM t e Hok) as (t1 & E1 & Hok1 & C1 & L1). destruct (IH t1 Hok1) as (t2 & E2 & Hok2 & C2 & L2).
  exists t2. cbn [foldM]. rewrite E1. cbn [mbind option_bind]. split_and!; [done|done|congruence|].
  intros x. rewrite L2, C1, L1. symmetry. rewrite fmap_cons. apply run_cons.
Qed.

Lemma Put_plays (k : A → K) (v : A → V) :
  plays (λ e, put_msg (k e) (v e) false) (λ t e, Put t (k e) (v e)).
Proof.
  intros t e Hok. destruct (putLocked_spec t (k e) (v e) false Hok) as (t' & E & [Hok' [C _] L _]).
  by exists t'.
Qed.

Lemma Upsert_plays (k : A → K) (f : A → UpsertFn V) :
  plays (λ e, upsert_msg (k e) (Some (f e))) (λ t e, Upsert t (k e) (Some (f e))).
Proof.
  intros t e Hok. destruct (Upsert_step t (k e) (f e) Hok) as (t' & E & [Hok' [C _] L _]).
  by exists t'.
Qed.
End writes.

(** ** Counting *)

(** How many of [ks] are the key [x]. *)
Definition count_of {K} (compare : K → K → Z) (x : K) (ks : list K) : Z :=
  len (filter (λ k, compare k x = 0%Z) ks).

Lemma wrap64_small z : (- 2^63 ≤ z < 2^63)%Z → wrap64 z = z.
Proof. intros Hz. unfold wrap64. rewrite Z.mod_small; lia. Qed.

Section counting.
Context {K : Type} `{Zero K} {compare : K → K → Z} {HC : Comparator compare}.

Lemma count_of_cons x k ks :
  count_of compare x (k :: ks) = (count_of compare x ks + if decide (compare k x = 0%Z) then 1 else 0)%Z.
Proof. unfold count_of. rewrite filter_cons. case_decide; cbn [length]; lia. Qed.

Lemma count_of_bounds x ks : (0 ≤ count_of compare x ks ≤ len ks)%Z.
Proof. unfold count_of. pose proof (length_filter (λ k, compare k x = 0%Z) ks). lia. Qed.

(** The amounts added to the key [x], oldest first, and their sum: from the left, as
    the addition of floats is not associative. *)
Definition deltas {V} x (ws : list (K * V)) : list V := (filter (λ w, compare w.1 x = 0%Z) ws).*2.
Definition total {V} `{Numeric V} (ds : list V) : option V :=
  match ds with [] => None | d :: ds => Some (foldl numeric_add d ds) end.

Lemma run_increments {V} `{Zero V, Numeric V} x (ws : list (K * V)) o :
  run compare x ((λ w, upsert_msg w.1 (Some (Increment w.2))) <$> ws) o
  = match o with Some v => Some (foldl numeric_add v (deltas x ws)) | None => total (deltas x ws) end.
Proof.
  unfold deltas. revert o. induction ws as [|[k d] ws IH]; intros o; [by destruct o|].
  rewrite fmap_cons, run_cons, filter_cons, IH. cbn [fst snd].
  change (Key (upsert_msg k _)) with k. case_decide; [|done]. by destruct o.
Qed.

(** Sums of ones count. *)
Lemma sum_of_ones x ks n :
  (0 ≤ n)%Z → (n + len ks < 2^63)%Z →
  foldl numeric_add n (deltas x ((λ k, (k, 1%Z)) <$> ks)) = (n + count_of compare x ks)%Z.
Proof.
  unfold deltas. revert n. induction ks as [|k ks IH]; intros n Hn Hb; [by rewrite Z.add_0_r|].
  rewrite fmap_cons, filter_cons, count_of_cons. cbn [length fst] in *. case_decide; [|rewrite IH by lia; lia].
  rewrite fmap_cons. cbn [foldl snd]. unfold numeric_add at 2, Numeric_int.
  rewrite wrap64_small by lia. rewrite IH by lia. lia.
Qed.

Lemma total_ones x ks :
  (len ks < 2^63)%Z →
  total (deltas x ((λ k, (k, 1%Z)) <$> ks))
  = if decide (count_of compare x ks = 0%Z) then None else Some (count_of compare x ks).
Proof.
  intros Hb. induction ks as [|k ks IH]; [done|]. cbn [length] in Hb.
  pose proof (sum_of_ones x ks 1) as Hones. unfold deltas in *.
  rewrite fmap_cons, filter_cons, count_of_cons. cbn [fst]. pose proof (count_of_bounds x ks).
  destruct (decide (compare k x = 0%Z)).
  - rewrite (fmap_cons snd). cbn [total snd]. rewrite Hones by lia. rewrite decide_False by lia. f_equal. lia.
  - rewrite Z.add_0_r. apply IH. lia.
Qed.
End counting.
#[global] Arguments deltas {K} compare {V}.

(** ** Loading distinct keys *)

Section fresh.
Context {K V A : Type} `{Zero K, Zero V} (k : A → K) (v : A → V).
Implicit Types (t : BETree K V) (es : list A).

(** Keys that are pairwise different under the comparator. *)
Definition distinct (compare : K → K → Z) es : Prop :=
  ∀ i j a b, i ≠ j → es !! i = Some a → es !! j = Some b → compare (k a) (k b) ≠ 0%Z.

Lemma distinct_cons compare e es :
  distinct compare (e :: es) → distinct compare es ∧ Forall (λ b, compare (k e) (k b) ≠ 0%Z) es.
Proof.
  intros Hd. split.
  - intros i j a b Hij Hi Hj. apply (Hd (S i) (S j)); [congruence|done..].
  - apply Forall_lookup. intros j b Hj. by apply (Hd 0 (S j)).
Qed.

Lemma fresh_puts t es :
  tree_ok t → size_rel eq t → distinct (cmp t) es → Forall (λ e, lookup t (k e) = None) es →
  ∃ t', foldM (λ t e, Put t (k e) (v e)) t es = Some t' ∧ tree_ok t' ∧ cmp t' = cmp t ∧ size_rel eq t'
    ∧ ∀ x, lookup t' x = run (cmp t) x ((λ e, put_msg (k e) (v e) false) <$> es) (lookup t x).
Proof.
  revert t. induction es as [|e es IH]; intros t Hok Hr Hd Hn; [by exists t|].
  apply distinct_cons in Hd as [Hd He]. apply Forall_cons in Hn as [Hne Hn].
  destruct (Put_plays k v t e Hok) as (t1 & E1 & Hok1 & C1 & L1).
  assert (size_rel eq t1) as Hr1.
  { apply (exec_size (rel := eq) t (OpPut (k e) (v e)) t1 RUnit Hok Hr); [by apply fresh_put_fits|].
    cbn [exec]. by rewrite E1. }
  destruct (IH t1) as (t2 & E2 & Hok2 & C2 & Hr2 & L2); [done|done|by rewrite C1| |].
  { rewrite Forall_forall in *. intros b Hb. rewrite L1. cbn [put_msg Key]. rewrite decide_False by by apply He.
    by apply Hn. }
  exists t2. cbn [foldM]. rewrite E1. cbn [mbind option_bind]. split_and!; [done|done|congruence|done|].
  intros x. rewrite L2, C1, L1. symmetry. rewrite fmap_cons. apply run_cons.
Qed.

(** A key that was put is there, any other is as before. *)
Lemma run_puts_in compare `{!Comparator compare} es e o :
  distinct compare es → e ∈ es →
  run compare (k e) ((λ e, put_msg (k e) (v e) false) <$> es) o = Some (v e).
Proof.
  intros Hd [i Hi]%list_elem_of_lookup. revert i o Hd Hi.
  induction es as [|e0 es IH]; intros i o Hd Hi; [done|]. rewrite fmap_cons, run_cons. cbn [put_msg Key].
  pose proof (distinct_cons compare e0 es Hd) as [Hd' He]. destruct i as [|i].
  - injection Hi as ->. rewrite decide_True by apply compare_refl. apply run_none.
    apply Forall_fmap. eapply Forall_impl; [exact He|]. intros b Hb. cbn. intros Hb'. apply Hb.
    pose proof (compare_flip (k e) (k b)). pose proof (compare_flip (k b) (k e)). lia.
  - by apply (IH i).
Qed.

Lemma run_puts_out compare es x o :
  Forall (λ e, compare (k e) x ≠ 0%Z) es →
  run compare x ((λ e, put_msg (k e) (v e) false) <$> es) o = o.
Proof. intros Hx. apply run_none, Forall_fmap. exact Hx. Qed.
End fresh.

(** [Len] of a tree whose counter is exact, from an enumeration of its keys. *)
Lemma Len_enumerated {K V} `{Zero K, Zero V} (t : BETree K V) (l : list (K * V)) :
  tree_ok t → size_rel eq t → NoDup l.*1 → (∀ x y, cmp t x y = 0%Z ↔ x = y) →
  (∀ x, is_Some (lookup t x) ↔ x ∈ l.*1) → Len t = len l.
Proof.
  intros Hok Hr Hnd Heq Hl. destruct (refines_exists t Hok) as [s [_ Hs HL]].
  pose proof (ok_cmp t Hok) as HC. destruct (ok_wf t Hok) as [h Hwf].
  destruct (materializeAll_spec t h HC Hwf) as (pairs & E & [S1 _ S3]).
  rewrite <-(Len_rel (rel := eq) t pairs) by done. f_equal.
  rewrite <-(length_fmap fst pairs), <-(length_fmap fst l). apply Permutation_length, NoDup_Permutation; [|done|].
  - clear -S1 Heq. induction S1 as [|p ps Hs IH Hp]; [constructor|]. cbn. constructor; [|done].
    intros (q & Eq & Hq)%list_elem_of_fmap. rewrite Forall_forall in Hp. specialize (Hp q Hq).
    assert (cmp t p.1 q.1 = 0%Z) by (apply Heq; done). lia.
  - intros x. rewrite <-Hl. unfold lookup in *.
    assert (is_Some (den (cmp t) (root t) x) ↔ is_Some (alookup (cmp t) x pairs)) as ->
      by (rewrite S3; by case_decide).
    clear -Heq. induction pairs as [|[k v] ps IH]; cbn [alookup fmap list_fmap fst].
    { split; [by intros []%elem_of_nil|by intros [? ?]]. }
    rewrite elem_of_cons, IH. case_decide as Hk.
    + apply Heq in Hk as ->. split; [by eexists|by left].
    + split; [|by right]. intros [->|?]; [|done]. exfalso. apply Hk. by apply Heq.
Qed.

(** Loading distinct keys into a new tree whose comparator tells all keys apart. *)
Section load.
Context {K V A : Type} `{Zero K, Zero V, EqDecision K} (k : A → K) (v : A → V).

Lemma NoDup_distinct (compare : K → K → Z) (es : list A) :
  (∀ x y, compare x y = 0%Z ↔ x = y) → NoDup (k <$> es) → distinct k compare es.
Proof.
  intros Heq Hnd i j a b Hij Hi Hj Hc%Heq. apply Hij.
  apply (NoDup_lookup (k <$> es) i j (k a)); [done|..]; rewrite list_lookup_fmap.
  - by rewrite Hi.
  - rewrite Hj. cbn. by rewrite Hc.
Qed.

Lemma load_distinct `{Memory K V} Pow oor (compare : K → K → Z) opts (t : BETree K V) (es : list A) :
  Comparator compare → (∀ x y, compare x y = 0%Z ↔ x = y) → NoDup (k <$> es) →
  NewWithCompare Pow oor (Some compare) opts = Some (inr t) →
  ∃ t', foldM (λ t e, Put t (k e) (v e)) t es = Some t' ∧ tree_ok t' ∧ Len t' = len es
    ∧ (∀ e, e ∈ es → lookup t' (k e) = Some (v e)) ∧ ∀ x, x ∉ k <$> es → lookup t' x = None.
Proof.
  intros HC Heq Hnd E. destruct (NewWithCompare_refines Pow oor compare opts t HC E) as ([Hok _ HL] & C & _).
  pose proof (NewWithCompare_size (rel := eq) Pow oor compare opts t E) as Hr.
  pose proof (NoDup_distinct compare es Heq Hnd) as Hd.
  destruct (fresh_puts k v t es) as (t' & E' & Hok' & C' & Hr' & L'); [done|done|by rewrite C| |].
  { apply Forall_true. intros e. by rewrite HL. }
  assert (∀ e, e ∈ es → lookup t' (k e) = Some (v e)) as Hin.
  { intros e He. rewrite L', C. by apply run_puts_in. }
  assert (∀ x, x ∉ k <$> es → lookup t' x = None) as Hout.
  { intros x Hx. rewrite L', HL, C. apply run_puts_out, Forall_forall. intros e He Hc%Heq.
    apply Hx. rewrite <-Hc. by apply list_elem_of_fmap_2. }
  exists t'. split_and!; [done|done| |done|done].
  rewrite (Len_enumerated t' ((λ e, (k e, v e)) <$> es)); [by rewrite length_fmap|done|done|..].
  - by rewrite <-list_fmap_compose.
  - intros x y. by rewrite C', C.
  - intros x. rewrite <-list_fmap_compose. change (fst ∘ _) with k. split.
    + intros [w Hw]. destruct (decide (x ∈ k <$> es)) as [|Hx]; [done|]. by rewrite Hout in Hw.
    + intros (e & -> & He)%list_elem_of_fmap. rewrite Hin by done. by eexists.
Qed.
End load.
