(* ===== verification/Disk.v ===== *)
(** * The disk-backed tree (disktree.go)

    [DiskBETree] wraps a [BETree] and a user-supplied [Flusher].  Every
    operation is delegated, by a method of its own; only [Close] calls the flusher.
    [disk_exec] runs a method, and [disk_spec] is what it promises: a sorted map
    beside the flusher's state, which [Close] syncs and closes.  The flusher is an
    interface: a record of operations on a state of the user's.  The codecs are
    carried and never called by the sources, so they are fields without laws.

    [MemFlusher] is the in-memory flusher of the examples (newMemFlusher in
    examples/disktree-varint/main.go), with the map [nodes]. *)

From stdpp Require Import gmap.
From Stdlib Require Import SpecFloat.
From S2P Require Import Prelude Order Slices Message Node LeafMerge Flush Iterator Tree Cursor Spec Options Size.

(** [Codec[T]]: bytes are integers; a failure is an error value.  The methods are
    the user's and may panic. *)
Record Codec (E T : Type) := mkCodec {
  Encode : T → option (E + list Z);
  Decode : list Z → option (E + T)
}.
Arguments mkCodec {E T}.
Arguments Encode {E T}.
Arguments Decode {E T}.

(** [Flusher[K, V]] with state [S] and errors [E]. *)
Record Flusher (S E : Type) := mkFlusher {
  WriteNode : N → list Z → S → S * option E;
  ReadNode : N → S → S * (E + list Z);
  Sync : S → S * option E;
  FlusherClose : S → S * option E
}.
Arguments mkFlusher {S E}.
Arguments WriteNode {S E}.
Arguments ReadNode {S E}.
Arguments Sync {S E}.
Arguments FlusherClose {S E}.

(** Options. *)
Record diskOptions (E K V : Type) := mkDiskOptions {
  treeOpts : list Option_;
  keyCodec : Codec E K;
  valCodec : Codec E V
}.
Arguments mkDiskOptions {E K V}.
Arguments treeOpts {E K V}.
Arguments keyCodec {E K V}.
Arguments valCodec {E K V}.

Section options.
Context {E K V : Type}.
Definition DiskOption : Type := diskOptions E K V → diskOptions E K V.
Definition WithKeyCodec (c : Codec E K) : DiskOption := λ o, mkDiskOptions (treeOpts o) c (valCodec o).
Definition WithValueCodec (c : Codec E V) : DiskOption := λ o, mkDiskOptions (treeOpts o) (keyCodec o) c.
Definition WithDiskEpsilon (eps : spec_float) : DiskOption := λ o,
  mkDiskOptions (treeOpts o ++ [WithEpsilon eps]) (keyCodec o) (valCodec o).
Definition WithDiskBlockSize (sz : Z) : DiskOption := λ o,
  mkDiskOptions (treeOpts o ++ [WithBlockSize sz]) (keyCodec o) (valCodec o).
(** The defaults are gob codecs: these are the two arguments. *)
Definition resolveDiskOptions (gobK : Codec E K) (gobV : Codec E V) (opts : list DiskOption)
    : diskOptions E K V :=
  foldl (λ o fn, fn o) (mkDiskOptions [] gobK gobV) opts.
End options.

(** The errors of [Close], with their [%w] wrapping. *)
Inductive close_error (E : Type) := FlusherSync (e : E) | FlusherCloseErr (e : E).
Arguments FlusherSync {E}.
Arguments FlusherCloseErr {E}.

Record DiskBETree (S E K V : Type) := mkDisk {
  tree : BETree K V;
  flusher : Flusher S E;
  fstate : S;
  d_keyCodec : Codec E K;
  d_valCodec : Codec E V
}.
Arguments mkDisk {S E K V}.
Arguments tree {S E K V}.
Arguments flusher {S E K V}.
Arguments fstate {S E K V}.
Arguments d_keyCodec {S E K V}.
Arguments d_valCodec {S E K V}.

Section disk.
Context {S E K V : Type} `{Zero K, Zero V}.
Context (Pow : spec_float → spec_float → spec_float) (oor : spec_float → Z).
Implicit Types d : DiskBETree S E K V.

Definition NewDiskWithCompare `{Memory K V} (gobK : Codec E K) (gobV : Codec E V)
    (compare : option (K → K → Z)) (f : Flusher S E) (s : S) (opts : list DiskOption)
    : option (error + DiskBETree S E K V) :=
  let o := resolveDiskOptions gobK gobV opts in
  r ← NewWithCompare Pow oor compare (treeOpts o);
  match r with
  | inl err => Some (inl err)
  | inr t => Some (inr (mkDisk t f s (keyCodec o) (valCodec o)))
  end.

Definition NewDisk `{Memory K V, Ordered K} (gobK : Codec E K) (gobV : Codec E V)
    (f : Flusher S E) (s : S) (opts : list DiskOption) : option (error + DiskBETree S E K V) :=
  NewDiskWithCompare gobK gobV (Some cmp_Compare) f s opts.

Definition set_tree d (t : BETree K V) : DiskBETree S E K V :=
  mkDisk t (flusher d) (fstate d) (d_keyCodec d) (d_valCodec d).
Definition set_fstate d (s : S) : DiskBETree S E K V :=
  mkDisk (tree d) (flusher d) s (d_keyCodec d) (d_valCodec d).

(** ** The delegating methods *)

Definition DiskPut d (key : K) (value : V) : option (DiskBETree S E K V) :=
  t ← Put (tree d) key value; Some (set_tree d t).
Definition DiskGet d (key : K) : option (V * bool) := Get (tree d) key.
Definition DiskDelete d (key : K) : option (DiskBETree S E K V * bool) :=
  '(t, b) ← Delete (tree d) key; Some (set_tree d t, b).
Definition DiskDeleteRange d (lo hi : K) : option (DiskBETree S E K V * Z) :=
  '(t, n) ← DeleteRange (tree d) lo hi; Some (set_tree d t, n).
Definition DiskContains d (key : K) : option bool := Contains (tree d) key.
Definition DiskLen d : Z := Len (tree d).
Definition DiskClear d : DiskBETree S E K V := set_tree d (Clear (tree d)).
Definition DiskUpsert d (key : K) (fn : option (UpsertFn V)) : option (DiskBETree S E K V) :=
  t ← Upsert (tree d) key fn; Some (set_tree d t).
Definition DiskPutIfAbsent d (key : K) (v : V) : option (DiskBETree S E K V * bool) :=
  '(t, b) ← PutIfAbsent (tree d) key v; Some (set_tree d t, b).
Definition DiskAll d : option (Seq2 K V) := All (tree d).
Definition DiskAscend d : option (Seq2 K V) := Ascend (tree d).
Definition DiskDescend d : option (Seq2 K V) := Descend (tree d).
Definition DiskRange d (lo hi : K) : option (Seq2 K V) := Range (tree d) lo hi.
Definition DiskDescendRange d (hi lo : K) : option (Seq2 K V) := DescendRange (tree d) hi lo.
Definition DiskCursor d : option (Cursor K V) := Cursor_ (tree d).

Definition DiskClose d : DiskBETree S E K V * option (close_error E) :=
  let '(s, err) := Sync (flusher d) (fstate d) in
  let d := set_fstate d s in
  match err with
  | Some e => (d, Some (FlusherSync e))
  | None =>
      let '(s, err) := FlusherClose (flusher d) (fstate d) in
      let d := set_fstate d s in
      match err with
      | Some e => (d, Some (FlusherCloseErr e))
      | None => (set_tree d (Close (tree d)), None)
      end
  end.

End disk.

(** ** Histories *)

(** What a method of the disk tree returns: only [Close] can fail. *)
Inductive disk_result (E K V : Type) := DResult (r : result K V) | DError (e : close_error E).
Arguments DResult {E K V}.
Arguments DError {E K V}.

Section disk_exec.
Context {S E K V : Type} `{Zero K, Zero V}.
Implicit Types (d : DiskBETree S E K V) (l : list (K * V)) (f : Flusher S E) (s : S).

Definition close_result (err : option (close_error E)) : disk_result E K V :=
  match err with Some e => DError e | None => DResult RUnit end.

(** Running a method of the disk tree. *)
Definition disk_exec d (o : op K V) : option (DiskBETree S E K V * disk_result E K V) :=
  match o with
  | OpPut k v => d ← DiskPut d k v; Some (d, DResult RUnit)
  | OpGet k => '(v, ok) ← DiskGet d k; Some (d, DResult (RValue v ok))
  | OpContains k => b ← DiskContains d k; Some (d, DResult (RBool b))
  | OpDelete k => '(d, b) ← DiskDelete d k; Some (d, DResult (RBool b))
  | OpUpsert k fn => d ← DiskUpsert d k (Some fn); Some (d, DResult RUnit)
  | OpPutIfAbsent k v => '(d, b) ← DiskPutIfAbsent d k v; Some (d, DResult (RBool b))
  | OpDeleteRange lo hi => '(d, n) ← DiskDeleteRange d lo hi; Some (d, DResult (RCount n))
  | OpClear => Some (DiskClear d, DResult RUnit)
  | OpClose => let '(d, err) := DiskClose d in Some (d, close_result err)
  | OpAll => it ← DiskAll d; r ← run_seq it collect_pairs []; Some (d, DResult (RPairs r))
  | OpDescend => it ← DiskDescend d; r ← run_seq it collect_pairs []; Some (d, DResult (RPairs r))
  | OpRange lo hi =>
      it ← DiskRange d lo hi; r ← run_seq it collect_pairs []; Some (d, DResult (RPairs r))
  | OpDescendRange hi lo =>
      it ← DiskDescendRange d hi lo; r ← run_seq it collect_pairs []; Some (d, DResult (RPairs r))
  | OpLen => Some (d, DResult (RLen (DiskLen d)))
  | OpAscend => it ← DiskAscend d; r ← run_seq it collect_pairs []; Some (d, DResult (RPairs r))
  | OpCursor =>
      c ← DiskCursor d; '(r, _) ← walk Next (Datatypes.S (length (pairs c))) c;
      Some (d, DResult (RPairs r))
  end.

Fixpoint disk_exec_all d (os : list (op K V)) : option (DiskBETree S E K V * list (disk_result E K V)) :=
  match os with
  | [] => Some (d, [])
  | o :: os => '(d, r) ← disk_exec d o; '(d, rs) ← disk_exec_all d os; Some (d, r :: rs)
  end.

(** The specification: a sorted map, and a flusher that [Close] syncs and closes. *)
Definition close_flusher f s : S * option (close_error E) :=
  let '(s1, r1) := Sync f s in
  match r1 with
  | Some e => (s1, Some (FlusherSync e))
  | None => let '(s2, r2) := FlusherClose f s1 in (s2, FlusherCloseErr <$> r2)
  end.

Definition disk_spec (compare : K → K → Z) f (st : list (K * V) * S) (o : op K V)
    : (list (K * V) * S) * disk_result E K V :=
  match o with
  | OpClose => let '(s, err) := close_flusher f st.2 in ((st.1, s), close_result err)
  | _ => let '(l, r) := spec compare st.1 o in ((l, st.2), DResult r)
  end.
Fixpoint disk_spec_all (compare : K → K → Z) f (st : list (K * V) * S) (os : list (op K V))
    : (list (K * V) * S) * list (disk_result E K V) :=
  match os with
  | [] => (st, [])
  | o :: os => let '(st, r) := disk_spec compare f st o in
               let '(st, rs) := disk_spec_all compare f st os in (st, r :: rs)
  end.

Definition disk_same (R : result K V → result K V → Prop) (r r' : disk_result E K V) : Prop :=
  match r, r' with
  | DResult r, DResult r' => R r r'
  | DError e, DError e' => e = e'
  | _, _ => False
  end.

(** Every method but [Close] is the method of the tree. *)
Lemma disk_exec_tree d o :
  (o = OpClose ∧ disk_exec d o = let '(d, err) := DiskClose d in Some (d, close_result err))
  ∨ (disk_exec d o = ('(t, r) ← exec (tree d) o; Some (set_tree d t, DResult r))
     ∧ ∀ compare f st, disk_spec compare f st o
         = let '(l, r) := spec compare st.1 o in ((l, st.2), DResult r)).
Proof.
  destruct o; [right..|by left|right|right|right|right|right|right|right]; (split; [|done]);
    cbn [disk_exec exec DiskLen DiskClear].
  all: unfold DiskPut, DiskGet, DiskContains, DiskDelete, DiskUpsert, DiskPutIfAbsent, DiskDeleteRange,
    DiskAll, DiskDescend, DiskRange, DiskDescendRange, DiskAscend, DiskCursor.
  all: repeat (cbn [mbind option_bind];
         match goal with
         | |- context [@mbind option _ _ _ _ ?m] =>
             lazymatch m with context [@mbind] => fail | _ => destruct m as [x|]; [|done] end;
             try (destruct x)
         end); done || by destruct d.
Qed.

Lemma DiskClose_spec d :
  let '(s, err) := close_flusher (flusher d) (fstate d) in
  let '(d', err') := DiskClose d in
  err' = err ∧ fstate d' = s ∧ flusher d' = flusher d
  ∧ d_keyCodec d' = d_keyCodec d ∧ d_valCodec d' = d_valCodec d
  ∧ tree d' = if err is None then Close (tree d) else tree d.
Proof.
  unfold close_flusher, DiskClose. destruct (Sync _ _) as [s1 [e|]]; [done|].
  cbn [flusher fstate set_fstate]. by destruct (FlusherClose _ _) as [s2 [e|]].
Qed.

(** On the map, a disk tree's [Close] does what a tree's does: nothing. *)
Lemma disk_spec_store compare f (st : list (K * V) * S) o :
  (disk_spec compare f st o).1.1 = (spec compare st.1 o).1.
Proof. destruct o; cbn [disk_spec spec]; by repeat case_match. Qed.

(** What no method changes. *)
Definition same_disk d d' : Prop :=
  flusher d' = flusher d ∧ d_keyCodec d' = d_keyCodec d ∧ d_valCodec d' = d_valCodec d
  ∧ cmp (tree d') = cmp (tree d).

Lemma disk_exec_step d l o :
  refines (tree d) l →
  let C := cmp (tree d) in
  let '((l', s'), r') := disk_spec C (flusher d) (l, fstate d) o in
  ∃ d' r, disk_exec d o = Some (d', r) ∧ refines (tree d') l' ∧ fstate d' = s' ∧ same_disk d d'
    ∧ disk_same (same_result C) r r'
    ∧ (size_rel eq (tree d) → exact_op C l o → size_rel eq (tree d') ∧ disk_same (same_counted C) r r').
Proof.
  intros HR C. destruct (disk_exec_tree d o) as [[-> Ed]|[Ed Espec]].
  - cbn [disk_spec fst snd]. rewrite Ed. pose proof (DiskClose_spec d) as Hc.
    destruct (close_flusher _ _) as [s' err], (DiskClose d) as [d' err'].
    destruct Hc as (-> & <- & F1 & F2 & F3 & Ht). exists d', (close_result err).
    assert (∀ R : result K V → result K V → Prop, R RUnit RUnit →
              disk_same R (close_result err) (close_result err)) as Hres by (by intros R HR'; destruct err).
    assert (refines (tree d') l ∧ cmp (tree d') = C ∧ (size_rel eq (tree d) → size_rel eq (tree d')))
      as (HR' & HC' & Hsz).
    { rewrite Ht. destruct err; [done|]. split_and!; [by apply refines_closed|done|done]. }
    split_and!; try done; [by apply Hres|]. intros ? _. split; [by apply Hsz|by apply Hres].
  - rewrite (Espec C (flusher d) (l, fstate d)). cbn [fst snd].
    destruct (exec_step (tree d) l o HR) as (t' & r & Et & HR' & Hr & HC').
    pose proof (exec_exact (tree d) l o t' r HR) as Hex. fold C in HR', Hr, Hex.
    destruct (spec C l o) as [l' r']. rewrite Ed, Et. cbn [fst snd mbind option_bind] in *.
    exists (set_tree d t'), (DResult r). split_and!; try done. intros Hsz Ho. by apply Hex.
Qed.

Lemma disk_exec_all_steps d l os :
  refines (tree d) l →
  let C := cmp (tree d) in
  let '((l', s'), rs') := disk_spec_all C (flusher d) (l, fstate d) os in
  ∃ d' rs, disk_exec_all d os = Some (d', rs) ∧ refines (tree d') l' ∧ fstate d' = s' ∧ same_disk d d'
    ∧ Forall2 (disk_same (same_result C)) rs rs'
    ∧ (size_rel eq (tree d) → exact_ops C l os → Forall2 (disk_same (same_counted C)) rs rs').
Proof.
  intros HR C. revert d l HR C. induction os as [|o os IH]; intros d l HR C.
  { exists d, []. by split_and!. }
  cbn [disk_spec_all exact_ops disk_exec_all]. pose proof (disk_exec_step d l o HR) as Hstep.
  cbv zeta in Hstep. fold C in Hstep. pose proof (disk_spec_store C (flusher d) (l, fstate d) o) as Hstore.
  destruct (disk_spec _ _ _ _) as [[l1 s1] r1'] eqn:E1. cbn [fst] in Hstore.
  destruct Hstep as (d1 & r1 & Ed & HR1 & <- & (F & F2 & F3 & HC) & Hr & Hex).
  specialize (IH d1 l1 HR1). cbv zeta in IH. rewrite F, HC in IH. fold C in IH.
  destruct (disk_spec_all _ _ (l1, fstate d1) os) as [[l2 s2] rs'].
  destruct IH as (d2 & rs & Ed' & HR2 & Hs2 & (G1 & G2 & G3 & G4) & Hrs & Hexs).
  exists d2, (r1 :: rs). rewrite Ed. cbn [mbind option_bind]. rewrite Ed'.
  split_and!; [done|done|done|unfold same_disk; split_and!; congruence|by constructor|].
  intros Hsz [Ho Hos]. destruct (Hex Hsz Ho) as [Hsz1 Hr1]. constructor; [done|].
  apply Hexs; [done|]. by rewrite Hstore.
Qed.

End disk_exec.

(** ** The in-memory flusher of the examples *)

Module MemFlusher.

Definition nodes : Type := gmap N (list Z).
Inductive err := NotFound (id : N).

Definition write (id : N) (data : list Z) (m : nodes) : nodes * option err := (<[id := data]> m, None).
Definition read (id : N) (m : nodes) : nodes * (err + list Z) :=
  (m, if m !! id is Some data then inr data else inl (NotFound id)).
Definition memFlusher : Flusher nodes err :=
  mkFlusher write read (λ m, (m, None)) (λ m, (m, None)).

End MemFlusher.
