(* ===== verification/Codec.v ===== *)
(** * The varint string codec (examples/disktree-varint/main.go)

    A string is its bytes, integers in [0, 256).  [PutUvarint] and [Uvarint] are
    encoding/binary's, restated: seven bits per byte, least significant first,
    the high bit set on every byte but the last; [Uvarint] returns [n <= 0] on a
    truncated or an overlong input. *)

From Stdlib Require Import Ascii String.
From stdpp Require Import strings.
From S2P Require Import Prelude Order Slices Message Node.

(** The bytes of a string. *)
Fixpoint bytes_of (s : string) : list Z :=
  match s with EmptyString => [] | String c s => Z.of_N (N_of_ascii c) :: bytes_of s end.
Fixpoint string_of (bs : list Z) : string :=
  match bs with [] => EmptyString | b :: bs => String (ascii_of_N (Z.to_N b)) (string_of bs) end.

Definition MaxVarintLen64 : nat := 10.

(** The bytes [PutUvarint(buf, x)] writes; [fuel] iterations remain. *)
Fixpoint PutUvarint (fuel : nat) (x : Z) : list Z :=
  match fuel with
  | 0 => [x mod 256]%Z
  | S fuel =>
      if decide (0x80 ≤ x)%Z
      then Z.lor (x mod 256) 0x80 :: PutUvarint fuel (Z.shiftr x 7)
      else [x mod 256]%Z
  end.

(** [Uvarint(buf)]: the loop at index [i] with accumulator [x] and shift [s]. *)
Fixpoint Uvarint_loop (buf : list Z) (i : nat) (x s : Z) : Z * Z :=
  match buf with
  | [] => (0, 0)%Z
  | b :: buf =>
      if decide (i = MaxVarintLen64) then (0, - (Z.of_nat i + 1))%Z
      else if decide (b < 0x80)%Z then
        if decide (i = MaxVarintLen64 - 1 ∧ (1 < b)%Z) then (0, - (Z.of_nat i + 1))%Z
        else (Z.lor x (Z.shiftl b s mod 2^64), Z.of_nat i + 1)%Z
      else Uvarint_loop buf (S i) (Z.lor x (Z.shiftl (Z.land b 0x7f) s mod 2^64)) (s + 7)
  end.
Definition Uvarint (buf : list Z) : Z * Z := Uvarint_loop buf 0 0 0.

(** The errors of [Decode]. *)
Inductive decode_error := InvalidVarint | DataTooShort (want have_ : Z).

Module VarintStringCodec.

(** [buf[:n+len(b)]] after writing the length at 0 and [b] at [n]. *)
Definition Encode (b : list Z) : option (list Z) :=
  let buf := replicate (MaxVarintLen64 + length b) 0%Z in
  let prefix := PutUvarint MaxVarintLen64 (Z.of_nat (length b)) in
  let n := length prefix in
  buf ← copy_range buf 0 (length buf) prefix;
  buf ← copy_range buf n (length buf) b;
  slice buf 0 (n + length b).

Definition Decode (data : list Z) : option (decode_error + list Z) :=
  let '(len_, n) := Uvarint data in
  if decide (n ≤ 0)%Z then Some (inl InvalidVarint)
  else
    let remaining := (Z.of_nat (length data) - n)%Z in
    if decide (remaining < 0 ∨ remaining < len_)%Z then Some (inl (DataTooShort len_ remaining))
    else
      let e := (n + len_)%Z in
      s ← slice data (Z.to_nat n) (Z.to_nat e); Some (inr s).

End VarintStringCodec.

(** ** Round trip *)

Lemma PutUvarint_length fuel x j :
  1 ≤ j → (0 ≤ x < 2^(7 * Z.of_nat j))%Z → 1 ≤ length (PutUvarint fuel x) ≤ j.
Proof.
  revert x j. induction fuel as [|fuel IH]; intros x j Hj Hx; cbn [PutUvarint]; [simpl; lia|].
  case_decide as Hbig; [|simpl; lia].
  destruct j as [|[|j]]; [lia|change (2^(7 * Z.of_nat 1))%Z with 128%Z in Hx; lia|].
  cbn [length]. rewrite Z.shiftr_div_pow2 by lia. change (2^7)%Z with 128%Z.
  enough (1 ≤ length (PutUvarint fuel (x / 128)) ≤ S j) by lia. apply IH; [lia|].
  split; [apply Z.div_pos; lia|]. apply Z.div_lt_upper_bound; [lia|].
  replace (7 * Z.of_nat (S (S j)))%Z with (7 + 7 * Z.of_nat (S j))%Z in Hx by lia.
  rewrite Z.pow_add_r in Hx by lia. apply Hx.
Qed.

(** The bits of a shifted group lie above those of the accumulator. *)
Lemma lor_shift x y s : (0 ≤ s → 0 ≤ x < 2^s → 0 ≤ y → Z.lor x (Z.shiftl y s) = x + y * 2^s)%Z.
Proof.
  intros Hs Hx Hy. rewrite <-Z.shiftl_mul_pow2 by done.
  enough (Z.land x (Z.shiftl y s) = 0)%Z as E by (pose proof (Z.add_lor_land x (Z.shiftl y s)); lia).
  apply Z.bits_inj'. intros i Hi. rewrite Z.land_spec, Z.bits_0.
  destruct (decide (i < s)%Z).
  - rewrite Z.shiftl_spec_low by done. apply andb_false_r.
  - rewrite <-(Z.mod_small x (2^s)), Z.mod_pow2_bits_high by lia. done.
Qed.

Lemma continuation_byte r :
  (0 ≤ r < 256 → 0x80 ≤ Z.lor r 0x80 ∧ Z.land (Z.lor r 0x80) 0x7f = r mod 128)%Z.
Proof.
  intros Hr.
  assert (Forall (λ r, 0x80 ≤ Z.lor r 0x80 ∧ Z.land (Z.lor r 0x80) 0x7f = r mod 128)%Z
            (Z.of_nat <$> seq 0 256)) as H.
  { apply (bool_decide_unpack _). vm_compute. done. }
  rewrite Forall_forall in H. apply H. apply list_elem_of_fmap. exists (Z.to_nat r).
  split; [lia|]. apply elem_of_seq. lia.
Qed.

Lemma Uvarint_loop_spec fuel i a x rest :
  i ≤ 9 → (0 ≤ a < 2^(7 * Z.of_nat i))%Z → (0 ≤ x)%Z → (x * 2^(7 * Z.of_nat i) < 2^64)%Z →
  (x < 2^(7 * (Z.of_nat fuel + 1)))%Z →
  Uvarint_loop (PutUvarint fuel x ++ rest) i a (7 * Z.of_nat i)
  = (a + x * 2^(7 * Z.of_nat i), Z.of_nat (i + length (PutUvarint fuel x)))%Z.
Proof.
  revert i a x. induction fuel as [|fuel IH]; intros i a x Hi Ha Hx Hx64 Hfuel.
  all: assert ((x < 0x80)%Z → i = 9 → (x ≤ 1)%Z) as H9 by
    (intros _ ->; change (2^(7 * Z.of_nat 9))%Z with (2^63)%Z in Hx64; lia).
  all: assert (x < 0x80 → Uvarint_loop ((x mod 256)%Z :: rest) i a (7 * Z.of_nat i)
               = (a + x * 2^(7 * Z.of_nat i), Z.of_nat (i + 1)))%Z as Hlast.
  1, 3: intros Hsmall; rewrite Z.mod_small by lia; cbn [Uvarint_loop]; unfold MaxVarintLen64;
    rewrite decide_False, decide_True, decide_False by lia; f_equal; [|lia];
    rewrite Z.mod_small by (rewrite Z.shiftl_mul_pow2; lia); apply lor_shift; lia.
  - apply Hlast. change (7 * (Z.of_nat 0 + 1))%Z with 7%Z in Hfuel. lia.
  - cbn [PutUvarint]. case_decide as Hbig; [|apply Hlast; lia]. cbn [app Uvarint_loop].
    destruct (continuation_byte (x mod 256)) as [Hb Hl]; [apply Z.mod_pos_bound; lia|].
    assert (i ≤ 8) as Hi8.
    { destruct (decide (i = 9)) as [->|]; [|lia].
      change (2^(7 * Z.of_nat 9))%Z with (2^63)%Z in Hx64. lia. }
    unfold MaxVarintLen64. rewrite !decide_False by lia. rewrite Hl.
    set (s := (7 * Z.of_nat i)%Z) in *.
    assert ((x mod 256) mod 128 = x mod 128)%Z as -> by (apply Z.mod_mod_divide; by exists 2%Z).
    pose proof (Z.mod_pos_bound x 128 ltac:(lia)) as Hm.
    pose proof (Z.div_mod x 128 ltac:(lia)) as Hdm.
    assert (0 < 2^s)%Z as Hs by (apply Z.pow_pos_nonneg; lia).
    assert (x mod 128 * 2^s ≤ x * 2^s)%Z as Hle.
    { apply Z.mul_le_mono_nonneg_r; [lia|]. apply Z.mod_le; lia. }
    rewrite Z.mod_small by (rewrite Z.shiftl_mul_pow2; nia).
    rewrite lor_shift by lia. rewrite Z.shiftr_div_pow2 by lia. change (2^7)%Z with 128%Z.
    replace (s + 7)%Z with (7 * Z.of_nat (S i))%Z by lia.
    assert (2^(7 * Z.of_nat (S i)) = 128 * 2^s)%Z as E7.
    { replace (7 * Z.of_nat (S i))%Z with (7 + s)%Z by lia. rewrite Z.pow_add_r by lia. done. }
    rewrite IH.
    + f_equal; [rewrite E7; nia|]. simpl. lia.
    + lia.
    + rewrite E7. nia.
    + apply Z.div_pos; lia.
    + rewrite E7. nia.
    + apply Z.div_lt_upper_bound; [lia|].
      replace (7 * (Z.of_nat (S fuel) + 1))%Z with (7 + 7 * (Z.of_nat fuel + 1))%Z in Hfuel by lia.
      rewrite Z.pow_add_r in Hfuel by lia. done.
Qed.

Lemma Encode_spec b :
  (Z.of_nat (length b) < 2^63)%Z →
  VarintStringCodec.Encode b = Some (PutUvarint MaxVarintLen64 (Z.of_nat (length b)) ++ b).
Proof.
  intros Hb. unfold VarintStringCodec.Encode. set (prefix := PutUvarint _ _).
  assert (1 ≤ length prefix ≤ 10) as [Hp0 Hp].
  { apply PutUvarint_length; [lia|]. change (2^(7 * Z.of_nat 10))%Z with (2^70)%Z. lia. }
  set (zeros := replicate _ 0%Z).
  assert (length zeros = 10 + length b) as Hz by apply length_replicate.
  rewrite copy_to_end by lia. cbn [mbind option_bind]. rewrite take_0, app_nil_l, Nat.add_0_l.
  set (rest := drop (length prefix) zeros).
  assert (length rest = 10 + length b - length prefix) as Hrest by (unfold rest; rewrite length_drop; lia).
  rewrite copy_to_end by (rewrite length_app; lia). cbn [mbind option_bind].
  rewrite take_app_length, app_assoc. apply slice_prefix. by rewrite length_app.
Qed.

Lemma Uvarint_PutUvarint x rest :
  (0 ≤ x < 2^63)%Z →
  Uvarint (PutUvarint MaxVarintLen64 x ++ rest) = (x, len (PutUvarint MaxVarintLen64 x)).
Proof.
  intros Hx. unfold Uvarint.
  pose proof (Uvarint_loop_spec MaxVarintLen64 0 0 x rest) as E.
  change (7 * Z.of_nat 0)%Z with 0%Z in E. change (2^0)%Z with 1%Z in E.
  rewrite E; [f_equal; lia|lia..|].
  change (2 ^ (7 * (Z.of_nat MaxVarintLen64 + 1)))%Z with (2^77)%Z. lia.
Qed.

(** [Uvarint] reads no further than the buffer. *)
Lemma Uvarint_loop_bound buf i x s :
  Forall (λ b, 0 ≤ b < 256)%Z buf → (0 ≤ x)%Z →
  (0 ≤ (Uvarint_loop buf i x s).1 ∧ (Uvarint_loop buf i x s).2 ≤ Z.of_nat i + len buf)%Z.
Proof.
  revert i x s. induction buf as [|b buf IH]; intros i x s Hb Hx; cbn [Uvarint_loop length fst snd]; [lia|].
  apply Forall_cons in Hb as [Hb Hbuf].
  assert (∀ z, 0 ≤ Z.lor x (z mod 2^64))%Z as Hlor.
  { intros z. apply Z.lor_nonneg. split; [done|]. by apply Z.mod_pos_bound. }
  repeat case_decide; cbn [fst snd]; try lia.
  - specialize (Hlor (Z.shiftl b s)). lia.
  - destruct (IH (S i) (Z.lor x (Z.shiftl (Z.land b 127) s mod 2 ^ 64)) (s + 7)%Z Hbuf (Hlor _)). lia.
Qed.

Lemma Decode_total data :
  Forall (λ b, 0 ≤ b < 256)%Z data → ∃ r, VarintStringCodec.Decode data = Some r.
Proof.
  intros Hd. unfold VarintStringCodec.Decode. pose proof (Uvarint_loop_bound data 0 0 0 Hd) as Hu.
  fold (Uvarint data) in Hu. destruct (Uvarint data) as [v n]. cbn [fst snd] in Hu.
  destruct Hu as [Hv Hn]; [done|]. repeat case_decide; [by eexists..|].
  unfold slice. rewrite decide_True by lia. by eexists.
Qed.

Lemma Decode_Encode b garbage :
  (Z.of_nat (length b) < 2^63)%Z →
  VarintStringCodec.Decode ((PutUvarint MaxVarintLen64 (Z.of_nat (length b)) ++ b) ++ garbage) = Some (inr b).
Proof.
  intros Hb. unfold VarintStringCodec.Decode.
  rewrite <-app_assoc, Uvarint_PutUvarint by lia. set (p := PutUvarint _ _).
  assert (1 ≤ length p) as Hp by (eapply (PutUvarint_length _ _ 10); [lia|]; simpl; lia).
  rewrite decide_False by lia. rewrite decide_False by (rewrite !length_app; lia).
  cbv zeta. rewrite slice_app by lia. done.
Qed.
