(* ===== verification/Binary.v ===== *)
(** * The fixed-size codec (examples/disktree-binary/main.go)

    [BinaryCodec[T]] writes a value of a fixed-size type as [size_of] bytes, the
    least significant first, and reads it back; [FixedSize] is what encoding/binary
    knows of the type, with instances for the two types of the example, int32 and
    float64 (IEEE 754 binary64: a sign bit, eleven bits of exponent, fifty-two of
    mantissa).  A [spec_float] has one NaN, so the instance at [spec_float] has the
    NaN of [math.NaN]; a float64 with the payload of its NaN is a [Float64], its 64
    bits, and [Float64_of] says which one a [spec_float] is.  Writing a fixed-size type to a buffer does not fail; reading fails
    on short input, and ignores what follows the value. *)

From Stdlib Require Import SpecFloat.
From S2P Require Import Prelude Order Slices Message Node LeafMerge Flush Iterator Tree Spec Options Disk.

(** ** Bytes *)

Fixpoint le_bytes (n : nat) (z : Z) : list Z :=
  match n with 0 => [] | S n => (z mod 256)%Z :: le_bytes n (z / 256)%Z end.
Definition le_value (bs : list Z) : Z := foldr (λ b a, b + 256 * a)%Z 0%Z bs.

Class FixedSize (T : Type) := {
  size_of : nat;
  to_bits : T → Z;
  of_bits : Z → T
}.
(** The values a type has: the laws of its representation. *)
Class FixedSizeSpec (T : Type) `{FixedSize T} (valid : T → Prop) : Prop := {
  to_bits_range (v : T) : (0 ≤ to_bits v < 256 ^ Z.of_nat size_of)%Z;
  of_to_bits (v : T) : valid v → of_bits (to_bits v) = v
}.

(** io.EOF and io.ErrUnexpectedEOF. *)
Inductive read_error := EOF | ErrUnexpectedEOF.

Module BinaryCodec.
Section codec.
Context {T : Type} `{FixedSize T}.

Definition Encode (v : T) : read_error + list Z := inr (le_bytes size_of (to_bits v)).
Definition Decode (data : list Z) : read_error + T :=
  if decide (length data = 0) then inl EOF
  else if decide (length data < size_of) then inl ErrUnexpectedEOF
  else inr (of_bits (le_value (take size_of data))).
Definition codec : Codec read_error T := mkCodec (λ v, Some (Encode v)) (λ data, Some (Decode data)).

End codec.
End BinaryCodec.

(** ** int32 *)

#[export] Instance FixedSize_int32 : FixedSize Z := {
  size_of := 4;
  to_bits z := (z mod 2^32)%Z;
  of_bits b := (if decide (b < 2^31) then b else b - 2^32)%Z
}.
Definition is_int32 (z : Z) : Prop := (- 2^31 ≤ z < 2^31)%Z.

(** ** float64 *)

Definition sign_bit (s : bool) : Z := if s then (2^63)%Z else 0%Z.
Definition Float64bits (f : spec_float) : Z :=
  match f with
  | S754_zero s => sign_bit s
  | S754_infinity s => sign_bit s + 0x7FF * 2^52
  | S754_nan => 0x7FF8000000000001
  | S754_finite s m e =>
      if decide (Zpos m < 2^52)%Z then (sign_bit s + Zpos m)%Z
      else (sign_bit s + (e + 1075) * 2^52 + (Zpos m - 2^52))%Z
  end.
Definition Float64frombits (b : Z) : spec_float :=
  let s := bool_decide (2^63 ≤ b)%Z in
  let ex := (b / 2^52 mod 2^11)%Z in
  let mant := (b mod 2^52)%Z in
  if decide (ex = 0%Z) then
    match mant with Zpos m => S754_finite s m (-1074) | _ => S754_zero s end
  else if decide (ex = 0x7FF)%Z then
    if decide (mant = 0%Z) then S754_infinity s else S754_nan
  else match (mant + 2^52)%Z with Zpos m => S754_finite s m (ex - 1075) | _ => S754_zero s end.

#[export] Instance FixedSize_float64 : FixedSize spec_float := {
  size_of := 8;
  (** A word: the reduction does nothing to the bits of a float64. *)
  to_bits f := (Float64bits f mod 2^64)%Z;
  of_bits := Float64frombits
}.

(** A float64 as its bits: the values that are NaN have 2^53 - 2 of them. *)
Record Float64 := mkFloat64 { word : Z }.
#[export] Instance FixedSize_Float64 : FixedSize Float64 := {
  size_of := 8;
  to_bits f := (word f mod 2^64)%Z;
  of_bits := mkFloat64
}.
Definition is_word (f : Float64) : Prop := (0 ≤ word f < 2^64)%Z.
Definition Float64_of (f : spec_float) : Float64 := mkFloat64 (Float64bits f).

(** ** Lemmas *)

Lemma length_le_bytes n z : length (le_bytes n z) = n.
Proof. revert z. induction n as [|n IH]; intros z; [done|]. cbn [le_bytes length]. by rewrite IH. Qed.

Lemma le_value_bytes n z : le_value (le_bytes n z) = (z mod 256 ^ Z.of_nat n)%Z.
Proof.
  revert z. induction n as [|n IH]; intros z; [by rewrite Z.mod_1_r|].
  cbn [le_bytes le_value foldr]. fold (le_value (le_bytes n (z / 256))). rewrite IH.
  rewrite Nat2Z.inj_succ, Z.pow_succ_r by lia. by rewrite Z.rem_mul_r by lia.
Qed.

Section codec.
Context {T : Type} `{FixedSize T} {valid : T → Prop} {HF : FixedSizeSpec T valid}.

Lemma Binary_Encode_length (v : T) bs : BinaryCodec.Encode v = inr bs → length bs = size_of.
Proof. intros [= <-]. apply length_le_bytes. Qed.

(** What was encoded is decoded, whatever follows it. *)
Lemma Binary_Decode_Encode (v : T) bs rest :
  0 < size_of → valid v → BinaryCodec.Encode v = inr bs → BinaryCodec.Decode (bs ++ rest) = inr v.
Proof.
  intros Hs Hv E. pose proof (Binary_Encode_length v bs E) as Hl. injection E as <-. unfold BinaryCodec.Decode.
  rewrite !decide_False by (rewrite length_app; lia).
  rewrite take_app_length' by done. rewrite le_value_bytes, Z.mod_small by apply to_bits_range.
  by rewrite of_to_bits.
Qed.

Lemma Binary_Decode_short (data : list Z) : length data < size_of → ∃ e, BinaryCodec.Decode (T := T) data = inl e.
Proof. intros Hl. unfold BinaryCodec.Decode. case_decide; [by eexists|]. rewrite decide_True by done. by eexists. Qed.
End codec.

#[export] Instance int32_spec : FixedSizeSpec Z is_int32.
Proof.
  split; unfold is_int32; cbn [size_of to_bits of_bits FixedSize_int32].
  - intros v. change (256 ^ Z.of_nat 4)%Z with (2^32)%Z. by apply Z.mod_pos_bound.
  - intros v Hv. destruct (decide (0 ≤ v)%Z).
    + rewrite Z.mod_small by lia. by rewrite decide_True by lia.
    + rewrite <-(Z_mod_plus_full v 1), Z.mod_small by lia. rewrite decide_False by lia. lia.
Qed.

(** Taking a word apart into its fields. *)
Lemma fields s ex mant :
  (0 ≤ ex < 2^11)%Z → (0 ≤ mant < 2^52)%Z →
  let b := (sign_bit s + ex * 2^52 + mant)%Z in
  bool_decide (2^63 ≤ b)%Z = s ∧ (b / 2^52 mod 2^11 = ex)%Z ∧ (b mod 2^52 = mant)%Z ∧ (0 ≤ b < 2^64)%Z.
Proof.
  intros He Hm b.
  assert (b = (((if s then 2^11 else 0) + ex) * 2^52 + mant)%Z) as Eb by (unfold b, sign_bit; destruct s; lia).
  split; [destruct s; [apply bool_decide_eq_true|apply bool_decide_eq_false]; unfold b, sign_bit; lia|].
  assert (b / 2^52 = (if s then 2^11 else 0) + ex)%Z as ->.
  { rewrite Eb, Z.div_add_l by done. rewrite (Z.div_small mant) by done. lia. }
  split; [|split].
  - destruct s; [|by rewrite Z.mod_small by lia].
    rewrite Z.add_comm. replace (ex + 2^11)%Z with (ex + 1 * 2^11)%Z by lia.
    by rewrite Z_mod_plus_full, Z.mod_small by lia.
  - rewrite Eb, Z.add_comm, Z_mod_plus_full. by apply Z.mod_small.
  - unfold b, sign_bit. destruct s; lia.
Qed.

Lemma Float64frombits_bits f : is_float64 f → Float64frombits (Float64bits f) = f ∧ (0 ≤ Float64bits f < 2^64)%Z.
Proof.
  destruct f as [s|s| |s m e]; intros Hv; [by destruct s| by destruct s|done|].
  destruct (valid_finite s m e Hv) as [[Hm ->]|[Hm He]]; cbn [Float64bits].
  - rewrite decide_True by done.
    destruct (fields s 0 (Zpos m)) as (E1 & E2 & E3 & E4); [lia..|]. rewrite Z.mul_0_l, Z.add_0_r in *.
    split; [|done]. unfold Float64frombits. by rewrite E1, E2, E3.
  - rewrite decide_False by lia.
    destruct (fields s (e + 1075) (Zpos m - 2^52)) as (E1 & E2 & E3 & E4); [lia..|].
    split; [|done]. unfold Float64frombits. rewrite E1, E2, E3.
    rewrite !decide_False by lia. rewrite Z.sub_add. f_equal. lia.
Qed.

#[export] Instance float64_spec : FixedSizeSpec spec_float is_float64.
Proof.
  split; cbn [size_of to_bits of_bits FixedSize_float64].
  - intros v. change (256 ^ Z.of_nat 8)%Z with (2^64)%Z. by apply Z.mod_pos_bound.
  - intros v Hv. destruct (Float64frombits_bits v Hv) as [E Hb]. by rewrite Z.mod_small.
Qed.

#[export] Instance Float64_spec : FixedSizeSpec Float64 is_word.
Proof.
  split; cbn [size_of to_bits of_bits FixedSize_Float64].
  - intros f. change (256 ^ Z.of_nat 8)%Z with (2^64)%Z. by apply Z.mod_pos_bound.
  - intros [w] Hw. unfold is_word in Hw. cbn [word] in *. by rewrite Z.mod_small.
Qed.

(** A [spec_float] is written as its bits are. *)
Lemma Encode_Float64_of f : BinaryCodec.Encode (Float64_of f) = BinaryCodec.Encode f.
Proof. done. Qed.
