(* ===== verification/Gob.v ===== *)
(** * The default codec at basic types (codec.go, encoding/gob)

    [GobCodec[T]] makes a new encoder and a new decoder for every value, so what it
    writes is one message of encoding/gob: its length, the id of the type, a zero
    (the field number of a value that is no struct) and the value.  A [GobType] is
    a type whose id is predefined, with how its values are written and read; the
    instances are int (64 bits) and string, the types the examples use it at.

    A message whose id is negative defines a type, and another message follows it:
    the encoder sends none for a predefined type, and what the decoder makes of one
    is the argument [type_definition]. *)

From Stdlib Require Import Ascii String.
From stdpp Require Import strings.
From S2P Require Import Prelude Order Keys Slices Message Node LeafMerge Flush Iterator Tree Spec Options Disk Codec Binary.

(** The errors of the package that these types can meet. *)
Inductive gob_error :=
  | GobEOF | GobUnexpectedEOF | ErrBadUint | ErrBadCount | MessageTooBig
  | ShortUint | BadStringLength | NonZeroDelta | WrongType (id : Z).

#[local] Instance sum_bind {E} : MBind (sum E) := λ A B f r,
  match r with inl e => inl e | inr a => f a end.

(** ** Integers *)

Definition LeadingZeros64 (x : Z) : Z := if decide (x = 0%Z) then 64%Z else (63 - Z.log2 x)%Z.

(** A small integer is a byte; another is the negated count of its bytes, and
    these, the most significant first. *)
Definition encodeUint (x : Z) : list Z :=
  if decide (x ≤ 0x7F)%Z then [x]
  else
    let bc := Z.to_nat (Z.shiftr (LeadingZeros64 x) 3) in
    ((Z.of_nat bc - 8) mod 256)%Z :: drop bc (rev (le_bytes 8 x)).
Definition decodeUint (short : gob_error) (bs : list Z) : gob_error + (Z * list Z) :=
  match bs with
  | [] => inl GobEOF
  | b :: bs =>
      if decide (b ≤ 0x7F)%Z then inr (b, bs)
      else
        let n := (256 - b)%Z in
        if decide (8 < n)%Z then inl ErrBadUint
        else if decide (len bs < n)%Z then inl short
        else inr (foldl (λ x b, Z.lor (Z.shiftl x 8 mod 2^64) b) 0%Z (take (Z.to_nat n) bs),
                  drop (Z.to_nat n) bs)
  end.

(** The sign is the lowest bit. *)
Definition encodeInt (i : Z) : list Z :=
  encodeUint (if decide (i < 0)%Z then Z.lor (Z.shiftl (Z.lnot i) 1 mod 2^64) 1
              else Z.shiftl i 1 mod 2^64)%Z.
Definition toInt (x : Z) : Z :=
  let i := Z.shiftr x 1 in if decide (Z.land x 1 = 0)%Z then i else Z.lnot i.

(** ** Values *)

(** No message and no string has as many bytes. *)
Definition tooBig : Z := (2^33)%Z.

Class GobType (T : Type) := {
  gob_id : Z;
  gob_write : T → list Z;
  gob_read : list Z → gob_error + (T * list Z)
}.

Section codec.
Context {T : Type} `{GobType T} (type_definition : Z → list Z → list Z → gob_error + T).

(** The message of a value. *)
Definition encodeValue (v : T) : gob_error + list Z :=
  let body := encodeInt gob_id ++ encodeUint 0 ++ gob_write v in
  if decide (tooBig ≤ len body)%Z then inl MessageTooBig else inr (encodeUint (len body) ++ body).

(** The value of a message of type [id]. *)
Definition decodeSingle (id : Z) (msg : list Z) : gob_error + T :=
  if decide (id = gob_id) then
    '(delta, msg) ← decodeUint ShortUint msg;
    if decide (delta = 0%Z) then '(v, _) ← gob_read msg; inr v else inl NonZeroDelta
  else inl (WrongType id).
Definition decodeValue (data : list Z) : gob_error + T :=
  '(nbytes, data) ← decodeUint GobUnexpectedEOF data;
  if decide (tooBig ≤ nbytes)%Z then inl ErrBadCount
  else if decide (len data < nbytes)%Z then inl GobUnexpectedEOF
  else
    let rest := drop (Z.to_nat nbytes) data in
    '(x, msg) ← decodeUint GobUnexpectedEOF (take (Z.to_nat nbytes) data);
    let id := toInt x in
    if decide (id < 0)%Z then type_definition (- id)%Z msg rest else decodeSingle id msg.

(** [gob.NewEncoder(&buf).Encode(v)] appends the message to [buf], and
    [gob.NewDecoder(r).Decode(&v)] stores the value of the first message in [v];
    on an error neither writes. *)
Definition Encoder_Encode (buf : list Z) (v : T) : list Z * option gob_error :=
  match encodeValue v with inl err => (buf, Some err) | inr msg => (buf ++ msg, None) end.
Definition Decoder_Decode (data : list Z) (v : T) : T * option gob_error :=
  match decodeValue data with inl err => (v, Some err) | inr v => (v, None) end.

(** ** codec.go *)

Definition Gob_Encode (v : T) : gob_error + list Z :=
  let buf := [] in
  let '(buf, err) := Encoder_Encode buf v in
  match err with Some err => inl err | None => inr buf end.
Definition Gob_Decode `{Zero T} (data : list Z) : gob_error + T :=
  let v := zero in
  let '(v, err) := Decoder_Decode data v in
  match err with Some err => inl err | None => inr v end.

Definition GobCodec `{Zero T} : Codec gob_error T :=
  mkCodec (λ v, Some (Gob_Encode v)) (λ data, Some (Gob_Decode data)).

End codec.

#[export] Instance GobType_int : GobType Z := {
  gob_id := 2;
  gob_write := encodeInt;
  gob_read bs := '(x, bs) ← decodeUint ShortUint bs; inr (toInt x, bs)
}.
Definition is_int64 (z : Z) : Prop := (- 2^63 ≤ z < 2^63)%Z.

#[export] Instance GobType_string : GobType string := {
  gob_id := 6;
  gob_write s := encodeUint (len (bytes_of s)) ++ bytes_of s;
  gob_read bs :=
    '(n, bs) ← decodeUint ShortUint bs;
    if decide (2^63 ≤ n ∨ len bs < n ∨ tooBig ≤ n)%Z then inl BadStringLength
    else inr (string_of (take (Z.to_nat n) bs), drop (Z.to_nat n) bs)
}.

(** ** Integers are read back *)

Lemma take_le_bytes n m x : n ≤ m → take n (le_bytes m x) = le_bytes n x.
Proof.
  revert m x. induction n as [|n IH]; intros m x Hn; [done|]. destruct m as [|m]; [lia|].
  cbn [le_bytes take]. by rewrite IH by lia.
Qed.

(** The bytes a number needs: eight, less the leading zero bytes. *)
Lemma width_bounds x :
  (0x7F < x < 2^64)%Z → let bc := Z.to_nat (Z.shiftr (LeadingZeros64 x) 3) in
  bc ≤ 7 ∧ (x < 256 ^ Z.of_nat (8 - bc))%Z.
Proof.
  intros Hx bc. unfold bc, LeadingZeros64. rewrite decide_False by lia.
  pose proof (Z.log2_spec x ltac:(lia)) as Hlog. pose proof (Z.log2_nonneg x) as Hpos.
  assert (Z.log2 x < 64)%Z as Hlt by (apply Z.log2_lt_pow2; lia).
  rewrite Z.shiftr_div_pow2 by done. change (2^3)%Z with 8%Z.
  pose proof (Z.div_mod (63 - Z.log2 x) 8 ltac:(done)) as Hdm.
  pose proof (Z.mod_pos_bound (63 - Z.log2 x) 8 ltac:(done)) as Hm.
  set (q := ((63 - Z.log2 x) / 8)%Z) in *. split; [lia|].
  eapply Z.lt_le_trans; [apply Hlog|]. change 256%Z with (2^8)%Z.
  rewrite <-Z.pow_mul_r by lia. apply Z.pow_le_mono_r; lia.
Qed.

Lemma encodeUint_big x :
  (0x7F < x < 2^64)%Z → ∃ n, 1 ≤ n ≤ 8 ∧ (x < 256 ^ Z.of_nat n)%Z
    ∧ encodeUint x = (256 - Z.of_nat n)%Z :: rev (le_bytes n x).
Proof.
  intros Hx. pose proof (width_bounds x Hx) as Hw. unfold encodeUint. rewrite decide_False by lia.
  cbv zeta in *. set (bc := Z.to_nat _) in *. destruct Hw as [Hbc Hlt].
  exists (8 - bc). split; [lia|]. split; [done|]. f_equal.
  - rewrite <-(Z_mod_plus_full _ 1), Z.mod_small by lia. lia.
  - rewrite skipn_rev, length_le_bytes. by rewrite take_le_bytes by lia.
Qed.

(** Shifting in the bytes, the most significant first. *)
Lemma be_value n x :
  n ≤ 8 → (0 ≤ x < 256 ^ Z.of_nat n)%Z →
  foldl (λ x b, Z.lor (Z.shiftl x 8 mod 2^64) b) 0%Z (rev (le_bytes n x)) = x.
Proof.
  revert x. induction n as [|n IH]; intros x Hn Hx; [simpl in *; lia|].
  cbn [le_bytes rev]. rewrite foldl_app. cbn [foldl].
  rewrite Nat2Z.inj_succ, Z.pow_succ_r in Hx by lia.
  assert (x / 256 < 256 ^ Z.of_nat n)%Z as Hd by (apply Z.div_lt_upper_bound; lia).
  pose proof (Z.div_pos x 256 ltac:(lia) ltac:(lia)) as Hd0.
  rewrite IH by lia. pose proof (Z.div_mod x 256 ltac:(lia)) as Hdm.
  pose proof (Z.mod_pos_bound x 256 ltac:(lia)) as Hm.
  assert (256 ^ Z.of_nat n ≤ 256 ^ 7)%Z as H7 by (apply Z.pow_le_mono_r; lia).
  rewrite Z.mod_small by (rewrite Z.shiftl_mul_pow2 by lia; change (2^8)%Z with 256%Z; lia).
  rewrite Z.lor_comm, lor_shift by (change (2^8)%Z with 256%Z; lia). change (2^8)%Z with 256%Z. lia.
Qed.

Lemma decodeUint_encodeUint short x rest :
  (0 ≤ x < 2^64)%Z → decodeUint short (encodeUint x ++ rest) = inr (x, rest).
Proof.
  intros Hx. destruct (decide (x ≤ 0x7F)%Z) as [Hs|Hs].
  { unfold encodeUint, decodeUint. rewrite decide_True by done. cbn [app]. by rewrite decide_True. }
  destruct (encodeUint_big x) as (n & Hn & Hlt & ->); [lia|]. cbn [app decodeUint].
  assert (length (rev (le_bytes n x)) = n) as Hl by (by rewrite length_rev, length_le_bytes).
  rewrite decide_False by lia. replace (256 - (256 - Z.of_nat n))%Z with (Z.of_nat n) by lia.
  rewrite decide_False by lia. rewrite decide_False by (rewrite length_app; lia).
  rewrite Nat2Z.id, take_app_length', drop_app_length' by done. by rewrite be_value by lia.
Qed.

Lemma decodeUint_cut short x i :
  (0 ≤ x < 2^64)%Z → i < length (encodeUint x) → ∃ e, decodeUint short (take i (encodeUint x)) = inl e.
Proof.
  intros Hx. destruct i as [|i]; [by eexists|]. destruct (decide (x ≤ 0x7F)%Z) as [Hs|Hs].
  { unfold encodeUint. rewrite decide_True by done. simpl. lia. }
  destruct (encodeUint_big x) as (n & Hn & _ & ->); [lia|]. cbn [length take decodeUint].
  rewrite length_rev, length_le_bytes. intros Hi. rewrite decide_False by lia.
  replace (256 - (256 - Z.of_nat n))%Z with (Z.of_nat n) by lia. rewrite decide_False by lia.
  rewrite decide_True; [by eexists|]. rewrite length_take, length_rev, length_le_bytes. lia.
Qed.

Lemma land_1 x : Z.land x 1 = (x mod 2)%Z.
Proof. change 1%Z with (Z.ones 1). by rewrite Z.land_ones. Qed.

Lemma encodeInt_word i : is_int64 i →
  ∃ x, encodeInt i = encodeUint x ∧ (0 ≤ x < 2^64)%Z ∧ toInt x = i.
Proof.
  unfold is_int64, encodeInt, toInt. intros Hi. eexists. split; [done|].
  rewrite !Z.shiftl_mul_pow2, Z.shiftr_div_pow2, land_1 by lia. change (2^1)%Z with 2%Z.
  pose proof (Z.lnot_eq_pred_opp i) as Hlnot. case_decide as Hneg.
  - rewrite Z.mod_small by lia.
    assert (Z.lor (Z.lnot i * 2) 1 = Z.lnot i * 2 + 1)%Z as ->.
    { pose proof (lor_shift 1 (Z.lnot i) 1) as E. rewrite Z.shiftl_mul_pow2, Z.lor_comm in E by lia.
      change (2^1)%Z with 2%Z in E. rewrite E by lia. lia. }
    split; [lia|].
    assert ((Z.lnot i * 2 + 1) mod 2 = 1)%Z as -> by (rewrite Z.add_comm, Z_mod_plus_full; done).
    rewrite decide_False by done. rewrite Z.div_add_l by done. change (1 / 2)%Z with 0%Z.
    rewrite Z.add_0_r. apply Z.lnot_involutive.
  - rewrite Z.mod_small by lia. split; [lia|].
    rewrite Z_mod_mult. rewrite decide_True by done. by apply Z.div_mul.
Qed.

(** ** Messages are read back *)

(** What a basic type promises: a small positive id, and that a value it has is
    read back, whatever follows it. *)
Class GobTypeSpec (T : Type) `{GobType T} (valid : T → Prop) : Prop := {
  gob_id_range : (0 < gob_id < 64)%Z;
  gob_read_write (v : T) rest :
    valid v → (len (gob_write v) < tooBig)%Z → gob_read (gob_write v ++ rest) = inr (v, rest)
}.

Section codec_spec.
Context {T : Type} `{GobType T, Zero T} {valid : T → Prop} {HG : GobTypeSpec T valid}.
Context (type_definition : Z → list Z → list Z → gob_error + T).
Implicit Types (v : T) (data : list Z).

(** The message of a value: its id takes a byte, the zero another. *)
Lemma encodeValue_inv v data :
  encodeValue v = inr data →
  let body := [(2 * gob_id)%Z; 0%Z] ++ gob_write v in
  (len body < tooBig)%Z ∧ data = encodeUint (len body) ++ body.
Proof.
  pose proof gob_id_range as Hid. unfold encodeValue.
  assert (encodeInt gob_id = [(2 * gob_id)%Z]) as ->.
  { unfold encodeInt. rewrite decide_False by lia. rewrite Z.shiftl_mul_pow2 by lia.
    change (2^1)%Z with 2%Z. rewrite Z.mod_small by lia. unfold encodeUint.
    rewrite decide_True by lia. f_equal. lia. }
  change (encodeUint 0) with [0%Z]. rewrite app_assoc. cbn [app] in *.
  case_decide; intros [= <-]. split; [lia|done].
Qed.

Lemma encodeValue_fits v :
  (len (gob_write v) < tooBig - 2)%Z → ∃ data, encodeValue v = inr data.
Proof.
  intros Hl. pose proof (encodeValue_inv v) as Hinv. unfold encodeValue in *.
  case_decide as Hbig; [|by eexists]. exfalso. pose proof gob_id_range as Hid.
  revert Hbig. unfold encodeInt. rewrite decide_False by lia. rewrite Z.shiftl_mul_pow2 by lia.
  change (2^1)%Z with 2%Z. rewrite Z.mod_small by lia. unfold encodeUint at 1.
  rewrite decide_True by lia. change (encodeUint 0) with [0%Z]. simpl. lia.
Qed.

Lemma decode_encode v data garbage :
  valid v → encodeValue v = inr data → decodeValue type_definition (data ++ garbage) = inr v.
Proof.
  intros Hv E. pose proof gob_id_range as Hid. destruct (encodeValue_inv v data E) as [Hl ->].
  set (body := _ ++ gob_write v) in *. unfold decodeValue, tooBig in *.
  rewrite <-app_assoc, decodeUint_encodeUint by lia. cbn [mbind sum_bind].
  rewrite decide_False by lia. rewrite decide_False by (rewrite length_app; lia).
  rewrite Nat2Z.id, take_app_length.
  assert (decodeUint GobUnexpectedEOF body = inr (2 * gob_id, 0 :: gob_write v)%Z) as ->.
  { unfold body. cbn [app decodeUint]. by rewrite decide_True by lia. }
  cbn [mbind sum_bind].
  assert (toInt (2 * gob_id) = gob_id)%Z as ->.
  { unfold toInt. rewrite land_1, Z.mul_comm, Z_mod_mult, decide_True by done.
    rewrite Z.shiftr_div_pow2 by lia. by apply Z.div_mul. }
  rewrite decide_False by lia. unfold decodeSingle. rewrite decide_True by done.
  cbn [decodeUint]. rewrite decide_True by done. cbn [mbind sum_bind]. rewrite decide_True by done.
  rewrite <-(app_nil_r (gob_write v)), (gob_read_write (valid := valid)); [done|done|].
  unfold body in Hl. rewrite length_app in Hl. unfold tooBig. lia.
Qed.

(** Cut short anywhere, what was encoded is an error. *)
Lemma decode_cut v data i :
  encodeValue v = inr data → i < length data →
  ∃ e, decodeValue type_definition (take i data) = inl e.
Proof.
  intros E Hi. destruct (encodeValue_inv v data E) as [Hl ->]. set (body := _ ++ gob_write v) in *.
  unfold decodeValue, tooBig in *. rewrite length_app in Hi. rewrite take_app.
  destruct (decide (i < length (encodeUint (len body)))) as [Hin|Hout].
  - replace (i - length (encodeUint (len body))) with 0 by lia. rewrite take_0, app_nil_r.
    destruct (decodeUint_cut GobUnexpectedEOF (len body) i) as [e ->]; [lia|done|]. by exists e.
  - rewrite take_ge, decodeUint_encodeUint by lia. cbn [mbind sum_bind].
    rewrite decide_False by lia. rewrite decide_True; [by eexists|]. rewrite length_take. lia.
Qed.

Lemma Gob_Encode_value v : Gob_Encode v = encodeValue v.
Proof. unfold Gob_Encode, Encoder_Encode. by destruct (encodeValue v). Qed.
Lemma Gob_Decode_value data : Gob_Decode type_definition data = decodeValue type_definition data.
Proof. unfold Gob_Decode, Decoder_Decode. by destruct (decodeValue _ data). Qed.
End codec_spec.

(** ** int and string *)

#[export] Instance int_spec : GobTypeSpec Z is_int64.
Proof.
  split; [done|]. intros v rest Hv _. cbn [gob_write gob_read GobType_int].
  destruct (encodeInt_word v Hv) as (x & -> & Hx & E). rewrite decodeUint_encodeUint by done.
  cbn [mbind sum_bind]. by rewrite E.
Qed.

Lemma string_of_bytes s : string_of (bytes_of s) = s.
Proof.
  induction s as [|c s IH]; [done|]. cbn [bytes_of string_of]. rewrite IH. f_equal.
  rewrite N2Z.id. apply ascii_N_embedding.
Qed.

#[export] Instance string_spec : GobTypeSpec string (λ _, True).
Proof.
  split; [done|]. intros s rest _ Hl. cbn [gob_write gob_read GobType_string] in *.
  rewrite length_app in Hl. unfold tooBig in *. rewrite <-app_assoc, decodeUint_encodeUint by lia.
  cbn [mbind sum_bind]. rewrite decide_False by (rewrite length_app; lia).
  rewrite Nat2Z.id, take_app_length, drop_app_length. by rewrite string_of_bytes.
Qed.

(** How many bytes a value takes. *)
Lemma encodeUint_length x : (0 ≤ x < 2^64)%Z → 1 ≤ length (encodeUint x) ≤ 9.
Proof.
  intros Hx. destruct (decide (x ≤ 0x7F)%Z) as [Hs|Hs].
  { unfold encodeUint. rewrite decide_True by done. simpl. lia. }
  destruct (encodeUint_big x) as (n & Hn & _ & ->); [lia|].
  cbn [length]. rewrite length_rev, length_le_bytes. lia.
Qed.

Lemma int_fits (i : Z) : is_int64 i → ∃ data, encodeValue i = inr data.
Proof.
  intros Hi. apply (encodeValue_fits (valid := is_int64)). cbn [gob_write GobType_int].
  destruct (encodeInt_word i Hi) as (x & -> & Hx & _). pose proof (encodeUint_length x Hx).
  unfold tooBig. lia.
Qed.

Lemma string_fits (s : string) : (len (bytes_of s) < tooBig - 11)%Z → ∃ data, encodeValue s = inr data.
Proof.
  intros Hs. apply (encodeValue_fits (valid := λ _ : string, True)). cbn [gob_write GobType_string].
  pose proof (encodeUint_length (len (bytes_of s))) as Hl. rewrite length_app. unfold tooBig in *. lia.
Qed.
