(* ===== verification/Join.v ===== *)
(** * Merge joins over two cursors (examples/mergejoin/main.go)

    [mergeJoin] and [antiJoin] advance two cursors in lockstep.  What they print
    is their result: a list of pairs, for [mergeJoin] with the count [matches].
    [None] is a panic of a cursor method or running out of fuel; each iteration
    moves a cursor, so the lengths of the two snapshots are enough of it.

    [faces c ok l] is the interface to the cursors: after a move that returned
    [ok], the entries from the cursor's on are [l]. *)

From S2P Require Import Prelude Order Slices Message Node LeafMerge Flush Iterator Tree Spec Cursor.

Section join.
Context {V W : Type} `{Zero V, Zero W}.

(** [for aOk && bOk { switch .. }]. *)
Fixpoint join_loop (fuel : nat) (ca : Cursor Z V) (aOk : bool) (cb : Cursor Z W) (bOk : bool)
    (matches : Z) : option (list (Z * V) * Z) :=
  if aOk && bOk then
    match fuel with
    | 0 => None
    | S fuel =>
        ka ← c_Key ca; kb ← c_Key cb;
        if decide (ka = kb) then
          v ← c_Value ca;
          let '(ca, aOk) := Next ca in
          let '(cb, bOk) := Next cb in
          '(out, matches) ← join_loop fuel ca aOk cb bOk (matches + 1);
          Some ((ka, v) :: out, matches)
        else if decide (ka < kb)%Z then
          let '(ca, aOk) := Next ca in join_loop fuel ca aOk cb bOk matches
        else
          let '(cb, bOk) := Next cb in join_loop fuel ca aOk cb bOk matches
    end
  else Some ([], matches).

Definition mergeJoin (fuel : nat) (signups : BETree Z V) (purchases : BETree Z W)
    : option (list (Z * V) * Z) :=
  ca ← Cursor_ signups; cb ← Cursor_ purchases;
  let '(ca, aOk) := Next ca in
  let '(cb, bOk) := Next cb in
  join_loop fuel ca aOk cb bOk 0.

(** [for aOk { switch .. }]; [cb.Key()] is read only when [bOk]. *)
Fixpoint anti_loop (fuel : nat) (ca : Cursor Z V) (aOk : bool) (cb : Cursor Z W) (bOk : bool)
    : option (list (Z * V)) :=
  if aOk then
    match fuel with
    | 0 => None
    | S fuel =>
        ka ← c_Key ca;
        below_b ← (if negb bOk then Some true else kb ← c_Key cb; Some (bool_decide (ka < kb)%Z));
        if below_b : bool then
          v ← c_Value ca;
          let '(ca, aOk) := Next ca in
          out ← anti_loop fuel ca aOk cb bOk; Some ((ka, v) :: out)
        else
          kb ← c_Key cb;
          if decide (ka = kb) then
            let '(ca, aOk) := Next ca in
            let '(cb, bOk) := Next cb in anti_loop fuel ca aOk cb bOk
          else
            let '(cb, bOk) := Next cb in anti_loop fuel ca aOk cb bOk
    end
  else Some [].

Definition antiJoin (fuel : nat) (signups : BETree Z V) (purchases : BETree Z W)
    : option (list (Z * V)) :=
  ca ← Cursor_ signups; cb ← Cursor_ purchases;
  let '(ca, aOk) := Next ca in
  let '(cb, bOk) := Next cb in
  anti_loop fuel ca aOk cb bOk.

End join.

(** ** Cursors as streams *)

Section faces.
Context {K V : Type}.
Implicit Types c : Cursor K V.

Definition faces c (ok : bool) (l : list (K * V)) : Prop :=
  if ok then cursor_ok c ∧ ∃ i p, position c = Some i ∧ pairs c !! i = Some p ∧ l = p :: drop (S i) (pairs c)
  else l = [].

Lemma faces_moved c r next l :
  moved c r next → drop (default (length (pairs c)) next) (pairs c) = l →
  (∀ i, next = Some i → i < length (pairs c)) → faces r.1 r.2 l.
Proof.
  intros (Hok & Hp & _ & Hpos & E) <- Hlt. unfold faces. rewrite E. destruct next as [i|]; cbn [default].
  - rewrite bool_decide_eq_true_2 by eauto. split; [done|].
    destruct (lookup_lt_is_Some_2 (pairs c) i (Hlt i eq_refl)) as [p Hi].
    exists i, p. rewrite Hp. split_and!; try done. by apply drop_S.
  - rewrite bool_decide_eq_false_2 by (by intros []). by apply drop_ge.
Qed.

(** The first [Next] of a fresh cursor faces the whole snapshot. *)
Lemma faces_first c r : valid c = false → Next c = r → faces r.1 r.2 (pairs c).
Proof.
  intros Hv <-. assert (cursor_ok c) as Hc by (unfold cursor_ok; by rewrite Hv).
  eapply faces_moved; [by apply Next_moved|..]; unfold step_forward, position; rewrite Hv.
  - case_decide as Hlt; [done|]. cbn [default]. rewrite drop_ge by lia.
    by rewrite (nil_length_inv (pairs c)) by lia.
  - intros i. case_decide; [|done]. by intros [= <-].
Qed.

Lemma faces_key c p l : faces c true (p :: l) → c_Key c = Some p.1 ∧ c_Value c = Some p.2.
Proof.
  intros (Hok & i & p' & Hpos & Hi & E). injection E as -> _. unfold c_Key, c_Value.
  by rewrite (entry_position c i Hok Hpos), Hi.
Qed.

Lemma faces_Next c p l r : faces c true (p :: l) → Next c = r → faces r.1 r.2 l.
Proof.
  intros (Hok & i & p' & Hpos & Hi & E) <-. injection E as -> ->.
  eapply faces_moved; [by apply Next_moved|..]; unfold step_forward; rewrite Hpos.
  - case_decide as Hlt; [done|]. cbn [default]. rewrite !drop_ge by lia. done.
  - intros j. case_decide; [|done]. by intros [= <-].
Qed.

Lemma faces_ok c ok p l : faces c ok (p :: l) → ok = true.
Proof. by destruct ok. Qed.

Lemma faces_nil c ok : faces c ok [] → ok = false.
Proof. destruct ok; [|done]. intros (_ & ? & ? & _ & _ & [=]). Qed.

End faces.

(** ** What the loops compute *)

Section loops.
Context {V W : Type}.
Implicit Types (la : list (Z * V)) (lb : list (Z * W)).

(** The pairs of [la] whose key is in [lb], and the others. *)
Definition common la lb : list (Z * V) := filter (λ p, is_Some (alookup int_compare p.1 lb)) la.
Definition missing la lb : list (Z * V) := filter (λ p, alookup int_compare p.1 lb = None) la.

Lemma int_compare_eq x y : int_compare x y = 0%Z ↔ x = y.
Proof. unfold int_compare. repeat case_decide; lia. Qed.
Lemma int_compare_lt x y : (int_compare x y < 0)%Z ↔ (x < y)%Z.
Proof. unfold int_compare. repeat case_decide; lia. Qed.

(** A key below the head of a sorted run is not in it. *)
Lemma alookup_below_head k q lb :
  ksorted int_compare fst (q :: lb) → (k < q.1)%Z → alookup int_compare k (q :: lb) = None.
Proof.
  intros Hs Hk. apply alookup_hd_above; [done|]. intros p [= <-].
  apply compare_flip. by apply (proj2 (int_compare_lt _ _)).
Qed.

Lemma alookup_head k q lb : k = q.1 → alookup int_compare k (q :: lb) = Some q.2.
Proof. intros ->. destruct q as [k w]. cbn [alookup fst]. by rewrite decide_True by by apply int_compare_eq. Qed.

(** Dropping the head of [lb] does not matter to keys above it. *)
Lemma alookup_drop_head k q lb : (q.1 < k)%Z → alookup int_compare k (q :: lb) = alookup int_compare k lb.
Proof.
  intros Hk. destruct q as [k' w]. cbn [alookup fst] in *.
  rewrite decide_False; [done|]. rewrite int_compare_eq. lia.
Qed.

(** A head of [lb] that is below all of [la] does not matter. *)
Lemma skip_head (f : option W → Prop) `{∀ o, Decision (f o)} la q lb :
  Forall (λ p, q.1 < p.1)%Z la →
  filter (λ p, f (alookup int_compare p.1 (q :: lb))) la
  = filter (λ p, f (alookup int_compare p.1 lb)) la.
Proof.
  rewrite Forall_forall. intros Hall. apply filter_iff. intros p Hp.
  by rewrite alookup_drop_head by by apply Hall.
Qed.

Lemma sorted_head_lt p la k :
  ksorted int_compare fst (p :: la) → (k ≤ p.1)%Z → Forall (λ p, k < p.1)%Z la.
Proof.
  intros [Hall _]%ksorted_cons Hk. eapply Forall_impl; [exact Hall|].
  intros q Hq. apply (proj1 (int_compare_lt _ _)) in Hq. lia.
Qed.

Lemma common_nil_l lb : common [] lb = [].
Proof. done. Qed.
Lemma common_nil la : common la [] = [].
Proof. apply filter_none, Forall_forall. by intros p _ []. Qed.
Lemma missing_nil la : missing la [] = la.
Proof. apply filter_all, Forall_forall. done. Qed.

(** One step of the reference, by how the two heads compare. *)
Lemma common_step p la q lb :
  ksorted int_compare fst (p :: la) → ksorted int_compare fst (q :: lb) →
  common (p :: la) (q :: lb)
  = if decide (p.1 = q.1) then p :: common la lb
    else if decide (p.1 < q.1)%Z then common la (q :: lb) else common (p :: la) lb.
Proof.
  intros Ha Hb. unfold common. case_decide as Heq; [|case_decide as Hlt].
  - rewrite filter_cons_True by (rewrite alookup_head by done; by eexists).
    rewrite (skip_head is_Some); [done|].
    eapply sorted_head_lt; [exact Ha|]. lia.
  - rewrite filter_cons_False; [done|]. rewrite alookup_below_head by done. by intros [].
  - apply (skip_head is_Some). constructor; [lia|]. eapply sorted_head_lt; [exact Ha|]. lia.
Qed.

Lemma missing_step p la q lb :
  ksorted int_compare fst (p :: la) → ksorted int_compare fst (q :: lb) →
  missing (p :: la) (q :: lb)
  = if decide (p.1 < q.1)%Z then p :: missing la (q :: lb)
    else if decide (p.1 = q.1) then missing la lb else missing (p :: la) lb.
Proof.
  intros Ha Hb. unfold missing. case_decide as Hlt; [|case_decide as Heq].
  - rewrite filter_cons_True; [done|]. by rewrite alookup_below_head.
  - rewrite filter_cons_False by (by rewrite alookup_head).
    rewrite (skip_head (λ o, o = None)); [done|].
    eapply sorted_head_lt; [exact Ha|]. lia.
  - apply (skip_head (λ o, o = None)). constructor; [lia|]. eapply sorted_head_lt; [exact Ha|]. lia.
Qed.

(** Move a cursor that faces a pair. *)
Ltac face_next Hc :=
  match type of Hc with
  | faces ?c true _ =>
      let Hn := fresh in
      pose proof (faces_Next c _ _ (Next c) Hc eq_refl) as Hn;
      destruct (Next c) as [? ?]; cbn [fst snd] in Hn; clear Hc; rename Hn into Hc
  end.
Ltac face_head Hc :=
  let E := fresh in
  pose proof (faces_ok _ _ _ _ Hc) as E; subst;
  let Hk := fresh "Hk" in let Hv := fresh "Hv" in
  destruct (faces_key _ _ _ Hc) as [Hk Hv].

Lemma join_loop_spec fuel ca aOk cb bOk matches la lb :
  ksorted int_compare fst la → ksorted int_compare fst lb →
  faces ca aOk la → faces cb bOk lb → length la + length lb ≤ fuel →
  join_loop fuel ca aOk cb bOk matches
  = Some (common la lb, matches + len (common la lb))%Z.
Proof.
  revert ca aOk cb bOk matches la lb.
  induction fuel as [|fuel IH]; intros ca aOk cb bOk matches la lb Ha Hb Fa Fb Hf.
  all: destruct la as [|p la]; [by rewrite (faces_nil _ _ Fa), common_nil_l, Z.add_0_r|].
  all: destruct lb as [|q lb];
    [by rewrite (faces_nil _ _ Fb), common_nil, Z.add_0_r; cbn [join_loop]; rewrite andb_false_r|].
  { cbn in Hf. lia. }
  face_head Fa. face_head Fb. cbn [join_loop andb]. rewrite Hk, Hk0. cbn [mbind option_bind].
  rewrite common_step by done.
  pose proof (proj2 (proj1 (ksorted_cons _ _ _) Ha)) as Ha'.
  pose proof (proj2 (proj1 (ksorted_cons _ _ _) Hb)) as Hb'. cbn [length] in Hf.
  case_decide as Heq; [|case_decide].
  - rewrite Hv. cbn [mbind option_bind]. face_next Fa. face_next Fb.
    erewrite IH; [|done..|lia]. cbn [mbind option_bind]. destruct p. do 2 f_equal. cbn [length]. lia.
  - face_next Fa. apply IH; try done. cbn [length]. lia.
  - face_next Fb. apply IH; try done. cbn [length]. lia.
Qed.

Lemma anti_loop_spec fuel ca aOk cb bOk la lb :
  ksorted int_compare fst la → ksorted int_compare fst lb →
  faces ca aOk la → faces cb bOk lb → length la + length lb ≤ fuel →
  anti_loop fuel ca aOk cb bOk = Some (missing la lb).
Proof.
  revert ca aOk cb bOk la lb.
  induction fuel as [|fuel IH]; intros ca aOk cb bOk la lb Ha Hb Fa Fb Hf.
  all: destruct la as [|p la]; [by rewrite (faces_nil _ _ Fa) in *|].
  { cbn in Hf. lia. }
  face_head Fa. cbn [anti_loop]. rewrite Hk. cbn [mbind option_bind].
  pose proof (proj2 (proj1 (ksorted_cons _ _ _) Ha)) as Ha'. cbn [length] in Hf.
  destruct lb as [|q lb].
  { rewrite (faces_nil _ _ Fb) in *. rewrite missing_nil. cbn [negb mbind option_bind].
    rewrite Hv. cbn [mbind option_bind]. face_next Fa.
    erewrite IH; [|done..|lia]. cbn. rewrite missing_nil. by destruct p. }
  face_head Fb. pose proof (proj2 (proj1 (ksorted_cons _ _ _) Hb)) as Hb'.
  rewrite Hk0. cbn [negb mbind option_bind]. rewrite missing_step by done.
  destruct (decide (p.1 < q.1)%Z) as [Hlt|];
    [rewrite bool_decide_eq_true_2 by done|rewrite bool_decide_eq_false_2 by done; case_decide].
  - rewrite Hv. cbn [mbind option_bind]. face_next Fa.
    rewrite (IH _ _ _ _ la (q :: lb)); [|done..|cbn [length] in *; lia]. cbn. by destruct p.
  - face_next Fa. face_next Fb. apply IH; try done. cbn [length] in Hf. lia.
  - face_next Fb. apply IH; try done. cbn [length] in *. lia.
Qed.

(** Both programs start by moving two fresh cursors. *)
Lemma Cursor_faces {X} `{Zero X} (t : BETree Z X) :
  tree_ok t → cmp t = int_compare →
  ∃ c pairs, Cursor_ t = Some c ∧ All t = Some (Ascending pairs) ∧ ksorted int_compare fst pairs
    ∧ (∀ k, alookup int_compare k pairs = lookup t k) ∧ faces (Next c).1 (Next c).2 pairs.
Proof.
  intros Hok Hc. destruct (ok_wf t Hok) as [h Hwf].
  destruct (materializeAll_spec t h (ok_cmp t Hok) Hwf) as (pairs & E & [S1 _ S3]).
  rewrite Hc in *. exists (mkCursor pairs 0 false int_compare), pairs.
  unfold Cursor_, All. rewrite E, Hc. cbn [mbind option_bind]. split_and!; try done.
  - intros k. rewrite S3. unfold lookup. by rewrite Hc, decide_True.
  - by apply (faces_first (mkCursor pairs 0 false int_compare)).
Qed.

End loops.
