(* ===== verification/Concurrent.v ===== *)
(** * Goroutines sharing a tree (the mutex [t.mu] of tree.go)

    Every exported method holds [t.mu] for its whole body, by [Lock] or by [RLock]
    ([mu_of], one definition per method); an iterator or a cursor holds it while it takes its
    snapshot and the consumer runs afterwards, on the snapshot.  The other files
    treat a method as one step.  This file justifies it.

    A goroutine is a list of calls.  A call acquires the lock, starts its body
    (reading the tree), ends its body (writing the tree; here its result is
    determined), and releases the lock; the steps of different
    goroutines interleave freely.  Every body, a reader's too, ends by storing the
    tree it made: if two bodies overlapped of which one changes the tree, the one to
    end last would overwrite the other's: nothing but the lock prevents it.  [sched]
    is the step of a chosen goroutine, an executable function that is [None] when
    the goroutine is blocked or has finished; [step] is the relation of any
    goroutine's step.

    [rwmutex] is [sync.RWMutex]: a count of readers and the state of the writer.
    [Lock] takes two steps: a writer announces itself, which needs that no other
    writer has, and from then on holds back new readers; it is granted the lock
    when the last reader has left.  Go lets the readers that waited for a writer
    in before the next writer; here either may come first.

    [inv] is the invariant: the lock's fields count the goroutines that wait for
    it and hold it, a body in progress still sees the tree it started from, and
    the calls in the order their bodies ended are a sequential history of the
    tree. *)

From S2P Require Import Prelude Order Slices Message Node LeafMerge Flush Iterator Tree Spec.

(** ** sync.RWMutex *)

Inductive wstate := WFree | WPending | WHeld.
#[export] Instance wstate_eq_dec : EqDecision wstate.
Proof. solve_decision. Defined.

Record rwmutex := mkRWMutex { readers : nat; writer : wstate }.

Definition RLock (m : rwmutex) : option rwmutex :=
  if decide (writer m = WFree) then Some (mkRWMutex (S (readers m)) WFree) else None.
Definition RUnlock (m : rwmutex) : option rwmutex :=
  match readers m with 0 => None | S n => Some (mkRWMutex n (writer m)) end.
Definition Lock_announce (m : rwmutex) : option rwmutex :=
  if decide (writer m = WFree) then Some (mkRWMutex (readers m) WPending) else None.
Definition Lock_grant (m : rwmutex) : option rwmutex :=
  if decide (writer m = WPending ∧ readers m = 0) then Some (mkRWMutex 0 WHeld) else None.
Definition Unlock (m : rwmutex) : option rwmutex :=
  if decide (writer m = WHeld) then Some (mkRWMutex (readers m) WFree) else None.

(** [r] readers and [w] writers hold the lock and [p] writers wait for it. *)
Definition held (m : rwmutex) : Z := match writer m with WHeld => 1 | _ => 0 end.
Definition announced (m : rwmutex) : Z := match writer m with WPending => 1 | _ => 0 end.
Definition lock_is (m : rwmutex) (r w p : Z) : Prop :=
  Z.of_nat (readers m) = r ∧ held m = w ∧ announced m = p ∧ (w = 1 → r = 0)%Z.

Ltac lock_step m :=
  unfold RLock, RUnlock, Lock_announce, Lock_grant, Unlock, lock_is, held, announced;
  destruct m as [[|?] []]; cbn;
  repeat (case_decide; cbn);
  first [done | intros [= <-] (? & ? & ? & ?); cbn; intuition (congruence || lia)].

Lemma RLock_spec m m' r w p : RLock m = Some m' → lock_is m r w p → lock_is m' (r + 1) w p.
Proof. lock_step m. Qed.
Lemma RUnlock_spec m m' r w p : RUnlock m = Some m' → lock_is m r w p → lock_is m' (r - 1) w p.
Proof. lock_step m. Qed.
Lemma Lock_announce_spec m m' r w p :
  Lock_announce m = Some m' → lock_is m r w p → lock_is m' r w (p + 1).
Proof. lock_step m. Qed.
Lemma Lock_grant_spec m m' r w p :
  Lock_grant m = Some m' → lock_is m r w p → lock_is m' r (w + 1) (p - 1).
Proof. lock_step m. Qed.
Lemma Unlock_spec m m' r w p : Unlock m = Some m' → lock_is m r w p → lock_is m' r (w - 1) p.
Proof. lock_step m. Qed.

(** ** Goroutines *)

(** The first step of acquiring the lock, and releasing it. *)
Definition acquire {K V} (o : op K V) (m : rwmutex) : option rwmutex :=
  if is_write o then Lock_announce m else RLock m.
Definition release {K V} (o : op K V) (m : rwmutex) : option rwmutex :=
  if is_write o then Unlock m else RUnlock m.

Inductive phase (K V : Type) :=
| Idle
| Waiting (o : op K V)
| Locked (o : op K V)
| Running (o : op K V) (t0 : BETree K V)
| Ended (o : op K V) (r : result K V).
Arguments Idle {K V}.
Arguments Waiting {K V}.
Arguments Locked {K V}.
Arguments Running {K V}.
Arguments Ended {K V}.

Record goroutine (K V : Type) := mkGo {
  todo : list (op K V);
  ph : phase K V;
  returned : list (result K V)
}.
Arguments mkGo {K V}.
Arguments todo {K V}.
Arguments ph {K V}.
Arguments returned {K V}.

(** The shared state.  [hist] records each call when its body ends. *)
Record conf (K V : Type) := mkConf {
  mem : BETree K V;
  mu : rwmutex;
  gos : list (goroutine K V);
  hist : list (nat * op K V * result K V)
}.
Arguments mkConf {K V}.
Arguments mem {K V}.
Arguments mu {K V}.
Arguments gos {K V}.
Arguments hist {K V}.

Section concurrent.
Context {K V : Type} `{Zero K, Zero V}.
Implicit Types (c : conf K V) (g : goroutine K V) (o : op K V).

(** Goroutine [i] takes a step. *)
Definition sched c (i : nat) : option (conf K V) :=
  g ← gos c !! i;
  match ph g with
  | Idle =>
      match todo g with
      | [] => None
      | o :: os =>
          m ← acquire o (mu c);
          let p := if is_write o then Waiting o else Locked o in
          Some (mkConf (mem c) m (<[i := mkGo os p (returned g)]> (gos c)) (hist c))
      end
  | Waiting o =>
      m ← Lock_grant (mu c);
      Some (mkConf (mem c) m (<[i := mkGo (todo g) (Locked o) (returned g)]> (gos c)) (hist c))
  | Locked o =>
      Some (mkConf (mem c) (mu c)
              (<[i := mkGo (todo g) (Running o (mem c)) (returned g)]> (gos c)) (hist c))
  | Running o t0 =>
      '(t', r) ← exec t0 o;
      Some (mkConf t' (mu c)
              (<[i := mkGo (todo g) (Ended o r) (returned g)]> (gos c)) (hist c ++ [(i, o, r)]))
  | Ended o r =>
      m ← release o (mu c);
      Some (mkConf (mem c) m (<[i := mkGo (todo g) Idle (returned g ++ [r])]> (gos c)) (hist c))
  end.
Definition step c c' : Prop := ∃ i, sched c i = Some c'.

Definition start (t : BETree K V) (progs : list (list (op K V))) : conf K V :=
  mkConf t (mkRWMutex 0 WFree) ((λ os, mkGo os Idle []) <$> progs) [].
Definition finished c : Prop := Forall (λ g, todo g = [] ∧ ph g = Idle) (gos c).

(** The call a goroutine is in, past the lock. *)
Definition current g : option (op K V) :=
  match ph g with Idle | Waiting _ => None | Locked o | Running o _ | Ended o _ => Some o end.
(** The call changes some tree, whatever lock its method takes. *)
Definition mutates o : Prop := ∃ t t' r, exec t o = Some (t', r) ∧ t' ≠ t.
(** Two goroutines are in calls of which one changes trees. *)
Definition conflict c : Prop := ∃ i j gi gj oi oj,
  i ≠ j ∧ gos c !! i = Some gi ∧ gos c !! j = Some gj
  ∧ current gi = Some oi ∧ current gj = Some oj ∧ mutates oi.

(** The calls of [i] in the history. *)
Definition of_goroutine (i : nat) c : list (op K V * result K V) :=
  (λ e, (e.1.2, e.2)) <$> filter (λ e : nat * op K V * result K V, e.1.1 = i) (hist c).

Definition write_in g : Z := if current g is Some o then if is_write o then 1 else 0 else 0.
Definition read_in g : Z := if current g is Some o then if is_write o then 0 else 1 else 0.
Definition wait_in g : Z := if ph g is Waiting _ then 1 else 0.

(** What a goroutine has been told and has still to do agree with the history. *)
Definition consistent (prog : list (op K V)) c (i : nat) g : Prop :=
  let past := of_goroutine i c in
  match ph g with
  | Idle => past.*1 ++ todo g = prog ∧ past.*2 = returned g
  | Waiting o => past.*1 ++ o :: todo g = prog ∧ past.*2 = returned g ∧ is_write o = true
  | Locked o => past.*1 ++ o :: todo g = prog ∧ past.*2 = returned g
  | Running o t0 => past.*1 ++ o :: todo g = prog ∧ past.*2 = returned g ∧ t0 = mem c
  | Ended o r => past.*1 ++ todo g = prog ∧ past.*2 = returned g ++ [r]
                 ∧ ∃ past', past.*1 = past' ++ [o]
  end.

Record inv (t : BETree K V) (progs : list (list (op K V))) c : Prop := {
  inv_lock : lock_is (mu c) (sum_of read_in (gos c)) (sum_of write_in (gos c)) (sum_of wait_in (gos c));
  inv_hist : exec_all t (hist c).*1.*2 = Some (mem c, (hist c).*2);
  inv_length : length (gos c) = length progs;
  inv_callers : Forall (λ e, e.1.1 < length progs) (hist c);
  inv_progs i g prog : gos c !! i = Some g → progs !! i = Some prog → consistent prog c i g
}.

(** ** Counting *)

Lemma sum_of_insert {A} (f : A → Z) l i x y :
  l !! i = Some x → sum_of f (<[i := y]> l) = (sum_of f l - f x + f y)%Z.
Proof.
  intros Hi. rewrite <-(take_drop_middle l i x Hi) at 2.
  rewrite insert_take_drop by (by eapply lookup_lt_Some). rewrite !sum_of_middle. lia.
Qed.

Lemma sum_of_zero {A} (f : A → Z) l : Forall (λ x, f x = 0%Z) l → sum_of f l = 0%Z.
Proof. unfold sum_of. induction 1 as [|x l Hx _ IH]; [done|]. cbn [foldr]. by rewrite Hx, IH. Qed.

Lemma sum_of_elem {A} (f : A → Z) l i x :
  (∀ a, 0 ≤ f a)%Z → l !! i = Some x → (f x ≤ sum_of f l)%Z.
Proof.
  intros Hf Hi. rewrite <-(take_drop_middle l i x Hi), sum_of_middle.
  pose proof (sum_of_nonneg f (take i l) Hf). pose proof (sum_of_nonneg f (drop (S i) l) Hf). lia.
Qed.

Lemma sum_of_two {A} (f : A → Z) l i j x y :
  (∀ a, 0 ≤ f a)%Z → i ≠ j → l !! i = Some x → l !! j = Some y → (f x + f y ≤ sum_of f l)%Z.
Proof.
  intros Hf Hij Hi Hj. rewrite <-(take_drop_middle l i x Hi), sum_of_middle.
  pose proof (sum_of_nonneg f (take i l) Hf). pose proof (sum_of_nonneg f (drop (S i) l) Hf).
  destruct (decide (j < i)).
  - pose proof (sum_of_elem f (take i l) j y Hf). rewrite lookup_take_lt in * by lia. naive_solver lia.
  - pose proof (sum_of_elem f (drop (S i) l) (j - S i) y Hf). rewrite lookup_drop in *.
    replace (S i + (j - S i)) with j in * by lia. naive_solver lia.
Qed.

Lemma write_in_nonneg g : (0 ≤ write_in g)%Z.
Proof. unfold write_in. repeat case_match; lia. Qed.
Lemma read_in_nonneg g : (0 ≤ read_in g)%Z.
Proof. unfold read_in. repeat case_match; lia. Qed.

Lemma wait_in_nonneg g : (0 ≤ wait_in g)%Z.
Proof. unfold wait_in. repeat case_match; lia. Qed.

(** A goroutine that writes is alone with the lock. *)
Lemma inv_alone t progs c i j gi gj o :
  inv t progs c → i ≠ j → gos c !! i = Some gi → gos c !! j = Some gj →
  current gi = Some o → is_write o = true → current gj = None.
Proof.
  intros HI Hij Hi Hj Hc Hw. destruct (current gj) as [o'|] eqn:Ej; [|done]. exfalso.
  pose proof (sum_of_two write_in (gos c) i j gi gj write_in_nonneg Hij Hi Hj) as H1.
  pose proof (sum_of_elem read_in (gos c) j gj read_in_nonneg Hj) as H2.
  destruct (inv_lock _ _ _ HI) as (_ & Hwp & _ & Hx).
  assert (sum_of write_in (gos c) ≤ 1)%Z as H3 by (rewrite <-Hwp; unfold held; destruct (writer (mu c)); lia).
  assert (write_in gi = 1)%Z as H4 by (unfold write_in; by rewrite Hc, Hw).
  assert (write_in gj + read_in gj = 1)%Z as H5 by (unfold write_in, read_in; rewrite Ej; by destruct (is_write o')).
  pose proof (write_in_nonneg gj). lia.
Qed.

(** A method that changes a tree takes [t.mu.Lock]. *)
Lemma mutates_write o : mutates o → is_write o = true.
Proof.
  intros (t & t' & r & E & Ht). destruct (is_write o) eqn:Hw; [done|].
  destruct Ht. by eapply exec_read.
Qed.

Lemma inv_no_conflict t progs c : inv t progs c → ¬ conflict c.
Proof.
  intros HI (i & j & gi & gj & oi & oj & Hij & Hi & Hj & Ci & Cj & Hw%mutates_write).
  by rewrite (inv_alone t progs c i j gi gj oi) in Cj.
Qed.

(** The tree a body started from is the tree it ends on. *)
Lemma inv_undisturbed t progs c i g o t0 :
  inv t progs c → gos c !! i = Some g → ph g = Running o t0 → t0 = mem c.
Proof.
  intros HI Hi Hp. destruct (lookup_lt_is_Some_2 progs i) as [prog Hprog].
  { rewrite <-(inv_length _ _ _ HI). by eapply lookup_lt_Some. }
  pose proof (inv_progs _ _ _ HI i g prog Hi Hprog) as Hc. unfold consistent in Hc. rewrite Hp in Hc. tauto.
Qed.

(** ** Preservation *)

Lemma exec_all_snoc t t1 t2 os rs o r :
  exec_all t os = Some (t1, rs) → exec t1 o = Some (t2, r) →
  exec_all t (os ++ [o]) = Some (t2, rs ++ [r]).
Proof.
  revert t rs. induction os as [|o1 os IH]; intros t rs E1 E2; cbn [exec_all app] in *.
  - injection E1 as <- <-. by rewrite E2.
  - destruct (exec t o1) as [[t3 r1]|]; [|done]. cbn [mbind option_bind] in *.
    destruct (exec_all t3 os) as [[t4 rs4]|] eqn:E3; [|done]. injection E1 as -> <-.
    by rewrite (IH t3 rs4).
Qed.

Lemma of_goroutine_snoc i j o r c c' :
  hist c' = hist c ++ [(j, o, r)] →
  of_goroutine i c' = of_goroutine i c ++ (if decide (i = j) then [(o, r)] else []).
Proof.
  intros E. unfold of_goroutine. rewrite E, filter_app, fmap_app. f_equal.
  rewrite filter_cons. cbn. repeat case_decide; congruence || done.
Qed.

Lemma start_inv t progs : inv t progs (start t progs).
Proof.
  assert (∀ f : goroutine K V → Z, (∀ os, f (mkGo os Idle []) = 0%Z) →
    sum_of f ((λ os, mkGo os Idle []) <$> progs) = 0%Z) as Hz.
  { intros f Hf. by apply sum_of_zero, Forall_fmap, Forall_true. }
  split; cbn [start mu gos readers writer mem hist]; try done.
  - by rewrite !Hz.
  - by rewrite length_fmap.
  - intros i g prog Hg Hp. rewrite list_lookup_fmap, Hp in Hg. by injection Hg as <-.
Qed.

(** The part of the invariant about the other goroutines: their share of the
    history stays, and so does the tree unless they are alone. *)
Lemma consistent_other prog c c' j g :
  of_goroutine j c' = of_goroutine j c → (mem c' = mem c ∨ current g = None) →
  consistent prog c j g → consistent prog c' j g.
Proof.
  intros Hh Hm. unfold consistent, current in *. rewrite Hh.
  destruct (ph g); [done|done|done| |done]. by destruct Hm as [->|].
Qed.

(** A step of goroutine [i]: what is left to check. *)
Lemma inv_update t progs c c' i g g' :
  inv t progs c → gos c !! i = Some g → gos c' = <[i := g']> (gos c) →
  (∀ r w p, lock_is (mu c) r w p →
     lock_is (mu c') (r + (read_in g' - read_in g)) (w + (write_in g' - write_in g))
       (p + (wait_in g' - wait_in g))) →
  exec_all t (hist c').*1.*2 = Some (mem c', (hist c').*2) →
  Forall (λ e, e.1.1 < length progs) (hist c') →
  (∀ prog, consistent prog c i g → consistent prog c' i g') →
  (∀ j gj, i ≠ j → gos c !! j = Some gj →
     of_goroutine j c' = of_goroutine j c ∧ (mem c' = mem c ∨ current gj = None)) →
  inv t progs c'.
Proof.
  intros HI Hi Eg Hlock Hh Hf Hg Ho. split; try done.
  - rewrite Eg, !(sum_of_insert _ _ _ g) by done. rewrite <-!Z.add_sub_swap, <-!Z.add_sub_assoc.
    apply Hlock, HI.
  - rewrite Eg, length_insert. apply HI.
  - intros j gj prog Hj Hp. rewrite Eg in Hj. destruct (decide (i = j)) as [<-|Hij].
    + rewrite list_lookup_insert_eq in Hj by (by eapply lookup_lt_Some). injection Hj as <-.
      apply Hg. by apply (inv_progs _ _ _ HI).
    + rewrite list_lookup_insert_ne in Hj by done. destruct (Ho j gj Hij Hj).
      eapply consistent_other; [done..|]. by apply (inv_progs _ _ _ HI).
Qed.

(** The lock when a call enters or leaves it. *)
Lemma acquire_spec o m m' r w p :
  acquire o m = Some m' → lock_is m r w p →
  lock_is m' (r + if is_write o then 0 else 1) w (p + if is_write o then 1 else 0).
Proof.
  unfold acquire. destruct (is_write o); rewrite Z.add_0_r; [apply Lock_announce_spec|apply RLock_spec].
Qed.
Lemma release_spec o m m' r w p :
  release o m = Some m' → lock_is m r w p →
  lock_is m' (r - if is_write o then 0 else 1) (w - if is_write o then 1 else 0) p.
Proof.
  unfold release. destruct (is_write o); rewrite Z.sub_0_r; [apply Unlock_spec|apply RUnlock_spec].
Qed.

(** The lock's part of a step: the counts change as the lock does. *)
Lemma lock_is_eq m r w p r' w' p' : lock_is m r w p → r = r' → w = w' → p = p' → lock_is m r' w' p'.
Proof. by intros ? <- <- <-. Qed.
Ltac lock_part H :=
  intros r1 w1 p1 Hl; cbn [mu];
  first [eapply lock_is_eq; [eapply H; eassumption|..] | eapply lock_is_eq; [exact Hl|..]];
  unfold read_in, write_in, wait_in, current in *; cbn [ph] in *; repeat match goal with |- context [is_write ?o] => destruct (is_write o) eqn:? end;
  repeat case_match; simplify_eq; lia.

(** The end of a body: the call joins the history. *)
Lemma inv_end t progs c i os o t0 rs t' r :
  inv t progs c → gos c !! i = Some (mkGo os (Running o t0) rs) → exec t0 o = Some (t', r) →
  inv t progs (mkConf t' (mu c)
                 (<[i := mkGo os (Ended o r) rs]> (gos c)) (hist c ++ [(i, o, r)])).
Proof.
  intros HI Hi Er. destruct (lookup_lt_is_Some_2 progs i) as [prog0 Hp].
  { rewrite <-(inv_length _ _ _ HI). by eapply lookup_lt_Some. }
  pose proof (inv_undisturbed t progs c i _ o t0 HI Hi eq_refl) as ->.
  eapply inv_update; try done; cbn [mu hist mem].
  - lock_part True.
  - rewrite !fmap_app. eapply exec_all_snoc; [apply HI|done].
  - apply Forall_app. split; [apply HI|]. constructor; [|done]. by eapply lookup_lt_Some.
  - intros prog (Hc1 & Hc2 & _). unfold consistent. cbn [ph todo returned].
    rewrite (of_goroutine_snoc i i o r c), decide_True, !fmap_app by done. cbn [fmap list_fmap fst snd].
    rewrite <-app_assoc. split_and!; [done|by rewrite Hc2|by eexists].
  - intros j gj Hij Hj. rewrite (of_goroutine_snoc j i o r c), decide_False, app_nil_r by (done || congruence).
    split; [done|]. destruct (is_write o) eqn:Hw; [right|left; by eapply exec_read].
    by eapply (inv_alone t progs c i j).
Qed.

Lemma inv_sched t progs c i c' : inv t progs c → sched c i = Some c' → inv t progs c'.
Proof.
  intros HI E. pose proof (inv_hist _ _ _ HI) as Hh. pose proof (inv_callers _ _ _ HI) as Hf. unfold sched in E.
  destruct (gos c !! i) as [[os p rs]|] eqn:Hi; [|done]. cbn [mbind option_bind ph todo returned] in E.
  destruct p as [|o|o|o t0|o r]; [destruct os as [|o os]; [done|]|..];
    try (apply bind_Some in E as (m & Em & [= <-])); simplify_eq.
  - eapply inv_update; try done; [lock_part acquire_spec| |by auto].
    intros prog [? ?]. unfold consistent. cbn [ph]. destruct (is_write o) eqn:?; by split_and!.
  - destruct (lookup_lt_is_Some_2 progs i) as [prog0 Hp].
    { rewrite <-(inv_length _ _ _ HI). by eapply lookup_lt_Some. }
    destruct (inv_progs _ _ _ HI i _ prog0 Hi Hp) as (_ & _ & Hw).
    eapply inv_update; try done; [lock_part Lock_grant_spec| |by auto].
    intros prog (? & ? & _). by split_and!.
  - eapply inv_update; try done; [lock_part True| |by auto].
    intros prog [? ?]. by split_and!.
  - apply bind_Some in E as ([t' r] & Er & [= <-]). by apply (inv_end t progs c i os o t0 rs).
  - eapply inv_update; try done; [lock_part release_spec| |by auto].
    intros prog (? & ? & _). by split_and!.
Qed.

Lemma inv_reachable t progs c : rtc step (start t progs) c → inv t progs c.
Proof.
  revert c. apply (rtc_ind_r (inv t progs)); [apply start_inv|].
  intros c c' _ [i Hi] HI. by eapply inv_sched.
Qed.

(** ** Progress and termination *)

(** The most steps goroutine [g] has still to take. *)
Definition weight g : Z :=
  (5 * len (todo g) + match ph g with
                      | Idle => 0 | Waiting _ => 4 | Locked _ => 3 | Running _ _ => 2 | Ended _ _ => 1
                      end)%Z.

Lemma weight_nonneg g : (0 ≤ weight g)%Z.
Proof. unfold weight. case_match; lia. Qed.

Lemma weight_start t progs :
  sum_of weight (gos (start t progs)) = (5 * sum_of (λ os, len os) progs)%Z.
Proof.
  cbn [start gos]. induction progs as [|os progs IH]; [done|].
  unfold sum_of in *. rewrite fmap_cons. cbn [foldr]. rewrite IH. unfold weight. cbn [todo ph]. lia.
Qed.

(** Goroutine [i]'s step changes its own entry only. *)
Lemma sched_gos c i c' :
  sched c i = Some c' → ∃ g g', gos c !! i = Some g ∧ gos c' = <[i := g']> (gos c) ∧ (weight g' < weight g)%Z.
Proof.
  unfold sched. destruct (gos c !! i) as [[os p rs]|] eqn:Hi; [|done].
  cbn [mbind option_bind ph todo returned]. intros E. exists (mkGo os p rs).
  destruct p as [|o|o|o t0|o r]; [destruct os as [|o os]; [done|]|..];
    try apply bind_Some in E as (m & _ & E); try destruct m as [? ?]; injection E as <-; eexists;
    (split_and!; [done..|]); unfold weight; cbn [todo ph length]; try destruct (is_write o); lia.
Qed.

Lemma sched_weight c i c' :
  sched c i = Some c' → (sum_of weight (gos c') < sum_of weight (gos c))%Z.
Proof.
  intros (g & g' & Hi & -> & Hw)%sched_gos. rewrite (sum_of_insert _ _ _ g) by done. lia.
Qed.

Lemma nsteps_weight n c c' :
  nsteps step n c c' → (sum_of weight (gos c') + Z.of_nat n ≤ sum_of weight (gos c))%Z.
Proof.
  induction 1 as [|n c1 c2 c3 [i Hi] _ IH]; [lia|]. pose proof (sched_weight _ _ _ Hi). lia.
Qed.

(** A goroutine past the lock can take a step. *)
Lemma progress_current t progs c l i g o :
  refines t l → inv t progs c → gos c !! i = Some g → current g = Some o → ∃ c', sched c i = Some c'.
Proof.
  intros HR HI Hi Ho. unfold sched. rewrite Hi. cbn [mbind option_bind].
  destruct (lookup_lt_is_Some_2 progs i) as [prog Hp].
  { rewrite <-(inv_length _ _ _ HI). by eapply lookup_lt_Some. }
  pose proof (inv_progs _ _ _ HI i g prog Hi Hp) as Hc. unfold consistent, current in *.
  destruct (ph g) as [|o1|o1|o1 t0|o1 r] eqn:Hph; [done|done|by eexists|..].
  - destruct Hc as (_ & _ & Hm). subst t0.
    destruct (exec_all_steps t l (hist c).*1.*2 HR) as (t' & rs & E & HR' & _).
    rewrite (inv_hist _ _ _ HI) in E. injection E as <- <-.
    destruct (exec_step (mem c) _ o1 HR') as (t2 & r & E & _). rewrite E. by eexists.
  - assert (∃ m, release o1 (mu c) = Some m) as [m ->]; [|by eexists].
    pose proof (sum_of_elem write_in (gos c) i g write_in_nonneg Hi) as H1.
    pose proof (sum_of_elem read_in (gos c) i g read_in_nonneg Hi) as H2.
    destruct (inv_lock _ _ _ HI) as (Hr & Hw & _ & _). rewrite <-Hw in H1. rewrite <-Hr in H2.
    unfold write_in, read_in, current, held, release, Unlock, RUnlock in *. rewrite Hph in *.
    destruct (is_write o1), (writer (mu c)), (readers (mu c)); try lia; by eexists.
Qed.

#[local] Instance ph_idle_dec g : Decision (ph g = Idle).
Proof. destruct (ph g); (by left) || (by right). Defined.

Lemma find_go c (P : goroutine K V → Prop) `{!∀ g, Decision (P g)} :
  Forall P (gos c) ∨ ∃ i g, gos c !! i = Some g ∧ ¬ P g.
Proof.
  destruct (decide (Forall P (gos c))) as [|Hn]; [by left|right].
  apply not_Forall_Exists, Exists_exists in Hn as (g & Hg & Ht); [|apply _].
  apply list_elem_of_lookup in Hg as [i Hi]. by exists i, g.
Qed.

(** Unless all have finished, some goroutine can take a step: whoever is past
    the lock goes on; if nobody is, the lock is free for the writer that waits,
    and if none waits for anyone who has a call to make. *)
Lemma inv_progress t progs c l :
  refines t l → inv t progs c → finished c ∨ ∃ i c', sched c i = Some c'.
Proof.
  intros HR HI. destruct (inv_lock _ _ _ HI) as (Hr & Hw & Hp & _).
  destruct (find_go c (λ g, current g = None)) as [Hno|(i & g & Hi & Hg)].
  2:{ right. exists i. destruct (current g) as [o|] eqn:Ho; [|done]. by eapply progress_current. }
  rewrite sum_of_zero in Hr, Hw by (eapply Forall_impl; [exact Hno|]; intros g E; unfold read_in, write_in; by rewrite E).
  assert (readers (mu c) = 0) as Hr0 by lia.
  destruct (find_go c (λ g, ph g = Idle)) as [Hidle|(i & g & Hi & Hg)].
  - rewrite sum_of_zero in Hp by (eapply Forall_impl; [exact Hidle|]; intros g E; unfold wait_in; by rewrite E).
    destruct (find_go c (λ g, todo g = [])) as [Hdone|(i & g & Hi & Hg)].
    { left. unfold finished. apply Forall_forall. intros g Hg. rewrite Forall_forall in Hdone, Hidle. by auto. }
    right. exists i. unfold sched. rewrite Hi. cbn [mbind option_bind].
    rewrite (Forall_lookup_1 _ _ _ _ Hidle Hi). destruct (todo g) as [|o os]; [done|].
    unfold acquire, Lock_announce, RLock, held, announced in *.
    destruct (writer (mu c)); [|done..]. rewrite decide_True by done. destruct (is_write o); by eexists.
  - right. exists i. pose proof (Forall_lookup_1 _ _ _ _ Hno Hi) as Hc. unfold current in Hc.
    destruct (ph g) eqn:Hph; try done. unfold sched. rewrite Hi. cbn [mbind option_bind]. rewrite Hph.
    pose proof (sum_of_elem wait_in (gos c) i g wait_in_nonneg Hi) as H1. rewrite <-Hp in H1.
    unfold wait_in, held, announced, Lock_grant in *. rewrite Hph in H1.
    destruct (writer (mu c)) eqn:Ew; [lia| |lia]. rewrite decide_True by done. by eexists.
Qed.

(** From any reachable state the goroutines can be run to the end. *)
Lemma inv_completes t progs l c :
  refines t l → inv t progs c → ∃ c', rtc step c c' ∧ finished c' ∧ inv t progs c'.
Proof.
  intros HR. assert (sum_of weight (gos c) ≤ Z.of_nat (Z.to_nat (sum_of weight (gos c))))%Z as En by lia.
  revert En. generalize (Z.to_nat (sum_of weight (gos c))) as n. intros n. revert c.
  induction n as [|n IH]; intros c En HI;
    (destruct (inv_progress t progs c l HR HI) as [Hf|(i & c1 & Hi)]; [by exists c|]);
    pose proof (sched_weight c i c1 Hi) as Hw;
    pose proof (sum_of_nonneg weight (gos c1) weight_nonneg); [lia|].
  destruct (IH c1) as (c' & Hr & Hf & HI'); [lia|by eapply inv_sched|].
  exists c'. split_and!; try done. eapply rtc_l; [by exists i|done].
Qed.

(** A goroutine that has finished was told the result of each of its calls. *)
Lemma finished_returned t progs c i g prog :
  inv t progs c → finished c → gos c !! i = Some g → progs !! i = Some prog →
  of_goroutine i c = zip prog (returned g) ∧ length (returned g) = length prog.
Proof.
  intros HI Hf Hi Hp. pose proof (inv_progs _ _ _ HI i g prog Hi Hp) as Hc.
  destruct (Forall_lookup_1 _ _ _ _ Hf Hi) as [Ht Hph]. unfold consistent in Hc. rewrite Ht, Hph, app_nil_r in Hc.
  destruct Hc as [<- <-]. rewrite !length_fmap. split; [|done]. by rewrite zip_fst_snd.
Qed.

(** The calls of a finished run, in the order of their bodies, are those of the
    programs in some order. *)
Lemma by_caller {A} n (h : list (nat * A)) :
  Forall (λ e, e.1 < n) h → h.*2 ≡ₚ concat ((λ i, (filter (λ e, e.1 = i) h).*2) <$> seq 0 n).
Proof.
  induction 1 as [|[i a] h Hi _ IH].
  { induction (seq 0 n) as [|? ? IH]; [done|]. by rewrite fmap_cons. }
  cbn [fmap list_fmap snd]. rewrite IH. cbn [fst] in Hi.
  rewrite <-(take_drop i (seq 0 n)), take_seq, drop_seq, Nat.min_l, Nat.add_0_l by lia.
  destruct (n - i) as [|m] eqn:Em; [lia|]. cbn [seq]. rewrite !fmap_app, !fmap_cons, !concat_app.
  rewrite filter_cons_True by done. cbn [concat fmap list_fmap snd app].
  rewrite <-Permutation_middle. f_equiv.
  assert (∀ l : list nat, i ∉ l → (λ j, (filter (λ e : nat * A, e.1 = j) ((i, a) :: h)).*2) <$> l
                       = (λ j, (filter (λ e, e.1 = j) h).*2) <$> l) as Hother.
  { intros l Hl. apply list_fmap_ext. intros k j Hj. rewrite filter_cons_False; [done|].
    cbn. intros <-. apply Hl. by eapply list_elem_of_lookup_2. }
  rewrite !Hother by (rewrite elem_of_seq; lia). done.
Qed.

Lemma finished_calls t progs c :
  inv t progs c → finished c → (hist c).*1.*2 ≡ₚ concat progs.
Proof.
  intros HI Hf. rewrite (by_caller (length progs) (hist c).*1).
  2:{ apply Forall_fmap. eapply Forall_impl; [apply HI|]. done. }
  match goal with |- ?l ≡ₚ _ => enough (l = concat progs) as -> by done end.
  f_equal. apply list_eq. intros i. rewrite list_lookup_fmap.
  destruct (progs !! i) as [prog|] eqn:Hp.
  - pose proof (lookup_lt_Some _ _ _ Hp) as Hlt.
    rewrite lookup_seq_lt by done. cbn [fmap option_fmap option_map]. f_equal.
    destruct (lookup_lt_is_Some_2 (gos c) i) as [g Hg]; [by rewrite (inv_length _ _ _ HI)|].
    pose proof (inv_progs _ _ _ HI i g prog Hg Hp) as Hc.
    destruct (Forall_lookup_1 _ _ _ _ Hf Hg) as [Ht Hph]. unfold consistent in Hc.
    rewrite Ht, Hph, app_nil_r in Hc. destruct Hc as [<- _]. unfold of_goroutine.
    rewrite Nat.add_0_l. clear. induction (hist c) as [|[[j o] r] h IH]; [done|].
    cbn [fmap list_fmap fst]. rewrite !filter_cons. cbn [fst]. case_decide; cbn [fmap list_fmap fst snd]; by rewrite IH.
  - rewrite lookup_seq_ge by (by apply lookup_ge_None). done.
Qed.

(** ** A writer that waits *)

Definition busy g : Z :=
  match ph g with Locked _ => 3 | Running _ _ => 2 | Ended _ _ => 1 | _ => 0 end.
(** A step of a goroutine other than [i]. *)
Definition step_but (i : nat) c c' : Prop := ∃ j, j ≠ i ∧ sched c j = Some c'.

Lemma waiting_lock t progs c i g o :
  inv t progs c → gos c !! i = Some g → ph g = Waiting o → writer (mu c) = WPending.
Proof.
  intros HI Hi Hw. destruct (inv_lock _ _ _ HI) as (_ & _ & Hp & _).
  pose proof (sum_of_elem wait_in (gos c) i g wait_in_nonneg Hi) as H1. rewrite <-Hp in H1.
  unfold wait_in in H1. rewrite Hw in H1. unfold announced in H1. destruct (writer (mu c)); (done || lia).
Qed.

(** Nobody enters while [i] waits, and whoever is inside comes closer to leaving. *)
Lemma waiting_step t progs c c' i g o :
  inv t progs c → gos c !! i = Some g → ph g = Waiting o → step_but i c c' →
  gos c' !! i = Some g ∧ (sum_of busy (gos c') = sum_of busy (gos c) - 1)%Z.
Proof.
  intros HI Hi Hw (j & Hji & E). pose proof (waiting_lock t progs c i g o HI Hi Hw) as Hp.
  unfold sched in E. destruct (gos c !! j) as [[os p rs]|] eqn:Hj; [|done].
  cbn [mbind option_bind ph todo returned] in E.
  assert (∃ g', gos c' = <[j := g']> (gos c) ∧ (busy g' = busy (mkGo os p rs) - 1)%Z) as (g' & -> & Hb).
  { destruct p as [|o1|o1|o1 t0|o1 r].
    - destruct os; [done|]. unfold acquire, Lock_announce, RLock in E. rewrite Hp in E. by destruct (is_write _).
    - pose proof (sum_of_two wait_in (gos c) i j _ _ wait_in_nonneg (not_eq_sym Hji) Hi Hj) as H1.
      destruct (inv_lock _ _ _ HI) as (_ & _ & Hl & _). rewrite <-Hl in H1.
      unfold wait_in, announced in H1. rewrite Hw, Hp in H1. cbn [ph] in H1. lia.
    - injection E as <-. by eexists.
    - apply bind_Some in E as ([t' r] & _ & [= <-]). by eexists.
    - apply bind_Some in E as (m & _ & [= <-]). by eexists. }
  rewrite list_lookup_insert_ne by done. split; [done|].
  rewrite (sum_of_insert _ _ _ (mkGo os p rs)) by done. lia.
Qed.

Lemma waiting_nsteps t progs n c c' i g o :
  inv t progs c → gos c !! i = Some g → ph g = Waiting o → nsteps (step_but i) n c c' →
  inv t progs c' ∧ gos c' !! i = Some g ∧ (sum_of busy (gos c') + Z.of_nat n = sum_of busy (gos c))%Z.
Proof.
  intros HI Hi Hw Hn. revert HI Hi. induction Hn as [|n c1 c2 c3 Hs _ IH]; intros HI Hi; [split_and!; [done..|lia]|].
  destruct (waiting_step t progs c1 c2 i g o HI Hi Hw Hs) as [Hi2 Hb]. destruct Hs as (j & _ & Hj).
  destruct IH as (HI3 & Hi3 & Hb3); [by eapply inv_sched|done|]. split_and!; [done..|lia].
Qed.

(** What the readers inside still have to do. *)
Lemma waiting_busy t progs c i g o :
  inv t progs c → gos c !! i = Some g → ph g = Waiting o →
  (0 ≤ sum_of busy (gos c) ≤ 3 * Z.of_nat (readers (mu c)))%Z.
Proof.
  intros HI Hi Hw. pose proof (waiting_lock t progs c i g o HI Hi Hw) as Hp.
  destruct (inv_lock _ _ _ HI) as (Hr & Hh & _). unfold held in Hh. rewrite Hp in Hh.
  assert (∀ g', 0 ≤ busy g' ≤ 3 * (read_in g' + write_in g'))%Z as Hb.
  { intros g'. unfold busy, read_in, write_in, current. destruct (ph g'); try lia; destruct (is_write _); lia. }
  split; [apply sum_of_nonneg; intros; apply Hb|]. rewrite Hr. revert Hh. clear -Hb. unfold sum_of.
  assert (0 ≤ foldr (λ x a, write_in x + a) 0 (gos c))%Z as Hn by (apply sum_of_nonneg, write_in_nonneg).
  assert (foldr (λ x a, busy x + a) 0 (gos c)
    ≤ 3 * (foldr (λ x a, read_in x + a) 0 (gos c) + foldr (λ x a, write_in x + a) 0 (gos c)))%Z.
  { clear Hn. induction (gos c) as [|g' gs IH]; cbn [foldr]; [lia|]. specialize (Hb g'). lia. }
  lia.
Qed.

End concurrent.
