(* ===== verification/Cost.v ===== *)
(** * What flushing costs

    The reason to buffer: a flush moves many messages at once, so few flushes are
    needed.  The traces of Cascade.v say how many messages each call of [flushNode]
    moved.

    [energy] is the potential: each buffered message counts the levels it has
    still to go down.  A call adds at most the height of the tree for each message
    it buffers, a call of the cascade takes off as many as it moves, a split
    changes nothing ([calls_energy]); and a call moves at least its share of an
    overfull buffer.  Together: [traced_total]. *)

From S2P Require Import Prelude Order Slices Message Node LeafMerge Flush Iterator Tree Cursor Spec Cascade.

(** ** The potential *)

Section energy.
Context {K V : Type}.
Implicit Types (n c : node K V) (cs L R : list (node K V)) (h : nat).

(** Of a subtree of height [h]. *)
Fixpoint energy n h : Z :=
  match n, h with
  | Internal _ cs buf _, S h' => Z.of_nat h * len buf + sum_of id (map (λ c, energy c h') cs)
  | _, _ => 0
  end.

Lemma energy_internal ps cs buf bs h :
  energy (Internal ps cs buf bs) (S h) = (Z.of_nat (S h) * len buf + sum_of (λ c, energy c h) cs)%Z.
Proof. cbn [energy]. f_equal. induction cs as [|c cs IH]; [done|]. cbn. unfold sum_of in *. by rewrite <-IH. Qed.

Lemma energy_leaf ks vs h : energy (Leaf ks vs : node K V) h = 0%Z.
Proof. by destruct h. Qed.
Lemma energy_nonneg n h : (0 ≤ energy n h)%Z.
Proof.
  revert h. induction n as [ks vs|ps cs buf bs IH] using node_tree_ind; intros [|h]; [done..|].
  rewrite energy_internal. enough (0 ≤ sum_of (λ c, energy c h) cs)%Z by lia.
  induction IH as [|c cs Hc _ IHcs]; [done|]. cbn. specialize (Hc h). unfold sum_of in IHcs. lia.
Qed.

(** A split shares out the messages and keeps the levels. *)
Lemma halves_energy (compare : K → K → Z) c l r :
  halves compare c l r →
  (∀ h, (energy l h + energy r h = energy c h)%Z) ∧ Nat.max (height l) (height r) = height c.
Proof.
  intros [ks1 ks2 vs vs1 vs2 _|ps1 p ps2 cs1 cs2 buf bs _ _]; split.
  - intros h. by rewrite !energy_leaf.
  - done.
  - intros [|h]; [done|]. rewrite !energy_internal, sum_of_app.
    pose proof (Permutation_length (filter_app_complement (λ m, compare (Key m) p < 0)%Z buf)) as Hl.
    rewrite length_app in Hl. nia.
  - cbn [height]. rewrite <-Nat.succ_max_distr. f_equal. induction cs1 as [|d cs IH]; [done|].
    cbn [app foldr]. lia.
Qed.

(** A split moves no message to another level. *)
Lemma split_energy (compare : K → K → Z) c l r ps ps' L R buf buf' bs bs' h :
  halves compare c l r → len buf' = len buf →
  energy (Internal ps' (L ++ l :: r :: R) buf' bs') h = energy (Internal ps (L ++ c :: R) buf bs) h.
Proof.
  intros [Hlr _]%halves_energy Hb. destruct h as [|h]; [done|].
  rewrite !energy_internal, !sum_of_app. unfold sum_of. cbn [foldr]. specialize (Hlr h). lia.
Qed.

Lemma height_split (compare : K → K → Z) c l r ps ps' L R buf buf' bs bs' :
  halves compare c l r →
  height (Internal ps' (L ++ l :: r :: R) buf' bs') = height (Internal ps (L ++ c :: R) buf bs).
Proof.
  intros [_ Hh]%halves_energy. cbn [height]. f_equal. rewrite !foldr_app. cbn [foldr].
  rewrite Nat.max_assoc. by rewrite Hh.
Qed.
End energy.

(** ** A cascade *)

Section cascade.
Context {K V : Type}.
Implicit Types (t : BETree K V) (n c : node K V).

(** Each call of a cascade moved at least its share of a buffer over capacity. *)
Definition shares t (moved : list Z) : Prop :=
  Forall (λ m, bufferCap (params t) < fanout (params t) * m)%Z moved.

(** The child of a call, kept or split. *)
Lemma settles_energy (compare : K → K → Z) big ps L c R buf n h :
  settles compare big ps L c R buf n →
  (energy n (S h) = Z.of_nat (S h) * len buf + energy c h + sum_of (λ c, energy c h) (L ++ R))%Z.
Proof.
  intros [_|ps' l r _ Hh _].
  - rewrite energy_internal, sum_of_middle, sum_of_app. lia.
  - rewrite (split_energy compare c l r ps ps' L R buf buf false false _ Hh) by done.
    rewrite energy_internal, sum_of_middle, sum_of_app. lia.
Qed.

Lemma height_child ps L c R buf bs h :
  height (Internal ps (L ++ c :: R) buf bs) ≤ h → ∃ h', h = S h' ∧ height c ≤ h'.
Proof.
  cbn [height]. rewrite foldr_app. cbn [foldr]. intros Hh. destruct h as [|h]; [lia|].
  exists h. split; [done|]. induction L as [|d L IH]; cbn [foldr] in Hh; [lia|]. apply IH. lia.
Qed.

(** Each message that moves down gives up a level. *)
Lemma flushes_energy t n tr t' n' h :
  flushes t n tr t' n' → height n ≤ h →
  (energy n' h ≤ energy n h - sum_of id tr)%Z ∧ length tr ≤ h.
Proof.
  intros Hfl. revert h. induction Hfl as [t n _|t ds dp ps L ks vs ks' vs' R buf bs bucket keep n' Hh _ _ Hset
    |t ps L cps ccs cbuf cbs R buf bs bucket keep c n' Hh _ Hset
    |t ds dp ps L cps ccs cbuf cbs c1 R buf bs bucket keep moved n' Hh _ Hfl IH Hset]; intros h Hheight.
  { rewrite Z.sub_0_r. split; [done|cbn; lia]. }
  all: apply height_child in Hheight as (h' & -> & Hheight); apply heaviest_len in Hh as [Hlen _];
    rewrite (settles_energy _ _ _ _ _ _ _ _ h' Hset), energy_internal, sum_of_middle, sum_of_app;
    cbn [length]; rewrite sum_of_cons, ?sum_of_nil; unfold id at 1.
  - rewrite !energy_leaf. split; [nia|lia].
  - destruct h' as [|h']; [cbn [height] in Hheight; lia|]. unfold c. rewrite !energy_internal, length_app.
    split; [nia|lia].
  - destruct (IH h' Hheight) as [He Hl]. destruct h' as [|h']; [cbn [height] in Hheight; lia|].
    rewrite !energy_internal, length_app in He. rewrite energy_internal. unfold sum_of in *. split; [nia|lia].
Qed.

(** A call on a buffer over capacity moves its share of it. *)
Lemma flushes_shares t n tr t' n' :
  flushes t n tr t' n' → fan_ok (fanout (params t)) n →
  (bufferCap (params t) < len (buffer n))%Z → shares t tr.
Proof.
  assert (∀ t ps L c R buf bucket keep,
    heaviest (cmp t) ps L c R buf bucket keep → (len (L ++ c :: R) ≤ fanout (params t))%Z →
    (bufferCap (params t) < len buf)%Z → (bufferCap (params t) < fanout (params t) * len bucket)%Z) as Hshare.
  { intros t0 ps L c R buf bucket keep [_ Hb]%heaviest_len Hf Hover. nia. }
  induction 1 as [t n _|t ds dp ps L ks vs ks' vs' R buf bs bucket keep n' Hh _ _ _
    |t ps L cps ccs cbuf cbs R buf bs bucket keep c n' Hh _ _
    |t ds dp ps L cps ccs cbuf cbs c1 R buf bs bucket keep moved n' Hh Hover _ IH _];
    intros Hf Hbig; [constructor|..]; apply fan_ok_internal in Hf as [Hlen Hfan]; cbn [buffer] in Hbig.
  - constructor; [by eapply Hshare|constructor].
  - constructor; [by eapply Hshare|constructor].
  - constructor; [by eapply Hshare|]. apply IH; [|done].
    apply Forall_app in Hfan as [_ [Hfan _]%Forall_cons].
    apply fan_ok_internal in Hfan as [Hf1 Hf2]. by apply fan_ok_internal.
Qed.

(** The height of a node is kept, and so is that of a child that is settled. *)
Lemma height_settles (compare : K → K → Z) big ps L c R buf n ps0 c0 buf0 bs0 :
  settles compare big ps L c R buf n → height c = height c0 →
  height n = height (Internal ps0 (L ++ c0 :: R) buf0 bs0).
Proof.
  intros Hs Hc. assert (height (Internal ps (L ++ c :: R) buf false)
    = height (Internal ps0 (L ++ c0 :: R) buf0 bs0)) as <-.
  { cbn [height]. f_equal. rewrite !foldr_app. cbn [foldr]. by rewrite Hc. }
  destruct Hs as [_|ps' l r _ Hh _]; [done|]. by eapply height_split.
Qed.

Lemma flushes_height t n tr t' n' : flushes t n tr t' n' → height n' = height n.
Proof. induction 1; [done|by eapply height_settles..]. Qed.
End cascade.

(** ** A call *)

Section call.
Context {K V : Type}.
Implicit Types (t : BETree K V) (n : node K V).

Definition tree_energy t : Z := energy (root t) (height (root t)).

Lemma reroots_energy (compare : K → K → Z) big n n' :
  reroots compare big n n' →
  energy n' (height n') = energy n (height n) ∧ height n ≤ height n'.
Proof.
  intros [_|ps l r _ [He Hh]%halves_energy]; [done|]. cbn [height foldr]. rewrite Nat.max_0_r, Hh.
  split; [|lia]. rewrite energy_internal. unfold sum_of. cbn [foldr length]. rewrite <-He. lia.
Qed.

Lemma overflows_energy t tr t' :
  overflows t tr t' → fan_ok (fanout (params t)) (root t) →
  (tree_energy t' + sum_of id tr ≤ tree_energy t)%Z ∧ shares t tr
  ∧ height (root t) ≤ height (root t') ∧ params t' = params t.
Proof.
  intros [t0 _|t0 ds dp tr0 n1 n' Hover Hfl Hr] Hf.
  { split_and!; [unfold sum_of; cbn; lia|constructor|done|done]. }
  destruct (flushes_energy _ _ _ _ _ (height (root t0)) Hfl) as [He _]; [done|].
  pose proof (flushes_height _ _ _ _ _ Hfl) as Hh. destruct (reroots_energy _ _ _ _ Hr) as [He' Hh'].
  unfold tree_energy. cbn [root set_root]. rewrite He', Hh.
  split_and!; [lia|by eapply flushes_shares|lia|done].
Qed.

(** A call pays with the energy of its messages for what its flush moves. *)
Lemma calls_energy t m w tr t' :
  calls t m w tr t' →
  (tree_energy t' + sum_of id tr ≤ tree_energy t + Z.of_nat (height (root t)) * m)%Z
  ∧ shares t tr ∧ height (root t) ≤ height (root t') ∧ params t' = params t.
Proof.
  assert (∀ ks vs, height (Leaf ks vs : node K V) = 0 ∧ energy (Leaf ks vs : node K V) 0 = 0%Z) as H0 by done.
  intros [t2 Er Hp|t2 ks vs ks' vs' Er Er' _ Hp|t2 w2 ks vs ks' vs' Er _ _ Hr Hp
         |t1 msgs ps cs buf bs bs' tr2 t2 Er Er1 _ Hp Hok Ho]; unfold tree_energy.
  - rewrite Er. split_and!; [unfold sum_of; cbn; lia|constructor|done|done].
  - rewrite Er, Er'. split_and!; [unfold sum_of; cbn; lia|constructor|done|done].
  - apply reroots_energy in Hr as [He Hh]. rewrite He, Er.
    split_and!; [unfold sum_of; cbn; lia|constructor|done|done].
  - destruct (overflows_energy _ _ _ Ho (ok_fan _ Hok)) as (He & Hs & Hh & Hp'). unfold tree_energy in He.
    rewrite Er1 in He, Hh. rewrite Er. cbn [height] in He, Hh |- *. rewrite energy_internal in He |- *.
    rewrite length_app in He. unfold shares in *. rewrite Hp in Hs. split_and!; [lia|done|done|congruence].
Qed.
End call.

(** ** A history *)

Section total.
Context {K V : Type} `{Zero K, Zero V}.
Implicit Types (t : BETree K V) (rs : list (result K V * list Z)).

(** The calls of [flushNode] in a trace that moved messages, and the messages
    they moved. *)
Definition flush_calls rs : Z := sum_of (λ r, len r.2) rs.
Definition flush_moves rs : Z := sum_of (λ r, sum_of id r.2) rs.
(** The messages a history buffered: one for a write of a key, one for each key
    that a range removed. *)
Definition history_msgs (os : list (op K V)) rs : Z :=
  sum_of (λ p, call_msgs p.1 p.2.1) (zip os rs).

Lemma traced_paid t l os t' rs :
  refines t l → Forall (λ o, clears o = false) os → exec_all_traced t os = Some (t', rs) →
  (tree_energy t' + flush_moves rs ≤ tree_energy t + Z.of_nat (height (root t')) * history_msgs os rs)%Z
  ∧ Forall (λ r, shares t r.2) rs ∧ height (root t) ≤ height (root t') ∧ (0 ≤ history_msgs os rs)%Z.
Proof.
  intros HR Hos. revert t l t' rs HR.
  induction Hos as [|o os Ho _ IH]; intros t l t' rs HR E; cbn [exec_all_traced] in E.
  { injection E as <- <-. unfold history_msgs, flush_moves, sum_of. cbn. split_and!; [lia|constructor|done|done]. }
  apply bind_Some in E as ([[t1 r] tr] & E1 & E). apply bind_Some in E as ([t2 rs2] & E2 & [= <- <-]).
  destruct (exec_traced_calls t o t1 r tr (rf_ok _ _ HR) Ho E1) as (m & w & Hc & Hm & _).
  destruct (calls_energy _ _ _ _ _ Hc) as (P1 & P2 & P3 & P4).
  destruct (exec_step t l o HR) as (t1' & r' & Ex & HR1 & _).
  pose proof (exec_traced_erase t o) as Er. rewrite E1, Ex in Er. injection Er as <- <-.
  destruct (IH t1 _ t2 rs2 HR1 E2) as (I1 & I2 & I3 & I4).
  unfold history_msgs, flush_moves, sum_of in *. cbn [foldr zip zip_with fst snd] in *. split_and!.
  - nia.
  - constructor; [done|]. unfold shares in *. by rewrite <-P4.
  - lia.
  - lia.
Qed.

(** A trace whose calls each moved their share. *)
Lemma shares_calls t tr :
  shares t tr → ((bufferCap (params t) + 1) * len tr ≤ fanout (params t) * sum_of id tr)%Z.
Proof.
  induction 1 as [|m tr Hm _ IH]; [unfold sum_of; cbn; lia|]. unfold sum_of, id in *. cbn [foldr length]. lia.
Qed.

Lemma traced_total t l os t' rs :
  refines t l → leaf (root t) = true → Forall (λ o, clears o = false) os →
  exec_all_traced t os = Some (t', rs) →
  (flush_moves rs ≤ Z.of_nat (height (root t')) * history_msgs os rs)%Z
  ∧ ((bufferCap (params t) + 1) * flush_calls rs ≤ fanout (params t) * flush_moves rs)%Z.
Proof.
  intros HR Hl Hos E. destruct (traced_paid t l os t' rs HR Hos E) as (H1 & H2 & _ & _). split.
  - pose proof (energy_nonneg (root t') (height (root t'))). unfold tree_energy in H1.
    destruct (root t); [|done]. rewrite energy_leaf in H1. lia.
  - clear -H2. unfold flush_calls, flush_moves, sum_of.
    induction H2 as [|r rs Ht _ IH]; cbn [foldr]; [lia|].
    pose proof (shares_calls t r.2 Ht). unfold sum_of in *. lia.
Qed.
End total.
