(* ===== verification/Shape.v ===== *)
(** * The shape of a tree

    Nothing in the sources rebalances: a node is only ever split, and a leaf or a
    buffer may stay above its capacity for a while.  What the tree promises about
    its shape follows from the splits alone, by rule induction on [calls]:

    - every internal node but the root has at least [min_children] children, and
      the root two ([shaped], [wide]), so a tree of height [h] has at least
      [2 * min_children ^ (h - 1)] leaves ([shaped_leaves]);
    - [weight] is the potential of the splits: a leaf counts its entries, but no
      less than half a full leaf, and a buffered message that can add an entry
      counts one.  A call adds at most the entries it writes, a split nothing
      ([calls_weight]), so the number of leaves, and with it the height, is
      bounded by the number of writes ([history_leaves]);
    - [room] bounds buffers and leaves by their depth: a flush moves at least one
      message in [fanout], so a buffer that receives at most [W] messages at a
      time stays below [(fanout - 1) * W], and passes on at most [fanout * W]
      ([calls_room]). *)

From S2P Require Import Prelude Order Slices Message Node LeafMerge Flush Iterator Tree Cursor Spec Cascade.

(** The least arity of an internal node other than the root, and the least number
    of entries of half a leaf that had to be split. *)
Definition min_children (p : treeParams) : Z := ((fanout p + 1) / 2)%Z.
Definition half_leaf (p : treeParams) : Z := ((leafCap p + 1) / 2)%Z.

(** ** Leaves and weight *)

Section weight.
Context {K V : Type}.
Implicit Types (t : BETree K V) (n c l r : node K V) (L R cs : list (node K V)).

Fixpoint leaves n : Z :=
  match n with Leaf _ _ => 1 | Internal _ cs _ _ => sum_of id (map leaves cs) end.

(** With [c] the least size of a half. *)
Fixpoint weight (c : Z) n : Z :=
  match n with
  | Leaf ks _ => Z.max c (len ks)
  | Internal _ cs buf _ => sum_of msg_writes buf + sum_of id (map (weight c) cs)
  end.

Lemma sum_of_map {A} (g : A → Z) (l : list A) : sum_of id (map g l) = sum_of g l.
Proof. induction l as [|a l IH]; [done|]. cbn [map]. by rewrite !sum_of_cons, IH. Qed.

Lemma leaves_internal ps cs buf bs : leaves (Internal ps cs buf bs : node K V) = sum_of leaves cs.
Proof. cbn [leaves]. apply sum_of_map. Qed.
Lemma weight_internal (c : Z) ps cs buf bs :
  weight c (Internal ps cs buf bs : node K V) = (sum_of msg_writes buf + sum_of (weight c) cs)%Z.
Proof. cbn [weight]. f_equal. apply sum_of_map. Qed.

Lemma weight_leaves (c : Z) n : (0 ≤ c)%Z → (c * leaves n ≤ weight c n)%Z.
Proof.
  intros Hc. induction n as [ks vs|ps cs buf bs IH] using node_tree_ind; [cbn; lia|].
  rewrite leaves_internal, weight_internal.
  assert (0 ≤ sum_of msg_writes buf)%Z by (apply sum_of_nonneg; auto with fractal).
  enough (c * sum_of leaves cs ≤ sum_of (weight c) cs)%Z by lia.
  induction IH as [|d cs Hd _ IH]; [unfold sum_of; cbn; lia|]. rewrite !sum_of_cons. lia.
Qed.

(** A split keeps the weight; of a leaf, because either half is big enough. *)
Lemma halves_weight (compare : K → K → Z) (C : Z) n l r :
  halves compare n l r → (leaf n = true → (C < len (keys n))%Z) →
  (weight ((C + 1) / 2) l + weight ((C + 1) / 2) r = weight ((C + 1) / 2) n)%Z.
Proof.
  intros [ks1 ks2 vs vs1 vs2 Hl|ps1 p ps2 cs1 cs2 buf bs _ _] Hbig.
  - specialize (Hbig eq_refl). cbn [keys weight] in *. rewrite length_app in *.
    apply (f_equal Z.of_nat) in Hl. rewrite Nat2Z.inj_div in Hl.
    pose proof (Z.div_le_mono (C + 1) (Z.of_nat (length ks1 + length ks2)) 2 ltac:(lia) ltac:(lia)).
    pose proof (Z.mul_div_le (Z.of_nat (length ks1 + length ks2)) 2 ltac:(lia)).
    change (Z.of_nat 2) with 2%Z in Hl. rewrite <-Hl in *. lia.
  - rewrite !weight_internal, sum_of_app.
    pose proof (sum_of_Permutation msg_writes _ _
      (filter_app_complement (λ m, compare (Key m) p < 0)%Z buf)) as Hp.
    rewrite sum_of_app in Hp. lia.
Qed.

Lemma settles_weight (compare : K → K → Z) C big ps L c R buf n :
  settles compare big ps L c R buf n → (big → leaf c = true → (C < len (keys c))%Z) →
  (weight ((C + 1) / 2) n
   = sum_of msg_writes buf + weight ((C + 1) / 2) c + sum_of (weight ((C + 1) / 2)) (L ++ R))%Z.
Proof.
  intros [_|ps' l r Hbig Hh _] HC; rewrite weight_internal, !sum_of_app, !sum_of_cons; [lia|].
  rewrite <-(halves_weight compare C c l r Hh) by auto. lia.
Qed.

(** Flushing adds no weight: an entry was a message before. *)
Lemma flushes_weight t n tr t' n' :
  flushes t n tr t' n' → (weight (half_leaf (params t)) n' ≤ weight (half_leaf (params t)) n)%Z.
Proof.
  unfold half_leaf. assert (∀ (compare : K → K → Z) ps L c R buf bucket keep, heaviest compare ps L c R buf bucket keep →
    sum_of msg_writes buf = (sum_of msg_writes keep + sum_of msg_writes bucket)%Z) as Hbuf.
  { intros ???????? Hp%heaviest_Permutation%(sum_of_Permutation msg_writes). by rewrite sum_of_app in Hp. }
  induction 1 as [t n _|t ds dp ps L ks vs ks' vs' R buf bs bucket keep n' Hh _ Hg Hset
    |t ps L cps ccs cbuf cbs R buf bs bucket keep c n' Hh _ Hset
    |t ds dp ps L cps ccs cbuf cbs c1 R buf bs bucket keep moved n' Hh _ Hfl IH Hset]; [done|..];
    rewrite (settles_weight _ (leafCap (params t)) _ _ _ _ _ _ _ Hset), weight_internal, sum_of_middle,
      (Hbuf _ _ _ _ _ _ _ _ Hh), sum_of_app.
  - assert (0 ≤ sum_of msg_writes bucket)%Z by (apply sum_of_nonneg; auto with fractal). cbn [weight]. lia.
  - done.
  - unfold c. rewrite !weight_internal, sum_of_app. lia.
  - done.
  - rewrite !weight_internal, sum_of_app in IH. rewrite weight_internal. lia.
  - intros _ Hleaf. apply flushes_children in Hfl as [Hfl _]. by rewrite Hleaf in Hfl.
Qed.

End weight.

(** ** Arity *)

Section arity.
Context {K V : Type}.
Implicit Types (t : BETree K V) (n c l r : node K V) (L R cs : list (node K V)).

Definition wide (m : Z) n : Prop := leaf n = false → (m ≤ len (children n))%Z.

(** Every internal node under [n] has one pivot less than children, and every
    one strictly under it at least [m] children. *)
Fixpoint shaped (m : Z) n : Prop :=
  match n with
  | Leaf _ _ => True
  | Internal ps cs _ _ =>
      length cs = S (length ps) ∧ foldr (λ c P, (wide m c ∧ shaped m c) ∧ P) True cs
  end.

Lemma shaped_internal m ps cs buf bs :
  shaped m (Internal ps cs buf bs) ↔ length cs = S (length ps) ∧ Forall (λ c, wide m c ∧ shaped m c) cs.
Proof.
  cbn [shaped]. f_equiv. induction cs as [|c cs IH]; cbn [foldr]; [by split|].
  rewrite Forall_cons. tauto.
Qed.

(** Both halves of a node with more than [F] children are wide enough. *)
Lemma halves_shaped (compare : K → K → Z) (F : Z) n l r :
  halves compare n l r → shaped ((F + 1) / 2) n → (leaf n = false → (F < len (children n))%Z) →
  (wide ((F + 1) / 2) l ∧ shaped ((F + 1) / 2) l) ∧ wide ((F + 1) / 2) r ∧ shaped ((F + 1) / 2) r.
Proof.
  intros [|ps1 p ps2 cs1 cs2 buf bs Hp Hc] Hs Hbig; [done|].
  apply shaped_internal in Hs as [Hlen [H1 H2]%Forall_app]. specialize (Hbig eq_refl). cbn [children] in Hbig.
  rewrite !length_app in *. cbn [length] in *.
  apply (f_equal Z.of_nat) in Hp. rewrite Nat2Z.inj_div in Hp. change (Z.of_nat 2) with 2%Z in Hp.
  pose proof (Z.mul_div_le (F + 1) 2 ltac:(lia)).
  pose proof (Z.mul_succ_div_gt (Z.of_nat (length ps1 + S (length ps2))) 2 ltac:(lia)).
  pose proof (Z.mul_div_le (Z.of_nat (length ps1 + S (length ps2))) 2 ltac:(lia)). rewrite <-Hp in *.
  rewrite !shaped_internal. unfold wide. cbn [leaf children].
  split_and!; try (intros _); try done; lia.
Qed.

Lemma settles_shaped (compare : K → K → Z) (F : Z) big ps L c R buf n :
  settles compare big ps L c R buf n → length (L ++ c :: R) = S (length ps) →
  Forall (λ c, wide ((F + 1) / 2) c ∧ shaped ((F + 1) / 2) c) (L ++ c :: R) →
  (big → leaf c = false → (F < len (children c))%Z) → shaped ((F + 1) / 2) n.
Proof.
  intros [_|ps' l r Hbig Hh Hps] Hlen Hcs HF; apply shaped_internal; [done|].
  apply Forall_app in Hcs as [HL [[_ Hc] HR]%Forall_cons]. rewrite length_app in *. cbn [length] in *.
  split; [lia|]. destruct (halves_shaped compare F c l r Hh Hc) as [Hl Hr]; [by apply HF|].
  apply Forall_app. split; [done|]. constructor; [done|]. by constructor.
Qed.

Lemma flushes_shaped t n tr t' n' :
  flushes t n tr t' n' → shaped (min_children (params t)) n → shaped (min_children (params t)) n'.
Proof.
  unfold min_children.
  induction 1 as [t n _|t ds dp ps L ks vs ks' vs' R buf bs bucket keep n' Hh _ _ Hset
    |t ps L cps ccs cbuf cbs R buf bs bucket keep c n' Hh _ Hset
    |t ds dp ps L cps ccs cbuf cbs c1 R buf bs bucket keep moved n' Hh _ Hfl IH Hset]; [done|..];
    intros [Hlen [HL [[Hw Hc] HR]%Forall_cons]%Forall_app]%shaped_internal;
    apply (settles_shaped _ _ _ _ _ _ _ _ _ Hset); rewrite ?length_app in *; try done;
    apply Forall_app; (split; [done|]); (constructor; [|done]).
  - done.
  - split; [done|]. by apply shaped_internal in Hc as Hc'; apply shaped_internal.
  - pose proof (flushes_children _ _ _ _ _ Hfl) as [_ Hcc]. split.
    + intros _. cbn [children] in Hcc. specialize (Hw eq_refl). cbn [children] in Hw. lia.
    + apply IH. by apply shaped_internal in Hc as Hc'; apply shaped_internal.
Qed.

(** A tree has at least as many leaves as its arity gives. *)
Lemma shaped_leaves (compare : K → K → Z) P h n (m : Z) :
  (0 ≤ m)%Z → wf_node compare P h n → shaped m n →
  (leaf n = true ∧ h = 0 ∧ leaves n = 1%Z)
  ∨ ∃ h', h = S h' ∧ (len (children n) * m ^ Z.of_nat h' ≤ leaves n)%Z.
Proof.
  intros Hm. induction 1 as [P l _ _|P h ps cs buf bs _ _ Hlen _ _ _ Hcs IH]; [by left|].
  intros [_ Hs]%shaped_internal. right. exists h. split; [done|]. cbn [children]. rewrite leaves_internal.
  assert (Forall (λ c, (m ^ Z.of_nat h ≤ leaves c)%Z) cs) as Hall.
  { apply Forall_forall. intros c Hc. rewrite Forall_forall in Hs. destruct (Hs c Hc) as [Hw Hs'].
    apply list_elem_of_lookup in Hc as [i Hi].
    destruct (IH i c Hi Hs') as [(_ & -> & ->)|(h' & -> & Hl)]; [done|].
    rewrite Nat2Z.inj_succ, Z.pow_succ_r by lia.
    assert (0 ≤ m ^ Z.of_nat h')%Z by (apply Z.pow_nonneg; lia).
    specialize (Hcs i c Hi). inversion Hcs; subst. specialize (Hw eq_refl). nia. }
  clear -Hall. induction Hall as [|c cs Hc _ IH]; [done|]. rewrite sum_of_cons. cbn [length]. lia.
Qed.

End arity.

(** ** Occupancy *)

Section occupancy.
Context {K V : Type}.
Implicit Types (t : BETree K V) (n c l r : node K V) (L R cs : list (node K V)).

(** With fanout [F] and leaves of capacity [C], what is under a node that receives
    at most [W] messages at a time. *)
Fixpoint room (F C W : Z) n : Prop :=
  match n with
  | Leaf ks _ => (len ks ≤ Z.max C (W + 1))%Z
  | Internal _ cs buf _ =>
      (len buf ≤ (F - 1) * W)%Z ∧ foldr (λ c P, room F C (F * W) c ∧ P) True cs
  end.

Lemma room_internal F C W ps cs buf bs :
  room F C W (Internal ps cs buf bs) ↔ (len buf ≤ (F - 1) * W)%Z ∧ Forall (room F C (F * W)) cs.
Proof.
  cbn [room]. f_equiv. induction cs as [|c cs IH]; cbn [foldr]; [by split|].
  rewrite Forall_cons. tauto.
Qed.

Lemma room_mono F C W W' n : (1 ≤ F)%Z → (W ≤ W')%Z → room F C W n → room F C W' n.
Proof.
  intros HF. revert W W'. induction n as [ks vs|ps cs buf bs IH] using node_tree_ind; intros W W' HW.
  - cbn [room]. lia.
  - rewrite !room_internal. intros [Hb Hcs]. split; [nia|].
    rewrite !Forall_forall in *. intros c Hc. eapply IH; [done| |by apply Hcs]. nia.
Qed.

(** The halves of a node have room where it had; the halves of a leaf even when
    [W] entries came on top. *)
Lemma halves_room (compare : K → K → Z) F C W n l r :
  halves compare n l r → (leaf n = false → room F C W n) →
  (leaf n = true → (len (keys n) ≤ Z.max C (W + 1) + W)%Z) → room F C W l ∧ room F C W r.
Proof.
  intros [ks1 ks2 vs vs1 vs2 Hl|ps1 p ps2 cs1 cs2 buf bs _ _] Hi Hlf.
  - specialize (Hlf eq_refl). cbn [keys room] in *. rewrite length_app in *.
    apply (f_equal Z.of_nat) in Hl. rewrite Nat2Z.inj_div in Hl. change (Z.of_nat 2) with 2%Z in Hl.
    pose proof (Z.mul_succ_div_gt (Z.of_nat (length ks1 + length ks2)) 2 ltac:(lia)).
    pose proof (Z.mul_div_le (Z.of_nat (length ks1 + length ks2)) 2 ltac:(lia)). rewrite <-Hl in *. lia.
  - specialize (Hi eq_refl). rewrite !room_internal in *. destruct Hi as [Hb [H1 H2]%Forall_app].
    pose proof (length_filter_le (λ m : Message K V, compare (Key m) p < 0)%Z buf).
    pose proof (length_filter_le (λ m : Message K V, ¬ compare (Key m) p < 0)%Z buf).
    split_and!; (done || lia).
Qed.

(** What stays of a buffer when its heaviest bucket leaves. *)
Lemma heaviest_room (compare : K → K → Z) ps L c R buf bucket keep (F W : Z) :
  heaviest compare ps L c R buf bucket keep → (len (L ++ c :: R) ≤ F)%Z → (len buf ≤ F * W)%Z →
  (len keep ≤ (F - 1) * W)%Z ∧ (len bucket ≤ F * W)%Z.
Proof.
  intros [H1 H2]%heaviest_len HF HW. split; [|lia].
  assert (1 ≤ F)%Z by (rewrite length_app in HF; simpl in HF; lia).
  destruct (decide (len bucket ≤ W)%Z); nia.
Qed.

Lemma settles_room (compare : K → K → Z) F C W big ps L c R buf n :
  settles compare big ps L c R buf n → (len buf ≤ (F - 1) * W)%Z →
  Forall (room F C (F * W)) L → Forall (room F C (F * W)) R →
  (leaf c = false → room F C (F * W) c) → (¬ big → room F C (F * W) c) →
  (leaf c = true → (len (keys c) ≤ Z.max C (F * W + 1) + F * W)%Z) → room F C W n.
Proof.
  intros [Hbig|ps' l r _ Hh _] Hb HL HR Hc Hc' Hlf; apply room_internal; (split; [done|]);
    (apply Forall_app; split; [done|]).
  - constructor; auto.
  - destruct (halves_room compare F C (F * W) c l r Hh Hc Hlf). by repeat constructor.
Qed.

(** Flushing a node whose buffer received [W] messages on top. *)
Lemma flushes_room t n tr t' n' (W : Z) :
  flushes t n tr t' n' → params_ok (params t) → (bufferCap (params t) ≤ W)%Z →
  leaf n = false → fan_ok (fanout (params t)) n → (len (buffer n) ≤ fanout (params t) * W)%Z →
  Forall (room (fanout (params t)) (leafCap (params t)) (fanout (params t) * W)) (children n) →
  room (fanout (params t)) (leafCap (params t)) W n'.
Proof.
  intros Hfl. revert W. induction Hfl as [t n Hn|t ds dp ps L ks vs ks' vs' R buf bs bucket keep n' Hh _ Hg Hset
    |t ps L cps ccs cbuf cbs R buf bs bucket keep c n' Hh Hsmall Hset
    |t ds dp ps L cps ccs cbuf cbs c1 R buf bs bucket keep moved n' Hh _ Hfl IH Hset];
    intros W Hp HW Hlf Hfan Hbuf Hcs; pose proof Hp as (HF & HB & _).
  { destruct Hn as [Hn|Hn]; [congruence|]. destruct n as [|ps cs buf bs]; [done|]. cbn [buffer children] in *.
    subst buf. apply room_internal. split; [cbn; nia|done]. }
  all: cbn [buffer children] in *; apply fan_ok_internal in Hfan as [Hlen [_ [Hfc _]%Forall_cons]%Forall_app];
    apply Forall_app in Hcs as [HL [Hc HR]%Forall_cons];
    destruct (heaviest_room _ _ _ _ _ _ _ _ _ W Hh Hlen Hbuf) as [Hkeep Hbucket];
    apply (settles_room _ _ _ _ _ _ _ _ _ _ _ Hset); [done..| | |]; cbn [leaf keys]; try done.
  - cbn [room] in *. lia.
  - intros _. cbn [room] in Hc. assert (sum_of msg_writes bucket ≤ len bucket)%Z by apply msg_writes_len. lia.
  - intros _. apply room_internal in Hc as [_ Hc]. apply room_internal. split; [nia|done].
  - intros _. apply room_internal in Hc as [_ Hc]. apply room_internal. split; [nia|done].
  - apply room_internal in Hc as [Hcb Hc]. apply fan_ok_internal in Hfc as [Hf1 Hf2].
    intros _. apply (IH (fanout (params t) * W)%Z); try done.
    + nia.
    + by apply fan_ok_internal.
    + cbn [buffer]. rewrite length_app. nia.
  - apply room_internal in Hc as [Hcb Hc]. apply fan_ok_internal in Hfc as [Hf1 Hf2].
    intros _. apply (IH (fanout (params t) * W)%Z); try done.
    + nia.
    + by apply fan_ok_internal.
    + cbn [buffer]. rewrite length_app. nia.
  - intros Hleaf. apply flushes_children in Hfl as [Hfl _]. by rewrite Hleaf in Hfl.
Qed.

(** A flush takes a message off a buffer. *)
Lemma flushes_buffer t n tr t' n' :
  flushes t n tr t' n' → buffer n ≠ [] → (len (buffer n') < len (buffer n))%Z.
Proof.
  assert (∀ (compare : K → K → Z) big ps L c R keep n', settles compare big ps L c R keep n' → buffer n' = keep)
    as Hs by (by intros ??????? ? []).
  assert (∀ (compare : K → K → Z) ps L c R buf bucket keep, heaviest compare ps L c R buf bucket keep →
    buf ≠ [] → (len keep < len buf)%Z) as Hk.
  { intros compare ps L c R buf bucket keep [H1 H2]%heaviest_len Hne.
    destruct buf; [done|]. cbn [length] in *. nia. }
  destruct 1 as [t n [Hn|Hn]| | |]; [by destruct n|done|..]; intros Hne; cbn [buffer] in *;
    erewrite (Hs _ _ _ _ _ _ _ _) by done; by eapply Hk.
Qed.

End occupancy.

(** ** Calls *)

Section calls.
Context {K V : Type}.
Implicit Types (t : BETree K V) (n c l r : node K V).

(** A tree with parameters [p] into which [w] entries were written. *)
Record grown (p : treeParams) (w : Z) t : Prop := {
  gr_params : params t = p;
  gr_shaped : shaped (min_children p) (root t);
  gr_root : wide 2 (root t);
  gr_weight : (weight (half_leaf p) (root t) ≤ half_leaf p + w)%Z
}.

(** A tree whose calls buffer at most [W] messages each. *)
Record roomy (p : treeParams) (W : Z) t : Prop := {
  rm_params : params t = p;
  rm_room : room (fanout p) (leafCap p) W (root t)
}.

(** A tree whose calls buffer one message each never exceeds its root's buffer. *)
Record drained (p : treeParams) t : Prop := {
  dr_params : params t = p;
  dr_buffer : (len (buffer (root t)) ≤ bufferCap p)%Z
}.

Lemma reroots_weight (compare : K → K → Z) C big n n' :
  reroots compare big n n' → (big → leaf n = true → (C < len (keys n))%Z) →
  weight ((C + 1) / 2) n' = weight ((C + 1) / 2) n.
Proof.
  intros [_|p l r Hbig Hh] HC; [done|]. rewrite weight_internal, !sum_of_cons, !sum_of_nil.
  rewrite <-(halves_weight compare C n l r Hh) by auto. lia.
Qed.

Lemma reroots_shaped (compare : K → K → Z) F big n n' :
  reroots compare big n n' → shaped ((F + 1) / 2) n → wide 2 n →
  (big → leaf n = false → (F < len (children n))%Z) → shaped ((F + 1) / 2) n' ∧ wide 2 n'.
Proof.
  intros [_|p l r Hbig Hh] Hs Hw HF; [done|].
  destruct (halves_shaped compare F n l r Hh Hs) as [Hl Hr]; [by apply HF|].
  split; [|done]. apply shaped_internal. split; [done|]. constructor; [done|]. by constructor.
Qed.

Lemma reroots_room (compare : K → K → Z) F C W big n n' :
  reroots compare big n n' → (1 ≤ F)%Z → (0 ≤ W)%Z → (leaf n = false → room F C W n) → (¬ big → room F C W n) →
  (leaf n = true → (len (keys n) ≤ Z.max C (F * W + 1) + F * W)%Z) → room F C W n'.
Proof.
  intros [Hbig|p l r _ Hh] HF HW Hi Hs Hl; [by apply Hs|].
  destruct (halves_room compare F C (F * W) n l r Hh) as [H1 H2]; [|done|].
  - intros Hn. apply (room_mono F C W); [done|nia|auto].
  - apply room_internal. split; [cbn; nia|by repeat constructor].
Qed.

Lemma calls_grown t m w tr t' p s :
  calls t m w tr t' → (0 ≤ w)%Z → grown p s t → grown p (s + w) t'.
Proof.
  intros Hc Hw [Hp Hs Hr Hg]. subst p. unfold min_children, half_leaf in *.
  destruct Hc as [t2 Er Hp|t2 ks vs ks' vs' Er Er' Hk Hp|t2 w2 ks vs ks' vs' Er _ Hk Hroot Hp
         |t1 msgs ps cs buf bs bs' tr2 t2 Er Er1 _ Hp Hok Ho].
  - split; unfold half_leaf, min_children; rewrite ?Er; (done || lia).
  - rewrite Er in *. split; unfold half_leaf, min_children; rewrite ?Er'; try done. cbn [weight] in *. lia.
  - rewrite Er in *.
    destruct (reroots_shaped _ (fanout (params t)) _ _ _ Hroot) as [H1 H2]; [done..|].
    split; unfold half_leaf, min_children; try done.
    rewrite (reroots_weight _ (leafCap (params t)) _ _ _ Hroot) by done. cbn [weight] in *. lia.
  - assert (shaped ((fanout (params t) + 1) / 2) (root t1)) as Hs1.
    { rewrite Er1. apply shaped_internal. rewrite Er in Hs. by apply shaped_internal in Hs. }
    assert (wide 2 (root t1)) as Hr1 by (by rewrite Er1; rewrite Er in Hr).
    assert (weight ((leafCap (params t) + 1) / 2) (root t1)
            ≤ (leafCap (params t) + 1) / 2 + (s + sum_of msg_writes msgs))%Z as Hg1.
    { rewrite Er1. rewrite Er in Hg. rewrite weight_internal, ?sum_of_app in *. lia. }
    rewrite <-Hp in *. clear Hs Hr Hg.
    destruct Ho as [t1 _|t1 ds dp tr n1 n' _ Hfl Hroot]; [by split|].
    pose proof (flushes_weight _ _ _ _ _ Hfl) as Hwt. pose proof (flushes_shaped _ _ _ _ _ Hfl Hs1) as Hst.
    pose proof (flushes_children _ _ _ _ _ Hfl) as [Hlf Hcc].
    assert (leaf (root t1) = false) as Hl by (by rewrite Er1).
    destruct (reroots_shaped _ (fanout (params t1)) _ _ _ Hroot Hst) as [H1 H2]; [|done|].
    { intros _. specialize (Hr1 Hl). lia. }
    split; try done. cbn [root set_root]. unfold half_leaf in *.
    rewrite (reroots_weight _ (leafCap (params t1)) _ _ _ Hroot); [lia|].
    intros _ Hn. by rewrite Hn, Hl in Hlf.
Qed.

Lemma calls_roomy t m w tr t' p W :
  calls t m w tr t' → params_ok p → (bufferCap p ≤ W)%Z → (m ≤ W)%Z → (w ≤ 1)%Z →
  roomy p W t → roomy p W t'.
Proof.
  intros Hc Hpok HB Hm Hw [Hp Hr]. subst p. pose proof Hpok as (HF & HB1 & _).
  destruct Hc as [t2 Er Hp|t2 ks vs ks' vs' Er Er' Hk Hp|t2 w2 ks vs ks' vs' Er _ Hk Hroot Hp
         |t1 msgs ps cs buf bs bs' tr2 t2 Er Er1 _ Hp Hok Ho].
  - split; by rewrite ?Er.
  - split; [done|]. rewrite Er'. rewrite Er in Hr. cbn [room] in *. lia.
  - rewrite Er in Hr. cbn [room] in Hr. split; [done|].
    apply (reroots_room _ _ _ _ _ _ _ Hroot); cbn [leaf keys room]; [lia|lia|done|lia|nia].
  - assert (len (buffer (root t1)) ≤ fanout (params t) * W ∧
            Forall (room (fanout (params t)) (leafCap (params t)) (fanout (params t) * W)) (children (root t1)))%Z
      as [Hb Hcs].
    { rewrite Er1. rewrite Er in Hr. apply room_internal in Hr as [Hb Hcs]. cbn [buffer children].
      rewrite length_app. split; [nia|done]. }
    assert (leaf (root t1) = false) as Hl by (by rewrite Er1).
    pose proof (ok_fan _ Hok) as Hf. rewrite <-Hp in *. clear Hr Er1.
    destruct Ho as [t1 Hsmall|t1 ds dp tr n1 n' _ Hfl Hroot].
    + split; [done|]. destruct (root t1) as [|ps1 cs1 buf1 bs1]; [done|]. cbn [buffer children] in *.
      apply room_internal. split; [nia|done].
    + split; [done|]. pose proof (flushes_room _ _ _ _ _ W Hfl Hpok HB Hl Hf Hb Hcs) as Hn1.
      apply (reroots_room _ _ _ _ _ _ _ Hroot); [lia|lia|done..|].
      intros Hn. apply flushes_children in Hfl as [Hfl _]. by rewrite Hn, Hl in Hfl.
Qed.

Lemma calls_drained t m w tr t' p :
  calls t m w tr t' → params_ok p → (m ≤ 1)%Z → drained p t → drained p t'.
Proof.
  intros Hc Hpok Hm [Hp Hr]. subst p. pose proof Hpok as (_ & HB & _).
  assert (∀ (compare : K → K → Z) big n n', reroots compare big n n' → (len (buffer n) ≤ bufferCap (params t))%Z →
    (len (buffer n') ≤ bufferCap (params t))%Z) as Hre by (intros ???? []; [done|cbn; lia]).
  destruct Hc as [t2 Er Hp|t2 ks vs ks' vs' Er Er' Hk Hp|t2 w2 ks vs ks' vs' Er _ Hk Hroot Hp
         |t1 msgs ps cs buf bs bs' tr2 t2 Er Er1 _ Hp Hok Ho].
  - split; by rewrite ?Er.
  - split; [done|]. rewrite Er'. cbn. lia.
  - split; [done|]. apply (Hre _ _ _ _ Hroot). cbn. lia.
  - assert (len (buffer (root t1)) ≤ bufferCap (params t) + 1)%Z as Hb.
    { rewrite Er1. rewrite Er in Hr. cbn [buffer] in *. rewrite length_app. lia. }
    rewrite <-Hp in *. clear Er1. destruct Ho as [t1 Hsmall|t1 ds dp tr n1 n' Hover Hfl Hroot]; [by split|].
    split; [done|]. apply (Hre _ _ _ _ Hroot). cbn [root set_root].
    enough (len (buffer n1) < len (buffer (root t1)))%Z by lia.
    apply (flushes_buffer _ _ _ _ _ Hfl). intros Hnil. rewrite Hnil in Hover. cbn in Hover. lia.
Qed.

End calls.

(** ** Histories *)

Section histories.
Context {K V : Type} `{Zero K, Zero V}.
Implicit Types (t : BETree K V) (os : list (op K V)) (rs : list (result K V)).

(** The entries a history wrote. *)
Definition history_writes os : Z := sum_of call_writes os.

Lemma history_writes_nonneg os : (0 ≤ history_writes os)%Z.
Proof. apply sum_of_nonneg. by intros []. Qed.

(** A property of trees, indexed by a number of entries written, that calls and
    [Clear] preserve while they buffer at most [W] messages. *)
Lemma history_invariant (I : Z → BETree K V → Prop) (W : Z) :
  (∀ s t m w tr t', tree_ok t → I s t → calls t m w tr t' → (0 ≤ m ≤ W)%Z → (0 ≤ w ≤ 1)%Z → I (s + w)%Z t') →
  (∀ s t, tree_ok t → I s t → I s (Clear t)) → (∀ s s' t, (s ≤ s')%Z → I s t → I s' t) →
  ∀ os t l t' rs s, refines t l → I s t → exec_all t os = Some (t', rs) →
    Forall (λ p, (call_msgs p.1 p.2 ≤ W)%Z) (zip os rs) → I (s + history_writes os)%Z t'.
Proof.
  intros Hcall Hclear Hmono. induction os as [|o os IH]; intros t l t' rs s HR HI E HW; cbn [exec_all] in E.
  { injection E as <- <-. by rewrite Z.add_0_r. }
  apply bind_Some in E as ([t1 r] & E1 & E). apply bind_Some in E as ([t2 rs2] & E2 & [= <- <-]).
  cbn [zip zip_with] in HW. apply Forall_cons in HW as [Hr HW]. cbn [fst snd] in Hr.
  unfold history_writes. rewrite sum_of_cons, Z.add_assoc.
  destruct (exec_step t l o HR) as (t1' & r' & Ex & HR1 & _). rewrite E1 in Ex. injection Ex as <- <-.
  eapply IH; [exact HR1| |exact E2|exact HW]. destruct (clears o) eqn:Hcl.
  - destruct o; try done. injection E1 as <- _. rewrite Z.add_0_r. apply Hclear; [apply HR|done].
  - pose proof (exec_traced_erase t o) as Er. rewrite E1 in Er.
    destruct (exec_traced t o) as [[[t1' r'] tr]|] eqn:Et; [|done]. injection Er as -> ->.
    destruct (exec_traced_calls t o t1 r tr (rf_ok _ _ HR) Hcl Et) as (m & w & Hc & Hm & Hw).
    apply (Hmono (s + w)%Z); [lia|]. eapply Hcall; [apply HR|exact HI|exact Hc|lia|].
    assert (call_writes o ≤ 1)%Z by (by destruct o). lia.
Qed.

End histories.

(** ** By depth *)

Section depth.
Context {K V : Type}.
Implicit Types (n c x : node K V) (cs : list (node K V)).

(** [x] is [d] levels under [n]. *)
Inductive node_at : node K V → nat → node K V → Prop :=
| at_root n : node_at n 0 n
| at_child ps cs buf bs c d x : c ∈ cs → node_at c d x → node_at (Internal ps cs buf bs) (S d) x.

Lemma room_at F C W n d x :
  node_at n d x → room F C W n → room F C (W * F ^ Z.of_nat d) x.
Proof.
  intros Hx. revert W. induction Hx as [n|ps cs buf bs c d x Hc _ IH]; intros W Hr.
  - by rewrite Z.mul_1_r.
  - apply room_internal in Hr as [_ Hr]. rewrite Forall_forall in Hr.
    rewrite Nat2Z.inj_succ, Z.pow_succ_r, Z.mul_assoc, (Z.mul_comm W F) by lia. auto.
Qed.

Lemma room_bounds F C W n : (0 ≤ C)%Z → (0 ≤ W)%Z → (1 ≤ F)%Z → room F C W n →
  (len (buffer n) ≤ (F - 1) * W)%Z ∧ (len (keys n) ≤ Z.max C (W + 1))%Z.
Proof.
  intros HC HW HF. destruct n as [ks vs|ps cs buf bs]; [cbn; split; [nia|done]|].
  intros [Hb _]%room_internal. cbn [buffer keys length]. split; [done|lia].
Qed.
End depth.
