(* ===== verification/Count.v ===== *)
(** * Comparisons

    What a search costs is the number of its calls of the comparator.  [counted]
    is a writer monad over the panics: a result with that number.  The searches of
    node.go and the descents of tree.go are written in it a second time
    ([existsInLeaf_n], [getFromNode_n], ...), with one [tick] for each call of the
    comparator; [uncount] forgets the number and gives back the definitions of
    Node.v and Tree.v.

    [bits n] is the number of steps of a binary search among [n] elements, the
    length of [n] in binary. *)

From S2P Require Import Prelude Order Slices Message Node LeafMerge Flush Iterator Tree Cursor Spec Cascade Shape.

(** ** The monad *)

Definition counted (A : Type) : Type := option (A * Z).

Section counted.
Context {A B : Type}.

Definition free (o : option A) : counted A := a ← o; Some (a, 0%Z).
Definition tick (o : option A) : counted A := a ← o; Some (a, 1%Z).
Definition seq_n (m : counted A) (f : A → counted B) : counted B :=
  '(a, i) ← m; '(b, j) ← f a; Some (b, (i + j)%Z).
Definition uncount (m : counted A) : option A := fst <$> m.

Lemma uncount_free o : uncount (free o) = o.
Proof. by destruct o. Qed.
Lemma uncount_tick o : uncount (tick o) = o.
Proof. by destruct o. Qed.

(** At most [c] comparisons, if it does not panic. *)
Definition within (c : Z) (m : counted A) : Prop := ∀ a i, m = Some (a, i) → (0 ≤ i ≤ c)%Z.

Lemma within_free o c : (0 ≤ c)%Z → within c (free o).
Proof. intros Hc a i. destruct o; [|done]. intros [= _ <-]. lia. Qed.
Lemma within_tick o c : (1 ≤ c)%Z → within c (tick o).
Proof. intros Hc a i. destruct o; [|done]. intros [= _ <-]. lia. Qed.
Lemma within_le m c c' : within c m → (c ≤ c')%Z → within c' m.
Proof. intros H Hc a i E. specialize (H a i E). lia. Qed.
End counted.

#[local] Notation "x ←ₙ m ; f" := (seq_n m (λ x, f))
  (at level 20, m at level 100, f at level 200, right associativity) : go_scope.
#[local] Notation "' p ←ₙ m ; f" := (seq_n m (λ x, let p := x in f))
  (at level 20, p pattern, m at level 100, f at level 200, right associativity) : go_scope.
#[local] Open Scope go_scope.

Lemma uncount_seq {A B} (m : counted A) (f : A → counted B) :
  uncount (seq_n m f) = uncount m ≫= λ a, uncount (f a).
Proof. destruct m as [[a i]|]; [|done]. cbn. by destruct (f a) as [[b j]|]. Qed.

Lemma within_seq {A B} (m : counted A) (f : A → counted B) c1 c2 c :
  within c1 m → (∀ a, uncount m = Some a → within c2 (f a)) → (c1 + c2 ≤ c)%Z → within c (seq_n m f).
Proof.
  intros Hm Hf Hc b n. unfold seq_n. destruct m as [[a i]|]; [|done]. cbn [mbind option_bind].
  destruct (f a) as [[b' j]|] eqn:E; [|done]. intros [= _ <-].
  specialize (Hm a i eq_refl). specialize (Hf a eq_refl b' j E). lia.
Qed.

(** ** Counting searches *)

Fixpoint bisect_n (test : nat → option bool) (fuel lo hi : nat) : counted nat :=
  if decide (lo < hi) then
    match fuel with
    | 0 => None
    | S fuel =>
        let mid := lo + (hi - lo) / 2 in
        b ←ₙ tick (test mid);
        if b : bool then bisect_n test fuel (mid + 1) hi else bisect_n test fuel lo mid
    end
  else free (Some lo).

Definition BinarySearchFunc_n {A T} (x : list A) (target : T) (cmp : A → T → Z) : counted (nat * bool) :=
  i ←ₙ bisect_n (λ h, e ← x !! h; Some (bool_decide (cmp e target < 0)%Z)) (length x) 0 (length x);
  if decide (i < length x) then tick (e ← x !! i; Some (i, bool_decide (cmp e target = 0)%Z))
  else free (Some (i, false)).

Fixpoint scan_while_n (test : nat → option bool) (fuel i n : nat) : counted nat :=
  if decide (i < n) then
    match fuel with
    | 0 => None
    | S fuel => b ←ₙ tick (test i); if b : bool then scan_while_n test fuel (S i) n else free (Some i)
    end
  else free (Some i).

Section nodes.
Context {K V : Type}.
Implicit Types (n : node K V).

Definition findChildIndex_n n (key : K) (compare : K → K → Z) : counted nat :=
  bisect_n (λ mid, p ← pivots n !! mid; Some (bool_decide (compare p key ≤ 0)%Z))
    (length (pivots n)) 0 (length (pivots n)).

Fixpoint leafSearch_loop_n (ks : list K) (key : K) (compare : K → K → Z) (fuel lo hi : nat)
    : counted (nat * bool) :=
  if decide (lo < hi) then
    match fuel with
    | 0 => None
    | S fuel =>
        let mid := lo + (hi - lo) / 2 in
        c ←ₙ tick (k ← ks !! mid; Some (compare k key));
        if decide (c = 0)%Z then free (Some (mid, true))
        else if decide (c < 0)%Z then leafSearch_loop_n ks key compare fuel (mid + 1) hi
        else leafSearch_loop_n ks key compare fuel lo mid
    end
  else free (Some (lo, false)).
Definition leafSearch_n n (key : K) (compare : K → K → Z) : counted (nat * bool) :=
  leafSearch_loop_n (keys n) key compare (length (keys n)) 0 (length (keys n)).

(** The linear scan compares every message. *)
Definition bufferMessagesForKey_n n (key : K) (compare : K → K → Z) : counted (list (Message K V)) :=
  let buf := buffer n in
  if bufferSorted n then
    '(i, found) ←ₙ BinarySearchFunc_n buf key (λ m k, compare (Key m) k);
    if found : bool then
      e ←ₙ scan_while_n (key_is compare buf key) (length buf) (i + 1) (length buf);
      free (slice buf i e)
    else free (Some [])
  else Some (filter (λ m, compare (Key m) key = 0%Z) buf, len buf).

Fixpoint existsInLeaf_n (compare : K → K → Z) n (key : K) : counted bool :=
  match n with
  | Leaf ks vs => '(_, found) ←ₙ leafSearch_n (Leaf ks vs) key compare; free (Some found)
  | Internal ps cs buf bs =>
      childIdx ←ₙ findChildIndex_n (Internal ps cs buf bs) key compare;
      found ←ₙ free (map (λ c, existsInLeaf_n compare c key) cs !! childIdx);
      found
  end.

Context `{Zero K, Zero V}.

Fixpoint getWithUpserts_n (compare : K → K → Z) n (key : K) (fns : list (option (UpsertFn V)))
    : counted (V * bool) :=
  match n with
  | Leaf ks vs =>
      '(i, found) ←ₙ leafSearch_n (Leaf ks vs) key compare;
      free (if found : bool then v ← vs !! i; applyUpsertChain v true fns
            else if decide (0 < length fns) then applyUpsertChain zero false fns
            else Some (zero, false))
  | Internal ps cs buf bs =>
      msgs ←ₙ bufferMessagesForKey_n (Internal ps cs buf bs) key compare;
      r ←ₙ free (scan_msgs (rev msgs) fns);
      match r with
      | inl result => free (Some result)
      | inr fns =>
          childIdx ←ₙ findChildIndex_n (Internal ps cs buf bs) key compare;
          get ←ₙ free (map (λ c, getWithUpserts_n compare c key) cs !! childIdx);
          get fns
      end
  end.
Definition getFromNode_n (t : BETree K V) n (key : K) : counted (V * bool) :=
  getWithUpserts_n (cmp t) n key [].

End nodes.

(** ** Forgetting the count *)

Lemma bisect_uncount test fuel lo hi : uncount (bisect_n test fuel lo hi) = bisect test fuel lo hi.
Proof.
  revert lo hi. induction fuel as [|fuel IH]; intros lo hi; cbn [bisect_n bisect];
    (case_decide; [|done]); [done|]. cbv zeta. rewrite uncount_seq, uncount_tick.
  destruct (test _) as [[]|]; [apply IH..|done].
Qed.

Lemma scan_while_uncount test fuel i n : uncount (scan_while_n test fuel i n) = scan_while test fuel i n.
Proof.
  revert i. induction fuel as [|fuel IH]; intros i; cbn [scan_while_n scan_while];
    (case_decide; [|done]); [done|]. rewrite uncount_seq, uncount_tick.
  destruct (test i) as [[]|]; [apply IH|done..].
Qed.

Lemma BinarySearchFunc_uncount {A T} (x : list A) (target : T) cmp :
  uncount (BinarySearchFunc_n x target cmp) = BinarySearchFunc x target cmp.
Proof.
  unfold BinarySearchFunc_n, BinarySearchFunc. rewrite uncount_seq, bisect_uncount.
  destruct (bisect _ _ _ _) as [i|]; [|done]. cbn [mbind option_bind].
  case_decide; [by rewrite uncount_tick|done].
Qed.

Section uncount.
Context {K V : Type} (compare : K → K → Z).
Implicit Types (n : node K V) (k : K).

Lemma findChildIndex_uncount n k : uncount (findChildIndex_n n k compare) = findChildIndex n k compare.
Proof. apply bisect_uncount. Qed.

Lemma leafSearch_uncount n k : uncount (leafSearch_n n k compare) = leafSearch n k compare.
Proof.
  unfold leafSearch_n, leafSearch. generalize (length (keys n)) at 1 3 as fuel.
  generalize 0, (length (keys n)) as hi. intros lo hi fuel. revert lo hi.
  induction fuel as [|fuel IH]; intros lo hi; cbn [leafSearch_loop_n leafSearch_loop];
    (case_decide; [|done]); [done|]. cbv zeta. rewrite uncount_seq, uncount_tick.
  destruct (keys n !! _) as [x|]; [|done]. cbn [mbind option_bind]. repeat case_decide; (done || apply IH).
Qed.

Lemma bufferMessagesForKey_uncount n k :
  uncount (bufferMessagesForKey_n n k compare) = bufferMessagesForKey n k compare.
Proof.
  unfold bufferMessagesForKey_n, bufferMessagesForKey. cbv zeta. destruct (bufferSorted n); [|done].
  rewrite uncount_seq, BinarySearchFunc_uncount. destruct (BinarySearchFunc _ _ _) as [[i []]|]; [|done..].
  cbn [mbind option_bind]. rewrite uncount_seq, scan_while_uncount.
  destruct (scan_while _ _ _ _); [|done]. cbn [mbind option_bind]. apply uncount_free.
Qed.

Lemma existsInLeaf_uncount n k : uncount (existsInLeaf_n compare n k) = existsInLeaf compare n k.
Proof.
  induction n as [ks vs|ps cs buf bs IH] using node_tree_ind; cbn [existsInLeaf_n existsInLeaf].
  - rewrite uncount_seq, leafSearch_uncount. by destruct (leafSearch _ _ _) as [[]|].
  - rewrite uncount_seq, findChildIndex_uncount. destruct (findChildIndex _ _ _) as [i|]; [|done].
    cbn [mbind option_bind]. rewrite uncount_seq, uncount_free.
    change (map ?f cs) with (f <$> cs). rewrite !list_lookup_fmap.
    destruct (cs !! i) as [c|] eqn:Hc; [|done]. cbn [fmap option_fmap option_map mbind option_bind].
    rewrite Forall_forall in IH. by eapply IH, list_elem_of_lookup_2.
Qed.

Context `{Zero K, Zero V}.

Lemma getWithUpserts_uncount n k fns :
  uncount (getWithUpserts_n compare n k fns) = getWithUpserts compare n k fns.
Proof.
  revert fns. induction n as [ks vs|ps cs buf bs IH] using node_tree_ind; intros fns;
    cbn [getWithUpserts_n getWithUpserts].
  - rewrite uncount_seq, leafSearch_uncount. destruct (leafSearch _ _ _) as [[i b]|]; [|done].
    cbn [mbind option_bind]. apply uncount_free.
  - rewrite uncount_seq, bufferMessagesForKey_uncount. destruct (bufferMessagesForKey _ _ _) as [msgs|]; [|done].
    cbn [mbind option_bind]. rewrite uncount_seq, uncount_free. destruct (scan_msgs _ _) as [[r|fns']|]; [done| |done].
    cbn [mbind option_bind]. rewrite uncount_seq, findChildIndex_uncount.
    destruct (findChildIndex _ _ _) as [i|]; [|done]. cbn [mbind option_bind]. rewrite uncount_seq, uncount_free.
    change (map ?f cs) with (f <$> cs). rewrite !list_lookup_fmap.
    destruct (cs !! i) as [c|] eqn:Hc; [|done]. cbn [fmap option_fmap option_map mbind option_bind].
    rewrite Forall_forall in IH. by eapply IH, list_elem_of_lookup_2.
Qed.

End uncount.

(** ** Bounds *)

Definition bits (n : Z) : Z := Z.log2 (2 * n).

Lemma bits_nonneg n : (0 ≤ bits n)%Z.
Proof. apply Z.log2_nonneg. Qed.
Lemma bits_mono m n : (m ≤ n)%Z → (bits m ≤ bits n)%Z.
Proof. intros. apply Z.log2_le_mono. lia. Qed.

(** A step of a binary search leaves half of the interval. *)
Lemma bits_half (n : nat) : 0 < n → (1 + bits (Z.of_nat (n / 2)) ≤ bits (Z.of_nat n))%Z.
Proof.
  intros Hn. unfold bits. rewrite Nat2Z.inj_div. change (Z.of_nat 2) with 2%Z.
  rewrite (Z.log2_double (Z.of_nat n)) by lia.
  pose proof (Z.mul_div_le (Z.of_nat n) 2 ltac:(lia)) as Hd. apply Z.log2_le_mono in Hd. lia.
Qed.

Section bounds.

(** The two halves that a step can leave. *)
Lemma halves_le lo hi (mid := lo + (hi - lo) / 2) :
  lo < hi → hi - (mid + 1) ≤ (hi - lo) / 2 ∧ mid - lo ≤ (hi - lo) / 2.
Proof.
  intros Hlt. subst mid. pose proof (Nat.div_mod_eq (hi - lo) 2).
  pose proof (Nat.mod_upper_bound (hi - lo) 2). lia.
Qed.

Lemma bisect_within test fuel lo hi : within (bits (Z.of_nat (hi - lo))) (bisect_n test fuel lo hi).
Proof.
  revert lo hi. induction fuel as [|fuel IH]; intros lo hi; cbn [bisect_n]; case_decide as Hlt;
    try (apply within_free, bits_nonneg); [done|]. cbv zeta.
  pose proof (bits_half (hi - lo) ltac:(lia)). destruct (halves_le lo hi Hlt) as [H1 H2].
  eapply (within_seq _ _ 1 (bits (Z.of_nat ((hi - lo) / 2)))); [by apply within_tick| |lia].
  intros [] _; (eapply within_le; [apply IH|]); apply bits_mono; lia.
Qed.

Lemma scan_while_within test fuel i n : within (Z.of_nat (n - i)) (scan_while_n test fuel i n).
Proof.
  revert i. induction fuel as [|fuel IH]; intros i; cbn [scan_while_n]; case_decide as Hlt;
    try (apply within_free; lia); [done|].
  eapply (within_seq _ _ 1 (Z.of_nat (n - S i))); [by apply within_tick| |lia].
  intros [] _; [apply IH|apply within_free; lia].
Qed.

Context {K V : Type} (compare : K → K → Z).
Implicit Types (n : node K V) (k : K).

Lemma findChildIndex_within n k : within (bits (len (pivots n))) (findChildIndex_n n k compare).
Proof. eapply within_le; [apply bisect_within|]. by rewrite Nat.sub_0_r. Qed.

Lemma leafSearch_within n k : within (bits (len (keys n))) (leafSearch_n n k compare).
Proof.
  unfold leafSearch_n. generalize (length (keys n)) at 2 as fuel. intros fuel.
  enough (∀ lo hi, within (bits (Z.of_nat (hi - lo))) (leafSearch_loop_n (keys n) k compare fuel lo hi)) as Hw.
  { specialize (Hw 0 (length (keys n))). by rewrite Nat.sub_0_r in Hw. }
  induction fuel as [|fuel IH]; intros lo hi; cbn [leafSearch_loop_n]; case_decide as Hlt;
    try (apply within_free, bits_nonneg); [done|]. cbv zeta.
  pose proof (bits_half (hi - lo) ltac:(lia)). destruct (halves_le lo hi Hlt) as [H1 H2].
  eapply (within_seq _ _ 1 (bits (Z.of_nat ((hi - lo) / 2)))); [by apply within_tick| |lia].
  intros c _. repeat case_decide; [apply within_free, bits_nonneg|..];
    (eapply within_le; [apply IH|]); apply bits_mono; lia.
Qed.

(** A buffer of one message is searched, a longer one scanned, provided its flag
    says sorted only when it is not longer. *)
Lemma bufferMessagesForKey_within n k :
  (bufferSorted n = true → length (buffer n) ≤ 1) →
  within (len (buffer n) + 1) (bufferMessagesForKey_n n k compare).
Proof.
  intros Hflag. unfold bufferMessagesForKey_n. cbv zeta. destruct (bufferSorted n).
  - specialize (Hflag eq_refl). set (buf := buffer n) in *.
    eapply (within_seq _ _ (len buf + 1) 0); [|intros [i []] E; [|by apply within_free]|lia].
    + unfold BinarySearchFunc_n. eapply (within_seq _ _ (len buf) 1); [| |lia].
      * eapply within_le; [apply bisect_within|]. rewrite Nat.sub_0_r.
        destruct (length buf) as [|[|]]; [done|done|lia].
      * intros i _. case_decide; [by apply within_tick|by apply within_free].
    + eapply (within_seq _ _ 0 0); [|intros; by apply within_free|lia].
      eapply within_le; [apply scan_while_within|]. lia.
  - intros a i [= _ <-]. lia.
Qed.
End bounds.

(** ** The flag *)

Section flag.
Context {K V : Type}.
Implicit Types (t : BETree K V) (n c l r : node K V) (L R cs : list (node K V)).

(** No buffer of more than one message is marked sorted. *)
Fixpoint flagged n : Prop :=
  match n with
  | Leaf _ _ => True
  | Internal _ cs buf bs => (bs = true → length buf ≤ 1) ∧ foldr (λ c P, flagged c ∧ P) True cs
  end.

Lemma flagged_internal ps cs buf bs :
  flagged (Internal ps cs buf bs) ↔ (bs = true → length buf ≤ 1) ∧ Forall flagged cs.
Proof.
  cbn [flagged]. f_equiv. induction cs as [|c cs IH]; cbn [foldr]; [by split|].
  rewrite Forall_cons. tauto.
Qed.

Lemma halves_flagged (compare : K → K → Z) n l r : halves compare n l r → flagged n → flagged l ∧ flagged r.
Proof.
  intros [|ps1 p ps2 cs1 cs2 buf bs _ _]; [done|]. rewrite !flagged_internal. intros [Hb [H1 H2]%Forall_app].
  pose proof (length_filter_le (λ m : Message K V, compare (Key m) p < 0)%Z buf).
  pose proof (length_filter_le (λ m : Message K V, ¬ compare (Key m) p < 0)%Z buf).
  split_and!; try done; intros Hs; specialize (Hb Hs); lia.
Qed.

Lemma settles_flagged (compare : K → K → Z) big ps L c R buf n :
  settles compare big ps L c R buf n → Forall flagged L → Forall flagged R → flagged c → flagged n.
Proof.
  intros [_|ps' l r _ Hh _] HL HR Hc; apply flagged_internal; (split; [done|]);
    (apply Forall_app; split; [done|]); [by constructor|].
  destruct (halves_flagged compare c l r Hh Hc). by repeat constructor.
Qed.

Lemma flushes_flagged t n tr t' n' : flushes t n tr t' n' → flagged n → flagged n'.
Proof.
  induction 1 as [t n _|t ds dp ps L ks vs ks' vs' R buf bs bucket keep n' _ _ _ Hset
    |t ps L cps ccs cbuf cbs R buf bs bucket keep c n' _ _ Hset
    |t ds dp ps L cps ccs cbuf cbs c1 R buf bs bucket keep moved n' _ _ _ IH Hset]; [done|..];
    intros [_ [HL [Hc HR]%Forall_cons]%Forall_app]%flagged_internal;
    apply (settles_flagged _ _ _ _ _ _ _ _ Hset); try done.
  - by apply flagged_internal in Hc as [_ Hc]; apply flagged_internal.
  - apply IH. by apply flagged_internal in Hc as [_ Hc]; apply flagged_internal.
Qed.

Lemma calls_flagged t m w tr t' : calls t m w tr t' → flagged (root t) → flagged (root t').
Proof.
  assert (∀ (compare : K → K → Z) big n n', reroots compare big n n' → flagged n → flagged n') as Hre.
  { intros compare big n n' [_|p l r _ Hh] Hn; [done|]. destruct (halves_flagged compare n l r Hh Hn).
    apply flagged_internal. split; [done|]. by repeat constructor. }
  intros [t2 Er Hp|t2 ks vs ks' vs' Er Er' Hk Hp|t2 w2 ks vs ks' vs' Er _ Hk Hroot Hp
         |t1 msgs ps cs buf bs bs' tr2 t2 Er Er1 Hflag Hp Hok Ho] Hn.
  - by rewrite Er.
  - by rewrite Er'.
  - by apply (Hre _ _ _ _ Hroot).
  - assert (flagged (root t1)) as H1.
    { rewrite Er1. rewrite Er in Hn. apply flagged_internal in Hn as [_ Hn]. by apply flagged_internal. }
    destruct Ho as [t1 _|t1 ds dp tr3 n1 n' _ Hfl Hroot]; [done|].
    apply (Hre _ _ _ _ Hroot). by apply (flushes_flagged _ _ _ _ _ Hfl).
Qed.
End flag.

(** ** A descent *)

Section descent.
Context {K V : Type}.
Implicit Types (n c : node K V) (k : K).

(** No leaf under [n] is longer than [C], no buffer longer than [B]. *)
Definition sized (B C : Z) n : Prop :=
  ∀ d x, node_at n d x → (len (buffer x) ≤ B)%Z ∧ (len (keys x) ≤ C)%Z.

Lemma sized_child B C ps cs buf bs c : sized B C (Internal ps cs buf bs) → c ∈ cs → sized B C c.
Proof. intros Hs Hc d x Hx. apply (Hs (S d)). by eapply at_child. Qed.

Lemma height_elem ps cs buf bs c :
  c ∈ cs → (Z.of_nat (height c) + 1 ≤ Z.of_nat (height (Internal ps cs buf bs : node K V)))%Z.
Proof.
  cbn [height]. intros Hc. enough (height c ≤ foldr (λ c, Nat.max (height c)) 0 cs) by lia.
  induction Hc as [|c d cs _ IH]; cbn [foldr]; lia.
Qed.

Lemma pivots_bits (compare : K → K → Z) P h F ps cs buf bs :
  wf_node compare P h (Internal ps cs buf bs : node K V) → fan_ok F (Internal ps cs buf bs : node K V) →
  (bits (len ps) ≤ bits (F - 1))%Z.
Proof.
  intros (h' & _ & _ & _ & Hlen & _)%wf_internal_inv [Hf _]%fan_ok_internal. apply bits_mono. lia.
Qed.

Context (compare : K → K → Z) (F B C : Z).

(** A descent that looks at the leaf only compares with the pivots of its path and
    with the keys of the leaf. *)
Lemma existsInLeaf_within P h n k :
  wf_node compare P h n → fan_ok F n → sized B C n →
  within (Z.of_nat (height n) * bits (F - 1) + bits C) (existsInLeaf_n compare n k).
Proof.
  intros Hwf. induction Hwf as [P l Hs HP|P h ps cs buf bs Hs HPp Hlen Hw HPb Hbs Hcs IH];
    intros Hf Hsz; cbn [existsInLeaf_n].
  - eapply within_seq; [apply leafSearch_within|intros [i b] _; by apply within_free|].
    destruct (Hsz 0 _ (at_root _)) as [_ Hk]. apply bits_mono in Hk. cbn [height]. lia.
  - pose proof (pivots_bits compare P (S h) F ps cs buf bs ltac:(by econstructor) Hf) as Hb.
    apply fan_ok_internal in Hf as [_ Hf]. pose proof (bits_nonneg (F - 1)). pose proof (bits_nonneg C).
    eapply (within_seq _ _ (bits (len ps)) (Z.of_nat (height (Internal ps cs buf bs)) * bits (F - 1) + bits C - bits (F - 1)));
      [apply findChildIndex_within| |lia].
    intros i _. change (map ?f cs) with (f <$> cs). rewrite list_lookup_fmap.
    destruct (cs !! i) as [c|] eqn:Hc; [|done]. pose proof (list_elem_of_lookup_2 _ _ _ Hc) as Hin.
    pose proof (height_elem ps cs buf bs c Hin).
    eapply (within_seq _ _ 0); [by apply within_free|intros r [= <-]|].
    + apply (IH i c Hc); [by rewrite Forall_forall in Hf; apply Hf|by eapply sized_child].
    + nia.
Qed.

(** A full read also scans the buffers. *)
Lemma getWithUpserts_within `{Zero K, Zero V} P h n k fns :
  wf_node compare P h n → fan_ok F n → sized B C n → flagged n → (0 ≤ B)%Z →
  within (Z.of_nat (height n) * (B + 1 + bits (F - 1)) + bits C) (getWithUpserts_n compare n k fns).
Proof.
  intros Hwf. revert fns. induction Hwf as [P l Hs HP|P h ps cs buf bs Hs HPp Hlen Hw HPb Hbs Hcs IH];
    intros fns Hf Hsz Hfl HB; cbn [getWithUpserts_n].
  - eapply (within_seq _ _ _ 0); [apply leafSearch_within|intros [i b] _; by apply within_free|].
    destruct (Hsz 0 _ (at_root _)) as [_ Hk]. apply bits_mono in Hk. cbn [height]. lia.
  - pose proof (pivots_bits compare P (S h) F ps cs buf bs ltac:(by econstructor) Hf) as Hb.
    apply fan_ok_internal in Hf as [_ Hf]. apply flagged_internal in Hfl as [Hflag Hfl].
    destruct (Hsz 0 _ (at_root _)) as [Hbuf _]. cbn [buffer] in Hbuf.
    pose proof (bits_nonneg (F - 1)). pose proof (bits_nonneg C). set (cost := (B + 1 + bits (F - 1))%Z) in *.
    assert (1 ≤ height (Internal ps cs buf bs)) as Hh by (cbn [height]; lia).
    eapply (within_seq _ _ (len buf + 1) ((Z.of_nat (height (Internal ps cs buf bs)) - 1) * cost + bits (F - 1) + bits C));
      [by apply bufferMessagesForKey_within| |lia].
    intros msgs _. eapply (within_seq _ _ 0); [by apply within_free|intros r _|by rewrite Z.add_0_l].
    destruct r as [r|fns']; [apply within_free; nia|].
    eapply (within_seq _ _ (bits (len ps)) ((Z.of_nat (height (Internal ps cs buf bs)) - 1) * cost + bits C));
      [apply findChildIndex_within| |lia].
    intros i _. change (map ?f cs) with (f <$> cs). rewrite list_lookup_fmap.
    destruct (cs !! i) as [c|] eqn:Hc; [|done]. pose proof (list_elem_of_lookup_2 _ _ _ Hc) as Hin.
    pose proof (height_elem ps cs buf bs c Hin).
    eapply (within_seq _ _ 0 (Z.of_nat (height c) * cost + bits C));
      [by apply within_free|intros g [= <-]|nia].
    apply (IH i c Hc); try done.
    + by rewrite Forall_forall in Hf; apply Hf.
    + by eapply sized_child.
    + by rewrite Forall_forall in Hfl; apply Hfl.
Qed.

End descent.
