(* ===== verification/Examples.v ===== *)
(** * The example programs (examples/*/main.go)

    Each [main] is a value of [io], statement by statement; its name is the
    directory's.  [math.Pow] and the conversion of an out-of-range float to int
    are arguments, as everywhere; so are the codecs [NewDisk] has by default, and
    the options [opts] of the trees that the shorter programs build: the sources
    pass none, and the theorems are about any.  A struct literal list is a list; a
    [for] over a slice is [for_each]. *)

From Stdlib Require Import Ascii String SpecFloat.
From stdpp Require Import strings.
From S2P Require Import Prelude Order Keys Slices Message Node LeafMerge Flush Iterator Tree Cursor Spec Options Program Size Disk Codec Binary Gob Join Concurrent.

Section examples.
Context (Pow : spec_float → spec_float → spec_float) (oor : spec_float → Z) `{!∀ K V, Memory K V}.
(** The options of the trees: none in the sources. *)
Context (opts : list Option_).

(** ** examples/basic *)

Definition basic : io unit :=
  t ← fatal (New Pow oor (K := string) (V := Z) opts);
  t ← must (Put t "alice" 100%Z);
  t ← must (Put t "bob" 200%Z);
  t ← must (Put t "charlie" 300%Z);
  _ ← Println [AString "Len after 3 puts:"; AInt (Len t)];
  '(v, ok) ← must (Get t "bob");
  _ ← Printf "Get(bob) = %d, ok=%v\n" [AInt v; ABool ok];
  b ← must (Contains t "alice");
  _ ← Println [AString "Contains(alice):"; ABool b];
  b ← must (Contains t "dave");
  _ ← Println [AString "Contains(dave):"; ABool b];
  t ← must (Put t "alice" 999%Z);
  '(v, _) ← must (Get t "alice");
  _ ← Println [AString "alice after overwrite:"; AInt v];
  '(t, deleted) ← must (Delete t "bob");
  _ ← Println [AString "Deleted bob:"; ABool deleted];
  _ ← Println [AString "Len after delete:"; AInt (Len t)];
  let t := Clear t in
  Println [AString "Len after clear:"; AInt (Len t)].

(** ** examples/range *)

(** [for c.Next() { ... }]; the cursor has [fuel] entries at most. *)
Fixpoint for_next {K V} (fuel : nat) (c : Cursor K V) (body : K → V → io unit) : io (Cursor K V) :=
  match fuel with
  | 0 => λ out, (Panicked, out)
  | S fuel =>
      let '(c, ok) := Next c in
      if ok : bool then
        k ← must (c_Key c); v ← must (c_Value c); _ ← body k v; for_next fuel c body
      else mret c
  end.

Definition print_pair (k : Z) (v : string) : io unit := Printf "  %d -> %s\n" [AInt k; AString v].

Definition range : io unit :=
  t ← fatal (New Pow oor (K := Z) (V := string) opts);
  t ← for_each [0; 10; 20; 30; 40; 50; 60; 70; 80; 90]%Z (λ t i,
    s ← must (Sprintf "val%d" [AInt i]); must (Put t i s)) t;
  _ ← Say "Range [20, 60):";
  it ← must (Range t 20%Z 60%Z);
  _ ← for_print it print_pair;
  _ ← Say "\nDescend (all):";
  it ← must (Descend t);
  _ ← for_print it print_pair;
  _ ← Say "\nCursor: seek(45), then Next:";
  c ← must (Cursor_ t);
  '(c, ok) ← must (Seek c 45%Z);
  if ok : bool then
    k ← must (c_Key c); v ← must (c_Value c); _ ← print_pair k v;
    c ← for_next (S (length (pairs c))) c print_pair;
    mret tt
  else mret tt.

(** ** examples/upsert *)

Definition upsert : io unit :=
  t ← fatal (New Pow oor (K := string) (V := Z) opts);
  t ← for_each ["go"; "tree"; "go"; "fractal"; "tree"; "go"] (λ t w,
    must (Upsert t w (Some (Increment 1%Z)))) t;
  _ ← Say "Word counts:";
  it ← must (All t);
  _ ← for_print it (λ k v, Printf "  %s: %d\n" [AString k; AInt v]);
  '(t, inserted) ← must (PutIfAbsent t "go" 999%Z);
  _ ← Printf "\nPutIfAbsent(go, 999) inserted: %v\n" [ABool inserted];
  '(v, _) ← must (Get t "go");
  _ ← Println [AString "go count unchanged:"; AInt v];
  '(t, inserted) ← must (PutIfAbsent t "new" 1%Z);
  _ ← Printf "PutIfAbsent(new, 1) inserted: %v\n" [ABool inserted];
  t2 ← must (if New Pow oor (K := string) (V := string) opts is Some (inr t2) then Some t2 else None);
  t2 ← must (Put t2 "status" "pending");
  t2 ← must (Upsert t2 "status" (Some (CompareAndSwap String.eqb "pending" "active")));
  '(s, _) ← must (Get t2 "status");
  _ ← Printf "\nCAS pending->active: status=%s\n" [AString s];
  t2 ← must (Upsert t2 "status" (Some (CompareAndSwap String.eqb "pending" "closed")));
  '(s, _) ← must (Get t2 "status");
  Printf "CAS pending->closed (mismatch): status=%s\n" [AString s].

(** ** examples/comparator *)

Definition comparator : io unit :=
  t ← fatal (NewWithCompare Pow oor (V := string) (Some compareTenantKeys) opts);
  t ← must (Put t (mkTenantKey "acme" 3) "widget");
  t ← must (Put t (mkTenantKey "acme" 1) "gadget");
  t ← must (Put t (mkTenantKey "beta" 2) "thing");
  t ← must (Put t (mkTenantKey "acme" 2) "doohickey");
  _ ← Say "All entries in order:";
  it ← must (All t);
  _ ← for_print it (λ k v, Printf "  {%s, %d} -> %s\n" [AString (Tenant k); AInt (ID k); AString v]);
  '(v, ok) ← must (Get t (mkTenantKey "beta" 2));
  Printf "\nGet({beta, 2}) = %q, ok=%v\n" [AString v; ABool ok].

(** ** examples/eviction *)

Definition print_entry (k : cacheEntry) (v : string) : io unit :=
  Printf "  t=%d  %-8s -> %s\n" [AInt (lastAccess k); AString (ce_key k); AString v].

Definition eviction : io unit :=
  cache ← fatal (NewWithCompare Pow oor (V := string) (Some compareCacheEntries) opts);
  let accesses := [mkCacheEntry 1 "user:1"; mkCacheEntry 2 "user:2"; mkCacheEntry 3 "user:3";
                   mkCacheEntry 4 "user:4"; mkCacheEntry 5 "user:5"] in
  cache ← for_each accesses (λ cache e, must (Put cache e ("data-for-" +:+ ce_key e))) cache;
  _ ← Say "=== Cache (oldest first) ===";
  it ← must (Ascend cache);
  _ ← for_print it print_entry;
  _ ← Say "\n--- New entry: user:6 at t=6, cache full ---";
  c ← must (Cursor_ cache);
  let '(c, _) := Next c in
  oldest ← must (c_Key c);
  _ ← Printf "  Evicting: t=%d %s\n" [AInt (lastAccess oldest); AString (ce_key oldest)];
  '(cache, _) ← must (Delete cache oldest);
  cache ← must (Put cache (mkCacheEntry 6 "user:6") "data-for-user:6");
  _ ← Say "  Re-accessing: user:2 at t=7";
  '(cache, _) ← must (Delete cache (mkCacheEntry 2 "user:2"));
  cache ← must (Put cache (mkCacheEntry 7 "user:2") "data-for-user:2");
  _ ← Say "\n=== Cache after eviction + re-access ===";
  it ← must (Ascend cache);
  for_print it print_entry.

(** ** examples/leaderboard *)

Definition print_top (top : Z) (it : Seq2 Entry unit) : io Z :=
  for_range it (λ rank k _,
    let rank := (rank + 1)%Z in
    _ ← Printf "  #%d  %-10s %d pts\n" [AInt rank; AString (Name k); AInt (Score k)];
    mret (rank, negb (rank =? top)%Z)) 0%Z.

Definition leaderboard : io unit :=
  t ← fatal (NewWithCompare Pow oor (V := unit) (Some compareEntries) opts);
  let scores := [mkScoreEntry 1500 "alice"; mkScoreEntry 2300 "bob"; mkScoreEntry 1800 "charlie";
                 mkScoreEntry 2300 "dave"; mkScoreEntry 3100 "eve"; mkScoreEntry 900 "frank";
                 mkScoreEntry 2100 "grace"; mkScoreEntry 1800 "heidi"] in
  t ← for_each scores (λ t s, must (Put t s tt)) t;
  _ ← Say "=== Top 5 Leaderboard ===";
  it ← must (Ascend t);
  _ ← print_top 5 it;
  '(t, _) ← must (Delete t (mkScoreEntry 900 "frank"));
  t ← must (Put t (mkScoreEntry 5000 "frank") tt);
  _ ← Say "\n=== After frank's big game ===";
  it ← must (Ascend t);
  _ ← print_top 3 it;
  mret tt.

(** ** examples/prefixscan *)

Definition print_kv (k v : string) : io unit := Printf "  %-25s = %s\n" [AString k; AString v].

(** [p[:len(p)-1] + ";"]; the slice panics on the empty string. *)
Definition next_prefix (p : string) : option string :=
  if decide (p = EmptyString) then None
  else Some (String.substring 0 (String.length p - 1) p +:+ ";").

Definition prefixscan : io unit :=
  t ← fatal (New Pow oor (K := string) (V := string) opts);
  let entries := [("config:db.host", "localhost"); ("config:db.port", "5432"); ("config:db.name", "myapp");
    ("config:cache.ttl", "300"); ("config:cache.size", "1024"); ("user:1:name", "alice");
    ("user:1:email", "alice@example.com"); ("user:2:name", "bob"); ("user:2:email", "bob@example.com");
    ("user:10:name", "jack"); ("session:abc123", "user:1"); ("session:def456", "user:2")] in
  t ← for_each entries (λ t e, must (Put t e.1 e.2)) t;
  _ ← Printf "Total keys: %d\n\n" [AInt (Len t)];
  _ ← Say "=== config:* ===";
  it ← must (Range t "config:" "config;");
  _ ← for_print it print_kv;
  _ ← Say "\n=== user:1:* ===";
  it ← must (Range t "user:1:" "user:1;");
  _ ← for_print it print_kv;
  _ ← Say "\n=== user:* ===";
  it ← must (Range t "user:" "user;");
  _ ← for_print it print_kv;
  _ ← Say "\n=== session:* ===";
  it ← must (Range t "session:" "session;");
  _ ← for_print it print_kv;
  _ ← Say "\n=== Key counts by prefix ===";
  for_each ["config:"; "user:"; "session:"] (λ _ p,
    hi ← must (next_prefix p);
    it ← must (Range t p hi);
    count ← for_range it (λ count _ _, mret ((count + 1)%Z, true)) 0%Z;
    Printf "  %-12s %d keys\n" [AString (p +:+ "*"); AInt count]) tt.

(** ** examples/ratelimiter *)

Definition ratelimiter : io unit :=
  t ← fatal (NewWithCompare Pow oor (V := Z) (Some compareBucketKeys) opts);
  let limit := 5%Z in
  let requests := [("alice", 100); ("alice", 100); ("alice", 100);
    ("alice", 101); ("alice", 101); ("alice", 101);
    ("alice", 101); ("alice", 101); ("alice", 101);
    ("alice", 102); ("alice", 102);
    ("bob", 100); ("bob", 100); ("bob", 100); ("bob", 100)]%Z in
  t ← for_each requests (λ t r,
    let key := mkBucketKey r.1 r.2 in
    must (Upsert t key (Some (Increment 1%Z)))) t;
  _ ← Say "=== Rate check ===";
  it ← must (All t);
  _ ← for_print it (λ k v,
    let status := if (limit <? v)%Z then "RATE LIMITED" else "OK" in
    Printf "  client=%-6s second=%d  count=%d  %s\n"
      [AString (client k); AInt (second k); AInt v; AString status]);
  '(t, removed) ← must (DeleteRange t (mkBucketKey "alice" 0) (mkBucketKey "alice" 101));
  _ ← Printf "\n=== Expired %d old alice buckets ===\n" [AInt removed];
  _ ← Say "\n=== After expiry ===";
  it ← must (All t);
  for_print it (λ k v,
    Printf "  client=%-6s second=%d  count=%d\n" [AString (client k); AInt (second k); AInt v]).

(** ** examples/timeseries *)

(** Package time in UTC: a time is its nanoseconds since 1970, a duration is in
    nanoseconds.  The days of a date are those of the proleptic Gregorian
    calendar, counted from March. *)
Definition Hour : Z := 3600 * 10^9.
Definition days_from_civil (y m d : Z) : Z :=
  let y := if decide (m ≤ 2)%Z then (y - 1)%Z else y in
  let era := (y / 400)%Z in
  let yoe := (y - era * 400)%Z in
  let doy := ((153 * ((m + 9) mod 12) + 2) / 5 + d - 1)%Z in
  (era * 146097 + (yoe * 365 + yoe / 4 - yoe / 100 + doy) - 719468)%Z.
Definition Date (y m d : Z) : Z := (days_from_civil y m d * 24 * Hour)%Z.
Definition Unix (t : Z) : Z := (t / 10^9)%Z.
(** [time.Unix(ts, 0).UTC().Format("15:04")]. *)
Definition two_digits (n : Z) : string :=
  if decide (n < 10)%Z then String "0" (string_of_Z n) else string_of_Z n.
Definition clock (ts : Z) : string :=
  two_digits (ts / 3600 mod 24) +:+ ":" +:+ two_digits (ts / 60 mod 60).

Definition print_event (ts : Z) (desc : string) : io unit := Printf "  [%s] %s\n" [AString (clock ts); AString desc].

Definition timeseries : io unit :=
  t ← fatal (New Pow oor (K := Z) (V := string) opts);
  let base := Date 2025 1 15 in
  let events := [(0, "server start"); (1, "first user login"); (3, "batch job started");
    (4, "batch job completed"); (6, "traffic spike detected"); (8, "deploy v2.1.0");
    (10, "cache miss rate elevated"); (12, "midday health check"); (16, "deploy v2.1.1 (hotfix)");
    (20, "daily backup started"); (22, "daily backup completed")]%Z in
  t ← for_each events (λ t e, let ts := Unix (base + e.1 * Hour) in must (Put t ts e.2)) t;
  _ ← Printf "Total events: %d\n\n" [AInt (Len t)];
  let start := Unix (base + 3 * Hour) in
  let end_ := Unix (base + 9 * Hour) in
  _ ← Say "=== Events from 03:00 to 09:00 ===";
  it ← must (Range t start end_);
  _ ← for_print it print_event;
  _ ← Say "\n=== Last 3 events ===";
  it ← must (Descend t);
  _ ← for_range it (λ count ts desc,
    _ ← print_event ts desc;
    let count := (count + 1)%Z in
    mret (count, negb (count =? 3)%Z)) 0%Z;
  let cutoff := Unix (base + 10 * Hour) in
  '(t, removed) ← must (DeleteRange t 0%Z cutoff);
  _ ← Printf "\n=== Expired %d events before 10:00 ===\n" [AInt removed];
  Printf "Remaining: %d events\n" [AInt (Len t)].

(** ** examples/mergejoin *)

Definition print_user (p : Z * string) : io unit := Printf "  user %d: %s\n" [AInt p.1; AString p.2].

Definition buildSignups : io (BETree Z string) :=
  t ← fatal (New Pow oor (K := Z) (V := string) opts);
  for_each [(101, "alice"); (103, "charlie"); (105, "eve"); (107, "grace"); (109, "iris"); (111, "kate")]%Z
    (λ t p, must (Put t p.1 p.2)) t.
Definition buildPurchases : io (BETree Z string) :=
  t ← fatal (New Pow oor (K := Z) (V := string) opts);
  for_each [(100, "external-buyer"); (103, "charlie"); (105, "eve"); (106, "frank"); (109, "iris"); (112, "liam")]%Z
    (λ t p, must (Put t p.1 p.2)) t.

(** The joins with what they print; [mergeJoin] and [antiJoin] are the loops. *)
Definition print_mergeJoin (fuel : nat) (signups purchases : BETree Z string) : io unit :=
  _ ← Say "=== Users who signed up AND purchased ===";
  '(users, matches) ← must (mergeJoin fuel signups purchases);
  _ ← for_each users (λ _ p, print_user p) tt;
  Printf "\nTotal matches: %d (out of %d signups, %d purchasers)\n"
    [AInt matches; AInt (Len signups); AInt (Len purchases)].
Definition print_antiJoin (fuel : nat) (signups purchases : BETree Z string) : io unit :=
  _ ← Say "\n=== Signed up but did NOT purchase ===";
  users ← must (antiJoin fuel signups purchases);
  for_each users (λ _ p, print_user p) tt.

(** Twelve entries, so twelve iterations at most. *)
Definition mergejoin : io unit :=
  signups ← buildSignups;
  purchases ← buildPurchases;
  _ ← print_mergeJoin 12 signups purchases;
  print_antiJoin 12 signups purchases.

(** ** examples/disktree-binary, disktree-gob, disktree-varint *)

(** An error value is its text. *)
Definition text_codec {E T} (text : E → string) (c : Codec E T) : Codec string T :=
  let show {A} (r : E + A) : string + A := match r with inl e => inl (text e) | inr a => inr a end in
  mkCodec (λ v, r ← Encode c v; Some (show r)) (λ data, r ← Decode c data; Some (show r)).
Definition text_flusher {S E} (text : E → string) (f : Flusher S E) : Flusher S string :=
  let show (r : S * option E) : S * option string := (r.1, text <$> r.2) in
  mkFlusher (λ id data s, show (WriteNode f id data s))
    (λ id s, let '(s, r) := ReadNode f id s in (s, match r with inl e => inl (text e) | inr b => inr b end))
    (λ s, show (Sync f s)) (λ s, show (FlusherClose f s)).

Definition node_not_found (e : MemFlusher.err) : string :=
  match e with MemFlusher.NotFound id => "node " +:+ string_of_Z (Z.of_N id) +:+ " not found" end.
Definition newMemFlusher : Flusher MemFlusher.nodes string := text_flusher node_not_found MemFlusher.memFlusher.

(** [opts] as options of the disk tree. *)
Definition tree_opts {E K V} : DiskOption (E := E) (K := K) (V := V) :=
  λ o, mkDiskOptions (treeOpts o ++ opts) (keyCodec o) (valCodec o).
(** [if err := t.Close(); err != nil { log.Fatal(err) }]. *)
Definition close_text (e : close_error string) : string :=
  match e with FlusherSync e => "flusher sync: " +:+ e | FlusherCloseErr e => "flusher close: " +:+ e end.
Definition close_or_fatal {S K V} (t : DiskBETree S string K V) : io unit := λ out,
  match (DiskClose t).2 with Some e => (Fatal (close_text e), out) | None => (Done tt, out) end.

Definition read_error_text (e : read_error) : string :=
  match e with EOF => "EOF" | ErrUnexpectedEOF => "unexpected EOF" end.
#[export] Instance Zero_float64 : Zero spec_float := S754_zero false.

(** A decimal literal with two decimals. *)
Definition cents (n : Z) : spec_float := SFdiv prec emax (float64 n) (float64 100).

(** [x, _ := c.Encode(v)]: nil on an error. *)
Definition encoded {E T} (c : Codec E T) (v : T) : io (list Z) :=
  r ← must (Encode c v); mret (if r is inr bs then bs else []).

Definition disktree_binary (gobK : Codec string Z) (gobV : Codec string spec_float) : io unit :=
  let kc := text_codec read_error_text (BinaryCodec.codec (T := Z)) in
  let vc := text_codec read_error_text (BinaryCodec.codec (T := spec_float)) in
  t ← fatal (NewDisk Pow oor gobK gobV newMemFlusher ∅ [WithKeyCodec kc; WithValueCodec vc; tree_opts]);
  t ← must (DiskPut t 1%Z (cents 314));
  t ← must (DiskPut t 2%Z (cents 272));
  t ← must (DiskPut t 3%Z (cents 141));
  _ ← Say "All entries:";
  it ← must (DiskAll t);
  _ ← for_print it (λ k v, Printf "  %d -> %.2f\n" [AInt k; AFloat v]);
  kb ← encoded kc 1%Z;
  vb ← encoded vc (cents 314);
  _ ← Printf "\nEncoded int32 key:    %d bytes\n" [AInt (len kb)];
  _ ← Printf "Encoded float64 val:  %d bytes\n" [AInt (len vb)];
  close_or_fatal t.

Definition disktree_gob (gobK : Codec string string) (gobV : Codec string Z) : io unit :=
  t ← fatal (NewDisk Pow oor gobK gobV newMemFlusher ∅ [tree_opts]);
  t ← must (DiskPut t "alice" 100%Z);
  t ← must (DiskPut t "bob" 200%Z);
  t ← must (DiskPut t "charlie" 300%Z);
  _ ← Say "All entries:";
  it ← must (DiskAll t);
  _ ← for_print it (λ k v, Printf "  %s -> %d\n" [AString k; AInt v]);
  '(v, ok) ← must (DiskGet t "bob");
  _ ← Printf "\nGet(bob) = %d, ok=%v\n" [AInt v; ABool ok];
  _ ← Println [AString "Len:"; AInt (DiskLen t)];
  kb ← encoded gobK "alice";
  _ ← Printf ("\nGobCodec(" +:+ String "034" "alice" +:+ String "034" "): %d bytes\n") [AInt (len kb)];
  close_or_fatal t.

Definition decode_error_text (e : decode_error) : string :=
  match e with
  | InvalidVarint => "invalid varint"
  | DataTooShort want have_ =>
      "data too short: want " +:+ string_of_Z want +:+ " bytes, have " +:+ string_of_Z have_
  end.
Definition varint_codec : Codec string string :=
  mkCodec (λ s, bs ← VarintStringCodec.Encode (bytes_of s); Some (inr bs))
    (λ data, r ← VarintStringCodec.Decode data;
      Some match r with inl e => inl (decode_error_text e) | inr bs => inr (string_of bs) end).

Definition disktree_varint (gob : Codec string string) : io unit :=
  t ← fatal (NewDisk Pow oor gob gob newMemFlusher ∅ [WithKeyCodec varint_codec; WithValueCodec varint_codec; tree_opts]);
  t ← must (DiskPut t "hello" "world");
  t ← must (DiskPut t "foo" "bar");
  t ← must (DiskPut t "fractaltree" "fast");
  _ ← Say "All entries:";
  it ← must (DiskAll t);
  _ ← for_print it (λ k v, Printf "  %s -> %s\n" [AString k; AString v]);
  _ ← Say "\nEncoded sizes:";
  _ ← for_each ["go"; "fractaltree"; "hello world"] (λ _ w,
    vb ← encoded varint_codec w;
    gb ← encoded gob w;
    Printf "  %q: varint=%d bytes, gob=%d bytes\n" [AString w; AInt (len vb); AInt (len gb)]) tt;
  close_or_fatal t.

(** ** examples/bulkimport *)

(** A measured duration: as [%v] prints it, and in seconds. *)
Record duration := mkDuration { d_text : string; Seconds : spec_float }.
(** What the run measures: three durations and two counts of bytes. *)
Record measured := mkMeasured {
  seqDur : duration; randDur : duration; readDur : duration; HeapInuse : Z; TotalAlloc : Z }.

Definition per_second (n : Z) (d : duration) : spec_float := SFdiv prec emax (float64 n) (Seconds d).
Definition megabytes (b : Z) : spec_float := SFdiv prec emax (float64 b) (float64 (1024 * 1024)).

(** [shuffle] is rand.Shuffle's permutation; the source has [n = 1_000_000]. *)
Definition bulkimport (shuffle : list Z → list Z) (env : measured) (n : nat) : io unit :=
  let keys := shuffle (Z.of_nat <$> seq 0 n) in
  t1 ← fatal (New Pow oor (K := Z) (V := Z) []);
  t1 ← for_each (Z.of_nat <$> seq 0 n) (λ t1 i, must (Put t1 i i)) t1;
  _ ← Printf "Sequential insert:  %d keys in %v (%.0f ops/sec)\n"
        [AInt (Z.of_nat n); AString (d_text (seqDur env)); AFloat (per_second (Z.of_nat n) (seqDur env))];
  t2 ← fatal (New Pow oor (K := Z) (V := Z) []);
  t2 ← for_each keys (λ t2 k, must (Put t2 k k)) t2;
  _ ← Printf "Random insert:      %d keys in %v (%.0f ops/sec)\n"
        [AInt (Z.of_nat n); AString (d_text (randDur env)); AFloat (per_second (Z.of_nat n) (randDur env))];
  hits ← for_each keys (λ hits k,
    '(_, ok) ← must (Get t2 k);
    mret (if ok : bool then hits + 1 else hits)%Z) 0%Z;
  _ ← Printf "Random reads:       %d keys in %v (%.0f ops/sec), hits=%d\n"
        [AInt (Z.of_nat n); AString (d_text (readDur env)); AFloat (per_second (Z.of_nat n) (readDur env)); AInt hits];
  _ ← Printf "\nHeap in use:        %.1f MB\n" [AFloat (megabytes (HeapInuse env))];
  _ ← Printf "Total alloc:        %.1f MB\n" [AFloat (megabytes (TotalAlloc env))];
  _ ← Printf "\nt1.Len() = %d (sequential)\n" [AInt (Len t1)];
  Printf "t2.Len() = %d (random)\n" [AInt (Len t2)].

(** ** examples/concurrent *)

(** The calls of writer [w], and of a reader. *)
Definition writer_calls (ops w : nat) : list (op Z Z) :=
  (λ i, let k := Z.of_nat (w * ops + i) in OpPut k k) <$> seq 0 ops.
Definition reader_calls (ops : nat) : list (op Z Z) := (λ i, OpGet (Z.of_nat i)) <$> seq 0 ops.
(** The goroutines [main] starts; the source has four of each and 1000 calls. *)
Definition launched (numWriters numReaders ops : nat) : list (list (op Z Z)) :=
  (writer_calls ops <$> seq 0 numWriters) ++ replicate numReaders (reader_calls ops).
(** What [main] does after [wg.Wait()]. *)
Definition after_wait (t : BETree Z Z) : io unit :=
  _ ← Println [AString "Final Len:"; AInt (Len t)];
  b ← must (Contains t 0%Z);
  _ ← Println [AString "Contains(0):"; ABool b];
  b ← must (Contains t 3999%Z);
  _ ← Println [AString "Contains(3999):"; ABool b];
  Say "No races detected!".
(** [main] prints [out]: some interleaving of the goroutines ends in a state from
    which it does. *)
Definition concurrent_prints (numWriters numReaders ops : nat) (r : exit unit * string) : Prop :=
  ∃ t c, New Pow oor (K := Z) (V := Z) [] = Some (inr t)
    ∧ rtc step (start t (launched numWriters numReaders ops)) c ∧ finished c
    ∧ after_wait (mem c) EmptyString = r.

End examples.
