(* ===== verification/Run.v ===== *)
(** * Running a program on any tree

    The example programs run on trees of which only the contents are known: how
    the entries are spread over buffers and leaves depends on the options.
    [is_map compare t l] says that the tree [t] is the sorted map [l]; one rule per
    method says what it returns and what map it leaves, and [run_program] applies
    them along a program, computing what is printed from the maps alone.

    [Len] needs more: that every write so far was counted for what it did
    ([size_rel eq], Size.v). *)

From Stdlib Require Import Ascii String SpecFloat.
From stdpp Require Import strings.
From S2P Require Import Prelude Order Keys Slices Message Node LeafMerge Flush Iterator Tree Cursor Spec Options Program Size Disk Join Examples.

(** ** Comparators that identify no two keys *)

Class ExactKeys {K} (compare : K → K → Z) : Prop := {
  exact_Comparator :: Comparator compare;
  compare_zero x y : compare x y = 0%Z ↔ x = y
}.

Lemma string_zero (x y : string) : cmp_Compare x y = 0%Z ↔ x = y.
Proof. exact (compare_by_eq string_lt x y). Qed.
Lemma int_zero (x y : Z) : cmp_Compare x y = 0%Z ↔ x = y.
Proof. apply int_compare_eq. Qed.

(** A comparison of one component and then another, of pairs of fields. *)
Ltac fields_zero :=
  intros [a1 a2] [b1 b2]; rewrite ?compareBucketKeys_then;
  (etransitivity; [apply then_compare_eq|]); cbn [Tenant ID lastAccess ce_key Score Name client second];
  change string_compare with (@cmp_Compare string _); change int_compare with (@cmp_Compare Z _);
  rewrite ?string_zero, ?int_zero; intuition congruence.

#[export] Instance string_exact : ExactKeys (K := string) cmp_Compare.
Proof. split; [apply _|exact string_zero]. Qed.
#[export] Instance int_exact : ExactKeys (K := Z) cmp_Compare.
Proof. split; [apply _|exact int_zero]. Qed.
#[export] Instance TenantKeys_exact : ExactKeys compareTenantKeys.
Proof. split; [apply _|]. fields_zero. Qed.
#[export] Instance CacheEntries_exact : ExactKeys compareCacheEntries.
Proof. split; [apply _|]. fields_zero. Qed.
#[export] Instance Entries_exact : ExactKeys compareEntries.
Proof. split; [apply _|]. fields_zero. Qed.
#[export] Instance BucketKeys_exact : ExactKeys compareBucketKeys.
Proof. split; [apply _|]. fields_zero. Qed.

(** ** The methods *)

Section rules.
Context {K V : Type} `{Zero K, Zero V} (compare : K → K → Z) {HC : ExactKeys compare}.
Implicit Types (t : BETree K V) (l : list (K * V)).

Definition is_map t l : Prop := refines t l ∧ cmp t = compare.

Lemma same_pairs l l' : Forall2 (same_pair (compare := compare)) l l' → l = l'.
Proof.
  induction 1 as [|[k v] [k' v'] l l' [Hk Hv] _ ->]; [done|]. cbn in *. f_equal.
  f_equal; [by apply compare_zero|done].
Qed.

Lemma New_rule {mm : Memory K V} Pow oor opts :
  validateOptions (resolveOptions opts) = None → (o_blockSize (resolveOptions opts) ≤ max_cap K V)%Z →
  ∃ t, NewWithCompare Pow oor (Some compare) opts = Some (inr t) ∧ is_map t [] ∧ size_rel eq t
    ∧ t = mkBETree emptyLeaf compare (deriveParams Pow oor (resolveOptions opts)) 0 0 false.
Proof.
  intros Hv Hm. pose proof (NewWithCompare_valid Pow oor compare opts Hv Hm) as E.
  eexists. split; [exact E|]. destruct (NewWithCompare_refines Pow oor compare opts _ _ E) as (HR & C & _).
  split_and!; [by split| |done]. by eapply NewWithCompare_size.
Qed.

(** What a write leaves, from the refinement. *)
Lemma exec_rule t l o :
  is_map t l → ∃ t' r, exec t o = Some (t', r) ∧ is_map t' (spec compare l o).1
    ∧ same_result compare r (spec compare l o).2
    ∧ (size_rel eq t → op_fits eq t o → size_rel eq t').
Proof.
  intros [HR C0]. destruct (exec_step t l o HR) as (t' & r & E & HR' & Hr & C). rewrite C0 in *.
  exists t', r. split; [done|]. split; [by split|]. split; [done|]. intros Hsz Hf. apply (exec_size (rel := eq) t o t' r); (done || apply HR).
Qed.

(** A call that is counted for what it does. *)
Lemma exact_fits t l o : is_map t l → exact_op compare l o → op_fits eq t o.
Proof. intros [HR C] Ho. apply (exact_op_fits t l); [done|by rewrite C]. Qed.

Lemma Put_rule t l k v :
  is_map t l → ∃ t', Put t k v = Some t' ∧ is_map t' (store_put compare k v l)
    ∧ (size_rel eq t → alookup compare k l = None ∨ op_fits eq t (OpPut k v) → size_rel eq t').
Proof.
  intros Hm. destruct (exec_rule t l (OpPut k v) Hm) as (t' & r & E & Hm' & _ & Hs).
  cbn [exec] in E. apply bind_Some in E as (t1 & E & [= -> _]). exists t'. split; [done|]. split; [done|].
  intros Hsz [Hf|Hf]; apply Hs; [done|by apply (exact_fits t l)|done..].
Qed.

Lemma Upsert_rule t l k f :
  is_map t l → ∃ t', Upsert t k (Some f) = Some t'
    ∧ is_map t' (store_put compare k (call_upsert f (alookup compare k l)) l).
Proof.
  intros Hm. destruct (exec_rule t l (OpUpsert k f) Hm) as (t' & r & E & Hm' & _ & _).
  cbn [exec] in E. apply bind_Some in E as (t1 & E & [= -> _]). by exists t'.
Qed.

Lemma Delete_rule t l k :
  is_map t l → ∃ t', Delete t k = Some (t', bool_decide (is_Some (alookup compare k l)))
    ∧ is_map t' (store_delete compare k l) ∧ (size_rel eq t → size_rel eq t').
Proof.
  intros Hm. destruct (exec_rule t l (OpDelete k) Hm) as (t' & r & E & Hm' & Hr & Hs).
  cbn [exec] in E. apply bind_Some in E as ([t1 b] & E & [= -> <-]). injection Hr as <-.
  exists t'. split; [done|]. split; [done|].
  intros Hsz. by apply Hs.
Qed.

Lemma PutIfAbsent_rule t l k v :
  is_map t l → ∃ t',
    PutIfAbsent t k v = Some (t', if alookup compare k l is Some _ then false else true)
    ∧ is_map t' (if alookup compare k l is Some _ then l else store_put compare k v l).
Proof.
  intros Hm. destruct (exec_rule t l (OpPutIfAbsent k v) Hm) as (t' & r & E & Hm' & Hr & _).
  cbn [exec spec] in *. apply bind_Some in E as ([t1 b] & E & [= -> <-]). exists t'.
  destruct (alookup compare k l); by injection Hr as ->.
Qed.

Lemma DeleteRange_rule t l lo hi :
  is_map t l → ∃ t', DeleteRange t lo hi = Some (t', len (store_range compare lo hi true false l))
    ∧ is_map t' (store_delete_range compare lo hi l) ∧ (size_rel eq t → size_rel eq t').
Proof.
  intros Hm. destruct (exec_rule t l (OpDeleteRange lo hi) Hm) as (t' & r & E & Hm' & Hr & Hs).
  cbn [exec] in E. apply bind_Some in E as ([t1 b] & E & [= -> <-]). injection Hr as <-.
  exists t'. split; [done|]. split; [done|].
  intros Hsz. by apply Hs.
Qed.

Lemma Clear_rule t l :
  is_map t l → is_map (Clear t) [] ∧ (size_rel eq t → size_rel eq (Clear t)).
Proof.
  intros Hm. destruct (exec_rule t l OpClear Hm) as (t' & r & [= <- <-] & Hm' & _ & Hs).
  split; [done|]. intros Hsz. by apply Hs.
Qed.

Lemma Get_rule t l k : is_map t l → Get t k = Some (comma_ok (alookup compare k l)).
Proof. intros [[Hok _ Hl] C]. unfold Get. by rewrite getFromNode_root, Hl, C by done. Qed.

Lemma Contains_rule t l k : is_map t l → Contains t k = Some (bool_decide (is_Some (alookup compare k l))).
Proof. intros Hm. unfold Contains. rewrite (Get_rule t l) by done. by destruct (alookup compare k l). Qed.

Lemma Len_rule t l : is_map t l → size_rel eq t → Len t = len l.
Proof. intros [HR _]. by apply Len_refines. Qed.

Lemma materializeAll_rule t l : is_map t l → materializeAll t = Some l.
Proof.
  intros [HR C]. destruct (materializeAll_refines t l HR) as (pairs & E & Hp).
  rewrite C in Hp. by apply same_pairs in Hp as <-.
Qed.

Lemma All_rule t l : is_map t l → All t = Some (Ascending l).
Proof. intros Hm. unfold All. by rewrite (materializeAll_rule t l Hm). Qed.
Lemma Descend_rule t l : is_map t l → Descend t = Some (Descending l).
Proof. intros Hm. unfold Descend. by rewrite (materializeAll_rule t l Hm). Qed.
Lemma Cursor_rule t l : is_map t l → Cursor_ t = Some (mkCursor l 0 false compare).
Proof. intros Hm. unfold Cursor_. rewrite (materializeAll_rule t l Hm). by destruct Hm as [_ ->]. Qed.

Lemma Range_rule t l lo hi :
  is_map t l → Range t lo hi = Some (Ascending (store_range compare lo hi true false l)).
Proof.
  intros [HR C]. destruct (materialize_range_refines t l lo hi true false HR eq_refl) as (pairs & E & Hp).
  unfold Range, materializeRange. rewrite E. rewrite C in Hp. by apply same_pairs in Hp as <-.
Qed.

(** The disk tree's writes. *)
Lemma DiskPut_rule {S E} (f : Flusher S E) s kc vc t l k v :
  is_map t l → ∃ t', DiskPut (mkDisk t f s kc vc) k v = Some (mkDisk t' f s kc vc)
    ∧ is_map t' (store_put compare k v l)
    ∧ (size_rel eq t → alookup compare k l = None ∨ op_fits eq t (OpPut k v) → size_rel eq t').
Proof.
  intros Hm. destruct (Put_rule t l k v Hm) as (t' & E' & Hm' & Hs). exists t'.
  unfold DiskPut. cbn [tree]. by rewrite E'.
Qed.

Lemma NewDisk_rule {S E} {mm : Memory K V} Pow oor gobK gobV (f : Flusher S E) s opts dopts :
  treeOpts (resolveDiskOptions gobK gobV dopts) = opts →
  validateOptions (resolveOptions opts) = None → (o_blockSize (resolveOptions opts) ≤ max_cap K V)%Z →
  ∃ t kc vc, NewDiskWithCompare Pow oor gobK gobV (Some compare) f s dopts = Some (inr (mkDisk t f s kc vc))
    ∧ is_map t [] ∧ size_rel eq t.
Proof.
  intros <- Hv Hm. destruct (New_rule Pow oor _ Hv Hm) as (t & Et & H1 & H2 & _).
  unfold NewDiskWithCompare. cbv zeta. rewrite Et. by eexists t, _, _.
Qed.

End rules.

(** The joins, from the cursors. *)
Lemma mergeJoin_rule {V W} `{Zero V, Zero W} fuel (a : BETree Z V) (b : BETree Z W) ca cb :
  Cursor_ a = Some ca → Cursor_ b = Some cb →
  mergeJoin fuel a b = let '(ca, aOk) := Next ca in let '(cb, bOk) := Next cb in join_loop fuel ca aOk cb bOk 0.
Proof. intros Ea Eb. unfold mergeJoin. by rewrite Ea, Eb. Qed.
Lemma antiJoin_rule {V W} `{Zero V, Zero W} fuel (a : BETree Z V) (b : BETree Z W) ca cb :
  Cursor_ a = Some ca → Cursor_ b = Some cb →
  antiJoin fuel a b = let '(ca, aOk) := Next ca in let '(cb, bOk) := Next cb in anti_loop fuel ca aOk cb bOk.
Proof. intros Ea Eb. unfold antiJoin. by rewrite Ea, Eb. Qed.

(** ** Programs *)

Section programs.
Context {A B C : Type}.

Lemma run_bind (m : io A) (f : A → io B) out a out' r :
  m out = (Done a, out') → f a out' = r → (m ≫= f) out = r.
Proof. intros E <-. by apply bind_done. Qed.
Lemma run_must (o : option A) (f : A → io B) out a a' r :
  o = Some a → a = a' → f a' out = r → (must o ≫= f) out = r.
Proof. by intros -> <- <-. Qed.
Lemma run_fatal (a : A) (f : A → io B) out r : f a out = r → (fatal (Some (inr a)) ≫= f) out = r.
Proof. done. Qed.
Lemma run_assoc (m : io A) (g : A → io B) (f : B → io C) out r :
  (m ≫= (λ a, g a ≫= f)) out = r → ((m ≫= g) ≫= f) out = r.
Proof. intros <-. unfold mbind, io_bind. by destruct (m out) as [[] ?]. Qed.
Lemma run_last (m : io A) out r : (m ≫= mret) out = r → m out = r.
Proof. intros <-. unfold mbind, io_bind. by destruct (m out) as [[] ?]. Qed.
Lemma loop_cons {S} (x : A) (l : list A) (body : S → A → io S) s (f : S → io B) out r :
  ((body s x ≫= (λ s, for_each l body s)) ≫= f) out = r → (for_each (x :: l) body s ≫= f) out = r.
Proof. done. Qed.
Lemma loop_nil {S} (body : S → A → io S) s (f : S → io B) out r :
  f s out = r → (for_each [] body s ≫= f) out = r.
Proof. done. Qed.
End programs.

(** Computes the contents of a map, and clears the facts of size that do not hold. *)
Ltac compute_map Hm :=
  lazymatch type of Hm with
  | is_map ?c ?t ?l =>
      let l' := eval vm_compute in l in
      let E := fresh in
      assert (l = l') as E by (vm_compute; reflexivity); rewrite E in Hm; clear E
  end.
Ltac size_after Hs :=
  lazymatch type of Hs with
  | size_rel eq ?t → _ =>
      lazymatch goal with
      | Hsz : size_rel eq t |- _ =>
          specialize (Hs Hsz);
          lazymatch type of Hs with
          | size_rel _ _ => idtac
          | _ =>
              first [specialize (Hs ltac:(first [left; vm_compute; reflexivity | right; eassumption])) | clear Hs]
          end
      | _ => clear Hs
      end
  end.
Ltac answer E :=
  lazymatch type of E with
  | _ = Some ?a =>
      let a' := eval vm_compute in a in
      refine (run_must _ _ _ a a' _ E _ _); [vm_compute; reflexivity|]
  end.
Ltac returns E := refine (run_must _ _ _ _ _ _ E eq_refl _).
(** A call that writes, by its rule [R]; [k] goes on with what it returns. *)
Ltac write R k :=
  let t' := fresh "t" in let E := fresh "E" in let Hm := fresh "Hm" in let Hs := fresh "Hs" in
  lazymatch type of R with
  | ∃ _, _ ∧ _ ∧ _ => destruct R as (t' & E & Hm & Hs); compute_map Hm; size_after Hs
  | ∃ _, _ ∧ _ => destruct R as (t' & E & Hm); compute_map Hm
  end; k E.
Ltac map_of t k := lazymatch goal with Hm : is_map ?c t ?l |- _ => k c l Hm end.

(** A step that needs no tree is computed. *)
Ltac closed_step :=
  lazymatch goal with
  | |- (?m ≫= ?f) ?out = _ =>
      let x := eval vm_compute in (m out) in
      lazymatch x with
      | (Done ?a, ?out') => refine (run_bind m f out a out' _ _ _); [vm_compute; reflexivity|]
      end
  end.

(** A constructor, in the first step [m] of the program. *)
Ltac construct m :=
  lazymatch goal with
  | Hv : validateOptions (resolveOptions ?opts) = None, Hc : (∀ K V : Type, _ ≤ max_cap K V)%Z |- _ =>
      let t := fresh "t" in let E := fresh "E" in let Hm := fresh "Hm" in let Hs := fresh "Hs" in
      lazymatch m with
      | context [NewWithCompare (K := ?K) (V := ?V) ?Pow ?oor (Some ?c) opts] =>
          let Et := fresh "Et" in
          destruct (New_rule (K := K) (V := V) c Pow oor opts Hv (Hc K V)) as (t & E & Hm & Hs & Et);
          rewrite E; clear E
      | context [NewDiskWithCompare (K := ?K) (V := ?V) ?Pow ?oor ?gK ?gV (Some ?c) ?f ?s ?dopts] =>
          let kc := fresh "kc" in let vc := fresh "vc" in
          destruct (NewDisk_rule (K := K) (V := V) c Pow oor gK gV f s opts dopts eq_refl Hv (Hc K V))
            as (t & kc & vc & E & Hm & Hs); rewrite E; clear E
      end
  end; try apply run_fatal.

Ltac settle :=
  cbv beta iota zeta;
  repeat match goal with
    | Hm : is_map ?c ?t ?l, Hs : size_rel eq ?t |- context [Len ?t] => rewrite (Len_rule c t l Hm Hs)
    end.

Ltac must_step call :=
  lazymatch call with
  | Put ?t ?k ?v => map_of t ltac:(fun c l Hm => write constr:(Put_rule c t l k v Hm) ltac:(fun E => returns E))
  | Upsert ?t ?k (Some ?f) => map_of t ltac:(fun c l Hm => write constr:(Upsert_rule c t l k f Hm) ltac:(fun E => returns E))
  | Delete ?t ?k => map_of t ltac:(fun c l Hm => write constr:(Delete_rule c t l k Hm) ltac:(fun E => answer E))
  | PutIfAbsent ?t ?k ?v => map_of t ltac:(fun c l Hm => write constr:(PutIfAbsent_rule c t l k v Hm) ltac:(fun E => answer E))
  | DeleteRange ?t ?lo ?hi => map_of t ltac:(fun c l Hm => write constr:(DeleteRange_rule c t l lo hi Hm) ltac:(fun E => answer E))
  | DiskPut (mkDisk ?t ?f ?s ?kc ?vc) ?k ?v =>
      map_of t ltac:(fun c l Hm => write constr:(DiskPut_rule c f s kc vc t l k v Hm) ltac:(fun E => returns E))
  | Get ?t ?k => map_of t ltac:(fun c l Hm => answer constr:(Get_rule c t l k Hm))
  | Contains ?t ?k => map_of t ltac:(fun c l Hm => answer constr:(Contains_rule c t l k Hm))
  | All ?t => map_of t ltac:(fun c l Hm => answer constr:(All_rule c t l Hm))
  | Ascend ?t => map_of t ltac:(fun c l Hm => answer constr:(All_rule c t l Hm))
  | Descend ?t => map_of t ltac:(fun c l Hm => answer constr:(Descend_rule c t l Hm))
  | Range ?t ?lo ?hi => map_of t ltac:(fun c l Hm => answer constr:(Range_rule c t l lo hi Hm))
  | Cursor_ ?t => map_of t ltac:(fun c l Hm => returns constr:(Cursor_rule c t l Hm))
  | mergeJoin ?n ?a ?b =>
      map_of a ltac:(fun ca la Ha => map_of b ltac:(fun cb lb Hb =>
        rewrite (mergeJoin_rule n a b _ _ (Cursor_rule ca a la Ha) (Cursor_rule cb b lb Hb)); closed_step))
  | antiJoin ?n ?a ?b =>
      map_of a ltac:(fun ca la Ha => map_of b ltac:(fun cb lb Hb =>
        rewrite (antiJoin_rule n a b _ _ (Cursor_rule ca a la Ha) (Cursor_rule cb b lb Hb)); closed_step))
  | context [NewWithCompare] => construct call
  | _ => closed_step
  end.

Ltac run_step :=
  lazymatch goal with
  | |- mret _ _ = _ => fail
  | |- (?m ≫= ?f) ?out = _ =>
      lazymatch m with
      | (_ ≫= _) => apply run_assoc
      | for_each (_ :: _) _ _ => apply loop_cons
      | for_each [] _ _ => apply loop_nil
      | fatal (Some (inr _)) => apply run_fatal
      | fatal ?call => construct call
      | must ?call => must_step call
      | _ => closed_step
      end
  | |- (match ?x with _ => _ end) _ = _ => let x' := eval vm_compute in x in change x with x'
  | |- _ = _ => apply run_last
  end; settle.

(** The constants a program is made of. *)
Ltac open_program :=
  unfold DiskAll, DiskGet, DiskLen, buildSignups, buildPurchases, print_mergeJoin, print_antiJoin, New, NewDisk;
  cbn [tree]; settle.
Ltac run_program := open_program; repeat (run_step; cbn [tree]); vm_compute; reflexivity.

(** ** The overwrite of examples/basic *)

Section overwrite.
Context {K V : Type} `{Zero K, Zero V}.
Implicit Types (t : BETree K V).

Lemma Put_leaf t n isNew k v :
  leaf (root t) = true → leafInsert (root t) k v (cmp t) = Some (n, isNew) →
  let t' := set_root (if isNew : bool then adjust t 1 0 else t) n in
  Put t k v = if decide (leafCap (params t) < len (keys n))%Z then splitRoot t' else Some t'.
Proof. intros Hl E. unfold Put, putLocked. rewrite Hl, E. by destruct isNew. Qed.

End overwrite.

(** Three puts on a new tree leave one leaf, or a root with an empty buffer over two
    leaves: where the first key is stored. *)
Lemma basic_overwrite p (t t1 t2 t3 : BETree string Z) (a b c d : Z) :
  t = mkBETree emptyLeaf cmp_Compare p 0 0 false → (2 ≤ leafCap p)%Z →
  Put t "alice" a = Some t1 → Put t1 "bob" b = Some t2 → Put t2 "charlie" c = Some t3 →
  op_fits eq t3 (OpPut "alice" d).
Proof.
  intros -> Hp E1 E2 E3.
  rewrite (Put_leaf _ (Leaf ["alice"] [a]) true) in E1 by (vm_compute; reflexivity).
  cbn [params] in E1. rewrite decide_False in E1 by (cbn; lia). injection E1 as <-.
  rewrite (Put_leaf _ (Leaf ["alice"; "bob"] [a; b]) true) in E2 by (vm_compute; reflexivity).
  cbn [params set_root adjust] in E2. rewrite decide_False in E2 by (cbn; lia). injection E2 as <-.
  rewrite (Put_leaf _ (Leaf ["alice"; "bob"; "charlie"] [a; b; c]) true) in E3 by (vm_compute; reflexivity). case_decide.
  - vm_compute in E3. injection E3 as <-. right. vm_compute. reflexivity.
  - injection E3 as <-. left. reflexivity.
Qed.
