(* ===== verification/Correctness.v ===== *)
(** * What the library promises

    The properties of the program, each a theorem over the definitions of the
    component files and, where it has hypotheses, an instance of it at a concrete
    tree.  [sample] is a tree with blocks of four entries (fanout and buffer
    capacity two), so a few puts already flush and split; [sample_ops] leaves it
    three levels high with messages in its buffers. *)

From Stdlib Require Import SpecFloat.
From stdpp Require Import gmap.
From S2P Require Import Prelude Order Slices Message Node LeafMerge Flush Iterator Tree Spec Options Cursor Size Disk Codec Join Concurrent.

(** ** Concrete instances *)

(** A concrete run of keys is sorted. *)
Ltac sorted_run :=
  unfold ksorted;
  repeat first [apply SSorted_nil | apply SSorted_cons | apply Forall_nil_2
               | apply Forall_cons_2; [vm_compute; reflexivity|]].

(** A power function with the behaviour assumed of [math.Pow]. *)
Definition pow_model (x y : spec_float) : spec_float :=
  if y is S754_nan then S754_nan
  else if SFeqb y (S754_zero false) then float64 1
  else if SFeqb y (float64 1) then x
  else if SFeqb y half then SFsqrt prec emax x else float64 1.

(** A machine whose slices have up to 2^40 elements. *)
#[export] Instance memory_model K V : Memory K V :=
  {| max_cap := 2^40; max_cap_default := Z.lt_le_incl 4096 (2^40) eq_refl |}.
Definition sample_New (opts : list Option_) : option (error + BETree Z Z) :=
  New pow_model (λ _, 0%Z) opts.
Definition sample : BETree Z Z :=
  mkBETree emptyLeaf int_compare (mkParams half 4 2 2 4) 0 0 false.
Definition puts (n : nat) : list (op Z Z) :=
  (λ i, OpPut (Z.of_nat i) (Z.of_nat (10 * i))) <$> seq 1 n.
Definition sample_ops : list (op Z Z) :=
  puts 20 ++ [OpDelete 3%Z; OpUpsert 100%Z (Increment 5%Z); OpDeleteRange 7%Z 10%Z].
Definition after (os : list (op Z Z)) : BETree Z Z := default sample (fst <$> exec_all sample os).

Lemma sample_New_ok : sample_New [WithBlockSize 4] = Some (inr sample).
Proof. vm_compute. reflexivity. Qed.

Lemma sample_refines : refines sample [].
Proof.
  refine (proj1 (NewWithCompare_refines pow_model (λ _, 0%Z) int_compare [WithBlockSize 4] sample _ _)).
  exact sample_New_ok.
Qed.

Lemma after_ok os : tree_ok (after os).
Proof.
  destruct (exec_all_steps sample [] os sample_refines) as (t' & rs & E & HR & _).
  unfold after. rewrite E. apply HR.
Qed.
#[export] Hint Resolve after_ok : fractal.

Lemma after_cmp os : cmp (after os) = int_compare.
Proof.
  destruct (exec_all_steps sample [] os sample_refines) as (t' & rs & E & _ & _ & C).
  unfold after. by rewrite E.
Qed.

(** ** The tree as a sorted map *)

(** C1: every history of calls on a freshly built tree runs without panicking,
    keeps the tree well formed, and gives the results of the same calls on a
    sorted map, for every call but [Len]; iterators yield the sorted map's pairs in
    its order.  [Len] too is the sorted map's when each call of the history is
    counted for what it does: every [Put] is of a key that is absent and every
    [Upsert] of one that is present in the sorted map. *)
Theorem history_refines {K V} `{Zero K, Zero V} {mm : Memory K V} Pow oor (compare : K → K → Z) opts
    (t : BETree K V) (os : list (op K V)) :
  Comparator compare → NewWithCompare Pow oor (Some compare) opts = Some (inr t) →
  ∃ t' rs, exec_all t os = Some (t', rs) ∧ tree_ok t'
    ∧ Forall2 (same_result compare) rs (spec_all compare [] os).2
    ∧ (exact_ops compare [] os → Forall2 (same_counted compare) rs (spec_all compare [] os).2).
Proof.
  intros HC E. destruct (NewWithCompare_refines Pow oor compare opts t HC E) as (HR & C & _).
  destruct (exec_all_steps t [] os HR) as (t' & rs & E' & HR' & Hrs & _).
  pose proof (exec_all_exact t [] os t' rs HR (NewWithCompare_size Pow oor compare opts t E)) as Hex.
  rewrite C in *. exists t', rs. split_and!; [done|apply HR'|done|by intros ?; apply Hex].
Qed.

(** [sample_ops] without its upsert of an absent key. *)
Definition exact_sample_ops : list (op Z Z) :=
  puts 20 ++ [OpDelete 3%Z; OpLen; OpUpsert 4%Z (Increment 5%Z); OpDeleteRange 7%Z 10%Z; OpLen; OpAll].
Lemma history_refines_witness :
  sample_New [WithBlockSize 4] = Some (inr sample) ∧ exact_ops int_compare [] exact_sample_ops
  ∧ ∃ t' rs, exec_all sample exact_sample_ops = Some (t', rs) ∧ tree_ok t'
      ∧ Forall2 (same_counted int_compare) rs (spec_all int_compare [] exact_sample_ops).2.
Proof.
  split; [exact sample_New_ok|].
  assert (exact_ops int_compare [] exact_sample_ops) as Hex
    by (vm_compute; repeat split; eexists; reflexivity).
  split; [exact Hex|].
  destruct (history_refines pow_model (λ _, 0%Z) int_compare [WithBlockSize 4] sample
              exact_sample_ops int_compare_Comparator sample_New_ok) as (t' & rs & E & Hok & _ & Hx).
  exists t', rs. exact (conj E (conj Hok (Hx Hex))).
Defined.

(** C2: on a well-formed tree no call panics, whatever its keys, values and upsert
    functions, a nil function aside, and every call leaves a well-formed tree.
    [Upsert] with a nil function panics at once when the root is a leaf; a root
    with room in its buffer takes the message, and the next [Get] of the key
    panics. *)
Theorem exec_safe {K V} `{Zero K, Zero V} (t : BETree K V) (o : op K V) :
  tree_ok t →
  (∃ t' r, exec t o = Some (t', r) ∧ tree_ok t')
  ∧ ∀ k, (leaf (root t) = true → Upsert t k None = None)
    ∧ (leaf (root t) = false → (len (buffer (root t)) < bufferCap (params t))%Z →
       ∃ t', Upsert t k None = Some t' ∧ Get t' k = None).
Proof.
  intros Hok. split.
  - destruct (refines_exists t Hok) as [l HR].
    destruct (exec_step t l o HR) as (t' & r & E & HR' & _). exists t', r. split; [done|apply HR'].
  - intros k. split; [apply Upsert_nil_leaf|]. by apply Upsert_nil_buffered.
Qed.

Lemma exec_safe_witness :
  tree_ok (after sample_ops)
  ∧ (∃ t' r, exec (after sample_ops) (OpDeleteRange 4%Z 12%Z) = Some (t', r) ∧ tree_ok t')
  ∧ ∃ t', Upsert (after sample_ops) 5%Z None = Some t' ∧ Get t' 5%Z = None.
Proof.
  split; [apply after_ok|].
  destruct (exec_safe (after sample_ops) (OpDeleteRange 4%Z 12%Z) (after_ok _)) as [H1 H2].
  split; [exact H1|]. apply (proj2 (H2 5%Z)); vm_compute; reflexivity.
Defined.

(** C3: [Put] stores the value at every key equivalent to its key and changes no
    other key, whether the tree is a single leaf, buffers, flushes or splits. *)
Theorem Put_correct {K V} `{Zero K, Zero V} (t : BETree K V) k v :
  tree_ok t → ∃ t', Put t k v = Some t' ∧ tree_ok t' ∧ same_config t t'
    ∧ ∀ x, lookup t' x = if decide (cmp t k x = 0%Z) then Some v else lookup t x.
Proof.
  intros Hok. destruct (putLocked_spec t k v false Hok) as (t' & E & [Hok' C L _]).
  exists t'. by split_and!.
Qed.

Lemma Put_correct_witness :
  tree_ok (after sample_ops)
  ∧ ∃ t', Put (after sample_ops) 4%Z 44%Z = Some t' ∧ tree_ok t' ∧ same_config (after sample_ops) t'
    ∧ ∀ x, lookup t' x = if decide (cmp (after sample_ops) 4%Z x = 0%Z) then Some 44%Z
                         else lookup (after sample_ops) x.
Proof. split; [apply after_ok|apply Put_correct, after_ok]. Defined.

(** C4: [Get] returns the value of the key and true, or the zero value and
    false: the upsert chain collected newest-first on the way down is the value
    of playing the messages oldest-first. *)
Theorem Get_correct {K V} `{Zero K, Zero V} (t : BETree K V) k :
  tree_ok t → Get t k = Some (comma_ok (lookup t k)) ∧ Contains t k = Some (bool_decide (is_Some (lookup t k))).
Proof.
  intros Hok. unfold Contains, Get. rewrite getFromNode_root by done.
  split; [done|]. by destruct (lookup t k).
Qed.

Lemma Get_correct_witness :
  tree_ok (after sample_ops)
  ∧ Get (after sample_ops) 100%Z = Some (comma_ok (lookup (after sample_ops) 100%Z))
  ∧ Contains (after sample_ops) 100%Z = Some (bool_decide (is_Some (lookup (after sample_ops) 100%Z))).
Proof. split; [apply after_ok|apply Get_correct, after_ok]. Defined.

(** C5: [Delete] removes the key and says whether it existed; a key that did not
    exist leaves the tree unchanged. *)
Theorem Delete_correct {K V} `{Zero K, Zero V} (t : BETree K V) k :
  tree_ok t → ∃ t', Delete t k = Some (t', bool_decide (is_Some (lookup t k)))
    ∧ tree_ok t' ∧ same_config t t' ∧ (lookup t k = None → t' = t)
    ∧ ∀ x, lookup t' x = if decide (cmp t k x = 0%Z) then None else lookup t x.
Proof.
  intros Hok. destruct (deleteLocked_spec t k Hok) as (t' & E & [Hok' C L _] & Hn).
  exists t'. by split_and!.
Qed.

Lemma Delete_correct_witness :
  tree_ok (after sample_ops)
  ∧ ∃ t', Delete (after sample_ops) 5%Z
          = Some (t', bool_decide (is_Some (lookup (after sample_ops) 5%Z)))
    ∧ tree_ok t' ∧ same_config (after sample_ops) t'
    ∧ (lookup (after sample_ops) 5%Z = None → t' = after sample_ops)
    ∧ ∀ x, lookup t' x = if decide (cmp (after sample_ops) 5%Z x = 0%Z) then None
                         else lookup (after sample_ops) x.
Proof. split; [apply after_ok|apply Delete_correct, after_ok]. Defined.

(** C6: [Upsert] stores the callback's value of the current value: it is called
    with the value and true when the key exists, with nil and false otherwise. *)
Theorem Upsert_correct {K V} `{Zero K, Zero V} (t : BETree K V) k (f : UpsertFn V) :
  tree_ok t → ∃ t', Upsert t k (Some f) = Some t' ∧ tree_ok t' ∧ same_config t t'
    ∧ ∀ x, lookup t' x = if decide (cmp t k x = 0%Z)
                         then Some (match lookup t x with
                                    | Some v => f (Some v) true
                                    | None => f None false
                                    end)
                         else lookup t x.
Proof.
  intros Hok. destruct (Upsert_step t k f Hok) as (t' & E & [Hok' C L _]).
  exists t'. by split_and!.
Qed.

Lemma Upsert_correct_witness :
  tree_ok (after sample_ops)
  ∧ ∃ t', Upsert (after sample_ops) 5%Z (Some (Increment 7%Z)) = Some t' ∧ tree_ok t'
    ∧ same_config (after sample_ops) t'
    ∧ ∀ x, lookup t' x = if decide (cmp (after sample_ops) 5%Z x = 0%Z)
                         then Some (match lookup (after sample_ops) x with
                                    | Some v => Increment 7%Z (Some v) true
                                    | None => Increment 7%Z None false
                                    end)
                         else lookup (after sample_ops) x.
Proof. split; [apply after_ok|apply Upsert_correct, after_ok]. Defined.

(** C7: [PutIfAbsent] stores the value and returns true when the key is absent,
    and otherwise changes nothing and returns false. *)
Theorem PutIfAbsent_correct {K V} `{Zero K, Zero V} (t : BETree K V) k v :
  tree_ok t →
  (is_Some (lookup t k) → PutIfAbsent t k v = Some (t, false))
  ∧ (lookup t k = None → ∃ t', PutIfAbsent t k v = Some (t', true) ∧ tree_ok t'
       ∧ ∀ x, lookup t' x = if decide (cmp t k x = 0%Z) then Some v else lookup t x).
Proof.
  intros Hok. pose proof (PutIfAbsent_step t k v Hok) as E. destruct (lookup t k) as [v0|].
  - by split.
  - split; [by intros []|]. intros _. destruct E as (t' & E & [Hok' _ L _]). by exists t'.
Qed.

Lemma PutIfAbsent_correct_witness :
  tree_ok (after sample_ops) ∧ lookup (after sample_ops) 3%Z = None
  ∧ ∃ t', PutIfAbsent (after sample_ops) 3%Z 33%Z = Some (t', true) ∧ tree_ok t'
      ∧ ∀ x, lookup t' x = if decide (cmp (after sample_ops) 3%Z x = 0%Z) then Some 33%Z
                           else lookup (after sample_ops) x.
Proof.
  split; [apply after_ok|]. assert (lookup (after sample_ops) 3%Z = None) as E by (vm_compute; reflexivity).
  split; [exact E|]. exact (proj2 (PutIfAbsent_correct (after sample_ops) 3%Z 33%Z (after_ok _)) E).
Defined.

(** C8: [DeleteRange] removes exactly the keys in [lo, hi) and returns how many
    live keys that was: the length of what [Range] would have yielded. *)
Theorem DeleteRange_correct {K V} `{Zero K, Zero V} (t : BETree K V) lo hi :
  tree_ok t → ∃ t' pairs, DeleteRange t lo hi = Some (t', len pairs) ∧ tree_ok t'
    ∧ Range t lo hi = Some (Ascending pairs)
    ∧ ∀ x, lookup t' x = if decide (0 ≤ cmp t x lo ∧ cmp t x hi < 0)%Z then None else lookup t x.
Proof.
  intros Hok. destruct (DeleteRange_step t lo hi Hok) as (t' & pairs & E & Em & Hok' & _ & L & _).
  exists t', pairs. split_and!; try done.
  - unfold Range. by rewrite Em.
  - intros x. rewrite L. unfold in_range. repeat case_decide; try done; intuition congruence.
Qed.

Lemma DeleteRange_correct_witness :
  tree_ok (after sample_ops)
  ∧ ∃ t' pairs, DeleteRange (after sample_ops) 4%Z 12%Z = Some (t', len pairs) ∧ tree_ok t'
    ∧ Range (after sample_ops) 4%Z 12%Z = Some (Ascending pairs)
    ∧ ∀ x, lookup t' x = if decide (0 ≤ cmp (after sample_ops) x 4 ∧ cmp (after sample_ops) x 12 < 0)%Z
                         then None else lookup (after sample_ops) x.
Proof. split; [apply after_ok|apply DeleteRange_correct, after_ok]. Defined.

(** ** Iteration *)

(** C9: [All] and [Descend] capture one snapshot: the live pairs, each key once,
    in ascending order, with the values [Get] returns; the iterators hand any
    consumer these pairs in ascending and in descending order, and stop at the first
    pair it refuses. *)
Theorem All_correct {K V} `{Zero V} (t : BETree K V) :
  tree_ok t → ∃ pairs, All t = Some (Ascending pairs) ∧ Descend t = Some (Descending pairs)
    ∧ ksorted (cmp t) fst pairs ∧ (∀ k, alookup (cmp t) k pairs = lookup t k)
    ∧ ∀ St (yield : St → K → V → St * bool) (s : St),
        (∃ n, run_seq (Ascending pairs) yield s = Some (consumed yield s (take n pairs))
           ∧ handed yield pairs s n)
        ∧ ∃ n, run_seq (Descending pairs) yield s = Some (consumed yield s (take n (reverse pairs)))
           ∧ handed yield (reverse pairs) s n.
Proof.
  intros Hok. destruct (ok_wf t Hok) as [h Hwf].
  destruct (materializeAll_spec t h (ok_cmp t Hok) Hwf) as (pairs & E & [S1 _ S3]).
  exists pairs. unfold All, Descend. rewrite E. split_and!; try done.
  intros St yield s. split; [apply (run_seq_prefix yield (Ascending pairs))|apply (run_seq_prefix yield (Descending pairs))].
Qed.

Lemma All_correct_witness :
  tree_ok (after sample_ops)
  ∧ ∃ pairs, All (after sample_ops) = Some (Ascending pairs)
    ∧ Descend (after sample_ops) = Some (Descending pairs)
    ∧ ksorted (cmp (after sample_ops)) fst pairs
    ∧ ∀ k, alookup (cmp (after sample_ops)) k pairs = lookup (after sample_ops) k.
Proof.
  split; [apply after_ok|].
  destruct (All_correct (after sample_ops) (after_ok _)) as (pairs & H1 & H2 & H3 & H4 & _).
  exists pairs. exact (conj H1 (conj H2 (conj H3 H4))).
Defined.

(** [Range] yields the live pairs with keys in [lo, hi), in ascending order;
    it prunes the traversal to the children the bounds route to. *)
Lemma Range_correct {K V} `{Zero V} (t : BETree K V) lo hi :
  tree_ok t → ∃ pairs, Range t lo hi = Some (Ascending pairs) ∧ ksorted (cmp t) fst pairs
    ∧ ∀ k, alookup (cmp t) k pairs
           = if decide (0 ≤ cmp t k lo ∧ cmp t k hi < 0)%Z then lookup t k else None.
Proof.
  intros Hok. destruct (ok_wf t Hok) as [h Hwf].
  destruct (materializeRange_gen t h lo hi true false (ok_cmp t Hok) Hwf eq_refl)
    as (pairs & E & [S1 _ S3]).
  exists pairs. unfold Range, materializeRange. rewrite E. split_and!; try done.
  intros k. rewrite S3. unfold in_range. repeat case_decide; try done; intuition congruence.
Qed.

Lemma Range_correct_witness :
  tree_ok (after sample_ops)
  ∧ ∃ pairs, Range (after sample_ops) 4%Z 15%Z = Some (Ascending pairs)
    ∧ ksorted (cmp (after sample_ops)) fst pairs
    ∧ ∀ k, alookup (cmp (after sample_ops)) k pairs
           = if decide (0 ≤ cmp (after sample_ops) k 4 ∧ cmp (after sample_ops) k 15 < 0)%Z
             then lookup (after sample_ops) k else None.
Proof. split; [apply after_ok|apply Range_correct, after_ok]. Defined.

(** [DescendRange hi lo] yields the live pairs with keys in (lo, hi]. *)
Lemma DescendRange_correct {K V} `{Zero V} (t : BETree K V) hi lo :
  tree_ok t → ∃ pairs, DescendRange t hi lo = Some (Descending pairs) ∧ ksorted (cmp t) fst pairs
    ∧ ∀ k, alookup (cmp t) k pairs
           = if decide (0 < cmp t k lo ∧ cmp t k hi ≤ 0)%Z then lookup t k else None.
Proof.
  intros Hok. destruct (ok_wf t Hok) as [h Hwf].
  destruct (materializeRange_gen t h lo hi false true (ok_cmp t Hok) Hwf eq_refl)
    as (pairs & E & [S1 _ S3]).
  exists pairs. unfold DescendRange, materializeDescendRange. rewrite E. split_and!; try done.
  intros k. rewrite S3. unfold in_range. repeat case_decide; try done; intuition congruence.
Qed.

Lemma DescendRange_correct_witness :
  tree_ok (after sample_ops)
  ∧ ∃ pairs, DescendRange (after sample_ops) 15%Z 4%Z = Some (Descending pairs)
    ∧ ksorted (cmp (after sample_ops)) fst pairs
    ∧ ∀ k, alookup (cmp (after sample_ops)) k pairs
           = if decide (0 < cmp (after sample_ops) k 4 ∧ cmp (after sample_ops) k 15 ≤ 0)%Z
             then lookup (after sample_ops) k else None.
Proof. split; [apply after_ok|apply DescendRange_correct, after_ok]. Defined.

(** C10: [Range lo hi] yields the live pairs with keys in [lo, hi), in ascending
    order, and [DescendRange hi lo] those with keys in (lo, hi], in descending
    order; both prune the traversal to the children the bounds route to: on a tree
    whose other children, at any depth, are replaced by any nodes whatever, well
    formed or not, they return the same. *)
Theorem ranges_correct {K V} `{Zero V} (t : BETree K V) lo hi :
  tree_ok t →
  (∃ pairs, Range t lo hi = Some (Ascending pairs) ∧ ksorted (cmp t) fst pairs
    ∧ ∀ k, alookup (cmp t) k pairs
           = if decide (0 ≤ cmp t k lo ∧ cmp t k hi < 0)%Z then lookup t k else None)
  ∧ (∃ pairs, DescendRange t hi lo = Some (Descending pairs) ∧ ksorted (cmp t) fst pairs
    ∧ ∀ k, alookup (cmp t) k pairs
           = if decide (0 < cmp t k lo ∧ cmp t k hi ≤ 0)%Z then lookup t k else None)
  ∧ ∀ n, same_routes (cmp t) lo hi (root t) n →
      Range (set_root t n) lo hi = Range t lo hi
      ∧ DescendRange (set_root t n) hi lo = DescendRange t hi lo.
Proof.
  intros Hok. split; [by apply Range_correct|split; [by apply DescendRange_correct|]].
  intros n Hn. destruct (ok_wf t Hok) as [h Hwf]. pose proof (ok_cmp t Hok).
  unfold Range, DescendRange, materializeRange, materializeDescendRange. cbn [set_root cmp root].
  by rewrite !(collectRange_routes (λ _, True) h (root t) n) by done.
Qed.

(** The last child, which the bounds do not route to, is replaced by a leaf whose
    values are missing. *)
Definition broken_root : node Z Z :=
  let n := root (after sample_ops) in
  Internal (pivots n) (<[pred (length (children n)) := Leaf [5%Z] []]> (children n)) (buffer n) (bufferSorted n).
Lemma broken_root_routes : same_routes int_compare 4%Z 8%Z (root (after sample_ops)) broken_root.
Proof.
  assert (∀ n : node Z Z, leaf n = false → n = Internal (pivots n) (children n) (buffer n) (bufferSorted n)) as E
    by (by intros []).
  rewrite (E (root (after sample_ops))) by (vm_compute; reflexivity).
  unfold broken_root. cbv zeta. cbn [pivots children buffer bufferSorted].
  apply routes_children; [apply length_insert|].
  intros i c c' [_ Hi] Hc Hc'. rewrite list_lookup_insert_ne in Hc'.
  - rewrite Hc in Hc'. injection Hc' as <-. apply routes_refl.
  - intros <-. revert Hi. vm_compute. lia.
Qed.

Lemma ranges_correct_witness :
  tree_ok (after sample_ops)
  ∧ (∃ pairs, Range (after sample_ops) 4%Z 15%Z = Some (Ascending pairs)
      ∧ ksorted (cmp (after sample_ops)) fst pairs
      ∧ ∀ k, alookup (cmp (after sample_ops)) k pairs
           = if decide (0 ≤ cmp (after sample_ops) k 4 ∧ cmp (after sample_ops) k 15 < 0)%Z
             then lookup (after sample_ops) k else None)
  ∧ Range (set_root (after sample_ops) broken_root) 4%Z 8%Z = Range (after sample_ops) 4%Z 8%Z.
Proof.
  split; [apply after_ok|]. split; [exact (proj1 (ranges_correct (after sample_ops) 4%Z 15%Z (after_ok _)))|].
  destruct (ranges_correct (after sample_ops) 4%Z 8%Z (after_ok _)) as (_ & _ & Hr).
  destruct (Hr broken_root) as [E _]; [rewrite after_cmp; exact broken_root_routes|exact E].
Defined.

(** ** Goroutines *)

(** C11: goroutines that share a fresh tree: at every moment of every interleaving
    the calls, in the order their bodies ended, are a sequential history of the
    tree, and their results but those of [Len] are those of a sorted map in that
    order; the results of [Len] too, when in that order every [Put] is of an absent
    key and every [Upsert] of a present one.  Each goroutine's own calls appear in
    its program order with the results it was given. *)
Theorem concurrent_linearizable {K V} `{Zero K, Zero V} {mm : Memory K V} Pow oor (compare : K → K → Z) opts
    (t : BETree K V) progs c :
  Comparator compare → NewWithCompare Pow oor (Some compare) opts = Some (inr t) →
  rtc step (start t progs) c →
  exec_all t (hist c).*1.*2 = Some (mem c, (hist c).*2)
  ∧ Forall2 (same_result compare) (hist c).*2 (spec_all compare [] (hist c).*1.*2).2
  ∧ (exact_ops compare [] (hist c).*1.*2 →
     Forall2 (same_counted compare) (hist c).*2 (spec_all compare [] (hist c).*1.*2).2)
  ∧ ∀ i g prog, gos c !! i = Some g → progs !! i = Some prog →
      (of_goroutine i c).*1 `prefix_of` prog ∧ returned g `prefix_of` (of_goroutine i c).*2
      ∧ (current g = None → (of_goroutine i c).*2 = returned g).
Proof.
  intros HC E Hr. destruct (NewWithCompare_refines Pow oor compare opts t HC E) as (HR & C & _).
  pose proof (inv_reachable t progs c Hr) as HI.
  destruct (exec_all_steps t [] (hist c).*1.*2 HR) as (t' & rs & E' & _ & Hrs & _).
  pose proof (inv_hist _ _ _ HI) as Eh. rewrite Eh in E'. injection E' as <- <-.
  pose proof (exec_all_exact t [] (hist c).*1.*2 (mem c) (hist c).*2 HR (NewWithCompare_size Pow oor compare opts t E)) as Hex.
  rewrite C in *. split; [exact Eh|split; [exact Hrs|]]. split; [intros ?; by apply Hex|].
  intros i g prog Hi Hp.
  pose proof (inv_progs _ _ _ HI i g prog Hi Hp) as Hc. unfold consistent, current in *.
  destruct (ph g).
  - destruct Hc as [<- ->]. split_and!; [by eexists|done|done].
  - destruct Hc as (<- & -> & _). split_and!; [by eexists|done|done].
  - destruct Hc as [<- ->]. split_and!; [by eexists|done|done].
  - destruct Hc as (<- & -> & _). split_and!; [by eexists|done|done].
  - destruct Hc as (<- & -> & _). split_and!; [by eexists|by eexists|done].
Qed.

Definition go_progs : list (list (op Z Z)) :=
  [[OpPut 1 10; OpGet 2]; [OpPut 2 20; OpDelete 1]; [OpAll]]%Z.
Definition go_schedule : list nat := [0; 0; 0; 0; 0; 1; 1; 1; 1; 1; 0; 2; 2; 1; 0; 0; 2; 0; 2; 1; 1; 1; 1].
Definition go_end : option (conf Z Z) := foldM sched (start sample go_progs) go_schedule.

Lemma sched_reachable {K V} `{Zero K, Zero V} s (c0 c : conf K V) : foldM sched c0 s = Some c → rtc step c0 c.
Proof.
  revert c0. induction s as [|i s IH]; intros c0 E; cbn [foldM] in E; [by injection E as ->|].
  apply bind_Some in E as (c1 & E1 & E2). eapply rtc_l; [by exists i|by apply IH].
Qed.
Lemma go_end_reachable c : go_end = Some c → rtc step (start sample go_progs) c.
Proof. apply sched_reachable. Qed.

Lemma concurrent_linearizable_witness :
  ∃ c, go_end = Some c ∧ (hist c).*2 = [RUnit; RUnit; RValue 20 true; RPairs [(1, 10); (2, 20)]; RBool true]%Z
    ∧ exec_all sample (hist c).*1.*2 = Some (mem c, (hist c).*2)
    ∧ Forall2 (same_counted int_compare) (hist c).*2 (spec_all int_compare [] (hist c).*1.*2).2.
Proof.
  destruct go_end as [c|] eqn:E; [|exfalso; vm_compute in E; discriminate E].
  exists c. destruct (concurrent_linearizable pow_model (λ _, 0%Z) int_compare [WithBlockSize 4] sample
    go_progs c int_compare_Comparator sample_New_ok (go_end_reachable c E)) as (H1 & _ & H2 & _).
  split; [reflexivity|split; [|refine (conj H1 (H2 _))]].
  - clear H1 H2. vm_compute in E. injection E as <-. reflexivity.
  - clear H1 H2. vm_compute in E. injection E as <-. vm_compute. repeat split.
Defined.

(** C12: calls do not race: in no interleaving are two goroutines between the
    acquiring and the releasing of their locks in calls one of which can change a
    tree (finds a tree that it changes), and while a goroutine's body runs the
    shared tree stays the one the body started from. *)
Theorem concurrent_exclusive {K V} `{Zero K, Zero V} (t : BETree K V) progs c :
  rtc step (start t progs) c →
  ¬ conflict c ∧ ∀ i g o t0, gos c !! i = Some g → ph g = Running o t0 → t0 = mem c.
Proof.
  intros Hr%inv_reachable. split; [by eapply inv_no_conflict|].
  intros i g o t0. by apply (inv_undisturbed t progs c i g o t0).
Qed.

(** The first goroutine's [Put] is running. *)
Definition go_running : option (conf Z Z) := foldM sched (start sample go_progs) [0; 0; 0].
Lemma concurrent_exclusive_witness :
  ∃ c g, go_running = Some c ∧ gos c !! 0 = Some g ∧ ph g = Running (OpPut 1 10)%Z sample
    ∧ sample = mem c ∧ ¬ conflict c.
Proof.
  destruct go_running as [c|] eqn:E; [|exfalso; vm_compute in E; discriminate E].
  assert (∃ g, gos c !! 0 = Some g ∧ ph g = Running (OpPut 1 10)%Z sample) as (g & Hg & Hp).
  { vm_compute in E. injection E as <-. eexists. split; reflexivity. }
  destruct (concurrent_exclusive sample go_progs c (sched_reachable _ _ _ E)) as [H1 H2].
  exists c, g. exact (conj eq_refl (conj Hg (conj Hp (conj (H2 0 g _ sample Hg Hp) H1)))).
Defined.

(** C13: there is no deadlock and no livelock: from every reachable state some
    goroutine can step unless all have finished, no run takes more than five
    steps per call, and every run can be completed, after which each goroutine
    has the result of each of its calls. *)
Theorem concurrent_completes {K V} `{Zero K, Zero V} (t : BETree K V) progs c :
  tree_ok t → rtc step (start t progs) c →
  (finished c ∨ ∃ c', step c c')
  ∧ (∀ n c', nsteps step n (start t progs) c' → (Z.of_nat n ≤ 5 * sum_of (λ os, len os) progs)%Z)
  ∧ ∃ c', rtc step c c' ∧ finished c'
     ∧ ∀ i g prog, gos c' !! i = Some g → progs !! i = Some prog →
         of_goroutine i c' = zip prog (returned g) ∧ length (returned g) = length prog.
Proof.
  intros Hok Hr. destruct (refines_exists t Hok) as [l HR]. pose proof (inv_reachable t progs c Hr) as HI.
  split; [|split].
  - destruct (inv_progress t progs c l HR HI) as [?|(i & c' & Hi)]; [by left|right]. by exists c', i.
  - intros n c' Hn%nsteps_weight. rewrite weight_start in Hn.
    pose proof (sum_of_nonneg weight (gos c') weight_nonneg). lia.
  - destruct (inv_completes t progs l c HR HI) as (c' & Hr' & Hf & HI').
    exists c'. split_and!; try done. intros i g prog. by eapply finished_returned.
Qed.

Lemma concurrent_completes_witness :
  tree_ok (after sample_ops)
  ∧ ∃ c', rtc step (start (after sample_ops) go_progs) c' ∧ finished c'
     ∧ ∀ i g prog, gos c' !! i = Some g → go_progs !! i = Some prog →
         of_goroutine i c' = zip prog (returned g) ∧ length (returned g) = length prog.
Proof.
  split; [apply after_ok|].
  exact (proj2 (proj2 (concurrent_completes (after sample_ops) go_progs (start (after sample_ops) go_progs)
    (after_ok _) (rtc_refl _ _)))).
Defined.

(** C14: a writer that has announced itself does not starve: as long as goroutine
    [i] waits, the others together take at most three steps for each reader that
    was inside, and when they can take none, [i] can. *)
Theorem writer_not_starved {K V} `{Zero K, Zero V} (t : BETree K V) progs c i g o :
  tree_ok t → rtc step (start t progs) c → gos c !! i = Some g → ph g = Waiting o →
  ∀ n c', nsteps (step_but i) n c c' →
    (Z.of_nat n ≤ 3 * Z.of_nat (readers (mu c)))%Z
    ∧ gos c' !! i = Some g
    ∧ ((∀ c'', ¬ step_but i c' c'') → is_Some (sched c' i)).
Proof.
  intros Hok Hr Hi Hw n c' Hn. destruct (refines_exists t Hok) as [l HR].
  pose proof (inv_reachable t progs c Hr) as HI.
  destruct (waiting_nsteps t progs n c c' i g o HI Hi Hw Hn) as (HI' & Hi' & Hb).
  pose proof (waiting_busy t progs c i g o HI Hi Hw).
  pose proof (waiting_busy t progs c' i g o HI' Hi' Hw). split_and!; [lia|done|].
  intros Hstuck. destruct (inv_progress t progs c' l HR HI') as [Hf|(j & c'' & Hj)].
  - destruct (Forall_lookup_1 _ _ _ _ Hf Hi') as [_ Hidle]. by rewrite Hw in Hidle.
  - destruct (decide (j = i)) as [->|Hji]; [by eexists|]. destruct (Hstuck c''). by exists j.
Qed.

(** A reader is inside when a writer announces itself. *)
Definition go_waiting : option (conf Z Z) := foldM sched (start sample go_progs) [2; 2; 0].
Lemma writer_not_starved_witness :
  ∃ c g o, go_waiting = Some c ∧ gos c !! 0 = Some g ∧ ph g = Waiting o ∧ readers (mu c) = 1
    ∧ ∀ n c', nsteps (step_but 0) n c c' →
        (Z.of_nat n ≤ 3 * Z.of_nat (readers (mu c)))%Z
        ∧ gos c' !! 0 = Some g
        ∧ ((∀ c'', ¬ step_but 0 c' c'') → is_Some (sched c' 0)).
Proof.
  destruct go_waiting as [c|] eqn:E; [|exfalso; vm_compute in E; discriminate E].
  assert (rtc step (start sample go_progs) c) as Hr by (exact (sched_reachable _ _ _ E)).
  assert (gos c !! 0 = Some (mkGo [OpGet 2%Z] (Waiting (OpPut 1 10)%Z) [])) as Hi.
  { vm_compute in E. injection E as <-. reflexivity. }
  assert (readers (mu c) = 1) as H1 by (vm_compute in E; injection E as <-; reflexivity).
  exists c, (mkGo [OpGet 2%Z] (Waiting (OpPut 1 10)%Z) []), (OpPut 1 10)%Z.
  refine (conj eq_refl (conj Hi (conj eq_refl (conj H1 _)))).
  exact (writer_not_starved sample go_progs c 0 _ _ (rf_ok _ _ sample_refines) Hr Hi eq_refl).
Defined.

(** ** Flushing *)

(** C15: flushing a well-formed node terminates without a panic and keeps its
    order, its height and every key's value; the counters move with what the
    flush made of the buffered messages, and the node gains at most one child. *)
Theorem flushNode_correct {K V} (t : BETree K V) P h (n : node K V) :
  Comparator (cmp t) → params_ok (params t) → wf_node (cmp t) P h n →
  fan_ok (fanout (params t)) n → (∀ k, P k → on_path (cmp t) dels_ok n k) →
  ∃ t' n', flushNode t n = Some (t', n') ∧ wf_node (cmp t) P h n'
    ∧ (∀ k, den (cmp t) n' k = den (cmp t) n k)
    ∧ t' = adjust t (balance n' - balance n) (pending n' - pending n)
    ∧ length (children n') ≤ S (length (children n))
    ∧ Forall (fan_ok (fanout (params t))) (children n').
Proof.
  intros HC Hp Hwf Hf Hd.
  destruct (flushNode_total t P h n HC Hp Hwf Hf Hd) as (t' & n' & E & [F1 F2 F3 _ F5 F6] & _).
  exists t', n'. split_and!; try done. apply F2.
Qed.

Lemma flushNode_correct_witness :
  let t := after sample_ops in
  length (buffer (root t)) = 1
  ∧ ∃ h t' n', wf_node (cmp t) (λ _, True) h (root t) ∧ flushNode t (root t) = Some (t', n')
    ∧ wf_node (cmp t) (λ _, True) h n' ∧ ∀ k, den (cmp t) n' k = den (cmp t) (root t) k.
Proof.
  intros t. split; [vm_compute; reflexivity|].
  destruct (after_ok sample_ops) as [HC Hp [h Hwf] Hf _ _ Hd].
  destruct (flushNode_correct t (λ _, True) h (root t) HC Hp Hwf Hf (λ k _, Hd k))
    as (t' & n' & E & Hwf' & Hden & _).
  exists h, t', n'. exact (conj Hwf (conj E (conj Hwf' Hden))).
Defined.

(** C16: the flush is greedy: the messages that leave the node's buffer are those
    of one child, no child had more, so at least a 1/children share of the buffer
    moves down. *)
Theorem flushNode_greedy {K V} (t : BETree K V) P h (n : node K V) t' n' :
  Comparator (cmp t) → params_ok (params t) → wf_node (cmp t) P h n →
  fan_ok (fanout (params t)) n → (∀ k, P k → on_path (cmp t) dels_ok n k) →
  buffer n ≠ [] → flushNode t n = Some (t', n') →
  greedy (cmp t) n n'
  ∧ length (buffer n) ≤ length (children n) * (length (buffer n) - length (buffer n')).
Proof.
  intros HC Hp Hwf Hf Hd Hne E.
  destruct (flushNode_total t P h n HC Hp Hwf Hf Hd) as (t1 & n1 & E1 & _ & Hg).
  rewrite E in E1. injection E1 as <- <-. split; [done|].
  destruct (Hg Hne) as (hv & Hhv & Hbuf & Hmax). destruct n as [|ps cs buf bs]; [done|].
  apply wf_internal_inv in Hwf as (_ & _ & _ & _ & Hlen & _). cbn [children buffer pivots] in *.
  rewrite Hlen in *. pose proof (heaviest_share (compare := cmp t) ps hv buf Hmax) as Hs.
  pose proof (Permutation_length (kept_Permutation (compare := cmp t) ps hv buf)) as Hk.
  rewrite length_app, <-Hbuf in Hk. by replace (length buf - _) with (length (bucket_at (compare := cmp t) ps hv buf)) by lia.
Qed.

Lemma flushNode_greedy_witness :
  let t := after sample_ops in
  ∃ t' n', flushNode t (root t) = Some (t', n')
    ∧ length (buffer (root t)) ≤ length (children (root t))
                                 * (length (buffer (root t)) - length (buffer n')).
Proof.
  intros t. assert (length (buffer (root t)) = 1) as Hlen by (vm_compute; reflexivity).
  assert (buffer (root t) ≠ []) as Hne by (intros Hn; rewrite Hn in Hlen; discriminate Hlen).
  destruct (after_ok sample_ops) as [HC Hp [h Hwf] Hf _ _ Hd].
  destruct (flushNode_total t (λ _, True) h (root t) HC Hp Hwf Hf (λ k _, Hd k))
    as (t' & n' & E & _).
  exists t', n'.
  exact (conj E (proj2 (flushNode_greedy t (λ _, True) h (root t) t' n' HC Hp Hwf Hf
                          (λ k _, Hd k) Hne E))).
Defined.

(** ** Applying a batch to a leaf *)

(** Applying a batch to a leaf leaves a sorted leaf that holds at each key
    what playing the messages in order gives; [t.size] and [t.pendingDeletes] are
    corrected by the difference between the change of the leaf and what was
    counted when the messages were buffered. *)
Lemma applyToLeaf_correct {K V} (t : BETree K V) (l : list (K * V)) msgs :
  Comparator (cmp t) → ksorted (cmp t) fst l → Forall wf_msg msgs →
  (∀ k, dels_ok (alookup (cmp t) k l) (for_key (cmp t) k msgs)) →
  ∃ l', applyToLeaf t (Leaf l.*1 l.*2) msgs
        = Some (adjust t (len l' - len l - sum_of msg_delta msgs) (- sum_of is_delete msgs),
                Leaf l'.*1 l'.*2)
    ∧ ksorted (cmp t) fst l'
    ∧ ∀ k, alookup (cmp t) k l' = run (cmp t) k msgs (alookup (cmp t) k l).
Proof.
  intros HC Hs Hw Hd.
  destruct (applyToLeaf_spec t (λ _, True) l msgs) as (l' & t' & E & [_ H2 _ H4 H5]);
    [done|by apply Forall_true|done|by apply Forall_true|done|].
  exists l'. by rewrite E, H5.
Qed.

Definition leaf_pairs : list (Z * Z) := [(1, 10); (5, 50); (9, 90)]%Z.
Definition batch : list (Message Z Z) :=
  [put_msg 5 55 true; delete_msg 1; upsert_msg 9 (Some (Increment 1%Z)); put_msg 2 20 true;
   put_msg 2 22 false]%Z.

Lemma leaf_pairs_sorted : ksorted int_compare fst leaf_pairs.
Proof. sorted_run. Qed.

Lemma batch_wf : Forall wf_msg batch.
Proof. repeat constructor; by eexists. Qed.

Lemma batch_dels k : dels_ok (alookup int_compare k leaf_pairs) (for_key int_compare k batch).
Proof.
  destruct (decide (k = 1%Z)) as [->|Hne]; [by vm_compute; repeat split; eexists|].
  unfold for_key, batch. rewrite !filter_cons. cbn [Key put_msg delete_msg upsert_msg].
  assert (int_compare 1 k ≠ 0%Z) as H1 by (unfold int_compare; repeat case_decide; lia).
  rewrite (decide_False (P := int_compare 1 k = 0%Z)) by done.
  repeat case_decide; cbn [dels_ok Kind put_msg upsert_msg]; repeat split; discriminate.
Qed.

Lemma applyToLeaf_correct_witness :
  ksorted int_compare fst leaf_pairs ∧ length batch = 5
  ∧ ∃ l', applyToLeaf sample (Leaf leaf_pairs.*1 leaf_pairs.*2) batch
        = Some (adjust sample (len l' - len leaf_pairs - sum_of msg_delta batch) (- sum_of is_delete batch),
                Leaf l'.*1 l'.*2)
    ∧ ksorted (cmp sample) fst l'
    ∧ ∀ k, alookup (cmp sample) k l' = run (cmp sample) k batch (alookup (cmp sample) k leaf_pairs).
Proof.
  split; [exact leaf_pairs_sorted|split; [reflexivity|]].
  exact (applyToLeaf_correct sample leaf_pairs batch int_compare_Comparator leaf_pairs_sorted
           batch_wf batch_dels).
Defined.

(** The batch path (sort, fold, merge) and the message-by-message path agree:
    the same counters, and the same leaf up to equivalent keys. *)
Lemma applyToLeaf_batch {K V} (t : BETree K V) (l : list (K * V)) msgs :
  Comparator (cmp t) → ksorted (cmp t) fst l → Forall wf_msg msgs →
  (∀ k, dels_ok (alookup (cmp t) k l) (for_key (cmp t) k msgs)) →
  ∃ t' l1 l2, applyToLeaf t (Leaf l.*1 l.*2) msgs = Some (t', Leaf l1.*1 l1.*2)
    ∧ applyToLeafSmall t (Leaf l.*1 l.*2) msgs = Some (t', Leaf l2.*1 l2.*2)
    ∧ Forall2 (same_pair (compare := cmp t)) l1 l2.
Proof.
  intros HC Hs Hw Hd.
  destruct (applyToLeaf_spec t (λ _, True) l msgs) as (l1 & t1 & E1 & [_ S1 _ L1 T1]);
    [done|by apply Forall_true|done|by apply Forall_true|done|].
  destruct (applyToLeafSmall_spec t (λ _, True) l msgs) as (l2 & t2 & E2 & [_ S2 _ L2 T2]);
    [done|by apply Forall_true|done|by apply Forall_true|done|].
  assert (Forall2 (same_pair (compare := cmp t)) l1 l2) as HF.
  { apply sorted_run_unique; [done|done|]. intros k. by rewrite L1, L2. }
  exists t1, l1, l2. split; [done|]. split; [|done].
  rewrite E2. do 2 f_equal. rewrite T1, T2. by rewrite (Forall2_length _ _ _ HF).
Qed.

Lemma applyToLeaf_batch_witness :
  length batch = 5
  ∧ ∃ t' l1 l2,
      applyToLeaf sample (Leaf leaf_pairs.*1 leaf_pairs.*2) batch = Some (t', Leaf l1.*1 l1.*2)
    ∧ applyToLeafSmall sample (Leaf leaf_pairs.*1 leaf_pairs.*2) batch = Some (t', Leaf l2.*1 l2.*2)
    ∧ Forall2 (same_pair (compare := cmp sample)) l1 l2.
Proof.
  split; [reflexivity|].
  exact (applyToLeaf_batch sample leaf_pairs batch int_compare_Comparator leaf_pairs_sorted
           batch_wf batch_dels).
Defined.

(** C20: applying a batch of puts, deletes and upserts to a sorted leaf, where each
    delete hits a key that is present when its turn comes (as [Delete] and
    [DeleteRange] make sure before they buffer one), leaves a sorted leaf that holds at each key what playing the messages in
    order gives, and corrects [t.size] and [t.pendingDeletes] by the difference
    between the change of the leaf and what was counted when the messages were
    buffered; the message-by-message path makes the same counters and the same
    leaf, up to equivalent keys. *)
Theorem applyToLeaf_paths {K V} (t : BETree K V) (l : list (K * V)) msgs :
  Comparator (cmp t) → ksorted (cmp t) fst l → Forall wf_msg msgs →
  (∀ k, dels_ok (alookup (cmp t) k l) (for_key (cmp t) k msgs)) →
  ∃ t' l1 l2, applyToLeaf t (Leaf l.*1 l.*2) msgs = Some (t', Leaf l1.*1 l1.*2)
    ∧ t' = adjust t (len l1 - len l - sum_of msg_delta msgs) (- sum_of is_delete msgs)
    ∧ ksorted (cmp t) fst l1
    ∧ (∀ k, alookup (cmp t) k l1 = run (cmp t) k msgs (alookup (cmp t) k l))
    ∧ applyToLeafSmall t (Leaf l.*1 l.*2) msgs = Some (t', Leaf l2.*1 l2.*2)
    ∧ Forall2 (same_pair (compare := cmp t)) l1 l2.
Proof.
  intros HC Hs Hw Hd. destruct (applyToLeaf_correct t l msgs HC Hs Hw Hd) as (l' & E & S & L).
  destruct (applyToLeaf_batch t l msgs HC Hs Hw Hd) as (t' & l1 & l2 & E1 & E2 & HF).
  rewrite E in E1. injection E1 as <- E1 E1'.
  assert (l1 = l') as -> by (rewrite <-(zip_fst_snd l1), <-(zip_fst_snd l'); congruence).
  by exists (adjust t (len l' - len l - sum_of msg_delta msgs) (- sum_of is_delete msgs)), l', l2.
Qed.

Lemma applyToLeaf_paths_witness :
  length batch = 5
  ∧ ∃ t' l1 l2,
      applyToLeaf sample (Leaf leaf_pairs.*1 leaf_pairs.*2) batch = Some (t', Leaf l1.*1 l1.*2)
    ∧ t' = adjust sample (len l1 - len leaf_pairs - sum_of msg_delta batch) (- sum_of is_delete batch)
    ∧ ksorted (cmp sample) fst l1
    ∧ (∀ k, alookup (cmp sample) k l1 = run (cmp sample) k batch (alookup (cmp sample) k leaf_pairs))
    ∧ applyToLeafSmall sample (Leaf leaf_pairs.*1 leaf_pairs.*2) batch = Some (t', Leaf l2.*1 l2.*2)
    ∧ Forall2 (same_pair (compare := cmp sample)) l1 l2.
Proof.
  split; [reflexivity|].
  exact (applyToLeaf_paths sample leaf_pairs batch int_compare_Comparator leaf_pairs_sorted batch_wf batch_dels).
Defined.

(** C21: resolving a batch gives one message per key, in key order, that plays
    like the key's messages did; it makes up no key and no deletion. *)
Theorem resolveMessages_correct {K V} (compare : K → K → Z) (msgs : list (Message K V)) :
  Comparator compare → Forall wf_msg msgs →
  ∃ r, resolveMessages compare msgs = Some r ∧ ksorted compare Key r
    ∧ (∀ k o, run compare k r o = run compare k msgs o)
    ∧ (∀ m, m ∈ r → ∃ m', m' ∈ msgs ∧ Key m = Key m')
    ∧ (∀ m, m ∈ r → Kind m = MsgDelete → ∃ m', m' ∈ msgs ∧ Kind m' = MsgDelete).
Proof.
  intros HC Hw. destruct (resolveMessages_spec (compare := compare) msgs Hw) as (r & E & [? ? ? ? ? ?]).
  by exists r.
Qed.

Lemma resolveMessages_correct_witness :
  Forall wf_msg batch
  ∧ ∃ r, resolveMessages int_compare batch = Some r ∧ ksorted int_compare Key r
    ∧ (∀ k o, run int_compare k r o = run int_compare k batch o)
    ∧ (∀ m, m ∈ r → ∃ m', m' ∈ batch ∧ Key m = Key m')
    ∧ (∀ m, m ∈ r → Kind m = MsgDelete → ∃ m', m' ∈ batch ∧ Kind m' = MsgDelete).
Proof.
  split; [exact batch_wf|].
  exact (resolveMessages_correct int_compare batch int_compare_Comparator batch_wf).
Defined.

(** The in-place backward merge of sorted puts writes every slot before it is
    read, and holds each message's value at its key and the old value elsewhere. *)
Lemma mergeLeafPuts_correct {K V} (compare : K → K → Z) (l : list (K * V)) msgs :
  Comparator compare → ksorted compare fst l → ksorted compare Key msgs →
  Forall (λ m, Kind m = MsgPut) msgs →
  ∃ l', mergeLeafPuts compare (Leaf l.*1 l.*2) msgs = Some (Leaf l'.*1 l'.*2)
    ∧ ksorted compare fst l'
    ∧ ∀ k, alookup compare k l' = run compare k msgs (alookup compare k l).
Proof.
  intros HC Hs Hm Hp.
  destruct (mergeLeafPuts_spec (compare := compare) (λ _, True) l msgs) as (l' & E & S & _ & L);
    [done|by apply Forall_true|done|done|by apply Forall_true|]. by exists l'.
Qed.

Definition sorted_puts : list (Message Z Z) :=
  [put_msg 0 0 true; put_msg 5 55 false; put_msg 7 70 true; put_msg 11 110 true]%Z.
Lemma sorted_puts_sorted : ksorted int_compare Key sorted_puts.
Proof. sorted_run. Qed.

Lemma mergeLeafPuts_correct_witness :
  ksorted int_compare Key sorted_puts
  ∧ ∃ l', mergeLeafPuts int_compare (Leaf leaf_pairs.*1 leaf_pairs.*2) sorted_puts
          = Some (Leaf l'.*1 l'.*2)
    ∧ ksorted int_compare fst l'
    ∧ ∀ k, alookup int_compare k l' = run int_compare k sorted_puts (alookup int_compare k leaf_pairs).
Proof.
  split; [exact sorted_puts_sorted|].
  apply (mergeLeafPuts_correct int_compare leaf_pairs sorted_puts int_compare_Comparator
           leaf_pairs_sorted sorted_puts_sorted).
  repeat constructor.
Defined.

(** So does the merge of a sorted batch with deletes, which compacts the
    arrays while it walks and inserts the new keys afterwards. *)
Lemma mergeLeafWithDeletes_correct {K V} (compare : K → K → Z) (l : list (K * V)) msgs :
  Comparator compare → ksorted compare fst l → ksorted compare Key msgs →
  Forall (λ m, Kind m = MsgPut ∨ Kind m = MsgDelete) msgs →
  ∃ l', mergeLeafWithDeletes compare (Leaf l.*1 l.*2) msgs = Some (Leaf l'.*1 l'.*2)
    ∧ ksorted compare fst l'
    ∧ ∀ k, alookup compare k l' = run compare k msgs (alookup compare k l).
Proof.
  intros HC Hs Hm Hp.
  destruct (mergeLeafWithDeletes_spec (compare := compare) (λ _, True) l msgs) as (l' & E & S & _ & L);
    [done|by apply Forall_true|done|done|by apply Forall_true|]. by exists l'.
Qed.

Definition sorted_mix : list (Message Z Z) :=
  [delete_msg 0; delete_msg 1; put_msg 5 55 false; put_msg 7 70 true]%Z.
Lemma sorted_mix_sorted : ksorted int_compare Key sorted_mix.
Proof. sorted_run. Qed.

Lemma mergeLeafWithDeletes_correct_witness :
  ksorted int_compare Key sorted_mix
  ∧ ∃ l', mergeLeafWithDeletes int_compare (Leaf leaf_pairs.*1 leaf_pairs.*2) sorted_mix
          = Some (Leaf l'.*1 l'.*2)
    ∧ ksorted int_compare fst l'
    ∧ ∀ k, alookup int_compare k l' = run int_compare k sorted_mix (alookup int_compare k leaf_pairs).
Proof.
  split; [exact sorted_mix_sorted|].
  apply (mergeLeafWithDeletes_correct int_compare leaf_pairs sorted_mix int_compare_Comparator
           leaf_pairs_sorted sorted_mix_sorted).
  repeat (constructor; [first [left; reflexivity|right; reflexivity]|]). constructor.
Defined.

(** C22: the two in-place merges of a sorted batch with a sorted leaf (the backward
    merge of puts, which writes every slot before it is read, and the compacting
    merge of puts and deletes) play each message at its key and change no other. *)
Theorem merges_correct {K V} (compare : K → K → Z) (l : list (K * V)) msgs :
  Comparator compare → ksorted compare fst l → ksorted compare Key msgs →
  (Forall (λ m, Kind m = MsgPut) msgs →
   ∃ l', mergeLeafPuts compare (Leaf l.*1 l.*2) msgs = Some (Leaf l'.*1 l'.*2)
     ∧ ksorted compare fst l'
     ∧ ∀ k, alookup compare k l' = run compare k msgs (alookup compare k l))
  ∧ (Forall (λ m, Kind m = MsgPut ∨ Kind m = MsgDelete) msgs →
   ∃ l', mergeLeafWithDeletes compare (Leaf l.*1 l.*2) msgs = Some (Leaf l'.*1 l'.*2)
     ∧ ksorted compare fst l'
     ∧ ∀ k, alookup compare k l' = run compare k msgs (alookup compare k l)).
Proof.
  intros HC Hs Hm. split; intros Hk; [by apply mergeLeafPuts_correct|by apply mergeLeafWithDeletes_correct].
Qed.

Lemma merges_correct_witness :
  ksorted int_compare Key sorted_puts
  ∧ ∃ l', mergeLeafPuts int_compare (Leaf leaf_pairs.*1 leaf_pairs.*2) sorted_puts
          = Some (Leaf l'.*1 l'.*2)
    ∧ ksorted int_compare fst l'
    ∧ ∀ k, alookup int_compare k l' = run int_compare k sorted_puts (alookup int_compare k leaf_pairs).
Proof.
  split; [exact sorted_puts_sorted|].
  apply (proj1 (merges_correct int_compare leaf_pairs sorted_puts int_compare_Comparator
           leaf_pairs_sorted sorted_puts_sorted)).
  repeat constructor.
Defined.

(** C23: splitting the child at any index of a well-formed node, under a fanout of at
    least two, when the child is a leaf of two keys or more or an internal node of
    two pivots or more, and every node below the parent is within the fanout (the
    child itself may exceed it by one): the parent stays well formed, keeps its
    height, its buffer and every key's value, gains one child, and every node below
    it is within the fanout. *)
Theorem splitChild_correct {K V} (compare : K → K → Z) P h F ps (L : list (node K V)) c R buf bs :
  Comparator compare → wf_node compare P (S h) (Internal ps (L ++ c :: R) buf bs) →
  (2 ≤ F)%Z → splittable F c → Forall (fan_ok F) L → Forall (fan_ok F) R →
  ∃ ps' cs', splitChild compare (Internal ps (L ++ c :: R) buf bs) (length L)
             = Some (Internal ps' cs' buf bs)
    ∧ wf_node compare P (S h) (Internal ps' cs' buf bs)
    ∧ (∀ k, den compare (Internal ps' cs' buf bs) k = den compare (Internal ps (L ++ c :: R) buf bs) k)
    ∧ length cs' = S (length (L ++ c :: R)) ∧ Forall (fan_ok F) cs'.
Proof.
  intros HC Hwf HF Hsp HL HR.
  destruct (splitChild_spec (compare := compare) P h F ps L c R buf bs Hwf HF Hsp HL HR)
    as (ps' & cs' & E & Hwf' & Hsame & _ & _ & Hlen & Hfan).
  exists ps', cs'. split_and!; try done. apply Hsame.
Qed.

Definition full_leaf : node Z Z := Leaf [1; 2; 3; 4; 5]%Z [10; 20; 30; 40; 50]%Z.
Lemma splitChild_correct_witness :
  ∃ ps' cs', splitChild int_compare (Internal [] [full_leaf] [] false) 0 = Some (Internal ps' cs' [] false)
    ∧ wf_node int_compare (λ _, True) 1 (Internal ps' cs' [] false)
    ∧ (∀ k, den int_compare (Internal ps' cs' [] false) k
            = den int_compare (Internal [] [full_leaf] [] false) k)
    ∧ length cs' = 2 ∧ Forall (fan_ok 2) cs'.
Proof.
  apply (splitChild_correct int_compare (λ _, True) 0 2 [] [] full_leaf [] [] false int_compare_Comparator).
  - apply wf_internal; [apply SSorted_nil|apply Forall_nil_2|reflexivity|apply Forall_nil_2
                       |apply Forall_nil_2|discriminate|].
    intros [|i] c Hi; [|destruct i; discriminate Hi]. injection Hi as <-.
    apply (wf_leaf _ _ [(1, 10); (2, 20); (3, 30); (4, 40); (5, 50)]%Z).
    + sorted_run.
    + repeat (constructor; [split; reflexivity|]). constructor.
  - lia.
  - cbn. lia.
  - constructor.
  - constructor.
Defined.

(** ** The size counter *)

Lemma history_lists {K V} `{Zero K, Zero V} {mm : Memory K V} Pow oor (compare : K → K → Z) opts
    (t : BETree K V) (os : list (op K V)) :
  Comparator compare → NewWithCompare Pow oor (Some compare) opts = Some (inr t) →
  ∃ t' rs pairs, exec_all t os = Some (t', rs) ∧ All t' = Some (Ascending pairs).
Proof.
  intros HC E. destruct (NewWithCompare_refines Pow oor compare opts t HC E) as (HR & _ & _).
  destruct (exec_all_steps t [] os HR) as (t' & rs & E' & HR' & _). pose proof (rf_ok _ _ HR') as Hok.
  destruct (ok_wf t' Hok) as [h Hwf].
  destruct (materializeAll_spec t' h (ok_cmp t' Hok) Hwf) as (pairs & Em & _).
  exists t', rs, pairs. unfold All. by rewrite Em.
Qed.

(** In a history where every buffered put was counted by whether its key is
    live and no upsert creates a key in a buffer, [Len] is exactly the number of
    pairs [All] yields; calls of [PutIfAbsent], [Delete], [DeleteRange], [Clear]
    and the reads always qualify. *)
Lemma Len_exact {K V} `{Zero K, Zero V} {mm : Memory K V} Pow oor (compare : K → K → Z) opts
    (t : BETree K V) (os : list (op K V)) :
  Comparator compare → NewWithCompare Pow oor (Some compare) opts = Some (inr t) → all_fit eq t os →
  ∃ t' rs pairs, exec_all t os = Some (t', rs) ∧ All t' = Some (Ascending pairs) ∧ Len t' = len pairs.
Proof.
  intros HC E Hfit. destruct (NewWithCompare_refines Pow oor compare opts t HC E) as (HR & C & _).
  destruct (exec_all_steps t [] os HR) as (t' & rs & E' & HR' & _).
  assert (size_rel eq t) as Hrel.
  { by apply (NewWithCompare_size Pow oor compare opts). }
  destruct (exec_all_size t [] os t' rs HR Hrel Hfit E') as [Hok Hrel'].
  destruct (ok_wf t' Hok) as [h Hwf].
  destruct (materializeAll_spec t' h (ok_cmp t' Hok) Hwf) as (pairs & Em & _).
  exists t', rs, pairs. split; [done|]. unfold All. rewrite Em. split; [done|].
  symmetry. by apply (Len_rel (rel := eq)).
Qed.

Definition counted_ops : list (op Z Z) :=
  ((λ i, OpPutIfAbsent (Z.of_nat i) (Z.of_nat (10 * i))) <$> seq 1 12)
  ++ [OpDelete 3%Z; OpPutIfAbsent 4%Z 0%Z; OpDeleteRange 7%Z 10%Z; OpPutIfAbsent 3%Z 33%Z].

Lemma counted_ops_fit : all_fit eq sample counted_ops.
Proof. vm_compute. tauto. Qed.

Lemma Len_exact_witness :
  all_fit eq sample counted_ops
  ∧ ∃ t' rs pairs, exec_all sample counted_ops = Some (t', rs)
      ∧ All t' = Some (Ascending pairs) ∧ Len t' = len pairs.
Proof.
  split; [exact counted_ops_fit|].
  exact (Len_exact pow_model (λ _, 0%Z) int_compare [WithBlockSize 4] sample counted_ops
           int_compare_Comparator sample_New_ok counted_ops_fit).
Defined.

(** In a history without upserts [Len] never undercounts the live pairs. *)
Lemma Len_lower_bound {K V} `{Zero K, Zero V} {mm : Memory K V} Pow oor (compare : K → K → Z) opts
    (t : BETree K V) (os : list (op K V)) :
  Comparator compare → NewWithCompare Pow oor (Some compare) opts = Some (inr t) →
  Forall (λ o, if o is OpUpsert _ _ then False else True) os →
  ∃ t' rs pairs, exec_all t os = Some (t', rs) ∧ All t' = Some (Ascending pairs)
    ∧ (len pairs ≤ Len t')%Z.
Proof.
  intros HC E Hos. destruct (NewWithCompare_refines Pow oor compare opts t HC E) as (HR & C & _).
  destruct (exec_all_steps t [] os HR) as (t' & rs & E' & HR' & _).
  assert (size_rel Z.le t) as Hrel.
  { by apply (NewWithCompare_size Pow oor compare opts). }
  destruct (exec_all_size t [] os t' rs HR Hrel (no_upserts_fit t [] os HR Hos) E') as [Hok Hrel'].
  destruct (ok_wf t' Hok) as [h Hwf].
  destruct (materializeAll_spec t' h (ok_cmp t' Hok) Hwf) as (pairs & Em & _).
  exists t', rs, pairs. split; [done|]. unfold All. rewrite Em. split; [done|].
  by apply (Len_rel (rel := Z.le)).
Qed.

Definition overwrite_ops : list (op Z Z) := puts 5 ++ [OpPut 6 60; OpPut 6 61]%Z.
Lemma Len_lower_bound_witness :
  ∃ t' rs pairs, exec_all sample overwrite_ops = Some (t', rs) ∧ All t' = Some (Ascending pairs)
    ∧ (len pairs ≤ Len t')%Z.
Proof.
  apply (Len_lower_bound pow_model (λ _, 0%Z) int_compare [WithBlockSize 4] sample overwrite_ops
           int_compare_Comparator sample_New_ok).
  repeat (apply Forall_cons_2; [exact I|]). apply Forall_nil_2.
Defined.

(** C24: [Len] against the number of pairs [All] yields: equal after a history where
    every buffered put was counted by whether its key is live and no upsert
    creates a key in a buffer ([PutIfAbsent], [Delete], [DeleteRange], [Clear] and
    the reads always qualify), and never below it after a history without
    upserts. *)
Theorem Len_correct {K V} `{Zero K, Zero V} {mm : Memory K V} Pow oor (compare : K → K → Z) opts
    (t : BETree K V) (os : list (op K V)) :
  Comparator compare → NewWithCompare Pow oor (Some compare) opts = Some (inr t) →
  ∃ t' rs pairs, exec_all t os = Some (t', rs) ∧ All t' = Some (Ascending pairs)
    ∧ (all_fit eq t os → Len t' = len pairs)
    ∧ (Forall (λ o, if o is OpUpsert _ _ then False else True) os → (len pairs ≤ Len t')%Z).
Proof.
  intros HC E. destruct (history_lists Pow oor compare opts t os HC E) as (t' & rs & pairs & E1 & E2).
  exists t', rs, pairs. split_and!; [done|done|..].
  - intros Hfit. destruct (Len_exact Pow oor compare opts t os HC E Hfit) as (? & ? & ? & E1' & E2' & HL).
    by simplify_eq.
  - intros Hos. destruct (Len_lower_bound Pow oor compare opts t os HC E Hos) as (? & ? & ? & E1' & E2' & HL).
    by simplify_eq.
Qed.

Lemma Len_correct_witness :
  all_fit eq sample counted_ops
  ∧ ∃ t' rs pairs, exec_all sample counted_ops = Some (t', rs) ∧ All t' = Some (Ascending pairs)
      ∧ Len t' = len pairs.
Proof.
  split; [exact counted_ops_fit|].
  destruct (Len_correct pow_model (λ _, 0%Z) int_compare [WithBlockSize 4] sample counted_ops
    int_compare_Comparator sample_New_ok) as (t' & rs & pairs & E1 & E2 & HL & _).
  exists t', rs, pairs. exact (conj E1 (conj E2 (HL counted_ops_fit))).
Defined.

(** [Len] is not always the number of pairs: after these eight calls on a
    fresh tree nothing is live and [Len] returns -1. *)
Lemma Len_negative :
  let t := after (puts 5 ++ [OpDeleteRange 0 100; OpUpsert 200 (Increment 5%Z); OpDelete 200]%Z) in
  All t = Some (Ascending []) ∧ Len t = (-1)%Z.
Proof. split; vm_compute; reflexivity. Qed.

(** The pending-delete counter is never negative, and while it is zero a key
    stored in its leaf is live: the test [putLocked] makes on its fast path is
    right about the keys it finds. *)
Lemma fast_path_sound {K V} (t : BETree K V) k :
  tree_ok t →
  (0 ≤ pendingDeletes t)%Z
  ∧ (pendingDeletes t = 0%Z → existsInLeaf (cmp t) (root t) k = Some true → is_Some (lookup t k)).
Proof.
  intros Hok. pose proof (ok_cmp t Hok) as HC. destruct (ok_wf t Hok) as [h Hwf].
  rewrite (ok_pending t Hok). split; [apply pending_nonneg|].
  intros Hp. rewrite (existsInLeaf_spec (λ _, True) h) by done.
  intros [= Hl%bool_decide_eq_true]. by apply leaf_value_live.
Qed.

Lemma fast_path_sound_witness :
  tree_ok (after (puts 20))
  ∧ pendingDeletes (after (puts 20)) = 0%Z
  ∧ existsInLeaf (cmp (after (puts 20))) (root (after (puts 20))) 7%Z = Some true
  ∧ is_Some (lookup (after (puts 20)) 7%Z).
Proof.
  assert (pendingDeletes (after (puts 20)) = 0%Z) as E1 by (vm_compute; reflexivity).
  assert (existsInLeaf (cmp (after (puts 20))) (root (after (puts 20))) 7%Z = Some true) as E2
    by (vm_compute; reflexivity).
  exact (conj (after_ok _) (conj E1 (conj E2
    (proj2 (fast_path_sound (after (puts 20)) 7%Z (after_ok _)) E1 E2)))).
Defined.

(** ** Nodes *)

(** [findChildIndex] returns the index the comment in node.go defines: every
    pivot before it is at most the key and every pivot from it on is above. *)
Lemma findChildIndex_correct {K V} (compare : K → K → Z) (n : node K V) key :
  Comparator compare → ksorted compare id (pivots n) →
  ∃ i, findChildIndex n key compare = Some i ∧ i ≤ length (pivots n)
    ∧ ∀ j p, pivots n !! j = Some p → (compare p key ≤ 0)%Z ↔ j < i.
Proof.
  intros HC Hs. rewrite findChildIndex_spec by done. eexists. split; [done|].
  split; [apply child_ix_le|]. intros j p. by apply child_ix_pivot.
Qed.

Definition sample_node : node Z Z :=
  Internal [10; 20; 30]%Z [emptyLeaf; emptyLeaf; emptyLeaf; emptyLeaf]
    [put_msg 5 50 true; put_msg 15 150 true; delete_msg 15; put_msg 15 151 true; put_msg 30 300 true]%Z true.
Lemma sample_pivots_sorted : ksorted int_compare id (pivots sample_node).
Proof. cbn [pivots sample_node]. sorted_run. Qed.

Lemma findChildIndex_correct_witness :
  ksorted int_compare id (pivots sample_node)
  ∧ ∃ i, findChildIndex sample_node 20%Z int_compare = Some i ∧ i ≤ length (pivots sample_node)
    ∧ ∀ j p, pivots sample_node !! j = Some p → (int_compare p 20 ≤ 0)%Z ↔ j < i.
Proof.
  split; [exact sample_pivots_sorted|].
  exact (findChildIndex_correct int_compare sample_node 20%Z int_compare_Comparator sample_pivots_sorted).
Defined.

(** [leafInsert] puts the value at the key in a sorted leaf and says whether
    the key is new. *)
Lemma leafInsert_correct {K V} (compare : K → K → Z) (l : list (K * V)) k v :
  Comparator compare → ksorted compare fst l →
  ∃ l', leafInsert (Leaf l.*1 l.*2) k v compare
        = Some (Leaf l'.*1 l'.*2, negb (bool_decide (is_Some (alookup compare k l))))
    ∧ ksorted compare fst l'
    ∧ ∀ x, alookup compare x l' = if decide (compare k x = 0%Z) then Some v else alookup compare x l.
Proof.
  intros HC Hs. destruct (key_split_strict fst k l Hs) as (l1 & l2 & l3 & -> & H1 & H2 & H3 & Hu).
  rewrite leafInsert_spec, alookup_split by done.
  assert (keq compare (default k (head l2.*1)) k) as Hk.
  { destruct Hu as [->|[[k0 v0] ->]]; [apply compare_refl|]. by apply Forall_cons in H2 as [? _]. }
  exists (l1 ++ (default k (head l2.*1), v) :: l3). split; [|split].
  - do 2 f_equal. destruct Hu as [->|[[k0 v0] ->]]; [done|].
    apply Forall_cons in H2 as [H2 _]. cbn [alookup fst] in *. by rewrite decide_True.
  - by eapply ksorted_put.
  - intros x. by apply alookup_put.
Qed.

Lemma leafInsert_correct_witness :
  ksorted int_compare fst leaf_pairs
  ∧ ∃ l', leafInsert (Leaf leaf_pairs.*1 leaf_pairs.*2) 5%Z 55%Z int_compare
        = Some (Leaf l'.*1 l'.*2, negb (bool_decide (is_Some (alookup int_compare 5%Z leaf_pairs))))
    ∧ ksorted int_compare fst l'
    ∧ ∀ x, alookup int_compare x l'
           = if decide (int_compare 5 x = 0%Z) then Some 55%Z else alookup int_compare x leaf_pairs.
Proof.
  split; [exact leaf_pairs_sorted|].
  exact (leafInsert_correct int_compare leaf_pairs 5%Z 55%Z int_compare_Comparator leaf_pairs_sorted).
Defined.

(** [leafDelete] removes the key from a sorted leaf and says whether it was
    there. *)
Lemma leafDelete_correct {K V} (compare : K → K → Z) (l : list (K * V)) k :
  Comparator compare → ksorted compare fst l →
  ∃ l', leafDelete (Leaf l.*1 l.*2) k compare
        = Some (Leaf l'.*1 l'.*2, bool_decide (is_Some (alookup compare k l)))
    ∧ ksorted compare fst l'
    ∧ ∀ x, alookup compare x l' = if decide (compare k x = 0%Z) then None else alookup compare x l.
Proof.
  intros HC Hs. destruct (key_split_strict fst k l Hs) as (l1 & l2 & l3 & -> & H1 & H2 & H3 & Hu).
  rewrite leafDelete_spec, alookup_split by done. exists (l1 ++ l3). split; [|split].
  - do 2 f_equal. destruct Hu as [->|[[k0 v0] ->]]; [done|].
    apply Forall_cons in H2 as [H2 _]. cbn [alookup fst] in *. by rewrite decide_True.
  - by eapply ksorted_delete.
  - intros x. by apply alookup_delete.
Qed.

Lemma leafDelete_correct_witness :
  ksorted int_compare fst leaf_pairs
  ∧ ∃ l', leafDelete (Leaf leaf_pairs.*1 leaf_pairs.*2) 5%Z int_compare
        = Some (Leaf l'.*1 l'.*2, bool_decide (is_Some (alookup int_compare 5%Z leaf_pairs)))
    ∧ ksorted int_compare fst l'
    ∧ ∀ x, alookup int_compare x l'
           = if decide (int_compare 5 x = 0%Z) then None else alookup int_compare x leaf_pairs.
Proof.
  split; [exact leaf_pairs_sorted|].
  exact (leafDelete_correct int_compare leaf_pairs 5%Z int_compare_Comparator leaf_pairs_sorted).
Defined.

(** C26: [leafInsert] puts the value at the key in a sorted leaf, [leafDelete] removes
    the key; each says whether the key was there and leaves the leaf sorted and
    every other key alone. *)
Theorem leaf_edits_correct {K V} (compare : K → K → Z) (l : list (K * V)) k v :
  Comparator compare → ksorted compare fst l →
  let there := bool_decide (is_Some (alookup compare k l)) in
  (∃ l', leafInsert (Leaf l.*1 l.*2) k v compare = Some (Leaf l'.*1 l'.*2, negb there)
    ∧ ksorted compare fst l'
    ∧ ∀ x, alookup compare x l' = if decide (compare k x = 0%Z) then Some v else alookup compare x l)
  ∧ ∃ l', leafDelete (Leaf l.*1 l.*2) k compare = Some (Leaf l'.*1 l'.*2, there)
    ∧ ksorted compare fst l'
    ∧ ∀ x, alookup compare x l' = if decide (compare k x = 0%Z) then None else alookup compare x l.
Proof. intros HC Hs. split; [by apply leafInsert_correct|by apply leafDelete_correct]. Qed.

Lemma leaf_edits_correct_witness :
  ksorted int_compare fst leaf_pairs
  ∧ ∃ l', leafDelete (Leaf leaf_pairs.*1 leaf_pairs.*2) 5%Z int_compare
        = Some (Leaf l'.*1 l'.*2, bool_decide (is_Some (alookup int_compare 5%Z leaf_pairs)))
    ∧ ksorted int_compare fst l'
    ∧ ∀ x, alookup int_compare x l'
           = if decide (int_compare 5 x = 0%Z) then None else alookup int_compare x leaf_pairs.
Proof.
  split; [exact leaf_pairs_sorted|].
  exact (proj2 (leaf_edits_correct int_compare leaf_pairs 5%Z 55%Z int_compare_Comparator leaf_pairs_sorted)).
Defined.

(** On a sorted buffer the binary search of [bufferMessagesForKey] returns
    what its linear scan would: the key's messages, oldest first. *)
Lemma bufferMessagesForKey_correct {K V} (compare : K → K → Z) (n : node K V) key :
  Comparator compare → (bufferSorted n = true → kwsorted compare Key (buffer n)) →
  bufferMessagesForKey n key compare = Some (filter (λ m, compare (Key m) key = 0%Z) (buffer n)).
Proof. intros HC Hs. by apply bufferMessagesForKey_spec. Qed.

Lemma sample_buffer_sorted : kwsorted int_compare Key (buffer sample_node).
Proof.
  cbn [buffer sample_node]. unfold kwsorted.
  repeat first [apply SSorted_nil | apply SSorted_cons | apply Forall_nil_2
               | apply Forall_cons_2; [vm_compute; discriminate|]].
Qed.

Lemma bufferMessagesForKey_correct_witness :
  bufferSorted sample_node = true ∧ kwsorted int_compare Key (buffer sample_node)
  ∧ bufferMessagesForKey sample_node 15%Z int_compare
    = Some (filter (λ m, int_compare (Key m) 15 = 0%Z) (buffer sample_node)).
Proof.
  split; [reflexivity|split; [exact sample_buffer_sorted|]].
  exact (bufferMessagesForKey_correct int_compare sample_node 15%Z int_compare_Comparator
           (λ _, sample_buffer_sorted)).
Defined.

(** On a sorted buffer the two binary searches of [bufferSlice] delimit what
    [bufferSliceScan] collects, for every combination of inclusive bounds. *)
Lemma bufferSlice_correct {K V} (compare : K → K → Z) (n : node K V) lo hi loInc hiInc :
  Comparator compare → (compare lo hi < 0)%Z →
  (bufferSorted n = true → kwsorted compare Key (buffer n)) →
  bufferSlice n lo hi loInc hiInc compare = Some (bufferSliceScan n lo hi loInc hiInc compare).
Proof. intros HC Hlh Hs. by apply bufferSlice_spec. Qed.

Lemma bufferSlice_correct_witness :
  (int_compare 5 15 < 0)%Z ∧ kwsorted int_compare Key (buffer sample_node)
  ∧ bufferSlice sample_node 5%Z 15%Z false true int_compare
    = Some (bufferSliceScan sample_node 5%Z 15%Z false true int_compare).
Proof.
  assert (int_compare 5 15 < 0)%Z as Hlh by (vm_compute; reflexivity).
  split; [exact Hlh|split; [exact sample_buffer_sorted|]].
  exact (bufferSlice_correct int_compare sample_node 5%Z 15%Z false true int_compare_Comparator
           Hlh (λ _, sample_buffer_sorted)).
Defined.



(** ** Iterators and cursors *)

(** An iterator hands the consumer its pairs in order, ascending or
    descending, and stops at the first pair the consumer refuses. *)
Lemma run_seq_correct {K V St} (it : Seq2 K V) (yield : St → K → V → St * bool) (s : St) :
  let pairs := match it with Ascending pairs => pairs | Descending pairs => reverse pairs end in
  ∃ n, run_seq it yield s = Some (consumed yield s (take n pairs)) ∧ n ≤ length pairs
    ∧ (∀ i, S i < n → accepts yield pairs s i = Some true)
    ∧ (n < length pairs → ∃ i, n = S i ∧ accepts yield pairs s i = Some false).
Proof. apply run_seq_prefix. Qed.

(** A cursor on a tree starts invalid; [Next] until it returns false visits
    the pairs [All] yields, in order, [Prev] until it returns false visits them in
    reverse, and either leaves the cursor invalid. *)
Lemma Cursor_walks {K V} `{Zero V} (t : BETree K V) :
  tree_ok t → ∃ c pairs, Cursor_ t = Some c ∧ Valid c = false ∧ All t = Some (Ascending pairs)
    ∧ ∀ fuel, length pairs < fuel →
        (∃ c', walk Next fuel c = Some (pairs, c') ∧ Valid c' = false)
        ∧ ∃ c', walk Prev fuel c = Some (reverse pairs, c') ∧ Valid c' = false.
Proof.
  intros Hok. destruct (ok_wf t Hok) as [h Hwf].
  destruct (materializeAll_spec t h (ok_cmp t Hok) Hwf) as (pairs & E & _).
  exists (mkCursor pairs 0 false (cmp t)), pairs. unfold Cursor_, All. rewrite E.
  split_and!; try done. intros fuel Hf. split; [by apply walk_all|by apply walk_all_back].
Qed.

Lemma Cursor_walks_witness :
  tree_ok (after sample_ops)
  ∧ ∃ c pairs, Cursor_ (after sample_ops) = Some c ∧ Valid c = false
    ∧ All (after sample_ops) = Some (Ascending pairs)
    ∧ ∀ fuel, length pairs < fuel →
        (∃ c', walk Next fuel c = Some (pairs, c') ∧ Valid c' = false)
        ∧ ∃ c', walk Prev fuel c = Some (reverse pairs, c') ∧ Valid c' = false.
Proof. split; [apply after_ok|apply Cursor_walks, after_ok]. Defined.

(** [Seek k] from any state of a cursor goes to the first entry whose key is
    not below [k] and returns true, or invalidates the cursor and returns false
    when there is none. *)
Lemma Seek_correct {K V} (c : Cursor K V) k :
  Comparator (c_cmp c) → ksorted (c_cmp c) fst (pairs c) →
  ∃ c' ok, Seek c k = Some (c', ok) ∧ pairs c' = pairs c ∧ Valid c' = ok
    ∧ if ok : bool
      then ∃ i k' v, pairs c !! i = Some (k', v) ∧ c_Key c' = Some k' ∧ c_Value c' = Some v
             ∧ (0 ≤ c_cmp c k' k)%Z
             ∧ ∀ j p, j < i → pairs c !! j = Some p → (c_cmp c p.1 k < 0)%Z
      else ∀ p, p ∈ pairs c → (c_cmp c p.1 k < 0)%Z.
Proof. intros HC Hs. by apply Seek_first. Qed.

Definition sample_cursor : Cursor Z Z := mkCursor leaf_pairs 0 false int_compare.
Lemma Seek_correct_witness :
  ksorted int_compare fst leaf_pairs
  ∧ ∃ c' ok, Seek sample_cursor 6%Z = Some (c', ok) ∧ pairs c' = leaf_pairs ∧ Valid c' = ok
    ∧ if ok : bool
      then ∃ i k' v, leaf_pairs !! i = Some (k', v) ∧ c_Key c' = Some k' ∧ c_Value c' = Some v
             ∧ (0 ≤ int_compare k' 6)%Z
             ∧ ∀ j p, j < i → leaf_pairs !! j = Some p → (int_compare p.1 6 < 0)%Z
      else ∀ p, p ∈ leaf_pairs → (int_compare p.1 6 < 0)%Z.
Proof.
  split; [exact leaf_pairs_sorted|].
  exact (Seek_correct sample_cursor 6%Z int_compare_Comparator leaf_pairs_sorted).
Defined.

(** C28: a cursor on a tree starts invalid; [Next] until it returns false visits the
    pairs [All] yields, in order, [Prev] until it returns false visits them in
    reverse, and either leaves the cursor invalid; [Seek k], from any position,
    goes to the first entry whose key is not below [k] and returns true, or
    invalidates the cursor and returns false when there is none. *)
Theorem Cursor_correct {K V} `{Zero V} (t : BETree K V) :
  tree_ok t → ∃ c, Cursor_ t = Some c ∧ Valid c = false ∧ All t = Some (Ascending (pairs c))
    ∧ (∀ fuel, length (pairs c) < fuel →
        (∃ c', walk Next fuel c = Some (pairs c, c') ∧ Valid c' = false)
        ∧ ∃ c', walk Prev fuel c = Some (reverse (pairs c), c') ∧ Valid c' = false)
    ∧ ∀ p v k, ∃ c' ok, Seek (mkCursor (pairs c) p v (c_cmp c)) k = Some (c', ok)
        ∧ pairs c' = pairs c ∧ Valid c' = ok
        ∧ if ok : bool
          then ∃ i k' v, pairs c !! i = Some (k', v) ∧ c_Key c' = Some k' ∧ c_Value c' = Some v
                 ∧ (0 ≤ cmp t k' k)%Z
                 ∧ ∀ j p, j < i → pairs c !! j = Some p → (cmp t p.1 k < 0)%Z
          else ∀ p, p ∈ pairs c → (cmp t p.1 k < 0)%Z.
Proof.
  intros Hok. destruct (ok_wf t Hok) as [h Hwf]. pose proof (ok_cmp t Hok).
  destruct (materializeAll_spec t h (ok_cmp t Hok) Hwf) as (ps & E & [S1 _ _]).
  exists (mkCursor ps 0 false (cmp t)). unfold Cursor_, All. rewrite E. cbn [pairs c_cmp mbind option_bind].
  split_and!; try done.
  - intros fuel Hf. split; [by apply walk_all|by apply walk_all_back].
  - intros p v k. by apply (Seek_correct (mkCursor ps p v (cmp t)) k).
Qed.

Lemma Cursor_correct_witness :
  tree_ok (after sample_ops)
  ∧ ∃ c, Cursor_ (after sample_ops) = Some c ∧ Valid c = false
    ∧ ∀ fuel, length (pairs c) < fuel → ∃ c', walk Next fuel c = Some (pairs c, c') ∧ Valid c' = false.
Proof.
  split; [apply after_ok|].
  destruct (Cursor_correct (after sample_ops) (after_ok _)) as (c & E & Hv & _ & Hw & _).
  exists c. exact (conj E (conj Hv (λ fuel Hf, proj1 (Hw fuel Hf)))).
Defined.

(** ** Construction *)

(** C29: [NewWithCompare] rejects a nil comparator first, then a float64 epsilon that
    is not in (0, 1] (a NaN passes), then a block size below two; it panics on a block size
    above the capacity [make] takes, and otherwise returns an empty open tree whose
    fanout is at least two, whose buffers hold at least one message and whose
    leaves hold the block size. *)
Theorem NewWithCompare_cases {K V} {mm : Memory K V} Pow oor (compare : K → K → Z) (opts : list Option_) :
  let o := resolveOptions opts in
  let r := NewWithCompare (V := V) Pow oor (Some compare) opts in
  is_float64 (o_epsilon o) →
  NewWithCompare (V := V) Pow oor (@None (K → K → Z)) opts = Some (inl ErrNilCompare)
  ∧ if decide (epsilon_accepted (o_epsilon o)) then
      if decide (o_blockSize o < 2)%Z then r = Some (inl ErrInvalidBlockSize)
      else if decide (max_cap K V < o_blockSize o)%Z then r = None
      else ∃ t, r = Some (inr t) ∧ root t = emptyLeaf ∧ cmp t = compare ∧ Len t = 0%Z
             ∧ closed t = false ∧ (2 ≤ fanout (params t))%Z ∧ (1 ≤ bufferCap (params t))%Z
             ∧ leafCap (params t) = o_blockSize o ∧ epsilon (params t) = o_epsilon o
    else r = Some (inl ErrInvalidEpsilon).
Proof.
  cbn zeta. intros Hf. split; [done|]. unfold NewWithCompare.
  pose proof (deriveParams_ok Pow oor (resolveOptions opts)) as Hp.
  rewrite (validateOptions_cases _ Hf) in *. case_decide; [|done]. case_decide; [done|].
  destruct (Hp eq_refl) as (? & ? & ?). unfold newLeaf. cbn zeta.
  change (leafCap (deriveParams Pow oor ?o)) with (o_blockSize o).
  case_decide; case_decide; try lia; [done|]. eexists. split; [done|]. by split_and!.
Qed.

(** A machine whose slices have at most 4096 elements. *)
Definition small_memory : Memory Z Z := {| max_cap := 4096; max_cap_default := Z.le_refl 4096 |}.
Lemma NewWithCompare_cases_witness :
  is_float64 half
  ∧ (∃ t, sample_New [WithBlockSize 4] = Some (inr t) ∧ leafCap (params t) = 4%Z)
  ∧ NewWithCompare (V := Z) (H := small_memory) pow_model (λ _, 0%Z) (Some int_compare) [WithBlockSize 5000] = None.
Proof.
  assert (is_float64 half) as Hf by (vm_compute; reflexivity). split; [exact Hf|]. split.
  - destruct (NewWithCompare_cases (V := Z) pow_model (λ _, 0%Z) int_compare [WithBlockSize 4] Hf) as [_ Hr].
    rewrite decide_True, !decide_False in Hr by (vm_compute; (discriminate || congruence)).
    destruct Hr as (t & E & _ & _ & _ & _ & _ & _ & Hl & _). exists t. exact (conj E Hl).
  - destruct (NewWithCompare_cases (mm := small_memory) pow_model (λ _, 0%Z) int_compare [WithBlockSize 5000] Hf)
      as [_ Hr].
    rewrite decide_True, decide_False, decide_True in Hr by (vm_compute; (discriminate || reflexivity)).
    exact Hr.
Defined.




(** [Upsert] with [CompareAndSwap]: a key that has the expected value gets
    the new one and a key with another value keeps it, but an absent key is
    created with the zero value. *)
Lemma CompareAndSwap_correct {K V} `{Zero K, Zero V} (t : BETree K V) k (eqb : V → V → bool) expected newVal :
  tree_ok t → ∃ t', Upsert t k (Some (CompareAndSwap eqb expected newVal)) = Some t' ∧ tree_ok t'
    ∧ lookup t' k = Some (match lookup t k with
                          | Some v => if eqb v expected then newVal else v
                          | None => zero
                          end).
Proof.
  intros Hok. destruct (Upsert_step t k (CompareAndSwap eqb expected newVal) Hok) as (t' & E & [Hok' _ L _]).
  exists t'. split_and!; try done. pose proof (ok_cmp t Hok). rewrite L.
  rewrite decide_True by apply compare_refl. by destruct (lookup t k).
Qed.

Lemma CompareAndSwap_correct_witness :
  tree_ok (after sample_ops) ∧ lookup (after sample_ops) 3%Z = None
  ∧ ∃ t', Upsert (after sample_ops) 3%Z (Some (CompareAndSwap Z.eqb 30 31)%Z) = Some t' ∧ tree_ok t'
    ∧ lookup t' 3%Z = Some (match lookup (after sample_ops) 3%Z with
                            | Some v => if Z.eqb v 30 then 31%Z else v
                            | None => 0%Z
                            end).
Proof.
  split; [apply after_ok|split; [vm_compute; reflexivity|]].
  exact (CompareAndSwap_correct (after sample_ops) 3%Z Z.eqb 30%Z 31%Z (after_ok _)).
Defined.

(** ** The disk-backed tree *)

(** C31: [Close] of a disk tree: when [Sync] fails the flusher is not closed,
    when either call fails its error is returned and the tree stays as it was,
    and when both succeed the tree is closed.  The flusher sees [Sync] before
    [Close], each at most once. *)
Theorem DiskClose_correct {S E K V} (d : DiskBETree S E K V) :
  let '(s1, r1) := Sync (flusher d) (fstate d) in
  let '(s2, r2) := FlusherClose (flusher d) s1 in
  let '(d', r) := DiskClose d in
  match r1, r2 with
  | Some e, _ => r = Some (FlusherSync e) ∧ tree d' = tree d ∧ fstate d' = s1
  | None, Some e => r = Some (FlusherCloseErr e) ∧ tree d' = tree d ∧ fstate d' = s2
  | None, None => r = None ∧ closed (tree d') = true ∧ root (tree d') = root (tree d) ∧ fstate d' = s2
  end.
Proof.
  unfold DiskClose. destruct (Sync (flusher d) (fstate d)) as [s1 [e|]].
  - by destruct (FlusherClose (flusher d) s1).
  - cbn [flusher fstate set_fstate]. by destruct (FlusherClose (flusher d) s1) as [s2 [e|]].
Qed.

(** C32: a disk tree built by [NewDiskWithCompare] with any flusher answers every
    history of calls of its methods like a sorted map, but for [Len], and [Len] too
    where every [Put] is of an absent key and every [Upsert] of a present one.
    [Close], wherever in the history, is the only call that fails, with the error
    of the flusher's [Sync] or else of its [Close]; the flusher's state is that of
    the [Close]s alone, as no other call touches it; flusher and codecs stay those
    of the construction. *)
Theorem disk_history_refines {S E K V} `{Zero K, Zero V} {mm : Memory K V} Pow oor gobK gobV
    (compare : K → K → Z) (f : Flusher S E) s opts d (os : list (op K V)) :
  Comparator compare → NewDiskWithCompare Pow oor gobK gobV (Some compare) f s opts = Some (inr d) →
  let '((_, s'), rs') := disk_spec_all compare f ([], s) os in
  ∃ d' rs, disk_exec_all d os = Some (d', rs) ∧ tree_ok (tree d') ∧ fstate d' = s' ∧ flusher d' = f
    ∧ d_keyCodec d' = keyCodec (resolveDiskOptions gobK gobV opts)
    ∧ d_valCodec d' = valCodec (resolveDiskOptions gobK gobV opts)
    ∧ Forall2 (disk_same (same_result compare)) rs rs'
    ∧ (exact_ops compare [] os → Forall2 (disk_same (same_counted compare)) rs rs').
Proof.
  intros HC. unfold NewDiskWithCompare. cbv zeta. set (o := resolveDiskOptions gobK gobV opts).
  destruct (NewWithCompare Pow oor (Some compare) (treeOpts o)) as [[err|t]|] eqn:En; [done| |done].
  intros [= <-]. destruct (NewWithCompare_refines Pow oor compare _ t HC En) as (HR & C & _).
  pose proof (disk_exec_all_steps (mkDisk t f s (keyCodec o) (valCodec o)) [] os HR) as Hall.
  cbn [tree flusher fstate] in Hall. cbv zeta in Hall. rewrite C in Hall.
  destruct (disk_spec_all compare f ([], s) os) as [[l' s'] rs'].
  destruct Hall as (d' & rs & Ed & HR' & Hs & (F1 & F2 & F3 & _) & Hrs & Hex).
  exists d', rs. split_and!; try done; [apply HR'|].
  intros Hos. apply Hex; [|done]. by eapply NewWithCompare_size.
Qed.

Definition no_codec {E T} (e : E) : Codec E T := mkCodec (λ _, Some (inl e)) (λ _, Some (inl e)).
(** A flusher whose state counts the calls it got; the second [Sync] fails. *)
Definition failing_flusher : Flusher (list nat) nat :=
  mkFlusher (λ _ _ s, (s ++ [0], None)) (λ _ s, (s ++ [1], inl 0))
    (λ s, (s ++ [2], if decide (2 ∈ s) then Some 7 else None)) (λ s, (s ++ [3], None)).
Definition sample_disk : DiskBETree (list nat) nat Z Z := mkDisk sample failing_flusher [] (no_codec 0) (no_codec 0).
Definition disk_ops : list (op Z Z) := sample_ops ++ [OpClose; OpAll; OpClose; OpPut 6 60; OpCursor]%Z.

Lemma sample_disk_New :
  NewDiskWithCompare pow_model (λ _, 0%Z) (no_codec 0) (no_codec 0) (Some int_compare) failing_flusher []
    [WithDiskBlockSize 4] = Some (inr sample_disk).
Proof. vm_compute. reflexivity. Qed.

Lemma disk_history_refines_witness :
  ∃ d' rs, disk_exec_all sample_disk disk_ops = Some (d', rs) ∧ fstate d' = [2; 3; 2] ∧ tree_ok (tree d')
    ∧ Forall2 (disk_same (same_result int_compare)) rs (disk_spec_all int_compare failing_flusher ([], []) disk_ops).2.
Proof.
  pose proof (disk_history_refines pow_model (λ _, 0%Z) _ _ int_compare _ _ _ _ disk_ops
                int_compare_Comparator sample_disk_New) as Hd.
  assert ((disk_spec_all int_compare failing_flusher ([], []) disk_ops).1.2 = [2; 3; 2]) as Es
    by (vm_compute; reflexivity).
  destruct (disk_spec_all int_compare failing_flusher ([], []) disk_ops) as [[l' s'] rs'].
  destruct Hd as (d' & rs & Ed & Hok & Hs & _ & _ & _ & Hrs & _). cbn [fst snd] in *.
  exists d', rs. exact (conj Ed (conj (eq_trans Hs Es) (conj Hok Hrs))).
Defined.

(** ** The examples *)

(** The varint string codec: [Decode] panics on no bytes, [Encode] panics on
    no string, and decoding an encoded string, even with garbage after it, gives
    the string back. *)
Lemma varint_roundtrip :
  (∀ data, Forall (λ b, 0 ≤ b < 256)%Z data → ∃ r, VarintStringCodec.Decode data = Some r)
  ∧ ∀ b garbage, (Z.of_nat (length b) < 2^63)%Z →
    ∃ data, VarintStringCodec.Encode b = Some data
      ∧ VarintStringCodec.Decode (data ++ garbage) = Some (inr b).
Proof.
  split; [by apply Decode_total|]. intros b garbage Hb. eexists. split; [by apply Encode_spec|].
  by apply Decode_Encode.
Qed.

Lemma varint_roundtrip_witness :
  ∃ data, VarintStringCodec.Encode (replicate 300 97%Z) = Some data
    ∧ VarintStringCodec.Decode (data ++ [7%Z]) = Some (inr (replicate 300 97%Z)).
Proof. apply (proj2 varint_roundtrip (replicate 300 97%Z) [7%Z]). vm_compute. reflexivity. Defined.

(** C33: the two merge joins terminate within the lengths of the two snapshots;
    [mergeJoin] prints the signups whose key has a purchase, each once and in key
    order, and counts them; [antiJoin] prints the others. *)
Theorem joins_correct {V W} `{Zero V, Zero W} (signups : BETree Z V) (purchases : BETree Z W) :
  tree_ok signups → tree_ok purchases → cmp signups = int_compare → cmp purchases = int_compare →
  ∃ la lb, All signups = Some (Ascending la) ∧ All purchases = Some (Ascending lb)
    ∧ ∀ fuel, length la + length lb ≤ fuel →
      let both := filter (λ p, is_Some (lookup purchases p.1)) la in
      mergeJoin fuel signups purchases = Some (both, len both)
      ∧ antiJoin fuel signups purchases = Some (filter (λ p, lookup purchases p.1 = None) la).
Proof.
  intros Ha Hb Ca Cb.
  destruct (Cursor_faces signups Ha Ca) as (ca & la & Ea & Aa & Sa & _ & Fa).
  destruct (Cursor_faces purchases Hb Cb) as (cb & lb & Eb & Ab & Sb & Lb & Fb).
  exists la, lb. split; [done|]. split; [done|]. intros fuel Hf. cbv zeta.
  unfold mergeJoin, antiJoin. rewrite Ea, Eb. cbn [mbind option_bind].
  destruct (Next ca) as [ca' aOk], (Next cb) as [cb' bOk]. cbn [fst snd] in *.
  rewrite (join_loop_spec fuel ca' aOk cb' bOk 0 la lb), (anti_loop_spec fuel ca' aOk cb' bOk la lb) by done.
  assert (common la lb = filter (λ p, is_Some (lookup purchases p.1)) la) as <-
    by (apply filter_iff; intros p _; by rewrite Lb).
  split; [done|]. f_equal. apply filter_iff. intros p _. by rewrite Lb.
Qed.

Definition purchases_ops : list (op Z Z) :=
  [OpPut 2 7; OpPut 5 7; OpPut 12 7; OpPut 13 7; OpPut 40 7; OpPut 41 7]%Z.
Lemma joins_correct_witness :
  tree_ok (after sample_ops) ∧ tree_ok (after purchases_ops)
  ∧ ∃ la lb, All (after sample_ops) = Some (Ascending la) ∧ All (after purchases_ops) = Some (Ascending lb)
    ∧ ∀ fuel, length la + length lb ≤ fuel →
      let both := filter (λ p, is_Some (lookup (after purchases_ops) p.1)) la in
      mergeJoin fuel (after sample_ops) (after purchases_ops) = Some (both, len both)
      ∧ antiJoin fuel (after sample_ops) (after purchases_ops)
        = Some (filter (λ p, lookup (after purchases_ops) p.1 = None) la).
Proof.
  split; [apply after_ok|split; [apply after_ok|]].
  exact (joins_correct (after sample_ops) (after purchases_ops) (after_ok _) (after_ok _)
           (after_cmp _) (after_cmp _)).
Defined.

(** ** Where the comments and the code disagree *)

(** The test of [validateOptions] lets a NaN epsilon through (options.go). *)
Lemma epsilon_NaN {K V} `{Memory K V} Pow oor (compare : K → K → Z) :
  ∃ t : BETree K V, NewWithCompare Pow oor (Some compare) [WithEpsilon S754_nan] = Some (inr t)
    ∧ epsilon (params t) = S754_nan.
Proof.
  eexists. split.
  - apply (NewWithCompare_valid Pow oor compare [WithEpsilon S754_nan]); [done|apply max_cap_default].
  - done.
Qed.

(** A closed tree goes on answering (errors.go). *)
Lemma closed_answers :
  snd <$> exec_all sample [OpPut 1%Z 10%Z; OpClose; OpPut 2%Z 20%Z; OpAll]
  = Some [RUnit; RUnit; RUnit; RPairs [(1, 10); (2, 20)]%Z].
Proof. vm_compute. reflexivity. Qed.

(** A buffer can stay above its capacity after the flush (options.go). *)
Lemma above_capacity :
  let t := after (puts 20 ++ [OpDeleteRange 0 100]%Z) in
  bufferCap (params t) = 2%Z ∧ len (buffer (root t)) = 9%Z.
Proof. split; vm_compute; reflexivity. Qed.
