(* ===== verification/Performance.v ===== *)
(** * What the library costs

    The properties of the shape of a tree and of the work its methods do, each a
    theorem over a history of calls on a new tree, with an instance on a tree with
    blocks of sixteen entries ([sample16]: fanout and buffer capacity four). *)

From Stdlib Require Import SpecFloat.
From S2P Require Import Prelude Order Slices Message Node LeafMerge Flush Iterator Tree Cursor Spec Options Cascade Cost Shape Count Correctness.

Definition sample16 : BETree Z Z :=
  mkBETree emptyLeaf int_compare (mkParams half 16 4 4 16) 0 0 false.

Lemma sample16_New_ok : sample_New [WithBlockSize 16] = Some (inr sample16).
Proof. vm_compute. reflexivity. Qed.

Definition range_ops : list (op Z Z) := puts 60 ++ [OpDeleteRange 10%Z 30%Z; OpPut 11%Z 0%Z].

(** ** Shape *)

Section shape.
Context {K V : Type} `{Zero K, Zero V}.
Implicit Types (t : BETree K V) (os : list (op K V)).

(** What every constructed tree starts from. *)
Lemma new_tree `{Memory K V} Pow oor (compare : K → K → Z) opts t :
  Comparator compare → NewWithCompare Pow oor (Some compare) opts = Some (inr t) →
  refines t [] ∧ params_ok (params t) ∧ root t = emptyLeaf.
Proof.
  intros HC E. destruct (NewWithCompare_refines Pow oor compare opts t HC E) as (HR & _).
  split_and!; [done|apply HR|]. by apply NewWithCompare_inv in E as [_ ->].
Qed.

Lemma half_leaf_pos p : params_ok p → (1 ≤ half_leaf p)%Z.
Proof. intros (_ & _ & HL). apply Z.div_le_lower_bound; lia. Qed.

Lemma new_grown t : params_ok (params t) → root t = emptyLeaf → grown (params t) 0 t.
Proof.
  intros Hp%half_leaf_pos Er. split; [done|by rewrite Er..|]. rewrite Er. cbn. lia.
Qed.

Lemma new_roomy t W : params_ok (params t) → (0 ≤ W)%Z → root t = emptyLeaf → roomy (params t) W t.
Proof. intros (_ & _ & HL) HW Er. split; [done|]. rewrite Er. cbn. lia. Qed.

Lemma new_drained t : params_ok (params t) → root t = emptyLeaf → drained (params t) t.
Proof. intros (_ & HB & _) Er. split; [done|]. rewrite Er. cbn. lia. Qed.

Lemma upper_bound {A} (f : A → Z) (l : list A) : ∃ W, Forall (λ a, (f a ≤ W)%Z) l.
Proof.
  induction l as [|a l [W IH]]; [by exists 0%Z|]. exists (Z.max (f a) W). constructor; [lia|].
  eapply Forall_impl; [exact IH|]. simpl. lia.
Qed.

(** After any history the tree has the shape of one into which as many entries
    were written. *)
Lemma history_grown t os t' rs :
  refines t [] → params_ok (params t) → root t = emptyLeaf → exec_all t os = Some (t', rs) →
  grown (params t) (history_writes os) t'.
Proof.
  intros HR Hp Er E. destruct (upper_bound (λ p, call_msgs p.1 p.2) (zip os rs)) as [W HW].
  refine (proj2 (history_invariant (λ s t0, (0 ≤ s)%Z ∧ grown (params t) s t0) W _ _ _
    os t [] t' rs 0%Z HR (conj (Z.le_refl 0) (new_grown t Hp Er)) E HW)).
  - intros s t0 m w tr t1 _ [Hs Hg] Hc _ Hw. split; [lia|]. eapply calls_grown; [done|lia|done].
  - intros s t0 _ [Hs [Hp0 _ _ _]]. split; [done|]. split; try done.
    pose proof (half_leaf_pos _ Hp). cbn. lia.
  - intros s s' t0 Hss [Hs [H1 H2 H3 H4]]. split; [lia|]. split; try done. lia.
Qed.

Lemma history_roomy t os t' rs W :
  refines t [] → params_ok (params t) → root t = emptyLeaf → exec_all t os = Some (t', rs) →
  (bufferCap (params t) ≤ W)%Z → Forall (λ p, (call_msgs p.1 p.2 ≤ W)%Z) (zip os rs) →
  roomy (params t) W t'.
Proof.
  intros HR Hp Er E HB HW. pose proof Hp as (_ & HB1 & HL).
  refine (history_invariant (λ _ t0, roomy (params t) W t0) W _ _ _
    os t [] t' rs 0%Z HR (new_roomy t W Hp ltac:(lia) Er) E HW).
  - intros s t0 m w tr t1 _ Hr Hc Hm Hw. apply (calls_roomy t0 m w tr t1); (done || lia).
  - intros s t0 _ [Hp0 _]. split; [done|]. cbn. lia.
  - done.
Qed.

Lemma history_drained t os t' rs :
  refines t [] → params_ok (params t) → root t = emptyLeaf → exec_all t os = Some (t', rs) →
  Forall (λ p, (call_msgs p.1 p.2 ≤ 1)%Z) (zip os rs) → drained (params t) t'.
Proof.
  intros HR Hp Er E HW. pose proof Hp as (_ & HB1 & HL).
  refine (history_invariant (λ _ t0, drained (params t) t0) 1 _ _ _
    os t [] t' rs 0%Z HR (new_drained t Hp Er) E HW).
  - intros s t0 m w tr t1 _ Hr Hc Hm Hw. apply (calls_drained t0 m w tr t1); (done || lia).
  - intros s t0 _ [Hp0 _]. split; [done|]. cbn. lia.
  - done.
Qed.

Lemma history_flagged t os t' rs :
  refines t [] → root t = emptyLeaf → exec_all t os = Some (t', rs) → flagged (root t').
Proof.
  intros HR Er E. destruct (upper_bound (λ p, call_msgs p.1 p.2) (zip os rs)) as [W HW].
  refine (history_invariant (λ _ t0, flagged (root t0)) W _ _ _ os t [] t' rs 0%Z HR _ E HW);
    [|done|done|by rewrite Er].
  intros s t0 m w tr t1 _ Hr Hc _ _. by eapply calls_flagged.
Qed.

(** The height of a tree of the given shape. *)
Lemma grown_height p s t :
  tree_ok t → params_ok p → (0 ≤ s)%Z → grown p s t →
  (half_leaf p * (leaves (root t) - 1) ≤ s)%Z
  ∧ (∀ h, height (root t) = S h → 2 * min_children p ^ Z.of_nat h ≤ leaves (root t))%Z
  ∧ (3 ≤ fanout p → Z.of_nat (height (root t)) ≤ Z.log2 (1 + s / half_leaf p))%Z.
Proof.
  intros [_ _ [h0 Hwf] _ _ _ _] Hpok Hs [Hpar Hsh Hroot Hw].
  pose proof (half_leaf_pos _ Hpok) as Hp. pose proof Hpok as (HF & _).
  assert (half_leaf p * (leaves (root t) - 1) ≤ s)%Z as H1.
  { pose proof (weight_leaves (half_leaf p) (root t)). lia. }
  assert (∀ m, (0 ≤ m)%Z → (m ≤ min_children p)%Z →
    ∀ h, height (root t) = S h → (2 * m ^ Z.of_nat h ≤ leaves (root t))%Z) as H2.
  { intros m Hm Hmp h Hh. pose proof (wf_node_height _ _ _ Hwf) as Hh0. rewrite Hh in Hh0. subst h0.
    destruct (shaped_leaves (cmp t) _ _ _ (min_children p) ltac:(lia) Hwf Hsh) as [(? & ? & ?)|(h' & [= <-] & Hl)];
      [done|].
    assert (leaf (root t) = false) as Hlf by (by inversion Hwf). specialize (Hroot Hlf).
    pose proof (Z.pow_le_mono_l m (min_children p) (Z.of_nat h) ltac:(lia)).
    pose proof (Z.pow_nonneg m (Z.of_nat h) Hm). nia. }
  split_and!; [done| |].
  - apply H2; [|lia]. apply Z.div_pos; lia.
  - intros HF3. assert (leaves (root t) ≤ 1 + s / half_leaf p)%Z as Hl.
    { enough (leaves (root t) - 1 ≤ s / half_leaf p)%Z by lia. apply Z.div_le_lower_bound; lia. }
    destruct (height (root t)) as [|h] eqn:Hh; [apply Z.log2_nonneg|].
    apply Z.log2_le_pow2.
    + pose proof (Z.div_pos s (half_leaf p)). lia.
    + rewrite Nat2Z.inj_succ, Z.pow_succ_r by lia. specialize (H2 2%Z ltac:(lia)).
      rewrite H2 in *; [done| |done]. apply Z.div_le_lower_bound; lia.
Qed.
End shape.

(** ** The claims *)

(** C18: the height is logarithmic in the number of entries written: after any history of
    calls on a new tree the leaves are at most one for each half of a leaf that
    was written, a tree of height [h + 1] has at least 2 * min_children^h leaves,
    and so, when the fanout is at least three, its height is at most the binary
    logarithm of one plus the writes over half a leaf. *)
Theorem height_logarithmic {K V} `{Zero K, Zero V} {mm : Memory K V} Pow oor (compare : K → K → Z) opts
    (t : BETree K V) (os : list (op K V)) :
  Comparator compare → NewWithCompare Pow oor (Some compare) opts = Some (inr t) →
  ∃ t' rs, exec_all t os = Some (t', rs)
    ∧ (half_leaf (params t) * (leaves (root t') - 1) ≤ history_writes os)%Z
    ∧ (∀ h, height (root t') = S h → 2 * min_children (params t) ^ Z.of_nat h ≤ leaves (root t'))%Z
    ∧ (3 ≤ fanout (params t) →
       Z.of_nat (height (root t')) ≤ Z.log2 (1 + history_writes os / half_leaf (params t)))%Z.
Proof.
  intros HC E. destruct (new_tree Pow oor compare opts t HC E) as (HR & Hp & Er).
  destruct (exec_all_steps t [] os HR) as (t' & rs & E' & HR' & _).
  exists t', rs. split; [done|]. apply grown_height; [apply HR'|done|apply history_writes_nonneg|].
  by eapply history_grown.
Qed.

Lemma height_logarithmic_witness :
  sample_New [WithBlockSize 16] = Some (inr sample16)
  ∧ ∃ t' rs, exec_all sample16 range_ops = Some (t', rs)
      ∧ (Z.of_nat (height (root t')) ≤ Z.log2 (1 + history_writes range_ops / half_leaf (params sample16)))%Z
      ∧ history_writes range_ops = 61%Z ∧ half_leaf (params sample16) = 8%Z.
Proof.
  split; [exact sample16_New_ok|].
  destruct (height_logarithmic pow_model (λ _, 0%Z) int_compare [WithBlockSize 16] sample16 range_ops
    int_compare_Comparator sample16_New_ok) as (t' & rs & E & _ & _ & Hh).
  exists t', rs. split; [exact E|]. split; [apply Hh; vm_compute; discriminate|].
  split; vm_compute; reflexivity.
Defined.

(** C19: buffers and leaves stay bounded, although a flush empties one bucket only and a
    leaf is split once per flush: for any [W] that is at least bufferCap, in a
    history whose calls buffer at most [W] messages each (one for a write of a key,
    one for each key a range removed), a node at depth [d] never holds more than (fanout - 1) * W * fanout^d messages,
    a leaf no more than the larger of leafCap and W * fanout^d + 1 entries; and
    while every call buffers at most one message, the root's buffer is within
    bufferCap after every call. *)
Theorem occupancy_bounded {K V} `{Zero K, Zero V} {mm : Memory K V} Pow oor (compare : K → K → Z) opts
    (t : BETree K V) (os : list (op K V)) :
  Comparator compare → NewWithCompare Pow oor (Some compare) opts = Some (inr t) →
  ∃ t' rs, exec_all t os = Some (t', rs)
    ∧ (∀ W, (bufferCap (params t) ≤ W)%Z → Forall (λ p, call_msgs p.1 p.2 ≤ W)%Z (zip os rs) →
         ∀ d x, node_at (root t') d x →
           (len (buffer x) ≤ (fanout (params t) - 1) * (W * fanout (params t) ^ Z.of_nat d))%Z
           ∧ (len (keys x) ≤ Z.max (leafCap (params t)) (W * fanout (params t) ^ Z.of_nat d + 1))%Z)
    ∧ (Forall (λ p, call_msgs p.1 p.2 ≤ 1)%Z (zip os rs) →
         (len (buffer (root t')) ≤ bufferCap (params t))%Z).
Proof.
  intros HC E. destruct (new_tree Pow oor compare opts t HC E) as (HR & Hp & Er).
  destruct (exec_all_steps t [] os HR) as (t' & rs & E' & HR' & _). pose proof Hp as (HF & HB & HL).
  exists t', rs. split; [done|]. split.
  - intros W HW Hms d x Hx. destruct (history_roomy t os t' rs W HR Hp Er E' HW Hms) as [_ Hroom].
    apply (room_at _ _ _ _ _ _ Hx) in Hroom. apply room_bounds; [lia| |lia|exact Hroom].
    pose proof (Z.pow_nonneg (fanout (params t)) (Z.of_nat d)). nia.
  - intros Hms. by destruct (history_drained t os t' rs HR Hp Er E' Hms).
Qed.

Lemma occupancy_bounded_witness :
  sample_New [WithBlockSize 16] = Some (inr sample16)
  ∧ ∃ t' rs, exec_all sample16 (puts 60) = Some (t', rs)
    ∧ (∀ d x, node_at (root t') d x → (len (buffer x) ≤ 3 * (4 * 4 ^ Z.of_nat d))%Z
         ∧ (len (keys x) ≤ Z.max 16 (4 * 4 ^ Z.of_nat d + 1))%Z)
    ∧ (len (buffer (root t')) ≤ 4)%Z.
Proof.
  split; [exact sample16_New_ok|].
  destruct (occupancy_bounded pow_model (λ _, 0%Z) int_compare [WithBlockSize 16] sample16 (puts 60)
    int_compare_Comparator sample16_New_ok) as (t' & rs & E & H1 & H2).
  assert (Forall (λ p : op Z Z * result Z Z, call_msgs p.1 p.2 ≤ 1)%Z (zip (puts 60) rs)) as Hms.
  { assert (rs = default [] (snd <$> exec_all sample16 (puts 60))) as -> by (rewrite E; reflexivity).
    apply (bool_decide_unpack _). vm_compute. exact I. }
  exists t', rs. split; [exact E|]. split; [|exact (H2 Hms)].
  apply (H1 4%Z); [vm_compute; discriminate|].
  eapply Forall_impl; [exact Hms|]. intros p Hp. cbv beta in *. lia.
Defined.

(** C17: flushing is amortised: after any history without [Clear] on a new tree the
    cascades moved at most the tree's height of messages per message buffered (one
    for a write of a key, one for each key a range removed), and the number of
    calls of [flushNode] is at most fanout / (bufferCap + 1) times that; with a
    fanout of at least three the height is logarithmic.  The traced methods are
    the methods: erasing the traces gives the same results and the same tree. *)
Theorem flush_amortised {K V} `{Zero K, Zero V} {mm : Memory K V} Pow oor (compare : K → K → Z) opts
    (t : BETree K V) (os : list (op K V)) :
  Comparator compare → NewWithCompare Pow oor (Some compare) opts = Some (inr t) →
  Forall (λ o, clears o = false) os →
  ∃ t' rs, exec_all_traced t os = Some (t', rs) ∧ exec_all t os = Some (t', rs.*1)
    ∧ (flush_moves rs ≤ Z.of_nat (height (root t')) * history_msgs os rs)%Z
    ∧ ((bufferCap (params t) + 1) * flush_calls rs
       ≤ fanout (params t) * (Z.of_nat (height (root t')) * history_msgs os rs))%Z
    ∧ (3 ≤ fanout (params t) →
       (bufferCap (params t) + 1) * flush_calls rs
       ≤ fanout (params t) * (Z.log2 (1 + history_writes os / half_leaf (params t)) * history_msgs os rs))%Z.
Proof.
  intros HC E Hos. destruct (new_tree Pow oor compare opts t HC E) as (HR & Hp & Er).
  destruct (exec_all_steps t [] os HR) as (t' & rs0 & E1 & HR' & _).
  pose proof (exec_all_traced_erase t os) as Ee. rewrite E1 in Ee.
  destruct (exec_all_traced t os) as [[t1 rs]|] eqn:E2; [|done]. injection Ee as -> <-.
  destruct (traced_total t [] os t' rs HR ltac:(by rewrite Er) Hos E2) as [H1 H2].
  destruct (traced_paid t [] os t' rs HR Hos E2) as (_ & _ & _ & H3). pose proof Hp as (HF & _).
  destruct (grown_height (params t) (history_writes os) t' (rf_ok _ _ HR') Hp (history_writes_nonneg os)
    (history_grown t os t' _ HR Hp Er E1)) as (_ & _ & H4).
  exists t', rs. split_and!; [done..|nia|]. intros HF3. specialize (H4 HF3).
  assert (Z.of_nat (height (root t')) * history_msgs os rs
    ≤ Z.log2 (1 + history_writes os / half_leaf (params t)) * history_msgs os rs)%Z
    by (apply Z.mul_le_mono_nonneg_r; done). nia.
Qed.

Lemma flush_amortised_witness :
  Forall (λ o, clears o = false) range_ops
  ∧ ∃ t' rs, exec_all_traced sample16 range_ops = Some (t', rs)
    ∧ (flush_moves rs ≤ Z.of_nat (height (root t')) * history_msgs range_ops rs)%Z
    ∧ ((4 + 1) * flush_calls rs ≤ 4 * (Z.of_nat (height (root t')) * history_msgs range_ops rs))%Z.
Proof.
  assert (Forall (λ o, clears o = false) range_ops) as Hs
    by (apply (bool_decide_unpack _); vm_compute; exact I).
  split; [exact Hs|].
  destruct (flush_amortised pow_model (λ _, 0%Z) int_compare [WithBlockSize 16] sample16 range_ops
    int_compare_Comparator sample16_New_ok Hs) as (t' & rs & E & _ & H1 & H2 & _).
  exists t', rs. exact (conj E (conj H1 H2)).
Defined.

(** C25: the searches of [putLocked]: the pending-delete counter is never negative, and
    while it is zero a key stored in its leaf is live, so the fast path is right
    about the keys it finds.  It is cheap: it calls the comparator at most a binary
    search among the pivots for each level and one in a leaf; a full read compares
    with every message of the buffers on its path as well, because no buffer of
    more than one message is ever marked sorted. *)
Theorem put_fast_path {K V} `{Zero K, Zero V} {mm : Memory K V} Pow oor (compare : K → K → Z) opts
    (t : BETree K V) (os : list (op K V)) (k : K) :
  Comparator compare → NewWithCompare Pow oor (Some compare) opts = Some (inr t) →
  ∃ t' rs, exec_all t os = Some (t', rs)
    ∧ (0 ≤ pendingDeletes t')%Z
    ∧ (pendingDeletes t' = 0%Z → existsInLeaf (cmp t') (root t') k = Some true → is_Some (lookup t' k))
    ∧ flagged (root t')
    ∧ ∀ B C, sized B C (root t') →
        (∃ b i, existsInLeaf_n (cmp t') (root t') k = Some (b, i)
          ∧ existsInLeaf (cmp t') (root t') k = Some b
          ∧ (i ≤ Z.of_nat (height (root t')) * bits (fanout (params t') - 1) + bits C)%Z)
        ∧ ∃ r i, getFromNode_n t' (root t') k = Some (r, i) ∧ Get t' k = Some r
          ∧ (i ≤ Z.of_nat (height (root t')) * (B + 1 + bits (fanout (params t') - 1)) + bits C)%Z.
Proof.
  intros HC E. destruct (new_tree Pow oor compare opts t HC E) as (HR & Hp & Er).
  destruct (exec_all_steps t [] os HR) as (t' & rs & E' & [Hok _ _] & _).
  pose proof (history_flagged t os t' rs HR Er E') as Hfl.
  destruct (fast_path_sound t' k Hok) as [H1 H2]. exists t', rs. split_and!; [done..|].
  intros B C Hsz. pose proof Hok as [HC' _ [h Hwf] Hf _ _ _].
  destruct (Hsz 0 _ (at_root _)) as [HB _]. split.
  - pose proof (existsInLeaf_uncount (cmp t') (root t') k) as Eu.
    rewrite (existsInLeaf_spec (λ _, True) h) in Eu |- * by done.
    destruct (existsInLeaf_n _ _ k) as [[b i]|] eqn:En; [|done]. injection Eu as ->.
    eexists _, i. split_and!; [done..|].
    by apply (existsInLeaf_within _ _ _ _ _ _ _ k Hwf Hf Hsz) in En as [_ Hi].
  - pose proof (getWithUpserts_uncount (cmp t') (root t') k []) as Eu.
    change (getWithUpserts _ _ _ _) with (Get t' k) in Eu. unfold Get in Eu |- *.
    rewrite getFromNode_root in Eu |- * by done. unfold getFromNode_n.
    destruct (getWithUpserts_n _ _ k []) as [[r i]|] eqn:En; [|done]. injection Eu as ->.
    exists (comma_ok (lookup t' k)), i. split_and!; [done..|].
    apply (getWithUpserts_within _ (fanout (params t')) B C _ _ _ k [] Hwf Hf Hsz Hfl) in En; [|lia].
    apply En.
Qed.

Lemma put_fast_path_witness :
  sample_New [WithBlockSize 16] = Some (inr sample16)
  ∧ ∃ t' rs, exec_all sample16 (puts 60) = Some (t', rs)
    ∧ existsInLeaf (cmp t') (root t') 7%Z = Some true ∧ is_Some (lookup t' 7%Z).
Proof.
  split; [exact sample16_New_ok|].
  destruct (put_fast_path pow_model (λ _, 0%Z) int_compare [WithBlockSize 16] sample16 (puts 60) 7%Z
    int_compare_Comparator sample16_New_ok) as (t' & rs & E & _ & H & _).
  assert (t' = default sample16 (fst <$> exec_all sample16 (puts 60))) as Et by (rewrite E; reflexivity).
  assert (pendingDeletes t' = 0%Z) as E1 by (rewrite Et; vm_compute; reflexivity).
  assert (existsInLeaf (cmp t') (root t') 7%Z = Some true) as E2 by (rewrite Et; vm_compute; reflexivity).
  exists t', rs. exact (conj E (conj E2 (H E1 E2))).
Defined.
