(* ===== verification/ExampleTheorems.v ===== *)
(** * What the examples print

    The output of each program of [Examples], and the general facts behind the
    demonstrations: that a range over two prefixes is a prefix scan, that
    [Increment] counts, that loading distinct keys in any order, or from
    interleaved goroutines, makes [Len] exact. *)

From Stdlib Require Import Ascii String SpecFloat.
From stdpp Require Import strings gmap.
From S2P Require Import Prelude Order Keys Slices Message Node LeafMerge Flush Iterator Tree Cursor Spec Options Program Size Batch Disk Codec Binary Gob Join Concurrent Examples Run Correctness.

(** ** The programs whose output is fixed *)

Definition quoted (s : string) : string := String "034" s +:+ String "034" EmptyString.
Definition unlines : list string → string := foldr (λ l r, l +:+ newline +:+ r) EmptyString.
(** Lines, and then pieces of lines. *)
Definition pieces (text : list string) (more : list (list string)) : string :=
  foldl (λ out ps, out +:+ foldr String.append EmptyString ps) (unlines text) more.
Definition prints (m : io unit) (text : list string) : Prop := m EmptyString = (Done tt, unlines text).

Definition basic_text : list string :=
  ["Len after 3 puts: 3";
   "Get(bob) = 200, ok=true";
   "Contains(alice): true";
   "Contains(dave): false";
   "alice after overwrite: 999";
   "Deleted bob: true";
   "Len after delete: 2";
   "Len after clear: 0"].

Definition range_text : list string :=
  ["Range [20, 60):";
   "  20 -> val20";
   "  30 -> val30";
   "  40 -> val40";
   "  50 -> val50";
   EmptyString;
   "Descend (all):";
   "  90 -> val90";
   "  80 -> val80";
   "  70 -> val70";
   "  60 -> val60";
   "  50 -> val50";
   "  40 -> val40";
   "  30 -> val30";
   "  20 -> val20";
   "  10 -> val10";
   "  0 -> val0";
   EmptyString;
   "Cursor: seek(45), then Next:";
   "  50 -> val50";
   "  60 -> val60";
   "  70 -> val70";
   "  80 -> val80";
   "  90 -> val90"].

Definition upsert_text : list string :=
  ["Word counts:";
   "  fractal: 1";
   "  go: 3";
   "  tree: 2";
   EmptyString;
   "PutIfAbsent(go, 999) inserted: false";
   "go count unchanged: 3";
   "PutIfAbsent(new, 1) inserted: true";
   EmptyString;
   "CAS pending->active: status=active";
   "CAS pending->closed (mismatch): status=active"].

Definition comparator_text : list string :=
  ["All entries in order:";
   "  {acme, 1} -> gadget";
   "  {acme, 2} -> doohickey";
   "  {acme, 3} -> widget";
   "  {beta, 2} -> thing";
   EmptyString;
   "Get({beta, 2}) = " +:+ quoted "thing" +:+ ", ok=true"].

Definition eviction_text : list string :=
  ["=== Cache (oldest first) ===";
   "  t=1  user:1   -> data-for-user:1";
   "  t=2  user:2   -> data-for-user:2";
   "  t=3  user:3   -> data-for-user:3";
   "  t=4  user:4   -> data-for-user:4";
   "  t=5  user:5   -> data-for-user:5";
   EmptyString;
   "--- New entry: user:6 at t=6, cache full ---";
   "  Evicting: t=1 user:1";
   "  Re-accessing: user:2 at t=7";
   EmptyString;
   "=== Cache after eviction + re-access ===";
   "  t=3  user:3   -> data-for-user:3";
   "  t=4  user:4   -> data-for-user:4";
   "  t=5  user:5   -> data-for-user:5";
   "  t=6  user:6   -> data-for-user:6";
   "  t=7  user:2   -> data-for-user:2"].

Definition leaderboard_text : list string :=
  ["=== Top 5 Leaderboard ===";
   "  #1  eve        3100 pts";
   "  #2  bob        2300 pts";
   "  #3  dave       2300 pts";
   "  #4  grace      2100 pts";
   "  #5  charlie    1800 pts";
   EmptyString;
   "=== After frank's big game ===";
   "  #1  frank      5000 pts";
   "  #2  eve        3100 pts";
   "  #3  bob        2300 pts"].

Definition prefixscan_text : list string :=
  ["Total keys: 12";
   EmptyString;
   "=== config:* ===";
   "  config:cache.size         = 1024";
   "  config:cache.ttl          = 300";
   "  config:db.host            = localhost";
   "  config:db.name            = myapp";
   "  config:db.port            = 5432";
   EmptyString;
   "=== user:1:* ===";
   "  user:1:email              = alice@example.com";
   "  user:1:name               = alice";
   EmptyString;
   "=== user:* ===";
   "  user:10:name              = jack";
   "  user:1:email              = alice@example.com";
   "  user:1:name               = alice";
   "  user:2:email              = bob@example.com";
   "  user:2:name               = bob";
   EmptyString;
   "=== session:* ===";
   "  session:abc123            = user:1";
   "  session:def456            = user:2";
   EmptyString;
   "=== Key counts by prefix ===";
   "  config:*     5 keys";
   "  user:*       5 keys";
   "  session:*    2 keys"].

Definition ratelimiter_text : list string :=
  ["=== Rate check ===";
   "  client=alice  second=100  count=3  OK";
   "  client=alice  second=101  count=6  RATE LIMITED";
   "  client=alice  second=102  count=2  OK";
   "  client=bob    second=100  count=4  OK";
   EmptyString;
   "=== Expired 1 old alice buckets ===";
   EmptyString;
   "=== After expiry ===";
   "  client=alice  second=101  count=6";
   "  client=alice  second=102  count=2";
   "  client=bob    second=100  count=4"].

Definition timeseries_text : list string :=
  ["Total events: 11";
   EmptyString;
   "=== Events from 03:00 to 09:00 ===";
   "  [03:00] batch job started";
   "  [04:00] batch job completed";
   "  [06:00] traffic spike detected";
   "  [08:00] deploy v2.1.0";
   EmptyString;
   "=== Last 3 events ===";
   "  [22:00] daily backup completed";
   "  [20:00] daily backup started";
   "  [16:00] deploy v2.1.1 (hotfix)";
   EmptyString;
   "=== Expired 6 events before 10:00 ===";
   "Remaining: 5 events"].

Definition mergejoin_text : list string :=
  ["=== Users who signed up AND purchased ===";
   "  user 103: charlie";
   "  user 105: eve";
   "  user 109: iris";
   EmptyString;
   "Total matches: 3 (out of 6 signups, 6 purchasers)";
   EmptyString;
   "=== Signed up but did NOT purchase ===";
   "  user 101: alice";
   "  user 107: grace";
   "  user 111: kate"].

Definition disktree_binary_text : list string :=
  ["All entries:"; "  1 -> 3.14"; "  2 -> 2.72"; "  3 -> 1.41"; EmptyString;
   "Encoded int32 key:    4 bytes"; "Encoded float64 val:  8 bytes"].
Definition disktree_gob_text : string :=
  pieces ["All entries:"; "  alice -> 100"; "  bob -> 200"; "  charlie -> 300"; EmptyString;
          "Get(bob) = 200, ok=true"; "Len: 3"; EmptyString]
    [["GobCodec("; quoted "alice"; "): 9 bytes"; newline]].
Definition disktree_varint_text : string :=
  pieces ["All entries:"; "  foo -> bar"; "  fractaltree -> fast"; "  hello -> world"; EmptyString; "Encoded sizes:"]
    [["  "; quoted "go"; ": varint=3 bytes, gob=6 bytes"; newline];
     ["  "; quoted "fractaltree"; ": varint=12 bytes, gob=15 bytes"; newline];
     ["  "; quoted "hello world"; ": varint=12 bytes, gob=15 bytes"; newline]].

Section outputs.
Context {mm : ∀ K V, Memory K V} (Pow : spec_float → spec_float → spec_float) (oor : spec_float → Z).
Context (opts : list Option_) (Hv : validateOptions (resolveOptions opts) = None).
Context (Hc : ∀ K V : Type, (o_blockSize (resolveOptions opts) ≤ max_cap K V)%Z).
Context (gob_text : gob_error → string) (defS : Z → list Z → list Z → gob_error + string).

Lemma block_size_ge : (2 ≤ leafCap (deriveParams Pow oor (resolveOptions opts)))%Z.
Proof using Hv. by apply deriveParams_ok. Qed.

Lemma basic_prints : prints (basic Pow oor opts) basic_text.
Proof.
  unfold prints, basic. open_program. do 4 run_step.
  match goal with
  | Et : ?t = _, E1 : Put ?t _ _ = Some ?t1, E2 : Put ?t1 _ _ = Some ?t2, E3 : Put ?t2 _ _ = Some _ |- _ =>
      pose proof (basic_overwrite _ _ _ _ _ _ _ _ 999 Et block_size_ge E1 E2 E3)
  end.
  run_program.
Qed.
Lemma range_prints : prints (range Pow oor opts) range_text.
Proof. unfold prints, range. run_program. Qed.
Lemma upsert_prints : prints (upsert Pow oor opts) upsert_text.
Proof. unfold prints, upsert. run_program. Qed.
Lemma comparator_prints : prints (comparator Pow oor opts) comparator_text.
Proof. unfold prints, comparator. run_program. Qed.
Lemma eviction_prints : prints (eviction Pow oor opts) eviction_text.
Proof. unfold prints, eviction. run_program. Qed.
Lemma leaderboard_prints : prints (leaderboard Pow oor opts) leaderboard_text.
Proof. unfold prints, leaderboard. run_program. Qed.
Lemma prefixscan_prints : prints (prefixscan Pow oor opts) prefixscan_text.
Proof. unfold prints, prefixscan. run_program. Qed.
Lemma ratelimiter_prints : prints (ratelimiter Pow oor opts) ratelimiter_text.
Proof. unfold prints, ratelimiter. run_program. Qed.
Lemma timeseries_prints : prints (timeseries Pow oor opts) timeseries_text.
Proof. unfold prints, timeseries. run_program. Qed.
Lemma mergejoin_prints : prints (mergejoin Pow oor opts) mergejoin_text.
Proof. unfold prints, mergejoin. run_program. Qed.
Lemma disktree_binary_prints gobZ gobF : prints (disktree_binary Pow oor opts gobZ gobF) disktree_binary_text.
Proof. unfold prints, disktree_binary. run_program. Qed.
Lemma disktree_gob_prints defZ :
  disktree_gob Pow oor opts (text_codec gob_text (GobCodec (T := string) defS)) (text_codec gob_text (GobCodec (T := Z) defZ))
    EmptyString = (Done tt, disktree_gob_text).
Proof. unfold disktree_gob. run_program. Qed.
Lemma disktree_varint_prints :
  disktree_varint Pow oor opts (text_codec gob_text (GobCodec (T := string) defS)) EmptyString
  = (Done tt, disktree_varint_text).
Proof. unfold disktree_varint. run_program. Qed.
End outputs.

(** C40: the example programs return without a panic or a fatal error and print
    exactly their texts on trees with any valid options whose block size can be
    allocated (the sources pass none): whatever buffers, flushes and splits their
    trees go through, whatever [math.Pow] gives, and whatever text the errors of
    encoding/gob have. *)
Theorem examples_print {mm : ∀ K V, Memory K V} Pow oor opts (gob_text : gob_error → string) defS defZ gobZ gobF :
  validateOptions (resolveOptions opts) = None →
  (∀ K V : Type, (o_blockSize (resolveOptions opts) ≤ max_cap K V)%Z) →
  let gobS := text_codec gob_text (GobCodec (T := string) defS) in
  let gobI := text_codec gob_text (GobCodec (T := Z) defZ) in
  prints (basic Pow oor opts) basic_text ∧ prints (range Pow oor opts) range_text
  ∧ prints (upsert Pow oor opts) upsert_text ∧ prints (comparator Pow oor opts) comparator_text
  ∧ prints (eviction Pow oor opts) eviction_text ∧ prints (leaderboard Pow oor opts) leaderboard_text
  ∧ prints (prefixscan Pow oor opts) prefixscan_text ∧ prints (ratelimiter Pow oor opts) ratelimiter_text
  ∧ prints (timeseries Pow oor opts) timeseries_text ∧ prints (mergejoin Pow oor opts) mergejoin_text
  ∧ prints (disktree_binary Pow oor opts gobZ gobF) disktree_binary_text
  ∧ disktree_gob Pow oor opts gobS gobI EmptyString = (Done tt, disktree_gob_text)
  ∧ disktree_varint Pow oor opts gobS EmptyString = (Done tt, disktree_varint_text).
Proof.
  intros Hv Hc gobS gobI. split_and!;
    [by apply basic_prints|by apply range_prints|by apply upsert_prints|by apply comparator_prints
    |by apply eviction_prints|by apply leaderboard_prints|by apply prefixscan_prints|by apply ratelimiter_prints
    |by apply timeseries_prints|by apply mergejoin_prints|by apply disktree_binary_prints
    |by apply disktree_gob_prints|by apply disktree_varint_prints].
Qed.

(** The trees of the sources, and trees of fanout two with blocks of two entries. *)
Lemma examples_print_witness :
  prints (timeseries pow_model (λ _, 0%Z) []) timeseries_text
  ∧ prints (timeseries pow_model (λ _, 0%Z) [WithBlockSize 2]) timeseries_text.
Proof.
  assert (∀ sz, (2 ≤ sz ≤ 4096)%Z → validateOptions (resolveOptions [WithBlockSize sz]) = None) as Hv.
  { intros sz Hsz. unfold validateOptions. change (_ || _) with false. cbn. by rewrite decide_False by lia. }
  assert (∀ sz, (sz ≤ 4096)%Z → ∀ K V : Type, (o_blockSize (resolveOptions [WithBlockSize sz]) ≤ max_cap K V)%Z) as Hm.
  { intros sz Hsz K V. cbn. lia. }
  pose (no_type := λ (_ : Z) (_ _ : list Z), @inl gob_error string GobEOF).
  pose (no_typeZ := λ (_ : Z) (_ _ : list Z), @inl gob_error Z GobEOF).
  pose (c := λ T : Type, mkCodec (E := string) (T := T) (λ _, None) (λ _, None)).
  destruct (examples_print pow_model (λ _, 0%Z) [] (λ _, EmptyString) no_type no_typeZ (c _) (c _)
              eq_refl (λ K V, max_cap_default)) as (_ & _ & _ & _ & _ & _ & _ & _ & H1 & _).
  destruct (examples_print pow_model (λ _, 0%Z) [WithBlockSize 2] (λ _, EmptyString) no_type no_typeZ (c _) (c _)
              (Hv 2%Z ltac:(lia)) (Hm 2%Z ltac:(lia))) as (_ & _ & _ & _ & _ & _ & _ & _ & H2 & _).
  exact (conj H1 H2).
Defined.

(** ** Key types *)

(** C35: the comparators of the examples (strings byte by byte, and the four
    composite keys) are total preorders, and identify no two different keys. *)
Theorem key_comparators :
  (Comparator (K := string) cmp_Compare ∧ ∀ x y : string, cmp_Compare x y = 0%Z ↔ x = y)
  ∧ (Comparator compareTenantKeys ∧ ∀ x y, compareTenantKeys x y = 0%Z ↔ x = y)
  ∧ (Comparator compareCacheEntries ∧ ∀ x y, compareCacheEntries x y = 0%Z ↔ x = y)
  ∧ (Comparator compareEntries ∧ ∀ x y, compareEntries x y = 0%Z ↔ x = y)
  ∧ (Comparator compareBucketKeys ∧ ∀ x y, compareBucketKeys x y = 0%Z ↔ x = y).
Proof.
  split_and!; (apply _ || exact compare_zero).
Qed.

(** C36: a prefix scan: on a tree with string keys, the range from [p c] to [p c'],
    where [c'] is the byte after [c], yields in order exactly the live pairs
    whose key starts with [p c]. *)
Theorem prefix_scan {V} `{Zero V} (t : BETree string V) p c c' :
  tree_ok t → cmp t = cmp_Compare → N_of_ascii c' = (N_of_ascii c + 1)%N →
  let prefix := p +:+ String c EmptyString in
  ∃ pairs, Range t prefix (p +:+ String c' EmptyString) = Some (Ascending pairs)
    ∧ ksorted (cmp t) fst pairs
    ∧ ∀ k, alookup (cmp t) k pairs = if has_prefix prefix k then lookup t k else None.
Proof.
  intros Hok C Hc prefix. destruct (ok_wf t Hok) as [h Hwf].
  destruct (materializeRange_gen t h prefix (p +:+ String c' EmptyString) true false (ok_cmp t Hok) Hwf eq_refl)
    as (pairs & E & [S1 _ S3]).
  exists pairs. unfold Range, materializeRange. rewrite E. split_and!; [done|done|].
  intros k. unfold lookup. rewrite S3. pose proof (prefix_range p c c' k Hc) as Hp. rewrite C.
  change (@cmp_Compare string Ordered_string) with string_compare in *. fold prefix in Hp.
  assert (in_range string_compare prefix (p +:+ String c' EmptyString) true false k ↔ has_prefix prefix k = true) as Hin.
  { rewrite Hp. unfold in_range. split.
    - intros [[[_ ?]|[? _]] [[? _]|[_ ?]]]; done.
    - intros [? ?]. split; [by left|by right]. }
  destruct (has_prefix prefix k); [rewrite decide_True by by apply Hin|rewrite decide_False by (by rewrite Hin)]; done.
Qed.

Definition names_tree : option (BETree string Z) :=
  if New (K := string) (V := Z) pow_model (λ _, 0%Z) [WithBlockSize 4] is Some (inr t)
  then foldM (λ t e, Put t e.1 e.2) t
    [("user:1", 1); ("user:10", 2); ("users", 3); ("user", 4); ("user;", 5); ("config:a", 6); ("user:", 7)]%Z
  else None.

Lemma names_tree_ok t : names_tree = Some t → tree_ok t ∧ cmp t = cmp_Compare.
Proof.
  unfold names_tree. destruct (New _ _ _) as [[err|t0]|] eqn:E; [done| |done]. intros Ef.
  destruct (NewWithCompare_refines pow_model (λ _, 0%Z) _ _ t0 string_compare_Comparator E) as ([Hok _ _] & C & _).
  match type of Ef with foldM _ _ ?es = _ =>
    destruct (writes_run _ (λ t (e : string * Z), Put t e.1 e.2) t0 es (Put_plays fst snd) Hok)
      as (t' & E' & Hok' & C' & _)
  end.
  rewrite Ef in E'. injection E' as <-. split; [done|]. by rewrite C'.
Qed.

Lemma prefix_scan_witness :
  ∃ t, names_tree = Some t ∧ N_of_ascii ";" = (N_of_ascii ":" + 1)%N
    ∧ ∃ pairs, Range t "user:" "user;" = Some (Ascending pairs) ∧ ksorted (cmp t) fst pairs
      ∧ ∀ k, alookup (cmp t) k pairs = if has_prefix "user:" k then lookup t k else None.
Proof.
  destruct names_tree as [t|] eqn:E; [|exfalso; vm_compute in E; discriminate E].
  exists t. split; [done|split; [reflexivity|]]. destruct (names_tree_ok t E) as [Hok C].
  exact (prefix_scan t "user" ":" ";" Hok C eq_refl).
Defined.

(** ** Counting *)

(** C37: a loop of [Upsert(k, Increment(d))] over any slice of keys and amounts, at
    any type [Increment] takes, on a new tree with any comparator and parameters,
    leaves each key of the slice with the sum of its amounts, added in the order of
    the slice, and no other key.  Where every amount is the integer one that is the
    number of the key's occurrences (the loops of examples/upsert and
    examples/ratelimiter). *)
Theorem increments_count {K V} `{Zero K, Zero V, Numeric V} {mm : Memory K V} Pow oor (compare : K → K → Z) opts
    (t : BETree K V) (ws : list (K * V)) :
  Comparator compare → NewWithCompare Pow oor (Some compare) opts = Some (inr t) →
  (∃ t' pairs, foldM (λ t w, Upsert t w.1 (Some (Increment w.2))) t ws = Some t'
    ∧ All t' = Some (Ascending pairs) ∧ ksorted compare fst pairs
    ∧ ∀ k, alookup compare k pairs = total (deltas compare k ws))
  ∧ ∀ k (ks : list K), (len ks < 2^63)%Z →
      total (deltas compare k ((λ k, (k, 1%Z)) <$> ks))
      = if decide (count_of compare k ks = 0%Z) then None else Some (count_of compare k ks).
Proof.
  intros HC E. split; [|intros k ks; apply total_ones].
  destruct (NewWithCompare_refines Pow oor compare opts t HC E) as ([Hok _ HL] & C & _).
  destruct (writes_run _ (λ t w, Upsert t w.1 (Some (Increment w.2))) t ws
    (Upsert_plays fst (λ w, Increment w.2)) Hok) as (t' & E' & Hok' & C' & L').
  destruct (ok_wf t' Hok') as [h Hwf].
  destruct (materializeAll_spec t' h (ok_cmp t' Hok') Hwf) as (pairs & Em & [S1 _ S3]).
  assert (cmp t' = compare) as Ct by congruence. rewrite Ct in S1.
  exists t', pairs. unfold All. rewrite Em. split_and!; [done|done|done|].
  intros k. rewrite <-Ct at 1. rewrite S3. case_decide as Htrue; [|by destruct Htrue].
  change (lookup t' k = total (deltas compare k ws)).
  rewrite L', HL, C. exact (run_increments (compare := compare) k ws None).
Qed.

Definition many_words : list string := concat (replicate 7 ["go"; "tree"; "go"; "fractal"; "epsilon"; "b"]).
Lemma increments_count_witness :
  ∃ t t' pairs, New (K := string) (V := Z) pow_model (λ _, 0%Z) [WithBlockSize 4] = Some (inr t)
    ∧ foldM (λ t w, Upsert t w.1 (Some (Increment w.2))) t ((λ k, (k, 1%Z)) <$> many_words) = Some t'
    ∧ All t' = Some (Ascending pairs) ∧ alookup string_compare "go" pairs = Some 14%Z.
Proof.
  destruct (New (K := string) (V := Z) pow_model (λ _, 0%Z) [WithBlockSize 4]) as [[err|t]|] eqn:E;
    [vm_compute in E; discriminate E| |vm_compute in E; discriminate E].
  destruct (increments_count pow_model (λ _, 0%Z) string_compare [WithBlockSize 4] t ((λ k, (k, 1%Z)) <$> many_words)
    string_compare_Comparator E) as ((t' & pairs & E' & Ea & _ & H) & Hcount).
  exists t, t', pairs. split; [reflexivity|]. split; [exact E'|]. split; [exact Ea|].
  rewrite H. rewrite Hcount by (vm_compute; reflexivity). vm_compute. reflexivity.
Defined.

(** ** Loading distinct keys *)

(** What [bulkimport] prints when it counts [h] hits and the trees say they have
    [n1] and [n2] keys. *)
Definition bulk_report (env : measured) (n : nat) (h n1 n2 : Z) : io unit :=
  _ ← Printf "Sequential insert:  %d keys in %v (%.0f ops/sec)\n"
        [AInt (Z.of_nat n); AString (d_text (seqDur env)); AFloat (per_second (Z.of_nat n) (seqDur env))];
  _ ← Printf "Random insert:      %d keys in %v (%.0f ops/sec)\n"
        [AInt (Z.of_nat n); AString (d_text (randDur env)); AFloat (per_second (Z.of_nat n) (randDur env))];
  _ ← Printf "Random reads:       %d keys in %v (%.0f ops/sec), hits=%d\n"
        [AInt (Z.of_nat n); AString (d_text (readDur env)); AFloat (per_second (Z.of_nat n) (readDur env)); AInt h];
  _ ← Printf "\nHeap in use:        %.1f MB\n" [AFloat (megabytes (HeapInuse env))];
  _ ← Printf "Total alloc:        %.1f MB\n" [AFloat (megabytes (TotalAlloc env))];
  _ ← Printf "\nt1.Len() = %d (sequential)\n" [AInt n1];
  Printf "t2.Len() = %d (random)\n" [AInt n2].

Lemma keys_NoDup n : NoDup (Z.of_nat <$> seq 0 n).
Proof. apply NoDup_fmap_2; [apply _|apply NoDup_seq]. Qed.

(** A loop that puts distinct integers, each as its own value. *)
Lemma load_ints {mm : Memory Z Z} Pow oor opts (t : BETree Z Z) ks :
  NoDup ks → New Pow oor (K := Z) opts = Some (inr t) →
  ∃ t', foldM (λ t k, Put t k k) t ks = Some t' ∧ tree_ok t' ∧ Len t' = len ks
    ∧ (∀ k, k ∈ ks → lookup t' k = Some k) ∧ ∀ k, k ∉ ks → lookup t' k = None.
Proof.
  intros Hnd E. pose proof (load_distinct (λ k, k) (λ k, k) Pow oor int_compare opts t ks) as H.
  rewrite list_fmap_id in H. by apply H; [apply _|apply int_compare_eq|..].
Qed.

Lemma hits_loop (t : BETree Z Z) ks n out :
  tree_ok t → (∀ k, k ∈ ks → lookup t k = Some k) →
  for_each ks (λ hits k, '(_, ok) ← must (Get t k); mret (if ok : bool then hits + 1 else hits)%Z) n out
  = (Done (n + len ks)%Z, out).
Proof.
  intros Hok. revert n. induction ks as [|k ks IH]; intros n Hl; cbn [for_each length].
  { by rewrite Z.add_0_r. }
  rewrite (bind_done _ _ _ (n + 1)%Z out).
  - rewrite IH by (intros x Hx; apply Hl; by right). f_equal. f_equal. lia.
  - unfold Get. rewrite getFromNode_root, (Hl k) by (done || by left). done.
Qed.

(** C38: examples/bulkimport at any number of keys and any shuffle: it finds every
    key it inserted, and both trees report exactly as many keys. *)
Theorem bulkimport_counts {mm : ∀ K V, Memory K V} Pow oor (shuffle : list Z → list Z) env n :
  (∀ l, shuffle l ≡ₚ l) →
  let N := Z.of_nat n in
  ∀ out, bulkimport Pow oor shuffle env n out = bulk_report env n N N N out.
Proof.
  intros Hsh N out. unfold bulkimport.
  destruct (NewWithCompare_default Pow oor (V := Z) int_compare) as [t E].
  change (New Pow oor (K := Z) (V := Z) [] = Some (inr t)) in E.
  destruct (load_ints Pow oor [] t (Z.of_nat <$> seq 0 n) (keys_NoDup n) E) as (t1 & E1 & Hok1 & Hl1 & _).
  set (ks := shuffle (Z.of_nat <$> seq 0 n)) in *.
  assert (ks ≡ₚ Z.of_nat <$> seq 0 n) as Hks by apply Hsh.
  assert (len ks = N) as Hlen by (by rewrite Hks, length_fmap, length_seq).
  destruct (load_ints Pow oor [] t ks) as (t2 & E2 & Hok2 & Hl2 & Hin & _);
    [rewrite Hks; apply keys_NoDup|done|].
  rewrite length_fmap, length_seq in Hl1. rewrite Hlen in Hl2.
  rewrite E. change (fatal (Some (inr t))) with (mret (M := io) t). rewrite (bind_done _ _ _ t out) by done. rewrite (bind_done _ _ _ t1 out) by (by rewrite for_each_must, E1).
  unfold bulk_report. apply bind_ext. intros _ o1.
  rewrite (bind_done _ _ _ t o1) by done.
  rewrite (bind_done _ _ _ t2 o1) by (by rewrite for_each_must, E2).
  apply bind_ext. intros _ o2.
  rewrite (bind_done _ _ _ N o2) by (by rewrite hits_loop, Hlen).
  by rewrite Hl1, Hl2.
Qed.

Definition some_measures : measured :=
  mkMeasured (mkDuration "1s" (float64 1)) (mkDuration "2s" (float64 2)) (mkDuration "4s" (float64 4)) (2^20) (2^21).
Lemma bulkimport_counts_witness :
  (∀ l : list Z, reverse l ≡ₚ l)
  ∧ bulkimport pow_model (λ _, 0%Z) reverse some_measures 5 EmptyString
    = bulk_report some_measures 5 5 5 5 EmptyString.
Proof.
  split; [intros l; apply reverse_Permutation|].
  exact (bulkimport_counts pow_model (λ _, 0%Z) reverse some_measures 5 (λ l, reverse_Permutation l) EmptyString).
Defined.

(** ** The concurrent example *)

Definition put_of (o : op Z Z) : option Z := if o is OpPut k _ then Some k else None.
(** The calls of the example: puts of a key as its own value, and reads. *)
Definition puts_itself (o : op Z Z) : Prop :=
  match o with OpPut k v => k = v | OpGet _ => True | _ => False end.

Lemma exec_all_puts (t t' : BETree Z Z) os rs :
  Forall puts_itself os → exec_all t os = Some (t', rs) → foldM (λ t k, Put t k k) t (omap put_of os) = Some t'.
Proof.
  intros Hos. revert t rs. induction Hos as [|o os Ho _ IH]; intros t rs E; cbn [exec_all] in E.
  { by injection E as -> _. }
  apply bind_Some in E as ([t1 r] & E1 & E). apply bind_Some in E as ([t2 rs2] & E2 & [= -> _]).
  destruct o; try done; cbn [exec] in E1; apply bind_Some in E1 as (x & Ex & E1).
  - cbn in Ho. subst. injection E1 as <- _. cbn [omap list_omap put_of foldM]. rewrite Ex. by eapply IH.
  - destruct x. injection E1 as <- _. by eapply IH.
Qed.

Lemma writer_puts ops w : omap put_of (writer_calls ops w) = (λ i, Z.of_nat (w * ops + i)) <$> seq 0 ops.
Proof. unfold writer_calls. induction (seq 0 ops) as [|i l IH]; [done|]. cbn in *. by rewrite IH. Qed.
Lemma reader_puts ops : omap put_of (reader_calls ops) = [].
Proof. unfold reader_calls. induction (seq 0 ops) as [|i l IH]; done. Qed.

Lemma omap_concat {A B} (f : A → option B) (ls : list (list A)) : omap f (concat ls) = concat ((λ l : list A, omap f l) <$> ls).
Proof. induction ls as [|l ls IH]; [done|]. cbn [concat]. by rewrite omap_app, IH. Qed.

Lemma seq_blocks ops nW : concat ((λ w, (λ i, Z.of_nat (w * ops + i)) <$> seq 0 ops) <$> seq 0 nW)
  = Z.of_nat <$> seq 0 (nW * ops).
Proof.
  induction nW as [|nW IH]; [done|].
  rewrite seq_S, fmap_app, concat_app, IH. cbn [fmap list_fmap concat app]. rewrite app_nil_r.
  replace (S nW * ops) with (nW * ops + ops) by lia. rewrite seq_app, fmap_app. f_equal.
  rewrite !Nat.add_0_l.
  assert (seq (nW * ops) ops = Nat.add (nW * ops) <$> seq 0 ops) as -> by (rewrite fmap_add_seq; f_equal; lia).
  by rewrite <-list_fmap_compose.
Qed.

Lemma launched_puts nW nR ops : omap put_of (concat (launched nW nR ops)) = Z.of_nat <$> seq 0 (nW * ops).
Proof.
  unfold launched. rewrite concat_app, omap_app, !omap_concat, <-list_fmap_compose.
  rewrite <-(seq_blocks ops nW). rewrite (list_fmap_ext _ (λ w, (λ i, Z.of_nat (w * ops + i)) <$> seq 0 ops))
    by (intros; apply writer_puts).
  induction nR as [|nR IH]; cbn [replicate]; [by rewrite app_nil_r|].
  rewrite fmap_cons. cbn [concat]. by rewrite reader_puts.
Qed.

Lemma launched_itself nW nR ops : Forall puts_itself (concat (launched nW nR ops)).
Proof.
  apply Forall_concat, Forall_app. split.
  - apply Forall_fmap, Forall_true. intros w. by apply Forall_fmap, Forall_true.
  - apply Forall_replicate. by apply Forall_fmap, Forall_true.
Qed.

Definition concurrent_text (keys : Z) : string :=
  pieces [] [["Final Len: "; string_of_Z keys; newline]; ["Contains(0): true"; newline];
             ["Contains(3999): true"; newline]; ["No races detected!"; newline]].

(** C39: examples/concurrent, with any numbers of writers, readers and calls that
    include key 3999: some interleaving prints something, and every interleaving
    prints the same: every key was stored, [Len] is exact. *)
Theorem concurrent_output {mm : ∀ K V, Memory K V} Pow oor nW nR ops :
  3999 < nW * ops →
  let text := concurrent_text (Z.of_nat (nW * ops)) in
  concurrent_prints Pow oor nW nR ops (Done tt, text)
  ∧ ∀ r, concurrent_prints Pow oor nW nR ops r → r = (Done tt, text).
Proof.
  intros Hn text. destruct (NewWithCompare_default Pow oor (V := Z) int_compare) as [t E].
  change (New Pow oor (K := Z) (V := Z) [] = Some (inr t)) in E.
  destruct (NewWithCompare_refines Pow oor int_compare [] t int_compare_Comparator E) as (HR & _).
  assert (∀ c, rtc step (start t (launched nW nR ops)) c → finished c →
            after_wait (mem c) EmptyString = (Done tt, text)) as Hall.
  { intros c Hr Hf. pose proof (inv_reachable t _ c Hr) as HI.
    pose proof (finished_calls t _ c HI Hf) as Hp.
    assert (Forall puts_itself (hist c).*1.*2) as Hself by (rewrite Hp; apply launched_itself).
    pose proof (exec_all_puts t (mem c) _ _ Hself (inv_hist _ _ _ HI)) as Ef.
    set (ks := omap put_of (hist c).*1.*2) in *.
    assert (ks ≡ₚ Z.of_nat <$> seq 0 (nW * ops)) as Hks by (unfold ks; by rewrite Hp, launched_puts).
    destruct (load_ints Pow oor [] t ks) as (t' & E' & Hok & Hl & Hin & _); [rewrite Hks; apply keys_NoDup|done|].
    rewrite Ef in E'. injection E' as <-. rewrite Hks, length_fmap, length_seq in Hl.
    assert (∀ i, i < nW * ops → Contains (mem c) (Z.of_nat i) = Some true) as Hc.
    { intros i Hi. unfold Contains, Get. rewrite getFromNode_root by done.
      rewrite (Hin (Z.of_nat i)); [done|]. rewrite Hks. apply list_elem_of_fmap_2, elem_of_seq. lia. }
    unfold after_wait. rewrite Hl. change 0%Z with (Z.of_nat 0). change 3999%Z with (Z.of_nat 3999).
    rewrite !Hc by lia.
    unfold text, concurrent_text, Say, Println. cbn [Sprintln render_v]. generalize (string_of_Z (Z.of_nat (nW * ops))) as s.
    intros s. reflexivity. }
  split.
  - destruct (inv_completes t _ [] _ HR (start_inv t (launched nW nR ops))) as (c & Hr & Hf & _).
    exists t, c. split_and!; [done|done|done|by apply Hall].
  - intros r (t' & c & E' & Hr & Hf & <-). rewrite E in E'. injection E' as <-. by apply Hall.
Qed.

Lemma concurrent_output_witness :
  3999 < 4 * 1000
  ∧ concurrent_prints pow_model (λ _, 0%Z) 4 4 1000
      (Done tt, concurrent_text (Z.of_nat (4 * 1000))).
Proof.
  assert (3999 < 4 * 1000) as Hn by (apply Nat.ltb_lt; vm_compute; reflexivity).
  split; [exact Hn|]. exact (proj1 (concurrent_output pow_model (λ _, 0%Z) 4 4 1000 Hn)).
Defined.

(** ** Codecs *)

(** [GobCodec] encodes a value, and decodes what it encoded, whatever it makes of a
    message that defines a type. *)
Definition gob_roundtrip {T} `{GobType T, Zero T} (v : T) : Prop :=
  ∃ data, Gob_Encode v = inr data ∧ ∀ type_definition,
    (∀ garbage, Gob_Decode type_definition (data ++ garbage) = inr v)
    ∧ ∀ i, i < length data → ∃ e, Gob_Decode type_definition (take i data) = inl e.

Lemma gob_roundtrips {T} `{GobType T, Zero T} {valid : T → Prop} {HG : GobTypeSpec T valid} (v : T) data :
  valid v → encodeValue v = inr data → gob_roundtrip v.
Proof.
  intros Hv E. exists data. rewrite Gob_Encode_value. split; [done|]. intros td. split.
  - intros garbage. rewrite Gob_Decode_value. by apply (decode_encode (valid := valid)).
  - intros i Hi. destruct (decode_cut (valid := valid) td v data i E Hi) as [e E'].
    exists e. by rewrite Gob_Decode_value.
Qed.

(** C34: the codecs of the library and of the examples.  Varint strings: [Decode] panics on no bytes,
    [Encode] on no string.  Fixed-size values: an int32 takes four bytes and a
    float64 eight, and any shorter input is an error.  What was encoded, even with
    garbage after it, is decoded to the value: every string shorter than 2^63,
    every int32, every float64 (NaN included, with its payload when the float is
    given by its bits).  [GobCodec], the default: every
    int64 and every string shorter than 2^33 - 11 is encoded and decoded to itself,
    with garbage after it too; what it encoded is an error when cut short. *)
Theorem codecs_roundtrip :
  (∀ data, Forall (λ b, 0 ≤ b < 256)%Z data → ∃ r, VarintStringCodec.Decode data = Some r)
  ∧ (∀ b garbage, (Z.of_nat (length b) < 2^63)%Z →
      ∃ data, VarintStringCodec.Encode b = Some data
        ∧ VarintStringCodec.Decode (data ++ garbage) = Some (inr b))
  ∧ (∀ (v : Z) garbage, is_int32 v → ∃ data, BinaryCodec.Encode v = inr data ∧ length data = 4
      ∧ BinaryCodec.Decode (data ++ garbage) = inr v)
  ∧ (∀ (f : spec_float) garbage, is_float64 f → ∃ data, BinaryCodec.Encode f = inr data ∧ length data = 8
      ∧ BinaryCodec.Decode (data ++ garbage) = inr f)
  ∧ (∀ (f : Float64) garbage, is_word f → ∃ data, BinaryCodec.Encode f = inr data ∧ length data = 8
      ∧ BinaryCodec.Decode (data ++ garbage) = inr f)
  ∧ (∀ f : spec_float, BinaryCodec.Encode (Float64_of f) = BinaryCodec.Encode f)
  ∧ (∀ data, length data < 4 → ∃ e, BinaryCodec.Decode (T := Z) data = inl e)
  ∧ (∀ data, length data < 8 → ∃ e, BinaryCodec.Decode (T := spec_float) data = inl e)
  ∧ (∀ v : Z, is_int64 v → gob_roundtrip v)
  ∧ (∀ s : string, (len (bytes_of s) < 2^33 - 11)%Z → gob_roundtrip s).
Proof.
  destruct varint_roundtrip as [H1 H2]. split_and!; [exact H1|exact H2|..].
  - intros v garbage Hv. eexists. split_and!; [done|apply length_le_bytes|].
    by apply (Binary_Decode_Encode (valid := is_int32)); [cbn; lia|..].
  - intros f garbage Hf. eexists. split_and!; [done|apply length_le_bytes|].
    by apply (Binary_Decode_Encode (valid := is_float64)); [cbn; lia|..].
  - intros f garbage Hf. eexists. split_and!; [done|apply length_le_bytes|].
    by apply (Binary_Decode_Encode (valid := is_word)); [cbn; lia|..].
  - exact Encode_Float64_of.
  - intros data. exact (Binary_Decode_short (T := Z) data).
  - intros data. exact (Binary_Decode_short (T := spec_float) data).
  - intros v Hv. destruct (int_fits v Hv) as [data E]. by apply (gob_roundtrips (valid := is_int64) v data).
  - intros s Hs. destruct (string_fits s Hs) as [data E].
    by apply (gob_roundtrips (valid := λ _ : string, True) s data).
Qed.

Lemma codecs_roundtrip_witness :
  is_int32 (-5) ∧ is_float64 (cents 314)
  ∧ (∃ data, BinaryCodec.Encode (cents 314) = inr data ∧ length data = 8
      ∧ BinaryCodec.Decode (data ++ [1; 2]%Z) = inr (cents 314))
  ∧ gob_roundtrip (-129)%Z.
Proof.
  split; [vm_compute; split; [discriminate|reflexivity]|]. assert (is_float64 (cents 314)) as Hf by (vm_compute; reflexivity).
  split; [exact Hf|]. destruct codecs_roundtrip as (_ & _ & _ & HF & _ & _ & _ & _ & HG & _).
  split; [exact (HF (cents 314) [1; 2]%Z Hf)|]. apply HG. unfold is_int64. lia.
Defined.
